(* ===== verification/_CoqProject ===== *)
-Q . S2P
Prelude.v
Utf8.v
Hex.v
Ed25519.v
Keys.v
Context.v
AccountLog.v
Codec.v
Addr.v
Draft.v
Record.v
Account.v
AccountTheorems.v
Identity.v
HttpAuth.v
CausalHistory.v
CausalTheorems.v
Storage.v
StorageTheorems.v
VirtualTime.v
MessageTypes.v
Installation.v
Delivery.v
FileTransport.v
Text.v
Endpoints.v
KeyVault.v
Registry.v
HttpTheorems.v
MessageStore.v
Wakeup.v
Sql.v
Services.v
MlsIdentity.v
SqliteStore.v
SqliteKv.v
KvSuite.v
MlsUtils.v
GroupV1.v
GroupV3.v
GroupV2.v
Convo.v
Core.v
Client.v
ChatApp.v
Ui.v
Screen.v
Logos.v
Evidence.v
Reference.v
MlsConfig.v
ConversationTheorems.v
GroupV2Theorems.v
Trace.v
CoreTheorems.v
ClientTheorems.v
AppTheorems.v
LogosTheorems.v
Exchange.v
