(* ===== verification/Prelude.v ===== *)
(** * Verification of logos-chat

    A model of the Rust program and the theorems that make it correct. This
    first file holds what all others share; this header documents them all.

    ** The program and its parts

    An _account_ is an append-only log of entries (endorsed device keys, texts,
    tombstones) signed by the account key and published to a directory. A
    _device_ (installation) has a signing key endorsed by an account. Devices
    meet in _conversations_ over MLS: a direct one and three kinds of group.
    The _core_ owns the conversations, routes inbound payloads to them, and
    keeps a causal history that reveals gaps. The _client_ runs the core behind
    a lock with a worker thread, and reports events to the application.
    Stores, transports, registries, the directory and timers are services.

    ** Files and sources (paths under src/)

    - [Prelude], [Utf8]: results, bytes, fixed-width integers, UTF-8.
    - [Hex], [Ed25519] (core/crypto/src/signatures.rs): interfaces of the hex
      and ed25519 crates with their laws and executable reference instances,
      and the program's own wrappers (canonical encodings); [Keys]
      (core/crypto/src/keys.rs): key exchange and symmetric keys.
    - [Context], [AccountLog], [Codec], [Addr], [Draft], [Record]
      (account/account-log/src): the log, its byte format, drafts and the
      verified record; [Account] (account/account/src): publishing and
      resolving. Theorems: [AccountTheorems].
    - [MlsIdentity] (identity.rs, inbox_v2/identity.rs, utils.rs, the identity
      providers): credentials, what is read off a leaf, the names shown.
    - [Identity] (identity.rs, service_traits.rs), [HttpAuth]
      (http_auth_client.rs), [Registry] (contact_registry/): who a signer is,
      and the HTTP clients against an arbitrary server. Theorems:
      [HttpTheorems] and at the end of [Registry].
    - [CausalHistory] (causal_history.rs), [CausalTheorems].
    - [Storage] (storage.rs, kv.rs, in_memory_store.rs, sqlite/src/kv.rs),
      [StorageTheorems]; [Sql] (both migrations.rs): tables, migrations, and
      connections opening at once; [SqliteStore] (sqlite/src/common.rs, lib.rs,
      identity.rs, errors.rs); [SqliteKv] (sqlite/src/kv.rs, kv.rs):
      transactions on an engine that can refuse any statement; [KvSuite]
      (storage/test_assertions.rs): the contract suite as programs over any
      store; [MessageStore] (message-store/src/lib.rs).
    - [MessageTypes] (message-types/src/lib.rs): content envelopes.
    - [Installation] (installation.rs, members.rs, errors.rs of generic-chat).
    - [Delivery] (types.rs, local_broadcaster.rs, the bus of
      delivery_in_process.rs); [Endpoints] (delivery_in_process.rs,
      embedded-logos-delivery/src/lib.rs): a client's end of the bus and the
      embedded node, with the promise of the bus and its refinement.
    - [KeyVault] (key_vault/basic_file_key_vault.rs): accounts and installation
      keys as files, on a file system that can fail in the middle of a write.
    - [Wakeup] (components/src/wakeup.rs): two threads, a mutex, a condition
      variable and the clock as interleaved steps; [VirtualTime]
      (integration_tests_core/src/wakeup.rs): time advanced by hand.
    - [Services]: the state-and-error monad of the core, the service traits as
      classes with laws, the shared context; [MlsUtils] (inbox_v2.rs, mls_utils,
      mls_extensions), [GroupV1] (group_v1.rs, direct_v1.rs), [GroupV3]
      (group_v3/), [GroupV2] (group_v2.rs), [Convo] (conversation.rs and the
      trait objects), [Core] (core.rs, outcomes.rs); [MlsConfig] (mls_groups.rs
      and the configurations of each kind): how groups and key packages are
      set up.
    - [Client] (generic-chat/src/client.rs, event.rs).
    - [FileTransport] (chat-cli/src/transport/file.rs): frames in files, writers
      whose writes interleave and that may die half way, and readers that poll.
      [Text]: what the terminal client uses of
      strings. [ChatApp] (chat-cli/src/app.rs, the keyboard of ui.rs and the
      loop of main.rs): the chats, every command and every event. [Ui] (ui.rs):
      the rows, titles and input line that are drawn. [Screen] (main.rs,
      ui.rs): the terminal session from launch to restore.
    - [Logos] (generic-chat/src/builder.rs, logos-chat/src/logos.rs,
      chat-cli/src/main.rs): the builder, the configuration, registering and
      reopening an installation, and the branches of [main]. Theorems:
      [LogosTheorems].
    - [Exchange] (examples/message-exchange/main.rs): two whole clients on one
      bus, one registry and one auth service, run from start to the last
      message on the reference instances.
    - [Trace] (mls_trace.rs, mls_trace/record.rs, group_v2/trace.rs): trace
      records, and the operations of GroupV2 with the records they write.
    - [Evidence]: interfaces from the kinds of conversation to the core and the
      client: what any conversation surfaces is vouched for, and its effect on
      the shared context only grows. [Reference]: executable instances of every
      external interface, on which the witnesses evaluate.
    - [ConversationTheorems], [GroupV2Theorems], [CoreTheorems],
      [ClientTheorems], [AppTheorems].

    ** How code becomes definitions

    Structs are records and enums inductive types with the source's names.
    A [Result] is [result]; [&mut self] is state passed and returned, in the
    conversations through the monad [St], whose errors keep the state reached
    when they were raised; a panic ([expect], [unwrap]) is [None] or the fault
    [Panic]. Integers keep their width where it matters: lengths on the wire
    are u16 and u32 with wrap-around, the Lamport clock is an i32, sequence
    numbers are i64. Loops that are not structural take fuel, and a lemma shows
    the fuel enough: [decode_loop] runs on the length of the body since an
    entry takes at least its header; [poll_loop] on the length of the queue;
    [read_back] on the count of messages; [expired_loop] on the records pending. Retries are structural on the number
    of attempts left.

    Code outside the repository is a class with, where a theorem relies on it,
    a class of laws: [Hex], [Dalek], [Blake2b], [Cbor], [Prost], [TlsCodec],
    [OpenMls], [DeMls], [DeMlsTrace], the HTTP server and the world it is part
    of ([HttpWorld]), [DeliveryNode], [RusqliteDisplay], the connection of
    [SqliteStore] and the engine of [SqliteKv], [X25519], [Credentials],
    [MlsDefaults], [MockClock], [SerdeJson], [HashIter]. The laws state
    documented behaviour (a decoder inverts its encoder, a verified signature is
    of the key), never a conclusion. Of the account server [HttpWorldLaws] says
    that a log it accepted is not answered with "not found" and that an answer
    that comes through whole is that log; it may shed or break off any read.
    SQL is given its own meaning: [Sql.exec] for the statements of the
    migrations, and the queries of the stores as functions of the rows. A heap
    with equal keys may give up either; a condition variable may wake
    spuriously. De-mls and OpenMLS read the clock through the provider [P],
    which is part of the state.

    ** How runs are cut into steps

    The client's lock makes each of its calls, and each turn of its worker, one
    step. Within a step the auth service [AuthService] is one function; the
    theorems over runs of the core and the client let it be another at each
    step, and let the transport, the registry and the provider change between
    steps. In the terminal application a key press, a pass over the waiting
    events and a worker turn are steps: worker turns between two calls of the
    core within one command are not modelled, and the auth service is the same
    throughout the run.

    ** What the theorems show

    - Account log: the byte format is canonical and read back exactly, the byte
      order of payloads decides the order of histories, tombstones are checked
      exactly, drafts stay valid, records and resolvers never roll back.
    - Causal history: the frontier is bounded, gaps and acknowledgements are
      surfaced exactly once, a receiver misses exactly what it has not seen.
    - Stores: the in-memory and the SQLite stores agree reply for reply, for
      pairs and for records; a transaction is all or nothing whatever statement
      the engine refuses, commit and rollback included; a store that simulates
      the plain map passes the contract suite, and both stores do; migrations resume from
      any failure and keep the data; the message store refines a log and its
      paging is complete.
    - Conversations: what is surfaced is exactly the vouched content and the
      membership notices of the payload, only vetted signers are added, a
      GroupV2 operation publishes exactly the welcomes and packets owed, commits
      are published before they are merged, a group's name and description read
      back, and what fails leaves what state.
    - Core and client: the result of routing on every branch, nothing is lost
      over any run, a client does to its core exactly what was asked of it and
      answers what the core answered, each message event is content the core
      surfaced under the account that endorses its sender, and gaps and
      acknowledgements are reported exactly and once.
    - Terminal client: over every run, what is on the screen was received,
      under the account it is attributed to, or sent here; the chats shown are
      the chats a restart loads; a run of it is a run of the client. A reader of
      the file transport tries exactly the frames each file holds, however
      writers and readers interleave; where publishes do not overlap these are
      the payloads published, once and in order.
    - Opening a client: the vault endorses a key before it writes it, and what
      it installed stays and is returned again; what was registered passes the
      self-check the client runs next unless its lookup fails; a store is opened as one installation for ever after; a first
      start over the network is never refused for want of endorsement.
    - Identity: what others read off an installation's leaf is its key and
      account, and its MLS signatures verify under that key; the key packages
      clients publish fit every kind of group; two parties of a key exchange
      agree.
    - The terminal is handed back as it was unless its own operations fail or
      the application panics; dropping a client is a run that ends its worker.
    - Transports: the in-process bus refines mailboxes over every run.
    - Tracing changes nothing a conversation does, the records an inbound frame
      leaves are true and miss no leaving, no new epoch and no failed
      decryption, and each renders as one line that can be read back.
    - Timers: each fires once and never early over every interleaving, and due
      ones fire within a bounded number of steps; advancing virtual time
      returns exactly what is due, in order.

    Defects the model exposed are theorems as well: an oversized text that is
    published and unreadable, the wrap of the Lamport clock, a failed send that
    leaves a gap, an unchecked HPKE key in GroupV3, a lost welcome in GroupV2,
    the shutdown race of the timer thread ([drop_can_hang]), the race of two
    connections opening one database ([sqlite_open_race]), a reply that stops
    the terminal client ([foreign_reply_panics]), a flag left behind by a
    deletion ([delete_leaves_stale_flag]), a frame lost to a full channel
    ([full_channel_loses_frame]), publishers that garble each other's frames
    ([overlapping_publishes_garbled], [crash_swallows_next]), typed text that stops the drawing
    ([typed_text_stops_drawing]), a display name that is never published
    ([failed_name_never_published]), an alias that leads out of the vault
    ([dots_lead_out]), options the network branch does not listen to
    ([network_ignores_options]), windows and invitations that differ between
    who created and who joined a group ([windows_by_role]) and a terminal left
    in its alternate screen ([terminal_left_behind]).

    ** Not modelled

    The tracing crate (levels, spans, rendering) and other log lines; the
    insides of MLS, de-mls, SQLCipher, HTTP, protobuf and CBOR, and of the
    delivery node; failures of the database under a query of the record and
    message stores (the migrations and the key-value store have them); sleeping
    between retries; zeroizing of memory; the widgets and colours of the
    terminal; the harness that drives several clients in the integration tests,
    whose parts are modelled on their own; unit tests. *)

From Stdlib Require Import Strings.Byte Strings.String.
From stdpp Require Import base gmap strings list pretty numbers.

(** ** Results: Rust's [Result<A, E>] *)

Inductive result (E A : Type) : Type :=
| Ok (a : A)
| Err (e : E).
Arguments Ok {E A} a.
Arguments Err {E A} e.

(** The [?] operator is [mbind]; [map] on the success value is [fmap]. *)
#[export] Instance result_ret {E} : MRet (result E) := fun A a => Ok a.
#[export] Instance result_bind {E} : MBind (result E) := fun A B f m =>
  match m with Ok a => f a | Err e => Err e end.
#[export] Instance result_fmap {E} : FMap (result E) := fun A B f m =>
  match m with Ok a => Ok (f a) | Err e => Err e end.

(** [Result::map_err]. *)
Definition map_err {E F A} (f : E → F) (m : result E A) : result F A :=
  match m with Ok a => Ok a | Err e => Err (f e) end.

(** [Option::ok_or]. *)
Definition ok_or {E A} (o : option A) (e : E) : result E A :=
  match o with Some a => Ok a | None => Err e end.

Definition is_ok {E A} (m : result E A) : bool :=
  match m with Ok _ => true | Err _ => false end.

#[export] Instance result_eq_dec `{EqDecision E, EqDecision A} : EqDecision (result E A).
Proof. solve_decision. Defined.

Section result_lemmas.
Context {E A B : Type}.
Implicit Types (m : result E A) (f : A → result E B).

Lemma bind_Ok m f b : m ≫= f = Ok b ↔ ∃ a, m = Ok a ∧ f a = Ok b.
Proof. destruct m; cbn; naive_solver. Qed.

Lemma bind_Err m f e :
  m ≫= f = Err e ↔ m = Err e ∨ ∃ a, m = Ok a ∧ f a = Err e.
Proof. destruct m; cbn; naive_solver. Qed.

Lemma fmap_Ok (g : A → B) m b : g <$> m = Ok b ↔ ∃ a, m = Ok a ∧ b = g a.
Proof. destruct m; cbn; naive_solver. Qed.

Lemma map_err_Ok {F} (g : E → F) m a : map_err g m = Ok a ↔ m = Ok a.
Proof. destruct m; cbn; naive_solver. Qed.

Lemma ok_or_Ok (o : option A) (e : E) a : ok_or o e = Ok a ↔ o = Some a.
Proof. destruct o; cbn; naive_solver. Qed.
End result_lemmas.

(** [mapM] over results, as [iter().map(f).collect::<Result<Vec<_>, _>>()]:
    the first error ends the collection. *)
Fixpoint collect {E A B} (f : A → result E B) (l : list A) : result E (list B) :=
  match l with
  | [] => Ok []
  | x :: l => y ← f x; ys ← collect f l; Ok (y :: ys)
  end.

Lemma collect_Ok {E A B} (f : A → result E B) l ys :
  collect f l = Ok ys ↔ Forall2 (λ x y, f x = Ok y) l ys.
Proof.
  revert ys; induction l as [|x l IH]; intros ys; cbn.
  - split; [intros [= <-]; constructor | by inversion 1].
  - rewrite bind_Ok; split.
    + intros (y & Hy & (zs & Hz & [= <-])%bind_Ok). constructor; naive_solver.
    + inversion 1; subst; eexists; split; [done|].
      apply bind_Ok; eexists; split; [by apply IH | done].
Qed.

(** ** Bytes *)

#[export] Instance byte_eq_dec : EqDecision byte := Byte.byte_eq_dec.

#[export, refine] Instance byte_countable : Countable byte :=
  inj_countable Byte.to_N Byte.of_N _.
Proof. exact Byte.of_to_N. Defined.

#[export] Instance byte_inhabited : Inhabited byte := populate x00.

(** [n as u8]. *)
Definition u8 (n : N) : byte := default x00 (Byte.of_N (n mod 256)).

Lemma to_N_lt b : (Byte.to_N b < 256)%N.
Proof. pose proof (Byte.to_N_bounded b); lia. Qed.

Lemma to_N_u8 n : Byte.to_N (u8 n) = (n mod 256)%N.
Proof.
  unfold u8. pose proof (Byte.to_of_N_option_map (n mod 256)) as H.
  pose proof (N.mod_upper_bound n 256 ltac:(lia)).
  destruct (Byte.of_N _); cbn in *.
  - destruct (N.leb_spec (n mod 256) 255); congruence.
  - destruct (N.leb_spec (n mod 256) 255); [congruence | lia].
Qed.

Lemma u8_to_N b : u8 (Byte.to_N b) = b.
Proof.
  unfold u8. rewrite N.mod_small by apply to_N_lt. by rewrite Byte.of_to_N.
Qed.

Lemma to_N_inj b c : Byte.to_N b = Byte.to_N c → b = c.
Proof. intros H. by rewrite <- (u8_to_N b), <- (u8_to_N c), H. Qed.

Lemma byte_eqb_eq a b : Byte.eqb a b = true ↔ a = b.
Proof. split; [apply Byte.byte_dec_bl | apply Byte.byte_dec_lb]. Qed.

(** A decidable fact about every byte is checked by evaluation. *)
Definition all_bytes (f : byte → bool) : bool :=
  forallb f (map (λ n, u8 (N.of_nat n)) (seq 0 256)).

Lemma all_bytes_spec f : all_bytes f = true → ∀ b, f b = true.
Proof.
  unfold all_bytes. rewrite forallb_forall. intros H b. apply H, in_map_iff.
  exists (N.to_nat (Byte.to_N b)). rewrite N2Nat.id, u8_to_N. split; [done|].
  apply in_seq. pose proof (to_N_lt b). lia.
Qed.

(** Byte-range test, [lo..=hi] patterns. *)
Definition byte_in (lo hi : N) (b : byte) : bool :=
  (lo <=? Byte.to_N b)%N && (Byte.to_N b <=? hi)%N.

(** [u8::is_ascii_lowercase], [u8::is_ascii_digit]. *)
Definition is_ascii_lowercase : byte → bool := byte_in 97 122.
Definition is_ascii_digit : byte → bool := byte_in 48 57.

(** ** Fixed-width integers on the wire *)

(** [to_le_bytes] of an unsigned integer [w] bytes wide. *)
Fixpoint to_le_bytes (w : nat) (n : N) : list byte :=
  match w with
  | O => []
  | S w => u8 n :: to_le_bytes w (n / 256)
  end.

Fixpoint from_le_bytes (l : list byte) : N :=
  match l with
  | [] => 0
  | b :: l => (Byte.to_N b + 256 * from_le_bytes l)%N
  end.

Definition to_be_bytes (w : nat) (n : N) : list byte := rev (to_le_bytes w n).

Lemma length_to_le_bytes w n : length (to_le_bytes w n) = w.
Proof. revert n; induction w; intros; cbn; auto. Qed.

Lemma length_to_be_bytes w n : length (to_be_bytes w n) = w.
Proof. unfold to_be_bytes. by rewrite length_rev, length_to_le_bytes. Qed.

Lemma from_to_le_bytes w n :
  from_le_bytes (to_le_bytes w n) = (n mod 256 ^ N.of_nat w)%N.
Proof.
  revert n; induction w as [|w IH]; intros n; cbn [to_le_bytes from_le_bytes].
  - by rewrite N.mod_1_r.
  - rewrite IH, to_N_u8, Nat2N.inj_succ, N.pow_succ_r'.
    by rewrite N.Div0.mod_mul_r.
Qed.

Lemma to_from_le_bytes l : to_le_bytes (length l) (from_le_bytes l) = l.
Proof.
  induction l as [|b l IH]; [done|]. cbn [length to_le_bytes from_le_bytes].
  pose proof (to_N_lt b) as Hb. f_equal.
  - apply to_N_inj. rewrite to_N_u8, N.mul_comm, N.Div0.mod_add.
    by apply N.mod_small.
  - rewrite N.mul_comm, N.div_add by lia. rewrite N.div_small by done. exact IH.
Qed.

Lemma from_le_bytes_lt l : (from_le_bytes l < 256 ^ N.of_nat (length l))%N.
Proof.
  rewrite <- (to_from_le_bytes l) at 1. rewrite from_to_le_bytes.
  apply N.mod_upper_bound. apply N.pow_nonzero; lia.
Qed.

Lemma to_le_bytes_inj w n m :
  (n < 256 ^ N.of_nat w)%N → (m < 256 ^ N.of_nat w)%N →
  to_le_bytes w n = to_le_bytes w m → n = m.
Proof.
  intros Hn Hm H%(f_equal from_le_bytes). rewrite !from_to_le_bytes in H.
  by rewrite !N.mod_small in H.
Qed.

Lemma to_be_bytes_inj w n m :
  (n < 256 ^ N.of_nat w)%N → (m < 256 ^ N.of_nat w)%N →
  to_be_bytes w n = to_be_bytes w m → n = m.
Proof.
  intros Hn Hm H%(f_equal (@rev byte)). unfold to_be_bytes in H.
  rewrite !rev_involutive in H. by eapply to_le_bytes_inj.
Qed.

(** ** Slices *)

(** [slice.strip_prefix(p)]. *)
Fixpoint strip_prefix (p l : list byte) : option (list byte) :=
  match p, l with
  | [], _ => Some l
  | a :: p, b :: l => if decide (a = b) then strip_prefix p l else None
  | _ :: _, [] => None
  end.

Lemma strip_prefix_Some p l r : strip_prefix p l = Some r ↔ l = p ++ r.
Proof.
  revert l; induction p as [|a p IH]; intros [|b l]; cbn; try naive_solver.
  case_decide as Hab; [subst; rewrite IH |]; naive_solver.
Qed.

Lemma strip_prefix_app p r : strip_prefix p (p ++ r) = Some r.
Proof. by apply strip_prefix_Some. Qed.

(** [slice.starts_with(p)]. *)
Definition starts_with (l p : list byte) : bool := bool_decide (p `prefix_of` l).

Lemma starts_with_spec l p : starts_with l p = true ↔ p `prefix_of` l.
Proof. apply bool_decide_eq_true. Qed.

(** [iter().position(f)]. *)
Fixpoint position {A} (f : A → bool) (l : list A) : option nat :=
  match l with
  | [] => None
  | x :: l => if f x then Some 0 else S <$> position f l
  end.

Lemma position_None {A} (f : A → bool) l :
  position f l = None ↔ Forall (λ x, f x = false) l.
Proof.
  induction l as [|x l IH]; cbn; [naive_solver|].
  rewrite Forall_cons_iff. destruct (f x) eqn:Hx; cbn; [naive_solver|].
  rewrite fmap_None, IH. naive_solver.
Qed.

Lemma position_Some {A} (f : A → bool) l n :
  position f l = Some n ↔
  (∃ x, l !! n = Some x ∧ f x = true) ∧ Forall (λ x, f x = false) (take n l).
Proof.
  revert n; induction l as [|x l IH]; intros n; cbn.
  - split; [done|]. intros [(y & Hy & _) _]. by destruct n.
  - destruct (f x) eqn:Hx; destruct n as [|n]; cbn.
    + naive_solver.
    + rewrite Forall_cons_iff. split; [done|]. intros [_ [? _]]; congruence.
    + split; [intros (m & _ & [=])%fmap_Some|]. intros [(y & [= ->] & ?) _]; congruence.
    + rewrite Forall_cons_iff, fmap_Some. setoid_rewrite IH. naive_solver.
Qed.

(** [iter().all(f)] is [forallb]. *)
Lemma forallb_Forall {A} (f : A → bool) l :
  forallb f l = true ↔ Forall (λ x, f x = true) l.
Proof.
  induction l as [|x l IH]; cbn; [naive_solver|].
  rewrite andb_true_iff, Forall_cons_iff, IH. done.
Qed.

(** [iter().filter_map(f)]. *)
Fixpoint filter_map {A B} (f : A → option B) (l : list A) : list B :=
  match l with
  | [] => []
  | x :: l => match f x with Some y => y :: filter_map f l | None => filter_map f l end
  end.

Lemma elem_of_filter_map {A B} (f : A → option B) l y :
  y ∈ filter_map f l ↔ ∃ x, x ∈ l ∧ f x = Some y.
Proof.
  induction l as [|x l IH]; cbn.
  - split; [by intros ?%elem_of_nil | by intros (x & ?%elem_of_nil & _)].
  - destruct (f x) eqn:Hx; [rewrite elem_of_cons|];
      rewrite IH; setoid_rewrite elem_of_cons; naive_solver.
Qed.

Lemma filter_map_app {A B} (f : A → option B) l k :
  filter_map f (l ++ k) = filter_map f l ++ filter_map f k.
Proof. induction l as [|x l IH]; cbn; [done|]. destruct (f x); cbn; by rewrite IH. Qed.

Lemma filter_map_ext {A B} (f g : A → option B) l :
  (∀ x, x ∈ l → f x = g x) → filter_map f l = filter_map g l.
Proof.
  induction l as [|x l IH]; cbn; [done|]. intros H.
  rewrite (H x) by apply list_elem_of_here. rewrite IH; [done|].
  intros y Hy. apply H. by apply list_elem_of_further.
Qed.

(** ** Byte strings and Rust [String]s

    A Rust [String] is its UTF-8 bytes; Rocq's [string] is a list of 8-bit
    characters, so [list_byte_of_string] is [str::as_bytes]. *)

Abbreviation str_bytes := list_byte_of_string (only parsing).
Abbreviation bytes_str := string_of_list_byte (only parsing).

Lemma str_bytes_inj s t : str_bytes s = str_bytes t → s = t.
Proof.
  intros H. by rewrite <- (string_of_list_byte_of_string s), H, string_of_list_byte_of_string.
Qed.

Lemma bytes_str_inj l k : bytes_str l = bytes_str k → l = k.
Proof.
  intros H. by rewrite <- (list_byte_of_string_of_list_byte l), H, list_byte_of_string_of_list_byte.
Qed.

(** ** Tactics *)

(** Decompose successful monadic computations in the context. *)
Ltac simplify_res :=
  repeat match goal with
  | H : mbind _ _ = Ok _ |- _ => apply bind_Ok in H as (? & ? & H)
  | H : fmap _ _ = Ok _ |- _ => apply fmap_Ok in H as (? & H & ->)
  | H : map_err _ _ = Ok _ |- _ => apply map_err_Ok in H
  | H : ok_or _ _ = Ok _ |- _ => apply ok_or_Ok in H
  | H : Ok _ = Ok _ |- _ => injection H as H; try subst
  | H : Err _ = Err _ |- _ => injection H as H; try subst
  | H : Ok _ = Err _ |- _ => discriminate H
  | H : Err _ = Ok _ |- _ => discriminate H
  end.

(** Split every [if]/[match] in a hypothesis that ends in [Ok _]. *)
Ltac case_res :=
  repeat (simplify_res; try case_match; simplify_eq).

Create HintDb chat discriminated.
Create Rewrite HintDb wire.
#[export] Hint Rewrite @length_app length_to_le_bytes length_to_be_bytes : wire.
