(* ===== verification/Utf8.v ===== *)
(** * UTF-8: what the sources use of [core::str]

    [String::from_utf8] / [str::from_utf8] validation and
    [String::from_utf8_lossy], both by the standard library's own scan: one
    scalar value at a time, and on a byte that cannot continue the value, the
    bytes consumed so far are one invalid sequence. *)

From Stdlib Require Import Strings.Byte Strings.String.
From stdpp Require Import base gmap strings list numbers.
From S2P Require Import Prelude.

(** A continuation byte, [b & 0xC0 == 0x80]. *)
Definition is_cont : byte → bool := byte_in 0x80 0xBF.

(** Number of bytes a lead byte announces, [utf8_char_width]; 0 is invalid. *)
Definition char_width (b : byte) : nat :=
  let n := Byte.to_N b in
  if (n <? 0x80)%N then 1
  else if (n <? 0xC2)%N then 0
  else if (n <? 0xE0)%N then 2
  else if (n <? 0xF0)%N then 3
  else if (n <? 0xF5)%N then 4
  else 0.

(** Which second bytes a three- or four-byte lead admits: no overlong form,
    no surrogate, nothing past U+10FFFF. *)
Definition second_ok (b0 b1 : byte) : bool :=
  let n := Byte.to_N b0 in
  if (n =? 0xE0)%N then byte_in 0xA0 0xBF b1
  else if (n =? 0xED)%N then byte_in 0x80 0x9F b1
  else if (n =? 0xF0)%N then byte_in 0x90 0xBF b1
  else if (n =? 0xF4)%N then byte_in 0x80 0x8F b1
  else is_cont b1.

(** Whether [bs] is valid UTF-8. *)
Fixpoint utf8_valid (bs : list byte) : bool :=
  match bs with
  | [] => true
  | b0 :: t0 =>
      match char_width b0, t0 with
      | 1, _ => utf8_valid t0
      | 2, b1 :: t1 => is_cont b1 && utf8_valid t1
      | 3, b1 :: b2 :: t2 => second_ok b0 b1 && is_cont b2 && utf8_valid t2
      | 4, b1 :: b2 :: b3 :: t3 =>
          second_ok b0 b1 && is_cont b2 && is_cont b3 && utf8_valid t3
      | _, _ => false
      end
  end.

(** [String::from_utf8]. *)
Definition from_utf8 (bs : list byte) : option string :=
  if utf8_valid bs then Some (bytes_str bs) else None.

(** U+FFFD, what a lossy decode writes for each invalid sequence. *)
Definition replacement : list byte := [xef; xbf; xbd].

(** [String::from_utf8_lossy], as bytes. *)
Fixpoint lossy (bs : list byte) : list byte :=
  match bs with
  | [] => []
  | b0 :: t0 =>
      match char_width b0 with
      | 1 => b0 :: lossy t0
      | 2 => match t0 with
             | b1 :: t1 =>
                 if is_cont b1 then b0 :: b1 :: lossy t1 else replacement ++ lossy t0
             | [] => replacement
             end
      | 3 => match t0 with
             | b1 :: t1 =>
                 if second_ok b0 b1 then
                   match t1 with
                   | b2 :: t2 =>
                       if is_cont b2 then b0 :: b1 :: b2 :: lossy t2
                       else replacement ++ lossy t1
                   | [] => replacement
                   end
                 else replacement ++ lossy t0
             | [] => replacement
             end
      | 4 => match t0 with
             | b1 :: t1 =>
                 if second_ok b0 b1 then
                   match t1 with
                   | b2 :: t2 =>
                       if is_cont b2 then
                         match t2 with
                         | b3 :: t3 =>
                             if is_cont b3 then b0 :: b1 :: b2 :: b3 :: lossy t3
                             else replacement ++ lossy t2
                         | [] => replacement
                         end
                       else replacement ++ lossy t1
                   | [] => replacement
                   end
                 else replacement ++ lossy t0
             | [] => replacement
             end
      | _ => replacement ++ lossy t0
      end
  end.

Definition from_utf8_lossy (bs : list byte) : string := bytes_str (lossy bs).

(** ** Facts *)

Lemma char_width_le b : char_width b ≤ 4.
Proof. unfold char_width. repeat case_match; lia. Qed.

Lemma replacement_valid l : utf8_valid (replacement ++ l) = utf8_valid l.
Proof. done. Qed.

(** Strong induction on the length of a byte list. *)
Lemma byte_list_ind (P : list byte → Prop) :
  (∀ l, (∀ k, length k < length l → P k) → P l) → ∀ l, P l.
Proof.
  intros H l. induction (Nat.lt_wf_0_projected length l) as [l _ IH]. by apply H.
Qed.

(** Lossy decoding is the identity on valid UTF-8... *)
Lemma lossy_valid bs : utf8_valid bs = true → lossy bs = bs.
Proof.
  induction bs as [bs IH] using byte_list_ind.
  destruct bs as [|b0 t0]; [done|]. cbn.
  pose proof (char_width_le b0).
  destruct (char_width b0) as [|[|[|[|[|]]]]]; try done; try lia.
  - intros. rewrite IH; cbn; auto.
  - destruct t0 as [|b1 t1]; [done|]. intros [-> ?]%andb_true_iff.
    rewrite IH; cbn; auto with lia.
  - destruct t0 as [|b1 [|b2 t2]]; [done..|].
    intros [[-> ->]%andb_true_iff ?]%andb_true_iff. rewrite IH; cbn; auto with lia.
  - destruct t0 as [|b1 [|b2 [|b3 t3]]]; [done..|].
    intros [[[-> ->]%andb_true_iff ->]%andb_true_iff ?]%andb_true_iff.
    rewrite IH; cbn; auto with lia.
Qed.

(** One scalar value at the front of valid text. *)
Lemma utf8_valid_1 b l : char_width b = 1 → utf8_valid (b :: l) = utf8_valid l.
Proof. intros H. cbn. by rewrite H. Qed.

Lemma utf8_valid_2 b b1 l :
  char_width b = 2 → utf8_valid (b :: b1 :: l) = is_cont b1 && utf8_valid l.
Proof. intros H. cbn. by rewrite H. Qed.

Lemma utf8_valid_3 b b1 b2 l :
  char_width b = 3 →
  utf8_valid (b :: b1 :: b2 :: l) = second_ok b b1 && is_cont b2 && utf8_valid l.
Proof. intros H. cbn. by rewrite H. Qed.

Lemma utf8_valid_4 b b1 b2 b3 l :
  char_width b = 4 →
  utf8_valid (b :: b1 :: b2 :: b3 :: l) =
  second_ok b b1 && is_cont b2 && is_cont b3 && utf8_valid l.
Proof. intros H. cbn. by rewrite H. Qed.

(** ...and always yields valid UTF-8. *)
Lemma lossy_is_valid bs : utf8_valid (lossy bs) = true.
Proof.
  induction bs as [bs IH] using byte_list_ind.
  destruct bs as [|b0 t0]; [done|]. cbn [lossy].
  pose proof (char_width_le b0).
  destruct (char_width b0) as [|[|[|[|[|]]]]] eqn:Hw; try lia;
    repeat case_match; subst; rewrite ?replacement_valid;
    rewrite ?utf8_valid_1, ?utf8_valid_2, ?utf8_valid_3, ?utf8_valid_4 by done;
    repeat match goal with H : _ = true |- _ => rewrite H; clear H end;
    rewrite ?andb_true_l; try done; apply IH; cbn; lia.
Qed.

Lemma from_utf8_Some bs s :
  from_utf8 bs = Some s ↔ utf8_valid bs = true ∧ str_bytes s = bs.
Proof.
  unfold from_utf8. destruct (utf8_valid bs); [|naive_solver]. split.
  - intros [= <-]. split; [done | apply list_byte_of_string_of_list_byte].
  - intros [_ <-]. by rewrite string_of_list_byte_of_string.
Qed.

(** ASCII is UTF-8. *)
Definition is_ascii (b : byte) : bool := (Byte.to_N b <? 0x80)%N.

Lemma ascii_valid bs : Forall (λ b, is_ascii b = true) bs → utf8_valid bs = true.
Proof.
  induction 1 as [|b bs Hb _ IH]; [done|]. cbn. unfold char_width.
  unfold is_ascii in Hb. by rewrite Hb.
Qed.
