(* ===== verification/Hex.v ===== *)
(** * The [hex] crate

    Third-party code: an interface of the operations the sources call and the
    documented behaviour they rely on. [hex_ref] is an executable
    implementation of the interface, used to evaluate the model on concrete
    inputs and to show that the laws can hold. *)

From Stdlib Require Import Strings.Byte Strings.String.
From stdpp Require Import base gmap strings list numbers.
From S2P Require Import Prelude Utf8.

(** [hex::encode] and [hex::decode], on the bytes of the string, and the
    displayed error of a decode that fails. *)
Class Hex := {
  hex_encode : list byte → list byte;
  hex_decode : list byte → option (list byte);
  hex_error : list byte → string;
}.

(** [0-9a-f], the alphabet [hex::encode] writes. *)
Definition is_lower_hex (b : byte) : bool := byte_in 48 57 b || byte_in 97 102 b.

(** Documented behaviour: encoding writes two lower-case digits a byte;
    decoding inverts it, accepts nothing but hex digits, and reads every
    lower-case spelling back as the bytes that print that way. *)
Class HexLaws {HX : Hex} := {
  hex_length l : length (hex_encode l) = 2 * length l;
  hex_charset l : Forall (λ b, is_lower_hex b = true) (hex_encode l);
  hex_decode_encode l : hex_decode (hex_encode l) = Some l;
  hex_encode_decode s l :
    Forall (λ b, is_ascii_digit b || is_ascii_lowercase b = true) s →
    hex_decode s = Some l → hex_encode l = s;
}.

Arguments HexLaws : clear implicits.

Section hex.
Context {HX : Hex} {HL : HexLaws HX}.

Lemma hex_encode_inj l k : hex_encode l = hex_encode k → l = k.
Proof.
  intros E. apply (f_equal hex_decode) in E. rewrite !hex_decode_encode in E. congruence.
Qed.

(** Hex output is ASCII, so it is a Rust [String]. *)
Lemma hex_encode_ascii l : Forall (λ b, is_ascii b = true) (hex_encode l).
Proof.
  eapply Forall_impl; [|apply hex_charset]. intros b. unfold is_lower_hex, is_ascii, byte_in.
  rewrite orb_true_iff, !andb_true_iff, !N.leb_le, N.ltb_lt. lia.
Qed.

Lemma hex_encode_utf8 l : utf8_valid (hex_encode l) = true.
Proof. apply ascii_valid, hex_encode_ascii. Qed.

Lemma hex_encode_addr_charset l :
  forallb (λ b, is_ascii_digit b || is_ascii_lowercase b) (hex_encode l) = true.
Proof.
  apply forallb_Forall. eapply Forall_impl; [|apply hex_charset].
  intros b. unfold is_lower_hex, is_ascii_digit, is_ascii_lowercase, byte_in.
  rewrite !orb_true_iff, !andb_true_iff, !N.leb_le. lia.
Qed.
End hex.

(** ** A reference implementation *)

(** One digit, lower case. *)
Definition nibble_char (n : N) : byte :=
  if (n <? 10)%N then u8 (48 + n) else u8 (87 + n).

(** Either case is read. *)
Definition char_nibble (b : byte) : option N :=
  let n := Byte.to_N b in
  if byte_in 48 57 b then Some (n - 48)%N
  else if byte_in 97 102 b then Some (n - 87)%N
  else if byte_in 65 70 b then Some (n - 55)%N
  else None.

Definition hex_byte (b : byte) : list byte :=
  [nibble_char (Byte.to_N b / 16); nibble_char (Byte.to_N b mod 16)].

Fixpoint hex_pairs (s : list byte) : option (list byte) :=
  match s with
  | [] => Some []
  | [_] => None
  | h :: l :: s =>
      hi ← char_nibble h; lo ← char_nibble l; rest ← hex_pairs s;
      Some (u8 (16 * hi + lo) :: rest)
  end.

Definition hex_ref : Hex := {|
  hex_encode := flat_map hex_byte;
  hex_decode := hex_pairs;
  hex_error _ := "Invalid character"%string;
|}.

Lemma hex_byte_ok b :
  Forall (λ c, is_lower_hex c = true) (hex_byte b) ∧ hex_pairs (hex_byte b) = Some [b].
Proof.
  rewrite <- forallb_Forall. apply (bool_decide_eq_true_1 _).
  revert b. apply (all_bytes_spec (λ b, bool_decide _)). vm_compute. reflexivity.
Qed.

Lemma hex_pairs_one h l b s :
  hex_pairs [h; l] = Some [b] → hex_pairs (h :: l :: s) = (b ::.) <$> hex_pairs s.
Proof.
  cbn. destruct (char_nibble h); cbn; [|done]. destruct (char_nibble l); cbn; [|done].
  intros [= <-]. by destruct (hex_pairs s).
Qed.

Lemma hex_pairs_byte b s : hex_pairs (hex_byte b ++ s) = (b ::.) <$> hex_pairs s.
Proof. apply hex_pairs_one, hex_byte_ok. Qed.

Lemma char_nibble_lower b n :
  is_ascii_digit b || is_ascii_lowercase b = true → char_nibble b = Some n →
  (n < 16)%N ∧ nibble_char n = b.
Proof.
  intros Hb Hn. unfold is_ascii_digit, is_ascii_lowercase, char_nibble, nibble_char in *.
  unfold byte_in in *. rewrite orb_true_iff, !andb_true_iff, !N.leb_le in Hb.
  pose proof (u8_to_N b) as E.
  destruct (N.leb_spec 48 (Byte.to_N b)), (N.leb_spec (Byte.to_N b) 57); cbn in Hn;
    try (injection Hn as <-; split; [lia|]; destruct (N.ltb_spec (Byte.to_N b - 48) 10); [|lia];
         rewrite <- E at 2; f_equal; lia).
  all: destruct (N.leb_spec 97 (Byte.to_N b)), (N.leb_spec (Byte.to_N b) 102); cbn in Hn;
    try (injection Hn as <-; split; [lia|]; destruct (N.ltb_spec (Byte.to_N b - 87) 10); [lia|];
         rewrite <- E at 2; f_equal; lia).
  all: destruct (N.leb_spec 65 (Byte.to_N b)), (N.leb_spec (Byte.to_N b) 70); cbn in Hn;
    try lia; discriminate.
Qed.

Lemma nibbles_split hi lo :
  (hi < 16)%N → (lo < 16)%N → hex_byte (u8 (16 * hi + lo)) = [nibble_char hi; nibble_char lo].
Proof.
  intros Hh Hl. unfold hex_byte. rewrite to_N_u8, N.mod_small by lia.
  rewrite <- (N.div_unique (16 * hi + lo) 16 hi lo) by lia.
  by rewrite <- (N.mod_unique (16 * hi + lo) 16 hi lo) by lia.
Qed.

Lemma hex_ref_laws : HexLaws hex_ref.
Proof.
  split; cbn.
  - induction l as [|b l IH]; cbn in *; lia.
  - induction l as [|b l IH]; cbn [flat_map]; [constructor|].
    apply Forall_app; split; [apply hex_byte_ok | done].
  - induction l as [|b l IH]; cbn [flat_map]; [done|]. by rewrite hex_pairs_byte, IH.
  - intros s. induction s as [s IH] using byte_list_ind.
    destruct s as [|h [|lo s]]; cbn; intros l; [by intros _ [= <-] | done |].
    rewrite !Forall_cons_iff. intros (Hh & Hl & Hs) Hd.
    destruct (char_nibble h) as [x|] eqn:Ex; cbn in Hd; [|done].
    destruct (char_nibble lo) as [y|] eqn:Ey; cbn in Hd; [|done].
    destruct (hex_pairs s) as [r|] eqn:Er; cbn in Hd; [|done]. simplify_eq.
    apply char_nibble_lower in Ex as [? <-], Ey as [? <-]; [|done..].
    cbn [flat_map]. rewrite nibbles_split by done. cbn. do 2 f_equal.
    apply IH; cbn; auto with lia.
Qed.
