(* ===== verification/Ed25519.v ===== *)
(** * Ed25519 keys and signatures ([core/crypto/src/signatures.rs])

    The curve arithmetic is [ed25519_dalek], third-party: an interface
    [Dalek] with its documented behaviour [DalekLaws]. What the repository
    adds - the canonical-encoding check done on bytes, the order of the three
    admission checks, the error mapping - is modelled and proved here. *)

From Stdlib Require Import Strings.Byte Strings.String.
From stdpp Require Import base gmap strings list numbers.
From S2P Require Import Prelude.

(** ** The interface of [ed25519_dalek] *)

Class Dalek := {
  VerifyingKey : Type;
  SigningKey : Type;
  vk_eq_dec :: EqDecision VerifyingKey;
  (** [VerifyingKey::from_bytes], [to_bytes], [is_weak], [verify_strict]. *)
  vk_from_bytes : list byte → option VerifyingKey;
  vk_to_bytes : VerifyingKey → list byte;
  is_weak : VerifyingKey → bool;
  verify_strict : VerifyingKey → list byte → list byte → bool;
  (** [SigningKey::from_bytes], [to_bytes], [sign], [verifying_key]. *)
  sk_from_bytes : list byte → SigningKey;
  sk_to_bytes : SigningKey → list byte;
  sk_sign : SigningKey → list byte → list byte;
  sk_verifying_key : SigningKey → VerifyingKey;
}.

Definition KEY_LEN : nat := 32.
Definition SIG_LEN : nat := 64.

(** ** Canonical [y] *)

(** [2^255 - 19], little-endian. *)
Definition FIELD_ORDER_LE : list byte :=
  <[31 := x7f]> (<[0 := xed]> (replicate KEY_LEN xff)).

(** The comparison loop, [i] counting down from [KEY_LEN]. *)
Fixpoint canonical_loop (y : list byte) (i : nat) : bool :=
  match i with
  | O => false
  | S i =>
      let yi := y !!! i in
      let pi := FIELD_ORDER_LE !!! i in
      if decide (yi = pi) then canonical_loop y i
      else (Byte.to_N yi <? Byte.to_N pi)%N
  end.

Definition is_canonical_y (bytes : list byte) : bool :=
  let y := <[31 := u8 (N.land (Byte.to_N (bytes !!! 31)) 0x7f)]> bytes in
  canonical_loop y KEY_LEN.

(** ** Keys and signatures *)

Inductive Ed25519Error : Type :=
| MalformedKey (what : string)
| SignatureInvalid.

#[export] Instance ed25519_error_eq_dec : EqDecision Ed25519Error.
Proof. solve_decision. Defined.

Record Ed25519Signature := Signature { sig_bytes : list byte }.

#[export] Instance signature_eq_dec : EqDecision Ed25519Signature.
Proof. solve_decision. Defined.

Section keys.
Context {D : Dalek}.

Record Ed25519VerifyingKey := Verifying { vk_inner : VerifyingKey }.
Record Ed25519SigningKey := Signing { sk_inner : SigningKey }.

#[export] Instance verifying_key_eq_dec : EqDecision Ed25519VerifyingKey.
Proof. solve_decision. Defined.

Definition from_canonical_bytes (bytes : list byte) : result Ed25519Error Ed25519VerifyingKey :=
  if negb (is_canonical_y bytes) then
    Err (MalformedKey "key is not a canonical Ed25519 encoding")
  else
    key ← ok_or (vk_from_bytes bytes) (MalformedKey "key is not an Ed25519 curve point");
    if is_weak key then Err (MalformedKey "key is a small-order Ed25519 point")
    else Ok (Verifying key).

Definition from_canonical_slice (bytes : list byte) : result Ed25519Error Ed25519VerifyingKey :=
  if decide (length bytes = KEY_LEN) then from_canonical_bytes bytes
  else Err (MalformedKey "key is not 32 bytes").

(** [to_bytes] and [as_ref] of a verifying key. *)
Definition key_bytes (k : Ed25519VerifyingKey) : list byte := vk_to_bytes (vk_inner k).

Definition verify (k : Ed25519VerifyingKey) (msg : list byte) (sig : Ed25519Signature)
  : result Ed25519Error () :=
  if verify_strict (vk_inner k) msg (sig_bytes sig) then Ok () else Err SignatureInvalid.

Definition from_seed (seed : list byte) : Ed25519SigningKey := Signing (sk_from_bytes seed).
Definition seed (k : Ed25519SigningKey) : list byte := sk_to_bytes (sk_inner k).
Definition sign (k : Ed25519SigningKey) (msg : list byte) : Ed25519Signature :=
  Signature (sk_sign (sk_inner k) msg).
Definition verifying_key (k : Ed25519SigningKey) : Ed25519VerifyingKey :=
  Verifying (sk_verifying_key (sk_inner k)).

(** [Debug]; [debug_str] is that of a string. *)
Definition signing_key_debug (debug_str : string → string) (k : Ed25519SigningKey) : string :=
  ("Ed25519SigningKey(" ++ debug_str "[redacted]" ++ ")")%string.

(** Every key in circulation passed the admission checks. *)
Definition key_wf (k : Ed25519VerifyingKey) : Prop :=
  from_canonical_bytes (key_bytes k) = Ok k.

(** What the sources rely on. A verifying key holds the 32 bytes it was read
    from, and key equality is equality of those bytes; a signing key is its
    32-byte seed; the key of a signing key is a canonical, full-order point;
    a signature by a key verifies under it. *)
Class DalekLaws := {
  vk_to_from b k : vk_from_bytes b = Some k → vk_to_bytes k = b;
  vk_from_to k : vk_from_bytes (vk_to_bytes k) = Some k;
  vk_len k : length (vk_to_bytes k) = KEY_LEN;
  sk_to_from b : length b = KEY_LEN → sk_to_bytes (sk_from_bytes b) = b;
  sk_from_to k : sk_from_bytes (sk_to_bytes k) = k;
  sk_len k : length (sk_to_bytes k) = KEY_LEN;
  sk_vk_canonical k : is_canonical_y (vk_to_bytes (sk_verifying_key k)) = true;
  sk_vk_strong k : is_weak (sk_verifying_key k) = false;
  sign_len k m : length (sk_sign k m) = SIG_LEN;
  sign_verifies k m : verify_strict (sk_verifying_key k) m (sk_sign k m) = true;
}.
End keys.
Arguments DalekLaws : clear implicits.

(** ** Little-endian comparison *)

Lemma from_le_bytes_app l k :
  from_le_bytes (l ++ k) = (from_le_bytes l + 256 ^ N.of_nat (length l) * from_le_bytes k)%N.
Proof.
  induction l as [|b l IH]; [cbn; lia|]. cbn [app from_le_bytes length].
  rewrite IH, Nat2N.inj_succ, N.pow_succ_r'. lia.
Qed.

(** A more significant byte decides the comparison. *)
Lemma le_bytes_snoc_lt l k a b :
  length l = length k → Byte.to_N a ≠ Byte.to_N b →
  (from_le_bytes (l ++ [a]) < from_le_bytes (k ++ [b]) ↔ Byte.to_N a < Byte.to_N b)%N.
Proof.
  intros Hl Hab. rewrite !from_le_bytes_app, <- Hl. cbn [from_le_bytes].
  pose proof (from_le_bytes_lt l) as H1. pose proof (from_le_bytes_lt k) as H2.
  rewrite <- Hl in H2. set (P := (256 ^ N.of_nat (length l))%N) in *. nia.
Qed.

Lemma canonical_loop_spec y i :
  i ≤ length y → i ≤ KEY_LEN →
  canonical_loop y i = true ↔
  (from_le_bytes (take i y) < from_le_bytes (take i FIELD_ORDER_LE))%N.
Proof.
  intros Hy Hp. assert (length FIELD_ORDER_LE = 32) as Hlen by done.
  unfold KEY_LEN in *. induction i as [|i IH]; [by rewrite !take_0|]. cbn [canonical_loop].
  destruct (lookup_lt_is_Some_2 y i) as [a Ha]; [lia|].
  destruct (lookup_lt_is_Some_2 FIELD_ORDER_LE i) as [b Hb]; [lia|].
  rewrite (take_S_r _ _ _ Ha), (take_S_r _ _ _ Hb).
  rewrite (list_lookup_total_correct _ _ _ Ha), (list_lookup_total_correct _ _ _ Hb).
  case_decide as Hab.
  - subst. rewrite IH by lia. rewrite !from_le_bytes_app, !length_take_le by lia. lia.
  - rewrite N.ltb_lt, le_bytes_snoc_lt; [done| |].
    + rewrite !length_take_le by lia. done.
    + by intros ?%to_N_inj.
Qed.

Definition field_order : N := (2 ^ 255 - 19)%N.

Lemma field_order_le : from_le_bytes FIELD_ORDER_LE = field_order.
Proof. reflexivity. Qed.

(** Clearing the sign bit keeps the low 255 bits. *)
Lemma clear_sign_bit b :
  length b = KEY_LEN →
  from_le_bytes (<[31 := u8 (N.land (Byte.to_N (b !!! 31)) 0x7f)]> b) =
  (from_le_bytes b mod 2 ^ 255)%N.
Proof.
  intros Hb. unfold KEY_LEN in Hb.
  destruct (exists_last (l := b)) as (lo & t & ->); [by intros ->|].
  assert (length lo = 31) as Hlo by (rewrite length_app in Hb; cbn in Hb; lia).
  assert ((lo ++ [t]) !!! 31 = t) as ->.
  { rewrite lookup_total_app_r, Hlo by lia. done. }
  rewrite insert_app_r_alt, Hlo by lia. cbn [Nat.sub].
  cbn [insert list_insert]. rewrite !from_le_bytes_app, Hlo. cbn [from_le_bytes].
  change 0x7f%N with (N.ones 7). rewrite N.land_ones, to_N_u8.
  pose proof (from_le_bytes_lt lo) as Hlt. rewrite Hlo in Hlt.
  pose proof (N.mod_upper_bound (Byte.to_N t) (2 ^ 7) ltac:(lia)) as Hm.
  rewrite (N.mod_small (_ mod _) 256) by lia.
  change (2 ^ 255)%N with (256 ^ N.of_nat 31 * 2 ^ 7)%N.
  rewrite !N.mul_0_r, !N.add_0_r.
  rewrite N.Div0.mod_mul_r. f_equal.
  - rewrite N.mul_comm, N.Div0.mod_add, N.mod_small; done.
  - do 2 f_equal. rewrite N.mul_comm, N.div_add, N.div_small by (done || lia). done.
Qed.

Lemma is_canonical_y_spec b :
  length b = KEY_LEN →
  is_canonical_y b = true ↔ (from_le_bytes b mod 2 ^ 255 < field_order)%N.
Proof.
  intros Hb. unfold is_canonical_y. rewrite canonical_loop_spec.
  - rewrite !take_ge, clear_sign_bit, field_order_le; try done.
    rewrite length_insert. lia.
  - rewrite length_insert. lia.
  - done.
Qed.

(** ** Keys *)

Section key_lemmas.
Context {D : Dalek} {DL : DalekLaws D}.

Lemma from_canonical_bytes_Ok b k :
  from_canonical_bytes b = Ok k ↔
  is_canonical_y b = true ∧ vk_from_bytes b = Some (vk_inner k) ∧ is_weak (vk_inner k) = false.
Proof.
  unfold from_canonical_bytes. destruct (is_canonical_y b); cbn; [|naive_solver].
  destruct (vk_from_bytes b) as [v|]; cbn; [|naive_solver].
  destruct (is_weak v) eqn:Hw; destruct k as [k]; cbn; naive_solver congruence.
Qed.

Lemma from_canonical_bytes_bytes b k : from_canonical_bytes b = Ok k → key_bytes k = b.
Proof. intros (_ & Hk & _)%from_canonical_bytes_Ok. by apply vk_to_from. Qed.

Lemma from_canonical_bytes_len b k : from_canonical_bytes b = Ok k → length b = KEY_LEN.
Proof. intros <-%from_canonical_bytes_bytes. apply vk_len. Qed.

Lemma from_canonical_bytes_wf b k : from_canonical_bytes b = Ok k → key_wf k.
Proof. intros Hk. unfold key_wf. by rewrite (from_canonical_bytes_bytes _ _ Hk). Qed.

Lemma key_bytes_inj k k' : key_bytes k = key_bytes k' → k = k'.
Proof.
  destruct k as [k], k' as [k']. unfold key_bytes; cbn. intros E%(f_equal vk_from_bytes).
  rewrite !vk_from_to in E. congruence.
Qed.

Lemma length_key_bytes k : length (key_bytes k) = KEY_LEN.
Proof. apply vk_len. Qed.

Lemma verifying_key_wf sk : key_wf (verifying_key sk).
Proof.
  apply from_canonical_bytes_Ok. unfold key_bytes; cbn.
  split_and!; [apply sk_vk_canonical | apply vk_from_to | apply sk_vk_strong].
Qed.

Lemma verify_sign sk msg : verify (verifying_key sk) msg (sign sk msg) = Ok ().
Proof. unfold verify; cbn. by rewrite sign_verifies. Qed.

Lemma from_seed_seed sk : from_seed (seed sk) = sk.
Proof. destruct sk. unfold from_seed, seed; cbn. by rewrite sk_from_to. Qed.
End key_lemmas.

#[export] Hint Resolve verifying_key_wf from_canonical_bytes_wf length_key_bytes : chat.
#[export] Hint Rewrite @length_key_bytes @verify_sign @from_seed_seed : wire.

(** ** A reference instance

    Keys are 32-byte strings, and a signature is the key followed by the
    first 32 bytes of the message: enough to evaluate the model and to show
    the laws can hold together. It claims nothing about unforgeability, which
    no theorem of the development uses. *)

Record bytes32 := Bytes32 { b32 : list byte; b32_len : (length b32 =? 32) = true }.

Lemma bytes32_eq a b : b32 a = b32 b → a = b.
Proof.
  destruct a as [a Ha], b as [b Hb]; cbn. intros ->. f_equal. apply (proof_irrel _).
Qed.

#[export] Instance bytes32_eq_dec : EqDecision bytes32.
Proof.
  refine (λ a b, cast_if (decide (b32 a = b32 b))); [by apply bytes32_eq | congruence].
Defined.

Definition fit (n : nat) (l : list byte) : list byte := take n (l ++ replicate n x00).

Lemma fit_len n l : length (fit n l) = n.
Proof. unfold fit. rewrite length_take, length_app, length_replicate. lia. Qed.

Lemma fit_id l : fit (length l) l = l.
Proof. unfold fit. by rewrite take_app_length. Qed.

Lemma fit_len_eqb n l : (length (fit n l) =? n) = true.
Proof. apply Nat.eqb_eq, fit_len. Defined.

Definition to_bytes32 (l : list byte) : bytes32 := Bytes32 (fit 32 l) (fit_len_eqb 32 l).

(** The public half keeps 31 bytes of the seed under a fixed top byte. *)
Definition ref_public (k : bytes32) : bytes32 := to_bytes32 (take 31 (b32 k) ++ [x01]).

Arguments fit : simpl never.
Arguments ref_public : simpl never.

Definition dalek_ref : Dalek := {|
  vk_eq_dec := bytes32_eq_dec;
  VerifyingKey := bytes32;
  SigningKey := bytes32;
  vk_from_bytes b := if length b =? 32 then Some (to_bytes32 b) else None;
  vk_to_bytes := b32;
  is_weak k := forallb (Byte.eqb x00) (b32 k);
  verify_strict k m s := bool_decide (s = b32 k ++ fit 32 m);
  sk_from_bytes := to_bytes32;
  sk_to_bytes := b32;
  sk_sign k m := b32 (ref_public k) ++ fit 32 m;
  sk_verifying_key := ref_public;
|}.

Lemma fit32_id b : length b = 32 → fit 32 b = b.
Proof. intros <-. apply fit_id. Qed.

Lemma b32_length k : length (b32 k) = 32.
Proof. destruct k as [l Hl]; cbn. by apply Nat.eqb_eq. Qed.

Lemma to_bytes32_b32 k : to_bytes32 (b32 k) = k.
Proof. apply bytes32_eq, fit32_id, b32_length. Qed.

Lemma ref_public_b32 k : b32 (ref_public k) = take 31 (b32 k) ++ [x01].
Proof.
  apply fit32_id. rewrite length_app, length_take, b32_length. done.
Qed.

Lemma dalek_ref_laws : DalekLaws dalek_ref.
Proof.
  split; cbn; intros.
  - destruct (length b =? 32) eqn:E; simplify_eq; cbn. by apply fit32_id, Nat.eqb_eq.
  - rewrite b32_length, Nat.eqb_refl. by rewrite to_bytes32_b32.
  - apply b32_length.
  - by apply fit32_id.
  - apply to_bytes32_b32.
  - apply b32_length.
  - apply is_canonical_y_spec; rewrite ref_public_b32.
    + rewrite length_app, length_take, b32_length. done.
    + rewrite from_le_bytes_app, length_take, b32_length. cbn [from_le_bytes].
      pose proof (from_le_bytes_lt (take 31 (b32 k))) as Hlt.
      rewrite length_take, b32_length in Hlt. unfold field_order.
      change (N.of_nat (31 `min` 32)) with 31%N in *. change (Byte.to_N x01) with 1%N.
      assert (256 ^ 31 * 2 < 2 ^ 255 - 19)%N by reflexivity.
      assert (2 ^ 255 - 19 < 2 ^ 255)%N by reflexivity.
      set (P := (256 ^ 31)%N) in *. rewrite N.mod_small; lia.
  - rewrite ref_public_b32, forallb_app. cbn. by rewrite andb_false_r.
  - rewrite length_app, fit_len, b32_length. done.
  - by apply bool_decide_eq_true.
Qed.
