(* ===== verification/Keys.v ===== *)
(** * Diffie-Hellman and symmetric keys ([core/crypto/src/keys.rs])

    Wrappers over [x25519_dalek] and [xeddsa], third-party: an interface
    [X25519] with the documented behaviour [X25519Laws]. An array [[u8; N]]
    is a vector, so a symmetric key carries its length in its type. The
    theorem: two parties that exchange the bytes of their public keys, and
    only those, hold the same 32-byte key, a private key survives its byte
    form, and printing a key shows its length and nothing else of it. *)

From Stdlib Require Import Strings.Byte Strings.String ZArith Zpow_facts.
From stdpp Require Import base gmap strings numbers pretty vector list.
From S2P Require Import Prelude.

(** ** The interfaces of [x25519_dalek] and [xeddsa] *)

Class X25519 := {
  x25519_Pub : Type;
  x25519_Priv : Type;
  SharedSecret : Type;
  xed25519_Pub : Type;
  xed25519_Priv : Type;
  (** [x25519::PublicKey]: from the array, from a secret, as bytes, equality. *)
  xpub_from : vec byte 32 → x25519_Pub;
  xpub_of : x25519_Priv → x25519_Pub;
  xpub_bytes : x25519_Pub → vec byte 32;
  xpub_eqb : x25519_Pub → x25519_Pub → bool;
  (** [StaticSecret]: from the array, as bytes, the key exchange. *)
  xpriv_from : vec byte 32 → x25519_Priv;
  xpriv_bytes : x25519_Priv → vec byte 32;
  xpriv_dh : x25519_Priv → x25519_Pub → SharedSecret;
  shared_bytes : SharedSecret → vec byte 32;
  (** [xed25519]: keys for signing, from the ones for exchange. *)
  xed_pub : x25519_Pub → xed25519_Pub;
  xed_priv : x25519_Priv → xed25519_Priv;
}.

(** Keys are their bytes, equal bytes are equal keys, and both ends of an
    exchange compute one secret. *)
Class X25519Laws {X : X25519} := {
  xpub_from_bytes p : xpub_from (xpub_bytes p) = p;
  xpub_bytes_from b : xpub_bytes (xpub_from b) = b;
  xpub_eqb_refl p : xpub_eqb p p = true;
  xpriv_from_bytes s : xpriv_from (xpriv_bytes s) = s;
  xpriv_bytes_from b : xpriv_bytes (xpriv_from b) = b;
  xpriv_dh_comm a b : xpriv_dh a (xpub_of b) = xpriv_dh b (xpub_of a);
}.
Arguments X25519Laws : clear implicits.

(** ** The wrappers *)

(** [SymmetricKey<N>]. *)
Record SymmetricKey (N : nat) := Symmetric { sym_key : vec byte N }.
Arguments Symmetric {N} _.
Arguments sym_key {N} _.
Abbreviation SymmetricKey32 := (SymmetricKey 32).

Definition sym_from {N} (value : vec byte N) : SymmetricKey N := Symmetric value.
Definition sym_as_bytes {N} (k : SymmetricKey N) : list byte := vec_to_list (sym_key k).
Definition sym_DANGER_to_bytes {N} (k : SymmetricKey N) : vec byte N := sym_key k.
Definition sym_eqb {N} (k l : SymmetricKey N) : bool := bool_decide (sym_as_bytes k = sym_as_bytes l).
Definition sym_debug {N} (k : SymmetricKey N) : string :=
  ("SymmetricKey(..." ++ pretty N ++ " Bytes Redacted...)")%string.
(** [From<GenericArray<u8, U32>>]. *)
Definition sym_from_generic (value : vec byte 32) : SymmetricKey32 := Symmetric value.

Section keys.
Context {X : X25519}.

Record PublicKey := Public { pub_inner : x25519_Pub }.
Record PrivateKey := Private { priv_inner : x25519_Priv }.

Definition public_from_inner (value : x25519_Pub) : PublicKey := Public value.
Definition public_from_secret (value : x25519_Priv) : PublicKey := Public (xpub_of value).
Definition public_from_array (value : vec byte 32) : PublicKey := Public (xpub_from value).
Definition public_as_ref (k : PublicKey) : list byte := vec_to_list (xpub_bytes (pub_inner k)).
Definition public_deref (k : PublicKey) : x25519_Pub := pub_inner k.
Definition public_to_xed (k : PublicKey) : xed25519_Pub := xed_pub (pub_inner k).
Definition public_eqb (k l : PublicKey) : bool := xpub_eqb (pub_inner k) (pub_inner l).

(** [random_from_rng], for a generator as the bytes it fills an array with
    and the generator left. *)
Definition private_random_from_rng {R : Type} (fill : R → vec byte 32 * R) (csprng : R) : PrivateKey * R :=
  let '(b, csprng) := fill csprng in (Private (xpriv_from b), csprng).
Definition sym_from_shared (value : SharedSecret) : SymmetricKey32 := sym_from (shared_bytes value).
Definition diffie_hellman (k : PrivateKey) (public_key : PublicKey) : SymmetricKey32 :=
  sym_from_shared (xpriv_dh (priv_inner k) (pub_inner public_key)).
Definition private_DANGER_to_bytes (k : PrivateKey) : vec byte 32 := xpriv_bytes (priv_inner k).
Definition private_to_xed (k : PrivateKey) : xed25519_Priv := xed_priv (priv_inner k).
Definition public_from (k : PrivateKey) : PublicKey := Public (xpub_of (priv_inner k)).
Definition private_from_array (value : vec byte 32) : PrivateKey := Private (xpriv_from value).

(** A public key as it is read back from the bytes put on the wire. *)
Definition received (k : PublicKey) : PublicKey := public_from_array (xpub_bytes (public_deref k)).
End keys.

Section agreement.
Context {X : X25519} {XL : X25519Laws X}.

Lemma received_same k : received k = k.
Proof. destruct k. unfold received, public_from_array, public_deref. cbn. by rewrite xpub_from_bytes. Qed.

Lemma sym_eqb_eq {N} (k l : SymmetricKey N) : sym_eqb k l = true ↔ k = l.
Proof.
  unfold sym_eqb. rewrite bool_decide_eq_true. destruct k as [k], l as [l]. unfold sym_as_bytes. cbn.
  split; [|congruence]. by intros ->%vec_to_list_inj2.
Qed.

(** Two parties agree: each side of an exchange combines its own private
    key with the bytes it was sent, the keys they get are equal and 32 bytes
    long, also when a private key was saved as bytes and restored, and what
    is printed of the key is the same for every key of that length. *)
Theorem exchange_agrees a b :
  diffie_hellman a (received (public_from b)) = diffie_hellman b (received (public_from a)) ∧
  diffie_hellman (private_from_array (private_DANGER_to_bytes a)) (received (public_from b)) =
    diffie_hellman b (received (public_from (private_from_array (private_DANGER_to_bytes a)))) ∧
  public_eqb (public_from (private_from_array (private_DANGER_to_bytes a))) (public_from a) = true ∧
  length (sym_as_bytes (diffie_hellman a (public_from b))) = 32 ∧
  ∀ k, sym_debug (diffie_hellman a (public_from b)) = sym_debug (k : SymmetricKey32).
Proof.
  assert (private_from_array (private_DANGER_to_bytes a) = a) as Ha.
  { destruct a. unfold private_from_array, private_DANGER_to_bytes. cbn. by rewrite xpriv_from_bytes. }
  rewrite Ha, !received_same. split_and!; [..|done].
  - unfold diffie_hellman, public_from. cbn. by rewrite xpriv_dh_comm.
  - unfold diffie_hellman, public_from. cbn. by rewrite xpriv_dh_comm.
  - apply xpub_eqb_refl.
  - apply length_vec_to_list.
Qed.
End agreement.

(** ** A model of the interface

    Powers of 9 modulo [2^255 - 19] for the curve: the laws hold of it, and it
    evaluates on 32-byte keys. *)

Module Powers.

Definition p : Z := 2 ^ 255 - 19.

Fixpoint le_vec (n : nat) (x : N) : vec byte n :=
  match n with O => [#] | S n => u8 x ::: le_vec n (x / 256) end.

Definition num {n} (v : vec byte n) : Z := Z.of_N (from_le_bytes (vec_to_list v)).
Definition arr (x : Z) : vec byte 32 := le_vec 32 (Z.to_N x).

Lemma le_vec_list n x : vec_to_list (le_vec n x) = to_le_bytes n x.
Proof. revert x. induction n as [|n IH]; intros x; [done|]. cbn. by rewrite IH. Qed.

Lemma num_arr x : (0 ≤ x < p)%Z → num (arr x) = x.
Proof.
  intros Hx. unfold num, arr. rewrite le_vec_list, from_to_le_bytes, N.mod_small; [lia|].
  change (256 ^ N.of_nat 32)%N with (2 ^ 256)%N. unfold p in Hx. lia.
Qed.

Lemma num_nonneg {n} (v : vec byte n) : (0 ≤ num v)%Z.
Proof. unfold num. lia. Qed.

#[export] Instance x25519_powers : X25519 := {|
  x25519_Pub := vec byte 32; x25519_Priv := vec byte 32; SharedSecret := vec byte 32;
  xed25519_Pub := vec byte 32; xed25519_Priv := vec byte 32;
  xpub_from b := b;
  xpub_of s := arr (Zpow_mod 9 (num s) p);
  xpub_bytes k := k;
  xpub_eqb k l := bool_decide (vec_to_list k = vec_to_list l);
  xpriv_from b := b;
  xpriv_bytes s := s;
  xpriv_dh s k := arr (Zpow_mod (num k) (num s) p);
  shared_bytes s := s;
  xed_pub k := k;
  xed_priv s := s;
|}.

Lemma power_of_power (a b : Z) : (0 ≤ a)%Z → (0 ≤ b)%Z →
  Zpow_mod (num (arr (Zpow_mod 9 b p))) a p = (9 ^ (a * b) mod p)%Z.
Proof.
  intros Ha Hb. assert (1 < p)%Z as Hp by done. rewrite !Zpow_mod_correct by lia.
  rewrite num_arr by (apply Z.mod_pos_bound; lia).
  rewrite <- Zpower_mod by lia. rewrite <- Z.pow_mul_r by lia. by rewrite Z.mul_comm.
Qed.

#[export, refine] Instance x25519_powers_laws : X25519Laws x25519_powers := {| xpub_eqb_refl := _ |}.
Proof.
  all: cbn [xpub_from xpub_bytes xpub_eqb xpriv_from xpriv_bytes xpriv_dh xpub_of x25519_powers];
    try (intros; done).
  - intros k. by apply bool_decide_eq_true.
  - intros a b. rewrite !power_of_power by apply num_nonneg. by rewrite Z.mul_comm.
Defined.

End Powers.

Lemma exchange_agrees_witness :
  let alice := private_from_array (X := Powers.x25519_powers) (Powers.arr (2 ^ 200 + 77)) in
  let bob := private_from_array (X := Powers.x25519_powers) (Powers.arr (2 ^ 131 + 5)) in
  diffie_hellman alice (received (public_from bob)) = diffie_hellman bob (received (public_from alice)).
Proof.
  intros alice bob.
  exact (proj1 (exchange_agrees (X := Powers.x25519_powers) (XL := Powers.x25519_powers_laws) alice bob)).
Defined.

(** The key they share is not the trivial one. *)
Example exchange_example :
  let alice := private_from_array (X := Powers.x25519_powers) (Powers.arr (2 ^ 200 + 77)) in
  let bob := private_from_array (X := Powers.x25519_powers) (Powers.arr (2 ^ 131 + 5)) in
  sym_eqb (diffie_hellman alice (public_from bob)) (diffie_hellman alice (public_from alice)) = false ∧
  sym_debug (diffie_hellman alice (public_from bob)) = "SymmetricKey(...32 Bytes Redacted...)"%string.
Proof. split; vm_compute; reflexivity. Qed.
