(* ===== verification/Context.v ===== *)
(** * Contexts and the errors of the account log
    ([account/account-log/src/context.rs], [error.rs])

    A context is [<namespace>.<label>], checked once and then held as a
    fixed-size buffer and a length. The theorems: the check accepts exactly
    the grammar it documents, the held form gives back the bytes it was built
    from, and two contexts are equal exactly when their bytes are. *)

From Stdlib Require Import Strings.Byte Strings.String.
From stdpp Require Import base gmap strings list numbers.
From S2P Require Import Prelude Utf8 Ed25519.

(** ** Errors *)

Module AccountAddrError.
Inductive t : Type := InvalidAddress.
#[export] Instance eq_dec : EqDecision t.
Proof. solve_decision. Defined.
End AccountAddrError.

Module AccountLogError.
Inductive t : Type :=
| Malformed (detail : string)
| InvalidContext (detail : string)
| TooLarge (limit : N)
| Version (version : string)
| SignatureInvalid.
#[export] Instance eq_dec : EqDecision t.
Proof. solve_decision. Defined.

(** [From<crypto::Ed25519Error>]. *)
Definition from_ed25519 (error : Ed25519Error) : t :=
  match error with
  | MalformedKey what => Malformed what
  | Ed25519.SignatureInvalid => SignatureInvalid
  end.
End AccountLogError.

(** ** Contexts *)

Definition MAX_NAMESPACE : nat := 16.
Definition MAX_LABEL : nat := 64.
Definition MAX_CONTEXT : nat := MAX_NAMESPACE + 1 + MAX_LABEL.

Record Context := { ctx_buf : list byte; ctx_len : N }.

#[export] Instance context_eq_dec : EqDecision Context.
Proof. solve_decision. Defined.

Definition DOT : byte := x2e.
Definition DASH : byte := x2d.

(** What each half may hold. *)
Definition namespace_char (b : byte) : bool :=
  is_ascii_lowercase b || is_ascii_digit b || Byte.eqb b DASH.
Definition label_char (b : byte) : bool :=
  is_ascii_lowercase b || is_ascii_digit b || Byte.eqb b DASH || Byte.eqb b DOT.

(** The first byte of a half; both halves are checked non-empty before. *)
Definition starts_lower (l : list byte) : bool :=
  match l with b :: _ => is_ascii_lowercase b | [] => false end.

Definition checked (context : list byte) : result string Context :=
  match position (λ b, Byte.eqb b DOT) context with
  | None => Err "must contain a '.' separating namespace from label"%string
  | Some dot =>
      let namespace := take dot context in
      let label := drop (dot + 1) context in
      if bool_decide (namespace = []) || (MAX_NAMESPACE <? length namespace) then
        Err "namespace must be 1-16 octets"%string
      else if bool_decide (label = []) || (MAX_LABEL <? length label) then
        Err "label must be 1-64 octets"%string
      else if negb (starts_lower namespace) then
        Err "namespace must begin with a-z"%string
      else if negb (starts_lower label) then
        Err "label must begin with a-z"%string
      else if negb (forallb namespace_char namespace) then
        Err "namespace must be a-z 0-9 - only"%string
      else if negb (forallb label_char label) then
        Err "label must be a-z 0-9 - . only"%string
      else
        Ok {| ctx_buf := context ++ replicate (MAX_CONTEXT - length context) x00;
              ctx_len := N.of_nat (length context) mod 256 |}
  end.

(** [Context::from_bytes]; [Context::new] is the same on a string's bytes. *)
Definition context_from_bytes (context : list byte) : result AccountLogError.t Context :=
  map_err
    (λ detail, AccountLogError.InvalidContext
                 ("context " ++ from_utf8_lossy context ++ ": " ++ detail)%string)
    (checked context).

Definition context_new (context : string) : result AccountLogError.t Context :=
  context_from_bytes (str_bytes context).

Definition context_as_bytes (c : Context) : list byte :=
  take (N.to_nat (ctx_len c)) (ctx_buf c).

Definition context_as_str (c : Context) : string := bytes_str (context_as_bytes c).

(** Every [Context] value came out of [checked]. *)
Definition context_wf (c : Context) : Prop := checked (context_as_bytes c) = Ok c.

(** [Context::literal]: [None] is the panic, a build failure in a [const]. *)
Definition literal (context : string) : option Context :=
  match checked (str_bytes context) with Ok c => Some c | Err _ => None end.

(** ** The grammar *)

(** [<namespace>.<label>]: 1-16 octets of [a-z0-9-] and 1-64 octets of
    [a-z0-9.-], each starting with a letter. *)
Definition half (max : nat) (char : byte → bool) (l : list byte) : Prop :=
  length l ≤ max ∧ Forall (λ b, char b = true) l ∧
  ∃ b t, l = b :: t ∧ is_ascii_lowercase b = true.

Definition context_grammar (s : list byte) : Prop :=
  ∃ ns lb, s = ns ++ DOT :: lb ∧
    half MAX_NAMESPACE namespace_char ns ∧ half MAX_LABEL label_char lb.

Definition context_of (s : list byte) : Context :=
  {| ctx_buf := s ++ replicate (MAX_CONTEXT - length s) x00; ctx_len := N.of_nat (length s) |}.

Lemma namespace_char_not_dot b : namespace_char b = true → Byte.eqb b DOT = false.
Proof.
  intros Hb. apply not_true_iff_false. intros ->%byte_eqb_eq. vm_compute in Hb. done.
Qed.

(** The first dot ends the namespace. *)
Lemma position_dot ns lb :
  Forall (λ b, namespace_char b = true) ns →
  position (λ b, Byte.eqb b DOT) (ns ++ DOT :: lb) = Some (length ns).
Proof.
  induction 1 as [|b ns Hb _ IH]; [done|]. cbn -[DOT].
  by rewrite (namespace_char_not_dot _ Hb), IH.
Qed.

Lemma position_dot_split s n :
  position (λ b, Byte.eqb b DOT) s = Some n → s = take n s ++ DOT :: drop (n + 1) s.
Proof.
  intros [(b & Hb & ->%byte_eqb_eq) _]%position_Some.
  rewrite Nat.add_1_r. symmetry. by apply take_drop_middle.
Qed.

Lemma starts_lower_spec l :
  starts_lower l = true ↔ ∃ b t, l = b :: t ∧ is_ascii_lowercase b = true.
Proof. destruct l; naive_solver. Qed.

Lemma half_spec max char l :
  half max char l ↔
  bool_decide (l = []) || (max <? length l) = false ∧ starts_lower l = true ∧
  forallb char l = true.
Proof.
  unfold half. rewrite orb_false_iff, bool_decide_eq_false, Nat.ltb_ge.
  rewrite starts_lower_spec, forallb_Forall. split; [|naive_solver].
  intros (? & ? & b & t & -> & ?). naive_solver.
Qed.

Lemma checked_Ok s c : checked s = Ok c ↔ context_grammar s ∧ c = context_of s.
Proof.
  unfold checked. split.
  - destruct (position _ s) as [n|] eqn:Hp; [|done].
    pose proof (position_dot_split _ _ Hp) as Hs. intros Hc.
    assert (length s ≤ MAX_CONTEXT ∧ context_grammar s) as [Hlen Hg].
    { assert (half MAX_NAMESPACE namespace_char (take n s) ∧
              half MAX_LABEL label_char (drop (n + 1) s)) as [Hn Hl].
      { rewrite !half_spec. case_res; rewrite ?negb_false_iff in *; auto. }
      split; [|by exists (take n s), (drop (n + 1) s)].
      rewrite Hs, length_app. cbn [length]. destruct Hn as [? _], Hl as [? _].
      unfold MAX_CONTEXT. lia. }
    split; [done|]. case_res. unfold context_of, MAX_CONTEXT, MAX_NAMESPACE, MAX_LABEL in *.
    f_equal. apply N.mod_small. lia.
  - intros [(ns & lb & -> & Hn & Hl) ->]. rewrite position_dot by apply Hn.
    rewrite take_app_length. replace (length ns + 1) with (S (length ns)) by lia.
    rewrite drop_app_ge by lia. replace (S (length ns) - length ns) with 1 by lia.
    cbn [drop]. rewrite drop_0.
    pose proof (proj1 (half_spec _ _ _) Hn) as (-> & -> & ->).
    pose proof (proj1 (half_spec _ _ _) Hl) as (-> & -> & ->). cbn [negb].
    unfold context_of, MAX_CONTEXT. do 2 f_equal. apply N.mod_small.
    destruct Hn as [Hn _], Hl as [Hl _]. rewrite length_app. cbn.
    unfold MAX_NAMESPACE, MAX_LABEL in *. lia.
Qed.

Lemma context_grammar_len s : context_grammar s → 0 < length s ≤ MAX_CONTEXT.
Proof.
  intros (ns & lb & -> & [? _] & [? _]). rewrite length_app; cbn [length].
  unfold MAX_CONTEXT. lia.
Qed.

Lemma context_of_bytes s : context_as_bytes (context_of s) = s.
Proof. unfold context_as_bytes, context_of; cbn. by rewrite Nat2N.id, take_app_length. Qed.

Lemma checked_bytes s c : checked s = Ok c → context_as_bytes c = s.
Proof. intros [_ ->]%checked_Ok. apply context_of_bytes. Qed.

Lemma checked_wf s c : checked s = Ok c → context_wf c.
Proof. intros Hc. unfold context_wf. by rewrite (checked_bytes _ _ Hc). Qed.

Lemma context_from_bytes_Ok s c : context_from_bytes s = Ok c ↔ checked s = Ok c.
Proof. apply map_err_Ok. Qed.

Lemma context_wf_len c : context_wf c → 0 < length (context_as_bytes c) ≤ MAX_CONTEXT.
Proof. intros [Hg _]%checked_Ok. by apply context_grammar_len. Qed.

Lemma context_as_bytes_inj c d :
  context_wf c → context_wf d → context_as_bytes c = context_as_bytes d → c = d.
Proof. unfold context_wf. intros Hc Hd E. rewrite E in Hc. congruence. Qed.

(** A context is ASCII, so [as_str] cannot panic. *)
Lemma context_grammar_ascii s : context_grammar s → Forall (λ b, is_ascii b = true) s.
Proof.
  assert (∀ b, label_char b = true → is_ascii b = true) as Hc.
  { intros b. apply implb_true_iff. revert b.
    by apply (all_bytes_spec (λ b, implb (label_char b) (is_ascii b))). }
  assert (∀ b, namespace_char b = true → is_ascii b = true) as Hn.
  { intros b Hb. apply Hc. unfold namespace_char, label_char in *. by rewrite Hb. }
  intros (ns & lb & -> & (_ & Hns & _) & (_ & Hlb & _)).
  apply Forall_app; split; [eapply Forall_impl; [exact Hn|done]|].
  constructor; [done|]. eapply Forall_impl; [exact Hc|done].
Qed.

#[export] Hint Resolve checked_wf context_wf_len : chat.
