(* ===== verification/AccountLog.v ===== *)
(** * The account log ([account/account-log/src/account_log.rs])

    The log as validated entries: which [Remove]s are valid, which entries
    are live, and the queries a consumer makes by context. [option] results
    are the [expect]s of the source: [None] is a panic, and the theorems show
    a validated log never reaches one. *)

From Stdlib Require Import Strings.Byte Strings.String.
From stdpp Require Import base gmap strings list numbers pretty sorting.
From S2P Require Import Prelude Utf8 Ed25519 Context.

(** ** Data *)

Inductive EntryData : Type :=
| Ed25519Key (key : list byte)
| Text (value : string)
| UnknownData (tag : byte) (body : list byte).

Inductive AccountEntry : Type :=
| Add (context : Context) (data : EntryData)
| Remove (index : N)
| UnknownEntry (opcode : byte) (body : list byte).

#[export] Instance entry_data_eq_dec : EqDecision EntryData.
Proof. solve_decision. Defined.
#[export] Instance account_entry_eq_dec : EqDecision AccountEntry.
Proof. solve_decision. Defined.

Record AccountLog := { entries : list AccountEntry }.
Record EncodedAccountLog := Encoded { as_bytes : list byte }.
Record SignedAccountLog := {
  payload : EncodedAccountLog;
  signature : Ed25519Signature;
}.
Record IndexedAccountEntry := { index : N; entry : AccountEntry }.

#[export] Instance account_log_eq_dec : EqDecision AccountLog.
Proof. solve_decision. Defined.
#[export] Instance encoded_log_eq_dec : EqDecision EncodedAccountLog.
Proof. solve_decision. Defined.
#[export] Instance signed_log_eq_dec : EqDecision SignedAccountLog.
Proof. solve_decision. Defined.

(** What the Rust types already guarantee of an entry: a context that was
    checked, a 32-byte key, UTF-8 text, a [u32] index. *)
Definition data_wf (d : EntryData) : Prop :=
  match d with
  | Ed25519Key key => length key = 32
  | Text value => utf8_valid (str_bytes value) = true
  | UnknownData _ _ => True
  end.

Definition entry_wf (e : AccountEntry) : Prop :=
  match e with
  | Add context data => context_wf context ∧ data_wf data
  | Remove index => (index < 2 ^ 32)%N
  | UnknownEntry _ _ => True
  end.

(** [AccountEntry::add]. *)
Definition entry_add (context : Context) (data : EntryData) : AccountEntry := Add context data.

Definition is_remove (e : AccountEntry) : bool :=
  match e with Remove _ => true | _ => false end.

(** [n as u32]. *)
Definition u32 (n : N) : N := (n mod 2 ^ 32)%N.

(** [Result::expect]: [None] is the panic. *)
Definition expect {E A} (r : result E A) : option A :=
  match r with Ok a => Some a | Err _ => None end.

(** ** Tombstones *)

(** The fault of one [Remove], tested in the source's order. *)
Definition remove_fault (es : list AccountEntry) (removed : list bool) (position : nat) (index : N)
  : option string :=
  if (N.of_nat position <=? index)%N then Some "is not strictly earlier"%string
  else
    let target := N.to_nat index in
    if (removed !!! target : bool) then Some "is already removed"%string
    else match es !! target with
         | Some (Remove _) => Some "is itself a remove"%string
         | _ => None
         end.

Fixpoint mask_loop (es todo : list AccountEntry) (position : nat) (removed : list bool)
  : result AccountLogError.t (list bool) :=
  match todo with
  | [] => Ok removed
  | Remove index :: todo =>
      match remove_fault es removed position index with
      | Some fault =>
          Err (AccountLogError.Malformed
                 ("remove at position " ++ pretty (N.of_nat position) ++ " targets entry "
                    ++ pretty index ++ ", which " ++ fault)%string)
      | None => mask_loop es todo (S position) (<[N.to_nat index := true]> removed)
      end
  | _ :: todo => mask_loop es todo (S position) removed
  end.

Definition filter_mask_removed (es : list AccountEntry) : result AccountLogError.t (list bool) :=
  mask_loop es es 0 (replicate (length es) false).

(** [AccountLog::indexed] on its entries. *)
Definition indexed (es : list AccountEntry) : list IndexedAccountEntry :=
  imap (λ i e, {| index := u32 (N.of_nat i); entry := e |}) es.

Definition valid_live_entries (es : list AccountEntry)
  : result AccountLogError.t (list IndexedAccountEntry) :=
  removed ← filter_mask_removed es;
  Ok (filter (λ v, removed !!! N.to_nat (index v) = false ∧ is_remove (entry v) = false)
        (indexed es)).

Section log.
Context {D : Dalek}.

Fixpoint ensure_valid_types (es : list AccountEntry) : result AccountLogError.t () :=
  match es with
  | [] => Ok ()
  | Add _ (Ed25519Key bytes) :: es =>
      _ ← map_err AccountLogError.from_ed25519 (from_canonical_bytes bytes);
      ensure_valid_types es
  | _ :: es => ensure_valid_types es
  end.

Definition from_entries (es : list AccountEntry) : result AccountLogError.t AccountLog :=
  _ ← filter_mask_removed es;
  _ ← ensure_valid_types es;
  Ok {| entries := es |}.

Definition live_indexed (log : AccountLog) : option (list IndexedAccountEntry) :=
  expect (valid_live_entries (entries log)).

Definition empty_log : AccountLog := {| entries := [] |}.

Definition bears (context : Context) (v : IndexedAccountEntry) : Prop :=
  match entry v with Add c _ => c = context | _ => False end.

#[export] Instance bears_dec context v : Decision (bears context v).
Proof. unfold bears. destruct (entry v); apply _. Defined.

Definition entries_for (log : AccountLog) (context : Context)
  : option (list IndexedAccountEntry) :=
  live ← live_indexed log; Some (filter (bears context) live).

Definition entry_key (v : IndexedAccountEntry) : option (list byte) :=
  match entry v with Add _ (Ed25519Key bytes) => Some bytes | _ => None end.

Definition entry_text (v : IndexedAccountEntry) : option string :=
  match entry v with Add _ (Text value) => Some value | _ => None end.

Definition ed25519_keys_for (log : AccountLog) (context : Context)
  : option (list Ed25519VerifyingKey) :=
  es ← entries_for log context;
  mapM (λ bytes, expect (from_canonical_bytes bytes)) (filter_map entry_key es).

(** The body of the loop over [indexed]. *)
Definition revoked_step (context : Context) (live : list Ed25519VerifyingKey) (removed : list bool)
    (revoked : list Ed25519VerifyingKey) (e : IndexedAccountEntry)
  : option (list Ed25519VerifyingKey) :=
  match entry e with
  | Add c (Ed25519Key bytes) =>
      if decide (c = context ∧ removed !!! N.to_nat (index e) = true) then
        key ← expect (from_canonical_bytes bytes);
        if decide ((key ∉ live) ∧ key ∉ revoked) then Some (revoked ++ [key]) else Some revoked
      else Some revoked
  | _ => Some revoked
  end.

Fixpoint revoked_loop (context : Context) (live : list Ed25519VerifyingKey) (removed : list bool)
    (es : list IndexedAccountEntry) (revoked : list Ed25519VerifyingKey)
  : option (list Ed25519VerifyingKey) :=
  match es with
  | [] => Some revoked
  | e :: es =>
      revoked ← revoked_step context live removed revoked e;
      revoked_loop context live removed es revoked
  end.

Definition revoked_ed25519_keys_for (log : AccountLog) (context : Context)
  : option (list Ed25519VerifyingKey) :=
  live ← ed25519_keys_for log context;
  removed ← expect (filter_mask_removed (entries log));
  revoked_loop context live removed (indexed (entries log)) [].

Definition text_for (log : AccountLog) (context : Context) : option (list string) :=
  es ← entries_for log context; Some (filter_map entry_text es).
End log.

(** An entry this build cannot interpret. *)
Definition unreadable (e : AccountEntry) : bool :=
  match e with
  | UnknownEntry _ _ | Add _ (UnknownData _ _) => true
  | _ => false
  end.

Definition first_unreadable (log : AccountLog) : option nat := position unreadable (entries log).

(** ** Freshness *)

Inductive LogFreshness : Type := Newer | Identical | Behind | Diverged.

#[export] Instance freshness_eq_dec : EqDecision LogFreshness.
Proof. solve_decision. Defined.

Definition compare_log_freshness (existing candidate : list byte) : LogFreshness :=
  if decide (candidate = existing) then Identical
  else if starts_with candidate existing && (length existing <? length candidate) then Newer
  else if starts_with existing candidate then Behind
  else Diverged.

(** ** What the checks mean *)

(** The rule for one [Remove] after the entries [dn]: it names a strictly
    earlier entry, not yet removed, that is not a [Remove]. *)
Definition valid_remove (dn : list AccountEntry) (i : N) : Prop :=
  (Remove i ∉ dn) ∧ ∃ e, dn !! N.to_nat i = Some e ∧ is_remove e = false.

Definition removes_valid (es : list AccountEntry) : Prop :=
  ∀ dn i rest, es = dn ++ Remove i :: rest → valid_remove dn i.

(** Which of the first [n] positions some [Remove] of [es] names. *)
Definition mask_of (n : nat) (es : list AccountEntry) : list bool :=
  map (λ t, bool_decide (Remove (N.of_nat t) ∈ es)) (seq 0 n).

Definition keys_valid {D : Dalek} (es : list AccountEntry) : Prop :=
  ∀ c b, Add c (Ed25519Key b) ∈ es → ∃ k, from_canonical_bytes b = Ok k.

(** A log that went through [from_entries]. *)
Definition log_valid {D : Dalek} (log : AccountLog) : Prop := from_entries (entries log) = Ok log.

(** Position [t] holds an entry that is not a [Remove] and that none removes. *)
Definition live_at (es : list AccountEntry) (t : nat) (e : AccountEntry) : Prop :=
  es !! t = Some e ∧ is_remove e = false ∧ Remove (N.of_nat t) ∉ es.

Lemma length_mask_of n es : length (mask_of n es) = n.
Proof. unfold mask_of. by rewrite length_map, length_seq. Qed.

Lemma lookup_mask_of n es t :
  t < n → mask_of n es !! t = Some (bool_decide (Remove (N.of_nat t) ∈ es)).
Proof.
  intros Ht. unfold mask_of. rewrite list_lookup_fmap, lookup_seq_lt by done. done.
Qed.

Lemma lookup_total_mask_of n es t :
  t < n → mask_of n es !!! t = bool_decide (Remove (N.of_nat t) ∈ es).
Proof. intros Ht. by apply list_lookup_total_correct, lookup_mask_of. Qed.

Lemma mask_of_other n dn e : is_remove e = false → mask_of n (dn ++ [e]) = mask_of n dn.
Proof.
  intros He. apply map_ext. intros t. apply bool_decide_ext.
  rewrite elem_of_app, list_elem_of_singleton. destruct e; naive_solver.
Qed.

Lemma mask_of_remove n dn i :
  N.to_nat i < n → <[N.to_nat i := true]> (mask_of n dn) = mask_of n (dn ++ [Remove i]).
Proof.
  intros Hi. eapply (list_eq_same_length _ _ n); [by rewrite length_mask_of| |].
  { by rewrite length_insert, length_mask_of. }
  intros t x y Ht. rewrite (lookup_mask_of _ (dn ++ _)) by done.
  intros Hx [= <-]. destruct (decide (t = N.to_nat i)) as [->|Hne].
  - rewrite list_lookup_insert_eq in Hx by (by rewrite length_mask_of). simplify_eq.
    symmetry. apply bool_decide_eq_true. rewrite N2Nat.id. set_solver.
  - rewrite list_lookup_insert_ne, lookup_mask_of in Hx by done. simplify_eq.
    apply bool_decide_ext. rewrite elem_of_app, list_elem_of_singleton.
    split; [auto|]. intros [|[= H]]; [done|]. exfalso. lia.
Qed.

(** The fault is reported exactly when the rule is broken. *)
Lemma remove_fault_None es dn i n :
  dn `prefix_of` es → length dn ≤ n →
  remove_fault es (mask_of n dn) (length dn) i = None ↔ valid_remove dn i.
Proof.
  intros [k ->] Hn. unfold remove_fault, valid_remove.
  destruct (N.leb_spec (N.of_nat (length dn)) i) as [Hle|Hlt].
  { split; [done|]. intros (_ & e & He%lookup_lt_Some & _). lia. }
  rewrite lookup_total_mask_of, N2Nat.id by lia. case_bool_decide as Hin.
  { split; [done|]. by intros [? _]. }
  rewrite lookup_app_l by lia.
  destruct (lookup_lt_is_Some_2 dn (N.to_nat i)) as [e He]; [lia|]. rewrite He.
  destruct e; naive_solver.
Qed.

Lemma mask_loop_spec es dn todo m :
  es = dn ++ todo →
  mask_loop es todo (length dn) (mask_of (length es) dn) = Ok m ↔
  (∀ dn' i rest, todo = dn' ++ Remove i :: rest → valid_remove (dn ++ dn') i) ∧
  m = mask_of (length es) es.
Proof.
  intros ->. revert dn. induction todo as [|e todo IH]; intros dn.
  { cbn. rewrite app_nil_r. split.
    - intros [= <-]. split; [|done]. by intros [|] ? ? ?.
    - by intros [_ ->]. }
  specialize (IH (dn ++ [e])). rewrite <- app_assoc, length_app, Nat.add_1_r in IH.
  cbn [app] in IH.
  set (es := dn ++ e :: todo) in *.
  assert (length dn < length es) as Hlen.
  { unfold es. rewrite length_app. cbn. lia. }
  assert (∀ P : list AccountEntry → N → Prop,
    (∀ dn' i rest, e :: todo = dn' ++ Remove i :: rest → P dn' i) ↔
    (∀ i, e = Remove i → P [] i) ∧
    (∀ dn' i rest, todo = dn' ++ Remove i :: rest → P (e :: dn') i)) as Hsplit.
  { intros P. split.
    - intros HP. split; [intros i ->; by eapply (HP []) | intros ???->; by eapply (HP (_ :: _))].
    - intros [H1 H2] [|x dn'] i rest [= -> ->]; eauto. }
  rewrite (Hsplit (λ dn' i, valid_remove (dn ++ dn') i)). rewrite app_nil_r.
  setoid_rewrite <- (assoc_L (++) dn [e]) in IH. cbn [app] in IH.
  destruct (is_remove e) eqn:He.
  - destruct e as [|i|]; try done. cbn [mask_loop].
    pose proof (remove_fault_None es dn i (length es)) as Hf.
    destruct (remove_fault _ _ _ _) as [f|].
    + split; [done|]. intros [[H1 _] _].
      specialize (H1 i eq_refl). apply Hf in H1; [done| |lia]. by eexists.
    + assert (valid_remove dn i) as Hv by (apply Hf; [by eexists | lia | done]).
      assert (N.to_nat i < length es).
      { destruct Hv as (_ & e & He'%lookup_lt_Some & _). lia. }
      rewrite mask_of_remove, IH by done. naive_solver.
  - assert (mask_loop es (e :: todo) (length dn) (mask_of (length es) dn) =
            mask_loop es todo (S (length dn)) (mask_of (length es) (dn ++ [e]))) as ->.
    { rewrite mask_of_other by done. by destruct e. }
    rewrite IH. split; [|naive_solver].
    intros [H1 H2]. split; [split; [|done]|done]. by intros i ->.
Qed.

Lemma filter_mask_removed_Ok es m :
  filter_mask_removed es = Ok m ↔ removes_valid es ∧ m = mask_of (length es) es.
Proof.
  unfold filter_mask_removed.
  assert (replicate (length es) false = mask_of (length es) []) as ->.
  { apply replicate_as_elem_of. split; [apply length_mask_of|].
    intros b (t & -> & _)%list_elem_of_fmap. by apply bool_decide_eq_false, not_elem_of_nil. }
  by rewrite (mask_loop_spec es [] es).
Qed.

Lemma removes_valid_prefix es ds : ds `prefix_of` es → removes_valid es → removes_valid ds.
Proof. intros [k ->] H dn i rest ->. eapply (H dn i (rest ++ k)). by rewrite <- app_assoc. Qed.

Lemma removes_valid_nil : removes_valid [].
Proof. by intros [|] ? ? ?. Qed.

Lemma removes_valid_snoc es e :
  removes_valid (es ++ [e]) ↔ removes_valid es ∧ ∀ i, e = Remove i → valid_remove es i.
Proof.
  split.
  - intros H. split; [eapply removes_valid_prefix, H; by eexists | intros i ->; by eapply H].
  - intros [H1 H2] dn i rest Heq.
    destruct rest as [|x rest _] using rev_ind.
    + apply app_inj_tail in Heq as [-> ->]. by apply H2.
    + rewrite app_comm_cons, app_assoc in Heq. apply app_inj_tail in Heq as [-> _].
      by eapply H1.
Qed.

(** Every target of a valid log is an earlier entry that is not a [Remove],
    and no target is named twice. *)
Lemma removes_valid_target es i p :
  removes_valid es → es !! p = Some (Remove i) →
  N.to_nat i < p ∧ ∃ e, es !! N.to_nat i = Some e ∧ is_remove e = false.
Proof.
  intros H Hp. pose proof (take_drop_middle _ _ _ Hp) as Hs.
  destruct (H _ _ _ (eq_sym Hs)) as (_ & e & He & Hr). apply lookup_take_Some in He as [He Hlt].
  eauto.
Qed.

Lemma removes_valid_once es i p q :
  removes_valid es → es !! p = Some (Remove i) → es !! q = Some (Remove i) → p = q.
Proof.
  assert (∀ p q, removes_valid es → es !! p = Some (Remove i) → es !! q = Some (Remove i) →
    p < q → False) as Haux.
  { intros a b H Ha Hb Hab. pose proof (take_drop_middle _ _ _ Hb) as Hs.
    destruct (H _ _ _ (eq_sym Hs)) as (Hn & _). apply Hn.
    apply list_elem_of_lookup. exists a. by rewrite lookup_take_lt. }
  intros. destruct (lt_eq_lt_dec p q) as [[]|]; [exfalso|done|exfalso]; eauto.
Qed.

(** ** Live entries *)

Lemma lookup_indexed es t v :
  indexed es !! t = Some v ↔
  ∃ e, es !! t = Some e ∧ v = {| index := u32 (N.of_nat t); entry := e |}.
Proof. unfold indexed. rewrite list_lookup_imap, fmap_Some. done. Qed.

Lemma u32_small n : (n < 2 ^ 32)%N → u32 n = n.
Proof. apply N.mod_small. Qed.

Lemma valid_live_entries_elem es vs v :
  (N.of_nat (length es) ≤ 2 ^ 32)%N →
  valid_live_entries es = Ok vs →
  v ∈ vs ↔ live_at es (N.to_nat (index v)) (entry v).
Proof.
  intros Hlen Hv. unfold valid_live_entries in Hv. simplify_res.
  apply filter_mask_removed_Ok in H as [_ ->].
  rewrite list_elem_of_filter, list_elem_of_lookup. setoid_rewrite lookup_indexed.
  unfold live_at. split.
  - intros ([Hm Hr] & t & e & He & ->); cbn in *.
    pose proof (lookup_lt_Some _ _ _ He). rewrite u32_small in * by lia.
    rewrite Nat2N.id in *. rewrite lookup_total_mask_of, bool_decide_eq_false in Hm by done. done.
  - intros (He & Hr & Hn). pose proof (lookup_lt_Some _ _ _ He).
    rewrite lookup_total_mask_of, bool_decide_eq_false by done. split; [done|].
    eexists _, _. split; [done|]. destruct v as [i e]; cbn in *.
    rewrite u32_small, N2Nat.id by lia. done.
Qed.

(** Filtering keeps log order: positions strictly increase. *)
Definition index_lt (v w : IndexedAccountEntry) : Prop := (index v < index w)%N.

Lemma indexed_sorted es :
  (N.of_nat (length es) ≤ 2 ^ 32)%N → StronglySorted index_lt (indexed es).
Proof.
  induction es as [|e es IH] using rev_ind; intros Hlen; [constructor|].
  rewrite length_app in Hlen; cbn in Hlen. unfold indexed. rewrite imap_app.
  apply StronglySorted_app. split_and!; [|apply IH; lia|repeat constructor].
  cbn. intros v w (t & Hv)%list_elem_of_lookup ->%list_elem_of_singleton.
  apply lookup_indexed in Hv as (x & Hx%lookup_lt_Some & ->). unfold index_lt; cbn.
  rewrite !u32_small; lia.
Qed.

Lemma sorted_filter {A} (R : A → A → Prop) (P : A → Prop) `{!∀ x, Decision (P x)} l :
  StronglySorted R l → StronglySorted R (filter P l).
Proof.
  induction 1 as [|x l _ IH Hx]; [constructor|]. rewrite filter_cons.
  case_decide; [|done]. constructor; [done|]. apply Forall_forall.
  intros y [_ Hy]%list_elem_of_filter. rewrite Forall_forall in Hx. by apply Hx.
Qed.

Lemma valid_live_entries_sorted es vs :
  (N.of_nat (length es) ≤ 2 ^ 32)%N → valid_live_entries es = Ok vs →
  StronglySorted index_lt vs.
Proof.
  intros Hlen Hv. unfold valid_live_entries in Hv. simplify_res.
  by apply sorted_filter, indexed_sorted.
Qed.

(** ** Validated logs *)

Section log_lemmas.
Context {D : Dalek}.

Lemma ensure_valid_types_Ok es : ensure_valid_types es = Ok () ↔ keys_valid es.
Proof.
  unfold keys_valid. induction es as [|e es IH]; cbn.
  { split; [|done]. by intros _ ? ? ?%elem_of_nil. }
  setoid_rewrite elem_of_cons.
  destruct e as [c [key|value|tag body]|i|op body]; cbn;
    try (rewrite IH; split; [intros H c' b' [?|?]; [done|eauto] | eauto]).
  destruct (from_canonical_bytes key) as [k|err] eqn:Hk; cbn.
  - rewrite IH. split; [|eauto]. intros H c' b' [[= -> ->]|?]; eauto.
  - split; [done|]. intros H. destruct (H c key) as [k ?]; [auto|]. congruence.
Qed.

Lemma from_entries_Ok es log :
  from_entries es = Ok log ↔ removes_valid es ∧ keys_valid es ∧ log = {| entries := es |}.
Proof.
  unfold from_entries. rewrite bind_Ok. setoid_rewrite bind_Ok.
  setoid_rewrite filter_mask_removed_Ok. split.
  - intros (m & [Hr _] & [] & Ht%ensure_valid_types_Ok & [= <-]). done.
  - intros (Hr & Hk%ensure_valid_types_Ok & ->). eauto 10.
Qed.

Lemma log_valid_spec log :
  log_valid log ↔ removes_valid (entries log) ∧ keys_valid (entries log).
Proof. unfold log_valid. rewrite from_entries_Ok. destruct log; naive_solver. Qed.

Lemma from_entries_valid es log : from_entries es = Ok log → log_valid log.
Proof. intros (? & ? & ->)%from_entries_Ok. by apply log_valid_spec. Qed.

Lemma from_entries_entries es log : from_entries es = Ok log → entries log = es.
Proof. by intros (_ & _ & ->)%from_entries_Ok. Qed.

Lemma empty_log_valid : log_valid empty_log.
Proof. done. Qed.

Lemma keys_valid_prefix es ds : ds `prefix_of` es → keys_valid es → keys_valid ds.
Proof. intros [k ->] H c b Hin. eapply H. rewrite elem_of_app. eauto. Qed.

(** A prefix of a valid log is a valid log. *)
Lemma log_valid_prefix log ds :
  ds `prefix_of` entries log → log_valid log → log_valid {| entries := ds |}.
Proof.
  rewrite !log_valid_spec. intros Hp [? ?]; cbn.
  eauto using removes_valid_prefix, keys_valid_prefix.
Qed.

(** The live list of a valid log: the accessors' [expect]s hold. *)
Lemma live_indexed_total log :
  log_valid log → ∃ vs, live_indexed log = Some vs ∧ valid_live_entries (entries log) = Ok vs.
Proof.
  intros [Hr _]%log_valid_spec. unfold live_indexed, valid_live_entries.
  rewrite (proj2 (filter_mask_removed_Ok _ _) (conj Hr eq_refl)). cbn. eauto.
Qed.

Lemma live_entry_in log vs v :
  valid_live_entries (entries log) = Ok vs → v ∈ vs → entry v ∈ entries log.
Proof.
  unfold valid_live_entries. intros Hv Hin. simplify_res.
  apply list_elem_of_filter in Hin as [_ (t & Ht)%list_elem_of_lookup].
  apply lookup_indexed in Ht as (e & He & ->). by apply list_elem_of_lookup_2 in He.
Qed.

Lemma entry_key_Some v b : entry_key v = Some b ↔ ∃ c, entry v = Add c (Ed25519Key b).
Proof. unfold entry_key. destruct (entry v) as [c []| |]; naive_solver. Qed.

Lemma entry_text_Some v s : entry_text v = Some s ↔ ∃ c, entry v = Add c (Text s).
Proof. unfold entry_text. destruct (entry v) as [c []| |]; naive_solver. Qed.

Lemma bears_spec c v : bears c v ↔ ∃ d, entry v = Add c d.
Proof. unfold bears. destruct (entry v); naive_solver. Qed.

Lemma mapM_expect_total {A B E} (f : A → result E B) l :
  (∀ x, x ∈ l → ∃ y, f x = Ok y) → ∃ ys, mapM (λ x, expect (f x)) l = Some ys.
Proof.
  intros H. apply mapM_is_Some_2, Forall_forall. intros x Hx.
  destruct (H x Hx) as [y Hy]. exists y. unfold expect. by rewrite Hy.
Qed.

Lemma entries_for_elem log vs ctx es v :
  (N.of_nat (length (entries log)) ≤ 2 ^ 32)%N →
  valid_live_entries (entries log) = Ok vs → entries_for log ctx = Some es →
  v ∈ es ↔ (∃ d, entry v = Add ctx d) ∧ live_at (entries log) (N.to_nat (index v)) (entry v).
Proof.
  intros Hlen Hvs Hes. unfold entries_for, live_indexed in Hes. rewrite Hvs in Hes.
  cbn in Hes. simplify_eq. rewrite list_elem_of_filter, bears_spec.
  by rewrite (valid_live_entries_elem _ _ v Hlen Hvs).
Qed.

Lemma ed25519_keys_for_total log ctx :
  log_valid log → ∃ ks, ed25519_keys_for log ctx = Some ks.
Proof.
  intros Hlog. destruct (live_indexed_total _ Hlog) as (vs & Hl & Hvs).
  unfold ed25519_keys_for, entries_for. rewrite Hl. cbn.
  apply mapM_expect_total. intros b (v & [_ Hv]%list_elem_of_filter & Hb)%elem_of_filter_map.
  apply entry_key_Some in Hb as [c Hc]. apply log_valid_spec in Hlog as [_ Hk].
  eapply (Hk c). rewrite <- Hc. by eapply live_entry_in.
Qed.
End log_lemmas.

Section revoked.
Context {D : Dalek} {DL : DalekLaws D}.

Lemma ed25519_keys_for_elem log ctx ks k :
  (N.of_nat (length (entries log)) ≤ 2 ^ 32)%N →
  log_valid log → ed25519_keys_for log ctx = Some ks →
  k ∈ ks ↔ key_wf k ∧ ∃ t, live_at (entries log) t (Add ctx (Ed25519Key (key_bytes k))).
Proof.
  intros Hlen Hlog Hks. destruct (live_indexed_total _ Hlog) as (vs & Hl & Hvs).
  unfold ed25519_keys_for in Hks. apply bind_Some in Hks as (es & Hes & Hks).
  apply mapM_Some in Hks. pose proof (λ v, entries_for_elem _ _ _ _ v Hlen Hvs Hes) as Hel.
  split.
  - intros (n & Hn)%list_elem_of_lookup.
    destruct (Forall2_lookup_r _ _ _ _ _ Hks Hn) as (b & Hb & Hk).
    unfold expect in Hk. case_match eqn:Hc; simplify_eq.
    apply list_elem_of_lookup_2, elem_of_filter_map in Hb as (v & Hv & Hb).
    split; [by eapply from_canonical_bytes_wf|].
    rewrite (from_canonical_bytes_bytes _ _ Hc).
    apply Hel in Hv as [[d Hd] Hlive].
    apply entry_key_Some in Hb as [c Hc']. rewrite Hd in Hc'. simplify_eq.
    exists (N.to_nat (index v)). by rewrite <- Hd.
  - intros [Hwf (t & Ht)]. pose proof Ht as (Hat & _). apply lookup_lt_Some in Hat.
    assert (key_bytes k ∈ filter_map entry_key es) as (n & Hn)%list_elem_of_lookup.
    { apply elem_of_filter_map. exists {| index := N.of_nat t; entry := Add ctx (Ed25519Key (key_bytes k)) |}.
      split; [|done]. apply Hel; cbn. rewrite Nat2N.id. eauto. }
    destruct (Forall2_lookup_l _ _ _ _ _ Hks Hn) as (k' & Hk' & Hc).
    unfold key_wf in Hwf. rewrite Hwf in Hc. cbn in Hc. simplify_eq.
    by apply list_elem_of_lookup_2 in Hk'.
Qed.

(** What the loop body adds for one entry. *)
Definition revokes (ctx : Context) (live : list Ed25519VerifyingKey) (removed : list bool)
    (k : Ed25519VerifyingKey) (v : IndexedAccountEntry) : Prop :=
  (k ∉ live) ∧ key_wf k ∧ entry v = Add ctx (Ed25519Key (key_bytes k)) ∧
  removed !!! N.to_nat (index v) = true.

Lemma revoked_step_spec ctx live removed acc e :
  (∀ c b, entry e = Add c (Ed25519Key b) → ∃ k, from_canonical_bytes b = Ok k) →
  NoDup acc →
  ∃ acc', revoked_step ctx live removed acc e = Some acc' ∧ NoDup acc' ∧
    ∀ k, k ∈ acc' ↔ k ∈ acc ∨ revokes ctx live removed k e.
Proof.
  unfold revokes, revoked_step. intros Hk Hnd.
  assert ((∀ k, revokes ctx live removed k e → k ∈ acc) →
    ∃ acc', Some acc = Some acc' ∧ NoDup acc' ∧
      ∀ k, k ∈ acc' ↔ k ∈ acc ∨ revokes ctx live removed k e) as Hsame.
  { intros H. exists acc. naive_solver. }
  destruct (entry e) as [c [b|s|tag body]|i|op body] eqn:He;
    try (exists acc; split_and!; [done..|]; naive_solver).
  destruct (Hk c b eq_refl) as [key Hkey]. rewrite Hkey. cbn.
  pose proof (from_canonical_bytes_bytes _ _ Hkey) as <-.
  assert (∀ k, revokes ctx live removed k e → key = k) as Hinj.
  { intros k (_ & _ & E & _). apply key_bytes_inj. congruence. }
  unfold revokes in *. rewrite He in *.
  case_decide as Hc; [|apply Hsame; intros k (_ & _ & [= ? _] & ?); by destruct Hc].
  destruct Hc as [-> Hrem]. case_decide as Hnew.
  - destruct Hnew as [Hnl Hna]. exists (acc ++ [key]). split_and!; [done| |].
    + apply NoDup_app. split_and!; [done| |apply NoDup_singleton].
      by intros x Hx ->%list_elem_of_singleton.
    + intros k. rewrite elem_of_app, list_elem_of_singleton. split.
      * intros [Hin| ->]; [auto|right]. split_and!; eauto using from_canonical_bytes_wf.
      * intros [|?%Hinj]; auto.
  - apply Hsame. intros k Hr. pose proof (Hinj _ Hr) as <-. destruct Hr as [Hnl _].
    destruct (decide (key ∈ acc)); [done|]. by destruct Hnew.
Qed.

(** One pass: what it adds is what the tombstoned endorsements name. *)
Lemma revoked_loop_spec ctx live removed es acc :
  (∀ v c b, v ∈ es → entry v = Add c (Ed25519Key b) → ∃ k, from_canonical_bytes b = Ok k) →
  NoDup acc →
  ∃ ks, revoked_loop ctx live removed es acc = Some ks ∧ NoDup ks ∧
    ∀ k, k ∈ ks ↔ k ∈ acc ∨ ∃ v, v ∈ es ∧ revokes ctx live removed k v.
Proof.
  revert acc. induction es as [|e es IH]; intros acc Hk Hnd; cbn.
  { exists acc. split_and!; [done|done|]. intros k. split; [auto|].
    by intros [|(v & ?%elem_of_nil & _)]. }
  destruct (revoked_step_spec ctx live removed acc e) as (acc' & -> & Hnd' & Hacc); [|done|].
  { intros c b. apply Hk. apply list_elem_of_here. }
  cbn. destruct (IH acc') as (ks & -> & Hks & Hel); [|done|].
  { intros v c b Hv. eapply Hk. by apply list_elem_of_further. }
  exists ks. split_and!; [done..|]. intros k. rewrite Hel, Hacc.
  setoid_rewrite elem_of_cons. naive_solver.
Qed.

(** Revoked keys: endorsed under the context, tombstoned, and not live. *)
Lemma revoked_ed25519_keys_for_spec log ctx ks :
  (N.of_nat (length (entries log)) ≤ 2 ^ 32)%N →
  log_valid log → ed25519_keys_for log ctx = Some ks →
  ∃ rs, revoked_ed25519_keys_for log ctx = Some rs ∧ NoDup rs ∧
    ∀ k, k ∈ rs ↔ (k ∉ ks) ∧ key_wf k ∧
      ∃ t, entries log !! t = Some (Add ctx (Ed25519Key (key_bytes k))) ∧
           Remove (N.of_nat t) ∈ entries log.
Proof.
  intros Hlen Hlog Hks. unfold revoked_ed25519_keys_for. rewrite Hks. cbn.
  apply log_valid_spec in Hlog as [Hr Hv].
  rewrite (proj2 (filter_mask_removed_Ok _ _) (conj Hr eq_refl)). cbn.
  destruct (revoked_loop_spec ctx ks (mask_of (length (entries log)) (entries log))
    (indexed (entries log)) []) as (rs & -> & Hnd & Hel); [|constructor|].
  { intros v c b (t & Ht)%list_elem_of_lookup Hb.
    apply lookup_indexed in Ht as (e & He & ->). cbn in Hb. subst.
    eapply Hv. by eapply list_elem_of_lookup_2. }
  exists rs. split_and!; [done..|]. intros k. rewrite Hel. unfold revokes. split.
  - intros [?%elem_of_nil|(v & (t & Ht)%list_elem_of_lookup & Hnl & Hwf & He & Hm)]; [done|].
    apply lookup_indexed in Ht as (e & Hte & ->). cbn in *. subst.
    pose proof (lookup_lt_Some _ _ _ Hte). rewrite u32_small, Nat2N.id in Hm by lia.
    rewrite lookup_total_mask_of, bool_decide_eq_true in Hm by done. eauto 10.
  - intros (Hnl & Hwf & t & Ht & Hrem). right. pose proof (lookup_lt_Some _ _ _ Ht).
    exists {| index := u32 (N.of_nat t); entry := Add ctx (Ed25519Key (key_bytes k)) |}.
    split; [apply list_elem_of_lookup; exists t; apply lookup_indexed; eauto|].
    split_and!; [done..|]. cbn. rewrite u32_small, Nat2N.id by lia.
    by rewrite lookup_total_mask_of, bool_decide_eq_true by done.
Qed.
End revoked.

(** ** Freshness *)

Lemma compare_log_freshness_spec existing candidate :
  match compare_log_freshness existing candidate with
  | Identical => candidate = existing
  | Newer => existing `prefix_of` candidate ∧ candidate ≠ existing
  | Behind => candidate `prefix_of` existing ∧ candidate ≠ existing
  | Diverged => ¬ existing `prefix_of` candidate ∧ ¬ candidate `prefix_of` existing
  end.
Proof.
  unfold compare_log_freshness. case_decide as Heq; [done|].
  destruct (starts_with candidate existing) eqn:H1; cbn [andb].
  - apply starts_with_spec in H1 as Hp. pose proof (prefix_length _ _ Hp) as Hlen.
    destruct (Nat.ltb_spec (length existing) (length candidate)); [done|].
    exfalso. apply Heq. symmetry. apply prefix_length_eq; [done|lia].
  - assert (¬ existing `prefix_of` candidate) as Hn.
    { rewrite <- starts_with_spec. by rewrite H1. }
    destruct (starts_with existing candidate) eqn:H2.
    + by apply starts_with_spec in H2.
    + split; [done|]. rewrite <- starts_with_spec. by rewrite H2.
Qed.

Lemma compare_log_freshness_Newer existing candidate :
  compare_log_freshness existing candidate = Newer ↔
  existing `prefix_of` candidate ∧ candidate ≠ existing.
Proof.
  pose proof (compare_log_freshness_spec existing candidate) as H. split.
  - intros E. by rewrite E in H.
  - intros [Hp Hne]. destruct (compare_log_freshness _ _); [done|congruence| |naive_solver].
    destruct H as [H _]. exfalso. apply Hne. symmetry.
    apply prefix_length_eq; [done|]. by apply prefix_length.
Qed.
