(* ===== verification/Codec.v ===== *)
(** * Wire format of the account log ([account/account-log/src/codec.rs])

    The encoder and the decoder, entry by entry, at byte level. The theorems:
    they are inverse to each other, the encoding is canonical (a payload that
    decodes is the one its entries encode to), and a byte prefix of a payload
    is exactly an entry prefix of its log, which is what lets freshness be
    decided on bytes. *)

From Stdlib Require Import Strings.Byte Strings.String.
From stdpp Require Import base gmap strings list numbers pretty.
From S2P Require Import Prelude Utf8 Hex Ed25519 Context AccountLog.

(** ** Constants *)

Definition ACCOUNT_LOG_DOMAIN : list byte := str_bytes "logos:accounts:1" ++ [x00].
Definition DOMAIN_STEM : list byte := str_bytes "logos:accounts:".
Definition MAX_PAYLOAD_BYTES : N := Eval cbv in (128 * 1024)%N.
Definition SIGNATURE_LEN : nat := 64.
Definition OP_ADD : byte := x01.
Definition OP_REMOVE : byte := x02.
Definition OPCODE_MASK : byte := xf0.
Definition DATA_ED25519 : byte := x01.
Definition DATA_TEXT : byte := x02.
Definition ENTRY_HEADER : nat := 3.

(** [n as u16]. *)
Definition u16 (n : N) : N := (n mod 2 ^ 16)%N.

Definition malformed (detail : string) : AccountLogError.t := AccountLogError.Malformed detail.

(** The length of a slice as a [usize]. *)
Definition len (l : list byte) : N := N.of_nat (length l).

Definition check_size (payload : list byte) : result AccountLogError.t () :=
  if (MAX_PAYLOAD_BYTES <? len payload)%N then
    Err (AccountLogError.TooLarge MAX_PAYLOAD_BYTES)
  else Ok ().

(** ** Encoding *)

Definition encode_data (data : EntryData) : list byte :=
  match data with
  | Ed25519Key key => DATA_ED25519 :: key
  | Text value => DATA_TEXT :: str_bytes value
  | UnknownData tag raw => tag :: raw
  end.

Definition encode_add (context : Context) (data : EntryData) : list byte :=
  u8 (N.of_nat (length (context_as_bytes context))) :: context_as_bytes context
    ++ encode_data data.

(** The [(opcode, body)] of an entry. *)
Definition entry_parts (e : AccountEntry) : byte * list byte :=
  match e with
  | Add context data => (OP_ADD, encode_add context data)
  | Remove index => (OP_REMOVE, to_le_bytes 4 index)
  | UnknownEntry opcode body => (opcode, body)
  end.

(** One turn of the encoder's loop. *)
Definition encode_entry (e : AccountEntry) : list byte :=
  let '(opcode, body) := entry_parts e in
  opcode :: to_le_bytes 2 (u16 (N.of_nat (length body))) ++ body.

Definition encode_entries (es : list AccountEntry) : result AccountLogError.t EncodedAccountLog :=
  let out := fold_left (λ out e, out ++ encode_entry e) es ACCOUNT_LOG_DOMAIN in
  _ ← check_size out;
  Ok (Encoded out).

(** [AccountLog::encode]. *)
Definition encode (log : AccountLog) : result AccountLogError.t EncodedAccountLog :=
  encode_entries (entries log).

(** ** Decoding *)

Definition split_at_checked (body : list byte) (mid : nat)
  : result AccountLogError.t (list byte * list byte) :=
  if (length body <? mid) then Err (malformed "payload shorter than its declared layout")
  else Ok (take mid body, drop mid body).

Definition split_first (l : list byte) : option (byte * list byte) :=
  match l with b :: l => Some (b, l) | [] => None end.

Definition decode_data (tag : byte) (data : list byte) : result AccountLogError.t EntryData :=
  if decide (tag = DATA_ED25519) then
    if decide (length data = 32) then Ok (Ed25519Key data)
    else Err (malformed ("ed25519 key is " ++ pretty (length data) ++ " bytes, must be 32")%string)
  else if decide (tag = DATA_TEXT) then
    value ← ok_or (from_utf8 data) (malformed "text record is not UTF-8"); Ok (Text value)
  else Ok (UnknownData tag data).

Definition decode_add (body : list byte) : result AccountLogError.t AccountEntry :=
  '(ctx_len, rest) ← ok_or (split_first body) (malformed "add body is empty");
  if decide (ctx_len = x00) then Err (malformed "add context length is zero")
  else
    '(context, rest) ← split_at_checked rest (N.to_nat (Byte.to_N ctx_len));
    context ← context_from_bytes context;
    '(tag, data) ← ok_or (split_first rest)
                     (malformed "add context leaves no room for a data tag");
    data ← decode_data tag data;
    Ok (Add context data).

Definition decode_remove (body : list byte) : result AccountLogError.t AccountEntry :=
  if decide (length body = 4) then Ok (Remove (from_le_bytes body))
  else Err (malformed ("remove body is " ++ pretty (length body) ++ " bytes, must be 4")%string).

Definition decode_entry (input : list byte)
  : result AccountLogError.t (AccountEntry * list byte) :=
  '(header, rest) ← split_at_checked input ENTRY_HEADER;
  let opcode := header !!! 0 in
  if decide (N.land (Byte.to_N opcode) (Byte.to_N OPCODE_MASK) = 0%N) then
    let len := N.to_nat (from_le_bytes (drop 1 header)) in
    '(body, rest) ← split_at_checked rest len;
    entry ←
      (if decide (opcode = OP_ADD) then decode_add body
       else if decide (opcode = OP_REMOVE) then decode_remove body
       else Ok (UnknownEntry opcode body));
    Ok (entry, rest)
  else
    Err (malformed ("entry opcode 0x" ++ bytes_str (hex_byte opcode)
                      ++ " has reserved high bits set")%string).

(** The decoder's [while]; every entry takes at least [ENTRY_HEADER] bytes,
    so [length body] turns are enough ([decode_loop_fuel]). *)
Fixpoint decode_loop (fuel : nat) (body : list byte)
  : option (result AccountLogError.t (list AccountEntry)) :=
  match body with
  | [] => Some (Ok [])
  | _ =>
      match fuel with
      | O => None
      | S fuel =>
          match decode_entry body with
          | Err e => Some (Err e)
          | Ok (entry, rest) =>
              r ← decode_loop fuel rest; Some (es ← r; Ok (entry :: es))
          end
      end
  end.

Definition decode_body (body : list byte) : result AccountLogError.t (list AccountEntry) :=
  default (Err (malformed "out of fuel")) (decode_loop (length body) body).

Arguments decode_body : simpl never.

Definition domain_error (payload : list byte) : AccountLogError.t :=
  match strip_prefix DOMAIN_STEM payload with
  | None => malformed "payload is missing the account-log domain prefix"
  | Some rest =>
      match position (Byte.eqb x00) (take 16 rest) with
      | Some e => AccountLogError.Version (from_utf8_lossy (take e rest))
      | None => malformed "payload is missing the account-log domain prefix"
      end
  end.

Definition decode_entries (payload : list byte)
  : result AccountLogError.t (list AccountEntry) :=
  match strip_prefix ACCOUNT_LOG_DOMAIN payload with
  | None => Err (domain_error payload)
  | Some body => decode_body body
  end.

(** [EncodedAccountLog::from_bytes]. *)
Definition encoded_from_bytes (bytes : list byte) : result AccountLogError.t EncodedAccountLog :=
  _ ← check_size bytes; Ok (Encoded bytes).

(** [SignedAccountLog::to_bytes] and [from_bytes]. *)
Definition signed_to_bytes (s : SignedAccountLog) : list byte :=
  sig_bytes (signature s) ++ as_bytes (payload s).

Definition signed_from_bytes (artifact : list byte) : result AccountLogError.t SignedAccountLog :=
  if (length artifact <? SIGNATURE_LEN + length ACCOUNT_LOG_DOMAIN) then
    Err (malformed "artifact too short to hold a signature and a payload")
  else
    payload ← encoded_from_bytes (drop SIGNATURE_LEN artifact);
    Ok {| payload := payload; signature := Signature (take SIGNATURE_LEN artifact) |}.

Section decode.
Context {D : Dalek}.

(** [EncodedAccountLog::decode]. *)
Definition decode (p : EncodedAccountLog) : result AccountLogError.t AccountLog :=
  es ← decode_entries (as_bytes p); from_entries es.

(** [SignedAccountLog::verify]; [addr] is the address's verifying key. *)
Definition signed_verify (s : SignedAccountLog) (addr : Ed25519VerifyingKey)
  : result AccountLogError.t AccountLog :=
  _ ← map_err AccountLogError.from_ed25519 (verify addr (as_bytes (payload s)) (signature s));
  decode (payload s).
End decode.

(** ** Which entries the wire can carry *)

(** Kinds the encoder writes under their own tags: an opaque entry has an
    opcode this version does not define, an opaque record a tag it does not. *)
Definition kind_ok (e : AccountEntry) : Prop :=
  match e with
  | Add _ (UnknownData tag _) => tag ≠ DATA_ED25519 ∧ tag ≠ DATA_TEXT
  | UnknownEntry op _ =>
      op ≠ OP_ADD ∧ op ≠ OP_REMOVE ∧ N.land (Byte.to_N op) (Byte.to_N OPCODE_MASK) = 0%N
  | _ => True
  end.

(** The body's length fits the [u16] of the header. *)
Definition fits (e : AccountEntry) : Prop := (N.of_nat (length (entry_parts e).2) < 2 ^ 16)%N.

Definition encodable (e : AccountEntry) : Prop := entry_wf e ∧ kind_ok e ∧ fits e.

Definition encode_body (es : list AccountEntry) : list byte := flat_map encode_entry es.

(** ** One entry *)

Lemma split_at_checked_Ok l n p :
  split_at_checked l n = Ok p ↔ l = p.1 ++ p.2 ∧ length p.1 = n.
Proof.
  unfold split_at_checked. destruct (Nat.ltb_spec (length l) n) as [Hlt|Hge]; split.
  - done.
  - intros [-> <-]. rewrite length_app in Hlt. lia.
  - intros [= <-]. cbn. rewrite take_drop, length_take. auto with lia.
  - destruct p as [x y]; cbn. intros [-> <-].
    by rewrite take_app_length, drop_app_length.
Qed.

Lemma split_at_checked_app l k : split_at_checked (l ++ k) (length l) = Ok (l, k).
Proof. by apply split_at_checked_Ok. Qed.

Lemma split_first_Some l b k : split_first l = Some (b, k) ↔ l = b :: k.
Proof. destruct l; naive_solver. Qed.

Lemma decode_data_encode d :
  data_wf d → kind_ok (Add (context_of []) d) →
  ∃ tag raw, encode_data d = tag :: raw ∧ decode_data tag raw = Ok d.
Proof.
  destruct d as [key|value|tag raw]; cbn; intros Hwf Hk; eexists _, _; (split; [done|]);
    unfold decode_data.
  - rewrite decide_True, decide_True by done. done.
  - rewrite decide_False, decide_True by done.
    rewrite (proj2 (from_utf8_Some _ value)); [done|]. done.
  - rewrite !decide_False by naive_solver. done.
Qed.

Lemma decode_data_Ok tag raw d :
  decode_data tag raw = Ok d →
  encode_data d = tag :: raw ∧ data_wf d ∧ kind_ok (Add (context_of []) d).
Proof.
  unfold decode_data. intros H. case_decide; [|case_decide].
  - case_decide; simplify_res. done.
  - apply bind_Ok in H as (v & Hv%ok_or_Ok & [= <-]).
    apply from_utf8_Some in Hv as [Hv <-]. subst. done.
  - simplify_res. done.
Qed.

Lemma decode_add_encode c d :
  context_wf c → data_wf d → kind_ok (Add c d) → decode_add (encode_add c d) = Ok (Add c d).
Proof.
  intros Hc Hd Hk. pose proof (context_wf_len _ Hc) as Hlen.
  destruct (decode_data_encode d Hd) as (tag & raw & Hraw & Hdec); [by destruct d|].
  unfold MAX_CONTEXT, MAX_NAMESPACE, MAX_LABEL in Hlen.
  unfold decode_add, encode_add. cbn [split_first ok_or mbind result_bind].
  rewrite decide_False.
  2: { intros E%(f_equal Byte.to_N). rewrite to_N_u8, N.mod_small in E by lia. cbn in E. lia. }
  rewrite to_N_u8, N.mod_small, Nat2N.id, split_at_checked_app by lia. cbn.
  rewrite (proj2 (context_from_bytes_Ok _ c) Hc). cbn. rewrite Hraw. cbn. by rewrite Hdec.
Qed.

Lemma decode_add_Ok body e :
  decode_add body = Ok e →
  ∃ c d, e = Add c d ∧ body = encode_add c d ∧ entry_wf e ∧ kind_ok e.
Proof.
  unfold decode_add. intros H. apply bind_Ok in H as ([n rest] & Hf & H).
  apply ok_or_Ok, split_first_Some in Hf as ->. case_decide as Hz; [done|].
  apply bind_Ok in H as ([ctx rest'] & Hs & H). apply split_at_checked_Ok in Hs as [-> Hn].
  apply bind_Ok in H as (c & Hc & H). apply context_from_bytes_Ok in Hc.
  apply bind_Ok in H as ([tag raw] & Hf & H). apply ok_or_Ok, split_first_Some in Hf.
  cbn in Hn, Hf. subst rest'.
  apply bind_Ok in H as (d & Hd & [= <-]). apply decode_data_Ok in Hd as (Henc & Hwf & Hk).
  exists c, d. split_and!; [done| | |by destruct d].
  - unfold encode_add. rewrite (checked_bytes _ _ Hc), Hn, N2Nat.id, u8_to_N. cbn.
    by rewrite Henc.
  - cbn. eauto with chat.
Qed.

(** Reading back one encoded entry leaves exactly what followed it. *)
Lemma decode_entry_encode e rest :
  encodable e → decode_entry (encode_entry e ++ rest) = Ok (e, rest).
Proof.
  intros (Hwf & Hk & Hfit). unfold fits in Hfit. unfold decode_entry, encode_entry.
  destruct (entry_parts e) as [op body] eqn:He. cbn in Hfit.
  set (hd := op :: to_le_bytes 2 (u16 (N.of_nat (length body)))).
  change ((op :: to_le_bytes 2 (u16 (N.of_nat (length body))) ++ body) ++ rest)
    with ((hd ++ body) ++ rest).
  rewrite <- app_assoc. change ENTRY_HEADER with (length hd).
  rewrite split_at_checked_app. cbn [mbind result_bind].
  change (hd !!! 0) with op. change (drop 1 hd) with (to_le_bytes 2 (u16 (N.of_nat (length body)))).
  rewrite from_to_le_bytes. unfold u16. rewrite N.mod_small; [|by apply N.mod_upper_bound].
  rewrite N.mod_small, Nat2N.id, split_at_checked_app by done. cbn [mbind result_bind].
  destruct e as [c d|i|op' body']; cbn [entry_parts] in He;
    apply pair_equal_spec in He as [<- <-].
  - rewrite decide_True by done. rewrite decide_True by done.
    destruct Hwf as [Hc Hd]. by rewrite decode_add_encode.
  - rewrite decide_True, decide_False, decide_True by done.
    unfold decode_remove. rewrite decide_True by apply length_to_le_bytes.
    rewrite from_to_le_bytes, N.mod_small by done. done.
  - destruct Hk as (? & ? & ?). rewrite decide_True, !decide_False by done. done.
Qed.

(** What is read is what the encoder would have written. *)
Lemma decode_entry_Ok input e rest :
  decode_entry input = Ok (e, rest) → input = encode_entry e ++ rest ∧ encodable e.
Proof.
  unfold decode_entry. intros H. apply bind_Ok in H as ([hd tl] & Hs & H).
  apply split_at_checked_Ok in Hs as [-> Hhd]. cbn [fst snd] in *.
  destruct hd as [|op hd]; [done|]. cbn in Hhd. injection Hhd as Hhd.
  change ((op :: hd) !!! 0) with op in H. cbn [drop] in H. rewrite drop_0 in H.
  case_decide as Hop; [|done].
  apply bind_Ok in H as ([body r] & Hs & H). apply split_at_checked_Ok in Hs as [-> Hb].
  cbn [fst snd] in *. apply bind_Ok in H as (e' & He & [= <- <-]).
  assert (length body = length body ∧ (N.of_nat (length body) < 2 ^ 16)%N ∧
    hd = to_le_bytes 2 (u16 (N.of_nat (length body)))) as (_ & Hlt & Hhd').
  { pose proof (from_le_bytes_lt hd) as Hlt. rewrite Hhd in Hlt. rewrite Hb, N2Nat.id.
    split; [done|]. split; [done|]. unfold u16. rewrite N.mod_small by done.
    rewrite <- Hhd. symmetry. apply to_from_le_bytes. }
  assert (entry_parts e' = (op, body) ∧ entry_wf e' ∧ kind_ok e') as (Hp & Hwf & Hk).
  { case_decide as H1; [|case_decide as H2].
    - apply decode_add_Ok in He as (c & d & -> & -> & ? & ?). subst. done.
    - unfold decode_remove in He. case_decide as Hl; simplify_res.
      cbn [entry_parts entry_wf kind_ok]. rewrite <- Hl at 1. rewrite to_from_le_bytes. split_and!; [done| |done].
      pose proof (from_le_bytes_lt body) as Hx. by rewrite Hl in Hx.
    - simplify_res. done. }
  unfold encode_entry, encodable, fits. rewrite Hp. cbn [fst snd].
  split; [|done]. rewrite <- Hhd'. cbn. by rewrite <- app_assoc.
Qed.

Lemma encode_entry_len e : ENTRY_HEADER ≤ length (encode_entry e).
Proof.
  unfold encode_entry. destruct (entry_parts e). cbn [length].
  rewrite length_app, length_to_le_bytes. unfold ENTRY_HEADER. lia.
Qed.

Lemma decode_entry_shorter input e rest :
  decode_entry input = Ok (e, rest) → length rest < length input.
Proof.
  intros [-> _]%decode_entry_Ok. rewrite length_app. pose proof (encode_entry_len e).
  unfold ENTRY_HEADER in *. lia.
Qed.

(** ** Termination: the loop never runs out of its fuel *)

Lemma decode_loop_total body :
  ∃ r, ∀ fuel, length body ≤ fuel → decode_loop fuel body = Some r.
Proof.
  induction body as [body IH] using byte_list_ind.
  destruct body as [|b body]; [by exists (Ok []); intros []|].
  destruct (decode_entry (b :: body)) as [[e rest]|err] eqn:He.
  - pose proof (decode_entry_shorter _ _ _ He) as Hlt.
    destruct (IH rest Hlt) as [r Hr]. exists (es ← r; Ok (e :: es)).
    intros [|fuel] Hf; cbn [length] in *; [lia|]. cbn [decode_loop].
    rewrite He, Hr by lia. done.
  - exists (Err err). intros [|fuel] Hf; cbn [length] in *; [lia|].
    cbn [decode_loop]. by rewrite He.
Qed.

Lemma decode_loop_fuel fuel body :
  length body ≤ fuel → decode_loop fuel body = Some (decode_body body).
Proof.
  intros Hf. unfold decode_body. destruct (decode_loop_total body) as [r Hr].
  by rewrite !Hr.
Qed.

Lemma decode_body_nil : decode_body [] = Ok [].
Proof. done. Qed.

Lemma decode_body_cons body :
  body ≠ [] →
  decode_body body = '(e, rest) ← decode_entry body; es ← decode_body rest; Ok (e :: es).
Proof.
  intros Hne. pose proof (decode_loop_fuel (length body) body ltac:(done)) as H.
  destruct body as [|b body]; [done|]. cbn [length decode_loop] in H.
  destruct (decode_entry (b :: body)) as [[e rest]|] eqn:He; cbn; [|congruence].
  apply decode_entry_shorter in He. cbn [length] in He.
  rewrite decode_loop_fuel in H by lia. cbn in H. congruence.
Qed.

(** ** Whole bodies *)

Lemma encode_body_app es fs : encode_body (es ++ fs) = encode_body es ++ encode_body fs.
Proof. apply flat_map_app. Qed.

Lemma decode_encode_body es :
  Forall encodable es → decode_body (encode_body es) = Ok es.
Proof.
  induction 1 as [|e es He _ IH]; [done|]. cbn [encode_body flat_map].
  rewrite decode_body_cons.
  - rewrite decode_entry_encode by done. cbn. unfold encode_body in IH. by rewrite IH.
  - pose proof (encode_entry_len e) as Hl. intros E.
    apply (f_equal length) in E. rewrite length_app in E. unfold ENTRY_HEADER in *. cbn in E. lia.
Qed.

Lemma decode_body_Ok body es :
  decode_body body = Ok es → body = encode_body es ∧ Forall encodable es.
Proof.
  revert es. induction body as [body IH] using byte_list_ind. intros es H.
  destruct (decide (body = [])) as [->|Hne].
  { rewrite decode_body_nil in H. by simplify_res. }
  rewrite decode_body_cons in H by done. apply bind_Ok in H as ([e rest] & He & H).
  apply bind_Ok in H as (fs & Hfs & [= <-]).
  pose proof (decode_entry_shorter _ _ _ He) as Hlt.
  apply decode_entry_Ok in He as [-> He]. destruct (IH rest Hlt fs Hfs) as [-> Hf].
  split; [done|]. by constructor.
Qed.

(** Encodings of encodable entries are prefix-free, entry by entry. *)
Lemma encode_body_prefix es fs :
  Forall encodable es → Forall encodable fs →
  encode_body es `prefix_of` encode_body fs ↔ es `prefix_of` fs.
Proof.
  intros Hes Hfs. split.
  - revert fs Hfs. induction Hes as [|e es He _ IH]; intros fs Hfs Hp; [apply prefix_nil|].
    destruct Hp as [k Hk]. pose proof (encode_entry_len e) as Hl.
    destruct Hfs as [|f fs Hf Hfs].
    + exfalso. apply (f_equal length) in Hk. cbn in Hk. rewrite !length_app in Hk.
      unfold ENTRY_HEADER in *. lia.
    + cbn in Hk. rewrite <- app_assoc in Hk.
      pose proof (decode_entry_encode f (encode_body fs) Hf) as H1.
      unfold encode_body in H1. rewrite Hk in H1.
      rewrite decode_entry_encode in H1 by done. injection H1 as -> H1.
      apply prefix_cons. apply IH; [done|]. exists k. done.
  - intros [k ->]. rewrite encode_body_app. by eexists.
Qed.

Lemma encode_body_inj es fs :
  Forall encodable es → Forall encodable fs → encode_body es = encode_body fs → es = fs.
Proof.
  intros Hes Hfs E. pose proof (decode_encode_body es Hes) as H1.
  rewrite E, decode_encode_body in H1 by done. congruence.
Qed.

Lemma encode_body_count es : ENTRY_HEADER * length es ≤ length (encode_body es).
Proof.
  induction es as [|e es IH]; [done|]. cbn [encode_body flat_map length].
  rewrite length_app. pose proof (encode_entry_len e). unfold encode_body, ENTRY_HEADER in *. lia.
Qed.

(** ** Payloads *)

Lemma encode_out es :
  fold_left (λ out e, out ++ encode_entry e) es ACCOUNT_LOG_DOMAIN =
  ACCOUNT_LOG_DOMAIN ++ encode_body es.
Proof.
  generalize ACCOUNT_LOG_DOMAIN as out. induction es as [|e es IH]; intros out; cbn.
  - by rewrite app_nil_r.
  - rewrite IH. by rewrite <- app_assoc.
Qed.

Lemma check_size_Ok l : check_size l = Ok () ↔ (len l ≤ MAX_PAYLOAD_BYTES)%N.
Proof. unfold check_size. destruct (N.ltb_spec MAX_PAYLOAD_BYTES (len l)); split; done || lia. Qed.

Lemma encode_entries_Ok es p :
  encode_entries es = Ok p ↔
  p = Encoded (ACCOUNT_LOG_DOMAIN ++ encode_body es) ∧ (len (as_bytes p) ≤ MAX_PAYLOAD_BYTES)%N.
Proof.
  unfold encode_entries. rewrite encode_out, bind_Ok. split.
  - intros ([] & Hs%check_size_Ok & [= <-]). done.
  - intros [-> Hs%check_size_Ok]. eauto.
Qed.

Lemma decode_entries_Ok p es :
  decode_entries p = Ok es ↔ p = ACCOUNT_LOG_DOMAIN ++ encode_body es ∧ Forall encodable es.
Proof.
  unfold decode_entries. destruct (strip_prefix ACCOUNT_LOG_DOMAIN p) as [body|] eqn:Hs.
  - apply strip_prefix_Some in Hs as ->. split.
    + intros [-> ?]%decode_body_Ok. done.
    + intros [->%app_inv_head ?]. by apply decode_encode_body.
  - split; [done|]. intros [-> _]. by rewrite strip_prefix_app in Hs.
Qed.

Lemma decode_Ok {D : Dalek} p log :
  decode p = Ok log ↔
  as_bytes p = ACCOUNT_LOG_DOMAIN ++ encode_body (entries log) ∧
  Forall encodable (entries log) ∧ log_valid log.
Proof.
  unfold decode. rewrite bind_Ok. split.
  - intros (es & Hd%decode_entries_Ok & Hf).
    pose proof (from_entries_valid _ _ Hf). apply from_entries_entries in Hf as <-. naive_solver.
  - intros (Hp & He & Hv). exists (entries log). split; [by apply decode_entries_Ok | done].
Qed.

(** [u32] positions cannot overflow: a payload holds at most 43685 entries. *)
Lemma payload_entry_count es :
  (len (ACCOUNT_LOG_DOMAIN ++ encode_body es) ≤ MAX_PAYLOAD_BYTES)%N →
  (N.of_nat (length es) ≤ 43685)%N.
Proof.
  unfold len. rewrite length_app. pose proof (encode_body_count es). unfold ENTRY_HEADER in *.
  change (length ACCOUNT_LOG_DOMAIN) with 17. unfold MAX_PAYLOAD_BYTES. lia.
Qed.

Lemma encode_decode {D : Dalek} log p :
  log_valid log → Forall encodable (entries log) → encode log = Ok p → decode p = Ok log.
Proof. intros Hv He [-> _]%encode_entries_Ok. apply decode_Ok. split_and!; done. Qed.

Lemma decode_encode {D : Dalek} p log :
  (len (as_bytes p) ≤ MAX_PAYLOAD_BYTES)%N → decode p = Ok log → encode log = Ok p.
Proof.
  destruct p as [p]. intros Hlen (Hp & _ & _)%decode_Ok. cbn [as_bytes] in *.
  apply encode_entries_Ok. rewrite Hp in *. done.
Qed.

Lemma payload_prefix es fs :
  Forall encodable es → Forall encodable fs →
  ACCOUNT_LOG_DOMAIN ++ encode_body es `prefix_of` ACCOUNT_LOG_DOMAIN ++ encode_body fs ↔
  es `prefix_of` fs.
Proof.
  intros Hes Hfs. rewrite <- encode_body_prefix by done. split.
  - apply prefix_app_inv.
  - apply prefix_app.
Qed.

Lemma signed_verify_Ok {D : Dalek} s addr log :
  signed_verify s addr = Ok log ↔
  verify addr (as_bytes (payload s)) (signature s) = Ok () ∧ decode (payload s) = Ok log.
Proof.
  unfold signed_verify. rewrite bind_Ok. split.
  - intros ([] & Hv%map_err_Ok & Hd). done.
  - intros [Hv Hd]. exists (). split; [by apply map_err_Ok | done].
Qed.

(** ** Decoding never reports a bad signature *)

Definition not_sig {A} (r : result AccountLogError.t A) : Prop :=
  r ≠ Err AccountLogError.SignatureInvalid.

Lemma not_sig_bind {A B} (m : result AccountLogError.t A) (f : A → result AccountLogError.t B) :
  not_sig m → (∀ a, not_sig (f a)) → not_sig (m ≫= f).
Proof. intros Hm Hf [?|(a & _ & ?)]%bind_Err; [done | by eapply Hf]. Qed.

Lemma not_sig_ok_or {A} (o : option A) e :
  e ≠ AccountLogError.SignatureInvalid → not_sig (ok_or o e).
Proof. intros He. destruct o; [done|]. by intros [= ?]. Qed.

Lemma decode_add_not_sig body : not_sig (decode_add body).
Proof.
  unfold decode_add, split_at_checked, context_from_bytes, decode_data.
  repeat (first [apply not_sig_bind | apply not_sig_ok_or | progress intros | case_match]; try done).
  by destruct (checked _).
Qed.

Lemma decode_entry_not_sig input : not_sig (decode_entry input).
Proof.
  unfold decode_entry, split_at_checked, decode_remove.
  repeat (first [apply decode_add_not_sig | apply not_sig_bind | progress intros | case_match];
          try done).
Qed.

Lemma decode_body_not_sig body : not_sig (decode_body body).
Proof.
  induction body as [body IH] using byte_list_ind.
  destruct (decide (body = [])) as [->|Hne]; [done|]. rewrite decode_body_cons by done.
  destruct (decode_entry body) as [[e rest]|err] eqn:He; cbn.
  - apply decode_entry_shorter in He. apply not_sig_bind; [by apply IH | done].
  - pose proof (decode_entry_not_sig body) as H. rewrite He in H. intros [= ->]. by apply H.
Qed.

Lemma ensure_valid_types_not_sig {D : Dalek} es : not_sig (ensure_valid_types es).
Proof.
  induction es as [|e es IH]; cbn; [done|]. destruct e as [c [key| |]| |]; try done.
  apply not_sig_bind; [|done]. unfold from_canonical_bytes. destruct (is_canonical_y key); [|done].
  cbn. destruct (vk_from_bytes key); [|done]. cbn. by case_match.
Qed.

Lemma mask_loop_not_sig es todo n m : not_sig (mask_loop es todo n m).
Proof.
  revert n m. induction todo as [|e todo IH]; intros n m; cbn; [done|].
  destruct e; auto. case_match; [done|auto].
Qed.

Lemma decode_not_sig {D : Dalek} p : not_sig (decode p).
Proof.
  unfold decode, decode_entries, domain_error, from_entries, filter_mask_removed.
  apply not_sig_bind.
  - case_match; [apply decode_body_not_sig|]. repeat case_match; done.
  - intros es. apply not_sig_bind; [apply mask_loop_not_sig|]. intros _.
    apply not_sig_bind; [apply ensure_valid_types_not_sig | done].
Qed.
