(* ===== verification/Addr.v ===== *)
(** * Account addresses ([account/account-log/src/addr.rs])

    An address is a verifying key, printed as 64 lower-case hex characters.
    The theorems: printing and parsing are inverse, one address has exactly
    one spelling, and every parsed address holds an admissible key. *)

From Stdlib Require Import Strings.Byte Strings.String.
From stdpp Require Import base gmap strings list numbers.
From S2P Require Import Prelude Utf8 Hex Ed25519 Context.

Section addr.
Context {HX : Hex} {D : Dalek}.

Record AccountAddr := { pubkey : Ed25519VerifyingKey }.

#[export] Instance account_addr_eq_dec : EqDecision AccountAddr.
Proof. solve_decision. Defined.

Definition addr_to_bytes (a : AccountAddr) : list byte := key_bytes (pubkey a).

(** [From<&Ed25519VerifyingKey>]. *)
Definition addr_from_key (k : Ed25519VerifyingKey) : AccountAddr := {| pubkey := k |}.

(** [Display]. *)
Definition addr_to_string (a : AccountAddr) : string := bytes_str (hex_encode (addr_to_bytes a)).

(** [TryFrom<&[u8]>]. *)
Definition addr_try_from (value : list byte) : result AccountAddrError.t AccountAddr :=
  if decide (length value = 32) then
    pubkey ← map_err (λ _, AccountAddrError.InvalidAddress) (from_canonical_bytes value);
    Ok {| pubkey := pubkey |}
  else Err AccountAddrError.InvalidAddress.

(** [FromStr]. *)
Definition addr_from_str (s : string) : result AccountAddrError.t AccountAddr :=
  if negb (length (str_bytes s) =? 64)
     || negb (forallb (λ b, is_ascii_digit b || is_ascii_lowercase b) (str_bytes s)) then
    Err AccountAddrError.InvalidAddress
  else
    bytes ← ok_or (hex_decode (str_bytes s)) AccountAddrError.InvalidAddress;
    addr_try_from bytes.

Definition addr_wf (a : AccountAddr) : Prop := key_wf (pubkey a).
End addr.

Section addr_lemmas.
Context {HX : Hex} {HL : HexLaws HX} {D : Dalek} {DL : DalekLaws D}.

Lemma addr_to_bytes_inj a b : addr_to_bytes a = addr_to_bytes b → a = b.
Proof. destruct a, b. unfold addr_to_bytes; cbn. by intros ->%key_bytes_inj. Qed.

Lemma addr_try_from_Ok v a : addr_try_from v = Ok a ↔ addr_wf a ∧ addr_to_bytes a = v.
Proof.
  unfold addr_try_from, addr_wf, addr_to_bytes. split.
  - case_decide; [|done]. intros (k & Hk%map_err_Ok & [= <-])%bind_Ok. cbn.
    eauto using from_canonical_bytes_wf, from_canonical_bytes_bytes.
  - intros [Hwf <-]. rewrite decide_True by apply length_key_bytes.
    unfold key_wf in Hwf. rewrite Hwf. by destruct a.
Qed.

Lemma addr_from_str_Ok s a : addr_from_str s = Ok a ↔ addr_wf a ∧ addr_to_string a = s.
Proof.
  unfold addr_from_str, addr_to_string. split.
  - destruct (negb _ || negb _) eqn:Hc; [done|].
    apply orb_false_iff in Hc as [_ Hc]. apply negb_false_iff, forallb_Forall in Hc.
    intros (b & Hb%ok_or_Ok & [Hwf Ha]%addr_try_from_Ok)%bind_Ok. split; [done|].
    rewrite Ha, (hex_encode_decode _ _ Hc Hb). apply string_of_list_byte_of_string.
  - intros [Hwf <-]. rewrite list_byte_of_string_of_list_byte, hex_length.
    rewrite hex_encode_addr_charset. unfold addr_to_bytes at 1. rewrite length_key_bytes. cbn.
    rewrite hex_decode_encode. cbn. by apply addr_try_from_Ok.
Qed.

Lemma addr_from_key_wf sk : addr_wf (addr_from_key (verifying_key sk)).
Proof. apply verifying_key_wf. Qed.
End addr_lemmas.

#[export] Hint Resolve addr_from_key_wf : chat.
