(* ===== verification/Draft.v ===== *)
(** * Authoring a log ([account/account-log/src/draft.rs])

    A draft is a log grown one entry at a time. [push] is given in state
    passing style, the draft after the call beside its result; the outer
    [option] is the [expect] of the live set, [None] a panic. The theorems:
    no panic, a refused push leaves the draft as it was, an accepted one
    appends exactly its entry, and a draft is always a valid, readable log
    whose keys are live once. *)

From Stdlib Require Import Strings.Byte Strings.String.
From stdpp Require Import base gmap strings list numbers pretty.
From S2P Require Import Prelude Utf8 Ed25519 Context AccountLog Codec.

Record AccountLogDraft := Draft { draft_log : AccountLog }.

Definition draft_new : AccountLogDraft := Draft empty_log.

Definition draft_from_log (log : AccountLog) : result AccountLogError.t AccountLogDraft :=
  match first_unreadable log with
  | Some position =>
      Err (AccountLogError.Malformed
             ("entry at position " ++ pretty position
                ++ " is not readable by this build, so the log cannot be re-signed")%string)
  | None => Ok (Draft log)
  end.

Definition draft_entries (d : AccountLogDraft) : list IndexedAccountEntry :=
  indexed (entries (draft_log d)).

Definition draft_live_entries (d : AccountLogDraft) : option (list IndexedAccountEntry) :=
  live_indexed (draft_log d).

(** [seen] is the [HashSet] of keys met so far. *)
Fixpoint single_use_loop (seen : gset (list byte)) (vs : list IndexedAccountEntry)
  : result AccountLogError.t () :=
  match vs with
  | [] => Ok ()
  | v :: vs =>
      match entry v with
      | Add _ (Ed25519Key key) =>
          if decide (key ∈ seen) then
            Err (AccountLogError.Malformed
                   ("key at position " ++ pretty (index v) ++ " is live more than once")%string)
          else single_use_loop ({[key]} ∪ seen) vs
      | _ => single_use_loop seen vs
      end
  end.

Definition ensure_single_use_keys (log : AccountLog) : option (result AccountLogError.t ()) :=
  vs ← live_indexed log; Some (single_use_loop ∅ vs).

Section draft.
Context {D : Dalek}.

Definition push (d : AccountLogDraft) (e : AccountEntry)
  : option (AccountLogDraft * result AccountLogError.t ()) :=
  if unreadable e then
    Some (d, Err (AccountLogError.Malformed "cannot author an entry this build cannot read"))
  else
    match from_entries (entries (draft_log d) ++ [e]) with
    | Err err => Some (d, Err err)
    | Ok log =>
        r ← ensure_single_use_keys log;
        match r with
        | Err err => Some (d, Err err)
        | Ok () => Some (Draft log, Ok ())
        end
    end.

Definition draft_add (d : AccountLogDraft) (context : Context) (data : EntryData) :=
  push d (Add context data).

Definition revoke (d : AccountLogDraft) (index : N) := push d (Remove index).

(** ** Invariants *)

Definition readable (es : list AccountEntry) : Prop := Forall (λ e, unreadable e = false) es.

(** The keys live in [es], in log order. *)
Definition live_keys (es : list AccountEntry) : option (list (list byte)) :=
  match valid_live_entries es with
  | Ok vs => Some (filter_map entry_key vs)
  | Err _ => None
  end.

Definition single_use (es : list AccountEntry) : Prop :=
  ∃ ks, live_keys es = Some ks ∧ NoDup ks.

Definition draft_ok (d : AccountLogDraft) : Prop :=
  log_valid (draft_log d) ∧ readable (entries (draft_log d)).

Lemma single_use_loop_Ok seen vs :
  single_use_loop seen vs = Ok () ↔
  NoDup (filter_map entry_key vs) ∧ ∀ k, k ∈ filter_map entry_key vs → k ∉ seen.
Proof.
  revert seen. induction vs as [|v vs IH]; intros seen; cbn.
  { split; [|done]. intros _. split; [constructor|]. by intros ? ?%elem_of_nil. }
  change (entry_key v) with
    (match entry v with Add _ (Ed25519Key b) => Some b | _ => None end).
  destruct (entry v) as [c [key|s|tag b]|i|op b]; try apply IH.
  case_decide as Hin.
  - split; [done|]. intros [_ H]. exfalso. eapply H, Hin. apply list_elem_of_here.
  - rewrite IH, NoDup_cons. setoid_rewrite elem_of_cons. set_solver.
Qed.

Lemma ensure_single_use_keys_total log :
  log_valid log →
  ∃ r, ensure_single_use_keys log = Some r ∧ (r = Ok () ↔ single_use (entries log)).
Proof.
  intros Hv. destruct (live_indexed_total _ Hv) as (vs & Hl & Hvs).
  exists (single_use_loop ∅ vs). unfold ensure_single_use_keys, single_use, live_keys.
  rewrite Hl, Hvs. split; [done|]. rewrite single_use_loop_Ok. set_solver.
Qed.

Lemma draft_new_ok : draft_ok draft_new.
Proof. split; [apply empty_log_valid | constructor]. Qed.

Lemma draft_from_log_Ok log d :
  log_valid log → draft_from_log log = Ok d ↔ d = Draft log ∧ draft_ok d.
Proof.
  intros Hv. unfold draft_from_log, draft_ok, readable, first_unreadable.
  pose proof (position_None unreadable (entries log)) as Hp.
  destruct (position unreadable (entries log)).
  - split; [done|]. intros (-> & _ & Hr). by apply Hp in Hr.
  - split; [|naive_solver]. intros [= <-]. split_and!; [done..|]. by apply Hp.
Qed.

(** Everything a push can do. *)
Lemma push_spec d e :
  draft_ok d →
  (∃ err, push d e = Some (d, Err err)) ∨
  (∃ d', push d e = Some (d', Ok ()) ∧ entries (draft_log d') = entries (draft_log d) ++ [e] ∧
         draft_ok d' ∧ single_use (entries (draft_log d'))).
Proof.
  intros [Hv Hr]. unfold push. destruct (unreadable e) eqn:Hu; [eauto|].
  destruct (from_entries _) as [log|] eqn:Hf; [|eauto].
  pose proof (from_entries_valid _ _ Hf) as Hv'. apply from_entries_entries in Hf.
  destruct (ensure_single_use_keys_total _ Hv') as (r & -> & Hr'). cbn.
  destruct r as [[]|]; [right|eauto]. exists (Draft log). split_and!; [done..| |by apply Hr'].
  split; [done|]. cbn. rewrite Hf. apply Forall_app; split; [done|]. by constructor.
Qed.

(** When a push is accepted. *)
Lemma push_accepts d e :
  draft_ok d →
  (∃ d', push d e = Some (d', Ok ())) ↔
  unreadable e = false ∧ (∀ i, e = Remove i → valid_remove (entries (draft_log d)) i) ∧
  (∀ c b, e = Add c (Ed25519Key b) → ∃ k, from_canonical_bytes b = Ok k) ∧
  single_use (entries (draft_log d) ++ [e]).
Proof.
  intros [[Hr Hk]%log_valid_spec _]. unfold push.
  destruct (unreadable e) eqn:Hu; [naive_solver|].
  pose proof (from_entries_Ok (entries (draft_log d) ++ [e])) as Hf.
  setoid_rewrite removes_valid_snoc in Hf.
  assert (keys_valid (entries (draft_log d) ++ [e]) ↔
    ∀ c b, e = Add c (Ed25519Key b) → ∃ k, from_canonical_bytes b = Ok k) as Hke.
  { unfold keys_valid in *. setoid_rewrite elem_of_app. setoid_rewrite list_elem_of_singleton.
    naive_solver. }
  setoid_rewrite Hke in Hf.
  destruct (from_entries _) as [log|err] eqn:Hfe.
  - pose proof (from_entries_valid _ _ Hfe) as Hv.
    destruct (ensure_single_use_keys_total _ Hv) as (r & -> & Hs). cbn.
    apply from_entries_entries in Hfe. rewrite Hfe in Hs.
    destruct (proj1 (Hf log) eq_refl) as ((_ & H1) & H2 & _).
    destruct r as [[]|]; naive_solver.
  - split; [naive_solver|]. intros (_ & H1 & H2 & _).
    destruct (Hf {| entries := entries (draft_log d) ++ [e] |}) as [_ H]. discriminate H. done.
Qed.

(** A sequence of pushes, each required to succeed ([AccountUpdate::publish]
    stops at the first that does not). *)
Fixpoint push_all (d : AccountLogDraft) (es : list AccountEntry)
  : option (result AccountLogError.t AccountLogDraft) :=
  match es with
  | [] => Some (Ok d)
  | e :: es =>
      '(d, r) ← push d e;
      match r with Err err => Some (Err err) | Ok () => push_all d es end
  end.

Lemma push_all_spec d es :
  draft_ok d →
  ∃ r, push_all d es = Some r ∧
    ∀ d', r = Ok d' → entries (draft_log d') = entries (draft_log d) ++ es ∧ draft_ok d'.
Proof.
  revert d. induction es as [|e es IH]; intros d Hd; cbn.
  { eexists. split; [done|]. intros d' [= <-]. by rewrite app_nil_r. }
  destruct (push_spec d e Hd) as [[err ->]|(d1 & -> & He & Hd1 & _)]; cbn.
  { eexists. split; [done|]. done. }
  destruct (IH d1 Hd1) as (r & -> & Hr). exists r. split; [done|].
  intros d' ->. destruct (Hr d' eq_refl) as [-> ?]. rewrite He, <- app_assoc. done.
Qed.
End draft.

#[export] Hint Resolve draft_new_ok : chat.

(** A readable entry is written under its own tags. *)
Lemma readable_kind_ok e : unreadable e = false → kind_ok e.
Proof. destruct e as [c []| |]; done. Qed.
