(* ===== verification/Record.v ===== *)
(** * Account records ([account/account-log/src/account_record.rs])

    The newest valid log held for an address, and its update by a candidate.
    The theorems: a held record is always signed and decodable, an update
    only ever extends it, and on decodable payloads the byte comparison is
    the comparison of the logs. *)

From Stdlib Require Import Strings.Byte Strings.String.
From stdpp Require Import base gmap strings list numbers.
From S2P Require Import Prelude Utf8 Ed25519 Context AccountLog Codec Addr.

Module Outcome.
Inductive t : Type :=
| Updated
| Unchanged (f : LogFreshness)
| SignatureInvalid
| Malformed (e : AccountLogError.t).

Definition from_error (error : AccountLogError.t) : t :=
  match error with
  | AccountLogError.SignatureInvalid => SignatureInvalid
  | _ => Malformed error
  end.
End Outcome.

Section record.
Context {D : Dalek}.

Record AccountRecord := {
  rec_addr : AccountAddr;
  signed_log : SignedAccountLog;
  parsed_log : AccountLog;
}.

Record AccountRecordUpdate := { outcome : Outcome.t; record : AccountRecord }.

Definition record_new (addr : AccountAddr) (s : SignedAccountLog)
  : result AccountLogError.t AccountRecord :=
  parsed ← signed_verify s (pubkey addr);
  Ok {| rec_addr := addr; signed_log := s; parsed_log := parsed |}.

Definition record_update (self : AccountRecord) (candidate : SignedAccountLog)
  : AccountRecordUpdate :=
  match signed_verify candidate (pubkey (rec_addr self)) with
  | Err e => {| outcome := Outcome.from_error e; record := self |}
  | Ok candidate_log =>
      let candidate_bytes := as_bytes (payload candidate) in
      let current_bytes := as_bytes (payload (signed_log self)) in
      match compare_log_freshness current_bytes candidate_bytes with
      | Newer =>
          {| outcome := Outcome.Updated;
             record := {| rec_addr := rec_addr self; signed_log := candidate;
                          parsed_log := candidate_log |} |}
      | other => {| outcome := Outcome.Unchanged other; record := self |}
      end
  end.

(** ** Invariant and order *)

Definition record_valid (r : AccountRecord) : Prop :=
  signed_verify (signed_log r) (pubkey (rec_addr r)) = Ok (parsed_log r).

Definition rec_entries (r : AccountRecord) : list AccountEntry := entries (parsed_log r).

(** [r'] is a later state of [r]: same account, history extended. *)
Definition extends (r r' : AccountRecord) : Prop :=
  rec_addr r = rec_addr r' ∧ rec_entries r `prefix_of` rec_entries r'.

#[export] Instance extends_preorder : PreOrder extends.
Proof.
  split; [done|]. intros a b c [H1 H2] [H3 H4]. split; [congruence|]. by etrans.
Qed.

Lemma extends_refl r : extends r r.
Proof. reflexivity. Qed.

Lemma record_valid_entries r :
  record_valid r →
  as_bytes (payload (signed_log r)) = ACCOUNT_LOG_DOMAIN ++ encode_body (rec_entries r) ∧
  Forall encodable (rec_entries r) ∧ log_valid (parsed_log r).
Proof. intros [_ Hd]%signed_verify_Ok. by apply decode_Ok. Qed.

Lemma record_new_Ok addr s r :
  record_new addr s = Ok r ↔ record_valid r ∧ rec_addr r = addr ∧ signed_log r = s.
Proof.
  unfold record_new, record_valid. rewrite bind_Ok. split.
  - intros (l & Hl & [= <-]). done.
  - destruct r as [a s' l]; cbn. intros (Hl & -> & ->). eauto.
Qed.

(** On decodable payloads, comparing bytes is comparing histories. *)
Lemma freshness_entries p q es fs :
  decode_entries p = Ok es → decode_entries q = Ok fs →
  match compare_log_freshness p q with
  | Identical => fs = es
  | Newer => es `prefix_of` fs ∧ fs ≠ es
  | Behind => fs `prefix_of` es ∧ fs ≠ es
  | Diverged => ¬ es `prefix_of` fs ∧ ¬ fs `prefix_of` es
  end.
Proof.
  intros [-> He]%decode_entries_Ok [-> Hf]%decode_entries_Ok.
  pose proof (compare_log_freshness_spec (ACCOUNT_LOG_DOMAIN ++ encode_body es)
    (ACCOUNT_LOG_DOMAIN ++ encode_body fs)) as H.
  assert (ACCOUNT_LOG_DOMAIN ++ encode_body fs = ACCOUNT_LOG_DOMAIN ++ encode_body es ↔ fs = es)
    as Heq.
  { split; [|by intros ->]. intros ?%app_inv_head. by apply encode_body_inj. }
  destruct (compare_log_freshness _ _); rewrite ?payload_prefix, ?Heq in H by done; done.
Qed.

Lemma record_update_spec r c :
  record_valid r →
  let u := record_update r c in
  record_valid (record u) ∧ extends r (record u) ∧
  (outcome u = Outcome.Updated → signed_log (record u) = c ∧ rec_entries (record u) ≠ rec_entries r) ∧
  (outcome u ≠ Outcome.Updated → record u = r).
Proof.
  intros Hr. unfold record_update.
  destruct (signed_verify c _) as [log|e] eqn:Hc; cbn.
  - pose proof Hr as [_ Hd]%signed_verify_Ok. pose proof Hc as [_ Hd']%signed_verify_Ok.
    apply bind_Ok in Hd as (es & Hes & Hl%from_entries_entries),
      Hd' as (fs & Hfs & Hl'%from_entries_entries).
    pose proof (freshness_entries _ _ _ _ Hes Hfs) as Hcmp. subst.
    destruct (compare_log_freshness _ _); cbn; try done.
    destruct Hcmp as [Hp Hne]. by split_and!.
  - split_and!; [done..| |done]. by destruct e.
Qed.

(** The outcome is the diagnosis of the candidate. *)
Lemma record_update_outcome r c :
  record_valid r →
  match outcome (record_update r c) with
  | Outcome.SignatureInvalid =>
      verify (pubkey (rec_addr r)) (as_bytes (payload c)) (signature c) ≠ Ok ()
  | Outcome.Malformed e =>
      e ≠ AccountLogError.SignatureInvalid ∧
      signed_verify c (pubkey (rec_addr r)) = Err e
  | Outcome.Updated =>
      ∃ log, signed_verify c (pubkey (rec_addr r)) = Ok log ∧
        rec_entries r `prefix_of` entries log ∧ entries log ≠ rec_entries r
  | Outcome.Unchanged f =>
      ∃ log, signed_verify c (pubkey (rec_addr r)) = Ok log ∧
      match f with
      | Identical => entries log = rec_entries r
      | Behind => entries log `prefix_of` rec_entries r ∧ entries log ≠ rec_entries r
      | Diverged =>
          ¬ entries log `prefix_of` rec_entries r ∧ ¬ rec_entries r `prefix_of` entries log
      | Newer => False
      end
  end.
Proof.
  intros Hr. unfold record_update.
  destruct (signed_verify c _) as [log|e] eqn:Hc; cbn.
  - pose proof Hr as [_ Hd]%signed_verify_Ok. pose proof Hc as [_ Hd']%signed_verify_Ok.
    apply bind_Ok in Hd as (es & Hes & Hl%from_entries_entries),
      Hd' as (fs & Hfs & Hl'%from_entries_entries).
    pose proof (freshness_entries _ _ _ _ Hes Hfs) as Hcmp.
    unfold rec_entries in *. rewrite Hl. rewrite <- Hl' in Hcmp.
    destruct (compare_log_freshness _ _); cbn; naive_solver.
  - destruct e; cbn; try done. unfold signed_verify in Hc.
    apply bind_Err in Hc as [Hc|([] & _ & Hc)].
    + intros Hok. rewrite Hok in Hc. done.
    + exfalso. revert Hc. apply decode_not_sig.
Qed.
End record.
