(* ===== verification/Account.v ===== *)
(** * Publishing and resolving accounts ([account/account/src])

    [Account] reads the published log, appends entries and publishes the
    signed result; [AccountResolver] reads other accounts' logs and adopts
    only extensions. The directory service is the interface
    [AccountProvider], untrusted: nothing is assumed of what it returns. *)

From Stdlib Require Import Strings.Byte Strings.String.
From stdpp Require Import base gmap strings list numbers.
From S2P Require Import Prelude Utf8 Ed25519 Context AccountLog Codec Addr Draft Record.

(** [AccountProvider] and [AccountPublisher]; errors are already displayed. *)
Class AccountProvider {D : Dalek} (AP : Type) := {
  fetch : AP → AccountAddr → result string (option SignedAccountLog);
  provider_publish : AP → AccountAddr → SignedAccountLog → AP * result string ();
}.

Module AccountError.
Inductive t : Type :=
| Log (e : AccountLogError.t)
| Provider (e : string)
| Forked.

(** [From<Ed25519Error>]. *)
Definition from_ed25519 (error : Ed25519Error) : t := Log (AccountLogError.from_ed25519 error).
End AccountError.

(** ** Namespaces ([namespaces/chat.rs], [namespaces/profile.rs]) *)

Definition CHATSIGNER_CONTEXT : Context :=
  default (context_of []) (literal "chat.signer").
Definition PROFILE_DISPLAYNAME : Context :=
  default (context_of []) (literal "profile.displayname").

Section namespaces.
Context {D : Dalek}.

Definition chat_signers (r : AccountRecord) : option (list Ed25519VerifyingKey) :=
  ed25519_keys_for (parsed_log r) CHATSIGNER_CONTEXT.
Definition revoked_chat_signers (r : AccountRecord) : option (list Ed25519VerifyingKey) :=
  revoked_ed25519_keys_for (parsed_log r) CHATSIGNER_CONTEXT.

(** The last live record ([next_back]); [None] inside is an account without a name. *)
Definition display_name (r : AccountRecord) : option (option string) :=
  texts ← text_for (parsed_log r) PROFILE_DISPLAYNAME; Some (head (rev texts)).
Definition previous_aliases (r : AccountRecord) : option (list string) :=
  texts ← text_for (parsed_log r) PROFILE_DISPLAYNAME; Some (removelast texts).
End namespaces.

(** ** The owner's side ([account.rs]) *)

Section account.
Context {D : Dalek} {AP : Type} {P : AccountProvider AP}.

Record Account := { signing_key : Ed25519SigningKey; provider : AP }.

(** [Account::from_signing_key], and [Account::new] for the key drawn. *)
Definition from_signing_key (key : Ed25519SigningKey) (p : AP) : Account :=
  {| signing_key := key; provider := p |}.
Definition account_new (p : AP) (drawn : Ed25519SigningKey) : Account := from_signing_key drawn p.

Definition account_addr (a : Account) : AccountAddr :=
  addr_from_key (verifying_key (signing_key a)).

(** [AccountUpdate]'s entries and the builder's calls, in order. *)
Definition AccountUpdate := list AccountEntry.
Definition update_push (u : AccountUpdate) (e : AccountEntry) : AccountUpdate := u ++ [e].
Definition update_add (u : AccountUpdate) (c : Context) (d : EntryData) : AccountUpdate :=
  update_push u (entry_add c d).
Definition endorse_ed25519_key (u : AccountUpdate) (c : Context) (k : Ed25519VerifyingKey)
  : AccountUpdate := update_add u c (Ed25519Key (key_bytes k)).
Definition endorse_text (u : AccountUpdate) (c : Context) (value : string) : AccountUpdate :=
  update_add u c (Text value).
Definition update_revoke (u : AccountUpdate) (index : N) : AccountUpdate := u ++ [Remove index].
Definition endorse_chat_signer (u : AccountUpdate) (k : Ed25519VerifyingKey) : AccountUpdate :=
  endorse_ed25519_key u CHATSIGNER_CONTEXT k.
Definition set_display_name (u : AccountUpdate) (name : string) : AccountUpdate :=
  endorse_text u PROFILE_DISPLAYNAME name.

Definition account_draft (a : Account) : result AccountError.t AccountLogDraft :=
  fetched ← map_err AccountError.Provider (fetch (provider a) (account_addr a));
  match fetched with
  | Some signed =>
      log ← map_err AccountError.Log (signed_verify signed (pubkey (account_addr a)));
      map_err AccountError.Log (draft_from_log log)
  | None => Ok draft_new
  end.

(** What is signed, before anything is written. *)
Definition account_sign (a : Account) (es : AccountUpdate)
  : option (result AccountError.t SignedAccountLog) :=
  match account_draft a with
  | Err e => Some (Err e)
  | Ok draft =>
      pushed ← push_all draft es;
      Some (
        draft ← map_err AccountError.Log pushed;
        payload ← map_err AccountError.Log (encode (draft_log draft));
        Ok {| payload := payload; signature := sign (signing_key a) (as_bytes payload) |})
  end.

(** [AccountUpdate::publish]: the account after the call, and its result. *)
Definition publish (a : Account) (es : AccountUpdate)
  : option (Account * result AccountError.t SignedAccountLog) :=
  r ← account_sign a es;
  match r with
  | Err e => Some (a, Err e)
  | Ok signed =>
      let '(provider', r) := provider_publish (provider a) (account_addr a) signed in
      let a' := {| signing_key := signing_key a; provider := provider' |} in
      Some (a', match r with
                | Ok () => Ok signed
                | Err e => Err (AccountError.Provider e)
                end)
  end.
End account.
Arguments Account {D} AP.

(** ** The reader's side ([resolver.rs]) *)

Section resolver.
Context {D : Dalek} {AP : Type} {P : AccountProvider AP}.

(** [known] is keyed by the address's bytes, on which its [Eq] and [Hash] are
    defined. *)
Record AccountResolver := {
  res_provider : AP;
  known : gmap (list byte) AccountRecord;
}.

Definition resolver_new (p : AP) : AccountResolver := {| res_provider := p; known := ∅ |}.

Definition resolver_get (s : AccountResolver) (addr : AccountAddr) : option AccountRecord :=
  known s !! addr_to_bytes addr.

Definition refusal (o : Outcome.t) : option AccountError.t :=
  match o with
  | Outcome.Unchanged Diverged => Some AccountError.Forked
  | Outcome.SignatureInvalid => Some (AccountError.Log AccountLogError.SignatureInvalid)
  | Outcome.Malformed e => Some (AccountError.Log e)
  | Outcome.Updated | Outcome.Unchanged _ => None
  end.

(** The record to keep and the refusal to report, for one candidate. *)
Definition resolve_candidate (held : option AccountRecord) (addr : AccountAddr)
    (candidate : SignedAccountLog)
  : result AccountError.t (AccountRecord * option AccountError.t) :=
  match held with
  | None => r ← map_err AccountError.Log (record_new addr candidate); Ok (r, None)
  | Some held =>
      let u := record_update held candidate in Ok (record u, refusal (outcome u))
  end.

Definition resolve (s : AccountResolver) (addr : AccountAddr)
  : AccountResolver * result AccountError.t (option AccountRecord) :=
  match fetch (res_provider s) addr with
  | Err e => (s, Err (AccountError.Provider e))
  | Ok None => (s, Ok (resolver_get s addr))
  | Ok (Some candidate) =>
      let removed := {| res_provider := res_provider s;
                        known := delete (addr_to_bytes addr) (known s) |} in
      match resolve_candidate (known s !! addr_to_bytes addr) addr candidate with
      | Err e => (removed, Err e)
      | Ok (record, refused) =>
          let s' := {| res_provider := res_provider s;
                       known := <[addr_to_bytes addr := record]> (known removed) |} in
          (s', match refused with
               | Some e => Err e
               | None => Ok (resolver_get s' addr)
               end)
      end
  end.
End resolver.
Arguments AccountResolver {D} AP.

(** ** Publishing: lemmas *)

Section publish.
Context {D : Dalek} {DL : DalekLaws D} {AP : Type} {P : AccountProvider AP}.

(** The log the account would extend: the published one, or none. *)
Definition base_entries (a : Account AP) (es : list AccountEntry) : Prop :=
  match fetch (provider a) (account_addr a) with
  | Ok None => es = []
  | Ok (Some s) =>
      ∃ log, signed_verify s (pubkey (account_addr a)) = Ok log ∧ es = entries log
  | Err _ => False
  end.

Lemma account_draft_Ok a d :
  account_draft a = Ok d →
  draft_ok d ∧ base_entries a (entries (draft_log d)) ∧ Forall encodable (entries (draft_log d)).
Proof.
  unfold account_draft, base_entries. intros (f & Hf%map_err_Ok & H)%bind_Ok. rewrite Hf.
  destruct f as [s|].
  - apply bind_Ok in H as (log & Hl%map_err_Ok & Hd%map_err_Ok).
    pose proof Hl as [_ (_ & He & Hv)%decode_Ok]%signed_verify_Ok.
    apply draft_from_log_Ok in Hd as [-> Hok]; [|done]. cbn. eauto.
  - injection H as <-. cbn. split_and!; [apply draft_new_ok|done|constructor].
Qed.

Lemma account_sign_total a es : ∃ r, account_sign a es = Some r.
Proof.
  unfold account_sign. destruct (account_draft a) as [d|] eqn:Hd; [|eauto].
  apply account_draft_Ok in Hd as (Hok & _).
  destruct (push_all_spec d es Hok) as (r & -> & _). cbn. eauto.
Qed.

Lemma publish_total a es : ∃ a' r, publish a es = Some (a', r).
Proof.
  unfold publish. destruct (account_sign_total a es) as [[s|e] ->]; cbn; [|eauto].
  destruct (provider_publish _ _ _); eauto.
Qed.

(** What a signed update is: the published entries, then the new ones. *)
Lemma account_sign_Ok a es s :
  account_sign a es = Some (Ok s) →
  ∃ base,
    base_entries a base ∧ Forall encodable base ∧ removes_valid (base ++ es) ∧
    keys_valid (base ++ es) ∧ readable es ∧
    encode {| entries := base ++ es |} = Ok (payload s) ∧
    signature s = sign (signing_key a) (as_bytes (payload s)).
Proof.
  unfold account_sign. destruct (account_draft a) as [d|] eqn:Hd; [|done].
  apply account_draft_Ok in Hd as (Hok & Hbase & Henc).
  destruct (push_all_spec d es Hok) as (r & -> & Hr). cbn. intros [= Hs].
  apply bind_Ok in Hs as (d' & Hd'%map_err_Ok & Hs). subst r.
  apply bind_Ok in Hs as (p & Hp%map_err_Ok & [= <-]). cbn.
  destruct (Hr d' eq_refl) as [Hent [Hv Hread]].
  exists (entries (draft_log d)). apply log_valid_spec in Hv as [Hv1 Hv2].
  unfold encode in *. rewrite Hent in *. apply Forall_app in Hread as [_ ?]. by split_and!.
Qed.

(** Entries the Rust types admit, within the framing's [u16]. *)
Definition authored (e : AccountEntry) : Prop := entry_wf e ∧ fits e.

Lemma authored_encodable es : Forall authored es → readable es → Forall encodable es.
Proof.
  intros Ha Hr. apply Forall_forall. intros e He.
  rewrite Forall_forall in Ha. unfold readable in Hr. rewrite Forall_forall in Hr.
  destruct (Ha e He). split_and!; [done|by apply readable_kind_ok, Hr|done].
Qed.

Lemma account_sign_verifies a es s :
  Forall authored es → account_sign a es = Some (Ok s) →
  ∃ base, base_entries a base ∧
    signed_verify s (pubkey (account_addr a)) = Ok {| entries := base ++ es |}.
Proof.
  intros Ha (base & Hb & Hbe & Hr & Hk & Hread & He & Hsig)%account_sign_Ok.
  exists base. split; [done|]. apply signed_verify_Ok. split.
  - rewrite Hsig. apply verify_sign.
  - eapply encode_decode; [by apply log_valid_spec| |done]. cbn.
    apply Forall_app; split; [done|]. by apply authored_encodable.
Qed.
End publish.

(** ** Resolving: lemmas *)

Section resolving.
Context {D : Dalek} {DL : DalekLaws D} {AP : Type} {P : AccountProvider AP}.

(** Every record held is valid and filed under its own address. *)
Definition resolver_valid (s : AccountResolver AP) : Prop :=
  map_Forall (λ k r, record_valid r ∧ addr_to_bytes (rec_addr r) = k) (known s).

Lemma resolver_new_valid p : resolver_valid (resolver_new p).
Proof. apply map_Forall_empty. Qed.

Lemma resolver_valid_get s addr r :
  resolver_valid s → resolver_get s addr = Some r → record_valid r ∧ rec_addr r = addr.
Proof.
  intros Hs Hr. apply (map_Forall_lookup_1 _ _ _ _ Hs) in Hr as [Hv Ha].
  split; [done|]. by apply addr_to_bytes_inj.
Qed.

Lemma resolve_candidate_Ok s addr c r x :
  resolver_valid s → resolve_candidate (resolver_get s addr) addr c = Ok (r, x) →
  record_valid r ∧ rec_addr r = addr ∧
  ∀ r0, resolver_get s addr = Some r0 → extends r0 r.
Proof.
  intros Hs. unfold resolve_candidate. destruct (resolver_get s addr) as [r0|] eqn:Hg.
  - destruct (resolver_valid_get _ _ _ Hs Hg) as [Hv <-].
    intros [= <- <-]. destruct (record_update_spec r0 c Hv) as (H1 & [H2 H3] & _).
    split_and!; [done| |]. { by rewrite <- H2. } intros r1 [= <-]. done.
  - intros (r' & (Hv & Ha & _)%map_err_Ok%record_new_Ok & [= <- <-])%bind_Ok. done.
Qed.

(** One call: validity is kept, nothing held is lost or rolled back, other
    accounts are untouched. *)
Lemma resolve_spec s addr :
  resolver_valid s →
  let s' := (resolve s addr).1 in
  resolver_valid s' ∧ res_provider s' = res_provider s ∧
  (∀ a r, resolver_get s a = Some r → ∃ r', resolver_get s' a = Some r' ∧ extends r r') ∧
  (∀ a, a ≠ addr → resolver_get s' a = resolver_get s a).
Proof.
  intros Hs. unfold resolve. destruct (fetch _ _) as [[c|]|e]; cbn.
  2,3: split_and!; [done..| |done]; eauto using extends_refl.
  change (known s !! addr_to_bytes addr) with (resolver_get s addr).
  destruct (resolve_candidate _ _ _) as [[r x]|e] eqn:Hc.
  - destruct (resolve_candidate_Ok _ _ _ _ _ Hs Hc) as (Hv & Ha & Hext). cbn.
    unfold resolver_get, resolver_valid in *; cbn. rewrite insert_delete_eq.
    split_and!; [|done| |].
    + apply map_Forall_insert_2; [by rewrite Ha | done].
    + intros a r0 Hr0. destruct (decide (a = addr)) as [->|Hne].
      * rewrite lookup_insert_eq. eauto.
      * rewrite lookup_insert_ne by (intros ?%addr_to_bytes_inj; congruence).
        exists r0. split; [done|reflexivity].
    + intros a Hne. rewrite lookup_insert_ne; [done|]. intros ?%addr_to_bytes_inj; congruence.
  - assert (resolver_get s addr = None) as Hn.
    { unfold resolve_candidate in Hc. by destruct (resolver_get s addr). }
    unfold resolver_get, resolver_valid in *; cbn. rewrite (delete_id _ _ Hn).
    split_and!; [done..| |done]. eauto using extends_refl.
Qed.

(** What a successful call answers is what is now held. *)
Lemma resolve_Ok s addr r :
  (resolve s addr).2 = Ok r → r = resolver_get (resolve s addr).1 addr.
Proof.
  unfold resolve. destruct (fetch _ _) as [[c|]|e]; cbn; [|congruence|done].
  destruct (resolve_candidate _ _ _) as [[r' [x|]]|e]; cbn; congruence.
Qed.

(** *** Histories of calls

    The provider is outside: between two calls it may become anything. *)
Inductive resolver_step : AccountResolver AP → AccountResolver AP → Prop :=
| step_resolve s addr : resolver_step s (resolve s addr).1
| step_provider s p : resolver_step s {| res_provider := p; known := known s |}.

Definition resolver_steps := rtc resolver_step.

Lemma resolver_step_spec s s' :
  resolver_step s s' → resolver_valid s →
  resolver_valid s' ∧
  ∀ a r, resolver_get s a = Some r → ∃ r', resolver_get s' a = Some r' ∧ extends r r'.
Proof.
  intros [s0 addr|s0 p] Hs.
  - destruct (resolve_spec s0 addr Hs) as (H1 & _ & H2 & _). done.
  - split; [done|]. unfold resolver_get. cbn. eauto using extends_refl.
Qed.

Lemma resolver_steps_spec s s' :
  resolver_steps s s' → resolver_valid s →
  resolver_valid s' ∧
  ∀ a r, resolver_get s a = Some r → ∃ r', resolver_get s' a = Some r' ∧ extends r r'.
Proof.
  induction 1 as [s|s s1 s' H1 _ IH]; intros Hs; [eauto using extends_refl|].
  destruct (resolver_step_spec _ _ H1 Hs) as [Hs1 He1]. destruct (IH Hs1) as [Hs' He].
  split; [done|]. intros a r Hr. destruct (He1 a r Hr) as (r1 & Hr1 & ?).
  destruct (He a r1 Hr1) as (r2 & ? & ?). exists r2. split; [done|]. by etrans.
Qed.

(** An entry once tombstoned stays so in every extension. *)
Lemma live_at_extends es fs t e :
  es `prefix_of` fs → live_at fs t e → t < length es → live_at es t e.
Proof.
  intros [k ->] (He & Hr & Hn) Ht. rewrite lookup_app_l in He by done.
  split_and!; [done..|]. set_solver.
Qed.
End resolving.
