(* ===== verification/AccountTheorems.v ===== *)
(** * Properties of the account subsystem

    The account log, its wire format, records, authoring and resolution, for
    every Ed25519 implementation that meets [DalekLaws]. Witnesses evaluate
    the model on the reference instance. *)

From Stdlib Require Import Strings.Byte Strings.String.
From stdpp Require Import base gmap strings list numbers pretty sorting.
From S2P Require Import Prelude Utf8 Hex Ed25519 Context AccountLog Codec Addr Draft Record Account.

(** ** Sample data *)

Definition demo_sk : Ed25519SigningKey (D := dalek_ref) :=
  from_seed (D := dalek_ref) (replicate 32 x07).
Definition demo_key : Ed25519VerifyingKey (D := dalek_ref) := verifying_key demo_sk.
Definition demo_addr : AccountAddr (D := dalek_ref) := addr_from_key demo_key.
Definition demo_add : AccountEntry := Add CHATSIGNER_CONTEXT (Ed25519Key (key_bytes demo_key)).
Definition demo_name : AccountEntry := Add PROFILE_DISPLAYNAME (Text "alice").

(** One key endorsed, a name set, the key withdrawn, an opaque entry. *)
Definition demo_entries : list AccountEntry :=
  [demo_add; demo_name; Remove 0; UnknownEntry x07 [x01; x02]].
Definition demo_log : AccountLog := {| entries := demo_entries |}.
Definition demo_payload : list byte := ACCOUNT_LOG_DOMAIN ++ encode_body demo_entries.

Definition demo_sign (es : list AccountEntry) : SignedAccountLog :=
  let p := ACCOUNT_LOG_DOMAIN ++ encode_body es in
  {| payload := Encoded p; signature := sign demo_sk p |}.

(** A directory that stores what it is given. *)
Definition demo_provider : AccountProvider (D := dalek_ref) (option SignedAccountLog) := {|
  fetch s _ := Ok s;
  provider_publish _ _ s := (Some s, Ok ());
|}.

Lemma demo_encodable : Forall encodable demo_entries.
Proof. repeat constructor; done. Qed.

Lemma demo_valid : log_valid (D := dalek_ref) demo_log.
Proof. vm_compute. reflexivity. Qed.

Section theorems.
Context {D : Dalek} {DL : DalekLaws D}.

(** ** Wire format *)

(** C1. Round trip: a valid log of encodable entries within the size limit
    encodes, and its payload decodes to exactly that log. *)
Theorem codec_roundtrip log :
  log_valid log → Forall encodable (entries log) →
  (len (ACCOUNT_LOG_DOMAIN ++ encode_body (entries log)) ≤ MAX_PAYLOAD_BYTES)%N →
  ∃ p, encode log = Ok p ∧ decode p = Ok log.
Proof.
  intros Hv He Hs. exists (Encoded (ACCOUNT_LOG_DOMAIN ++ encode_body (entries log))).
  assert (encode log = Ok (Encoded (ACCOUNT_LOG_DOMAIN ++ encode_body (entries log)))) as Hp
    by (by apply encode_entries_Ok).
  split; [done|]. by eapply encode_decode.
Qed.

(** C2. Canonicity: a payload within the size limit that decodes is the one
    its log encodes to, so every readable log has one byte form; and every
    entry read is one the encoder could have written. *)
Theorem codec_canonical p log :
  (len (as_bytes p) ≤ MAX_PAYLOAD_BYTES)%N → decode p = Ok log →
  encode log = Ok p ∧ Forall encodable (entries log) ∧ log_valid log.
Proof.
  intros Hs Hd. split; [by apply decode_encode|]. by apply decode_Ok in Hd as (_ & ? & ?).
Qed.

(** C3. Comparing two payloads byte by byte, without decoding, decides how
    the histories they decode to relate. *)
Theorem freshness_is_history_order p q logp logq :
  decode p = Ok logp → decode q = Ok logq →
  match compare_log_freshness (as_bytes p) (as_bytes q) with
  | Identical => entries logq = entries logp
  | Newer => entries logp `prefix_of` entries logq ∧ entries logq ≠ entries logp
  | Behind => entries logq `prefix_of` entries logp ∧ entries logq ≠ entries logp
  | Diverged =>
      ¬ entries logp `prefix_of` entries logq ∧ ¬ entries logq `prefix_of` entries logp
  end.
Proof.
  intros (es & He & <-%from_entries_entries)%bind_Ok (fs & Hf & <-%from_entries_entries)%bind_Ok.
  by apply freshness_entries.
Qed.

(** The decoder's loop terminates within as many turns as the body has
    bytes, more fuel never changes its answer, and the answer satisfies the
    loop's own equation. *)
Theorem decode_terminates body fuel :
  length body ≤ fuel →
  decode_loop fuel body = Some (decode_body body) ∧
  decode_body body =
    if decide (body = []) then Ok []
    else '(e, rest) ← decode_entry body; es ← decode_body rest; Ok (e :: es).
Proof.
  intros Hf. split; [by apply decode_loop_fuel|].
  case_decide as Hb; [by subst | by apply decode_body_cons].
Qed.

(** A payload of another version of the format is reported as that
    version, not as corrupt. *)
Theorem foreign_version_reported v rest :
  Forall (λ b, b ≠ x00) v → length v < 16 → v ≠ [x31] →
  decode (Encoded (DOMAIN_STEM ++ v ++ x00 :: rest)) =
  Err (AccountLogError.Version (from_utf8_lossy v)).
Proof.
  intros Hz Hl Hv. unfold decode, decode_entries. cbn [as_bytes].
  assert (strip_prefix ACCOUNT_LOG_DOMAIN (DOMAIN_STEM ++ v ++ x00 :: rest) = None) as ->.
  { destruct (strip_prefix _ _) as [r|] eqn:Hs; [|done]. exfalso.
    apply strip_prefix_Some in Hs. change ACCOUNT_LOG_DOMAIN with (DOMAIN_STEM ++ [x31; x00]) in Hs.
    rewrite <- app_assoc in Hs. apply app_inv_head in Hs.
    destruct v as [|a [|b v]]; cbn in Hs; simplify_eq.
    rewrite !Forall_cons_iff in Hz. naive_solver. }
  cbn [mbind result_bind]. f_equal. unfold domain_error. rewrite strip_prefix_app.
  assert (position (Byte.eqb x00) (take 16 (v ++ x00 :: rest)) = Some (length v)) as ->.
  { rewrite take_app_ge by lia. destruct (16 - length v) as [|k] eqn:Hk; [lia|].
    cbn [take]. clear -Hz. induction Hz as [|b v Hb _ IH]; [done|].
    cbn -[Byte.eqb]. destruct (Byte.eqb x00 b) eqn:E; [|by rewrite IH].
    apply byte_eqb_eq in E. by subst. }
  by rewrite take_app_length.
Qed.

(** The transmitted artifact splits back into the signature and payload
    it was made of. *)
Theorem signed_artifact_roundtrip s :
  length (sig_bytes (signature s)) = SIG_LEN →
  (N.of_nat (length ACCOUNT_LOG_DOMAIN) ≤ len (as_bytes (payload s)) ≤ MAX_PAYLOAD_BYTES)%N →
  signed_from_bytes (signed_to_bytes s) = Ok s.
Proof.
  intros Hs [Hlo Hhi]. unfold signed_from_bytes, signed_to_bytes, len in *.
  change SIGNATURE_LEN with SIG_LEN. rewrite length_app, Hs.
  destruct (Nat.ltb_spec (SIG_LEN + length (as_bytes (payload s)))
    (SIG_LEN + length ACCOUNT_LOG_DOMAIN)); [lia|].
  rewrite <- Hs, take_app_length, drop_app_length. unfold encoded_from_bytes.
  rewrite (proj2 (check_size_Ok _)) by done. cbn. by destruct s as [[p] [g]].
Qed.

(** ** Validity and the live set *)

(** C4. The one-pass tombstone check accepts exactly the logs in which every
    [Remove] names a strictly earlier, not yet removed entry that is not a
    [Remove], and its mask marks exactly the entries some [Remove] names. *)
Theorem tombstones_exact es m :
  filter_mask_removed es = Ok m ↔ removes_valid es ∧ m = mask_of (length es) es.
Proof. apply filter_mask_removed_Ok. Qed.

(** Reading the live set of a decoded payload cannot panic: it returns,
    in log order and under their true positions, exactly the entries that are
    not [Remove]s and that no [Remove] names. The [u32] positions do not wrap
    because a payload holds at most 43685 entries. *)
Theorem live_set_exact p log :
  (len (as_bytes p) ≤ MAX_PAYLOAD_BYTES)%N → decode p = Ok log →
  (N.of_nat (length (entries log)) ≤ 43685)%N ∧
  ∃ vs, live_indexed log = Some vs ∧ StronglySorted index_lt vs ∧
    ∀ v, v ∈ vs ↔ live_at (entries log) (N.to_nat (index v)) (entry v).
Proof.
  intros Hs (Hp & _ & Hv)%decode_Ok. rewrite Hp in Hs. apply payload_entry_count in Hs.
  destruct (live_indexed_total _ Hv) as (vs & Hl & Hvs). split; [done|]. exists vs.
  split_and!; [done| |].
  - eapply valid_live_entries_sorted; [|done]. lia.
  - intros v. eapply valid_live_entries_elem; [|done]. lia.
Qed.

(** The keys returned for a context are exactly the admissible keys live
    under that very context: a key endorsed for one purpose is never returned
    for another. *)
Theorem keys_for_exact log ctx :
  log_valid log → (N.of_nat (length (entries log)) ≤ 2 ^ 32)%N →
  ∃ ks, ed25519_keys_for log ctx = Some ks ∧
    ∀ k, k ∈ ks ↔
      key_wf k ∧ ∃ t, live_at (entries log) t (Add ctx (Ed25519Key (key_bytes k))).
Proof.
  intros Hv Hl. destruct (ed25519_keys_for_total log ctx Hv) as [ks Hks].
  exists ks. split; [done|]. intros k. by apply ed25519_keys_for_elem.
Qed.

(** The revoked keys of a context are exactly those endorsed under it
    and tombstoned that are not live under it again, each once. *)
Theorem revoked_keys_exact log ctx :
  log_valid log → (N.of_nat (length (entries log)) ≤ 2 ^ 32)%N →
  ∃ ks rs, ed25519_keys_for log ctx = Some ks ∧
    revoked_ed25519_keys_for log ctx = Some rs ∧ NoDup rs ∧
    ∀ k, k ∈ rs ↔ (k ∉ ks) ∧ key_wf k ∧
      ∃ t, entries log !! t = Some (Add ctx (Ed25519Key (key_bytes k))) ∧
           Remove (N.of_nat t) ∈ entries log.
Proof.
  intros Hv Hl. destruct (ed25519_keys_for_total log ctx Hv) as [ks Hks].
  destruct (revoked_ed25519_keys_for_spec log ctx ks Hl Hv Hks) as (rs & Hrs & ? & ?).
  exists ks, rs. done.
Qed.

(** ** Authoring *)

(** C5. A draft is always a valid, readable log: a push never panics, either
    leaves the draft unchanged with an error, or appends exactly its entry
    with every live key then live once; and it is accepted exactly when the
    entry is readable, a [Remove] rule-abiding, a key admissible, and no key
    ends up live twice. Size is not among the conditions: an accepted draft can
    be encoded for publishing exactly when its payload is within the limit,
    which no push looks at. *)
Theorem draft_push d e :
  draft_ok d →
  ((∃ err, push d e = Some (d, Err err)) ∨
   (∃ d', push d e = Some (d', Ok ()) ∧
          entries (draft_log d') = entries (draft_log d) ++ [e] ∧
          draft_ok d' ∧ single_use (entries (draft_log d')))) ∧
  ((∃ d', push d e = Some (d', Ok ())) ↔
     unreadable e = false ∧
     (∀ i, e = Remove i → valid_remove (entries (draft_log d)) i) ∧
     (∀ c b, e = Add c (Ed25519Key b) → ∃ k, from_canonical_bytes b = Ok k) ∧
     single_use (entries (draft_log d) ++ [e])) ∧
  (∀ d', push d e = Some (d', Ok ()) →
     (∃ p, encode (draft_log d') = Ok p) ↔
     (len (ACCOUNT_LOG_DOMAIN ++ encode_body (entries (draft_log d) ++ [e])) ≤ MAX_PAYLOAD_BYTES)%N).
Proof.
  intros Hd. pose proof (push_spec d e Hd) as Hp. split_and!; [done|by apply push_accepts|].
  intros d' H. destruct Hp as [[err Hp]|(d1 & Hp & He & _)]; [congruence|].
  assert (d1 = d') as -> by congruence. unfold encode. rewrite He. setoid_rewrite encode_entries_Ok. split.
  - by intros (p & -> & Hlen).
  - intros Hlen. by eexists.
Qed.

(** ** Records *)

(** Updating a held record keeps it valid, never changes its account and
    never drops or rewrites a held entry; a candidate replaces it only when it
    strictly extends the history, and every other outcome leaves the record
    as it was. *)
Theorem record_never_rolls_back r c :
  record_valid r →
  let u := record_update r c in
  record_valid (record u) ∧ extends r (record u) ∧
  (outcome u = Outcome.Updated →
     signed_log (record u) = c ∧ rec_entries (record u) ≠ rec_entries r) ∧
  (outcome u ≠ Outcome.Updated → record u = r).
Proof. apply record_update_spec. Qed.

(** The outcome of an update is the right diagnosis of the candidate:
    not signed by the account, signed but unreadable, or readable with its
    history an extension, a copy, a prefix or a fork of the held one. *)
Theorem record_outcome_diagnosis r c :
  record_valid r →
  match outcome (record_update r c) with
  | Outcome.SignatureInvalid =>
      verify (pubkey (rec_addr r)) (as_bytes (payload c)) (signature c) ≠ Ok ()
  | Outcome.Malformed e =>
      e ≠ AccountLogError.SignatureInvalid ∧ signed_verify c (pubkey (rec_addr r)) = Err e
  | Outcome.Updated =>
      ∃ log, signed_verify c (pubkey (rec_addr r)) = Ok log ∧
        rec_entries r `prefix_of` entries log ∧ entries log ≠ rec_entries r
  | Outcome.Unchanged f =>
      ∃ log, signed_verify c (pubkey (rec_addr r)) = Ok log ∧
      match f with
      | Identical => entries log = rec_entries r
      | Behind => entries log `prefix_of` rec_entries r ∧ entries log ≠ rec_entries r
      | Diverged =>
          ¬ entries log `prefix_of` rec_entries r ∧ ¬ rec_entries r `prefix_of` entries log
      | Newer => False
      end
  end.
Proof. apply record_update_outcome. Qed.
End theorems.

Section service.
Context {D : Dalek} {DL : DalekLaws D} {AP : Type} {P : AccountProvider AP}.

(** ** Publishing *)

(** Publishing is all or nothing: it always returns, and when it returns
    an error other than the directory's own refusal of the write, the
    directory has not been written and the account is unchanged. *)
Theorem publish_all_or_nothing a es :
  ∃ a' r, publish a es = Some (a', r) ∧
    match r with
    | Ok signed =>
        provider_publish (provider a) (account_addr a) signed = (provider a', Ok ()) ∧
        signing_key a' = signing_key a
    | Err e =>
        a' = a ∨
        ∃ signed msg, e = AccountError.Provider msg ∧
          provider_publish (provider a) (account_addr a) signed = (provider a', Err msg)
    end.
Proof.
  unfold publish. destruct (account_sign_total a es) as [[s|e] ->]; cbn.
  2: { exists a, (Err e). auto. }
  destruct (provider_publish _ _ _) as [p' [[]|msg]] eqn:Hp;
    eexists _, _; (split; [done|]); cbn; [done|]. right. by exists s, msg.
Qed.

(** A publish that succeeds returns what was signed. *)
Lemma publish_signed a es a' s : publish a es = Some (a', Ok s) → account_sign a es = Some (Ok s).
Proof.
  unfold publish. destruct (account_sign_total a es) as [[s'|e] Hs]; rewrite Hs; cbn; [|done].
  destruct (provider_publish _ _ _) as [? [[]|]]; intros [=]; by subst.
Qed.

(** C6. What is published is what was asked. When the entries are such as the
    Rust types admit with bodies the framing can hold, a publish that succeeds
    returns a log that verifies under the account's address and holds the
    published entries followed by the new ones; whoever held the published log
    ends up with exactly that history, by an update unless nothing was added. *)
Theorem publish_verifies a es a' s :
  Forall authored es → publish a es = Some (a', Ok s) →
  ∃ base, base_entries a base ∧
    signed_verify s (pubkey (account_addr a)) = Ok {| entries := base ++ es |} ∧
    ∀ r, record_valid r → rec_addr r = account_addr a → rec_entries r = base →
      rec_entries (record (record_update r s)) = base ++ es ∧
      (es ≠ [] ↔ outcome (record_update r s) = Outcome.Updated).
Proof.
  intros Ha Hp. pose proof (publish_signed _ _ _ _ Hp) as Hs.
  destruct (account_sign_verifies a es s Ha Hs) as (base & Hb & Hv). exists base.
  split_and!; [done..|]. intros r Hr Haddr Hent.
  pose proof (record_update_outcome r s Hr) as Ho.
  destruct (record_update_spec r s Hr) as (Hr' & [Ha' _] & Hup & Hsame).
  rewrite Haddr, Hv, Hent in Ho.
  assert (Hpre : base `prefix_of` base ++ es) by by eexists.
  assert (Hnil : base ++ es = base ↔ es = []).
  { split; [|intros ->; apply app_nil_r]. intros E%(f_equal length). rewrite length_app in E.
    destruct es; cbn in *; [done|lia]. }
  destruct (outcome (record_update r s)) as [|f| |e] eqn:Eo.
  - destruct (Hup eq_refl) as [Hsl Hne]. unfold record_valid in Hr'. rewrite Hsl, <- Ha', Haddr, Hv in Hr'.
    injection Hr' as Hr'. assert (Hrec : rec_entries (record (record_update r s)) = base ++ es)
      by (unfold rec_entries; by rewrite <- Hr').
    split; [done|]. split; [done|]. intros _ Hes. apply Hne. rewrite Hrec, Hent. by apply Hnil.
  - rewrite Hsame by done. destruct Ho as (log & [= <-] & Ho). cbn in Ho.
    assert (base ++ es = base) as Heq.
    { destruct f; try (by destruct Ho); try naive_solver.
      destruct Ho as [Ho _]. symmetry. by apply prefix_length_eq; [|apply prefix_length]. }
    rewrite Heq, Hent. split; [done|]. split; [|done]. intros Hne. by apply Hnil in Heq.
  - exfalso. apply Ho. by apply signed_verify_Ok in Hv as [? _].
  - naive_solver.
Qed.

(** ** Resolving *)

(** C7. Over any history of calls, with a directory that may answer anything
    at any time, every record held is valid and filed under its own address,
    nothing held is ever lost or rolled back, and an entry found tombstoned
    once is never live again. *)
Theorem resolver_history_monotone s s' :
  resolver_valid s → resolver_steps s s' →
  resolver_valid s' ∧
  ∀ a r, resolver_get s a = Some r →
    ∃ r', resolver_get s' a = Some r' ∧ record_valid r' ∧ extends r r' ∧
      ∀ t e, t < length (rec_entries r) →
        live_at (rec_entries r') t e → live_at (rec_entries r) t e.
Proof.
  intros Hs Hst. destruct (resolver_steps_spec _ _ Hst Hs) as [Hs' He].
  split; [done|]. intros a r Hr. destruct (He a r Hr) as (r' & Hr' & Hext).
  exists r'. destruct (resolver_valid_get _ _ _ Hs' Hr') as [Hv _].
  split_and!; [done..|]. intros t e Ht Hl. destruct Hext as [_ Hp].
  by eapply live_at_extends.
Qed.

(** Every branch of a resolution: a directory error and a lost log leave
    the resolver as it was; a first log is adopted only if it verifies; a
    held record is replaced only by an extension, a copy or a stale log is
    answered from what is held, and a fork, an unsigned or an unreadable log
    is an error that leaves it held. *)
Theorem resolve_branches s addr :
  resolver_valid s →
  let '(s', answer) := resolve s addr in
  match fetch (res_provider s) addr with
  | Err e => s' = s ∧ answer = Err (AccountError.Provider e)
  | Ok None => s' = s ∧ answer = Ok (resolver_get s addr)
  | Ok (Some c) =>
      match resolver_get s addr with
      | None =>
          match signed_verify c (pubkey addr) with
          | Ok log =>
              let r := {| rec_addr := addr; signed_log := c; parsed_log := log |} in
              resolver_get s' addr = Some r ∧ answer = Ok (Some r)
          | Err e => known s' = known s ∧ answer = Err (AccountError.Log e)
          end
      | Some r =>
          match signed_verify c (pubkey addr) with
          | Ok log =>
              match compare_log_freshness (as_bytes (payload (signed_log r)))
                      (as_bytes (payload c)) with
              | Newer =>
                  let r' := {| rec_addr := addr; signed_log := c; parsed_log := log |} in
                  resolver_get s' addr = Some r' ∧ answer = Ok (Some r')
              | Identical | Behind => known s' = known s ∧ answer = Ok (Some r)
              | Diverged => known s' = known s ∧ answer = Err AccountError.Forked
              end
          | Err e => known s' = known s ∧ answer = Err (AccountError.Log e)
          end
      end
  end.
Proof.
  intros Hs. unfold resolve. destruct (fetch _ _) as [[c|]|e]; [|done|done].
  change (known s !! addr_to_bytes addr) with (resolver_get s addr).
  destruct (resolver_get s addr) as [r|] eqn:Hg; cbn.
  - destruct (resolver_valid_get _ _ _ Hs Hg) as [Hv Ha]. rewrite insert_delete_eq.
    assert (<[addr_to_bytes addr := r]> (known s) = known s) as Hid by (by apply insert_id).
    unfold record_update. rewrite Ha. unfold resolver_get.
    destruct (signed_verify c _) as [log|e]; cbn.
    + destruct (compare_log_freshness _ _); cbn; rewrite ?lookup_insert_eq; done.
    + destruct e; cbn; done.
  - unfold record_new. destruct (signed_verify c _) as [log|e]; cbn.
    + unfold resolver_get; cbn. by rewrite lookup_insert_eq.
    + by rewrite delete_id.
Qed.
End service.

(** ** Keys, contexts and addresses *)

(** The byte loop of the key check accepts exactly the encodings whose
    [y], the low 255 bits read little-endian, is below the field prime
    [2^255 - 19]; the sign bit plays no part. *)
Theorem canonical_y_exact bytes :
  length bytes = KEY_LEN →
  is_canonical_y bytes = true ↔ (from_le_bytes bytes mod 2 ^ 255 < 2 ^ 255 - 19)%N.
Proof. apply is_canonical_y_spec. Qed.

(** A context is accepted exactly when it matches the documented
    grammar, it then gives back the bytes it was built from, and two accepted
    contexts are equal exactly when their bytes are. *)
Theorem context_accepts_grammar s t c d :
  (context_new s = Ok c ↔ context_grammar (str_bytes s) ∧ c = context_of (str_bytes s)) ∧
  (context_new s = Ok c → context_as_str c = s) ∧
  (context_new s = Ok c → context_new t = Ok d → c = d ↔ s = t).
Proof.
  unfold context_new. rewrite !context_from_bytes_Ok.
  assert (∀ s c, checked (str_bytes s) = Ok c → context_as_str c = s) as Hstr.
  { intros s' c' H%checked_bytes. unfold context_as_str. rewrite H.
    apply string_of_list_byte_of_string. }
  split_and!; [apply checked_Ok | apply Hstr |].
  intros Hs Ht. split; [|intros ->; congruence]. intros ->.
  apply Hstr in Hs, Ht. congruence.
Qed.

Section addresses.
Context {HX : Hex} {HL : HexLaws HX} {D : Dalek} {DL : DalekLaws D}.

(** One address has one spelling: a string parses to an address exactly
    when the address holds an admissible key and the string is what it
    displays as; and the address of an account's own key always parses. *)
Theorem address_one_spelling s a sk :
  (addr_from_str s = Ok a ↔ addr_wf a ∧ addr_to_string a = s) ∧
  addr_from_str (addr_to_string (addr_from_key (verifying_key sk))) =
    Ok (addr_from_key (verifying_key sk)).
Proof.
  split; [apply addr_from_str_Ok|]. apply addr_from_str_Ok. auto with chat.
Qed.
End addresses.

(** ** An authored log no consumer can read *)

(** A display name of 70000 characters: within [MAX_PAYLOAD_BYTES], past what
    the [u16] body length can say. *)
Definition long_name : string := bytes_str (replicate (N.to_nat 70000) x78).
Definition long_entry : AccountEntry := Add PROFILE_DISPLAYNAME (Text long_name).

Lemma long_entry_codec :
  match encode_entries [long_entry] with
  | Ok p => decode_entries (as_bytes p)
  | Err _ => Ok []
  end = Err (malformed "entry opcode 0x78 has reserved high bits set").
Proof. vm_compute. reflexivity. Qed.

Lemma long_entry_encodes : ∃ p, encode_entries [long_entry] = Ok p.
Proof.
  pose proof long_entry_codec as H. destruct (encode_entries [long_entry]); [eauto|done].
Qed.

Section finding.
Context {D : Dalek} {DL : DalekLaws D} {AP : Type} {P : AccountProvider AP}.

(** C8. The encoder writes [body.len() as u16]: for an account that has
    published nothing, in a directory that takes the write, a text of 70000
    bytes that every authoring check accepts is encoded within the size limit,
    signed and published without an error, and then decodes for nobody: a
    reader who is given it refuses it, and once the directory hands it back the
    account itself can publish nothing more. *)
Theorem oversized_text_published_unreadable a :
  fetch (provider a) (account_addr a) = Ok None →
  (∀ s, ∃ p', provider_publish (provider a) (account_addr a) s = (p', Ok ())) →
  let refused := malformed "entry opcode 0x78 has reserved high bits set" in
  entry_wf long_entry ∧
  ∃ a' s, publish a [long_entry] = Some (a', Ok s) ∧
    (len (as_bytes (payload s)) ≤ MAX_PAYLOAD_BYTES)%N ∧
    signed_verify s (pubkey (account_addr a)) = Err refused ∧
    (fetch (provider a') (account_addr a) = Ok (Some s) →
     ∀ es, publish a' es = Some (a', Err (AccountError.Log refused))).
Proof.
  intros Hf Hp refused. split; [split; [done|vm_compute; reflexivity]|].
  destruct long_entry_encodes as [pl Hpl].
  pose proof long_entry_codec as Hd. rewrite Hpl in Hd.
  set (s := {| payload := pl; signature := sign (signing_key a) (as_bytes pl) |}).
  assert (account_sign a [long_entry] = Some (Ok s)) as Hs.
  { unfold account_sign, account_draft. rewrite Hf. cbn [mbind result_bind map_err].
    change (push_all draft_new [long_entry])
      with (Some (Ok (E := AccountLogError.t) (Draft {| entries := [long_entry] |}))).
    cbn [mbind option_bind result_bind map_err draft_log encode entries].
    unfold encode. cbn [entries]. rewrite Hpl. done. }
  assert (signed_verify s (pubkey (account_addr a)) = Err refused) as Hv.
  { unfold signed_verify.
    change (verify _ _ _) with
      (verify (verifying_key (signing_key a)) (as_bytes pl) (sign (signing_key a) (as_bytes pl))).
    rewrite verify_sign. cbn [mbind result_bind map_err]. unfold decode.
    change (payload s) with pl. by rewrite Hd. }
  destruct (Hp s) as [p' Hp']. exists {| signing_key := signing_key a; provider := p' |}, s.
  unfold publish. rewrite Hs. cbn [mbind option_bind]. rewrite Hp'.
  split_and!; [done|by apply encode_entries_Ok in Hpl as [_ ?]|done|].
  intros Hback es. unfold account_sign, account_draft.
  change (account_addr {| signing_key := signing_key a; provider := p' |}) with (account_addr a).
  rewrite Hback. cbn [mbind result_bind map_err]. by rewrite Hv.
Qed.
End finding.

(** ** Witnesses *)

Lemma codec_roundtrip_witness :
  ∃ p, encode demo_log = Ok p ∧ decode (D := dalek_ref) p = Ok demo_log.
Proof.
  apply (codec_roundtrip (D := dalek_ref) demo_log).
  - exact demo_valid.
  - exact demo_encodable.
  - vm_compute. discriminate.
Defined.

Lemma codec_canonical_witness :
  encode demo_log = Ok (Encoded demo_payload) ∧ Forall encodable demo_entries ∧
  log_valid (D := dalek_ref) demo_log.
Proof.
  apply (codec_canonical (D := dalek_ref) (Encoded demo_payload) demo_log).
  - vm_compute. discriminate.
  - vm_compute. reflexivity.
Defined.

Lemma freshness_is_history_order_witness :
  [demo_add] `prefix_of` demo_entries ∧ demo_entries ≠ [demo_add].
Proof.
  apply (freshness_is_history_order (D := dalek_ref) (payload (demo_sign [demo_add]))
           (Encoded demo_payload) {| entries := [demo_add] |} demo_log);
    vm_compute; reflexivity.
Defined.

Lemma decode_terminates_witness :
  decode_loop 200 (encode_body demo_entries) = Some (decode_body (encode_body demo_entries)).
Proof. apply (decode_terminates (encode_body demo_entries) 200). vm_compute. lia. Defined.

Lemma foreign_version_reported_witness :
  decode (D := dalek_ref) (Encoded (DOMAIN_STEM ++ [x32] ++ x00 :: [])) =
  Err (AccountLogError.Version "2").
Proof.
  apply (foreign_version_reported (D := dalek_ref) [x32] []); [by repeat constructor|cbn; lia|done].
Defined.

Lemma signed_artifact_roundtrip_witness :
  signed_from_bytes (signed_to_bytes (demo_sign demo_entries)) = Ok (demo_sign demo_entries).
Proof.
  apply (signed_artifact_roundtrip (demo_sign demo_entries)).
  - vm_compute. reflexivity.
  - split; vm_compute; discriminate.
Defined.

Lemma live_set_exact_witness :
  ∃ vs, live_indexed demo_log = Some vs ∧ ∀ v, v ∈ vs ↔
    live_at demo_entries (N.to_nat (index v)) (entry v).
Proof.
  destruct (live_set_exact (D := dalek_ref) (Encoded demo_payload) demo_log)
    as (_ & vs & H1 & _ & H2); [vm_compute; discriminate|vm_compute; reflexivity|].
  exists vs. exact (conj H1 H2).
Defined.

Lemma keys_for_exact_witness :
  ∃ ks, ed25519_keys_for (D := dalek_ref) demo_log CHATSIGNER_CONTEXT = Some ks ∧
    ∀ k, k ∈ ks ↔ key_wf k ∧
      ∃ t, live_at demo_entries t (Add CHATSIGNER_CONTEXT (Ed25519Key (key_bytes k))).
Proof.
  apply (keys_for_exact (D := dalek_ref) (DL := dalek_ref_laws) demo_log CHATSIGNER_CONTEXT).
  - exact demo_valid.
  - vm_compute. discriminate.
Defined.

Lemma revoked_keys_exact_witness :
  ∃ ks rs, ed25519_keys_for (D := dalek_ref) demo_log CHATSIGNER_CONTEXT = Some ks ∧
    revoked_ed25519_keys_for (D := dalek_ref) demo_log CHATSIGNER_CONTEXT = Some rs ∧ NoDup rs ∧
    ∀ k, k ∈ rs ↔ (k ∉ ks) ∧ key_wf k ∧
      ∃ t, demo_entries !! t = Some (Add CHATSIGNER_CONTEXT (Ed25519Key (key_bytes k))) ∧
           Remove (N.of_nat t) ∈ demo_entries.
Proof.
  apply (revoked_keys_exact (D := dalek_ref) (DL := dalek_ref_laws) demo_log CHATSIGNER_CONTEXT).
  - exact demo_valid.
  - vm_compute. discriminate.
Defined.

Lemma draft_push_witness :
  (∃ err, push (D := dalek_ref) draft_new demo_add = Some (draft_new, Err err)) ∨
  (∃ d', push (D := dalek_ref) draft_new demo_add = Some (d', Ok ()) ∧
         entries (draft_log d') = [demo_add] ∧
         draft_ok (D := dalek_ref) d' ∧ single_use (entries (draft_log d'))).
Proof. apply (draft_push (D := dalek_ref) draft_new demo_add). apply draft_new_ok. Defined.

(** A draft nobody can publish is left behind: three texts of 60000 bytes are
    pushed one by one without an error, and then do not encode. *)
Definition big_entry : AccountEntry := Add PROFILE_DISPLAYNAME (Text (bytes_str (replicate (N.to_nat 60000) x78))).
Example oversized_draft_left_behind :
  match push_all (D := dalek_ref) draft_new [big_entry; big_entry; big_entry] with
  | Some (Ok d) => is_ok (encode (draft_log d)) = false ∧ length (entries (draft_log d)) = 3
  | _ => False
  end.
Proof. vm_compute. split; reflexivity. Qed.

Definition demo_record : AccountRecord (D := dalek_ref) :=
  {| rec_addr := demo_addr; signed_log := demo_sign [demo_add];
     parsed_log := {| entries := [demo_add] |} |}.

Lemma record_never_rolls_back_witness :
  outcome (record_update demo_record (demo_sign demo_entries)) = Outcome.Updated ∧
  extends demo_record (record (record_update demo_record (demo_sign demo_entries))).
Proof.
  split; [vm_compute; reflexivity|].
  apply (record_never_rolls_back (D := dalek_ref) demo_record (demo_sign demo_entries)).
  vm_compute. reflexivity.
Defined.

Lemma record_outcome_diagnosis_witness :
  ∃ log, signed_verify (D := dalek_ref) (demo_sign [demo_name]) (pubkey demo_addr) = Ok log ∧
    (¬ entries log `prefix_of` rec_entries demo_record) ∧
    ¬ rec_entries demo_record `prefix_of` entries log.
Proof.
  apply (record_outcome_diagnosis (D := dalek_ref) demo_record (demo_sign [demo_name])).
  vm_compute. reflexivity.
Defined.

Definition demo_account : Account (D := dalek_ref) (option SignedAccountLog) :=
  {| signing_key := demo_sk; provider := None |}.

Lemma publish_verifies_witness :
  ∃ base, base_entries (P := demo_provider) demo_account base ∧
    signed_verify (D := dalek_ref) (demo_sign [demo_add]) (pubkey (account_addr demo_account)) =
      Ok {| entries := base ++ [demo_add] |}.
Proof.
  destruct (publish_verifies (D := dalek_ref) (DL := dalek_ref_laws) (P := demo_provider)
    demo_account [demo_add]
    {| signing_key := demo_sk; provider := Some (demo_sign [demo_add]) |}
    (demo_sign [demo_add])) as (base & H1 & H2 & _).
  - repeat constructor; done.
  - vm_compute. reflexivity.
  - exists base. exact (conj H1 H2).
Defined.

Definition demo_resolver : AccountResolver (D := dalek_ref) (option SignedAccountLog) :=
  resolver_new (Some (demo_sign [demo_add])).

Lemma resolver_history_monotone_witness :
  resolver_valid (D := dalek_ref) (resolve (P := demo_provider) demo_resolver demo_addr).1.
Proof.
  apply (resolver_history_monotone (D := dalek_ref) (DL := dalek_ref_laws) (P := demo_provider)
    demo_resolver).
  - apply resolver_new_valid.
  - apply rtc_once. apply step_resolve.
Defined.

Lemma resolve_branches_witness :
  resolver_get (resolve (P := demo_provider) demo_resolver demo_addr).1 demo_addr
    = Some demo_record.
Proof.
  pose proof (resolve_branches (D := dalek_ref) (DL := dalek_ref_laws) (P := demo_provider)
    demo_resolver demo_addr (resolver_new_valid _)) as H.
  vm_compute in H. destruct H as [H _]. exact H.
Defined.

(** The directory that stores what it is given: the account can publish nothing
    after the long text. *)
Lemma oversized_text_published_unreadable_witness :
  ∃ a' s, publish (P := demo_provider) demo_account [long_entry] = Some (a', Ok s) ∧
    publish (P := demo_provider) a' [demo_add] =
      Some (a', Err (AccountError.Log (malformed "entry opcode 0x78 has reserved high bits set"))).
Proof.
  destruct (oversized_text_published_unreadable (D := dalek_ref) (DL := dalek_ref_laws)
    (P := demo_provider) demo_account) as (_ & a' & s & H & _ & _ & Hback);
    [reflexivity|by intros s; eexists|].
  exists a', s. split; [exact H|]. apply Hback. revert H. unfold publish.
  destruct (account_sign demo_account [long_entry]) as [[s'|e]|]; cbn; [|discriminate..].
  intros [= <- <-]. reflexivity.
Defined.

Lemma canonical_y_exact_witness :
  is_canonical_y (replicate 31 xff ++ [xff]) = true ↔
  (from_le_bytes (replicate 31 xff ++ [xff]) mod 2 ^ 255 < 2 ^ 255 - 19)%N.
Proof. apply (canonical_y_exact (replicate 31 xff ++ [xff])). reflexivity. Defined.

Lemma address_one_spelling_witness :
  addr_from_str (HX := hex_ref) (addr_to_string (HX := hex_ref) demo_addr) = Ok demo_addr.
Proof.
  apply (address_one_spelling (HX := hex_ref) (HL := hex_ref_laws) (D := dalek_ref)
           (DL := dalek_ref_laws) EmptyString demo_addr demo_sk).
Defined.
