(* ===== verification/Identity.v ===== *)
(** * Identities ([core/conversations/src/identity.rs], [service_traits.rs])

    Signer keys, participants, and the authentication verdict a conversation
    acts on. [AuthService] is the interface the platform supplies. *)

From Stdlib Require Import Strings.Byte Strings.String.
From stdpp Require Import base gmap strings list numbers.
From S2P Require Import Prelude Utf8 Hex Ed25519.

Record SignerKey := Signer_key { signer_bytes : list byte }.
Record ParticipantId := Participant { participant_bytes : list byte }.

#[export] Instance signer_key_eq_dec : EqDecision SignerKey.
Proof. solve_decision. Defined.
#[export] Instance participant_id_eq_dec : EqDecision ParticipantId.
Proof. solve_decision. Defined.
#[export, refine] Instance signer_key_countable : Countable SignerKey :=
  inj_countable' signer_bytes Signer_key _.
Proof. by intros []. Defined.

Inductive SignerError : Type := NotAKey | NotHex.

(** [From<&Ed25519VerifyingKey>]. *)
Definition signer_from_key {D : Dalek} (k : Ed25519VerifyingKey) : SignerKey :=
  Signer_key (key_bytes k).

Section hex_form.
Context {HX : Hex}.

(** [TryFrom<&str>] and [Display]. *)
Definition signer_try_from (value : string) : result SignerError SignerKey :=
  Signer_key <$> ok_or (hex_decode (str_bytes value)) NotHex.
Definition signer_to_string (s : SignerKey) : string := bytes_str (hex_encode (signer_bytes s)).
Definition participant_to_string (p : ParticipantId) : string :=
  bytes_str (hex_encode (participant_bytes p)).
End hex_form.

Lemma signer_try_from_to_string {HX : Hex} {HL : HexLaws HX} s :
  signer_try_from (signer_to_string s) = Ok s.
Proof.
  unfold signer_try_from, signer_to_string.
  rewrite list_byte_of_string_of_list_byte, hex_decode_encode. by destruct s.
Qed.

Lemma signer_to_string_inj {HX : Hex} {HL : HexLaws HX} s t :
  signer_to_string s = signer_to_string t → s = t.
Proof.
  intros E%(f_equal signer_try_from). rewrite !signer_try_from_to_string in E. congruence.
Qed.

(** ** Authentication *)

Module AuthResult.
Inductive t : Type := Valid | Revoked | Invalid.
End AuthResult.

Module AuthStatus.
Inductive t : Type := Valid | Revoked | Invalid | Unknown.

Definition from_result (r : AuthResult.t) : t :=
  match r with
  | AuthResult.Valid => Valid
  | AuthResult.Revoked => Revoked
  | AuthResult.Invalid => Invalid
  end.

Definition as_str (s : t) : string :=
  match s with
  | Valid => "Valid" | Revoked => "Revoked" | Invalid => "Invalid" | Unknown => "Unknown"
  end.
End AuthStatus.

(** [AuthService]; [E] is the implementation's error type. *)
Class AuthService (E : Type) := {
  validate_signer : SignerKey → ParticipantId → result E AuthResult.t;
  signers_for_participant : ParticipantId → result E (list SignerKey);
}.

Record Signer := { signer : SignerKey; participant_id : ParticipantId }.
Record AuthenticatedSigner := Authenticated { auth_inner : Signer }.

#[export] Instance signer_eq_dec : EqDecision Signer.
Proof. solve_decision. Defined.

(** [Signer::from_leaf]. *)
Definition signer_from_leaf (signature_key credential : list byte) : Signer :=
  {| signer := Signer_key signature_key; participant_id := Participant credential |}.

Section auth.
Context {E : Type} {A : AuthService E}.

Definition auth_status (s : Signer) : AuthStatus.t :=
  match validate_signer (signer s) (participant_id s) with
  | Ok result => AuthStatus.from_result result
  | Err _ => AuthStatus.Unknown
  end.

Definition require_valid (s : Signer) : option AuthenticatedSigner :=
  match auth_status s with
  | AuthStatus.Valid => Some (Authenticated s)
  | _ => None
  end.

(** Holding an authenticated signer is proof the service said [Valid]. *)
Lemma require_valid_Some s a :
  require_valid s = Some a ↔
  a = Authenticated s ∧ validate_signer (signer s) (participant_id s) = Ok AuthResult.Valid.
Proof.
  unfold require_valid, auth_status.
  destruct (validate_signer _ _) as [[]|]; cbn; naive_solver.
Qed.
End auth.
