(* ===== verification/HttpAuth.v ===== *)
(** * Account logs over HTTP ([extensions/components/src/http_auth_client.rs])

    The client that fetches account logs and answers the conversation layer's
    authentication questions. The server is a parameter: what it answers to
    the n-th attempt of a request, and to a write. Nothing is assumed of it.
    [HttpAuthClient] implements both [AccountProvider] (for the resolver and
    the owner) and [AuthService] (for conversations). *)

From Stdlib Require Import Strings.Byte Strings.String.
From stdpp Require Import base gmap strings list numbers pretty.
From S2P Require Import Prelude Utf8 Hex Ed25519 Context AccountLog.
From S2P Require Import Codec Addr Draft Record Account Identity.

Module HttpAccountError.
Inductive t : Type :=
| Http (e : string)
| Server (status : N) (message : string)
| Io (e : string)
| Decode (e : AccountLogError.t)
| Addr (e : AccountAddrError.t)
| NotChatEnabled
| AccountNotFound (addr : string).
End HttpAccountError.

Definition LOOKUP_RETRIES : nat := 4.
Definition LOOKUP_BACKOFF_MS : N := 200.
Definition MAX_ARTIFACT_BYTES : N := (64 + MAX_PAYLOAD_BYTES)%N.

(** [broken] is what ends the reading of the body early: the connection closed
    or the timeout ran out after those bytes. *)
Record Response := { status : N; body : list byte; broken : option string }.
Definition whole (st : N) (b : list byte) : Response := {| status := st; body := b; broken := None |}.

(** [take(n).read_to_end], reading all of it, and [text().unwrap_or_default()]. *)
Definition read_upto (n : nat) (r : Response) : result string (list byte) :=
  if n <=? length (body r) then Ok (take n (body r))
  else match broken r with None => Ok (body r) | Some e => Err e end.
Definition read_all (r : Response) : result string (list byte) :=
  match broken r with None => Ok (body r) | Some e => Err e end.
Definition text_or_default (r : Response) : string :=
  match read_all r with Ok b => from_utf8_lossy b | Err _ => "" end.

Definition is_server_error (s : N) : bool := (500 <=? s)%N && (s <? 600)%N.
Definition is_success (s : N) : bool := (200 <=? s)%N && (s <? 300)%N.
Definition TOO_MANY_REQUESTS : N := 429.
Definition NOT_FOUND : N := 404.

(** What the server does: its answer to the [n]-th attempt of a GET of a URL
    and of a POST. [Err] is a transport failure. *)
Class HttpServer := {
  http_get : string → nat → result string Response;
  http_post : string → list byte → nat → result string Response;
}.

(** [lookup_backoff] in milliseconds, for a clock reading [nanos]. *)
Definition lookup_backoff (nanos : N) (attempt : nat) : N :=
  let ceiling := N.shiftl LOOKUP_BACKOFF_MS (N.of_nat attempt) in
  (nanos mod (ceiling + 1))%N.

Definition success (resp : Response) : result HttpAccountError.t Response :=
  if is_success (status resp) then Ok resp
  else Err (HttpAccountError.Server (status resp) (text_or_default resp)).

Section client.
Context {HX : Hex} {D : Dalek} {SV : HttpServer}.

(** [Endpoint]; the base URL is stored without trailing slashes. *)
Record Endpoint := { base_url : string }.

Definition url (e : Endpoint) (addr : AccountAddr) : string :=
  (base_url e ++ "/v1/account/" ++ addr_to_string addr)%string.

Definition shed (s : N) : bool := is_server_error s || (s =? TOO_MANY_REQUESTS)%N.

(** The retry loop: [retries] attempts remain after this one. *)
Fixpoint get_loop (u : string) (attempt retries : nat) : result HttpAccountError.t Response :=
  resp ← map_err HttpAccountError.Http (http_get u attempt);
  match retries with
  | O => Ok resp
  | S retries =>
      if negb (shed (status resp)) then Ok resp else get_loop u (attempt + 1) retries
  end.

Definition endpoint_get (e : Endpoint) (addr : AccountAddr) : result HttpAccountError.t Response :=
  get_loop (url e addr) 0 LOOKUP_RETRIES.

Definition http_fetch (e : Endpoint) (addr : AccountAddr)
  : result HttpAccountError.t (option SignedAccountLog) :=
  resp ← endpoint_get e addr;
  if (status resp =? NOT_FOUND)%N then Ok None
  else
    resp ← success resp;
    body ← map_err HttpAccountError.Io (read_upto (N.to_nat (MAX_ARTIFACT_BYTES + 1)) resp);
    if (MAX_ARTIFACT_BYTES <? len body)%N then
      Err (HttpAccountError.Decode (AccountLogError.TooLarge MAX_PAYLOAD_BYTES))
    else
      s ← map_err HttpAccountError.Decode (signed_from_bytes body);
      Ok (Some s).

Definition http_publish (e : Endpoint) (addr : AccountAddr) (log : SignedAccountLog)
  : result HttpAccountError.t () :=
  resp ← map_err HttpAccountError.Http (http_post (url e addr) (signed_to_bytes log) 0);
  _ ← success resp;
  Ok ().

Definition get_account (e : Endpoint) (addr : AccountAddr)
  : result HttpAccountError.t (option AccountRecord) :=
  fetched ← http_fetch e addr;
  match fetched with
  | None => Ok None
  | Some signed =>
      r ← map_err HttpAccountError.Decode (record_new addr signed); Ok (Some r)
  end.

(** [validate_signer]; the outer [option] is the [expect]s of the account
    queries, [None] a panic. *)
Definition http_validate_signer (e : Endpoint) (signer_key : SignerKey) (pid : ParticipantId)
  : option (result HttpAccountError.t AuthResult.t) :=
  match addr_try_from (participant_bytes pid) with
  | Err _ => Some (Ok AuthResult.Invalid)
  | Ok addr =>
      match from_canonical_slice (signer_bytes signer_key) with
      | Err _ => Some (Ok AuthResult.Invalid)
      | Ok signer =>
          match get_account e addr with
          | Err err => Some (Err err)
          | Ok None => Some (Ok AuthResult.Invalid)
          | Ok (Some account) =>
              live ← chat_signers account;
              if decide (signer ∈ live) then Some (Ok AuthResult.Valid)
              else
                revoked ← revoked_chat_signers account;
                if decide (signer ∈ revoked) then Some (Ok AuthResult.Revoked)
                else Some (Ok AuthResult.Invalid)
          end
      end
  end.

Definition http_signers_for_participant (e : Endpoint) (pid : ParticipantId)
  : option (result HttpAccountError.t (list SignerKey)) :=
  match addr_try_from (participant_bytes pid) with
  | Err err => Some (Err (HttpAccountError.Addr err))
  | Ok addr =>
      match get_account e addr with
      | Err err => Some (Err err)
      | Ok None => Some (Err (HttpAccountError.AccountNotFound (addr_to_string addr)))
      | Ok (Some account) =>
          live ← chat_signers account;
          let signers := map signer_from_key live in
          if decide (signers = []) then Some (Err HttpAccountError.NotChatEnabled)
          else Some (Ok signers)
      end
  end.
End client.

(** ** Lemmas *)

Section lemmas.
Context {HX : Hex} {D : Dalek} {DL : DalekLaws D} {SV : HttpServer}.

(** The loop asks at most [left + 1] times and answers with the first reply
    that is not shed, or the last one. *)
Lemma get_loop_spec u a l r :
  get_loop u a l = Ok r →
  ∃ n, n ≤ l ∧ http_get u (a + n) = Ok r ∧ (n = l ∨ shed (status r) = false) ∧
    ∀ m, m < n → ∃ r', http_get u (a + m) = Ok r' ∧ shed (status r') = true.
Proof.
  revert a. induction l as [|l IH]; intros a; cbn; intros (r0 & H0%map_err_Ok & H)%bind_Ok.
  - injection H as <-. exists 0. rewrite Nat.add_0_r. split_and!; [done|done|auto|lia].
  - destruct (shed (status r0)) eqn:Hs; cbn in H.
    + destruct (IH _ H) as (n & Hn & Hr & Hor & Hall). exists (S n). split_and!; [lia| | |].
      * by rewrite <- Hr, <- Nat.add_assoc.
      * destruct Hor; [left; lia | auto].
      * intros [|m] Hm; [rewrite Nat.add_0_r; eauto|].
        destruct (Hall m) as (r' & Hr' & ?); [lia|]. exists r'.
        by rewrite <- Hr', <- Nat.add_assoc.
    + injection H as <-. exists 0. rewrite Nat.add_0_r. split_and!; [lia|done|auto|lia].
Qed.

Lemma lookup_backoff_bound nanos a : (lookup_backoff nanos a ≤ LOOKUP_BACKOFF_MS * 2 ^ N.of_nat a)%N.
Proof.
  unfold lookup_backoff. rewrite N.shiftl_mul_pow2.
  pose proof (N.mod_upper_bound nanos (LOOKUP_BACKOFF_MS * 2 ^ N.of_nat a + 1) ltac:(lia)). lia.
Qed.

Lemma len_take_le n l : (len (take n l) ≤ len l)%N.
Proof. unfold len. rewrite length_take. lia. Qed.

(** What is fetched came whole within the cap. *)
Lemma http_fetch_Some e addr s :
  http_fetch e addr = Ok (Some s) →
  (len (as_bytes (payload s)) ≤ MAX_PAYLOAD_BYTES)%N.
Proof.
  unfold http_fetch. intros (r & _ & H)%bind_Ok.
  destruct (_ =? _)%N; [done|]. apply bind_Ok in H as (r' & _ & H). apply bind_Ok in H as (b & _ & H).
  destruct (N.ltb _ _); [done|]. apply bind_Ok in H as (s' & Hs%map_err_Ok & [= <-]).
  unfold signed_from_bytes in Hs. destruct (_ <? _); [done|].
  apply bind_Ok in Hs as (p & Hp & [= <-]). cbn. unfold encoded_from_bytes in Hp.
  apply bind_Ok in Hp as ([] & Hc%check_size_Ok & [= <-]). done.
Qed.

Lemma get_account_Some e addr r :
  get_account e addr = Ok (Some r) →
  record_valid r ∧ rec_addr r = addr ∧ http_fetch e addr = Ok (Some (signed_log r)) ∧
  (N.of_nat (length (rec_entries r)) ≤ 43685)%N.
Proof.
  unfold get_account. intros ([s|] & Hf & H)%bind_Ok; [|done].
  apply bind_Ok in H as (r' & (Hv & Ha & Hs)%map_err_Ok%record_new_Ok & [= <-]).
  split_and!; [done..|congruence|].
  apply http_fetch_Some in Hf. rewrite <- Hs in Hf.
  destruct (record_valid_entries _ Hv) as [Hp _]. rewrite Hp in Hf.
  by apply payload_entry_count.
Qed.

(** A decision on a fetched account, spelled out on its log. *)
Lemma http_validate_signer_account e sk pid addr k r :
  addr_try_from (participant_bytes pid) = Ok addr →
  from_canonical_slice (signer_bytes sk) = Ok k →
  get_account e addr = Ok (Some r) →
  ∃ verdict, http_validate_signer e sk pid = Some (Ok verdict) ∧
    let endorsed t := live_at (rec_entries r) t (Add CHATSIGNER_CONTEXT (Ed25519Key (key_bytes k))) in
    let withdrawn t :=
      rec_entries r !! t = Some (Add CHATSIGNER_CONTEXT (Ed25519Key (key_bytes k))) ∧
      Remove (N.of_nat t) ∈ rec_entries r in
    match verdict with
    | AuthResult.Valid => ∃ t, endorsed t
    | AuthResult.Revoked => (¬ ∃ t, endorsed t) ∧ ∃ t, withdrawn t
    | AuthResult.Invalid => (¬ ∃ t, endorsed t) ∧ ¬ ∃ t, withdrawn t
    end.
Proof.
  intros Ha Hk Hr. destruct (get_account_Some _ _ _ Hr) as (Hv & _ & _ & Hn).
  destruct (record_valid_entries _ Hv) as (_ & _ & Hlog).
  unfold rec_entries in *.
  assert (N.of_nat (length (entries (parsed_log r))) ≤ 2 ^ 32)%N as Hlen by lia.
  assert (key_wf k) as Hwf.
  { unfold from_canonical_slice in Hk. case_decide; [|done]. by eapply from_canonical_bytes_wf. }
  destruct (ed25519_keys_for_total (parsed_log r) CHATSIGNER_CONTEXT Hlog) as [ks Hks].
  pose proof (ed25519_keys_for_elem _ _ ks k Hlen Hlog Hks) as Hel.
  destruct (revoked_ed25519_keys_for_spec _ _ _ Hlen Hlog Hks) as (rs & Hrs & _ & Hrel).
  specialize (Hrel k).
  unfold http_validate_signer, chat_signers, revoked_chat_signers.
  rewrite Ha, Hk, Hr, Hks. cbn [mbind option_bind]. case_decide as H1.
  { eexists. split; [done|]. cbn. by apply Hel. }
  rewrite Hrs. cbn [mbind option_bind].
  assert (¬ ∃ t, live_at (entries (parsed_log r)) t
    (Add CHATSIGNER_CONTEXT (Ed25519Key (key_bytes k)))) as Hno.
  { intros Hlive. apply H1, Hel. done. }
  case_decide as H2; (eexists; split; [done|]); cbn.
  - apply Hrel in H2 as (_ & _ & Hw). done.
  - split; [done|]. intros Hw. apply H2, Hrel. done.
Qed.
End lemmas.
