(* ===== verification/CausalHistory.v ===== *)
(** * Causal history ([core/conversations/src/causal_history.rs], [utils.rs])

    Lamport clocks, causal frontiers, gap detection and delivery
    acknowledgements. State is passed explicitly; [i32] arithmetic wraps, as
    in a release build (the workspace sets no [overflow-checks]). The
    theorems are about every sequence of operations from the empty store. *)

From Stdlib Require Import Strings.Byte Strings.String.
From stdpp Require Import base gmap strings numbers sorting list.
From S2P Require Import Prelude Utf8 Hex Identity.

(** The [blake2] crate: the digest of the concatenated updates, [n] bytes. *)
Class Blake2b := { blake2b : nat → list byte → list byte }.
Class Blake2bLaws (B : Blake2b) := { blake2b_len n l : length (blake2b n l) = n }.

(** [blake2b_hex::<LEN>(components)]. *)
Definition blake2b_hex {B : Blake2b} {HX : Hex} (n : nat) (components : list (list byte)) : string :=
  bytes_str (hex_encode (blake2b n (concat components))).

(** [hash_size]. *)
Definition hash_ConvoId : nat := 6.
Definition hash_DeliveryAddr : nat := 4.
Definition hash_EpochFingerprint : nat := 7.
Definition hash_MessageId : nat := 32.
Definition hash_EpochState : nat := 8.
Definition hash_FrameId : nat := 32.

(** ** Data *)

Record Frontier := { f_sender : SignerKey; f_message_id : string }.

#[export] Instance frontier_eq_dec : EqDecision Frontier.
Proof. solve_decision. Defined.
#[export, refine] Instance frontier_countable : Countable Frontier :=
  inj_countable' (λ f, (f_sender f, f_message_id f))
    (λ p, {| f_sender := p.1; f_message_id := p.2 |}) _.
Proof. by intros []. Defined.

Definition CAUSAL_HISTORY_LEN : nat := 10.

Record MissingMessage := { m_conversation_id : string; m_frontier : Frontier }.
Record DeliveryAck := {
  a_conversation_id : string;
  a_message_id : string;
  a_acked_by : SignerKey;
}.

#[export] Instance missing_eq_dec : EqDecision MissingMessage.
Proof. solve_decision. Defined.
#[export] Instance ack_eq_dec : EqDecision DeliveryAck.
Proof. solve_decision. Defined.

(** The wire messages of [chat_proto]. *)
Record HistoryEntry := {
  h_message_id : string;
  h_sender_id : string;
  h_retrieval_hint : list byte;
}.

Record ReliablePayload := {
  p_message_id : string;
  p_sender_id : string;
  p_channel_id : string;
  p_lamport_timestamp : Z;
  p_causal_history : list HistoryEntry;
  p_bloom_filter : list byte;
  p_content : list byte;
}.

Record ConvoState := {
  lamport_clock : Z;
  seen : gset Frontier;
  frontiers : list Frontier;
  reported_missing : gset Frontier;
  own : gset string;
  acked_by : gmap string (gset SignerKey);
}.

(** [ConvoState::default()]. *)
Definition convo_default : ConvoState :=
  {| lamport_clock := 0; seen := ∅; frontiers := []; reported_missing := ∅; own := ∅;
     acked_by := ∅ |}.

Record Inner := {
  convos : gmap string ConvoState;
  missing : list MissingMessage;
  acks : list DeliveryAck;
}.

Definition store_new : Inner := {| convos := ∅; missing := []; acks := [] |}.

(** [convos.entry(id).or_default()]. *)
Definition convo (i : Inner) (id : string) : ConvoState := default convo_default (convos i !! id).

(** ** Operations *)

(** [while len > CAUSAL_HISTORY_LEN { pop_front }]. *)
Fixpoint trim (l : list Frontier) : list Frontier :=
  match l with
  | [] => []
  | _ :: t => if CAUSAL_HISTORY_LEN <? length l then trim t else l
  end.

Definition record_seen (s : ConvoState) (info : Frontier) : ConvoState :=
  if decide (info ∈ seen s) then s
  else
    {| lamport_clock := lamport_clock s;
       seen := {[info]} ∪ seen s;
       frontiers := trim (frontiers s ++ [info]);
       reported_missing := reported_missing s;
       own := own s;
       acked_by := acked_by s |}.

(** [i32] wrap-around. *)
Definition i32 (z : Z) : Z := ((z + 2 ^ 31) mod 2 ^ 32 - 2 ^ 31)%Z.
Definition i32_MAX : Z := (2 ^ 31 - 1)%Z.
Definition i32_MIN : Z := (- 2 ^ 31)%Z.

(** [i32::to_be_bytes]. *)
Definition i32_to_be_bytes (z : Z) : list byte := to_be_bytes 4 (Z.to_N (z mod 2 ^ 32)).

Section store.
Context {B : Blake2b} {HX : Hex}.

Definition id_components (channel_id sender : string) (lamport : Z) (content : list byte)
  : list (list byte) :=
  [str_bytes "deterministic_frame_id|"; str_bytes channel_id; str_bytes "|";
   str_bytes sender; str_bytes "|"; i32_to_be_bytes lamport; str_bytes "|"; content].

Definition derive_message_id (channel_id sender : string) (lamport : Z) (content : list byte)
  : string := blake2b_hex hash_MessageId (id_components channel_id sender lamport content).

Definition history_entry (f : Frontier) : HistoryEntry :=
  {| h_message_id := f_message_id f; h_sender_id := signer_to_string (f_sender f);
     h_retrieval_hint := [] |}.

Definition on_send (i : Inner) (conversation_id : string) (sender : SignerKey) (content : list byte)
  : Inner * ReliablePayload :=
  let state := convo i conversation_id in
  let lamport := i32 (lamport_clock state + 1) in
  let message_id := derive_message_id conversation_id (signer_to_string sender) lamport content in
  let frontier := {| f_sender := sender; f_message_id := message_id |} in
  let causal_history := map history_entry (frontiers state) in
  let state :=
    {| lamport_clock := lamport; seen := seen state; frontiers := frontiers state;
       reported_missing := reported_missing state; own := {[message_id]} ∪ own state;
       acked_by := acked_by state |} in
  let state := record_seen state frontier in
  ({| convos := <[conversation_id := state]> (convos i); missing := missing i; acks := acks i |},
   {| p_message_id := message_id; p_sender_id := signer_to_string sender;
      p_channel_id := conversation_id; p_lamport_timestamp := lamport;
      p_causal_history := causal_history; p_bloom_filter := []; p_content := content |}).

(** What the receive loop carries: the state, the new gaps, the new acks. *)
Record RecvAcc := { r_state : ConvoState; r_detected : list MissingMessage; r_acks : list DeliveryAck }.

(** The acknowledgement half of the loop body. *)
Definition ack_entry (conversation_id : string) (payload_sender entry_sender : SignerKey)
    (message_id : string) (acc : RecvAcc) : RecvAcc :=
  let s := r_state acc in
  if decide ((message_id ∈ own s) ∧ payload_sender ≠ entry_sender) then
    let peers := default ∅ (acked_by s !! message_id) in
    let s' :=
      {| lamport_clock := lamport_clock s; seen := seen s; frontiers := frontiers s;
         reported_missing := reported_missing s; own := own s;
         acked_by := <[message_id := {[payload_sender]} ∪ peers]> (acked_by s) |} in
    {| r_state := s'; r_detected := r_detected acc;
       r_acks := if decide (payload_sender ∈ peers) then r_acks acc
                 else r_acks acc ++
                   [{| a_conversation_id := conversation_id; a_message_id := message_id;
                       a_acked_by := payload_sender |}] |}
  else acc.

(** The gap half. *)
Definition gap_entry (conversation_id : string) (frontier : Frontier) (acc : RecvAcc) : RecvAcc :=
  let s := r_state acc in
  if decide ((frontier ∉ seen s) ∧ frontier ∉ reported_missing s) then
    {| r_state :=
         {| lamport_clock := lamport_clock s; seen := seen s; frontiers := frontiers s;
            reported_missing := {[frontier]} ∪ reported_missing s; own := own s;
            acked_by := acked_by s |};
       r_detected := r_detected acc ++
         [{| m_conversation_id := conversation_id; m_frontier := frontier |}];
       r_acks := r_acks acc |}
  else acc.

Definition recv_entry (conversation_id : string) (payload_sender : SignerKey) (acc : RecvAcc)
    (e : HistoryEntry) : RecvAcc :=
  match signer_try_from (h_sender_id e) with
  | Err _ => acc
  | Ok entry_sender =>
      gap_entry conversation_id {| f_sender := entry_sender; f_message_id := h_message_id e |}
        (ack_entry conversation_id payload_sender entry_sender (h_message_id e) acc)
  end.

Definition on_receive (i : Inner) (conversation_id : string) (payload : ReliablePayload)
  : Inner * list MissingMessage :=
  match signer_try_from (p_sender_id payload) with
  | Err _ => (i, [])
  | Ok payload_sender =>
      let state := convo i conversation_id in
      let state :=
        {| lamport_clock := Z.max (lamport_clock state) (p_lamport_timestamp payload);
           seen := seen state; frontiers := frontiers state;
           reported_missing := reported_missing state; own := own state;
           acked_by := acked_by state |} in
      let acc := fold_left (recv_entry conversation_id payload_sender) (p_causal_history payload)
                   {| r_state := state; r_detected := []; r_acks := [] |} in
      let state := record_seen (r_state acc)
                     {| f_sender := payload_sender; f_message_id := p_message_id payload |} in
      ({| convos := <[conversation_id := state]> (convos i);
          missing := missing i ++ r_detected acc;
          acks := acks i ++ r_acks acc |},
       r_detected acc)
  end.

Definition take_missing (i : Inner) : Inner * list MissingMessage :=
  ({| convos := convos i; missing := []; acks := acks i |}, missing i).

Definition take_acks (i : Inner) : Inner * list DeliveryAck :=
  ({| convos := convos i; missing := missing i; acks := [] |}, acks i).

(** ** Executions *)

Inductive op : Type :=
| Send (conversation_id : string) (sender : SignerKey) (content : list byte)
| Receive (conversation_id : string) (payload : ReliablePayload)
| TakeMissing
| TakeAcks.

(** What one operation hands to its caller. *)
Record output := {
  o_sent : option ReliablePayload;
  o_missing : list MissingMessage;
  o_acks : list DeliveryAck;
}.

Definition exec (i : Inner) (o : op) : Inner * output :=
  match o with
  | Send c s content =>
      let '(i', p) := on_send i c s content in
      (i', {| o_sent := Some p; o_missing := []; o_acks := [] |})
  | Receive c p =>
      let '(i', _) := on_receive i c p in
      (i', {| o_sent := None; o_missing := []; o_acks := [] |})
  | TakeMissing =>
      let '(i', ms) := take_missing i in
      (i', {| o_sent := None; o_missing := ms; o_acks := [] |})
  | TakeAcks =>
      let '(i', a) := take_acks i in
      (i', {| o_sent := None; o_missing := []; o_acks := a |})
  end.

Fixpoint run (i : Inner) (ops : list op) : Inner * list output :=
  match ops with
  | [] => (i, [])
  | o :: ops =>
      let '(i', out) := exec i o in
      let '(i'', outs) := run i' ops in
      (i'', out :: outs)
  end.

(** Everything drained so far and still to drain. *)
Definition all_missing (r : Inner * list output) : list MissingMessage :=
  flat_map o_missing r.2 ++ missing r.1.
Definition all_acks (r : Inner * list output) : list DeliveryAck :=
  flat_map o_acks r.2 ++ acks r.1.
End store.

(** ** Frontiers *)

Lemma trim_suffix l : trim l `suffix_of` l.
Proof.
  induction l as [|x l IH]; cbn -[CAUSAL_HISTORY_LEN]; [done|]. case_match; [|done].
  by apply suffix_cons_r.
Qed.

Lemma trim_len l : length (trim l) ≤ CAUSAL_HISTORY_LEN.
Proof.
  induction l as [|x l IH]; [unfold CAUSAL_HISTORY_LEN; cbn; lia|].
  cbn [trim]. destruct (Nat.ltb_spec CAUSAL_HISTORY_LEN (length (x :: l))); [done|lia].
Qed.

(** The bounded window: at most ten, distinct, all delivered. *)
Definition convo_ok (s : ConvoState) : Prop :=
  length (frontiers s) ≤ CAUSAL_HISTORY_LEN ∧ NoDup (frontiers s) ∧
  (∀ f, f ∈ frontiers s → f ∈ seen s) ∧ (i32_MIN ≤ lamport_clock s ≤ i32_MAX)%Z.

Lemma suffix_elem {A} (l k : list A) x : l `suffix_of` k → x ∈ l → x ∈ k.
Proof. intros [p ->] H. apply elem_of_app. auto. Qed.

Lemma record_seen_ok s f : convo_ok s → convo_ok (record_seen s f).
Proof.
  intros Hok. unfold record_seen. case_decide as Hf; [done|].
  destruct Hok as (Hl & Hn & Hs & Hc).
  pose proof (trim_suffix (frontiers s ++ [f])) as Hsuf.
  split_and!; cbn; [apply trim_len| | |apply Hc..].
  - assert (NoDup (frontiers s ++ [f])) as Hnd.
    { apply NoDup_app. split_and!; [done| |apply NoDup_singleton].
      intros x Hx ->%list_elem_of_singleton. auto. }
    destruct Hsuf as [k Hk]. rewrite Hk in Hnd. by apply NoDup_app in Hnd as (_ & _ & ?).
  - intros g Hg%(suffix_elem _ _ _ Hsuf). set_solver.
Qed.

Lemma record_seen_seen s f : f ∈ seen (record_seen s f).
Proof. unfold record_seen. case_decide; set_solver. Qed.

Lemma record_seen_mono s f : seen s ⊆ seen (record_seen s f).
Proof. unfold record_seen. case_decide; set_solver. Qed.

Lemma i32_small z : (i32_MIN ≤ z ≤ i32_MAX)%Z → i32 z = z.
Proof. unfold i32_MIN, i32_MAX, i32. intros H. rewrite Z.mod_small; lia. Qed.

Lemma i32_range z : (i32_MIN ≤ i32 z ≤ i32_MAX)%Z.
Proof. unfold i32_MIN, i32_MAX, i32. pose proof (Z.mod_pos_bound (z + 2 ^ 31) (2 ^ 32)). lia. Qed.

(** ** The receive loop *)

(** The peers known to hold [mid]. *)
Definition acked (s : ConvoState) (mid : string) : gset SignerKey :=
  default ∅ (acked_by s !! mid).

Definition gap (c : string) (f : Frontier) : MissingMessage :=
  {| m_conversation_id := c; m_frontier := f |}.
Definition ack (c mid : string) (k : SignerKey) : DeliveryAck :=
  {| a_conversation_id := c; a_message_id := mid; a_acked_by := k |}.

(** After any part of the loop: what it reported is what it recorded, each
    once, and nothing it reported was recorded, delivered or foreign before. *)
Record loop_inv (c : string) (s0 : ConvoState) (acc : RecvAcc) : Prop := {
  li_seen : seen (r_state acc) = seen s0;
  li_frontiers : frontiers (r_state acc) = frontiers s0;
  li_own : own (r_state acc) = own s0;
  li_clock : lamport_clock (r_state acc) = lamport_clock s0;
  li_gap f : f ∈ reported_missing (r_state acc) ↔
             f ∈ reported_missing s0 ∨ gap c f ∈ r_detected acc;
  li_gap_new m : m ∈ r_detected acc →
             m_conversation_id m = c ∧ (m_frontier m ∉ reported_missing s0) ∧
             m_frontier m ∉ seen s0;
  li_gap_once : NoDup (r_detected acc);
  li_ack mid k : k ∈ acked (r_state acc) mid ↔ k ∈ acked s0 mid ∨ ack c mid k ∈ r_acks acc;
  li_ack_new a : a ∈ r_acks acc →
             a_conversation_id a = c ∧ (a_acked_by a ∉ acked s0 (a_message_id a)) ∧
             a_message_id a ∈ own s0;
  li_ack_once : NoDup (r_acks acc);
}.

Lemma loop_inv_init c s : loop_inv c s {| r_state := s; r_detected := []; r_acks := [] |}.
Proof.
  split; cbn; try done; try constructor; try (by intros ? ?%elem_of_nil).
  all: try (intros; set_solver).
Qed.

Lemma elem_of_snoc {A} (l : list A) x y : y ∈ l ++ [x] ↔ y ∈ l ∨ y = x.
Proof. rewrite elem_of_app, list_elem_of_singleton. done. Qed.

Lemma NoDup_snoc {A} (l : list A) x : NoDup l → x ∉ l → NoDup (l ++ [x]).
Proof.
  intros Hl Hx. apply NoDup_app. split_and!; [done| |apply NoDup_singleton].
  by intros y Hy ->%list_elem_of_singleton.
Qed.

Lemma acked_insert s mid mid' P :
  default ∅ (<[mid := P]> (acked_by s) !! mid') =
  if decide (mid' = mid) then P else acked s mid'.
Proof.
  unfold acked. case_decide; [subst; by rewrite lookup_insert_eq|].
  by rewrite lookup_insert_ne.
Qed.

Lemma ack_entry_inv c s0 ps es mid acc : loop_inv c s0 acc → loop_inv c s0 (ack_entry c ps es mid acc).
Proof.
  intros Hi. unfold ack_entry. case_decide as Hown; [|done]. destruct Hown as [Hown _].
  rewrite (li_own _ _ _ Hi) in Hown.
  set (s := r_state acc) in *. change (default ∅ (acked_by s !! mid)) with (acked s mid).
  pose proof (li_ack _ _ _ Hi) as Hack. fold s in Hack.
  split; cbn; try apply Hi.
  - intros mid' k. unfold acked at 1; cbn. rewrite acked_insert. specialize (Hack mid' k).
    case_decide as Hm; [subst mid'|]; case_decide as Hp.
    + rewrite elem_of_union, elem_of_singleton, Hack. split; [|auto].
      intros [->|?]; [|done]. by apply Hack in Hp.
    + rewrite elem_of_union, elem_of_singleton, Hack, elem_of_snoc. unfold ack. naive_solver.
    + done.
    + rewrite Hack, elem_of_snoc. unfold ack. naive_solver.
  - intros a. case_decide as Hp; [apply Hi|]. rewrite elem_of_snoc.
    intros [Ha| ->]; [by apply (li_ack_new _ _ _ Hi)|]. cbn. split_and!; [done| |done].
    intros Hin. apply Hp, Hack. auto.
  - case_decide as Hp; [apply Hi|]. apply NoDup_snoc; [apply Hi|].
    intros Hin. apply Hp, Hack. auto.
Qed.

Lemma gap_entry_inv c s0 f acc : loop_inv c s0 acc → loop_inv c s0 (gap_entry c f acc).
Proof.
  intros Hi. unfold gap_entry. case_decide as Hf; [|done]. destruct Hf as [Hseen Hrep].
  pose proof (li_gap _ _ _ Hi) as Hg.
  split; cbn; try apply Hi.
  - intros g. rewrite elem_of_union, elem_of_singleton, elem_of_snoc, Hg. unfold gap. naive_solver.
  - intros m. rewrite elem_of_snoc.
    intros [Hm| ->]; [by apply (li_gap_new _ _ _ Hi)|]. cbn. split_and!; [done| |].
    + intros Hin. apply Hrep, Hg. auto.
    + by rewrite <- (li_seen _ _ _ Hi).
  - apply NoDup_snoc; [apply Hi|]. intros Hin. apply Hrep, Hg. auto.
Qed.

Section recv.
Context {HX : Hex}.

Lemma recv_entry_inv c s0 ps acc e : loop_inv c s0 acc → loop_inv c s0 (recv_entry c ps acc e).
Proof.
  intros Hi. unfold recv_entry. case_match; [|done]. by apply gap_entry_inv, ack_entry_inv.
Qed.

Lemma recv_loop_inv c s0 ps es acc :
  loop_inv c s0 acc → loop_inv c s0 (fold_left (recv_entry c ps) es acc).
Proof.
  revert acc. induction es as [|e es IH]; intros acc Hi; [done|]. by apply IH, recv_entry_inv.
Qed.

(** Nothing already recorded is forgotten in the loop. *)
Lemma recv_entry_mono c ps acc e :
  reported_missing (r_state acc) ⊆ reported_missing (r_state (recv_entry c ps acc e)) ∧
  seen (r_state (recv_entry c ps acc e)) = seen (r_state acc) ∧
  own (r_state (recv_entry c ps acc e)) = own (r_state acc) ∧
  (∀ mid, acked (r_state acc) mid ⊆ acked (r_state (recv_entry c ps acc e)) mid).
Proof.
  unfold recv_entry. case_match; [|done]. unfold gap_entry, ack_entry.
  repeat case_decide; cbn; split_and!; try done; try set_solver;
    intros mid; unfold acked at 2; cbn; rewrite ?acked_insert; try done;
    case_decide; subst; try done; apply union_subseteq_r.
Qed.

Lemma recv_loop_mono c ps es acc :
  let acc' := fold_left (recv_entry c ps) es acc in
  reported_missing (r_state acc) ⊆ reported_missing (r_state acc') ∧
  seen (r_state acc') = seen (r_state acc) ∧ own (r_state acc') = own (r_state acc) ∧
  (∀ mid, acked (r_state acc) mid ⊆ acked (r_state acc') mid).
Proof.
  revert acc. induction es as [|e es IH]; intros acc; cbn; [done|].
  destruct (recv_entry_mono c ps acc e) as (H1 & H2 & H3 & H4).
  destruct (IH (recv_entry c ps acc e)) as (G1 & G2 & G3 & G4). cbn in *.
  split_and!; [by etrans|congruence|congruence|]. intros mid. etrans; [apply H4|apply G4].
Qed.

(** Every readable reference ends up delivered or reported, and every
    reference to one of ours by someone else is acknowledged. *)
Lemma recv_loop_complete c ps es acc e k :
  e ∈ es → signer_try_from (h_sender_id e) = Ok k →
  let s := r_state (fold_left (recv_entry c ps) es acc) in
  ({| f_sender := k; f_message_id := h_message_id e |} ∈ seen s ∪ reported_missing s) ∧
  (h_message_id e ∈ own (r_state acc) → ps ≠ k → ps ∈ acked s (h_message_id e)).
Proof.
  intros He Hk. apply list_elem_of_split in He as (l1 & l2 & ->).
  rewrite fold_left_app. cbn. set (a1 := fold_left _ l1 acc).
  destruct (recv_loop_mono c ps l1 acc) as (_ & _ & Hown & _). fold a1 in Hown. cbn in Hown.
  destruct (recv_loop_mono c ps l2 (recv_entry c ps a1 e)) as (H1 & H2 & _ & H4).
  set (a2 := recv_entry c ps a1 e) in *. rewrite H2. split.
  - assert ({| f_sender := k; f_message_id := h_message_id e |}
      ∈ seen (r_state a2) ∪ reported_missing (r_state a2)); [|set_solver].
    unfold a2, recv_entry. rewrite Hk. unfold gap_entry. case_decide as Hd; cbn; [set_solver|].
    apply elem_of_union. destruct (decide ({| f_sender := k; f_message_id := h_message_id e |}
      ∈ seen (r_state (ack_entry c ps k (h_message_id e) a1)))); [auto|].
    destruct (decide ({| f_sender := k; f_message_id := h_message_id e |}
      ∈ reported_missing (r_state (ack_entry c ps k (h_message_id e) a1)))); [auto|].
    exfalso. by apply Hd.
  - intros Ho Hne. apply H4. unfold a2, recv_entry. rewrite Hk.
    assert (ps ∈ acked (r_state (ack_entry c ps k (h_message_id e) a1)) (h_message_id e)) as Hin.
    { unfold ack_entry. rewrite decide_True by (by rewrite Hown). unfold acked; cbn.
      rewrite lookup_insert_eq. set_solver. }
    unfold gap_entry. case_decide; done.
Qed.
End recv.

(** ** Whole executions *)

(** [M] and [A] are everything ever reported: gaps and acknowledgements are
    in one-to-one correspondence with what the conversations recorded. *)
Record store_inv (i : Inner) (M : list MissingMessage) (A : list DeliveryAck) : Prop := {
  si_convo c : convo_ok (convo i c);
  si_gap m : m ∈ M ↔ m_frontier m ∈ reported_missing (convo i (m_conversation_id m));
  si_gap_once : NoDup M;
  si_ack a : a ∈ A ↔ a_acked_by a ∈ acked (convo i (a_conversation_id a)) (a_message_id a);
  si_ack_once : NoDup A;
  si_ack_own a : a ∈ A → a_message_id a ∈ own (convo i (a_conversation_id a));
}.

(** What the wire type guarantees of a received timestamp. *)
Definition op_ok (o : op) : Prop :=
  match o with
  | Receive _ p => (i32_MIN ≤ p_lamport_timestamp p ≤ i32_MAX)%Z
  | _ => True
  end.

Lemma convo_insert i c s ms aks c' :
  convo {| convos := <[c := s]> (convos i); missing := ms; acks := aks |} c' =
  if decide (c' = c) then s else convo i c'.
Proof.
  unfold convo; cbn. case_decide; [subst; by rewrite lookup_insert_eq|].
  by rewrite lookup_insert_ne.
Qed.

Lemma convo_default_ok : convo_ok convo_default.
Proof.
  unfold convo_ok, CAUSAL_HISTORY_LEN, i32_MIN, i32_MAX; cbn.
  split_and!; [lia|apply NoDup_nil_2|set_solver|lia|lia].
Qed.

Lemma store_new_inv : store_inv store_new [] [].
Proof.
  assert (∀ c, convo store_new c = convo_default) as Hc by done.
  split; try constructor; rewrite ?Hc; try (by intros ? ?%elem_of_nil); intros;
    rewrite ?Hc in *; try apply convo_default_ok; set_solver.
Qed.

(** One conversation changes; what it newly recorded is what is reported. *)
Lemma store_inv_update i M A c s' ms aks newM newA :
  store_inv i M A → convo_ok s' →
  (∀ f, f ∈ reported_missing s' ↔ f ∈ reported_missing (convo i c) ∨ gap c f ∈ newM) →
  (∀ m, m ∈ newM → m_conversation_id m = c ∧ m_frontier m ∉ reported_missing (convo i c)) →
  NoDup newM →
  (∀ mid k, k ∈ acked s' mid ↔ k ∈ acked (convo i c) mid ∨ ack c mid k ∈ newA) →
  (∀ a, a ∈ newA → a_conversation_id a = c ∧ (a_acked_by a ∉ acked (convo i c) (a_message_id a)) ∧
     a_message_id a ∈ own s') →
  NoDup newA → own (convo i c) ⊆ own s' →
  store_inv {| convos := <[c := s']> (convos i); missing := ms; acks := aks |}
    (M ++ newM) (A ++ newA).
Proof.
  intros Hi Hok Hg Hgn Hgo Ha Han Hao Hown.
  split; try setoid_rewrite convo_insert.
  - intros c'. case_decide; [done|apply Hi].
  - intros [c' f]; cbn. rewrite elem_of_app, (si_gap _ _ _ Hi); cbn. case_decide as Hc.
    + subst. rewrite Hg. done.
    + split; [|auto]. intros [|[? _]%Hgn]; done.
  - apply NoDup_app. split_and!; [apply Hi| |done].
    intros m Hm [Hc Hn]%Hgn. apply (si_gap _ _ _ Hi) in Hm. by rewrite Hc in Hm.
  - intros [c' mid k]; cbn. rewrite elem_of_app, (si_ack _ _ _ Hi); cbn. case_decide as Hc.
    + subst. rewrite Ha. done.
    + split; [|auto]. intros [|[? _]%Han]; done.
  - apply NoDup_app. split_and!; [apply Hi| |done].
    intros a Hin (Hc & Hn & _)%Han. apply (si_ack _ _ _ Hi) in Hin. by rewrite Hc in Hin.
  - intros a [Hin|(Hc & _ & Ho)%Han]%elem_of_app.
    + apply (si_ack_own _ _ _ Hi) in Hin. case_decide as Hc; [rewrite Hc in Hin; set_solver|done].
    + by rewrite decide_True.
Qed.

Lemma record_seen_fields s f :
  lamport_clock (record_seen s f) = lamport_clock s ∧
  reported_missing (record_seen s f) = reported_missing s ∧
  own (record_seen s f) = own s ∧ acked_by (record_seen s f) = acked_by s.
Proof. unfold record_seen. by case_decide. Qed.

Section executions.
Context {B : Blake2b} {HX : Hex}.

Lemma on_send_inv i c k content M A :
  store_inv i M A → store_inv (on_send i c k content).1 M A.
Proof.
  intros Hi. rewrite <- (app_nil_r M), <- (app_nil_r A). unfold on_send; cbn.
  match goal with |- context [record_seen ?s ?f] =>
    destruct (record_seen_fields s f) as (_ & Hr & Ho & Hk) end.
  apply store_inv_update; try apply NoDup_nil_2; try (by intros ? ?%elem_of_nil); [done|..].
  - apply record_seen_ok. destruct (si_convo _ _ _ Hi c) as (H1 & H2 & H3 & _).
    split_and!; cbn; [done..|apply i32_range|apply i32_range].
  - intros f. rewrite Hr; cbn. set_solver.
  - intros mid k'. unfold acked. rewrite Hk; cbn. set_solver.
  - rewrite Ho; cbn. set_solver.
Qed.

Lemma on_receive_inv i c p M A :
  (i32_MIN ≤ p_lamport_timestamp p ≤ i32_MAX)%Z → store_inv i M A →
  ∃ dM dA, missing (on_receive i c p).1 = missing i ++ dM ∧
    acks (on_receive i c p).1 = acks i ++ dA ∧
    store_inv (on_receive i c p).1 (M ++ dM) (A ++ dA).
Proof.
  intros Hp Hi. unfold on_receive.
  destruct (signer_try_from (p_sender_id p)) as [ps|]; cbn.
  2: { exists [], []. by rewrite !app_nil_r. }
  set (s0 := {| lamport_clock := Z.max (lamport_clock (convo i c)) (p_lamport_timestamp p);
    seen := seen (convo i c); frontiers := frontiers (convo i c);
    reported_missing := reported_missing (convo i c); own := own (convo i c);
    acked_by := acked_by (convo i c) |}).
  pose proof (recv_loop_inv c s0 ps (p_causal_history p) _ (loop_inv_init c s0)) as Hl.
  set (acc := fold_left _ _ _) in *. eexists _, _. split_and!; [done|done|].
  match goal with |- context [record_seen ?s ?f] =>
    destruct (record_seen_fields s f) as (_ & Hr & Ho & Hk) end.
  apply store_inv_update; try done.
  - apply record_seen_ok. destruct (si_convo _ _ _ Hi c) as (H1 & H2 & H3 & H4).
    unfold convo_ok. rewrite (li_frontiers _ _ _ Hl), (li_seen _ _ _ Hl), (li_clock _ _ _ Hl).
    cbn. split_and!; [done..|lia|lia].
  - intros f. rewrite Hr. apply (li_gap _ _ _ Hl).
  - intros m Hm. destruct (li_gap_new _ _ _ Hl m Hm) as (? & ? & _). done.
  - apply Hl.
  - intros mid k. unfold acked at 1. rewrite Hk. apply (li_ack _ _ _ Hl).
  - intros a Ha. rewrite Ho, (li_own _ _ _ Hl). by apply (li_ack_new _ _ _ Hl).
  - apply Hl.
  - rewrite Ho, (li_own _ _ _ Hl). done.
Qed.

Lemma store_inv_same_convos i i' M A :
  convos i' = convos i → store_inv i M A → store_inv i' M A.
Proof.
  intros Hc Hi. assert (∀ c, convo i' c = convo i c) as E by (intros; unfold convo; by rewrite Hc).
  destruct Hi; split; intros; rewrite ?E in *; naive_solver.
Qed.

Lemma exec_inv i o dM dA :
  op_ok o → store_inv i (dM ++ missing i) (dA ++ acks i) →
  store_inv (exec i o).1 ((dM ++ o_missing (exec i o).2) ++ missing (exec i o).1)
    ((dA ++ o_acks (exec i o).2) ++ acks (exec i o).1).
Proof.
  intros Ho Hi. destruct o as [c k content|c p| |]; cbn.
  - rewrite !app_nil_r. pose proof (on_send_inv i c k content _ _ Hi) as H.
    unfold on_send in *. cbn in *. done.
  - rewrite (surjective_pairing (on_receive i c p)). cbn.
    destruct (on_receive_inv i c p _ _ Ho Hi) as (nM & nA & -> & -> & H).
    rewrite !app_nil_r, !app_assoc in *. done.
  - rewrite !app_nil_r. by apply (store_inv_same_convos i).
  - rewrite !app_nil_r. by apply (store_inv_same_convos i).
Qed.

Lemma run_inv i ops dM dA :
  Forall op_ok ops → store_inv i (dM ++ missing i) (dA ++ acks i) →
  store_inv (run i ops).1 (dM ++ all_missing (run i ops)) (dA ++ all_acks (run i ops)).
Proof.
  intros Hops. revert i dM dA. induction Hops as [|o ops Ho _ IH]; intros i dM dA Hi; [done|].
  pose proof (exec_inv i o dM dA Ho Hi) as H1. cbn.
  destruct (exec i o) as [i1 out] eqn:He. cbn in H1. specialize (IH _ _ _ H1).
  unfold all_missing, all_acks in *. destruct (run i1 ops) as [i2 outs]. cbn in *.
  by rewrite <- !app_assoc in *.
Qed.

(** *** The Lamport clock *)

Lemma on_send_clock i c k content :
  let '(i', p) := on_send i c k content in
  lamport_clock (convo i' c) = p_lamport_timestamp p ∧
  p_lamport_timestamp p = i32 (lamport_clock (convo i c) + 1) ∧
  ∀ c', c' ≠ c → convo i' c' = convo i c'.
Proof.
  unfold on_send. rewrite convo_insert, decide_True by done.
  split_and!; [|done|]; cbn.
  - by rewrite (proj1 (record_seen_fields _ _)).
  - intros c' Hne. by rewrite convo_insert, decide_False.
Qed.

Lemma on_receive_clock i c p ps :
  signer_try_from (p_sender_id p) = Ok ps →
  lamport_clock (convo (on_receive i c p).1 c) =
    Z.max (lamport_clock (convo i c)) (p_lamport_timestamp p).
Proof.
  intros Hs. unfold on_receive. rewrite Hs. cbn. rewrite convo_insert, decide_True by done.
  rewrite (proj1 (record_seen_fields _ _)).
  etrans; [apply (li_clock _ _ _ (recv_loop_inv c _ ps (p_causal_history p) _ (loop_inv_init c _)))|done].
Qed.

Lemma on_receive_other i c p c' :
  c' ≠ c → convo (on_receive i c p).1 c' = convo i c'.
Proof.
  intros Hne. unfold on_receive. case_match; [|done]. cbn. by rewrite convo_insert, decide_False.
Qed.
End executions.

Section receive.
Context {B : Blake2b} {HX : Hex}.

(** What is detected was referenced. *)
Lemma recv_loop_detected c ps es acc m :
  m ∈ r_detected (fold_left (recv_entry c ps) es acc) →
  m ∈ r_detected acc ∨
  ∃ e k, e ∈ es ∧ signer_try_from (h_sender_id e) = Ok k ∧
    m_frontier m = {| f_sender := k; f_message_id := h_message_id e |}.
Proof.
  revert acc. induction es as [|e es IH]; intros acc; [auto|]. cbn. intros Hm.
  apply IH in Hm as [Hm|(e' & k & He & Hk & Hf)].
  2: { right. exists e', k. split_and!; [by apply list_elem_of_further|done..]. }
  unfold recv_entry in Hm. destruct (signer_try_from (h_sender_id e)) as [k|] eqn:Hk; [|auto].
  assert (∀ ps' mid, r_detected (ack_entry c ps' k mid acc) = r_detected acc) as Ha.
  { intros ps' mid. unfold ack_entry. by case_decide. }
  unfold gap_entry in Hm. case_decide; cbn in Hm; rewrite Ha in Hm; [|auto].
  apply elem_of_snoc in Hm as [| ->]; [auto|]. right. exists e, k.
  split_and!; [apply list_elem_of_here|done..].
Qed.

Lemma on_receive_spec i c p ps :
  signer_try_from (p_sender_id p) = Ok ps →
  let '(i', detected) := on_receive i c p in
  let s := convo i' c in
  ({| f_sender := ps; f_message_id := p_message_id p |} ∈ seen s) ∧
  (∀ e k, e ∈ p_causal_history p → signer_try_from (h_sender_id e) = Ok k →
     ({| f_sender := k; f_message_id := h_message_id e |} ∈ seen (convo i c) ∪ reported_missing s) ∧
     (h_message_id e ∈ own (convo i c) → ps ≠ k → ps ∈ acked s (h_message_id e))) ∧
  (∀ m, m ∈ detected →
     m_conversation_id m = c ∧ (m_frontier m ∉ seen (convo i c)) ∧
     (m_frontier m ∉ reported_missing (convo i c)) ∧
     ∃ e k, e ∈ p_causal_history p ∧ signer_try_from (h_sender_id e) = Ok k ∧
       m_frontier m = {| f_sender := k; f_message_id := h_message_id e |}).
Proof.
  intros Hs. unfold on_receive. rewrite Hs. rewrite convo_insert, decide_True by done.
  set (s0 := {| lamport_clock := Z.max (lamport_clock (convo i c)) (p_lamport_timestamp p);
    seen := seen (convo i c); frontiers := frontiers (convo i c);
    reported_missing := reported_missing (convo i c); own := own (convo i c);
    acked_by := acked_by (convo i c) |}).
  set (a0 := {| r_state := s0; r_detected := []; r_acks := [] |}).
  pose proof (recv_loop_inv c s0 ps (p_causal_history p) a0 (loop_inv_init c s0)) as Hl.
  split_and!; [apply record_seen_seen| |].
  - intros e k He Hk.
    destruct (recv_loop_complete c ps (p_causal_history p) a0 e k He Hk) as [H1 H2].
    set (s1 := r_state (fold_left _ _ _)) in *.
    destruct (record_seen_fields s1 {| f_sender := ps; f_message_id := p_message_id p |})
      as (_ & Hr & _ & Ha).
    rewrite Hr. pose proof (li_seen _ _ _ Hl) as Hsn. fold s1 in Hsn. rewrite Hsn in H1.
    split; [exact H1|]. unfold acked in *. rewrite Ha. exact H2.
  - intros m Hm. destruct (li_gap_new _ _ _ Hl m Hm) as (? & ? & ?).
    apply recv_loop_detected in Hm as [?%elem_of_nil|?]; done.
Qed.
End receive.
