(* ===== verification/CausalTheorems.v ===== *)
(** * Properties of causal history

    For every digest and hex implementation meeting their laws, and every
    sequence of operations from the empty store. *)

From Stdlib Require Import Strings.Byte Strings.String.
From stdpp Require Import base gmap strings numbers sorting list.
From S2P Require Import Prelude Utf8 Hex Identity CausalHistory.

(** ** Helpers *)

(** The same separator ends the same field. *)
Lemma split_at_separator {A} (x : A) l1 l2 r1 r2 :
  x ∉ l1 → x ∉ l2 → l1 ++ x :: r1 = l2 ++ x :: r2 → l1 = l2 ∧ r1 = r2.
Proof.
  revert l2. induction l1 as [|a l1 IH]; intros [|b l2] H1 H2 E; cbn in E; simplify_eq; [done|..].
  - exfalso. set_solver.
  - exfalso. set_solver.
  - destruct (IH l2) as [-> ->]; set_solver.
Qed.

Lemma i32_to_be_bytes_inj a b :
  (i32_MIN ≤ a ≤ i32_MAX)%Z → (i32_MIN ≤ b ≤ i32_MAX)%Z →
  i32_to_be_bytes a = i32_to_be_bytes b → a = b.
Proof.
  unfold i32_MIN, i32_MAX, i32_to_be_bytes. intros Ha Hb E%to_be_bytes_inj.
  - pose proof (Z.mod_pos_bound a (2 ^ 32) ltac:(lia)).
    pose proof (Z.mod_pos_bound b (2 ^ 32) ltac:(lia)).
    assert (a mod 2 ^ 32 = b mod 2 ^ 32)%Z as Em by lia.
    pose proof (Z.div_mod a (2 ^ 32)). pose proof (Z.div_mod b (2 ^ 32)). nia.
  - pose proof (Z.mod_pos_bound a (2 ^ 32) ltac:(lia)). cbn. lia.
  - pose proof (Z.mod_pos_bound b (2 ^ 32) ltac:(lia)). cbn. lia.
Qed.

Definition BAR : byte := x7c.

Lemma hex_no_bar {HX : Hex} {HL : HexLaws HX} l : BAR ∉ hex_encode l.
Proof.
  intros Hin. pose proof (hex_charset l) as H. rewrite Forall_forall in H.
  apply H in Hin. by vm_compute in Hin.
Qed.

(** No [Send] of the sequence finds its clock at [i32::MAX]. *)
Fixpoint no_wrap {B : Blake2b} {HX : Hex} (i : Inner) (ops : list op) : Prop :=
  match ops with
  | [] => True
  | o :: ops =>
      match o with
      | Send c _ _ => (lamport_clock (convo i c) < i32_MAX)%Z
      | _ => True
      end ∧ no_wrap (exec i o).1 ops
  end.

Section theorems.
Context {B : Blake2b} {HX : Hex} {HL : HexLaws HX}.

Lemma reachable_inv ops :
  Forall op_ok ops →
  store_inv (run store_new ops).1 (all_missing (run store_new ops)) (all_acks (run store_new ops)).
Proof. intros Hops. apply (run_inv store_new ops [] [] Hops). apply store_new_inv. Qed.

Lemma exec_clock i o c :
  convo_ok (convo i c) →
  match o with Send c' _ _ => (lamport_clock (convo i c') < i32_MAX)%Z | _ => True end →
  (lamport_clock (convo i c) ≤ lamport_clock (convo (exec i o).1 c))%Z.
Proof.
  intros (_ & _ & _ & Hr) Ho. destruct o as [c' k content|c' p| |]; unfold exec; try done.
  - pose proof (on_send_clock i c' k content) as H.
    destruct (on_send i c' k content) as [i' p]. destruct H as (H1 & H2 & H3). cbn.
    destruct (decide (c = c')) as [->|Hne]; [|rewrite H3 by done; lia].
    rewrite H1, H2, i32_small; unfold i32_MIN, i32_MAX in *; lia.
  - rewrite (surjective_pairing (on_receive i c' p)). cbn.
    destruct (decide (c = c')) as [->|Hne]; [|rewrite on_receive_other by done; lia].
    destruct (signer_try_from (p_sender_id p)) as [ps|] eqn:Hs.
    + rewrite (on_receive_clock _ _ _ ps Hs). lia.
    + unfold on_receive. rewrite Hs. cbn. lia.
Qed.

Lemma run_clock i ops c M A :
  Forall op_ok ops → store_inv i (M ++ missing i) (A ++ acks i) → no_wrap i ops →
  (lamport_clock (convo i c) ≤ lamport_clock (convo (run i ops).1 c))%Z.
Proof.
  intros Hops. revert i M A. induction Hops as [|o ops Ho _ IH]; intros i M A Hi Hw; [done|].
  destruct Hw as [Hw Hn].
  pose proof (exec_inv i o M A Ho Hi) as Hi'.
  pose proof (exec_clock i o c (si_convo _ _ _ Hi c) Hw) as H1. cbn.
  destruct (exec i o) as [i1 out]. cbn in *. pose proof (IH i1 _ _ Hi' Hn) as H2.
  destruct (run i1 ops) as [i2 outs]. cbn in *. lia.
Qed.

Lemma run_app i ops1 ops2 : (run i (ops1 ++ ops2)).1 = (run (run i ops1).1 ops2).1.
Proof.
  revert i. induction ops1 as [|o ops1 IH]; intros i; [done|]. cbn.
  destruct (exec i o) as [i1 out]. specialize (IH i1).
  destruct (run i1 (ops1 ++ ops2)), (run i1 ops1). done.
Qed.

(** C9. In every execution the frontier a conversation attaches to its
    messages has at most ten entries, all distinct and all delivered locally,
    and so has the causal history of every message sent next. *)
Theorem causal_frontier_bounded ops c k content :
  Forall op_ok ops →
  let i := (run store_new ops).1 in
  convo_ok (convo i c) ∧
  length (p_causal_history (on_send i c k content).2) ≤ CAUSAL_HISTORY_LEN ∧
  NoDup (p_causal_history (on_send i c k content).2).
Proof.
  intros Hops. pose proof (si_convo _ _ _ (reachable_inv ops Hops) c) as Hok. cbn.
  split; [done|]. destruct Hok as (Hl & Hn & _). rewrite length_map. split; [done|].
  apply NoDup_fmap_2; [|done]. intros [s1 m1] [s2 m2] E. unfold history_entry in E; cbn in E.
  injection E as -> E%signer_to_string_inj. by subst.
Qed.

(** C10. A gap is surfaced exactly once: over a whole execution the missing
    messages drained and still to drain are pairwise distinct, and they are
    exactly what the conversations recorded as missing. *)
Theorem gap_reported_once ops :
  Forall op_ok ops →
  let r := run store_new ops in
  NoDup (all_missing r) ∧
  ∀ m, m ∈ all_missing r ↔
    m_frontier m ∈ reported_missing (convo r.1 (m_conversation_id m)).
Proof. intros Hops. pose proof (reachable_inv ops Hops) as Hi. split; apply Hi. Qed.

(** An acknowledgement is surfaced exactly once per peer and message,
    and only for a message this installation authored. *)
Theorem ack_reported_once ops :
  Forall op_ok ops →
  let r := run store_new ops in
  NoDup (all_acks r) ∧
  (∀ a, a ∈ all_acks r →
     a_message_id a ∈ own (convo r.1 (a_conversation_id a)) ∧
     a_acked_by a ∈ acked (convo r.1 (a_conversation_id a)) (a_message_id a)).
Proof.
  intros Hops. pose proof (reachable_inv ops Hops) as Hi. split; [apply Hi|].
  intros a Ha. split; [by apply (si_ack_own _ _ _ Hi) | by apply (si_ack _ _ _ Hi)].
Qed.

(** Receiving is complete: the message itself becomes delivered, every
    referenced message with a readable sender was delivered or is now
    reported missing, a reference to one of ours by someone else is recorded
    as its acknowledgement, and what is reported was referenced, and neither
    delivered nor reported before. A payload with an unreadable sender
    changes nothing. *)
Theorem receive_complete i c p :
  match signer_try_from (p_sender_id p) with
  | Err _ => on_receive i c p = (i, [])
  | Ok ps =>
      let '(i', detected) := on_receive i c p in
      let s := convo i' c in
      ({| f_sender := ps; f_message_id := p_message_id p |} ∈ seen s) ∧
      (∀ e k, e ∈ p_causal_history p → signer_try_from (h_sender_id e) = Ok k →
         ({| f_sender := k; f_message_id := h_message_id e |}
            ∈ seen (convo i c) ∪ reported_missing s) ∧
         (h_message_id e ∈ own (convo i c) → ps ≠ k → ps ∈ acked s (h_message_id e))) ∧
      (∀ m, m ∈ detected →
         m_conversation_id m = c ∧ (m_frontier m ∉ seen (convo i c)) ∧
         (m_frontier m ∉ reported_missing (convo i c)) ∧
         ∃ e k, e ∈ p_causal_history p ∧ signer_try_from (h_sender_id e) = Ok k ∧
           m_frontier m = {| f_sender := k; f_message_id := h_message_id e |})
  end.
Proof.
  destruct (signer_try_from (p_sender_id p)) as [ps|] eqn:Hs; [by apply on_receive_spec|].
  unfold on_receive. by rewrite Hs.
Qed.

(** Gap detection end to end: when one store sends and another receives,
    every message of the sender's frontier the receiver has not delivered is
    recorded as missing, and nothing is reported when it has delivered them
    all. *)
Theorem gap_detection_end_to_end ia ib c k content :
  let p := (on_send ia c k content).2 in
  let '(ib', detected) := on_receive ib c p in
  (∀ f, f ∈ frontiers (convo ia c) → f ∉ seen (convo ib c) →
     f ∈ reported_missing (convo ib' c)) ∧
  ((∀ f, f ∈ frontiers (convo ia c) → f ∈ seen (convo ib c)) → detected = []).
Proof.
  intros p.
  assert (signer_try_from (p_sender_id p) = Ok k) as Hk by apply signer_try_from_to_string.
  pose proof (on_receive_spec ib c p k Hk) as H. destruct (on_receive ib c p) as [ib' det].
  destruct H as (_ & H2 & H3). split.
  - intros f Hf Hn. destruct (H2 (history_entry f) (f_sender f)) as [Hin _].
    + by apply list_elem_of_fmap_2.
    + apply signer_try_from_to_string.
    + destruct f. set_solver.
  - intros Hall. destruct det as [|m det]; [done|]. exfalso.
    destruct (H3 m (list_elem_of_here _ _)) as (_ & Hns & _ & e & kk & He & Hkk & Hm).
    apply list_elem_of_fmap in He as (f & -> & Hf). cbn in Hkk, Hm.
    rewrite signer_try_from_to_string in Hkk. injection Hkk as <-.
    apply Hns. rewrite Hm. specialize (Hall f Hf). by destruct f.
Qed.

(** Lamport order: as long as no clock sits at [i32::MAX] when a message
    is sent, a message sent after another was received carries a strictly
    greater timestamp, whatever happened in between. *)
Theorem lamport_strictly_greater ops0 c p ps ops k content :
  Forall op_ok (ops0 ++ Receive c p :: ops) →
  signer_try_from (p_sender_id p) = Ok ps →
  let i1 := (on_receive (run store_new ops0).1 c p).1 in
  let i2 := (run i1 ops).1 in
  no_wrap i1 (ops ++ [Send c k content]) →
  (p_lamport_timestamp p < p_lamport_timestamp (on_send i2 c k content).2)%Z.
Proof.
  intros Hops Hs i1 i2 Hw. apply Forall_app in Hops as [H0 Hrest].
  apply Forall_cons_iff in Hrest as [Hp Hops].
  pose proof (reachable_inv ops0 H0) as Hi0. unfold all_missing, all_acks in Hi0.
  pose proof (exec_inv _ (Receive c p) _ _ Hp Hi0) as Hi1. cbn in Hi1.
  rewrite (surjective_pairing (on_receive _ c p)) in Hi1. cbn in Hi1. fold i1 in Hi1.
  assert (no_wrap i1 ops ∧ (lamport_clock (convo i2 c) < i32_MAX)%Z) as [Hw1 Hw2].
  { unfold i2. clear -Hw. revert Hw. generalize i1 as i.
    induction ops as [|o ops IH]; intros i; cbn; [naive_solver|].
    intros [Ho Hw]. destruct (IH _ Hw) as [H1 H2]. destruct (exec i o) as [j out]. cbn in *.
    destruct (run j ops). done. }
  pose proof (run_clock i1 ops c _ _ Hops Hi1 Hw1) as Hmono. fold i2 in Hmono.
  pose proof (run_inv _ ops _ _ Hops Hi1) as Hi2.
  destruct (si_convo _ _ _ Hi2 c) as (_ & _ & _ & Hrange). fold i2 in Hrange.
  pose proof (on_receive_clock (run store_new ops0).1 c p ps Hs) as Hc. fold i1 in Hc.
  pose proof (on_send_clock i2 c k content) as Hsend.
  destruct (on_send i2 c k content) as [i3 q]. destruct Hsend as (_ & Hq & _). cbn [snd]. rewrite Hq.
  rewrite i32_small; unfold i32_MIN, i32_MAX in *; lia.
Qed.

(** The exception: a peer whose payload claims the timestamp [i32::MAX]
    makes the next local send wrap to [i32::MIN], below everything observed;
    the clock's "strictly greater than anything we have observed" fails. *)
Theorem lamport_wraps_at_max ops c p ps k content :
  Forall op_ok ops → signer_try_from (p_sender_id p) = Ok ps →
  p_lamport_timestamp p = i32_MAX →
  p_lamport_timestamp (on_send (on_receive (run store_new ops).1 c p).1 c k content).2 = i32_MIN.
Proof.
  intros Hops Hs Hp. set (i := (run store_new ops).1).
  destruct (si_convo _ _ _ (reachable_inv ops Hops) c) as (_ & _ & _ & Hr). fold i in Hr.
  pose proof (on_receive_clock i c p ps Hs) as Hc.
  pose proof (on_send_clock (on_receive i c p).1 c k content) as Hsend.
  destruct (on_send (on_receive i c p).1 c k content) as [i3 q]. destruct Hsend as (_ & Hq & _). cbn [snd]. rewrite Hq.
  rewrite Hc, Hp, Z.max_r by lia. reflexivity.
Qed.

(** Within a conversation the bytes hashed into a message id determine
    the sender, the timestamp and the content: distinct messages are never
    given one id by the framing, only by a digest collision. *)
Theorem message_id_preimage_injective channel s1 s2 l1 l2 c1 c2 :
  (i32_MIN ≤ l1 ≤ i32_MAX)%Z → (i32_MIN ≤ l2 ≤ i32_MAX)%Z →
  concat (id_components channel (signer_to_string s1) l1 c1) =
  concat (id_components channel (signer_to_string s2) l2 c2) →
  s1 = s2 ∧ l1 = l2 ∧ c1 = c2.
Proof.
  intros H1 H2 E. unfold id_components in E. cbn [concat] in E. rewrite !app_nil_r in E.
  apply app_inv_head, app_inv_head, app_inv_head in E.
  change (str_bytes "|") with [BAR] in E. cbn [app] in E.
  unfold signer_to_string in E. rewrite !list_byte_of_string_of_list_byte in E.
  apply split_at_separator in E as [Es E]; [|apply hex_no_bar..].
  apply app_inj_1 in E as [El E]; [|done].
  apply hex_encode_inj in Es. apply i32_to_be_bytes_inj in El; [|done..].
  destruct s1, s2. cbn in Es. naive_solver.
Qed.
End theorems.

(** ** Witnesses *)

(** A digest for evaluation: the first [n] bytes, padded. *)
Definition blake_ref : Blake2b := {| blake2b n l := take n (l ++ replicate n x00) |}.

Definition alice : SignerKey := Signer_key [x0a].
Definition bob : SignerKey := Signer_key [x0b].

(** Bob names a message nobody here has seen. *)
Definition demo_received (ts : Z) : ReliablePayload :=
  {| p_message_id := "m2"; p_sender_id := signer_to_string (HX := hex_ref) bob;
     p_channel_id := "c"; p_lamport_timestamp := ts;
     p_causal_history := [{| h_message_id := "m1"; h_sender_id := "0b"; h_retrieval_hint := [] |}];
     p_bloom_filter := []; p_content := [] |}.

Definition demo_ops : list op :=
  [Send "c" alice [x01]; Receive "c" (demo_received 5); TakeMissing; Receive "c" (demo_received 5)].

Lemma demo_ops_ok : Forall op_ok demo_ops.
Proof. repeat constructor; cbn; unfold i32_MIN, i32_MAX; lia. Qed.

Lemma causal_frontier_bounded_witness :
  length (p_causal_history
    (on_send (B := blake_ref) (HX := hex_ref)
       (run (B := blake_ref) (HX := hex_ref) store_new demo_ops).1 "c" alice []).2)
  ≤ CAUSAL_HISTORY_LEN.
Proof.
  apply (causal_frontier_bounded (B := blake_ref) (HX := hex_ref) (HL := hex_ref_laws)
           demo_ops "c" alice []).
  exact demo_ops_ok.
Defined.

Lemma gap_reported_once_witness :
  NoDup (all_missing (run (B := blake_ref) (HX := hex_ref) store_new demo_ops)) ∧
  all_missing (run (B := blake_ref) (HX := hex_ref) store_new demo_ops) =
    [{| m_conversation_id := "c"; m_frontier := {| f_sender := bob; f_message_id := "m1" |} |}].
Proof.
  split; [|vm_compute; reflexivity].
  apply (gap_reported_once (B := blake_ref) (HX := hex_ref) demo_ops). exact demo_ops_ok.
Defined.

Lemma ack_reported_once_witness :
  NoDup (all_acks (run (B := blake_ref) (HX := hex_ref) store_new demo_ops)).
Proof.
  apply (ack_reported_once (B := blake_ref) (HX := hex_ref) demo_ops). exact demo_ops_ok.
Defined.

Lemma gap_detection_end_to_end_witness :
  let '(ib', detected) := on_receive (HX := hex_ref) store_new "c"
    (on_send (B := blake_ref) (HX := hex_ref)
       (run (B := blake_ref) (HX := hex_ref) store_new demo_ops).1 "c" alice []).2 in
  {| f_sender := bob; f_message_id := "m2" |} ∈ reported_missing (convo ib' "c").
Proof.
  pose proof (gap_detection_end_to_end (B := blake_ref) (HX := hex_ref) (HL := hex_ref_laws)
    (run (B := blake_ref) (HX := hex_ref) store_new demo_ops).1 store_new "c" alice []) as H.
  cbv zeta in H. destruct (on_receive _ _ _) as [ib' det]. destruct H as [H _].
  apply H; vm_compute; [right; left | intros H'; inversion H'].
Defined.

Lemma lamport_strictly_greater_witness :
  (5 < p_lamport_timestamp (on_send (B := blake_ref) (HX := hex_ref)
     (run (B := blake_ref) (HX := hex_ref)
        (on_receive (HX := hex_ref) store_new "c" (demo_received 5)).1 [TakeAcks]).1
     "c" alice []).2)%Z.
Proof.
  apply (lamport_strictly_greater (B := blake_ref) (HX := hex_ref) [] "c" (demo_received 5) bob
           [TakeAcks] alice []).
  - repeat constructor; cbn; unfold i32_MIN, i32_MAX; lia.
  - vm_compute. reflexivity.
  - split; [done|]. split; [vm_compute; reflexivity|done].
Defined.

Lemma lamport_wraps_at_max_witness :
  p_lamport_timestamp (on_send (B := blake_ref) (HX := hex_ref)
    (on_receive (HX := hex_ref) store_new "c" (demo_received i32_MAX)).1 "c" alice []).2 = i32_MIN.
Proof.
  apply (lamport_wraps_at_max (B := blake_ref) (HX := hex_ref) [] "c" (demo_received i32_MAX) bob
           alice []).
  - constructor.
  - vm_compute. reflexivity.
  - reflexivity.
Defined.

Lemma message_id_preimage_injective_witness : alice = alice ∧ 7%Z = 7%Z ∧ [x01] = [x01].
Proof.
  apply (message_id_preimage_injective (HX := hex_ref) (HL := hex_ref_laws) "c");
    [unfold i32_MIN, i32_MAX; lia..|reflexivity].
Defined.
