(* ===== verification/Storage.v ===== *)
(** * Stores ([core/conversations/src/storage.rs], [kv.rs],
      [storage/in_memory_store.rs], [extensions/sqlite/src])

    The scoped key-value substrate: byte values addressed by a scope and a
    key, reached through transactions. [KvTx] is the interface of the verbs
    inside one transaction and [KvTxLaws] what it promises; the in-memory
    store (a map of maps, worked on a copy taken back on commit) and the
    SQLite store (rows under a primary key, with the queries' own conditions)
    both discharge it, and a client of the interface cannot tell them apart.
    Database I/O errors are not modelled: a query on a working database. *)

From Stdlib Require Import Strings.Byte Strings.String.
From stdpp Require Import base gmap strings numbers sorting list.
From S2P Require Import Prelude Utf8.

Module StorageError.
Inductive t : Type :=
| Database (e : string)
| NotFound (e : string)
| InvalidData (e : string).
End StorageError.

Abbreviation KvPair := (list byte * list byte)%type.

Record Namespace := Ns { ns_name : string }.
Record Scope := { ns : Namespace; instance : string }.

#[export] Instance namespace_eq_dec : EqDecision Namespace.
Proof. solve_decision. Defined.
#[export] Instance scope_eq_dec : EqDecision Scope.
Proof. solve_decision. Defined.
#[export, refine] Instance namespace_countable : Countable Namespace :=
  inj_countable' ns_name Ns _.
Proof. by intros []. Defined.

(** ** The interface *)

(** The verbs inside one transaction, on its working state. *)
Class KvTx (T : Type) := {
  kv_get : T → Scope → list byte → option (list byte);
  kv_put : T → Scope → list byte → list byte → T;
  kv_delete : T → Scope → list byte → T;
  kv_scan_prefix : T → Scope → list byte → list KvPair;
  kv_delete_prefix : T → Scope → list byte → T;
  kv_delete_scope : T → Scope → T;
  kv_delete_namespace : T → Namespace → T;
}.

(** Keys are ordered as byte strings. *)
Fixpoint key_leb (l k : list byte) : bool :=
  match l, k with
  | [], _ => true
  | _ :: _, [] => false
  | a :: l, b :: k =>
      (Byte.to_N a <? Byte.to_N b)%N || (Byte.eqb a b && key_leb l k)
  end.

Definition pair_le (p q : KvPair) : Prop := key_leb p.1 q.1 = true.
#[export] Instance pair_le_dec p q : Decision (pair_le p q).
Proof. unfold pair_le. apply _. Defined.

(** What the verbs promise: each changes exactly the keys it names, reads see
    earlier writes, and a scan lists what is there under the prefix in key
    order. *)
Class KvTxLaws (T : Type) {K : KvTx T} := {
  kv_ok : T → Prop;
  kv_put_ok t s k v : kv_ok t → kv_ok (kv_put t s k v);
  kv_delete_ok t s k : kv_ok t → kv_ok (kv_delete t s k);
  kv_delete_prefix_ok t s p : kv_ok t → kv_ok (kv_delete_prefix t s p);
  kv_delete_scope_ok t s : kv_ok t → kv_ok (kv_delete_scope t s);
  kv_delete_namespace_ok t n : kv_ok t → kv_ok (kv_delete_namespace t n);
  get_put t s k v s' k' : kv_ok t →
    kv_get (kv_put t s k v) s' k' =
    if decide (s' = s ∧ k' = k) then Some v else kv_get t s' k';
  get_delete t s k s' k' : kv_ok t →
    kv_get (kv_delete t s k) s' k' =
    if decide (s' = s ∧ k' = k) then None else kv_get t s' k';
  get_delete_prefix t s p s' k' : kv_ok t →
    kv_get (kv_delete_prefix t s p) s' k' =
    if decide (s' = s ∧ p `prefix_of` k') then None else kv_get t s' k';
  get_delete_scope t s s' k' : kv_ok t →
    kv_get (kv_delete_scope t s) s' k' = if decide (s' = s) then None else kv_get t s' k';
  get_delete_namespace t n s' k' : kv_ok t →
    kv_get (kv_delete_namespace t n) s' k' = if decide (ns s' = n) then None else kv_get t s' k';
  scan_sorted t s p : kv_ok t → StronglySorted pair_le (kv_scan_prefix t s p);
  scan_once t s p : kv_ok t → NoDup (kv_scan_prefix t s p);
  scan_elem t s p k v : kv_ok t →
    (k, v) ∈ kv_scan_prefix t s p ↔ kv_get t s k = Some v ∧ p `prefix_of` k;
}.

(** ** The in-memory store *)

(** Every scope's keys, each scope apart from the rest. *)
Abbreviation Kv := (gmap (Namespace * string) (gmap (list byte) (list byte))).

Definition scope_key (s : Scope) : Namespace * string := (ns s, instance s).

Arguments scope_key : simpl never.

Definition mem_get (kv : Kv) (s : Scope) (k : list byte) : option (list byte) :=
  entries ← kv !! scope_key s; entries !! k.

Definition mem_put (kv : Kv) (s : Scope) (k v : list byte) : Kv :=
  <[scope_key s := <[k := v]> (default ∅ (kv !! scope_key s))]> kv.

Definition mem_delete (kv : Kv) (s : Scope) (k : list byte) : Kv :=
  match kv !! scope_key s with
  | Some entries => <[scope_key s := delete k entries]> kv
  | None => kv
  end.

(** A [BTreeMap] iterates in key order. *)
Definition btree_iter (m : gmap (list byte) (list byte)) : list KvPair :=
  merge_sort pair_le (map_to_list m).

Definition mem_scan_prefix (kv : Kv) (s : Scope) (p : list byte) : list KvPair :=
  filter (λ kv, starts_with kv.1 p = true) (btree_iter (default ∅ (kv !! scope_key s))).

Definition mem_delete_prefix (kv : Kv) (s : Scope) (p : list byte) : Kv :=
  match kv !! scope_key s with
  | Some entries => <[scope_key s := filter (λ kv, starts_with kv.1 p = false) entries]> kv
  | None => kv
  end.

Definition mem_delete_scope (kv : Kv) (s : Scope) : Kv := delete (scope_key s) kv.

Definition mem_delete_namespace (kv : Kv) (n : Namespace) : Kv :=
  filter (λ e, e.1.1 ≠ n) kv.

#[export] Instance mem_kv_tx : KvTx Kv := {|
  kv_get := mem_get;
  kv_put := mem_put;
  kv_delete := mem_delete;
  kv_scan_prefix := mem_scan_prefix;
  kv_delete_prefix := mem_delete_prefix;
  kv_delete_scope := mem_delete_scope;
  kv_delete_namespace := mem_delete_namespace;
|}.

(** ** The SQLite store: the [kv] table *)

Record row := { r_ns : string; r_instance : string; r_key : list byte; r_value : list byte }.

#[export] Instance row_eq_dec : EqDecision row.
Proof. solve_decision. Defined.

Abbreviation table := (list row).

(** [ns = ?1 AND instance = ?2]. *)
Definition in_scope (s : Scope) (r : row) : Prop :=
  r_ns r = ns_name (ns s) ∧ r_instance r = instance s.
#[export] Instance in_scope_dec s r : Decision (in_scope s r).
Proof. unfold in_scope. apply _. Defined.

(** SQL's [substr(key, 1, n)]: of an empty key it is NULL, [None], which equals
    nothing. *)
Definition sql_substr (key : list byte) (n : nat) : option (list byte) :=
  match key with [] => None | _ => Some (take n key) end.

(** [length(?3) = 0 OR substr(key, 1, length(?3)) = ?3]. *)
Definition key_under_prefix (p : list byte) (r : row) : Prop :=
  length p = 0 ∨ sql_substr (r_key r) (length p) = Some p.
#[export] Instance key_under_prefix_dec p r : Decision (key_under_prefix p r).
Proof. unfold key_under_prefix. apply _. Defined.

(** [SELECT value FROM kv WHERE ns, instance, key]; the first row. *)
Definition sql_get (t : table) (s : Scope) (k : list byte) : option (list byte) :=
  r_value <$> head (filter (λ r, in_scope s r ∧ r_key r = k) t).

(** [INSERT OR REPLACE]: a row with the same primary key is deleted first. *)
Definition sql_put (t : table) (s : Scope) (k v : list byte) : table :=
  filter (λ r, ¬ (in_scope s r ∧ r_key r = k)) t ++
  [{| r_ns := ns_name (ns s); r_instance := instance s; r_key := k; r_value := v |}].

Definition sql_delete (t : table) (s : Scope) (k : list byte) : table :=
  filter (λ r, ¬ (in_scope s r ∧ r_key r = k)) t.

Definition row_pair (r : row) : KvPair := (r_key r, r_value r).

(** [SELECT key, value ... ORDER BY key]. *)
Definition sql_scan_prefix (t : table) (s : Scope) (p : list byte) : list KvPair :=
  merge_sort pair_le (map row_pair (filter (λ r, in_scope s r ∧ key_under_prefix p r) t)).

Definition sql_delete_prefix (t : table) (s : Scope) (p : list byte) : table :=
  filter (λ r, ¬ (in_scope s r ∧ key_under_prefix p r)) t.

Definition sql_delete_scope (t : table) (s : Scope) : table := filter (λ r, ¬ in_scope s r) t.

Definition sql_delete_namespace (t : table) (n : Namespace) : table :=
  filter (λ r, ¬ r_ns r = ns_name n) t.

#[export] Instance sql_kv_tx : KvTx table := {|
  kv_get := sql_get;
  kv_put := sql_put;
  kv_delete := sql_delete;
  kv_scan_prefix := sql_scan_prefix;
  kv_delete_prefix := sql_delete_prefix;
  kv_delete_scope := sql_delete_scope;
  kv_delete_namespace := sql_delete_namespace;
|}.

(** ** Records and transactions of the in-memory store *)

Inductive ConversationKind : Type := UnknownKind (value : string) | GroupV1.

#[export] Instance conversation_kind_eq_dec : EqDecision ConversationKind.
Proof. solve_decision. Defined.

Definition kind_as_str (k : ConversationKind) : string :=
  match k with UnknownKind value => value | GroupV1 => "group_v1" end.

Definition kind_from (value : string) : ConversationKind :=
  if decide (value = "group_v1"%string) then GroupV1 else UnknownKind value.

Record ConversationMeta := { local_convo_id : string; kind : ConversationKind }.

#[export] Instance conversation_meta_eq_dec : EqDecision ConversationMeta.
Proof. solve_decision. Defined.

Record StoredInstallation := Stored { stored_bytes : list byte }.

Record MemStore := {
  ms_convos : gmap string ConversationMeta;
  ms_installation : option StoredInstallation;
  ms_kv : Kv;
  ms_tx_open : bool;
}.

Definition memstore_new : MemStore :=
  {| ms_convos := ∅; ms_installation := None; ms_kv := ∅; ms_tx_open := false |}.

Definition save_conversation (m : MemStore) (meta : ConversationMeta) : MemStore :=
  {| ms_convos := <[local_convo_id meta := meta]> (ms_convos m);
     ms_installation := ms_installation m; ms_kv := ms_kv m; ms_tx_open := ms_tx_open m |}.

Definition load_conversation (m : MemStore) (id : string) : option ConversationMeta :=
  ms_convos m !! id.

Definition load_conversations (m : MemStore) : list ConversationMeta :=
  (map_to_list (ms_convos m)).*2.

Definition has_conversation (m : MemStore) (id : string) : bool :=
  bool_decide (is_Some (ms_convos m !! id)).

Definition load_installation (m : MemStore) : option StoredInstallation := ms_installation m.

Definition save_installation (m : MemStore) (i : StoredInstallation)
  : MemStore * result StorageError.t () :=
  match ms_installation m with
  | Some _ => (m, Err (StorageError.InvalidData "an installation is already stored"))
  | None =>
      ({| ms_convos := ms_convos m; ms_installation := Some i; ms_kv := ms_kv m;
          ms_tx_open := ms_tx_open m |}, Ok ())
  end.

(** One transaction: the copy it works on. *)
Record MemKvTx := Staged { staged : Kv }.

Definition set_tx_open (m : MemStore) (b : bool) : MemStore :=
  {| ms_convos := ms_convos m; ms_installation := ms_installation m; ms_kv := ms_kv m;
     ms_tx_open := b |}.

Definition begin (m : MemStore) : MemStore * result StorageError.t MemKvTx :=
  if ms_tx_open m then
    (set_tx_open m true, Err (StorageError.Database "a transaction is already open"))
  else (set_tx_open m true, Ok (Staged (ms_kv m))).

(** [Drop]. *)
Definition tx_drop (m : MemStore) : MemStore := set_tx_open m false.

(** [commit] takes the transaction, which is then dropped. *)
Definition commit (m : MemStore) (tx : MemKvTx) : MemStore :=
  tx_drop {| ms_convos := ms_convos m; ms_installation := ms_installation m; ms_kv := staged tx;
             ms_tx_open := ms_tx_open m |}.

(** ** Scopes bound to a transaction ([kv.rs]) *)

Section scoped.
Context {T : Type} {K : KvTx T}.

(** A handle is the scope it is bound to; the transaction it borrows is
    shared with every other handle, so the verbs pass it as state. *)
Record ScopedKvStore := { sk_scope : Scope }.

Definition tx_scope (n : Namespace) (instance : string) : ScopedKvStore :=
  {| sk_scope := {| ns := n; instance := instance |} |}.

Definition scoped_get (tx : T) (s : ScopedKvStore) (k : list byte) : option (list byte) :=
  kv_get tx (sk_scope s) k.
Definition scoped_put (tx : T) (s : ScopedKvStore) (k v : list byte) : T :=
  kv_put tx (sk_scope s) k v.
Definition scoped_delete (tx : T) (s : ScopedKvStore) (k : list byte) : T :=
  kv_delete tx (sk_scope s) k.
Definition scoped_scan_prefix (tx : T) (s : ScopedKvStore) (p : list byte) : list KvPair :=
  kv_scan_prefix tx (sk_scope s) p.
Definition scoped_delete_prefix (tx : T) (s : ScopedKvStore) (p : list byte) : T :=
  kv_delete_prefix tx (sk_scope s) p.

(** ** Programs of verbs *)

Inductive verb : Type :=
| VGet (s : Scope) (k : list byte)
| VPut (s : Scope) (k v : list byte)
| VDelete (s : Scope) (k : list byte)
| VScanPrefix (s : Scope) (p : list byte)
| VDeletePrefix (s : Scope) (p : list byte)
| VDeleteScope (s : Scope)
| VDeleteNamespace (n : Namespace).

Inductive reply : Type :=
| RUnit
| RValue (v : option (list byte))
| RPairs (l : list KvPair).

Definition run_verb (t : T) (v : verb) : T * reply :=
  match v with
  | VGet s k => (t, RValue (kv_get t s k))
  | VPut s k v => (kv_put t s k v, RUnit)
  | VDelete s k => (kv_delete t s k, RUnit)
  | VScanPrefix s p => (t, RPairs (kv_scan_prefix t s p))
  | VDeletePrefix s p => (kv_delete_prefix t s p, RUnit)
  | VDeleteScope s => (kv_delete_scope t s, RUnit)
  | VDeleteNamespace n => (kv_delete_namespace t n, RUnit)
  end.

Fixpoint run_verbs (t : T) (vs : list verb) : T * list reply :=
  match vs with
  | [] => (t, [])
  | v :: vs =>
      let '(t', r) := run_verb t v in
      let '(t'', rs) := run_verbs t' vs in (t'', r :: rs)
  end.
End scoped.

(** ** Key order *)

Lemma key_leb_cons a l b k :
  key_leb (a :: l) (b :: k) = true ↔
  (Byte.to_N a < Byte.to_N b)%N ∨ a = b ∧ key_leb l k = true.
Proof. cbn. by rewrite orb_true_iff, andb_true_iff, N.ltb_lt, byte_eqb_eq. Qed.

Lemma key_leb_trans l k m : key_leb l k = true → key_leb k m = true → key_leb l m = true.
Proof.
  revert k m. induction l as [|a l IH]; intros [|b k] [|c m]; try done.
  rewrite !key_leb_cons. intros [H1|[-> H1]] [H2|[-> H2]]; eauto with lia.
Qed.

Lemma key_leb_total l k : key_leb l k = true ∨ key_leb k l = true.
Proof.
  revert k. induction l as [|a l IH]; intros [|b k]; auto. rewrite !key_leb_cons.
  destruct (N.lt_total (Byte.to_N a) (Byte.to_N b)) as [|[E|]]; auto.
  apply to_N_inj in E as ->. destruct (IH k); auto.
Qed.

Lemma key_leb_antisym l k : key_leb l k = true → key_leb k l = true → l = k.
Proof.
  revert k. induction l as [|a l IH]; intros [|b k]; try done.
  rewrite !key_leb_cons. intros [H1|[-> H1]] [H2|[E H2]]; subst; try lia.
  by rewrite (IH k).
Qed.

#[export] Instance pair_le_total : Total pair_le.
Proof. intros p q. apply key_leb_total. Qed.
#[export] Instance pair_le_trans : Transitive pair_le.
Proof. intros p q r. apply key_leb_trans. Qed.

(** A scan is determined by what it contains. *)
Lemma scan_unique (l k : list KvPair) (f : list byte → option (list byte)) :
  StronglySorted pair_le l → StronglySorted pair_le k → NoDup l → NoDup k →
  (∀ p, p ∈ l → f p.1 = Some p.2) → (∀ p, p ∈ l ↔ p ∈ k) → l = k.
Proof.
  intros Hl Hk Nl Nk Hf Hlk. apply (StronglySorted_unique_strong pair_le); auto.
  - intros [a x] [b y] Ha Hb H1 H2. apply Hlk in Hb. apply Hf in Ha, Hb. cbn in *.
    assert (a = b) as -> by (by apply key_leb_antisym). congruence.
  - by apply NoDup_Permutation.
Qed.

Lemma sorted_filter_pairs (P : KvPair → Prop) `{!∀ x, Decision (P x)} l :
  StronglySorted pair_le l → StronglySorted pair_le (filter P l).
Proof.
  induction 1 as [|x l _ IH Hx]; [constructor|]. rewrite filter_cons.
  case_decide; [|done]. constructor; [done|]. apply Forall_forall.
  intros y [_ Hy]%list_elem_of_filter. rewrite Forall_forall in Hx. by apply Hx.
Qed.

(** ** Both stores keep the promise *)

Lemma scope_key_inj s t : scope_key s = scope_key t → s = t.
Proof. destruct s, t. unfold scope_key; cbn. congruence. Qed.

Lemma mem_lookup_ne (kv : Kv) (s s' : Scope) (m : gmap (list byte) (list byte)) :
  s' ≠ s → <[scope_key s := m]> kv !! scope_key s' = kv !! scope_key s'.
Proof. intros Hne. apply lookup_insert_ne. intros ?%scope_key_inj. congruence. Qed.

Lemma starts_with_false l p : starts_with l p = false ↔ ¬ p `prefix_of` l.
Proof. rewrite <- not_true_iff_false, starts_with_spec. done. Qed.

#[export] Instance mem_kv_laws : KvTxLaws Kv.
Proof.
  refine {| kv_ok := λ _, True |}; try done; intros;
    cbn [kv_get kv_put kv_delete kv_scan_prefix kv_delete_prefix kv_delete_scope
         kv_delete_namespace mem_kv_tx].
  - unfold mem_get, mem_put. destruct (decide (s' = s)) as [->|Hs].
    + rewrite lookup_insert_eq. cbn. destruct (decide (k' = k)) as [->|Hk].
      * rewrite decide_True by done. by rewrite lookup_insert_eq.
      * rewrite decide_False by naive_solver. rewrite lookup_insert_ne by done.
        destruct (t !! scope_key s); [done|]. apply lookup_empty.
    + rewrite decide_False by naive_solver. by rewrite mem_lookup_ne.
  - unfold mem_get, mem_delete. destruct (t !! scope_key s) as [m|] eqn:Hm.
    + destruct (decide (s' = s)) as [->|Hs].
      * rewrite lookup_insert_eq, Hm. cbn. destruct (decide (k' = k)) as [->|Hk].
        -- rewrite decide_True by done. apply lookup_delete_eq.
        -- rewrite decide_False by naive_solver. by rewrite lookup_delete_ne.
      * rewrite decide_False by naive_solver. by rewrite mem_lookup_ne.
    + case_decide as Hd; [|done]. destruct Hd as [-> ->]. by rewrite Hm.
  - unfold mem_get, mem_delete_prefix. destruct (t !! scope_key s) as [m|] eqn:Hm.
    + destruct (decide (s' = s)) as [->|Hs].
      * rewrite lookup_insert_eq, Hm. cbn. rewrite map_lookup_filter.
        destruct (decide (p `prefix_of` k')) as [Hp|Hp].
        -- rewrite decide_True by done. destruct (m !! k'); cbn; [|done].
           rewrite option_guard_False; [done|]. cbn. rewrite starts_with_false. naive_solver.
        -- rewrite decide_False by naive_solver. destruct (m !! k'); cbn; [|done].
           rewrite option_guard_True; [done|]. cbn. by rewrite starts_with_false.
      * rewrite decide_False by naive_solver. by rewrite mem_lookup_ne.
    + case_decide as Hd; [|done]. destruct Hd as [-> _]. by rewrite Hm.
  - unfold mem_get, mem_delete_scope. case_decide as Hs; [subst; by rewrite lookup_delete_eq|].
    rewrite lookup_delete_ne; [done|]. intros ?%scope_key_inj. congruence.
  - unfold mem_get, mem_delete_namespace. rewrite map_lookup_filter. case_decide as Hn.
    + destruct (t !! scope_key s'); cbn; [|done]. rewrite option_guard_False; [done|]. naive_solver.
    + destruct (t !! scope_key s'); cbn; [|done]. by rewrite option_guard_True.
  - apply sorted_filter_pairs, (StronglySorted_merge_sort _).
  - apply NoDup_filter. unfold btree_iter. rewrite merge_sort_Permutation. apply NoDup_map_to_list.
  - unfold mem_scan_prefix, btree_iter, mem_get.
    rewrite list_elem_of_filter, starts_with_spec, merge_sort_Permutation, elem_of_map_to_list.
    destruct (t !! scope_key s); cbn; [naive_solver|]. rewrite lookup_empty. naive_solver.
Defined.

(** The primary key. *)
Definition row_pk (r : row) : string * string * list byte := (r_ns r, r_instance r, r_key r).
Definition table_ok (t : table) : Prop := NoDup (map row_pk t).
Definition row_of (s : Scope) (k v : list byte) : row :=
  {| r_ns := ns_name (ns s); r_instance := instance s; r_key := k; r_value := v |}.

Lemma table_ok_filter (P : row → Prop) `{!∀ r, Decision (P r)} t :
  table_ok t → table_ok (filter P t).
Proof.
  unfold table_ok. induction t as [|r t IH]; [done|]. cbn [map]. rewrite NoDup_cons.
  intros [Hr Ht]. rewrite filter_cons. case_decide; [|auto]. cbn [map]. rewrite NoDup_cons.
  split; [|auto]. rewrite list_elem_of_fmap. intros (r' & E & [_ Hr']%list_elem_of_filter).
  apply Hr. rewrite E. by apply list_elem_of_fmap_2.
Qed.

Lemma table_ok_unique t r r' : table_ok t → r ∈ t → r' ∈ t → row_pk r = row_pk r' → r = r'.
Proof.
  unfold table_ok. induction t as [|x t IH]; [by intros _ ?%elem_of_nil|]. cbn [map].
  rewrite NoDup_cons, !elem_of_cons. intros [Hx Ht] [->|Hr] [->|Hr'] E; [done| | |by apply IH].
  - exfalso. apply Hx. rewrite E. by apply list_elem_of_fmap_2.
  - exfalso. apply Hx. rewrite <- E. by apply list_elem_of_fmap_2.
Qed.

Lemma row_in_scope s r : in_scope s r ↔ r = row_of s (r_key r) (r_value r).
Proof. unfold in_scope, row_of. destruct r; cbn. naive_solver. Qed.

Lemma sql_get_Some t s k v : table_ok t → sql_get t s k = Some v ↔ row_of s k v ∈ t.
Proof.
  intros Ht. unfold sql_get.
  assert (∀ r, r ∈ filter (λ r, in_scope s r ∧ r_key r = k) t ↔
    r ∈ t ∧ r = row_of s k (r_value r)) as Hel.
  { intros r. rewrite list_elem_of_filter, row_in_scope. split.
    - intros [[E <-] Hr]. done.
    - intros [Hr E]. split; [|done]. rewrite E. done. }
  destruct (filter _ t) as [|r l] eqn:Hf; cbn.
  - split; [done|]. intros Hin. exfalso. apply (elem_of_nil (row_of s k v)).
    apply Hel. done.
  - destruct (proj1 (Hel r) (list_elem_of_here _ _)) as [Hr E]. split.
    + intros [= <-]. by rewrite <- E.
    + intros Hin. f_equal.
      assert (r = row_of s k v) as ->; [|done].
      eapply table_ok_unique; [done..|]. by rewrite E.
Qed.

(** What a [DELETE] leaves. *)
Lemma sql_filter_get (P : row → Prop) `{!∀ r, Decision (P r)} t s k :
  table_ok t →
  sql_get (filter (λ r, ¬ P r) t) s k =
  match sql_get t s k with
  | Some v => if decide (P (row_of s k v)) then None else Some v
  | None => None
  end.
Proof.
  intros Ht. apply option_eq. intros v. rewrite sql_get_Some by by apply table_ok_filter.
  rewrite list_elem_of_filter. rewrite <- sql_get_Some by done.
  destruct (sql_get t s k) as [w|]; [|naive_solver]. case_decide; naive_solver.
Qed.

Lemma row_of_in_scope s s' k v : in_scope s (row_of s' k v) ↔ s' = s.
Proof.
  unfold in_scope, row_of; destruct s as [[n] i], s' as [[n'] i']; cbn. naive_solver.
Qed.

Lemma substr_prefix p k : length p = 0 ∨ sql_substr k (length p) = Some p ↔ p `prefix_of` k.
Proof.
  destruct p as [|x p]; [split; [intros _; apply prefix_nil|by left]|]. split.
  - intros [?|H]; [done|]. destruct k as [|y k]; [done|]. injection H as H H'.
    exists (drop (length p) k). cbn. rewrite <-H' at 1. by rewrite H, take_drop.
  - intros [l ->]. right. unfold sql_substr. cbn. by rewrite take_app_length.
Qed.

(** A deletion whose condition depends only on scope and key. *)
Lemma sql_delete_where (P : row → Prop) `{!∀ r, Decision (P r)} (Q : Prop) `{!Decision Q} t s k :
  table_ok t → (∀ v, P (row_of s k v) ↔ Q) →
  sql_get (filter (λ r, ¬ P r) t) s k = if decide Q then None else sql_get t s k.
Proof.
  intros Ht HQ. rewrite sql_filter_get by done.
  destruct (sql_get t s k) as [v|]; [|by case_decide].
  destruct (decide Q); [rewrite decide_True | rewrite decide_False]; rewrite ?HQ; done.
Qed.

Lemma row_pair_inj s t (l : list row) :
  Forall (in_scope s) l → table_ok l → t = map row_pair l → NoDup t.
Proof.
  intros Hs Hok ->. unfold table_ok in Hok. induction Hs as [|r l Hr Hs IH]; [apply NoDup_nil_2|].
  cbn [map] in *. apply NoDup_cons in Hok as [Hn Hok]. apply NoDup_cons. split; [|auto].
  rewrite list_elem_of_fmap. intros (r' & E & Hr'). apply Hn.
  rewrite Forall_forall in Hs. specialize (Hs _ Hr'). apply row_in_scope in Hr, Hs.
  injection E as Ek Ev. rewrite Hr, Ek, Ev, <- Hs. by apply list_elem_of_fmap_2.
Qed.

Lemma sql_put_ok t s k v : table_ok t → table_ok (sql_put t s k v).
Proof.
  intros Ht. unfold sql_put, table_ok. rewrite map_app. apply NoDup_app. split_and!.
  - by apply (table_ok_filter (λ r, ¬ (in_scope s r ∧ r_key r = k))).
  - intros x (r & -> & [Hr _]%list_elem_of_filter)%list_elem_of_fmap E. cbn [map] in E.
    apply list_elem_of_singleton in E. apply Hr. unfold in_scope. unfold row_pk in E; cbn in E.
    naive_solver.
  - apply NoDup_singleton.
Qed.

#[export] Instance sql_kv_laws : KvTxLaws table.
Proof.
  refine {| kv_ok := table_ok |}; intros;
    cbn [kv_get kv_put kv_delete kv_scan_prefix kv_delete_prefix kv_delete_scope
         kv_delete_namespace sql_kv_tx].
  - by apply sql_put_ok.
  - by apply table_ok_filter.
  - by apply table_ok_filter.
  - by apply table_ok_filter.
  - by apply table_ok_filter.
  - rename select (table_ok t) into Ht.
    assert (table_ok (sql_put t s k v)) as Hput by by apply sql_put_ok.
    apply option_eq. intros w. rewrite sql_get_Some by done. unfold sql_put.
    rewrite elem_of_app, list_elem_of_filter, list_elem_of_singleton, row_of_in_scope.
    rewrite <- sql_get_Some by done. change (r_key (row_of s' k' w)) with k'.
    case_decide as Hd.
    + destruct Hd as [-> ->]. unfold row_of. naive_solver.
    + split; [|naive_solver]. intros [[_ ?]|E]; [done|]. exfalso. apply Hd.
      pose proof (row_of_in_scope s s' k' w) as Hsc. unfold row_of in *.
      split; [|congruence]. apply Hsc. rewrite E. done.
  - apply sql_delete_where; [done|]. intros v. by rewrite row_of_in_scope.
  - apply sql_delete_where; [done|]. intros v. rewrite row_of_in_scope. unfold key_under_prefix.
    by rewrite substr_prefix.
  - apply sql_delete_where; [done|]. intros v. by rewrite row_of_in_scope.
  - apply sql_delete_where; [done|]. intros v. unfold row_of; cbn. destruct (ns s'), n; naive_solver.
  - apply (StronglySorted_merge_sort _).
  - unfold sql_scan_prefix. rewrite merge_sort_Permutation.
    apply (row_pair_inj s _ (filter (λ r, in_scope s r ∧ key_under_prefix p r) t)); [| |done].
    + apply Forall_forall. intros r [[? _] _]%list_elem_of_filter. done.
    + by apply (table_ok_filter (λ r, in_scope s r ∧ key_under_prefix p r)).
  - unfold sql_scan_prefix. rewrite merge_sort_Permutation, list_elem_of_fmap.
    setoid_rewrite list_elem_of_filter. rewrite sql_get_Some by done. split.
    + intros (r & E & [Hsc Hp] & Hr). apply row_in_scope in Hsc. unfold row_pair in E.
      injection E as -> ->. rewrite <- Hsc. split; [done|]. by apply substr_prefix.
    + intros [Hr Hp]. exists (row_of s k v). split_and!; [done| | |done].
      * by apply row_of_in_scope.
      * by apply substr_prefix.
Defined.

(** ** Clients of the interface *)

Section clients.
Context {T1 T2 : Type} {K1 : KvTx T1} {K2 : KvTx T2} {L1 : KvTxLaws T1} {L2 : KvTxLaws T2}.

(** Two working states that answer every read alike. *)
Definition kv_same (t1 : T1) (t2 : T2) : Prop :=
  kv_ok t1 ∧ kv_ok t2 ∧ ∀ s k, kv_get t1 s k = kv_get t2 s k.

Lemma kv_same_scan t1 t2 s p : kv_same t1 t2 → kv_scan_prefix t1 s p = kv_scan_prefix t2 s p.
Proof.
  intros (H1 & H2 & Hg). apply (scan_unique _ _ (kv_get t1 s)).
  - by apply scan_sorted.
  - by apply scan_sorted.
  - by apply scan_once.
  - by apply scan_once.
  - intros [k v] [? _]%scan_elem; done.
  - intros [k v]. rewrite !scan_elem by done. by rewrite Hg.
Qed.

Lemma kv_same_verb t1 t2 v :
  kv_same t1 t2 →
  kv_same (run_verb t1 v).1 (run_verb t2 v).1 ∧ (run_verb t1 v).2 = (run_verb t2 v).2.
Proof.
  intros Hs. pose proof Hs as (H1 & H2 & Hg). destruct v; cbn; split; try done.
  - f_equal. apply Hg.
  - split_and!; [by apply kv_put_ok..|]. intros. by rewrite !get_put, Hg.
  - split_and!; [by apply kv_delete_ok..|]. intros. by rewrite !get_delete, Hg.
  - f_equal. by apply kv_same_scan.
  - split_and!; [by apply kv_delete_prefix_ok..|]. intros. by rewrite !get_delete_prefix, Hg.
  - split_and!; [by apply kv_delete_scope_ok..|]. intros. by rewrite !get_delete_scope, Hg.
  - split_and!; [by apply kv_delete_namespace_ok..|]. intros. by rewrite !get_delete_namespace, Hg.
Qed.

Lemma kv_same_verbs t1 t2 vs :
  kv_same t1 t2 →
  kv_same (run_verbs t1 vs).1 (run_verbs t2 vs).1 ∧ (run_verbs t1 vs).2 = (run_verbs t2 vs).2.
Proof.
  revert t1 t2. induction vs as [|v vs IH]; intros t1 t2 Hs; [done|]. cbn.
  destruct (kv_same_verb t1 t2 v Hs) as [Hs' Hr].
  destruct (run_verb t1 v) as [t1' r1], (run_verb t2 v) as [t2' r2]. cbn in *.
  destruct (IH _ _ Hs') as [Hs'' Hrs].
  destruct (run_verbs t1' vs), (run_verbs t2' vs). cbn in *. split; [done|]. congruence.
Qed.
End clients.

Section isolation.
Context {T : Type} {K : KvTx T} {L : KvTxLaws T}.

(** Whether a verb may change something in scope [s]. *)
Definition touches (s : Scope) (v : verb) : Prop :=
  match v with
  | VGet _ _ | VScanPrefix _ _ => False
  | VPut s' _ _ | VDelete s' _ | VDeletePrefix s' _ | VDeleteScope s' => s' = s
  | VDeleteNamespace n => ns s = n
  end.

Lemma run_verb_untouched t v s :
  kv_ok t → ¬ touches s v →
  kv_ok (run_verb t v).1 ∧ ∀ k, kv_get (run_verb t v).1 s k = kv_get t s k.
Proof.
  intros Hok Hn. destruct v; cbn in *; split; try done.
  - by apply kv_put_ok.
  - intros. rewrite get_put, decide_False; naive_solver.
  - by apply kv_delete_ok.
  - intros. rewrite get_delete, decide_False; naive_solver.
  - by apply kv_delete_prefix_ok.
  - intros. rewrite get_delete_prefix, decide_False; naive_solver.
  - by apply kv_delete_scope_ok.
  - intros. rewrite get_delete_scope, decide_False; naive_solver.
  - by apply kv_delete_namespace_ok.
  - intros. rewrite get_delete_namespace, decide_False; naive_solver.
Qed.

Lemma run_verbs_untouched t vs s :
  kv_ok t → Forall (λ v, ¬ touches s v) vs →
  kv_ok (run_verbs t vs).1 ∧ ∀ k, kv_get (run_verbs t vs).1 s k = kv_get t s k.
Proof.
  intros Hok Hvs. revert t Hok. induction Hvs as [|v vs Hv _ IH]; intros t Hok; [done|]. cbn.
  destruct (run_verb_untouched t v s Hok Hv) as [Hok' Hg].
  destruct (run_verb t v) as [t' r]. cbn in *. destruct (IH t' Hok') as [Hok'' Hg'].
  destruct (run_verbs t' vs) as [t'' rs]. cbn in *. split; [done|]. intros k. by rewrite Hg', Hg.
Qed.
End isolation.
