(* ===== verification/StorageTheorems.v ===== *)
(** * Properties of the stores *)

From Stdlib Require Import Strings.Byte Strings.String.
From stdpp Require Import base gmap strings numbers sorting list.
From S2P Require Import Prelude Utf8 Storage.

(** C11. Refinement of the one interface: whatever program of verbs a client
    runs in a transaction on a fresh store, the in-memory store and the
    SQLite store give the same replies, scans in the same order included. *)
Theorem kv_stores_agree vs :
  (run_verbs (∅ : Kv) vs).2 = (run_verbs ([] : table) vs).2.
Proof.
  apply (kv_same_verbs (T1 := Kv) (T2 := table)). split; [exact I|]. split; [apply NoDup_nil_2|].
  intros s k. cbn. unfold mem_get, sql_get. by rewrite lookup_empty.
Qed.

Section interface.
Context {T : Type} {K : KvTx T} {L : KvTxLaws T}.

(** Scopes are apart: a program none of whose verbs names a scope or its
    namespace leaves every read of that scope as it was, in any store that
    keeps the interface's promise. *)
Theorem scopes_isolated t vs s k :
  kv_ok t → Forall (λ v, ¬ touches s v) vs →
  kv_get (run_verbs t vs).1 s k = kv_get t s k.
Proof. intros Hok Hvs. by apply run_verbs_untouched. Qed.
End interface.

(** Transactions of the in-memory store: work is invisible until commit,
    commit lands exactly the transaction's writes, a drop discards them, only
    one transaction is open at a time, and the records beside the substrate
    are never touched. *)
Theorem transaction_all_or_nothing m vs :
  ms_tx_open m = false →
  let '(m1, r) := begin m in
  r = Ok (Staged (ms_kv m)) ∧ ms_kv m1 = ms_kv m ∧
  (∃ e, begin m1 = (m1, Err e)) ∧
  tx_drop m1 = m ∧
  commit m1 (Staged (run_verbs (ms_kv m) vs).1) =
    {| ms_convos := ms_convos m; ms_installation := ms_installation m;
       ms_kv := (run_verbs (ms_kv m) vs).1; ms_tx_open := false |}.
Proof.
  intros Hm. unfold begin. rewrite Hm. destruct m as [cs inst kv o]; cbn in *. subst.
  split_and!; try done. eexists. done.
Qed.

(** What a client can do to the records of a store. *)
Inductive record_op : Type :=
| OpSave (meta : ConversationMeta)
| OpInstall (i : StoredInstallation)
| OpTx (vs : list verb) (committed : bool).

Definition run_record_op (m : MemStore) (o : record_op) : MemStore :=
  match o with
  | OpSave meta => save_conversation m meta
  | OpInstall i => (save_installation m i).1
  | OpTx vs committed =>
      match begin m with
      | (m1, Ok tx) =>
          if committed then commit m1 (Staged (run_verbs (staged tx) vs).1) else tx_drop m1
      | (m1, Err _) => m1
      end
  end.

(** The installation record is insert-only: once a store holds one, no
    sequence of operations changes it, and a second save is refused. *)
Theorem installation_insert_only m ops i j :
  load_installation m = Some i →
  load_installation (fold_left run_record_op ops m) = Some i ∧
  save_installation m j = (m, Err (StorageError.InvalidData "an installation is already stored")).
Proof.
  intros Hi. split; [|unfold save_installation, load_installation in *; by rewrite Hi].
  revert m Hi. induction ops as [|o ops IH]; intros m Hi; [done|]. apply IH.
  destruct o as [meta|j'|vs c]; cbn; [done| |].
  - unfold save_installation, load_installation in *. by rewrite Hi.
  - unfold begin. destruct (ms_tx_open m); [done|]. by destruct c.
Qed.

(** ** Witnesses *)

Definition demo_scope : Scope := {| ns := Ns "group_v1"; instance := "c1" |}.
Definition other_scope : Scope := {| ns := Ns "inbox_v2"; instance := "c1" |}.

Lemma scopes_isolated_witness :
  kv_get (run_verbs (kv_put (∅ : Kv) demo_scope [x01] [x02])
    [VPut other_scope [x01] [x03]; VDeleteScope other_scope]).1 demo_scope [x01] = Some [x02].
Proof.
  rewrite (scopes_isolated (T := Kv)); [vm_compute; reflexivity|done|].
  repeat constructor; vm_compute; discriminate.
Defined.

Lemma transaction_all_or_nothing_witness :
  tx_drop (begin memstore_new).1 = memstore_new.
Proof.
  pose proof (transaction_all_or_nothing memstore_new [] eq_refl) as H.
  destruct (begin memstore_new) as [m1 r]. destruct H as (_ & _ & _ & H & _). exact H.
Defined.

Lemma installation_insert_only_witness :
  load_installation
    (fold_left run_record_op [OpInstall (Stored [x02]); OpTx [] true]
       (save_installation memstore_new (Stored [x01])).1) = Some (Stored [x01]).
Proof.
  apply (installation_insert_only (save_installation memstore_new (Stored [x01])).1
           [OpInstall (Stored [x02]); OpTx [] true] (Stored [x01]) (Stored [x02])).
  reflexivity.
Defined.
