(* ===== verification/VirtualTime.v ===== *)
(** * Virtual time ([core/integration_tests_core/src/wakeup.rs])

    The wake-up service clients are driven with when time is advanced by
    hand: one service shared by every client's provider, a heap of records
    ordered by expiry, client and conversation, and a clock shared with the
    conversations. Durations are nanoseconds and panic past [Duration::MAX];
    a panic is [None]. The theorems: advancing time returns exactly the
    records due, in order, and leaves the rest; and over any run of
    registrations and advances no record is lost, fired twice, early, or out
    of order. *)

From Stdlib Require Import Strings.Byte Strings.String.
From stdpp Require Import base gmap strings numbers sorting list.
From S2P Require Import Prelude Utf8 Storage.

(** [de_mls::MockClock]: a clock made once, read and advanced. *)
Class MockClock := {
  mock_clock : Type;
  mock_new : mock_clock;
  mock_now : mock_clock → N;
  mock_advance : mock_clock → N → mock_clock;
}.
Class MockClockLaws (MC : MockClock) := {
  mock_now_advance c d : mock_now (mock_advance c d) = (mock_now c + d)%N;
}.

(** [GroupV2Clock]: the clock a GroupV2 conversation reads; [system] is the
    time since the epoch, which a clock set before it does not have. *)
Inductive GroupV2Clock {MC : MockClock} : Type := SystemClock | MockedClock (clock : mock_clock).
Definition clock_now {MC : MockClock} (system : Z) (c : GroupV2Clock) : N :=
  match c with
  | SystemClock => if (system <? 0)%Z then 0%N else Z.to_N system
  | MockedClock clock => mock_now clock
  end.

(** [Duration]: [u64] seconds and nanoseconds below a second. *)
Definition DURATION_MAX : N := (2 ^ 64 - 1) * 1000000000 + 999999999.
Definition duration_checked_add (a b : N) : option N :=
  if (a + b <=? DURATION_MAX)%N then Some (a + b)%N else None.

(** [WakeupRecord], with its derived order. *)
Record VRecord := { v_expiry : N; v_client : nat; v_convo : string }.
#[export] Instance VRecord_eq_dec : EqDecision VRecord.
Proof. solve_decision. Defined.

Definition v_leb (a b : VRecord) : bool :=
  (v_expiry a <? v_expiry b)%N ||
  ((v_expiry a =? v_expiry b)%N &&
   ((v_client a <? v_client b) ||
    ((v_client a =? v_client b) && key_leb (str_bytes (v_convo a)) (str_bytes (v_convo b))))).
Definition v_le (a b : VRecord) : Prop := v_leb a b = true.
#[export] Instance v_le_dec a b : Decision (v_le a b).
Proof. unfold v_le. apply _. Defined.

(** [BinaryHeap<Reverse<WakeupRecord>>]: its least record and the others.
    Records that compare equal are equal, so which one is popped is not seen. *)
Fixpoint heap_pop (l : list VRecord) : option (VRecord * list VRecord) :=
  match l with
  | [] => None
  | x :: l =>
      match heap_pop l with
      | None => Some (x, [])
      | Some (m, rest) => if v_leb x m then Some (x, l) else Some (m, x :: rest)
      end
  end.

(** [InnerWakeupService]. *)
Record InnerWakeup := { iw_now : N; iw_pending : list VRecord }.
Definition inner_new : InnerWakeup := {| iw_now := 0; iw_pending := [] |}.

Definition register_wakeup (s : InnerWakeup) (wake_in : N) (client_index : nat) (convo_id : string)
  : option InnerWakeup :=
  expiry ← duration_checked_add (iw_now s) wake_in;
  Some {| iw_now := iw_now s;
          iw_pending := {| v_expiry := expiry; v_client := client_index; v_convo := convo_id |} :: iw_pending s |}.

(** The [while] loop: peek, compare with [now], pop. *)
Fixpoint expired_loop (fuel : nat) (now : N) (pending : list VRecord) : list VRecord * list VRecord :=
  match fuel with
  | O => (pending, [])
  | S fuel =>
      match heap_pop pending with
      | Some (w, rest) =>
          if (v_expiry w <=? now)%N then
            let '(pending, fired) := expired_loop fuel now rest in (pending, w :: fired)
          else (pending, [])
      | None => (pending, [])
      end
  end.

Definition get_expired (s : InnerWakeup) : InnerWakeup * list VRecord :=
  let '(pending, fired) := expired_loop (length (iw_pending s)) (iw_now s) (iw_pending s) in
  ({| iw_now := iw_now s; iw_pending := pending |}, fired).

Section service.
Context {MC : MockClock}.

(** [TestWakeupService] and a client's [TestWakeupProvider]; the inner
    service is shared, so it is passed along. *)
Record WakeupWorld := { ww_inner : InnerWakeup; ww_clock : mock_clock }.
Definition world_new : WakeupWorld := {| ww_inner := inner_new; ww_clock := mock_new |}.
Record WakeupProvider := { wp_client_index : nat }.
Definition new_provider (id : nat) : WakeupProvider := {| wp_client_index := id |}.
Definition provider_wakeup_in (w : WakeupWorld) (p : WakeupProvider) (duration : N) (convo_id : string)
  : option WakeupWorld :=
  inner ← register_wakeup (ww_inner w) duration (wp_client_index p) convo_id;
  Some {| ww_inner := inner; ww_clock := ww_clock w |}.

Definition world_clock (w : WakeupWorld) : GroupV2Clock := MockedClock (ww_clock w).

Definition advance_time (w : WakeupWorld) (duration : N) : option (WakeupWorld * list VRecord) :=
  let clock := mock_advance (ww_clock w) duration in
  now ← duration_checked_add (iw_now (ww_inner w)) duration;
  let '(inner, fired) := get_expired {| iw_now := now; iw_pending := iw_pending (ww_inner w) |} in
  Some ({| ww_inner := inner; ww_clock := clock |}, fired).
End service.

(** ** The order *)

Lemma v_leb_spec a b :
  v_le a b ↔ (v_expiry a < v_expiry b)%N ∨
    v_expiry a = v_expiry b ∧ (v_client a < v_client b ∨
      v_client a = v_client b ∧ key_leb (str_bytes (v_convo a)) (str_bytes (v_convo b)) = true).
Proof.
  unfold v_le, v_leb.
  by rewrite orb_true_iff, andb_true_iff, orb_true_iff, andb_true_iff, N.ltb_lt, N.eqb_eq,
    Nat.ltb_lt, Nat.eqb_eq.
Qed.

#[export] Instance v_le_trans : Transitive v_le.
Proof.
  intros a b c. rewrite !v_leb_spec. intros [?|[? [?|[? H]]]] [?|[? [?|[? H']]]]; try lia.
  right. split; [lia|]. right. split; [lia|]. by eapply key_leb_trans.
Qed.
#[export] Instance v_le_total : Total v_le.
Proof.
  intros a b. rewrite !v_leb_spec.
  destruct (N.lt_total (v_expiry a) (v_expiry b)) as [|[|]]; [lia| |lia].
  destruct (Nat.lt_total (v_client a) (v_client b)) as [|[|]]; [lia| |lia].
  destruct (key_leb_total (str_bytes (v_convo a)) (str_bytes (v_convo b))); naive_solver lia.
Qed.
Lemma v_le_antisym a b : v_le a b → v_le b a → a = b.
Proof.
  rewrite !v_leb_spec. intros [?|[? [?|[? H]]]] [?|[? [?|[? H']]]]; try lia.
  destruct a, b; cbn in *. subst. f_equal. apply str_bytes_inj. by apply key_leb_antisym.
Qed.
Lemma v_le_expiry a b : v_le a b → (v_expiry a ≤ v_expiry b)%N.
Proof. rewrite v_leb_spec. lia. Qed.

(** ** The heap and the loop *)

Lemma heap_pop_None l : heap_pop l = None ↔ l = [].
Proof.
  destruct l as [|x l]; [done|]. cbn.
  destruct (heap_pop l) as [[m rest]|]; [destruct (v_leb x m)|]; naive_solver.
Qed.

Lemma heap_pop_Some l m rest :
  heap_pop l = Some (m, rest) → l ≡ₚ m :: rest ∧ Forall (v_le m) rest.
Proof.
  revert m rest. induction l as [|x l IH]; intros m rest; [done|]. cbn.
  destruct (heap_pop l) as [[m' rest']|] eqn:Hl.
  - destruct (IH _ _ eq_refl) as [Hp Hm]. destruct (v_leb x m') eqn:Hx; intros [= <- <-].
    + split; [done|]. rewrite Hp. constructor; [done|]. eapply Forall_impl; [exact Hm|].
      intros y. by transitivity m'.
    + split; [rewrite Hp; apply Permutation_swap|]. constructor; [|done].
      destruct (total v_le m' x) as [|Hx']; [done|]. unfold v_le in Hx'. congruence.
  - intros [= <- <-]. apply heap_pop_None in Hl as ->. done.
Qed.

Definition due (now : N) (r : VRecord) : Prop := (v_expiry r ≤ now)%N.
#[export] Instance due_dec now r : Decision (due now r).
Proof. unfold due. apply _. Defined.

Lemma none_due now m rest :
  ¬ due now m → Forall (v_le m) rest → Forall (λ r, ¬ due now r) (m :: rest).
Proof.
  intros Hm Hr. constructor; [done|]. eapply Forall_impl; [exact Hr|].
  intros r Hle%v_le_expiry. unfold due in *. lia.
Qed.

Lemma expired_loop_spec fuel now l p f :
  length l ≤ fuel → expired_loop fuel now l = (p, f) →
  l ≡ₚ f ++ p ∧ StronglySorted v_le f ∧ Forall (due now) f ∧ Forall (λ r, ¬ due now r) p.
Proof.
  revert l p f. induction fuel as [|fuel IH]; intros l p f Hl; cbn [expired_loop].
  - destruct l; [|cbn in Hl; lia]. intros [= <- <-]. repeat constructor.
  - destruct (heap_pop l) as [[m rest]|] eqn:Hpop.
    2: { apply heap_pop_None in Hpop as ->. intros [= <- <-]. repeat constructor. }
    apply heap_pop_Some in Hpop as [Hp Hm]. destruct (N.leb_spec (v_expiry m) now) as [Hd|Hd].
    + destruct (expired_loop fuel now rest) as [p' f'] eqn:Hloop. intros [= <- <-].
      destruct (IH rest p' f') as (Hp' & Hs & Hf & Hn); [|done|].
      { apply Permutation_length in Hp. cbn in Hp. lia. }
      split_and!; [by rewrite Hp, Hp'| |by constructor|done].
      constructor; [done|]. rewrite Hp' in Hm. by apply Forall_app in Hm as [? _].
    + intros [= <- <-]. split_and!; [done|constructor|done|]. rewrite Hp.
      apply none_due; [unfold due; lia|done].
Qed.

Section filters.
Context {A : Type} (P : A → Prop) `{!∀ x, Decision (P x)}.

Lemma filter_holds (l : list A) : Forall P l → filter P l = l.
Proof. induction 1 as [|x l Hx _ IH]; [done|]. by rewrite filter_cons_True, IH. Qed.
Lemma filter_fails (l : list A) : Forall (λ x, ¬ P x) l → filter P l = [].
Proof. induction 1 as [|x l Hx _ IH]; [done|]. by rewrite filter_cons_False. Qed.
End filters.

(** What is due, sorted: the specification of one advance. *)
Definition due_sorted (now : N) (l : list VRecord) : list VRecord :=
  merge_sort v_le (filter (due now) l).

Lemma get_expired_spec s :
  (get_expired s).2 = due_sorted (iw_now s) (iw_pending s) ∧
  iw_pending (get_expired s).1 ≡ₚ filter (λ r, ¬ due (iw_now s) r) (iw_pending s) ∧
  iw_now (get_expired s).1 = iw_now s.
Proof.
  unfold get_expired.
  destruct (expired_loop _ (iw_now s) (iw_pending s)) as [p f] eqn:Hl.
  apply expired_loop_spec in Hl as (Hp & Hs & Hf & Hn); [|done]. cbn [fst snd iw_now iw_pending].
  assert (filter (due (iw_now s)) (f ++ p) = f) as Ef.
  { by rewrite filter_app, filter_holds, filter_fails, app_nil_r. }
  assert (filter (λ r, ¬ due (iw_now s) r) (f ++ p) = p) as Ep.
  { rewrite filter_app, filter_fails, filter_holds; [done..|].
    eapply Forall_impl; [exact Hf|]. by intros r Hr Hn'. }
  split_and!; [|by rewrite Hp, Ep|done]. unfold due_sorted.
  apply (StronglySorted_unique_strong v_le); [|done|apply (StronglySorted_merge_sort _)|].
  - intros x y _ _. apply v_le_antisym.
  - rewrite merge_sort_Permutation, Hp, Ef. done.
Qed.

Section runs.
Context {MC : MockClock}.

Lemma advance_time_spec w d :
  advance_time w d =
  match duration_checked_add (iw_now (ww_inner w)) d with
  | None => None
  | Some now => Some ({| ww_inner := (get_expired {| iw_now := now; iw_pending := iw_pending (ww_inner w) |}).1;
                         ww_clock := mock_advance (ww_clock w) d |},
                      due_sorted now (iw_pending (ww_inner w)))
  end.
Proof.
  unfold advance_time. destruct (duration_checked_add _ d) as [now|]; [|done]. cbn.
  pose proof (get_expired_spec {| iw_now := now; iw_pending := iw_pending (ww_inner w) |}) as (Hf & _ & _).
  destruct (get_expired _) as [inner fired]. cbn in *. by subst.
Qed.

(** A run: what the providers and the driver do, with what each advance
    returned. *)
Inductive VOp : Type := VWakeup (p : WakeupProvider) (d : N) (convo_id : string) | VAdvance (d : N).

Record VHistory := { vh_registered : list VRecord; vh_fired : list (N * list VRecord) }.
Definition vh_new : VHistory := {| vh_registered := []; vh_fired := [] |}.

Definition v_step (s : WakeupWorld * VHistory) (o : VOp) : option (WakeupWorld * VHistory) :=
  let '(w, h) := s in
  match o with
  | VWakeup p d c =>
      w' ← provider_wakeup_in w p d c;
      Some (w', {| vh_registered := vh_registered h ++ take 1 (iw_pending (ww_inner w'));
                   vh_fired := vh_fired h |})
  | VAdvance d =>
      '(w', fired) ← advance_time w d;
      Some (w', {| vh_registered := vh_registered h;
                   vh_fired := vh_fired h ++ [(iw_now (ww_inner w'), fired)] |})
  end.

Definition v_run (os : list VOp) : option (WakeupWorld * VHistory) :=
  foldl (λ s o, s ≫= λ s, v_step s o) (Some (world_new, vh_new)) os.

Definition all_fired (h : VHistory) : list VRecord := concat (vh_fired h).*2.

(** The state a run keeps: nothing lost or duplicated; what is pending is at
    or after now and what fired is at or before it; the firings are in order
    of expiry; and each was returned by an advance that had reached it. *)
Record v_ok (w : WakeupWorld) (h : VHistory) : Prop := {
  v_bag : vh_registered h ≡ₚ all_fired h ++ iw_pending (ww_inner w);
  v_ahead : Forall (λ r, iw_now (ww_inner w) ≤ v_expiry r)%N (iw_pending (ww_inner w));
  v_behind : Forall (due (iw_now (ww_inner w))) (all_fired h);
  v_sorted : StronglySorted N.le (v_expiry <$> all_fired h);
  v_timely : Forall (λ b, Forall (due b.1) b.2) (vh_fired h);
}.

Lemma sorted_app_N (l k : list N) (m : N) :
  StronglySorted N.le l → StronglySorted N.le k →
  Forall (λ x, x ≤ m)%N l → Forall (λ x, m ≤ x)%N k → StronglySorted N.le (l ++ k).
Proof.
  intros Hl Hk Fl Fk. induction Hl as [|x l Hl IH Hx]; [done|]. cbn.
  apply Forall_cons in Fl as [Hm Fl]. constructor; [auto|]. apply Forall_app. split; [done|].
  eapply Forall_impl; [exact Fk|]. cbn. lia.
Qed.

Lemma sorted_expiry l : StronglySorted v_le l → StronglySorted N.le (v_expiry <$> l).
Proof.
  induction 1 as [|x l _ IH Hx]; [constructor|]. cbn. constructor; [done|].
  apply Forall_fmap. eapply Forall_impl; [exact Hx|]. intros r. apply v_le_expiry.
Qed.

Lemma due_sorted_due now l : Forall (due now) (due_sorted now l).
Proof.
  unfold due_sorted. rewrite merge_sort_Permutation. apply Forall_forall.
  by intros r [? _]%list_elem_of_filter.
Qed.

Lemma v_step_wakeup w h p d c w' h' :
  v_ok w h → v_step (w, h) (VWakeup p d c) = Some (w', h') → v_ok w' h'.
Proof.
  intros [Hb Ha Hd Hs Ht]. cbn. unfold provider_wakeup_in, register_wakeup, duration_checked_add.
  destruct (N.leb_spec (iw_now (ww_inner w) + d) DURATION_MAX) as [Hle|]; [|done].
  cbn. rewrite take_0. intros [= <- <-]. split; cbn; [|constructor; [cbn; lia|done]|done..].
  unfold all_fired in *. cbn. rewrite Hb. solve_Permutation.
Qed.

Lemma v_step_advance w h d w' h' :
  v_ok w h → v_step (w, h) (VAdvance d) = Some (w', h') → v_ok w' h'.
Proof.
  intros [Hb Ha Hd Hs Ht]. unfold v_step. rewrite advance_time_spec. unfold duration_checked_add.
  destruct (N.leb_spec (iw_now (ww_inner w) + d) DURATION_MAX) as [Hle|]; [|done].
  set (now := (iw_now (ww_inner w) + d)%N). set (s := {| iw_now := now; iw_pending := _ |}).
  destruct (get_expired_spec s) as (_ & Hp & Hnow). cbn [mbind option_bind]. intros [= <- <-].
  assert (all_fired {| vh_registered := vh_registered h;
    vh_fired := vh_fired h ++ [(iw_now (get_expired s).1, due_sorted now (iw_pending (ww_inner w)))] |}
    = all_fired h ++ due_sorted now (iw_pending (ww_inner w))) as Ef.
  { unfold all_fired. cbn [vh_fired]. rewrite fmap_app, concat_app. cbn. by rewrite app_nil_r. }
  split; rewrite ?Ef; cbn [ww_inner vh_registered vh_fired]; rewrite ?Hnow; cbn [iw_now iw_pending s].
  - rewrite Hb, Hp. rewrite <- app_assoc. apply Permutation_app_head. unfold due_sorted.
    rewrite merge_sort_Permutation. cbn [iw_now iw_pending s].
    symmetry. apply (filter_app_complement (due now)).
  - rewrite Hp. apply Forall_forall. intros r [Hr _]%list_elem_of_filter. unfold due in Hr.
    cbn [iw_now s] in Hr. lia.
  - apply Forall_app. split; [|apply due_sorted_due]. eapply Forall_impl; [exact Hd|].
    intros r. unfold due. lia.
  - rewrite fmap_app. apply (sorted_app_N _ _ (iw_now (ww_inner w))); [done| | |].
    + apply sorted_expiry, (StronglySorted_merge_sort _).
    + by apply Forall_fmap.
    + apply Forall_fmap. unfold due_sorted. rewrite merge_sort_Permutation. apply Forall_forall.
      intros r [_ Hr]%list_elem_of_filter. rewrite Forall_forall in Ha. by apply Ha.
  - apply Forall_app. split; [done|]. constructor; [|done]. cbn. apply due_sorted_due.
Qed.

Lemma v_run_ok os w h : v_run os = Some (w, h) → v_ok w h.
Proof.
  revert w h. unfold v_run. induction os as [|o os IH] using rev_ind; intros w h.
  - intros [= <- <-]. split; repeat constructor.
  - rewrite foldl_snoc. destruct (foldl _ _ os) as [[w0 h0]|]; [|done]. cbn [mbind option_bind].
    specialize (IH _ _ eq_refl). destruct o; [by apply v_step_wakeup|by apply v_step_advance].
Qed.

(** The conversations' clock and the timers move together: over any run the
    clock has advanced by exactly the service's time. *)
Theorem clocks_move_together {MCL : MockClockLaws MC} os w h system :
  v_run os = Some (w, h) →
  clock_now system (world_clock w) = (mock_now mock_new + iw_now (ww_inner w))%N.
Proof.
  revert w h. unfold v_run. induction os as [|o os IH] using rev_ind; intros w h.
  - intros [= <- <-]. cbn. lia.
  - rewrite foldl_snoc. destruct (foldl _ _ os) as [[w0 h0]|]; [|done]. cbn [mbind option_bind].
    specialize (IH _ _ eq_refl). cbn in IH. destruct o as [p d c|d]; unfold v_step.
    + unfold provider_wakeup_in, register_wakeup, duration_checked_add. destruct (_ <=? _)%N; [|done].
      by intros [= <- <-].
    + rewrite advance_time_spec. unfold duration_checked_add. destruct (_ <=? _)%N; [|done].
      cbn [mbind option_bind]. intros [= <- <-]. cbn [clock_now world_clock ww_clock ww_inner].
      rewrite mock_now_advance, IH, (proj2 (proj2 (get_expired_spec _))). cbn [iw_now]. lia.
Qed.

(** C30. Advancing virtual time is exact: over any run of registrations by any
    clients and of advances, every record registered has either been returned
    by exactly one advance or is still pending, none fires before its expiry
    and none that is overdue stays behind an advance, the returned records
    are in order of expiry, and the next advance returns precisely the
    pending records due by then, ordered by expiry, client and conversation. *)
Theorem virtual_time_exact os w h d :
  v_run os = Some (w, h) →
  vh_registered h ≡ₚ all_fired h ++ iw_pending (ww_inner w) ∧
  Forall (λ b, Forall (due b.1) b.2) (vh_fired h) ∧
  Forall (λ r, iw_now (ww_inner w) ≤ v_expiry r)%N (iw_pending (ww_inner w)) ∧
  StronglySorted N.le (v_expiry <$> all_fired h) ∧
  ∀ w' fired, advance_time w d = Some (w', fired) →
    fired = due_sorted (iw_now (ww_inner w) + d) (iw_pending (ww_inner w)) ∧
    iw_pending (ww_inner w') ≡ₚ
      filter (λ r, ¬ due (iw_now (ww_inner w) + d) r) (iw_pending (ww_inner w)) ∧
    ww_clock w' = mock_advance (ww_clock w) d.
Proof.
  intros Hrun%v_run_ok. destruct Hrun as [Hb Ha _ Hs Ht]. split_and!; [done..|].
  intros w' fired. rewrite advance_time_spec. unfold duration_checked_add.
  destruct (N.leb_spec (iw_now (ww_inner w) + d) DURATION_MAX) as [Hle|]; [|done].
  intros [= <- <-]. split_and!; [done| |done].
  apply (get_expired_spec {| iw_now := (iw_now (ww_inner w) + d)%N; iw_pending := iw_pending (ww_inner w) |}).
Qed.
End runs.

(** ** Witness: the run of [test_wakeup_service] *)

#[export] Instance mock_nanos : MockClock := {|
  mock_clock := N; mock_new := 0%N; mock_now t := t; mock_advance := N.add |}.
#[export] Instance mock_nanos_laws : MockClockLaws mock_nanos.
Proof. by constructor. Qed.

Definition secs (n : N) : N := n * 1000000000.
Definition service_run : list VOp :=
  [VWakeup (new_provider 1) (secs 2) "convo1"; VWakeup (new_provider 1) (secs 4) "convo1";
   VWakeup (new_provider 2) (secs 5) "convo1"; VWakeup (new_provider 2) (secs 4) "convo1";
   VAdvance (secs 2); VAdvance (secs 2); VAdvance (secs 1); VAdvance (secs 1)].

Example service_run_batches :
  option_map (λ s, map (λ b, map v_client b.2) (vh_fired s.2)) (v_run service_run) = Some [[1]; [1; 2]; [2]; []].
Proof. vm_compute. reflexivity. Qed.

(** Records due at one instant come by client, whichever was registered first. *)
Example ties_by_client :
  option_map (λ s, map (λ b, map v_client b.2) (vh_fired s.2))
    (v_run [VWakeup (new_provider 2) (secs 1) "a"; VWakeup (new_provider 1) (secs 1) "a"; VAdvance (secs 1)])
  = Some [[1; 2]].
Proof. vm_compute. reflexivity. Qed.

Lemma clocks_move_together_witness :
  ∃ w h, v_run service_run = Some (w, h) ∧ clock_now 0 (world_clock w) = secs 6.
Proof.
  destruct (v_run service_run) as [[w h]|] eqn:E; [|vm_compute in E; discriminate E].
  exists w, h. split; [reflexivity|]. rewrite (clocks_move_together service_run w h 0 E).
  vm_compute in E. injection E as <- <-. reflexivity.
Defined.

Lemma virtual_time_exact_witness :
  StronglySorted N.le (v_expiry <$> default [] (option_map (λ s, all_fired s.2) (v_run service_run))).
Proof.
  assert (∃ w h, v_run service_run = Some (w, h)) as (w & h & E).
  { destruct (v_run service_run) as [[w h]|] eqn:E; [eauto|]. vm_compute in E. discriminate. }
  rewrite E. exact (proj1 (proj2 (proj2 (proj2 (virtual_time_exact service_run w h 0 E))))).
Defined.
