(* ===== verification/MessageTypes.v ===== *)
(** * Content envelopes ([extensions/message-types/src/lib.rs])

    The self-describing format of message bodies. CBOR is [ciborium],
    third-party: an encoder and a decoder for the envelope that are inverse.
    The theorems: decoding is total and right on every branch, text and
    replies round trip, and no legacy text body is taken for an envelope. *)

From Stdlib Require Import Strings.Byte Strings.String.
From stdpp Require Import base gmap strings numbers pretty list.
From S2P Require Import Prelude Utf8.

Definition TEXT : string := "text/plain".
Definition MAGIC : list byte := [xc7; x7e].
Definition VERSION : byte := x01.
Definition HEADER_LEN : nat := 3.

Record ContentId := Content_id { content_id_str : string }.

Module MessageContent.
Inductive t : Type :=
| Text (body : string)
| Unsupported (content_type : string) (fallback : option string)
| UnsupportedFormat (version : byte)
| Malformed
| Unrecognized.

(** [Display]. *)
Definition to_string (c : t) : string :=
  match c with
  | Text body => body
  | Unsupported content_type fallback =>
      match fallback with
      | Some line => line
      | None => ("[unsupported content: " ++ content_type ++ "]")%string
      end
  | UnsupportedFormat version =>
      ("[message needs a newer build: content format v" ++ pretty (Byte.to_N version) ++ "]")%string
  | Malformed => "[unreadable content]"
  | Unrecognized => "[unrecognized content]"
  end.
End MessageContent.

Record Message := { msg_content : MessageContent.t; msg_in_reply_to : option ContentId }.

Record Envelope := {
  env_content_type : string;
  env_content : list byte;
  env_in_reply_to : option ContentId;
  env_fallback : option string;
}.

(** [ciborium::into_writer] and [from_reader] for [Envelope]. *)
Class Cbor := {
  cbor_write : Envelope → result string (list byte);
  cbor_read : list byte → option Envelope;
}.
Class CborLaws (C : Cbor) := {
  cbor_read_write e b : cbor_write e = Ok b → cbor_read b = Some e;
}.

Section message_types.
Context {C : Cbor}.

Definition envelope_text (body : string) (in_reply_to : option ContentId) : Envelope :=
  {| env_content_type := TEXT; env_content := str_bytes body; env_in_reply_to := in_reply_to;
     env_fallback := None |}.

(** The error is [Error::Encode]'s message. *)
Definition encode_envelope (e : Envelope) : result string (list byte) :=
  body ← cbor_write e; Ok (MAGIC ++ [VERSION] ++ body).

Definition encode_text (body : string) : result string (list byte) :=
  encode_envelope (envelope_text body None).

Definition encode_reply (in_reply_to : ContentId) (body : string) : result string (list byte) :=
  encode_envelope (envelope_text body (Some in_reply_to)).

Definition split_header (bytes : list byte) : option (byte * list byte) :=
  if (length bytes <? HEADER_LEN) then None
  else
    let header := take HEADER_LEN bytes in
    if decide (take (length MAGIC) header = MAGIC)
    then Some (header !!! length MAGIC, drop HEADER_LEN bytes)
    else None.

Definition decode_legacy (bytes : list byte) : MessageContent.t :=
  match from_utf8 bytes with
  | Some text => MessageContent.Text text
  | None => MessageContent.Unrecognized
  end.

Definition decode_message (bytes : list byte) : Message :=
  match split_header bytes with
  | None => {| msg_content := decode_legacy bytes; msg_in_reply_to := None |}
  | Some (version, body) =>
      match N.compare (Byte.to_N version) (Byte.to_N VERSION) with
      | Gt => {| msg_content := MessageContent.UnsupportedFormat version; msg_in_reply_to := None |}
      | Lt => {| msg_content := MessageContent.Malformed; msg_in_reply_to := None |}
      | Eq =>
          match cbor_read body with
          | None => {| msg_content := MessageContent.Malformed; msg_in_reply_to := None |}
          | Some e =>
              {| msg_content :=
                   if decide (env_content_type e = TEXT)
                   then MessageContent.Text (from_utf8_lossy (env_content e))
                   else MessageContent.Unsupported (env_content_type e) (env_fallback e);
                 msg_in_reply_to := env_in_reply_to e |}
          end
      end
  end.

Lemma split_header_Some bytes v body :
  split_header bytes = Some (v, body) ↔ bytes = MAGIC ++ v :: body.
Proof.
  unfold split_header, HEADER_LEN, MAGIC. split.
  - destruct (Nat.ltb_spec (length bytes) 3); [done|].
    destruct bytes as [|a [|b [|c bytes]]]; cbn in *; try lia.
    case_decide as E; [|done]. intros [= <- <-]. rewrite drop_0. congruence.
  - intros ->. cbn. by rewrite drop_0.
Qed.

(** Our marker cannot start valid UTF-8: [0xC7] wants a continuation byte. *)
Lemma magic_not_utf8 rest : utf8_valid (MAGIC ++ rest) = false.
Proof. done. Qed.

Lemma split_header_utf8 bytes : utf8_valid bytes = true → split_header bytes = None.
Proof.
  intros Hv. destruct (split_header bytes) as [[v body]|] eqn:Hs; [|done].
  apply split_header_Some in Hs as ->. by rewrite magic_not_utf8 in Hv.
Qed.

Lemma decode_encode_envelope {CL : CborLaws C} e b :
  encode_envelope e = Ok b →
  decode_message b =
  {| msg_content :=
       if decide (env_content_type e = TEXT)
       then MessageContent.Text (from_utf8_lossy (env_content e))
       else MessageContent.Unsupported (env_content_type e) (env_fallback e);
     msg_in_reply_to := env_in_reply_to e |}.
Proof.
  unfold encode_envelope. intros (body & Hb & E)%bind_Ok. unfold decode_message.
  change (MAGIC ++ [VERSION] ++ body) with (MAGIC ++ VERSION :: body) in E.
  assert (b = MAGIC ++ VERSION :: body) as -> by congruence.
  rewrite (proj2 (split_header_Some _ VERSION body) eq_refl).
  rewrite N.compare_refl. by rewrite (cbor_read_write _ _ Hb).
Qed.

Lemma lossy_text body :
  utf8_valid (str_bytes body) = true → from_utf8_lossy (str_bytes body) = body.
Proof.
  intros Hv. unfold from_utf8_lossy. rewrite lossy_valid by done.
  apply string_of_list_byte_of_string.
Qed.

(** ** Properties *)

(** Text and replies round trip: what is encoded decodes to that very
    text and reply target. *)
Theorem message_roundtrip {CL : CborLaws C} body target b :
  utf8_valid (str_bytes body) = true →
  (encode_text body = Ok b →
     decode_message b = {| msg_content := MessageContent.Text body; msg_in_reply_to := None |}) ∧
  (encode_reply target body = Ok b →
     decode_message b =
       {| msg_content := MessageContent.Text body; msg_in_reply_to := Some target |}).
Proof.
  intros Hv. split; intros H; rewrite (decode_encode_envelope _ _ H);
    unfold envelope_text; cbn [env_content_type env_content env_in_reply_to env_fallback];
    by rewrite decide_True, lossy_text by done.
Qed.

(** Legacy text is never mistaken for an envelope: every valid UTF-8 body
    decodes to exactly itself, whatever it contains, while a framed body is
    never valid UTF-8. *)
Theorem legacy_text_unambiguous bytes e b :
  (utf8_valid bytes = true →
     decode_message bytes =
       {| msg_content := MessageContent.Text (bytes_str bytes); msg_in_reply_to := None |}) ∧
  (encode_envelope e = Ok b → utf8_valid b = false).
Proof.
  split.
  - intros Hv. unfold decode_message. rewrite split_header_utf8 by done.
    unfold decode_legacy, from_utf8. by rewrite Hv.
  - unfold encode_envelope. intros (body & _ & [= <-])%bind_Ok. apply magic_not_utf8.
Qed.
End message_types.

(** ** Witnesses *)

(** A stand-in codec for text envelopes: a flag, the reply target with a
    one-byte length, the content. Anything else is refused. *)
Definition cbor_ref_write (e : Envelope) : result string (list byte) :=
  if decide (env_content_type e = TEXT ∧ env_fallback e = None) then
    match env_in_reply_to e with
    | None => Ok (x00 :: env_content e)
    | Some id =>
        let l := str_bytes (content_id_str id) in
        if (length l <? 256) then Ok (x01 :: u8 (N.of_nat (length l)) :: l ++ env_content e)
        else Err "unsupported"%string
    end
  else Err "unsupported"%string.

Definition cbor_ref_read (b : list byte) : option Envelope :=
  let text c r := {| env_content_type := TEXT; env_content := c; env_in_reply_to := r;
                     env_fallback := None |} in
  match b with
  | x00 :: c => Some (text c None)
  | x01 :: n :: c =>
      let n := N.to_nat (Byte.to_N n) in
      Some (text (drop n c) (Some (Content_id (bytes_str (take n c)))))
  | _ => None
  end.

Definition cbor_ref : Cbor := {| cbor_write := cbor_ref_write; cbor_read := cbor_ref_read |}.

Lemma cbor_ref_laws : CborLaws cbor_ref.
Proof.
  split. intros [ty c r f] b. change (cbor_ref_write {| env_content_type := ty; env_content := c;
    env_in_reply_to := r; env_fallback := f |} = Ok b → cbor_ref_read b = Some
    {| env_content_type := ty; env_content := c; env_in_reply_to := r; env_fallback := f |}).
  unfold cbor_ref_write. cbn [env_content_type env_content env_in_reply_to env_fallback].
  case_decide as H; [|done]. destruct H as [-> ->]. destruct r as [[id]|].
  - cbn [content_id_str]. generalize (string_of_list_byte_of_string id) as Hid.
    generalize (str_bytes id) as l. intros l Hid.
    destruct (Nat.ltb_spec (length l) 256) as [Hl|]; [|done].
    intros E. assert (b = x01 :: u8 (N.of_nat (length l)) :: l ++ c) as -> by congruence.
    unfold cbor_ref_read. rewrite to_N_u8, N.mod_small, Nat2N.id by lia.
    rewrite drop_app_length, take_app_length, Hid. done.
  - intros E. assert (b = x00 :: c) as -> by congruence. done.
Qed.

Lemma message_roundtrip_witness :
  ∃ b, encode_reply (C := cbor_ref) (Content_id "m1") "hi" = Ok b ∧
    decode_message (C := cbor_ref) b =
      {| msg_content := MessageContent.Text "hi"; msg_in_reply_to := Some (Content_id "m1") |}.
Proof.
  eexists. split; [reflexivity|].
  apply (message_roundtrip (C := cbor_ref) (CL := cbor_ref_laws) "hi" (Content_id "m1"));
    reflexivity.
Defined.
