(* ===== verification/Installation.v ===== *)
(** * The installation a client runs as ([crates/generic-chat/src/installation.rs],
      [members.rs])

    A signing key paired with its account, recorded once in the client's
    store and read back at the next start. The theorems: the record round
    trips and is canonical, a stored installation is always the one that is
    run and is never replaced, and the self-check refuses every verdict other
    than [Valid]. *)

From Stdlib Require Import Strings.Byte Strings.String.
From stdpp Require Import base gmap strings numbers list.
From S2P Require Import Prelude Utf8 Hex Ed25519 Context Addr Identity Storage.

Module ClientError.
Inductive t : Type :=
| Chat (e : string)
| Account (e : string)
| Storage (e : StorageError.t)
| Transport (e : string)
| InvalidAccountAddress (a : string)
| NotEndorsed (why : string)
| MalformedInstallationRecord (what : string).
End ClientError.

Module Origin.
Inductive t : Type := Minted | Stored.
End Origin.

Definition RECORD_V1 : byte := x01.
Definition SEED_LEN : nat := 32.
Definition ACCOUNT_LEN : nat := 32.

(** [IdentityStore]. *)
Class IdentityStore (S : Type) := {
  is_load : S → result StorageError.t (option StoredInstallation);
  is_save : S → StoredInstallation → S * result StorageError.t ();
}.

(** Insert-only: a save is read back, and a well-formed store that holds a
    record refuses a second. *)
Class IdentityStoreLaws (S : Type) {I : IdentityStore S} := {
  is_ok : S → Prop;
  is_save_ok s r s' e : is_ok s → is_save s r = (s', e) → is_ok s';
  is_save_load s r s' : is_load s = Ok None → is_save s r = (s', Ok ()) →
    is_load s' = Ok (Some r);
  is_save_refused s r o : is_ok s → is_load s = Ok (Some o) →
    ∃ e, is_save s r = (s, Err e);
}.

#[export] Instance mem_identity_store : IdentityStore MemStore := {|
  is_load m := Ok (load_installation m);
  is_save := save_installation;
|}.

#[export, refine] Instance mem_identity_laws : IdentityStoreLaws MemStore := {| is_ok _ := True |}.
Proof.
  - done.
  - cbn. unfold load_installation, save_installation. intros s r s' [= ->] [= <-]. done.
  - cbn. unfold load_installation, save_installation. intros s r o _ [= ->]. eauto.
Defined.

Section installation.
Context {HX : Hex} {D : Dalek}.

Record Installation := {
  inst_signing_key : Ed25519SigningKey;
  inst_signer : SignerKey;
  inst_account : AccountAddr;
  inst_origin : Origin.t;
}.

(** [PendingInstallation]: the key awaiting its endorsement. *)
Record PendingInstallation := {
  pend_signing_key : Ed25519SigningKey;
  pend_verifying_key : Ed25519VerifyingKey;
}.

(** [generate], for the key drawn. *)
Definition pending_generate (sk : Ed25519SigningKey) : PendingInstallation :=
  {| pend_signing_key := sk; pend_verifying_key := verifying_key sk |}.

Definition endorsement_request (p : PendingInstallation) : list byte :=
  key_bytes (pend_verifying_key p).

Definition complete (p : PendingInstallation) (account : AccountAddr) : Installation :=
  {| inst_signing_key := pend_signing_key p;
     inst_signer := signer_from_key (pend_verifying_key p);
     inst_account := account; inst_origin := Origin.Minted |}.

Definition installation_make (sk : Ed25519SigningKey) (account : AccountAddr) : Installation :=
  {| inst_signing_key := sk; inst_signer := signer_from_key (verifying_key sk);
     inst_account := account; inst_origin := Origin.Stored |}.

Definition installation_encode (i : Installation) : list byte :=
  RECORD_V1 :: seed (inst_signing_key i) ++ addr_to_bytes (inst_account i).

Definition malformed_record (what : string) : ClientError.t :=
  ClientError.MalformedInstallationRecord what.

Definition installation_decode (bytes : list byte) : result ClientError.t Installation :=
  let bad := malformed_record
    "not a record this build writes; the store was written by another version" in
  match bytes with
  | v :: rest =>
      if decide (v = RECORD_V1) then
        if negb (length rest =? SEED_LEN + ACCOUNT_LEN) then
          Err (malformed_record "wrong length for a version 1 record")
        else
          let signing_key := from_seed (take SEED_LEN rest) in
          account ← map_err
            (λ _, malformed_record "account: not a valid account address")
            (addr_try_from (drop SEED_LEN rest));
          Ok {| inst_signing_key := signing_key;
                inst_signer := signer_from_key (verifying_key signing_key);
                inst_account := account; inst_origin := Origin.Stored |}
      else Err bad
  | [] => Err bad
  end.

(** [account_id] and [account_of] ([members.rs]). *)
Definition account_id (a : AccountAddr) : ParticipantId := Participant (addr_to_bytes a).
Definition account_of (p : ParticipantId) : result ClientError.t AccountAddr :=
  map_err (λ _, ClientError.InvalidAccountAddress (participant_to_string p))
    (addr_try_from (participant_bytes p)).

(** [members::Signer] and its conversion from the core's. *)
Record MemberSigner := { ms_signer_key : SignerKey; ms_account : AccountAddr }.
Definition member_try_from (s : Signer) : result ClientError.t MemberSigner :=
  account ← account_of (participant_id s);
  Ok {| ms_account := account; ms_signer_key := signer s |}.

(** [IdentityProvider::participant_id]. *)
Definition inst_participant_id (i : Installation) : ParticipantId := account_id (inst_account i).

Definition verdict_debug (r : AuthResult.t) : string :=
  match r with
  | AuthResult.Valid => "Valid" | AuthResult.Revoked => "Revoked" | AuthResult.Invalid => "Invalid"
  end.

(** [validate]; [show] displays the service's error. *)
Definition installation_validate {E : Type} {A : AuthService E} (show : E → string)
    (i : Installation) : result ClientError.t () :=
  match validate_signer (inst_signer i) (inst_participant_id i) with
  | Ok AuthResult.Valid => Ok ()
  | Ok verdict => Err (ClientError.NotEndorsed (verdict_debug verdict))
  | Err e =>
      match inst_origin i with
      | Origin.Stored => Ok ()
      | Origin.Minted =>
          Err (ClientError.NotEndorsed ("auth service could not decide: " ++ show e)%string)
      end
  end.

Section store.
Context {S : Type} {I : IdentityStore S}.

Definition installation_load (s : S) : result ClientError.t (option Installation) :=
  record ← map_err ClientError.Storage (is_load s);
  match record with
  | None => Ok None
  | Some r => i ← installation_decode (stored_bytes r); Ok (Some i)
  end.

Definition installation_save (s : S) (i : Installation) : S * result ClientError.t () :=
  let '(s', r) := is_save s (Storage.Stored (installation_encode i)) in
  (s', map_err ClientError.Storage r).

(** [mint] is a call: it runs where it is applied, on the store. *)
Definition load_or_create (s : S) (mint : () → result ClientError.t Installation)
  : S * result ClientError.t Installation :=
  match installation_load s with
  | Err e => (s, Err e)
  | Ok (Some i) => (s, Ok i)
  | Ok None =>
      match mint () with
      | Err e => (s, Err e)
      | Ok i =>
          let '(s', r) := installation_save s i in
          (s', match r with Ok () => Ok i | Err e => Err e end)
      end
  end.
End store.
End installation.

Section lemmas.
Context {HX : Hex} {D : Dalek} {DL : DalekLaws D}.

(** What a record brings back: the same key and account, read from a store. *)
Definition stored_copy (i : Installation) : Installation :=
  installation_make (inst_signing_key i) (inst_account i).

Lemma length_seed sk : length (seed sk) = SEED_LEN.
Proof. apply sk_len. Qed.

Lemma decode_encode_installation i :
  addr_wf (inst_account i) →
  installation_decode (installation_encode i) = Ok (stored_copy i).
Proof.
  intros Hw. unfold installation_decode, installation_encode. rewrite decide_True by done.
  assert (length (addr_to_bytes (inst_account i)) = ACCOUNT_LEN) as Ha by apply length_key_bytes.
  rewrite length_app, length_seed, Ha, Nat.eqb_refl. cbn [negb].
  rewrite <- (length_seed (inst_signing_key i)), take_app_length, drop_app_length.
  rewrite (proj2 (addr_try_from_Ok _ (inst_account i))) by done.
  cbn. by rewrite from_seed_seed.
Qed.

Lemma encode_decode_installation b i :
  installation_decode b = Ok i →
  installation_encode i = b ∧ i = stored_copy i ∧ addr_wf (inst_account i).
Proof.
  unfold installation_decode. destruct b as [|v rest]; [done|]. case_decide as Hv; [|done].
  destruct (length rest =? SEED_LEN + ACCOUNT_LEN) eqn:Hl; [|done]. apply Nat.eqb_eq in Hl.
  cbn [negb]. intros (a & [Hw Ha]%map_err_Ok%addr_try_from_Ok & [= <-])%bind_Ok.
  unfold installation_encode, stored_copy, installation_make; cbn [inst_signing_key inst_account].
  split_and!; [|done|done]. subst v. f_equal. rewrite Ha.
  assert (seed (from_seed (take SEED_LEN rest)) = take SEED_LEN rest) as ->.
  { apply sk_to_from. rewrite length_take, Hl. unfold SEED_LEN, ACCOUNT_LEN, KEY_LEN. lia. }
  apply take_drop.
Qed.
End lemmas.

Section properties.
Context {HX : Hex} {D : Dalek} {DL : DalekLaws D}.

(** The installation record is a faithful, canonical copy: reading back
    what was written gives the same signing key and account, and bytes that
    read as an installation are exactly what writing it produces. *)
Theorem installation_record_roundtrip i b j :
  addr_wf (inst_account i) →
  installation_decode (installation_encode i) = Ok (stored_copy i) ∧
  inst_signing_key (stored_copy i) = inst_signing_key i ∧
  (installation_decode b = Ok j → installation_encode j = b).
Proof.
  intros Hw. split_and!; [by apply decode_encode_installation|done|].
  by intros [? _]%encode_decode_installation.
Qed.

Context {S : Type} {I : IdentityStore S} {IL : IdentityStoreLaws S}.

(** One store, one installation: an installation that is stored is the
    one returned, whatever minting would do; a record that cannot be read is
    an error and is left alone; a fresh store records what was minted, and
    every later start runs as that same key and account. *)
Theorem one_store_one_installation s mint :
  match is_load s with
  | Err e => load_or_create s mint = (s, Err (ClientError.Storage e))
  | Ok (Some r) => load_or_create s mint = (s, installation_decode (stored_bytes r))
  | Ok None =>
      ∀ i s', load_or_create s mint = (s', Ok i) → addr_wf (inst_account i) →
        mint () = Ok i ∧ ∀ mint', load_or_create s' mint' = (s', Ok (stored_copy i))
  end.
Proof.
  destruct (is_load s) as [[r|]|e] eqn:Hl; unfold load_or_create, installation_load; rewrite Hl.
  - cbn. by destruct (installation_decode (stored_bytes r)).
  - cbn. intros i s' Hc Hw. destruct (mint ()) as [i'|]; [|done].
    unfold installation_save in Hc.
    destruct (is_save s (Storage.Stored (installation_encode i'))) as [s1 [[]|e]] eqn:Hs; [|done].
    injection Hc as -> ->. split; [done|]. intros mint'.
    rewrite (is_save_load _ _ _ Hl Hs). cbn [mbind result_bind map_err stored_bytes].
    by rewrite decode_encode_installation.
  - done.
Qed.
End properties.

Section validate.
Context {HX : Hex} {D : Dalek} {E : Type} {A : AuthService E}.

(** A verdict is always fatal; silence is, only for a fresh installation. *)
Lemma installation_validate_Ok show i :
  installation_validate show i = Ok () ↔
  validate_signer (inst_signer i) (inst_participant_id i) = Ok AuthResult.Valid ∨
  (inst_origin i = Origin.Stored ∧
   ∃ e, validate_signer (inst_signer i) (inst_participant_id i) = Err e).
Proof.
  unfold installation_validate.
  destruct (validate_signer _ _) as [[]|e]; [naive_solver..|].
  destruct (inst_origin i); naive_solver.
Qed.
End validate.

(** ** Witnesses *)

Definition demo_inst_key : Ed25519SigningKey (D := dalek_ref) :=
  from_seed (D := dalek_ref) (replicate 32 x05).
Definition demo_inst : Installation (D := dalek_ref) :=
  installation_make demo_inst_key (addr_from_key (verifying_key demo_inst_key)).

Lemma installation_record_roundtrip_witness :
  installation_decode (D := dalek_ref) (installation_encode demo_inst) = Ok (stored_copy demo_inst).
Proof.
  apply (installation_record_roundtrip (D := dalek_ref) (DL := dalek_ref_laws) demo_inst [] demo_inst).
  apply (addr_from_key_wf (DL := dalek_ref_laws)).
Defined.

Lemma one_store_one_installation_witness :
  load_or_create (D := dalek_ref) (load_or_create memstore_new (λ _, Ok demo_inst)).1
    (λ _, Err (malformed_record "not minted again")) =
    ((load_or_create memstore_new (λ _, Ok demo_inst)).1, Ok (stored_copy demo_inst)).
Proof.
  pose proof (one_store_one_installation (D := dalek_ref) (DL := dalek_ref_laws)
    memstore_new (λ _, Ok demo_inst)) as H. cbn in H.
  apply (H demo_inst); [reflexivity|].
  apply (addr_from_key_wf (DL := dalek_ref_laws)).
Defined.
