(* ===== verification/Delivery.v ===== *)
(** * Delivery ([core/conversations/src/types.rs], [service_traits.rs],
      [extensions/components/src/delivery/local_broadcaster.rs],
      [crates/generic-chat/src/delivery_in_process.rs])

    The transport interface and the two in-process transports: a broadcaster
    whose consumers share one queue and each hold a cursor, and a message bus
    that fans a payload out to the endpoints subscribed to its address. *)

From Stdlib Require Import Strings.Byte Strings.String.
From stdpp Require Import base gmap strings numbers list.
From S2P Require Import Prelude Utf8.

Record AddressedEnvelope := { delivery_address : string; env_data : list byte }.

(** [DeliveryService], with displayed errors. *)
Class DeliveryService (T : Type) := {
  ds_publish : T → AddressedEnvelope → T * result string ();
  ds_subscribe : T → string → T * result string ();
}.

(** Offering envelopes in order, up to the first that is refused. *)
Fixpoint publish_all {T : Type} {DSI : DeliveryService T} (es : list AddressedEnvelope) (d : T)
  : T * option string :=
  match es with
  | [] => (d, None)
  | e :: es => match ds_publish d e with
               | (d', Ok _) => publish_all es d'
               | (d', Err err) => (d', Some err)
               end
  end.

Lemma publish_all_app {T} {DSI : DeliveryService T} es es' (d : T) :
  publish_all (es ++ es') d =
    match publish_all es d with
    | (d', None) => publish_all es' d'
    | refused => refused
    end.
Proof.
  revert d. induction es as [|e es IH]; intros d; [done|]. cbn [publish_all app].
  by destruct (ds_publish d e) as [d' []].
Qed.

(** ** [LocalBroadcaster] *)

(** [DefaultHasher] over the payload: the standard library's keyed hash. *)
Class DefaultHasher := { hash64 : list byte → N }.

Record BroadcasterShared := { messages : list AddressedEnvelope; base_index : nat }.

(** One consumer; [shared] is the [Rc] all consumers of a network hold. *)
Record LocalBroadcaster := {
  cursor : nat;
  subscriptions : gset string;
  outbound_msgs : list N;
}.

Definition shared_read (s : BroadcasterShared) (cursor : nat) : option AddressedEnvelope :=
  messages s !! (cursor + base_index s).
Definition shared_tail (s : BroadcasterShared) : nat := length (messages s) + base_index s.

Definition shared_new : BroadcasterShared := {| messages := []; base_index := 0 |}.

(** [new_consumer], and [new] on a fresh queue. *)
Definition new_consumer (s : BroadcasterShared) : LocalBroadcaster :=
  {| cursor := shared_tail s; subscriptions := ∅; outbound_msgs := [] |}.

Section broadcaster.
Context {DH : DefaultHasher}.

Definition msg_id (m : AddressedEnvelope) : N := hash64 (env_data m).

Definition is_inbound (c : LocalBroadcaster) (m : AddressedEnvelope) : bool :=
  negb (bool_decide (msg_id m ∈ outbound_msgs c)).

(** Whether [poll] hands this message over. *)
Definition accepts (c : LocalBroadcaster) (m : AddressedEnvelope) : bool :=
  bool_decide (delivery_address m ∈ subscriptions c) && is_inbound c m.

Definition set_cursor (c : LocalBroadcaster) (n : nat) : LocalBroadcaster :=
  {| cursor := n; subscriptions := subscriptions c; outbound_msgs := outbound_msgs c |}.

(** The loop; each turn passes one message, so the queue's length is fuel
    enough ([poll_fuel]). *)
Fixpoint poll_loop (fuel : nat) (s : BroadcasterShared) (c : LocalBroadcaster)
  : LocalBroadcaster * option (list byte) :=
  match fuel with
  | O => (c, None)
  | S fuel =>
      let next := cursor c in
      match shared_read s next with
      | None => (c, None)
      | Some ae =>
          let c := set_cursor c (next + 1) in
          if accepts c ae then (c, Some (env_data ae)) else poll_loop fuel s c
      end
  end.

Definition poll (s : BroadcasterShared) (c : LocalBroadcaster)
  : LocalBroadcaster * option (list byte) := poll_loop (length (messages s) + 1) s c.

(** [publish] on a consumer: the shared queue and the consumer after it. *)
Definition broadcaster_publish (s : BroadcasterShared) (c : LocalBroadcaster)
    (e : AddressedEnvelope) : BroadcasterShared * LocalBroadcaster :=
  ({| messages := messages s ++ [e]; base_index := base_index s |},
   {| cursor := cursor c; subscriptions := subscriptions c;
      outbound_msgs := outbound_msgs c ++ [msg_id e] |}).

Definition broadcaster_subscribe (c : LocalBroadcaster) (a : string) : LocalBroadcaster :=
  {| cursor := cursor c; subscriptions := {[a]} ∪ subscriptions c;
     outbound_msgs := outbound_msgs c |}.

(** Polling until nothing is left. *)
Fixpoint drain (fuel : nat) (s : BroadcasterShared) (c : LocalBroadcaster)
  : LocalBroadcaster * list (list byte) :=
  match fuel with
  | O => (c, [])
  | S fuel =>
      match poll s c with
      | (c, None) => (c, [])
      | (c, Some d) => let '(c, ds) := drain fuel s c in (c, d :: ds)
      end
  end.

Lemma accepts_set_cursor c n m : accepts (set_cursor c n) m = accepts c m.
Proof. done. Qed.

(** More fuel changes nothing; the loop skips to the first accepted message. *)
Lemma poll_loop_spec fuel s c :
  base_index s = 0 → length (messages s) - cursor c < fuel →
  match position (accepts c) (drop (cursor c) (messages s)) with
  | Some n =>
      ∃ m, messages s !! (cursor c + n) = Some m ∧ accepts c m = true ∧
        poll_loop fuel s c = (set_cursor c (cursor c + n + 1), Some (env_data m))
  | None => poll_loop fuel s c = (set_cursor c (cursor c `max` length (messages s)), None)
  end.
Proof.
  intros Hb. revert c. induction fuel as [|fuel IH]; intros c Hf; [lia|]. cbn [poll_loop].
  unfold shared_read. rewrite Hb, Nat.add_0_r.
  destruct (messages s !! cursor c) as [m|] eqn:Hm.
  - rewrite (drop_S _ _ _ Hm). cbn [position]. rewrite accepts_set_cursor.
    pose proof (lookup_lt_Some _ _ _ Hm) as Hlt.
    destruct (accepts c m) eqn:Ha.
    + exists m. by rewrite !Nat.add_0_r.
    + specialize (IH (set_cursor c (cursor c + 1))). cbn [cursor set_cursor] in IH.
      rewrite Nat.add_1_r in *.
      assert (length (messages s) - S (cursor c) < fuel) as Hf' by lia. specialize (IH Hf').
      change (accepts (set_cursor c (S (cursor c)))) with (accepts c) in IH.
      destruct (position (accepts c) (drop (S (cursor c)) (messages s))) as [n|]; cbn.
      * destruct IH as (m' & Hm' & Ha' & ->). exists m'.
        replace (cursor c + S n) with (S (cursor c) + n) by lia. done.
      * rewrite IH. f_equal. unfold set_cursor; cbn. f_equal. lia.
  - apply lookup_ge_None in Hm. rewrite drop_ge by done. cbn. f_equal.
    destruct c as [n sub out]; cbn in *. unfold set_cursor; cbn. f_equal. lia.
Qed.

Lemma poll_spec s c :
  base_index s = 0 →
  match position (accepts c) (drop (cursor c) (messages s)) with
  | Some n =>
      ∃ m, messages s !! (cursor c + n) = Some m ∧ accepts c m = true ∧
        poll s c = (set_cursor c (cursor c + n + 1), Some (env_data m))
  | None => poll s c = (set_cursor c (cursor c `max` length (messages s)), None)
  end.
Proof. intros Hb. apply poll_loop_spec; [done|lia]. Qed.

Lemma filter_position {A} (f : A → bool) l n x :
  position f l = Some n → l !! n = Some x →
  filter (λ x, f x = true) l = x :: filter (λ x, f x = true) (drop (n + 1) l).
Proof.
  revert n. induction l as [|a l IH]; intros n; cbn [position]; [done|].
  destruct (f a) eqn:Ha.
  - intros [= <-] [= ->]. rewrite filter_cons_True by done. cbn. by rewrite drop_0.
  - intros (k & Hk & ->)%fmap_Some Hx. cbn in Hx. rewrite filter_cons_False by congruence.
    by apply IH.
Qed.

Lemma list_filter_iff' {A} (P Q : A → Prop) `{!∀ x, Decision (P x)} `{!∀ x, Decision (Q x)} (l : list A) :
  (∀ x, x ∈ l → P x ↔ Q x) → filter P l = filter Q l.
Proof.
  induction l as [|x l IH]; intros Hiff; [done|]. rewrite !filter_cons.
  rewrite IH by (intros; apply Hiff; by apply list_elem_of_further).
  pose proof (Hiff x (list_elem_of_here _ _)) as Hx.
  destruct (decide (P x)), (decide (Q x)); naive_solver.
Qed.

Lemma filter_position_None {A} (f : A → bool) l :
  position f l = None → filter (λ x, f x = true) l = [].
Proof.
  rewrite position_None. induction 1 as [|x l Hx _ IH]; [done|].
  by rewrite filter_cons_False by congruence.
Qed.

(** Draining hands over exactly the accepted messages past the cursor. *)
Lemma drain_spec fuel s c :
  base_index s = 0 → length (messages s) - cursor c < fuel →
  drain fuel s c =
  (set_cursor c (cursor c `max` length (messages s)),
   map env_data (filter (λ m, accepts c m = true) (drop (cursor c) (messages s)))).
Proof.
  intros Hb. revert c. induction fuel as [|fuel IH]; intros c Hf; [lia|]. cbn [drain].
  pose proof (poll_spec s c Hb) as Hp.
  destruct (position (accepts c) (drop (cursor c) (messages s))) as [n|] eqn:Hpos.
  - destruct Hp as (m & Hm & Ha & ->).
    pose proof (lookup_lt_Some _ _ _ Hm) as Hlt.
    rewrite (IH (set_cursor c (cursor c + n + 1))) by (cbn; lia).
    change (accepts (set_cursor c (cursor c + n + 1))) with (accepts c).
    change (cursor (set_cursor c (cursor c + n + 1))) with (cursor c + n + 1).
    rewrite (filter_position _ _ n m Hpos) by (by rewrite lookup_drop).
    rewrite drop_drop. cbn. replace (cursor c + (n + 1)) with (cursor c + n + 1) by lia.
    f_equal. unfold set_cursor; cbn. f_equal. lia.
  - rewrite Hp, filter_position_None by done. done.
Qed.

(** ** Properties *)

(** A consumer that polls until the queue is empty receives, in order
    and once, exactly the messages published past its cursor on an address it
    subscribes to now, except those carrying what it published itself; a
    second drain then yields nothing. *)
Theorem broadcaster_delivers_exactly s c :
  base_index s = 0 → cursor c ≤ length (messages s) →
  let fuel := S (length (messages s)) in
  drain fuel s c =
    (set_cursor c (length (messages s)),
     map env_data (filter (λ m, accepts c m = true) (drop (cursor c) (messages s)))) ∧
  drain fuel s (drain fuel s c).1 = ((drain fuel s c).1, []).
Proof.
  intros Hb Hc fuel.
  assert (drain fuel s c = (set_cursor c (length (messages s)),
     map env_data (filter (λ m, accepts c m = true) (drop (cursor c) (messages s))))) as E.
  { rewrite drain_spec by (done || lia). by rewrite Nat.max_r. }
  rewrite E. split; [done|]. cbn [fst]. rewrite drain_spec; [|done|cbn; lia].
  change (cursor (set_cursor c (length (messages s)))) with (length (messages s)).
  rewrite drop_all, Nat.max_id. done.
Qed.

(** A new consumer starts at the tail: whatever was published before it is
    never delivered to it. *)
Lemma new_consumer_skips_history s a fuel :
  base_index s = 0 → length (messages s) < fuel →
  (drain fuel s (broadcaster_subscribe (new_consumer s) a)).2 = [].
Proof.
  intros Hb Hf. rewrite drain_spec; [|done|cbn; lia]. cbn. unfold shared_tail.
  rewrite Hb, Nat.add_0_r, drop_all. done.
Qed.
End broadcaster.

(** ** [MessageBus] *)

(** An endpoint's channel: its identity, whether its receiver is alive, and
    what waits in it. *)
Record Channel := { ch_alive : bool; ch_queue : list (list byte) }.

Record MessageBus := {
  routes : gmap string (list nat);
  channels : gmap nat Channel;
}.

Definition bus_register (b : MessageBus) (address : string) (sender : nat) : MessageBus :=
  let senders := default [] (routes b !! address) in
  if decide (sender ∈ senders)
  then {| routes := <[address := senders]> (routes b); channels := channels b |}
  else {| routes := <[address := senders ++ [sender]]> (routes b); channels := channels b |}.

(** [tx.send(data)]: fails when the receiver is gone. *)
Definition ch_send (chs : gmap nat Channel) (tx : nat) (data : list byte)
  : gmap nat Channel * bool :=
  match chs !! tx with
  | Some ch =>
      if ch_alive ch
      then (<[tx := {| ch_alive := true; ch_queue := ch_queue ch ++ [data] |}]> chs, true)
      else (chs, false)
  | None => (chs, false)
  end.

(** [senders.retain(|tx| tx.send(data).is_ok())]. *)
Fixpoint fan_out (chs : gmap nat Channel) (senders : list nat) (data : list byte)
  : gmap nat Channel * list nat :=
  match senders with
  | [] => (chs, [])
  | tx :: senders =>
      let '(chs, ok) := ch_send chs tx data in
      let '(chs, kept) := fan_out chs senders data in
      (chs, if ok then tx :: kept else kept)
  end.

Definition bus_publish (b : MessageBus) (address : string) (data : list byte) : MessageBus :=
  match routes b !! address with
  | None => b
  | Some senders =>
      let '(chs, kept) := fan_out (channels b) senders data in
      {| routes := <[address := kept]> (routes b); channels := chs |}
  end.

(** No endpoint is routed an address twice. *)
Definition bus_ok (b : MessageBus) : Prop := map_Forall (λ _ l, NoDup l) (routes b).

(** What one send does to a channel. *)
Definition deliver (data : list byte) (ch : Channel) : Channel :=
  if ch_alive ch then {| ch_alive := true; ch_queue := ch_queue ch ++ [data] |} else ch.

Definition chan_alive (chs : gmap nat Channel) (tx : nat) : bool :=
  match chs !! tx with Some ch => ch_alive ch | None => false end.

Lemma bus_register_ok b a tx : bus_ok b → bus_ok (bus_register b a tx).
Proof.
  intros Hb. unfold bus_register.
  assert (NoDup (default [] (routes b !! a))) as Hn.
  { destruct (routes b !! a) eqn:E; cbn; [by eapply Hb | apply NoDup_nil_2]. }
  case_decide as Hin; cbn; apply map_Forall_insert_2; try done.
  apply NoDup_app. split_and!; [done| |apply NoDup_singleton].
  by intros x Hx ->%list_elem_of_singleton.
Qed.

Lemma ch_send_spec chs tx data tx' :
  (ch_send chs tx data).2 = chan_alive chs tx ∧
  (ch_send chs tx data).1 !! tx' =
    if decide (tx' = tx) then deliver data <$> chs !! tx' else chs !! tx'.
Proof.
  unfold ch_send, chan_alive, deliver. destruct (chs !! tx) as [ch|] eqn:Hc.
  - destruct (ch_alive ch) eqn:Ha; cbn; (split; [done|]); case_decide; subst.
    + rewrite lookup_insert_eq, Hc. cbn. by rewrite Ha.
    + by rewrite lookup_insert_ne.
    + rewrite Hc. cbn. by rewrite Ha.
    + done.
  - cbn. split; [done|]. case_decide; subst; [by rewrite Hc|done].
Qed.

Lemma fan_out_spec chs senders data :
  NoDup senders →
  (fan_out chs senders data).2 = filter (λ tx, chan_alive chs tx = true) senders ∧
  ∀ tx, (fan_out chs senders data).1 !! tx =
    if decide (tx ∈ senders) then deliver data <$> chs !! tx else chs !! tx.
Proof.
  revert chs. induction senders as [|s senders IH]; intros chs Hn.
  { split; [done|]. intros tx. rewrite decide_False; [done|apply not_elem_of_nil]. }
  apply NoDup_cons in Hn as [Hs Hn]. cbn [fan_out].
  pose proof (λ tx, ch_send_spec chs s data tx) as Hsend.
  destruct (ch_send chs s data) as [chs1 ok]. cbn in Hsend.
  destruct (IH chs1 Hn) as [Hk Hc]. destruct (fan_out chs1 senders data) as [chs2 kept].
  cbn [fst snd] in *. destruct (Hsend s) as [-> _]. split.
  - assert (kept = filter (λ tx, chan_alive chs tx = true) senders) as ->.
    { rewrite Hk. apply list_filter_iff'. intros tx Htx. unfold chan_alive.
      destruct (Hsend tx) as [_ ->]. rewrite decide_False; [done|]. by intros ->. }
    rewrite filter_cons. destruct (chan_alive chs s); [by rewrite decide_True|].
    by rewrite decide_False.
  - intros tx. rewrite Hc. destruct (Hsend tx) as [_ ->].
    destruct (decide (tx = s)) as [->|Hne].
    + rewrite decide_False by done. rewrite decide_True; [done|apply list_elem_of_here].
    + destruct (decide (tx ∈ senders)); [rewrite decide_True | rewrite decide_False]; try done.
      * by apply list_elem_of_further.
      * rewrite elem_of_cons. naive_solver.
Qed.

(** Publishing reaches every live endpoint routed to the address exactly
    once, no other endpoint, and drops the dead ones from the route. *)
Lemma bus_publish_spec b a data l :
  bus_ok b → routes b !! a = Some l →
  bus_ok (bus_publish b a data) ∧
  routes (bus_publish b a data) !! a =
    Some (filter (λ tx, chan_alive (channels b) tx = true) l) ∧
  ∀ tx, channels (bus_publish b a data) !! tx =
    if decide (tx ∈ l) then deliver data <$> channels b !! tx else channels b !! tx.
Proof.
  intros Hb Hl. assert (NoDup l) as Hn by (by eapply Hb). unfold bus_publish. rewrite Hl.
  destruct (fan_out_spec (channels b) l data Hn) as [Hk Hc].
  destruct (fan_out (channels b) l data) as [chs kept]. cbn in *. subst kept.
  split_and!; [|by rewrite lookup_insert_eq|done].
  apply map_Forall_insert_2; [by apply NoDup_filter | done].
Qed.

(** ** Witness *)

Definition hasher_ref : DefaultHasher := {| hash64 l := from_le_bytes (take 8 l) |}.

Lemma broadcaster_delivers_exactly_witness :
  let s := {| messages := [{| delivery_address := "a"; env_data := [x01] |};
                           {| delivery_address := "b"; env_data := [x02] |};
                           {| delivery_address := "a"; env_data := [x03] |}];
              base_index := 0 |} in
  let c := broadcaster_subscribe (new_consumer shared_new) "a" in
  (drain (DH := hasher_ref) 4 s c).2 = [[x01]; [x03]].
Proof.
  intros s c.
  destruct (broadcaster_delivers_exactly (DH := hasher_ref) s c) as [E _];
    [reflexivity|vm_compute; lia|].
  change (drain 4 s c) with (drain (DH := hasher_ref) (S (length (messages s))) s c).
  rewrite E. vm_compute. reflexivity.
Defined.
