(* ===== verification/FileTransport.v ===== *)
(** * The file transport of the command-line client
      ([bin/chat-cli/src/transport/file.rs])

    Endpoints that share a directory: publishing appends a length-prefixed
    frame to the file of the address and the hour, in as many writes as the
    system makes of it, a reader thread polls every file from the offset it
    left and hands complete frames to a bounded channel. Any number of
    endpoints write and read one directory, their writes fall in any order and
    an endpoint may die in the middle of a publish. *)

From Stdlib Require Import Strings.Byte Strings.String.
From stdpp Require Import base gmap strings numbers pretty sorting list.
From S2P Require Import Prelude AccountLog Storage Delivery.

(** A path under the directory: the address's folder and the file name. *)
Abbreviation Path := (string * string)%type.
Abbreviation Files := (gmap Path (list byte)).

(** [current_hour], of the seconds since the epoch. *)
Definition current_hour (secs : N) : N := secs / 3600.

(** A frame is the length, big-endian in four bytes, and the payload. *)
Definition header (data : list byte) : list byte := to_be_bytes 4 (u32 (N.of_nat (length data))).
Definition frame (data : list byte) : list byte := header data ++ data.

Definition publish_path (e : AddressedEnvelope) (secs : N) : Path :=
  (delivery_address e, (pretty (current_hour secs) ++ ".bin")%string).

(** A write to a file opened for appending, created when missing. *)
Definition append (path : Path) (bytes : list byte) (d : Files) : Files :=
  <[path := default [] (d !! path) ++ bytes]> d.

(** [FileTransport::publish] undisturbed, the writes succeeding: the header,
    then the payload. *)
Definition file_publish (e : AddressedEnvelope) (secs : N) (d : Files) : Files :=
  let path := publish_path e secs in append path (env_data e) (append path (header (env_data e)) d).

(** [subscribe]: there is no filtering. *)
Definition file_subscribe (d : Files) (address : string) : Files * result string () := (d, Ok ()).

(** ** The reader *)

(** [Path::extension]: what follows the last dot of a name with something
    before it. *)
Definition extension (name : string) : option (list byte) :=
  match position (Byte.eqb x2e) (rev (str_bytes name)) with
  | Some n => if decide (S n < length (str_bytes name)) then Some (rev (take n (rev (str_bytes name)))) else None
  | None => None
  end.

Definition is_bin (p : Path) : bool := bool_decide (extension p.2 = Some (str_bytes "bin")).

(** Paths compare by component. *)
Definition path_le (p q : Path) : Prop :=
  (p.1 ≠ q.1 ∧ key_leb (str_bytes p.1) (str_bytes q.1) = true) ∨
  (p.1 = q.1 ∧ key_leb (str_bytes p.2) (str_bytes q.2) = true).
#[export] Instance path_le_dec p q : Decision (path_le p q).
Proof. unfold path_le. apply _. Defined.

(** [collect_bin_files]. *)
Definition collect_bin_files (d : Files) : list Path :=
  merge_sort path_le (filter (λ p, is_bin p = true) (elements (dom d : gset Path))).

Definition from_be (l : list byte) : N := from_le_bytes (rev l).

(** The inner loop on the bytes past the offset: complete frames, in order.
    Every frame takes four bytes at least, so the length is fuel enough. *)
Fixpoint read_frames (fuel : nat) (bytes : list byte) : list (list byte) :=
  match fuel with
  | O => []
  | S fuel =>
      if (length bytes <? 4) then []
      else
        let len := from_be (take 4 bytes) in
        let rest := drop 4 bytes in
        if (N.of_nat (length rest) <? len)%N then []
        else take (N.to_nat len) rest :: read_frames fuel (drop (N.to_nat len) rest)
  end.

(** The reader thread: how much of each file it consumed, and every frame it
    tried to hand over, with the file it came from. *)
Record Reader := { offsets : gmap Path nat; tried : list (Path * list byte) }.

Definition reader_new : Reader := {| offsets := ∅; tried := [] |}.

Definition consumed (frames : list (list byte)) : nat := sum_list ((λ p, 4 + length p) <$> frames).

(** One file of a pass. *)
Definition poll_file (d : Files) (r : Reader) (path : Path) : Reader :=
  let offset := default 0 (offsets r !! path) in
  let content := default [] (d !! path) in
  let frames := read_frames (length content) (drop offset content) in
  {| offsets := <[path := offset + consumed frames]> (offsets r);
     tried := tried r ++ map (pair path) frames |}.

(** One pass of [poll_reader]. *)
Definition poll_reader (d : Files) (r : Reader) : Reader :=
  fold_left (poll_file d) (collect_bin_files d) r.

(** [try_send] into the channel: [room] says whether it had room at the n-th
    attempt; a frame refused is gone. *)
Definition handed_over (room : nat → bool) (r : Reader) : list (list byte) :=
  omap id (imap (λ i p, if room i then Some p.2 else None) (tried r)).

(** The frames of a whole file, read at once. *)
Definition frames_in (content : list byte) : list (list byte) := read_frames (length content) content.

(** ** Runs: many endpoints, in any order *)

(** A publish under way: the file it opened, its payload, and the bytes of the
    frame that have not reached the file yet. [write_all] may take several
    writes, between which others write; one endpoint makes one publish at a
    time, for it takes the transport by mutable reference. *)
Record Writing := { wr_path : Path; wr_data : list byte; wr_left : list byte }.

(** Writer [w] opens the file, writes the next [S n] bytes, or dies; reader [r]
    comes to file [p] on one of its passes. *)
Inductive FileEvent : Type :=
  | Begin (w : nat) (e : AddressedEnvelope) (secs : N)
  | WriteSome (w n : nat)
  | Crash (w : nat)
  | PollFile (r : nat) (p : Path).

(** [complete] lists the publishes that returned, in the order they did;
    [torn] the files in which a writer died after its first byte. *)
Record FileRun := {
  files : Files;
  readers : gmap nat Reader;
  writing : gmap nat Writing;
  torn : gset Path;
  complete : list (Path * list byte);
}.

Definition reader (s : FileRun) (r : nat) : Reader := default reader_new (readers s !! r).

Definition file_step (s : FileRun) (ev : FileEvent) : FileRun :=
  match ev with
  | Begin w e secs =>
      match writing s !! w with
      | Some _ => s
      | None =>
          let path := publish_path e secs in
          {| files := append path [] (files s); readers := readers s; torn := torn s;
             writing := <[w := {| wr_path := path; wr_data := env_data e;
                                  wr_left := frame (env_data e) |}]> (writing s);
             complete := complete s |}
      end
  | WriteSome w n =>
      match writing s !! w with
      | None => s
      | Some x =>
          let left := drop (S n) (wr_left x) in
          {| files := append (wr_path x) (take (S n) (wr_left x)) (files s); readers := readers s;
             torn := torn s;
             writing := if decide (left = []) then delete w (writing s)
                        else <[w := {| wr_path := wr_path x; wr_data := wr_data x;
                                       wr_left := left |}]> (writing s);
             complete := complete s ++
               (if decide (left = []) then [(wr_path x, wr_data x)] else []) |}
      end
  | Crash w =>
      match writing s !! w with
      | None => s
      | Some x =>
          {| files := files s; readers := readers s; writing := delete w (writing s);
             torn := if decide (wr_left x = frame (wr_data x)) then torn s
                     else {[wr_path x]} ∪ torn s;
             complete := complete s |}
      end
  | PollFile r p =>
      {| files := files s; readers := <[r := poll_file (files s) (reader s r) p]> (readers s);
         writing := writing s; torn := torn s; complete := complete s |}
  end.

Definition file_start : FileRun :=
  {| files := ∅; readers := ∅; writing := ∅; torn := ∅; complete := [] |}.

Definition file_run (evs : list FileEvent) : FileRun := fold_left file_step evs file_start.

(** The payloads of one file. *)
Definition at_path (p : Path) (l : list (Path * list byte)) : list (list byte) :=
  (filter (λ x, x.1 = p) l).*2.

(** Payloads whose length the header can hold. *)
Definition fits (data : list byte) : Prop := (N.of_nat (length data) < 2 ^ 32)%N.

(** Publishes to a file one after the other: none begins while another is
    under way there or after one died half way. *)
Definition free (s : FileRun) (p : Path) : Prop :=
  (p ∉ torn s) ∧ map_Forall (λ _ x, wr_path x ≠ p) (writing s).
Definition orderly_step (p : Path) (s : FileRun) (ev : FileEvent) : Prop :=
  match ev with
  | Begin w e secs => publish_path e secs = p → writing s !! w = None → fits (env_data e) ∧ free s p
  | _ => True
  end.
Fixpoint orderly (p : Path) (s : FileRun) (evs : list FileEvent) : Prop :=
  match evs with
  | [] => True
  | ev :: evs => orderly_step p s ev ∧ orderly p (file_step s ev) evs
  end.

#[export] Instance fits_dec data : Decision (fits data).
Proof. unfold fits. apply _. Defined.
#[export] Instance orderly_step_dec p s ev : Decision (orderly_step p s ev).
Proof. destruct ev; unfold orderly_step, free; apply _. Defined.
#[export] Instance orderly_dec p s evs : Decision (orderly p s evs).
Proof. revert s. induction evs as [|ev evs IH]; intros s; cbn [orderly]; apply _. Defined.

(** ** Reading frames *)

Lemma from_be_header data : fits data → from_be (header data) = N.of_nat (length data).
Proof.
  intros Hf. unfold from_be, header, to_be_bytes. rewrite rev_involutive, from_to_le_bytes.
  unfold fits in Hf. rewrite u32_small by done. apply N.mod_small. exact Hf.
Qed.
Lemma length_header data : length (header data) = 4.
Proof. apply length_to_be_bytes. Qed.

(** Enough fuel is enough. *)
Lemma read_frames_fuel f g bytes :
  length bytes ≤ f → length bytes ≤ g → read_frames f bytes = read_frames g bytes.
Proof.
  revert g bytes. induction f as [|f IH]; intros [|g] bytes Hf Hg; [done|..].
  1,2: destruct bytes; [done|cbn in *; lia].
  cbn [read_frames]. destruct (Nat.ltb_spec (length bytes) 4); [done|].
  destruct (N.ltb_spec (N.of_nat (length (drop 4 bytes))) (from_be (take 4 bytes))); [done|].
  f_equal. apply IH; rewrite !length_drop; lia.
Qed.

Lemma frames_in_eq bytes :
  frames_in bytes =
  if length bytes <? 4 then []
  else
    let len := N.to_nat (from_be (take 4 bytes)) in
    if length (drop 4 bytes) <? len then []
    else take len (drop 4 bytes) :: frames_in (drop len (drop 4 bytes)).
Proof.
  unfold frames_in. destruct (length bytes) as [|n] eqn:Hn; [done|]. cbn [read_frames]. rewrite Hn.
  destruct (Nat.ltb_spec (S n) 4); [done|]. cbv zeta.
  destruct (N.ltb_spec (N.of_nat (length (drop 4 bytes))) (from_be (take 4 bytes)));
    destruct (Nat.ltb_spec (length (drop 4 bytes)) (N.to_nat (from_be (take 4 bytes)))); try done; try lia.
  f_equal. apply read_frames_fuel; rewrite !length_drop; lia.
Qed.

(** Reading what is there, then the rest from where that ended, is reading the
    whole: when a reader comes makes no difference. *)
Lemma frames_in_app bytes more :
  consumed (frames_in bytes) ≤ length bytes ∧
  frames_in (bytes ++ more) =
    frames_in bytes ++ frames_in (drop (consumed (frames_in bytes)) (bytes ++ more)).
Proof.
  remember (length bytes) as n eqn:Hn. revert bytes Hn.
  induction n as [n IH] using (well_founded_induction lt_wf). intros bytes ->.
  rewrite (frames_in_eq bytes). destruct (Nat.ltb_spec (length bytes) 4) as [?|H4]; [by split; [cbn; lia|]|].
  cbv zeta. set (len := N.to_nat (from_be (take 4 bytes))).
  destruct (Nat.ltb_spec (length (drop 4 bytes)) len) as [?|Hlen]; [by split; [cbn; lia|]|].
  rewrite length_drop in Hlen. set (rest := drop len (drop 4 bytes)).
  assert (Hrest : length rest = length bytes - 4 - len) by (unfold rest; rewrite !length_drop; lia).
  destruct (IH (length rest) ltac:(lia) rest eq_refl) as [Hc Happ].
  assert (Hcons : ∀ d l, consumed (d :: l) = 4 + length d + consumed l) by done.
  rewrite Hcons, length_take, length_drop, Nat.min_l by lia. split; [lia|].
  rewrite (frames_in_eq (bytes ++ more)), length_app.
  destruct (Nat.ltb_spec (length bytes + length more) 4); [lia|]. cbv zeta.
  rewrite take_app_le by lia. fold len. rewrite drop_app_le by lia.
  rewrite length_app, length_drop. destruct (Nat.ltb_spec (length bytes - 4 + length more) len); [lia|].
  rewrite take_app_le, drop_app_le by (rewrite ?length_drop; lia). fold rest. cbn [app]. f_equal.
  rewrite Happ. f_equal. f_equal. rewrite <-2!drop_drop, (drop_app_le bytes) by lia.
  by rewrite (drop_app_le (drop 4 bytes)) by (rewrite length_drop; lia).
Qed.

(** What a file may end with: the beginning of a frame. *)
Definition open_end (tail : list byte) : Prop :=
  ∃ data left, fits data ∧ left ≠ [] ∧ tail ++ left = frame data.

Lemma open_end_no_frame tail : open_end tail → frames_in tail = [].
Proof.
  intros (data & left & Hfit & Hne & Heq). rewrite frames_in_eq.
  destruct (Nat.ltb_spec (length tail) 4) as [|H4]; [done|]. cbv zeta.
  assert (Htake : take 4 tail = header data).
  { rewrite <-(take_app_le tail left 4), Heq by lia. unfold frame.
    by rewrite take_app_length' by (by rewrite length_header). }
  rewrite Htake, from_be_header, Nat2N.id by done.
  apply (f_equal length) in Heq. unfold frame in Heq. rewrite !length_app, length_header in Heq.
  destruct left; [done|]. cbn [length] in Heq. rewrite length_drop.
  destruct (Nat.ltb_spec (length tail - 4) (length data)); [done|lia].
Qed.

Lemma frames_in_exact ps tail :
  Forall fits ps → open_end tail → frames_in (concat (map frame ps) ++ tail) = ps.
Proof.
  intros Hps Htail. induction Hps as [|data ps Hd _ IH]; [by apply open_end_no_frame|].
  cbn [map concat]. unfold frame at 1. rewrite <-!app_assoc. set (rest := concat (map frame ps) ++ tail) in *.
  rewrite frames_in_eq, !length_app, length_header.
  destruct (Nat.ltb_spec (4 + (length data + length rest)) 4); [lia|]. cbv zeta.
  rewrite take_app_length', drop_app_length' by (by rewrite length_header).
  rewrite from_be_header, Nat2N.id by done. rewrite length_app.
  destruct (Nat.ltb_spec (length data + length rest) (length data)); [lia|].
  rewrite take_app_length, drop_app_length. by rewrite IH.
Qed.

Lemma at_path_app p l k : at_path p (l ++ k) = at_path p l ++ at_path p k.
Proof. unfold at_path. by rewrite filter_app, fmap_app. Qed.
Lemma at_path_pairs p q (ps : list (list byte)) :
  at_path p (map (pair q) ps) = if decide (q = p) then ps else [].
Proof.
  unfold at_path. induction ps as [|x ps IH]; [by case_decide|]. cbn [map]. rewrite filter_cons. cbn [fst].
  case_decide; [cbn; by f_equal|done].
Qed.
Lemma at_path_one p q data : at_path p [(q, data)] = if decide (q = p) then [data] else [].
Proof. exact (at_path_pairs p q [data]). Qed.

Lemma append_lookup p q bytes d :
  default [] (append p bytes d !! q) = default [] (d !! q) ++ (if decide (p = q) then bytes else []).
Proof.
  unfold append. destruct (decide (p = q)) as [->|Hne]; [by rewrite lookup_insert_eq|].
  by rewrite lookup_insert_ne, app_nil_r by done.
Qed.

(** ** Readers *)

(** A reader is level with some earlier content of every file. *)
Definition reader_ok (d : Files) (r : Reader) : Prop := ∀ p, ∃ old,
  old `prefix_of` default [] (d !! p) ∧ at_path p (tried r) = frames_in old ∧
  default 0 (offsets r !! p) = consumed (frames_in old).

Lemma reader_ok_append p bytes d r : reader_ok d r → reader_ok (append p bytes d) r.
Proof.
  intros Hr q. destruct (Hr q) as (old & Hp & H). exists old. split; [|done]. rewrite append_lookup.
  by apply prefix_app_r.
Qed.

(** Coming to a file catches up with it and leaves the others. *)
Lemma poll_file_spec d r p :
  reader_ok d r →
  reader_ok d (poll_file d r p) ∧
  at_path p (tried (poll_file d r p)) = frames_in (default [] (d !! p)) ∧
  ∀ q, q ≠ p → at_path q (tried (poll_file d r p)) = at_path q (tried r).
Proof.
  intros Hr. destruct (Hr p) as (old & [more Hmore] & Htr & Hoff).
  set (content := default [] (d !! p)) in *.
  destruct (frames_in_app old more) as [Hc Happ]. rewrite <-Hmore in Happ.
  assert (Hread : read_frames (length content) (drop (default 0 (offsets r !! p)) content) =
                  frames_in (drop (consumed (frames_in old)) content)).
  { rewrite Hoff. apply read_frames_fuel; rewrite ?length_drop; lia. }
  set (new := frames_in (drop (consumed (frames_in old)) content)) in *.
  assert (Hp : at_path p (tried (poll_file d r p)) = frames_in content).
  { unfold poll_file. fold content. rewrite Hread. cbn [tried].
    by rewrite at_path_app, at_path_pairs, decide_True, Htr. }
  assert (Hq : ∀ q, q ≠ p → at_path q (tried (poll_file d r p)) = at_path q (tried r)).
  { intros q Hne. unfold poll_file. cbn [tried].
    by rewrite at_path_app, at_path_pairs, decide_False, app_nil_r. }
  split_and!; [|done|done]. intros q. destruct (decide (q = p)) as [->|Hne].
  - exists content. split_and!; [done|done|]. unfold poll_file. fold content. rewrite Hread. cbn [offsets].
    rewrite lookup_insert_eq. cbn [default from_option id]. rewrite Hoff, Happ. unfold consumed.
    rewrite fmap_app. by rewrite sum_list_with_app.
  - destruct (Hr q) as (o & H1 & H2 & H3). exists o. split_and!; [done|by rewrite Hq|].
    unfold poll_file. cbn [offsets]. by rewrite lookup_insert_ne.
Qed.

(** A pass over some files. *)
Lemma poll_files_spec d l r :
  reader_ok d r →
  reader_ok d (fold_left (poll_file d) l r) ∧
  ∀ p, p ∈ l → at_path p (tried (fold_left (poll_file d) l r)) = frames_in (default [] (d !! p)).
Proof.
  revert r. induction l as [|q l IH]; intros r Hr; [split; [done|by intros p ?%elem_of_nil]|].
  cbn [fold_left]. destruct (poll_file_spec d r q Hr) as (Hr1 & Hq & _). destruct (IH _ Hr1) as [IHok IHl].
  split; [done|]. intros p [->|Hp]%elem_of_cons; [|by apply IHl].
  destruct (decide (q ∈ l)) as [Hin|Hnin]; [by apply IHl|]. rewrite <-Hq. clear -Hnin.
  generalize (poll_file d r q). induction l as [|x l IH]; intros r'; [done|].
  apply not_elem_of_cons in Hnin as [Hne Hnin]. cbn [fold_left]. rewrite IH by done. unfold poll_file.
  cbn [tried]. by rewrite at_path_app, at_path_pairs, decide_False, app_nil_r.
Qed.

(** The file names publishing makes are collected. *)
Lemma pretty_N_go_long x s : s ≠ ""%string → pretty_N_go x s ≠ ""%string.
Proof.
  revert s. induction (N.lt_wf_0 x) as [x _ IH]. intros s Hs. destruct (decide (x = 0)%N) as [->|Hx].
  - by rewrite pretty_N_go_0.
  - rewrite pretty_N_go_step by lia. apply IH; [apply N.div_lt; lia|done].
Qed.

Lemma pretty_N_long (x : N) : pretty x ≠ ""%string.
Proof.
  unfold pretty, pretty_N. case_decide; [done|]. rewrite pretty_N_go_step by lia. by apply pretty_N_go_long.
Qed.

Lemma publish_is_bin e secs : is_bin (publish_path e secs) = true.
Proof.
  unfold is_bin, publish_path, extension. cbn [snd].
  pose proof (pretty_N_long (current_hour secs)) as Hne. revert Hne. generalize (pretty (current_hour secs)).
  intros digits Hne.
  assert (Hb : str_bytes (digits ++ ".bin")%string = str_bytes digits ++ str_bytes ".bin").
  { clear. unfold list_byte_of_string. rewrite <-map_app. f_equal.
    induction digits as [|a digits IH]; [done|].
    change (String a digits +:+ ".bin") with (String a (digits +:+ ".bin")). cbn. f_equal. exact IH. }
  rewrite Hb. change (str_bytes ".bin") with [x2e; x62; x69; x6e]. rewrite rev_app_distr.
  change (rev [x2e; x62; x69; x6e]) with [x6e; x69; x62; x2e].
  change (position (Byte.eqb x2e) ([x6e; x69; x62; x2e] ++ rev (str_bytes digits))) with (Some 3).
  cbv beta iota. rewrite decide_True; [by apply bool_decide_eq_true|].
  rewrite length_app. destruct digits; [done|]. cbn. lia.
Qed.

(** ** Runs stay well-formed *)

(** A writer has something left to write, to a file that is there. *)
Definition run_ok (s : FileRun) : Prop :=
  (∀ r, reader_ok (files s) (reader s r)) ∧
  (∀ p, is_Some (files s !! p) → is_bin p = true) ∧
  map_Forall (λ _ x, is_Some (files s !! wr_path x) ∧ wr_left x ≠ [] ∧
    ∃ done, done ++ wr_left x = frame (wr_data x)) (writing s).

Lemma append_bin p bytes d : (∀ q, is_Some (d !! q) → is_bin q = true) → is_bin p = true →
  ∀ q, is_Some (append p bytes d !! q) → is_bin q = true.
Proof.
  intros Hd Hp q. unfold append. rewrite lookup_insert_is_Some.
  destruct (decide (p = q)) as [->|]; naive_solver.
Qed.
Lemma append_is_Some p q bytes d : is_Some (d !! q) → is_Some (append p bytes d !! q).
Proof. unfold append. rewrite lookup_insert_is_Some. destruct (decide (p = q)); auto. Qed.

Lemma frame_ne data : frame data ≠ [].
Proof. intros H%(f_equal length). unfold frame in H. by rewrite length_app, length_header in H. Qed.

Lemma file_step_ok s ev : run_ok s → run_ok (file_step s ev).
Proof.
  intros (Hr & Hbin & Hw). destruct ev as [w e secs|w n|w|r p]; cbn [file_step].
  - destruct (writing s !! w); [done|]. split_and!; cbn [files readers writing].
    + intros r. by apply reader_ok_append, Hr.
    + apply append_bin; [done|apply publish_is_bin].
    + apply map_Forall_insert_2.
      * split_and!; [unfold append; rewrite lookup_insert_eq; eauto|apply frame_ne|by exists []].
      * eapply map_Forall_impl; [exact Hw|]. intros v x (? & ? & ?). split_and!; [by apply append_is_Some|done..].
  - destruct (writing s !! w) as [x|] eqn:Hx; [|done].
    destruct (map_Forall_lookup_1 _ _ _ _ Hw Hx) as (Hfile & Hne & dn & Hdone).
    split_and!; cbn [files readers writing].
    + intros r. by apply reader_ok_append, Hr.
    + apply append_bin; [done|by apply Hbin].
    + assert (Hall : map_Forall (λ _ y, is_Some (append (wr_path x) (take (S n) (wr_left x)) (files s) !! wr_path y) ∧
        wr_left y ≠ [] ∧ ∃ done, done ++ wr_left y = frame (wr_data y)) (writing s)).
      { eapply map_Forall_impl; [exact Hw|]. intros v y (? & ? & ?). split_and!; [by apply append_is_Some|done..]. }
      case_decide; [by apply map_Forall_delete|]. apply map_Forall_insert_2; [|done].
      split_and!; [by apply append_is_Some|done|]. exists (dn ++ take (S n) (wr_left x)). cbn [wr_left wr_data].
      by rewrite <-app_assoc, take_drop.
  - destruct (writing s !! w) as [x|] eqn:Hx; [|done]. split_and!; [done..|]. by apply map_Forall_delete.
  - split_and!; [|done..]. intros r'. unfold reader. cbn [readers files].
    destruct (decide (r = r')) as [<-|Hne]; [rewrite lookup_insert_eq|rewrite lookup_insert_ne by done; apply Hr].
    apply poll_file_spec, Hr.
Qed.

Lemma run_start_ok : run_ok file_start.
Proof.
  split_and!; [|cbn; intros p; rewrite lookup_empty; by intros []|apply map_Forall_empty].
  intros r p. exists []. split_and!; [apply prefix_nil|done..].
Qed.

Lemma file_run_ok evs : run_ok (file_run evs).
Proof.
  unfold file_run. generalize run_start_ok. generalize file_start.
  induction evs as [|ev evs IH]; intros s Hs; [done|]. apply IH. by apply file_step_ok.
Qed.

(** ** Files published to in order *)

(** Nobody has the file open for a publish. *)
Definition unopened (s : FileRun) (p : Path) : Prop := map_Forall (λ _ x, wr_path x ≠ p) (writing s).

(** Such a file is the frames of the publishes that returned, then what the one
    under way, or the one that died, has written of its frame. *)
Definition file_ordered (s : FileRun) (p : Path) : Prop :=
  Forall fits (at_path p (complete s)) ∧
  ∃ tail, default [] (files s !! p) = concat (map frame (at_path p (complete s))) ++ tail ∧
    ((∃ w x, writing s !! w = Some x ∧ wr_path x = p ∧ (p ∉ torn s) ∧ fits (wr_data x) ∧
        wr_left x ≠ [] ∧ tail ++ wr_left x = frame (wr_data x) ∧
        map_Forall (λ _ y, wr_path y ≠ p) (delete w (writing s))) ∨
     (unopened s p ∧ open_end tail ∧ ((p ∉ torn s) → tail = []))).

Lemma open_end_nil : open_end [].
Proof. exists [], (frame []). split_and!; [by vm_compute|apply frame_ne|done]. Qed.

Lemma begin_ordered s w e secs p :
  orderly_step p s (Begin w e secs) → file_ordered s p → file_ordered (file_step s (Begin w e secs)) p.
Proof.
  intros Hord (Hfit & tail & Hc & Hw). cbn [file_step]. destruct (writing s !! w) eqn:Hwr; [by split; eauto|].
  split; [done|]. set (path := publish_path e secs). cbn [complete files writing torn].
  destruct (decide (path = p)) as [Hp|Hp].
  - destruct (Hord Hp Hwr) as [Hfits [Htorn Hopen]].
    destruct Hw as [(v & x & Hv & Hx & _)|(_ & _ & Htail)]; [by destruct (Hopen _ _ Hv)|].
    specialize (Htail Htorn) as ->. exists []. split; [by rewrite append_lookup, Hc, decide_True, !app_nil_r by done|].
    left. exists w. eexists. rewrite lookup_insert_eq. split_and!; [done|done|done|done|apply frame_ne|done|].
    by rewrite delete_insert_id.
  - exists tail. split; [by rewrite append_lookup, decide_False, app_nil_r|].
    destruct Hw as [(v & x & Hv & Hx & Ht & Hf & Hn & Hd & Hoth)|(Hun & Hend & Htail)]; [left|right].
    + assert (v ≠ w) by congruence. exists v, x. rewrite lookup_insert_ne by done. split_and!; try done.
      rewrite delete_insert_ne by done. by apply map_Forall_insert_2.
    + split_and!; [by apply map_Forall_insert_2|done..].
Qed.

Lemma write_ordered s w n p : run_ok s → file_ordered s p → file_ordered (file_step s (WriteSome w n)) p.
Proof.
  intros (_ & _ & Hok) (Hfit & tail & Hc & Hw). cbn [file_step]. destruct (writing s !! w) as [x|] eqn:Hwr; [|by split; eauto].
  destruct (map_Forall_lookup_1 _ _ _ _ Hok Hwr) as (_ & Hne & _).
  unfold file_ordered, unopened. cbn [complete files writing torn]. destruct (decide (wr_path x = p)) as [Hp|Hp].
  - destruct Hw as [(v & y & Hv & Hy & Ht & Hf & Hn & Hd & Hoth)|(Hun & _)]; [|by destruct (Hun _ _ Hwr)].
    destruct (decide (v = w)) as [->|Hvw];
      [|destruct (Hoth w x ltac:(by rewrite lookup_delete_ne)); done].
    assert (y = x) as -> by congruence. rewrite append_lookup, (decide_True (P := wr_path x = p)), Hc by done.
    case_decide as Hl.
    + assert (Htake : take (S n) (wr_left x) = wr_left x).
      { rewrite <-(take_drop (S n) (wr_left x)) at 2. by rewrite Hl, app_nil_r. }
      rewrite at_path_app, at_path_one, decide_True by done. split; [by apply Forall_app; split; [|constructor]|].
      exists []. rewrite Htake, map_app, concat_app, app_nil_r, <-app_assoc, Hd. cbn. rewrite app_nil_r.
      split; [done|]. right. split_and!; [done|apply open_end_nil|done].
    + rewrite app_nil_r. split; [done|]. exists (tail ++ take (S n) (wr_left x)). rewrite <-app_assoc.
      split; [done|]. left. exists w. eexists. rewrite lookup_insert_eq. split_and!; try done.
      * cbn. by rewrite <-app_assoc, take_drop.
      * by rewrite delete_insert_eq.
  - rewrite append_lookup, (decide_False (P := wr_path x = p)), app_nil_r by done.
    assert (Hat : at_path p (complete s ++ (if decide (drop (S n) (wr_left x) = []) then [(wr_path x, wr_data x)] else [])) =
            at_path p (complete s)).
    { rewrite at_path_app. case_decide; [rewrite at_path_one, decide_False by done|]; by rewrite app_nil_r. }
    rewrite Hat. split; [done|]. exists tail. split; [done|].
    destruct Hw as [(v & y & Hv & Hy & Ht & Hf & Hn & Hd & Hoth)|(Hun & Hend & Htail)]; [left|right].
    + assert (v ≠ w) by congruence. exists v, y. split_and!; try done.
      * case_decide; [by rewrite lookup_delete_ne|by rewrite lookup_insert_ne].
      * case_decide; [rewrite delete_delete; by apply map_Forall_delete|].
        rewrite delete_insert_ne by done. by apply map_Forall_insert_2.
    + split_and!; [|done..]. case_decide; [by apply map_Forall_delete|by apply map_Forall_insert_2].
Qed.

Lemma crash_ordered s w p : file_ordered s p → file_ordered (file_step s (Crash w)) p.
Proof.
  intros (Hfit & tail & Hc & Hw). cbn [file_step]. destruct (writing s !! w) as [x|] eqn:Hwr; [|by split; eauto].
  split; [done|]. exists tail. split; [done|]. cbn [writing torn].
  destruct Hw as [(v & y & Hv & Hy & Ht & Hf & Hn & Hd & Hoth)|(Hun & Hend & Htail)].
  - destruct (decide (v = w)) as [->|Hvw]; [right|left].
    + assert (y = x) as -> by congruence. split_and!; [done|by exists (wr_data x), (wr_left x)|].
      case_decide as Hl; [|set_solver]. intros _. rewrite Hl in Hd.
      rewrite <-(app_nil_l (frame _)) in Hd at 2. by apply app_inv_tail in Hd.
    + exists v, y. rewrite lookup_delete_ne by done. split_and!; try done.
      * case_decide; [done|]. assert (wr_path x ≠ p); [|set_solver].
        apply (Hoth w). by rewrite lookup_delete_ne.
      * rewrite delete_delete. by apply map_Forall_delete.
  - right. split_and!; [by apply map_Forall_delete|done|]. intros Hp. apply Htail.
    case_decide; [done|]. set_solver.
Qed.

Lemma file_run_ordered evs p : orderly p file_start evs → file_ordered (file_run evs) p.
Proof.
  assert (Hstart : file_ordered file_start p).
  { split; [constructor|]. exists []. split; [done|]. right.
    split_and!; [apply map_Forall_empty|apply open_end_nil|done]. }
  unfold file_run. revert Hstart. generalize run_start_ok. generalize file_start.
  induction evs as [|ev evs IH]; intros s Hs Hp; [done|]. intros [Hev Hevs]. cbn [fold_left].
  apply IH; [by apply file_step_ok| |done]. destruct ev; [by apply begin_ordered|by apply write_ordered|
    by apply crash_ordered|exact Hp].
Qed.

Lemma at_path_cons q p d l : at_path q ((p, d) :: l) = (if decide (p = q) then [d] else []) ++ at_path q l.
Proof. by rewrite <-at_path_one, <-at_path_app. Qed.

(** Lists alike file by file are permutations. *)
Lemma at_path_Permutation l k : (∀ p, at_path p l = at_path p k) → l ≡ₚ k.
Proof.
  revert k. induction l as [|[p d] l IH]; intros k Hk.
  - destruct k as [|[q d] k]; [done|]. specialize (Hk q). unfold at_path in Hk.
    rewrite filter_cons, decide_True in Hk by done. done.
  - assert (Hsplit : ∀ k, at_path p k = d :: at_path p l →
      ∃ k1 k2, k = k1 ++ (p, d) :: k2 ∧ at_path p k1 = []).
    { clear. intros k. induction k as [|[q d'] k IH]; [done|]. unfold at_path. rewrite filter_cons. cbn [fst].
      destruct (decide (q = p)) as [->|Hne].
      - cbn. intros [= -> _]. by exists [], k.
      - intros (k1 & k2 & -> & Hk1)%IH. exists ((q, d') :: k1), k2. split; [done|].
        unfold at_path. rewrite filter_cons, decide_False by done. exact Hk1. }
    assert (Hp : at_path p k = d :: at_path p l).
    { rewrite <-Hk. unfold at_path. by rewrite filter_cons, decide_True by done. }
    destruct (Hsplit k Hp) as (k1 & k2 & -> & Hk1). rewrite <-Permutation_middle. constructor. apply IH.
    intros q. specialize (Hk q). rewrite !at_path_app, !at_path_cons in *.
    destruct (decide (p = q)) as [<-|Hne]; [|done]. rewrite Hk1 in *. by injection Hk.
Qed.

Lemma handed_over_all room r : (∀ i, room i = true) → handed_over room r = (tried r).*2.
Proof.
  intros Hroom. unfold handed_over. generalize (tried r). intros l. revert room Hroom.
  induction l as [|x l IH]; intros room Hroom; [done|]. rewrite imap_cons, Hroom. cbn. f_equal.
  apply (IH (room ∘ S)). intros i. apply Hroom.
Qed.

(** C32. Delivery through files. Whatever endpoints write to one directory, in
    whatever order their writes fall, however a write is cut short, whoever dies
    in the middle of a publish and whenever a reader came by, after its next
    pass a reader has tried from each file exactly the frames of that file as it
    is now, read at once. Where every publish to a file is of less than 2^32
    bytes and began when none was under way there and none had died half way,
    these are exactly the payloads of the publishes that returned, each once and
    in order, and nothing of one that is under way or died; and when that is so
    of every file and the channel has room, the application is handed exactly
    the payloads published. *)
Theorem file_transport_exact (evs : list FileEvent) (r : nat) :
  let s := file_run evs in
  let seen := poll_reader (files s) (reader s r) in
  (∀ p, at_path p (tried seen) = frames_in (default [] (files s !! p))) ∧
  (∀ p, orderly p file_start evs → at_path p (tried seen) = at_path p (complete s)) ∧
  ((∀ p, orderly p file_start evs) → ∀ room, (∀ i, room i = true) →
     handed_over room seen ≡ₚ (complete s).*2).
Proof.
  intros s seen. destruct (file_run_ok evs) as (Hr & Hbin & _). fold s in Hr, Hbin.
  assert (Hall : ∀ p, at_path p (tried seen) = frames_in (default [] (files s !! p))).
  { intros p. destruct (poll_files_spec _ (collect_bin_files (files s)) _ (Hr r)) as [Hok Hp].
    fold (poll_reader (files s) (reader s r)) in Hok, Hp. fold seen in Hok, Hp.
    destruct (files s !! p) as [c|] eqn:Hf; rewrite <-Hf.
    - apply Hp. unfold collect_bin_files.
      rewrite merge_sort_Permutation, list_elem_of_filter, elem_of_elements, elem_of_dom.
      split; [apply Hbin|]; by rewrite Hf.
    - destruct (Hok p) as (old & Hpre & -> & _). rewrite Hf in *. by apply prefix_nil_inv in Hpre as ->. }
  assert (Hord : ∀ p, orderly p file_start evs → at_path p (tried seen) = at_path p (complete s)).
  { intros p (Hfit & tail & Hc & Hw)%file_run_ordered. fold s in Hfit, Hc, Hw. rewrite Hall, Hc.
    apply frames_in_exact; [done|]. destruct Hw as [(w & x & _ & _ & _ & Hf & Hne & Hd & _)|(_ & Hend & _)]; [|done].
    by exists (wr_data x), (wr_left x). }
  split_and!; [done..|]. intros Hor room Hroom. rewrite handed_over_all by done.
  apply fmap_Permutation, at_path_Permutation. intros p. by apply Hord.
Qed.

(** A reader whose file holds one frame has tried it once it came by, and tries
    nothing more there. *)
Lemma poll_single d r p data :
  reader_ok d r → frames_in (default [] (d !! p)) = [data] → tried r = [] ∨ tried r = [(p, data)] →
  tried (poll_file d r p) = [(p, data)].
Proof.
  intros Hr Hd Ht. destruct (poll_file_spec d r p Hr) as (_ & Hat & _). rewrite Hd in Hat. revert Hat.
  unfold poll_file. cbn [tried].
  destruct Ht as [-> | ->]; rewrite at_path_app, at_path_pairs, decide_True by done.
  - intros Hf. change (at_path p []) with (@nil (list byte)) in Hf. cbn [app] in *. by rewrite Hf.
  - rewrite at_path_one, decide_True by done. cbn [app]. intros [= Hf]. by rewrite Hf.
Qed.

(** The full channel: a frame that finds no room when it is first read is
    never handed over, however often the reader passes after: the offset moves
    past it all the same. *)
Theorem full_channel_loses_frame (room : nat → bool) d r n p data :
  room 0 = false → reader_ok d r → tried r = [] → frames_in (default [] (d !! p)) = [data] →
  handed_over room (Nat.iter (S n) (λ r, poll_file d r p) r) = [].
Proof.
  intros Hroom Hr Hnew Hd.
  assert (H : reader_ok d (Nat.iter (S n) (λ r, poll_file d r p) r) ∧
              tried (Nat.iter (S n) (λ r, poll_file d r p) r) = [(p, data)]).
  { induction n as [|n [IHr IHt]]; cbn [Nat.iter] in *.
    - split; [by apply poll_file_spec|by apply poll_single; auto].
    - split; [by apply poll_file_spec|by apply poll_single; auto]. }
  unfold handed_over. rewrite (proj2 H). cbn. by rewrite Hroom.
Qed.

(** ** Witnesses *)

Definition demo_envelope : AddressedEnvelope := {| delivery_address := "inbox"; env_data := [x01; x02] |}.
Definition demo_other : AddressedEnvelope := {| delivery_address := "inbox"; env_data := [x03] |}.
Definition demo_path : Path := publish_path demo_envelope 7200.

(** One publish in four writes with a reader in between, then one that dies
    after its header. *)
Definition demo_events : list FileEvent :=
  [Begin 0 demo_envelope 7200; WriteSome 0 1; PollFile 9 demo_path; WriteSome 0 1; PollFile 9 demo_path; WriteSome 0 7;
   Begin 1 demo_other 7200; WriteSome 1 3; PollFile 9 demo_path; Crash 1].

Lemma file_transport_exact_witness :
  at_path demo_path (tried (poll_reader (files (file_run demo_events)) (reader (file_run demo_events) 9))) =
  [[x01; x02]].
Proof.
  destruct (file_transport_exact demo_events 9) as (_ & H & _). rewrite H; [vm_compute; reflexivity|].
  apply (bool_decide_unpack _). vm_compute. exact I.
Defined.

Lemma full_channel_loses_frame_witness :
  let d := file_publish demo_envelope 7200 ∅ in
  handed_over (λ i, bool_decide (i ≠ 0)) (Nat.iter 4 (λ r, poll_file d r demo_path) reader_new) = [].
Proof.
  apply (full_channel_loses_frame _ _ reader_new 3 demo_path [x01; x02]); [reflexivity| |reflexivity|reflexivity].
  intros p. exists []. split_and!; [apply prefix_nil|reflexivity|reflexivity].
Defined.

(** Why publishes must not overlap: two endpoints that write to one file at the
    same time can mix their frames, and a reader is handed payloads nobody
    published; and a publish after one that died half way is read as part of
    the dead one. *)
Definition overlapping : list FileEvent :=
  [Begin 0 demo_envelope 7200; Begin 1 demo_other 7200; WriteSome 0 3; WriteSome 1 3; WriteSome 0 1; WriteSome 1 0].
Example overlapping_publishes_garbled :
  complete (file_run overlapping) = [(demo_path, [x01; x02]); (demo_path, [x03])] ∧
  frames_in (default [] (files (file_run overlapping) !! demo_path)) = [[x00; x00]].
Proof. split; vm_compute; reflexivity. Qed.

Definition after_crash : list FileEvent :=
  [Begin 0 demo_envelope 7200; WriteSome 0 3; Crash 0; Begin 1 demo_other 7200; WriteSome 1 7].
Example crash_swallows_next :
  complete (file_run after_crash) = [(demo_path, [x03])] ∧
  frames_in (default [] (files (file_run after_crash) !! demo_path)) = [[x00; x00]].
Proof. split; vm_compute; reflexivity. Qed.
