(* ===== verification/Text.v ===== *)
(** * Text: what the command-line client uses of [str]

    Strings are their UTF-8 bytes. Slicing by a byte index panics inside a
    character; characters, lines and whitespace are as the standard library
    defines them. *)

From Stdlib Require Import Strings.Byte Strings.String.
From stdpp Require Import base gmap strings numbers sorting list.
From S2P Require Import Prelude Utf8 Storage.

(** [str::chars], each as its bytes: a character begins at every byte that
    continues none. *)
Fixpoint chars_from (l : list byte) : list byte * list (list byte) :=
  match l with
  | [] => ([], [])
  | b :: l => let '(conts, cs) := chars_from l in
              if is_cont b then (b :: conts, cs) else ([], (b :: conts) :: cs)
  end.
Definition chars (s : string) : list (list byte) := (chars_from (str_bytes s)).2.

(** [&s[..n.min(s.len())]]; [None] is the panic inside a character. *)
Definition slice_to (n : nat) (s : string) : option string :=
  match drop n (str_bytes s) with
  | b :: _ => if is_cont b then None else Some (bytes_str (take n (str_bytes s)))
  | [] => Some s
  end.

(** The first of [str::lines], or the empty string. *)
Fixpoint line_bytes (l : list byte) : list byte :=
  match l with
  | [] => []
  | x0d :: x0a :: _ => []
  | x0a :: _ => []
  | b :: l => b :: line_bytes l
  end.
Definition first_line (s : string) : string := bytes_str (line_bytes (str_bytes s)).

(** [char::is_whitespace]. *)
Definition whitespace : list (list byte) :=
  [[x09]; [x0a]; [x0b]; [x0c]; [x0d]; [x20]; [xc2; x85]; [xc2; xa0]; [xe1; x9a; x80];
   [xe2; x80; x80]; [xe2; x80; x81]; [xe2; x80; x82]; [xe2; x80; x83]; [xe2; x80; x84]; [xe2; x80; x85];
   [xe2; x80; x86]; [xe2; x80; x87]; [xe2; x80; x88]; [xe2; x80; x89]; [xe2; x80; x8a]; [xe2; x80; xa8];
   [xe2; x80; xa9]; [xe2; x80; xaf]; [xe2; x81; x9f]; [xe3; x80; x80]].
Definition is_whitespace (c : list byte) : bool := bool_decide (c ∈ whitespace).

Fixpoint skip_whitespace (cs : list (list byte)) : list (list byte) :=
  match cs with
  | c :: cs' => if is_whitespace c then skip_whitespace cs' else cs
  | [] => []
  end.

(** [str::trim]. *)
Definition trim_str (s : string) : string :=
  bytes_str (concat (rev (skip_whitespace (rev (skip_whitespace (chars s)))))).

(** [str::split_whitespace]: [word] is the token being read, reversed. *)
Fixpoint tokens (word : list (list byte)) (cs : list (list byte)) : list string :=
  let flush := match word with [] => [] | _ => [bytes_str (concat (rev word))] end in
  match cs with
  | [] => flush
  | c :: cs => if is_whitespace c then flush ++ tokens [] cs else tokens (c :: word) cs
  end.
Definition split_whitespace (s : string) : list string := tokens [] (chars s).

(** [splitn(2, ' ')]: the command and its arguments. *)
Fixpoint split_space (l : list byte) : list byte * option (list byte) :=
  match l with
  | [] => ([], None)
  | x20 :: l => ([], Some l)
  | b :: l => let '(first, rest) := split_space l in (b :: first, rest)
  end.

(** Strings order by their bytes. *)
Definition string_le (a b : string) : Prop := key_leb (str_bytes a) (str_bytes b) = true.
#[export] Instance string_le_dec a b : Decision (string_le a b).
Proof. unfold string_le. apply _. Defined.

(** [Vec::dedup]: equal neighbours become one. *)
Fixpoint dedup (l : list string) : list string :=
  match l with
  | a :: l' => match l' with
               | b :: _ => if decide (a = b) then dedup l' else a :: dedup l'
               | [] => [a]
               end
  | [] => []
  end.

(** Sorted and without repetitions: what [sort_unstable] and [dedup] leave,
    and what a [BTreeSet] iterates. *)
Definition sorted_set (l : list string) : list string := dedup (merge_sort string_le l).

Lemma str_bytes_app s t : str_bytes (s ++ t)%string = str_bytes s ++ str_bytes t.
Proof. induction s as [|c s IH]; [done|]. exact (f_equal (cons _) IH). Qed.

Definition starts_with_str (s prefix : string) : bool := starts_with (str_bytes s) (str_bytes prefix).

(** [&s[n..]]; [None] is the panic past the end or inside a character. *)
Definition slice_from (n : nat) (s : string) : option string :=
  match drop n (str_bytes s) with
  | b :: l => if is_cont b then None else Some (bytes_str (b :: l))
  | [] => if (n <=? length (str_bytes s)) then Some ""%string else None
  end.

(** [slice::chunks]: runs of [n], the last one possibly shorter. *)
Fixpoint chunks_loop {A} (fuel n : nat) (l : list A) : list (list A) :=
  match fuel, l with
  | S fuel, _ :: _ => take n l :: chunks_loop fuel n (drop n l)
  | _, _ => []
  end.
Definition chunks {A} (n : nat) (l : list A) : list (list A) := chunks_loop (length l) n l.

(** [str::split('\n')]. *)
Fixpoint split_newline (l : list byte) : list (list byte) :=
  match l with
  | [] => [[]]
  | x0a :: l => [] :: split_newline l
  | b :: l => match split_newline l with
              | line :: lines => (b :: line) :: lines
              | [] => [[b]]
              end
  end.

(** ** Characters of valid text *)

Lemma valid_not_cont b : 1 ≤ char_width b → is_cont b = false.
Proof. intros H. destruct b; try reflexivity; vm_compute in H; lia. Qed.

Lemma byte_in_weaken lo hi lo' hi' b :
  (lo' ≤ lo)%N → (hi ≤ hi')%N → byte_in lo hi b = true → byte_in lo' hi' b = true.
Proof. unfold byte_in. rewrite !andb_true_iff, !N.leb_le. lia. Qed.

Lemma second_ok_cont b0 b1 : second_ok b0 b1 = true → is_cont b1 = true.
Proof. unfold second_ok, is_cont. repeat case_match; try apply byte_in_weaken; done. Qed.

(** One character: a byte that continues none, and its continuation bytes. *)
Definition one_char (c : list byte) : Prop :=
  ∃ b t, c = b :: t ∧ is_cont b = false ∧ Forall (λ x, is_cont x = true) t.

Lemma utf8_step l :
  utf8_valid l = true → l ≠ [] →
  ∃ c rest, l = c ++ rest ∧ one_char c ∧ utf8_valid rest = true ∧
    ∀ rest', utf8_valid (c ++ rest') = utf8_valid rest'.
Proof.
  destruct l as [|b0 t0]; [done|]. intros Hv _. pose proof (char_width_le b0) as Hw.
  assert (1 ≤ char_width b0 → is_cont b0 = false) as Hb by apply valid_not_cont.
  destruct (char_width b0) as [|[|[|[|[|]]]]] eqn:Hc; [cbn in Hv; by rewrite Hc in Hv|..|lia].
  - rewrite utf8_valid_1 in Hv by done. exists [b0], t0. split_and!; [done| |done|].
    + exists b0, []. auto.
    + intros rest'. by apply utf8_valid_1.
  - destruct t0 as [|b1 t]; [cbn in Hv; by rewrite Hc in Hv|].
    rewrite utf8_valid_2 in Hv by done. apply andb_true_iff in Hv as [H1 Hv].
    exists [b0; b1], t. split_and!; [done| |done|].
    + exists b0, [b1]. split_and!; auto.
    + intros rest'. cbn [app]. rewrite utf8_valid_2 by done. by rewrite H1.
  - destruct t0 as [|b1 [|b2 t]]; [cbn in Hv; by rewrite Hc in Hv..|].
    rewrite utf8_valid_3 in Hv by done. apply andb_true_iff in Hv as [[H1 H2]%andb_true_iff Hv].
    exists [b0; b1; b2], t. split_and!; [done| |done|].
    + exists b0, [b1; b2]. apply second_ok_cont in H1. split_and!; auto.
    + intros rest'. cbn [app]. rewrite utf8_valid_3 by done. by rewrite H1, H2.
  - destruct t0 as [|b1 [|b2 [|b3 t]]]; [cbn in Hv; by rewrite Hc in Hv..|].
    rewrite utf8_valid_4 in Hv by done.
    apply andb_true_iff in Hv as [[[H1 H2]%andb_true_iff H3]%andb_true_iff Hv].
    exists [b0; b1; b2; b3], t. split_and!; [done| |done|].
    + exists b0, [b1; b2; b3]. apply second_ok_cont in H1. split_and!; auto.
    + intros rest'. cbn [app]. rewrite utf8_valid_4 by done. by rewrite H1, H2, H3.
Qed.

Lemma chars_from_cont t l :
  Forall (λ x, is_cont x = true) t → chars_from (t ++ l) = (t ++ (chars_from l).1, (chars_from l).2).
Proof.
  induction 1 as [|b t Hb _ IH]; cbn; [by destruct (chars_from l)|]. rewrite IH. by rewrite Hb.
Qed.

Lemma chars_from_char c l :
  one_char c → (chars_from l).1 = [] → chars_from (c ++ l) = ([], c :: (chars_from l).2).
Proof.
  intros (b & t & -> & Hb & Ht) Hl. cbn. rewrite chars_from_cont by done. by rewrite Hb, Hl, app_nil_r.
Qed.

(** The characters of valid text are characters, and put together are the text. *)
Lemma chars_from_valid l :
  utf8_valid l = true →
  (chars_from l).1 = [] ∧ concat (chars_from l).2 = l ∧ Forall one_char (chars_from l).2 ∧
  Forall (λ c, ∀ r, utf8_valid (c ++ r) = utf8_valid r) (chars_from l).2.
Proof.
  induction l as [l IH] using byte_list_ind. intros Hv. destruct (decide (l = [])) as [->|Hn]; [done|].
  destruct (utf8_step l Hv Hn) as (c & rest & -> & Hc & Hr & Hp).
  destruct (IH rest) as (H1 & H2 & H3 & H4); [|done|].
  { destruct Hc as (b & t & -> & _). rewrite length_app. cbn. lia. }
  rewrite chars_from_char by done. cbn. rewrite H2. auto.
Qed.

Lemma concat_valid cs :
  Forall (λ c, ∀ r, utf8_valid (c ++ r) = utf8_valid r) cs → utf8_valid (concat cs) = true.
Proof. induction 1 as [|c cs Hc _ IH]; [done|]. cbn. by rewrite Hc. Qed.

Lemma chars_from_concat cs : Forall one_char cs → chars_from (concat cs) = ([], cs).
Proof.
  induction 1 as [|c cs Hc _ IH]; [done|]. cbn [concat]. rewrite chars_from_char, IH; [done..|]. by rewrite IH.
Qed.

(** Characters put together are read as those characters. *)
Lemma chars_concat cs : Forall one_char cs → chars (bytes_str (concat cs)) = cs.
Proof.
  intros H. unfold chars. by rewrite list_byte_of_string_of_list_byte, chars_from_concat.
Qed.

(** ** Chunks *)

Lemma chunks_loop_spec {A} fuel n (l : list A) :
  0 < n → length l ≤ fuel →
  concat (chunks_loop fuel n l) = l ∧ Forall (λ c, c ≠ [] ∧ length c ≤ n) (chunks_loop fuel n l) ∧
  (∀ i c, chunks_loop fuel n l !! i = Some c → S i < length (chunks_loop fuel n l) → length c = n).
Proof.
  intros Hn. revert l. induction fuel as [|fuel IH]; intros l Hl.
  { destruct l; [|cbn in Hl; lia]. cbn. split_and!; [done|constructor|done]. }
  destruct l as [|x l]; [cbn; split_and!; [done|constructor|done]|].
  destruct (IH (drop n (x :: l))) as (H1 & H2 & H3); [rewrite length_drop; cbn in *; lia|].
  change (chunks_loop (S fuel) n (x :: l)) with
    (take n (x :: l) :: chunks_loop fuel n (drop n (x :: l))).
  split_and!.
  - cbn [concat]. rewrite H1. apply take_drop.
  - constructor; [|done]. split; [destruct n; [lia|done]|]. rewrite length_take. lia.
  - intros [|i] c; [|intros Hi Hlt; apply (H3 i c); [done|cbn in Hlt; lia]].
    cbn [lookup list_lookup]. intros [= <-] Hlt. rewrite length_take.
    destruct (decide (n ≤ length (x :: l))); [lia|]. exfalso.
    rewrite drop_ge in Hlt by lia. destruct fuel; cbn in Hlt; lia.
Qed.

Lemma chunks_spec {A} n (l : list A) :
  0 < n →
  concat (chunks n l) = l ∧ Forall (λ c, c ≠ [] ∧ length c ≤ n) (chunks n l) ∧
  (∀ i c, chunks n l !! i = Some c → S i < length (chunks n l) → length c = n).
Proof. intros Hn. by apply chunks_loop_spec. Qed.

(** ** Lines *)

Lemma split_newline_nonempty l : split_newline l ≠ [].
Proof. destruct l as [|b l]; [done|]. cbn. by destruct b, (split_newline l). Qed.

(** Joining with a newline. *)
Fixpoint join_newline (ls : list (list byte)) : list byte :=
  match ls with [] => [] | [l] => l | l :: ls => l ++ x0a :: join_newline ls end.

Lemma split_newline_cons b l :
  b ≠ x0a → ∃ line lines, split_newline l = line :: lines ∧ split_newline (b :: l) = (b :: line) :: lines.
Proof.
  intros Hb. destruct (split_newline l) as [|line lines] eqn:Hs; [by apply split_newline_nonempty in Hs|].
  exists line, lines. split; [done|]. cbn. rewrite Hs. by destruct b.
Qed.

Lemma join_split l : join_newline (split_newline l) = l.
Proof.
  induction l as [|b l IH]; [done|]. destruct (decide (b = x0a)) as [->|Hb].
  - cbn [split_newline]. destruct (split_newline l) as [|l0 ls] eqn:Hs;
      [by apply split_newline_nonempty in Hs|].
    change (x0a :: join_newline (l0 :: ls) = x0a :: l). by rewrite IH.
  - destruct (split_newline_cons b l Hb) as (line & lines & Hs & ->). rewrite Hs in IH.
    destruct lines; cbn in *; congruence.
Qed.

Lemma cont_not_newline b : is_cont b = true → b ≠ x0a.
Proof. by intros H ->. Qed.

(** A character without a newline joins the line it stands on. *)
Lemma split_newline_app c l :
  Forall (λ b, b ≠ x0a) c →
  ∃ line lines, split_newline l = line :: lines ∧ split_newline (c ++ l) = (c ++ line) :: lines.
Proof.
  induction 1 as [|b c Hb _ (line & lines & Hs & IH)].
  - destruct (split_newline l) as [|line lines] eqn:Hs; [by apply split_newline_nonempty in Hs|]. eauto.
  - destruct (split_newline_cons b (c ++ l) Hb) as (line' & lines' & E & E').
    rewrite IH in E. injection E as <- <-. exists line, lines. split; [done|]. exact E'.
Qed.

(** The lines of valid text are valid. *)
Lemma split_newline_valid l :
  utf8_valid l = true → Forall (λ line, utf8_valid line = true) (split_newline l).
Proof.
  induction l as [l IH] using byte_list_ind. intros Hv.
  destruct (decide (l = [])) as [->|Hn]; [by repeat constructor|].
  destruct (utf8_step l Hv Hn) as (c & rest & -> & (b & t & -> & Hb & Ht) & Hr & Hp).
  assert (Forall (λ line, utf8_valid line = true) (split_newline rest)) as IH'.
  { apply IH; [|done]. rewrite length_app. cbn. lia. }
  destruct (decide (b = x0a)) as [->|Hne].
  - assert (t = []) as ->; [|cbn; by constructor]. destruct t as [|b t]; [done|]. exfalso.
    apply Forall_cons_1 in Ht as [Hb1 _]. specialize (Hp []). cbn in Hp. rewrite app_nil_r in Hp.
    destruct b; vm_compute in Hb1; try discriminate; by cbn in Hp.
  - destruct (split_newline_app (b :: t) rest) as (line & lines & Hs & ->).
    { constructor; [done|]. eapply Forall_impl; [exact Ht|]. intros x. apply cont_not_newline. }
    rewrite Hs in IH'. apply Forall_cons_1 in IH' as [H1 H2]. constructor; [|done]. by rewrite Hp.
Qed.
