(* ===== verification/Endpoints.v ===== *)
(** * Transports a client is given ([crates/generic-chat/src/delivery_in_process.rs],
      [extensions/embedded-logos-delivery/src/lib.rs])

    A client's endpoint on the in-process bus, with the receiver it hands over
    once; and the embedded delivery node, which maps delivery addresses to
    content topics and keeps the payloads of chat topics. The bus is shown to
    be what it promises: a run of it, whatever endpoints come, subscribe twice
    or go, hands each endpoint exactly the payloads published to the addresses
    it subscribed to before. The node itself is an interface. *)

From Stdlib Require Import Strings.Byte Strings.String.
From stdpp Require Import base gmap strings numbers list.
From S2P Require Import Prelude Utf8 Delivery Text.

(** ** [InProcessDelivery] *)

(** An endpoint: the channel it sends into, and its receiver until it is
    handed over. The bus is shared, and passed along. *)
Record InProcessDelivery := { ip_tx : nat; ip_rx : option nat }.

(** [unbounded()]: a channel nobody else has. *)
Definition bus_channel (b : MessageBus) : MessageBus * nat :=
  let c := fresh (dom (channels b)) in
  ({| routes := routes b; channels := <[c := {| ch_alive := true; ch_queue := [] |}]> (channels b) |}, c).

Definition in_process_new (b : MessageBus) : MessageBus * InProcessDelivery :=
  let '(b, c) := bus_channel b in (b, {| ip_tx := c; ip_rx := Some c |}).
Definition in_process_publish (b : MessageBus) (d : InProcessDelivery) (e : AddressedEnvelope)
  : MessageBus * result string () :=
  (bus_publish b (delivery_address e) (env_data e), Ok ()).
Definition in_process_subscribe (b : MessageBus) (d : InProcessDelivery) (a : string)
  : MessageBus * result string () :=
  (bus_register b a (ip_tx d), Ok ()).

(** [Transport::inbound]; [None] is the panic of a second call. *)
Definition in_process_inbound (d : InProcessDelivery) : option (InProcessDelivery * nat) :=
  rx ← ip_rx d; Some ({| ip_tx := ip_tx d; ip_rx := None |}, rx).

(** The receiver's side: taking the next payload, and being dropped. *)
Definition ch_recv (chs : gmap nat Channel) (rx : nat) : option (gmap nat Channel * list byte) :=
  ch ← chs !! rx;
  match ch_queue ch with
  | d :: q => if ch_alive ch then Some (<[rx := {| ch_alive := true; ch_queue := q |}]> chs, d) else None
  | [] => None
  end.
Definition ch_drop (chs : gmap nat Channel) (rx : nat) : gmap nat Channel :=
  match chs !! rx with
  | Some ch => <[rx := {| ch_alive := false; ch_queue := [] |}]> chs
  | None => chs
  end.

(** ** [EmbeddedLogosDelivery] *)

Definition CHAT_TOPIC_PREFIX : string := "/logos-chat/1/".
Definition CONNECT_WAIT_MS : N := 3000.

Definition content_topic_for (delivery_address : string) : string :=
  (CHAT_TOPIC_PREFIX ++ delivery_address ++ "/proto")%string.

Record P2pConfig := { p2p_preset : string; p2p_port : N; p2p_log_level : string }.
Definition p2p_default : P2pConfig := {| p2p_preset := "logos.test"; p2p_port := 0; p2p_log_level := "ERROR" |}.

(** What the program sets of the node's configuration. *)
Record NodeSettings := {
  ns_preset : string; ns_tcp_port : N; ns_discv5_udp_port : N; ns_log_level : string; ns_wait_ms : N;
}.

(** The delivery node: it starts or says why not, takes calls by content
    topic, and has received messages, each with its topic. *)
Class DeliveryNode (N : Type) := {
  DeliveryError : Type;
  startup_error : string → DeliveryError;
  show_delivery : DeliveryError → string;
  node_open : NodeSettings → result DeliveryError N;
  node_publish : N → string → list byte → N * result DeliveryError ();
  node_subscribe : N → string → N * result DeliveryError ();
  node_unsubscribe : N → string → N * result DeliveryError ();
  node_shutdown : N → N * result DeliveryError ();
  node_received : N → list (string * list byte);
}.

Section embedded.
Context {N : Type} {ND : DeliveryNode N}.

(** The service; its clones share it. [em_inbound] is the receiver not yet
    taken. *)
Record EmbeddedLogosDelivery := { em_node : N; em_inbound : bool }.

Definition node_settings (cfg : P2pConfig) : NodeSettings :=
  {| ns_preset := p2p_preset cfg; ns_tcp_port := p2p_port cfg; ns_discv5_udp_port := 0;
     ns_log_level := p2p_log_level cfg; ns_wait_ms := CONNECT_WAIT_MS |}.

Definition BLOCKING_START : string :=
  "start blocks the calling thread: call it outside a tokio runtime, e.g. from tokio::task::spawn_blocking".

(** [start]; [in_runtime] says whether the caller is on a tokio runtime,
    [runtime] whether one can be built. *)
Definition embedded_start (in_runtime : bool) (runtime : result string ()) (cfg : P2pConfig)
  : result DeliveryError EmbeddedLogosDelivery :=
  if in_runtime then Err (startup_error BLOCKING_START)
  else
    _ ← map_err startup_error runtime;
    inner ← node_open (node_settings cfg);
    Ok {| em_node := inner; em_inbound := true |}.

(** The filter of the inbound queue, and what the receiver yields. *)
Definition chat_payload (m : string * list byte) : option (list byte) :=
  if starts_with_str m.1 CHAT_TOPIC_PREFIX then Some m.2 else None.
Definition inbound_payloads (d : EmbeddedLogosDelivery) : list (list byte) :=
  omap chat_payload (node_received (em_node d)).

Definition with_node {X} (d : EmbeddedLogosDelivery) (r : N * X) : EmbeddedLogosDelivery * X :=
  ({| em_node := r.1; em_inbound := em_inbound d |}, r.2).

Definition embedded_publish (d : EmbeddedLogosDelivery) (e : AddressedEnvelope) :=
  with_node d (node_publish (em_node d) (content_topic_for (delivery_address e)) (env_data e)).
Definition embedded_subscribe (d : EmbeddedLogosDelivery) (a : string) :=
  with_node d (node_subscribe (em_node d) (content_topic_for a)).
Definition embedded_unsubscribe (d : EmbeddedLogosDelivery) (a : string) :=
  with_node d (node_unsubscribe (em_node d) (content_topic_for a)).
Definition embedded_shutdown (d : EmbeddedLogosDelivery) := with_node d (node_shutdown (em_node d)).

(** [Drop] of the last clone: the node is stopped, off a runtime thread. *)
Definition embedded_drop (in_runtime : bool) (d : EmbeddedLogosDelivery) : EmbeddedLogosDelivery :=
  if in_runtime then d else (embedded_shutdown d).1.

(** [Transport::inbound]; [None] is the panic of a second call. *)
Definition embedded_inbound (d : EmbeddedLogosDelivery) : option EmbeddedLogosDelivery :=
  if em_inbound d then Some {| em_node := em_node d; em_inbound := false |} else None.

#[export] Instance embedded_delivery : DeliveryService EmbeddedLogosDelivery := {|
  ds_publish d e := let '(d, r) := embedded_publish d e in (d, map_err show_delivery r);
  ds_subscribe d a := let '(d, r) := embedded_subscribe d a in (d, map_err show_delivery r);
|}.

(** ** Topics *)

Lemma content_topic_inj a b : content_topic_for a = content_topic_for b → a = b.
Proof.
  unfold content_topic_for. intros H%(inj (String.append _))%(f_equal str_bytes).
  rewrite !str_bytes_app in H. apply app_inv_tail, (f_equal bytes_str) in H.
  by rewrite !string_of_list_byte_of_string in H.
Qed.

Lemma content_topic_chat a data : chat_payload (content_topic_for a, data) = Some data.
Proof.
  unfold chat_payload, starts_with_str. cbn [fst snd].
  assert (starts_with (str_bytes (content_topic_for a)) (str_bytes CHAT_TOPIC_PREFIX) = true) as ->; [|done].
  apply starts_with_spec. unfold content_topic_for. rewrite str_bytes_app. by apply prefix_app_r.
Qed.

(** What the node received on the topic of an address comes out of the
    receiver whole and in its place; what came on a topic outside the chat's
    never does; and the receiver is handed over once. *)
Lemma embedded_faithful d a data pre post :
  node_received (em_node d) = pre ++ (content_topic_for a, data) :: post →
  inbound_payloads d = omap chat_payload pre ++ data :: omap chat_payload post ∧
  ∀ d', embedded_inbound d = Some d' → embedded_inbound d' = None ∧ inbound_payloads d' = inbound_payloads d.
Proof.
  intros H. unfold inbound_payloads. rewrite H, omap_app. cbn [omap list_omap]. rewrite content_topic_chat.
  split; [done|]. unfold embedded_inbound. intros d'. destruct (em_inbound d); [|done]. intros [= <-]. cbn.
  rewrite H, omap_app. cbn [omap list_omap]. by rewrite content_topic_chat.
Qed.

(** How a client starts its node ([open], [client_with]). *)
Definition embedded_node (in_runtime : bool) (runtime : result string ()) (cfg : P2pConfig)
  : result string EmbeddedLogosDelivery :=
  map_err show_delivery (embedded_start in_runtime runtime cfg).
End embedded.
Arguments EmbeddedLogosDelivery : clear implicits.

(** ** A run of the bus *)

(** What endpoints do, by channel. *)
Inductive BusOp : Type :=
| BusNew
| BusSubscribe (tx : nat) (a : string)
| BusPublish (e : AddressedEnvelope)
| BusReceive (rx : nat)
| BusDrop (rx : nat).

(** The bus, and what each receiver has taken so far. *)
Record BusRun := { br_bus : MessageBus; br_got : gmap nat (list (list byte)) }.
Definition bus_new : MessageBus := {| routes := ∅; channels := ∅ |}.
Definition run_new : BusRun := {| br_bus := bus_new; br_got := ∅ |}.

Definition got (s : BusRun) (rx : nat) : list (list byte) := default [] (br_got s !! rx).
Definition set_bus (b : MessageBus) (s : BusRun) : BusRun := {| br_bus := b; br_got := br_got s |}.
Definition set_channels (chs : gmap nat Channel) (b : MessageBus) : MessageBus :=
  {| routes := routes b; channels := chs |}.

(** An endpoint there is no value of does nothing. *)
Definition bus_step (s : BusRun) (op : BusOp) : BusRun :=
  let b := br_bus s in
  match op with
  | BusNew => set_bus (in_process_new b).1 s
  | BusSubscribe tx a =>
      match channels b !! tx with
      | Some _ => set_bus (in_process_subscribe b {| ip_tx := tx; ip_rx := None |} a).1 s
      | None => s
      end
  | BusPublish e => set_bus (in_process_publish b {| ip_tx := 0; ip_rx := None |} e).1 s
  | BusReceive rx =>
      match ch_recv (channels b) rx with
      | Some (chs, d) => {| br_bus := set_channels chs b; br_got := <[rx := got s rx ++ [d]]> (br_got s) |}
      | None => s
      end
  | BusDrop rx => set_bus (set_channels (ch_drop (channels b) rx) b) s
  end.

(** The promise: an endpoint is a mailbox with its addresses, and a payload
    goes into every open mailbox that has the address it is published to. *)
Record Mailbox := { mb_addresses : gset string; mb_open : bool; mb_mail : list (list byte) }.

Definition put_mail (e : AddressedEnvelope) (m : Mailbox) : Mailbox :=
  if mb_open m && bool_decide (delivery_address e ∈ mb_addresses m)
  then {| mb_addresses := mb_addresses m; mb_open := true; mb_mail := mb_mail m ++ [env_data e] |}
  else m.
Definition add_address (a : string) (m : Mailbox) : Mailbox :=
  {| mb_addresses := {[a]} ∪ mb_addresses m; mb_open := mb_open m; mb_mail := mb_mail m |}.
Definition close_mailbox (m : Mailbox) : Mailbox :=
  {| mb_addresses := mb_addresses m; mb_open := false; mb_mail := mb_mail m |}.

Definition mail_step (ms : gmap nat Mailbox) (op : BusOp) : gmap nat Mailbox :=
  match op with
  | BusNew => <[fresh (dom ms) := {| mb_addresses := ∅; mb_open := true; mb_mail := [] |}]> ms
  | BusSubscribe tx a => alter (add_address a) tx ms
  | BusPublish e => put_mail e <$> ms
  | BusReceive _ => ms
  | BusDrop rx => alter close_mailbox rx ms
  end.

(** Who is routed an address. *)
Definition routed (b : MessageBus) (a : string) (tx : nat) : Prop := tx ∈ default [] (routes b !! a).
#[export] Instance routed_dec b a tx : Decision (routed b a tx).
Proof. unfold routed. apply _. Defined.

(** A channel stands for a mailbox: what was taken and what waits is the mail,
    and it is routed exactly its addresses. *)
Definition stands_for (s : BusRun) (tx : nat) (m : Mailbox) (ch : Channel) : Prop :=
  ch_alive ch = mb_open m ∧
  (mb_open m = true →
     got s tx ++ ch_queue ch = mb_mail m ∧
     ∀ a, routed (br_bus s) a tx ↔ a ∈ mb_addresses m).
Record bus_refines (s : BusRun) (ms : gmap nat Mailbox) : Prop := {
  br_ok : bus_ok (br_bus s);
  br_routed a tx : routed (br_bus s) a tx → tx ∈ dom ms;
  br_got_dom tx : is_Some (br_got s !! tx) → tx ∈ dom ms;
  br_stands : map_Forall2 (stands_for s) ms (channels (br_bus s));
}.

Lemma refines_dom s ms : bus_refines s ms → dom (channels (br_bus s)) = dom ms.
Proof. intros H. symmetry. apply (map_Forall2_dom_L _ _ _ (br_stands _ _ H)). Qed.

Lemma run_new_refines : bus_refines run_new ∅.
Proof.
  split; [apply map_Forall_empty| | |apply map_Forall2_empty].
  - intros a tx. unfold routed. cbn. rewrite lookup_empty. by intros ?%elem_of_nil.
  - intros tx [? H]. cbn in H. by rewrite lookup_empty in H.
Qed.

Lemma new_refines s ms : bus_refines s ms → bus_refines (bus_step s BusNew) (mail_step ms BusNew).
Proof.
  intros H. pose proof (refines_dom _ _ H) as Hd. destruct H as [Hok Hr Hg Hs]. cbn. rewrite Hd.
  set (c := fresh (dom ms)). assert (c ∉ dom ms) as Hc by apply is_fresh.
  split; cbn [br_bus br_got routes channels set_bus fst].
  - done.
  - intros a tx Ha%Hr. rewrite dom_insert_L. set_solver.
  - intros tx Ht%Hg. rewrite dom_insert_L. set_solver.
  - apply map_Forall2_insert_2; [|done]. split; [done|]. intros _. split.
    + unfold got. cbn. destruct (br_got s !! c) eqn:E; [|done]. destruct Hc. apply Hg. by rewrite E.
    + intros a. cbn. split; [|set_solver]. intros Ha%Hr. done.
Qed.

Lemma routed_register b a tx a' tx' :
  routed (bus_register b a tx) a' tx' ↔ routed b a' tx' ∨ (a' = a ∧ tx' = tx).
Proof.
  unfold routed, bus_register.
  case_decide as Hin; cbn; (destruct (decide (a' = a)) as [->|]; [rewrite lookup_insert_eq; cbn|rewrite lookup_insert_ne by done]);
    rewrite ?elem_of_app, ?list_elem_of_singleton; naive_solver.
Qed.

Lemma channels_register b a tx : channels (bus_register b a tx) = channels b.
Proof. unfold bus_register. by case_decide. Qed.

Lemma subscribe_refines s ms tx a :
  bus_refines s ms → bus_refines (bus_step s (BusSubscribe tx a)) (mail_step ms (BusSubscribe tx a)).
Proof.
  intros [Hok Hr Hg Hs]. cbn. destruct (channels (br_bus s) !! tx) as [ch|] eqn:Hch.
  2: { rewrite alter_id; [by split|]. intros m Hm. pose proof (Hs tx) as Hx. rewrite Hm, Hch in Hx. inversion Hx. }
  split; cbn [br_bus br_got set_bus fst in_process_subscribe ip_tx].
  - by apply bus_register_ok.
  - intros a' tx'. rewrite dom_alter_L, routed_register. intros [?|[-> ->]]; [by eapply Hr|].
    rewrite (map_Forall2_dom_L _ _ _ Hs). by apply elem_of_dom_2 in Hch.
  - intros tx' Ht. rewrite dom_alter_L. by apply Hg.
  - rewrite channels_register. intros tx'. pose proof (Hs tx') as Hx.
    assert (∀ a' tx', routed (bus_register (br_bus s) a tx) a' tx' ↔ routed (br_bus s) a' tx' ∨ a' = a ∧ tx' = tx)
      as Hreg by (intros; apply routed_register).
    destruct (decide (tx' = tx)) as [->|Hne]; rewrite ?lookup_alter_eq, ?lookup_alter_ne by done.
    all: destruct Hx as [m ch' [H1 H2]|]; constructor; (split; [done|]); intros Ho; destruct (H2 Ho) as [H3 H4].
    all: (split; [done|]); intros a'; cbn; rewrite Hreg, H4; set_solver.
Qed.

(** Publishing unroutes the endpoints that have gone, and nothing else. *)
Lemma routed_publish b a data a' tx :
  bus_ok b →
  routed (bus_publish b a data) a' tx ↔ routed b a' tx ∧ (a' = a → chan_alive (channels b) tx = true).
Proof.
  intros Hok. unfold routed. destruct (routes b !! a) as [l|] eqn:Hl.
  2: { unfold bus_publish. rewrite Hl. split; [|naive_solver]. intros H. split; [done|]. intros ->.
       rewrite Hl in H. by apply elem_of_nil in H. }
  destruct (bus_publish_spec b a data l Hok Hl) as (_ & Hra & _).
  destruct (decide (a' = a)) as [->|Hne].
  - rewrite Hra, Hl. cbn. rewrite list_elem_of_filter. naive_solver.
  - unfold bus_publish. rewrite Hl. destruct (fan_out _ _ _). cbn. rewrite lookup_insert_ne by done. naive_solver.
Qed.

Lemma publish_ok b a data : bus_ok b → bus_ok (bus_publish b a data).
Proof.
  intros Hok. destruct (routes b !! a) as [l|] eqn:Hl; [by apply (bus_publish_spec b a data l)|].
  unfold bus_publish. by rewrite Hl.
Qed.

Lemma channels_publish b a data tx :
  bus_ok b →
  channels (bus_publish b a data) !! tx =
    if decide (routed b a tx) then deliver data <$> channels b !! tx else channels b !! tx.
Proof.
  intros Hok. destruct (routes b !! a) as [l|] eqn:Hl.
  - destruct (bus_publish_spec b a data l Hok Hl) as (_ & _ & ->).
    apply decide_ext. unfold routed. by rewrite Hl.
  - unfold bus_publish. rewrite Hl, decide_False; [done|]. unfold routed. rewrite Hl. apply not_elem_of_nil.
Qed.

Lemma publish_refines s ms e :
  bus_refines s ms → bus_refines (bus_step s (BusPublish e)) (mail_step ms (BusPublish e)).
Proof.
  intros [Hok Hr Hg Hs]. cbn [bus_step mail_step in_process_publish fst]. destruct e as [a data].
  split; cbn [br_bus br_got set_bus delivery_address env_data].
  - by apply publish_ok.
  - intros a' tx [Ha _]%routed_publish; [|done]. rewrite dom_fmap_L. by eapply Hr.
  - intros tx Ht. rewrite dom_fmap_L. by apply Hg.
  - intros tx. rewrite lookup_fmap, channels_publish by done. pose proof (Hs tx) as Hx.
    destruct (ms !! tx) as [m|] eqn:Hm, (channels (br_bus s) !! tx) as [ch|] eqn:Hc; inversion Hx as [? ? [H1 H2]|];
      subst; cbn [fmap option_fmap option_map]; [|case_decide; constructor].
    assert (∀ a', mb_open m = true → routed (bus_publish (br_bus s) a data) a' tx ↔ a' ∈ mb_addresses m) as Hp.
    { intros a' Ho. rewrite routed_publish by done. destruct (H2 Ho) as [_ H4]. rewrite H4. unfold chan_alive.
      rewrite Hc, H1, Ho. naive_solver. }
    unfold put_mail. destruct (mb_open m) eqn:Ho.
    + destruct (H2 eq_refl) as [H3 H4]. cbn [andb delivery_address env_data].
      case_decide as Hin; rewrite H4 in Hin.
      * rewrite bool_decide_true by done. constructor. split; cbn; [by unfold deliver; rewrite H1|].
        intros _. unfold deliver. rewrite H1. cbn. split; [|by intros a'; apply Hp].
        unfold got in *. cbn. by rewrite app_assoc, H3.
      * rewrite bool_decide_false by done. constructor. split; [congruence|]. intros _.
        split; [done|by intros a'; apply Hp].
    + cbn [andb]. assert (deliver data ch = ch) as Hdel by (unfold deliver; by rewrite H1).
      case_decide; rewrite ?Hdel; constructor; (split; [congruence|]); congruence.
Qed.

Lemma receive_refines s ms rx :
  bus_refines s ms → bus_refines (bus_step s (BusReceive rx)) (mail_step ms (BusReceive rx)).
Proof.
  intros [Hok Hr Hg Hs]. cbn. unfold ch_recv.
  destruct (channels (br_bus s) !! rx) as [ch|] eqn:Hc; cbn; [|by split].
  destruct (ch_queue ch) as [|d q] eqn:Hq; [by split|]. destruct (ch_alive ch) eqn:Ha; [|by split].
  pose proof (Hs rx) as Hx. rewrite Hc in Hx. inversion Hx as [m ? [H1 H2] Hm|]; subst.
  split; cbn [br_bus br_got set_channels channels routes].
  - done.
  - done.
  - intros tx Ht. destruct (decide (tx = rx)) as [->|]; [apply elem_of_dom; by rewrite <- Hm|].
    rewrite lookup_insert_ne in Ht by done. by apply Hg.
  - intros tx. destruct (decide (tx = rx)) as [->|Hne].
    + rewrite lookup_insert_eq, <- Hm. constructor. split; [cbn; congruence|]. intros Ho.
      destruct (H2 Ho) as [H3 H4]. split; [|done]. unfold got. cbn. rewrite lookup_insert_eq. cbn.
      rewrite <- app_assoc. cbn. by rewrite <- Hq.
    + rewrite lookup_insert_ne by done. destruct (Hs tx) as [m' ch' [H3 H4]|]; constructor.
      split; [done|]. intros Ho. destruct (H4 Ho). split; [|done]. unfold got. cbn. by rewrite lookup_insert_ne.
Qed.

Lemma drop_refines s ms rx :
  bus_refines s ms → bus_refines (bus_step s (BusDrop rx)) (mail_step ms (BusDrop rx)).
Proof.
  intros [Hok Hr Hg Hs]. cbn. unfold ch_drop.
  split; cbn [br_bus br_got set_bus set_channels routes channels]; rewrite ?dom_alter_L; try done.
  intros tx. pose proof (Hs tx) as Hx. destruct (channels (br_bus s) !! rx) as [ch|] eqn:Hc.
  - destruct (decide (tx = rx)) as [->|Hne].
    + rewrite lookup_insert_eq, lookup_alter_eq. rewrite Hc in Hx. inversion Hx; subst. constructor. split; done.
    + rewrite lookup_insert_ne, lookup_alter_ne by done. done.
  - rewrite alter_id; [done|]. intros m Hm. pose proof (Hs rx) as Hrx. rewrite Hm, Hc in Hrx. inversion Hrx.
Qed.

Lemma bus_step_refines s ms op : bus_refines s ms → bus_refines (bus_step s op) (mail_step ms op).
Proof.
  destruct op; [apply new_refines|apply subscribe_refines|apply publish_refines|apply receive_refines|apply drop_refines].
Qed.

Lemma bus_run_refines s ms ops : bus_refines s ms → bus_refines (fold_left bus_step ops s) (fold_left mail_step ops ms).
Proof.
  revert s ms. induction ops as [|op ops IH]; intros s ms H; cbn; [done|]. by apply IH, bus_step_refines.
Qed.

(** ** Properties *)

(** C39. The in-process bus refines its promise over every sequence of endpoints
    made, subscriptions (repeated ones too), publishes, receives and receivers
    dropped: what an endpoint has taken and what still waits for it is, in
    order and once each, what was published to an address it had subscribed
    to; and an endpoint that has gone is no longer sent to. *)
Theorem in_process_refines ops :
  let s := fold_left bus_step ops run_new in
  let ms := fold_left mail_step ops ∅ in
  dom (channels (br_bus s)) = dom ms ∧
  ∀ tx m, ms !! tx = Some m →
    ∃ ch, channels (br_bus s) !! tx = Some ch ∧ ch_alive ch = mb_open m ∧
      (mb_open m = true → got s tx ++ ch_queue ch = mb_mail m) ∧
      (mb_open m = false → ∀ e, let b := bus_publish (br_bus s) (delivery_address e) (env_data e) in
         channels b !! tx = Some ch ∧ ¬ routed b (delivery_address e) tx).
Proof.
  intros s ms. pose proof (bus_run_refines _ _ ops run_new_refines) as H. fold s ms in H.
  split; [by apply refines_dom|]. intros tx m Hm. destruct H as [Hok _ _ Hs].
  pose proof (Hs tx) as Hx. rewrite Hm in Hx. inversion Hx as [? ch [H1 H2]|]; subst. exists ch.
  split_and!; [done|done|by intros Ho; apply H2|]. intros Ho e b. split.
  - unfold b. rewrite channels_publish by done. case_decide; [|done].
    match goal with E : Some ch = _ |- _ => rewrite <- E end. cbn. unfold deliver. by rewrite H1, Ho.
  - unfold b. rewrite routed_publish by done. unfold chan_alive.
    match goal with E : Some ch = _ |- _ => rewrite <- E end. rewrite H1, Ho. naive_solver.
Qed.
