(* ===== verification/KeyVault.v ===== *)
(** * The key vault ([extensions/components/src/key_vault/basic_file_key_vault.rs])

    Accounts and installations as files of one seed each, one folder per
    account, created on first use. The file system is the files by path and
    the folders there are; what may go wrong with one (reading, listing,
    writing, and how much a failed write left behind) is a parameter of each
    call. The directory is the interface [AccountProvider], with a free state.
    [None] is a panic of the account's draft, which never happens. *)

From Stdlib Require Import Strings.Byte Strings.String.
From stdpp Require Import base gmap strings numbers pretty sorting list.
From S2P Require Import Prelude Utf8 Hex Ed25519 Context AccountLog Codec Addr Draft Record Account.
From S2P Require Import AccountTheorems Storage Text.

(** ** Paths and files *)

(** An absolute path, by its components. *)
Abbreviation VaultPath := (list string).

(** What the system finds at a path: [.] and [..] are not names. *)
Definition resolve_step (p : VaultPath) (c : string) : VaultPath :=
  if decide (c = "."%string) then p else if decide (c = ".."%string) then removelast p else p ++ [c].
Definition resolved (dir : VaultPath) (comps : list string) : VaultPath := fold_left resolve_step comps dir.

Record Fs := { fs_files : gmap VaultPath (list byte); fs_dirs : gset VaultPath }.

(** What goes wrong: [fault_write] also says what a failed write left. *)
Record Faults := {
  fault_read : VaultPath → option string;
  fault_list : VaultPath → option string;
  fault_mkdir : VaultPath → option string;
  fault_write : VaultPath → option (string * option nat);
}.
Definition no_faults : Faults :=
  {| fault_read _ := None; fault_list _ := None; fault_mkdir _ := None; fault_write _ := None |}.

Definition set_file (p : VaultPath) (b : list byte) (fs : Fs) : Fs :=
  {| fs_files := <[p := b]> (fs_files fs); fs_dirs := fs_dirs fs |}.

(** Every folder on the way to [p], and [p]. *)
Definition ancestors (p : VaultPath) : list VaultPath := map (λ n, take n p) (seq 0 (S (length p))).
Definition make_dirs (p : VaultPath) (fs : Fs) : Fs :=
  {| fs_files := fs_files fs; fs_dirs := list_to_set (ancestors p) ∪ fs_dirs fs |}.

(** ** Errors *)

Module KeyVaultError.
Inductive t : Type :=
| NotFound (id : string)
| AlreadyExists (id : string)
| AccessDenied
| InvalidAlias (reason : string)
| Publish (e : AccountError.t)
| Storage (e : string).
End KeyVaultError.

Definition ACCOUNT_FILE : string := "account.key".
Definition INSTALLATIONS_DIR : string := "installations".
Definition KEY_EXT : string := "key".
Definition VAULT_SEED_LEN : nat := 32.

(** ** Aliases *)

(** [str::parse::<u32>]: digits, after an optional plus, without overflow. *)
Definition digit_of (b : byte) : N := (Byte.to_N b - 48)%N.
Fixpoint parse_digits (acc : N) (l : list byte) : option N :=
  match l with
  | [] => Some acc
  | b :: l =>
      if is_ascii_digit b then
        let acc := (acc * 10 + digit_of b)%N in
        if (acc <? 2 ^ 32)%N then parse_digits acc l else None
      else None
  end.
Definition parse_u32 (s : string) : option N :=
  match str_bytes s with
  | [] => None
  | x2b :: [] => None
  | x2b :: l => parse_digits 0 l
  | l => parse_digits 0 l
  end.

(** [str::split_once(':')]. *)
Fixpoint split_colon (l : list byte) : option (list byte * list byte) :=
  match l with
  | [] => None
  | x3a :: l => Some ([], l)
  | b :: l => match split_colon l with Some (first, rest) => Some (b :: first, rest) | None => None end
  end.

Definition is_ascii_uppercase : byte → bool := byte_in 65 90.
Definition name_byte (b : byte) : bool :=
  is_ascii_lowercase b || is_ascii_uppercase b || is_ascii_digit b
  || bool_decide (b = x2d) || bool_decide (b = x5f) || bool_decide (b = x2e).

Definition invalid {A} (reason : string) : result KeyVaultError.t A := Err (KeyVaultError.InvalidAlias reason).

(** The checks on the two halves. *)
Definition check_alias (account : string) (number : N) : result KeyVaultError.t (string * N) :=
  if decide (account = ""%string) then invalid "an alias needs an account name"
  else if negb (forallb name_byte (str_bytes account)) then
    invalid ("'" ++ account ++ "' is not a name: use letters, digits, '-', '_' or '.'")
  else if (number =? 0)%N then invalid "installations are numbered from 1"
  else Ok (account, number).

Definition parse_alias (text : string) : result KeyVaultError.t (string * N) :=
  match split_colon (str_bytes text) with
  | Some (account, number) =>
      match parse_u32 (bytes_str number) with
      | Some n => check_alias (bytes_str account) n
      | None => invalid ("'" ++ bytes_str number ++ "' is not an installation number")
      end
  | None => check_alias text 1
  end%string.

(** ** Key files *)

Fixpoint display_path (p : VaultPath) : string :=
  match p with [] => "" | c :: p => "/" ++ c ++ display_path p end%string.

(** [seed_at]. *)
Definition seed_at (F : Faults) (p : VaultPath) (fs : Fs) : result KeyVaultError.t (option (list byte)) :=
  match fault_read F p with
  | Some e => Err (KeyVaultError.Storage e)
  | None =>
      match fs_files fs !! p with
      | None => Ok None
      | Some bytes =>
          if decide (length bytes = VAULT_SEED_LEN) then Ok (Some bytes)
          else Err (KeyVaultError.Storage
                 (display_path p ++ " holds " ++ pretty (length bytes) ++ " bytes, not a key"))
      end
  end%string.

(** [write_new]. *)
Definition write_new (F : Faults) (p : VaultPath) (bytes : list byte) (fs : Fs)
  : Fs * result KeyVaultError.t () :=
  match fault_mkdir F (removelast p) with
  | Some e => (fs, Err (KeyVaultError.Storage e))
  | None =>
      let fs := make_dirs (removelast p) fs in
      match fault_write F p with
      | None => (set_file p bytes fs, Ok ())
      | Some (e, None) => (fs, Err (KeyVaultError.Storage e))
      | Some (e, Some n) => (set_file p (take n bytes) fs, Err (KeyVaultError.Storage e))
      end
  end.

(** [names_in]: the entries directly in a folder. *)
Definition child_of (dir p : VaultPath) : option string :=
  match last p with
  | Some c => if decide (p = dir ++ [c]) then Some c else None
  | None => None
  end.
Definition names_in (F : Faults) (dir : VaultPath) (entries : list VaultPath) (fs : Fs)
  : result KeyVaultError.t (list string) :=
  match fault_list F dir with
  | Some e => Err (KeyVaultError.Storage e)
  | None =>
      if decide (dir ∈ fs_dirs fs) then Ok (merge_sort string_le (omap (child_of dir) entries)) else Ok []
  end.

(** ** The vault *)

Section vault.
Context {D : Dalek} {AP : Type} {PV : AccountProvider AP}.

Record BasicFileKeyVault := { kv_dir : VaultPath; kv_client : AP; kv_fs : Fs }.
Record InstallationKey := { ik_account : AccountAddr; ik_signing_key : Ed25519SigningKey }.

Definition set_fs (fs : Fs) (v : BasicFileKeyVault) : BasicFileKeyVault :=
  {| kv_dir := kv_dir v; kv_client := kv_client v; kv_fs := fs |}.
Definition set_client (c : AP) (v : BasicFileKeyVault) : BasicFileKeyVault :=
  {| kv_dir := kv_dir v; kv_client := c; kv_fs := kv_fs v |}.

Definition account_dir (v : BasicFileKeyVault) (alias : string) : VaultPath := resolved (kv_dir v) [alias].
Definition account_file (v : BasicFileKeyVault) (alias : string) : VaultPath :=
  resolved (kv_dir v) [alias; ACCOUNT_FILE].
Definition installation_path (v : BasicFileKeyVault) (alias : string) (number : N) : VaultPath :=
  resolved (kv_dir v) [alias; INSTALLATIONS_DIR; (pretty number ++ "." ++ KEY_EXT)%string].

(** [account]: the account [alias] names; [fresh] is the key drawn when there
    is none yet. The directory behind the client is shared with the account. *)
Definition vault_account (F : Faults) (fresh : Ed25519SigningKey) (alias : string) (v : BasicFileKeyVault)
  : option (BasicFileKeyVault * result KeyVaultError.t (Account AP)) :=
  let path := account_file v alias in
  match seed_at F path (kv_fs v) with
  | Err e => Some (v, Err e)
  | Ok (Some s) => Some (v, Ok {| signing_key := from_seed s; provider := kv_client v |})
  | Ok None =>
      let '(fs, w) := write_new F path (seed fresh) (kv_fs v) in
      let v := set_fs fs v in
      match w with
      | Err e => Some (v, Err e)
      | Ok _ =>
          '(a, r) ← publish {| signing_key := fresh; provider := kv_client v |} (set_display_name [] alias);
          Some (set_client (provider a) v,
                match r with Ok _ => Ok a | Err e => Err (KeyVaultError.Publish e) end)
      end
  end.

(** [install]: [fresh] as for the account, [drawn] the installation's key when
    there is none yet. *)
Definition install (F : Faults) (fresh drawn : Ed25519SigningKey) (alias : string) (v : BasicFileKeyVault)
  : option (BasicFileKeyVault * result KeyVaultError.t InstallationKey) :=
  match parse_alias alias with
  | Err e => Some (v, Err e)
  | Ok (alias, number) =>
      '(v, r) ← vault_account F fresh alias v;
      match r with
      | Err e => Some (v, Err e)
      | Ok account =>
          let path := installation_path v alias number in
          match seed_at F path (kv_fs v) with
          | Err e => Some (v, Err e)
          | Ok (Some s) =>
              Some (v, Ok {| ik_account := account_addr account; ik_signing_key := from_seed s |})
          | Ok None =>
              '(a, r) ← publish account (endorse_chat_signer [] (verifying_key drawn));
              let v := set_client (provider a) v in
              match r with
              | Err e => Some (v, Err (KeyVaultError.Publish e))
              | Ok _ =>
                  let '(fs, w) := write_new F path (seed drawn) (kv_fs v) in
                  let v := set_fs fs v in
                  Some (v, match w with
                           | Err e => Err e
                           | Ok _ => Ok {| ik_account := account_addr a; ik_signing_key := drawn |}
                           end)
              end
          end
      end
  end.

(** [accounts], [installations]. *)
Definition vault_accounts (F : Faults) (v : BasicFileKeyVault) : result KeyVaultError.t (list string) :=
  names_in F (kv_dir v) (elements (fs_dirs (kv_fs v))) (kv_fs v).

Definition strip_suffix (suffix l : list byte) : option (list byte) :=
  let n := length l - length suffix in
  if decide (l = take n l ++ suffix) then Some (take n l) else None.
Definition installation_number (name : string) : option N :=
  l ← strip_suffix (str_bytes KEY_EXT) (str_bytes name);
  l ← strip_suffix [x2e] l;
  parse_u32 (bytes_str l).

Definition vault_installations (F : Faults) (alias : string) (v : BasicFileKeyVault)
  : result KeyVaultError.t (list N) :=
  names ← names_in F (resolved (kv_dir v) [alias; INSTALLATIONS_DIR])
            (map fst (map_to_list (fs_files (kv_fs v)))) (kv_fs v);
  Ok (merge_sort N.le (omap installation_number names)).
End vault.
Arguments BasicFileKeyVault : clear implicits.

(** ** Aliases: lemmas *)

Lemma split_colon_cons b l :
  b ≠ x3a → split_colon (b :: l) = match split_colon l with Some (f, r) => Some (b :: f, r) | None => None end.
Proof. by destruct b. Qed.

Lemma split_colon_app a l : x3a ∉ a → split_colon (a ++ x3a :: l) = Some (a, l).
Proof.
  induction a as [|b a IH]; [done|]. intros [Hb Ha]%not_elem_of_cons. cbn [app].
  by rewrite split_colon_cons, IH.
Qed.

Lemma split_colon_spec l :
  match split_colon l with
  | Some (a, r) => l = a ++ x3a :: r ∧ x3a ∉ a
  | None => x3a ∉ l
  end.
Proof.
  induction l as [|b l IH]; [cbn; set_solver|]. destruct (decide (b = x3a)) as [->|Hb]; [cbn; set_solver|].
  rewrite split_colon_cons by done. destruct (split_colon l) as [[a r]|].
  - destruct IH as [-> ?]. split; [done|]. set_solver.
  - set_solver.
Qed.

(** What an account may be called. *)
Definition account_name (s : string) : Prop := s ≠ ""%string ∧ Forall (λ b, name_byte b = true) (str_bytes s).

Lemma account_name_no_colon s : account_name s → x3a ∉ str_bytes s.
Proof. intros [_ H]. rewrite Forall_forall in H. intros Hin%H. done. Qed.

Lemma check_alias_Ok a n a' n' :
  check_alias a n = Ok (a', n') ↔ a' = a ∧ n' = n ∧ account_name a ∧ n ≠ 0%N.
Proof.
  unfold check_alias, account_name, invalid. case_decide; [naive_solver|].
  destruct (forallb name_byte (str_bytes a)) eqn:Hf; cbn [negb].
  - assert (Forall (λ b, name_byte b = true) (str_bytes a)).
    { apply Forall_forall. intros x Hx. rewrite forallb_forall in Hf. by apply Hf, list_elem_of_In. }
    destruct (N.eqb_spec n 0); naive_solver.
  - split; [done|]. intros (_ & _ & [_ H2] & _).
    assert (forallb name_byte (str_bytes a) = true); [|congruence].
    apply forallb_forall. intros x Hx. rewrite Forall_forall in H2. by apply H2, list_elem_of_In.
Qed.

Lemma parse_alias_Ok text a n :
  parse_alias text = Ok (a, n) ↔
  account_name a ∧ n ≠ 0%N ∧
  (text = a ∧ n = 1%N ∨ ∃ number, str_bytes text = str_bytes a ++ x3a :: number ∧ parse_u32 (bytes_str number) = Some n).
Proof.
  unfold parse_alias. pose proof (split_colon_spec (str_bytes text)) as Hs.
  destruct (split_colon (str_bytes text)) as [[f r]|].
  - destruct Hs as [Ht Hf]. split.
    + destruct (parse_u32 (bytes_str r)) as [m|] eqn:Hm; [|done].
      intros (-> & -> & Ha & Hn)%check_alias_Ok.
      split_and!; [done..|right]. exists r. by rewrite list_byte_of_string_of_list_byte.
    + intros (Ha & Hn & [[-> _]|(num & Ht' & Hp)]).
      { exfalso. apply account_name_no_colon in Ha. rewrite Ht in Ha. set_solver. }
      apply account_name_no_colon in Ha as Hc. rewrite Ht' in Ht.
      assert (f = str_bytes a ∧ r = num) as [-> ->].
      { pose proof (split_colon_app f r Hf) as E1. pose proof (split_colon_app _ num Hc) as E2.
        rewrite <- Ht in E1. rewrite E1 in E2. by injection E2 as -> ->. }
      rewrite Hp, string_of_list_byte_of_string. by apply check_alias_Ok.
  - split.
    + intros (-> & -> & Ha & Hn)%check_alias_Ok. auto.
    + intros (Ha & Hn & [[-> ->]|(num & Ht & _)]); [by apply check_alias_Ok|].
      exfalso. rewrite Ht in Hs. set_solver.
Qed.

(** Which aliases the vault takes, and as what: a name of letters, digits,
    dashes, underscores and dots stands for installation 1 of that account,
    and a name, a colon and a 32-bit number other than 0 for that one;
    everything else is refused. *)
Theorem parse_alias_exact text a n :
  parse_alias text = Ok (a, n) ↔
  account_name a ∧ n ≠ 0%N ∧
  (text = a ∧ n = 1%N ∨ ∃ number, str_bytes text = str_bytes a ++ x3a :: number ∧ parse_u32 (bytes_str number) = Some n).
Proof. apply parse_alias_Ok. Qed.

(** *** Numbers *)

Lemma digit_char x : (x < 10)%N → is_ascii_digit (Ascii.byte_of_ascii (pretty_N_char x)) = true ∧
  digit_of (Ascii.byte_of_ascii (pretty_N_char x)) = x.
Proof.
  intros Hx. assert (x ∈ [0; 1; 2; 3; 4; 5; 6; 7; 8; 9]%N) as Hin.
  { rewrite !elem_of_cons. lia. }
  repeat (apply elem_of_cons in Hin as [->|Hin]; [done|]). by apply elem_of_nil in Hin.
Qed.

Lemma parse_digits_go x s :
  (x < 2 ^ 32)%N → parse_digits 0 (str_bytes (pretty_N_go x s)) = parse_digits x (str_bytes s).
Proof.
  revert s. induction (N.lt_wf_0 x) as [x _ IH]. intros s Hx.
  destruct (decide (x = 0%N)) as [->|Hn]; [by rewrite pretty_N_go_0|].
  rewrite pretty_N_go_step by lia.
  assert (x `div` 10 < x)%N by (apply N.div_lt; lia).
  rewrite IH by lia.
  change (str_bytes (String (pretty_N_char (x `mod` 10)) s)) with
    (Ascii.byte_of_ascii (pretty_N_char (x `mod` 10)) :: str_bytes s). cbn [parse_digits].
  destruct (digit_char (x `mod` 10)) as [-> ->]; [apply N.mod_lt; lia|].
  assert (x `div` 10 * 10 + x `mod` 10 = x)%N as -> by (pose proof (N.div_mod x 10); lia).
  by rewrite (proj2 (N.ltb_lt _ _) Hx).
Qed.

Lemma parse_digits_pretty (n : N) : (n < 2 ^ 32)%N → parse_digits 0 (str_bytes (pretty n)) = Some n.
Proof.
  intros Hn. unfold pretty, pretty_N. case_decide as H; [by subst|]. by rewrite parse_digits_go.
Qed.

Lemma parse_digits_first l n : parse_digits 0 l = Some n → l = [] ∨ ∃ b k, l = b :: k ∧ b ≠ x2b.
Proof. destruct l as [|b l]; [auto|]. right. exists b, l. split; [done|]. by intros ->. Qed.

Lemma pretty_not_empty (n : N) : str_bytes (pretty n) ≠ [].
Proof.
  unfold pretty, pretty_N. case_decide; [done|]. rewrite pretty_N_go_step by lia.
  assert (∀ x s, s ≠ ""%string → pretty_N_go x s ≠ ""%string) as Hg.
  { intros x. induction (N.lt_wf_0 x) as [x _ IH]. intros s Hs.
    destruct (decide (x = 0%N)) as [->|Hx]; [by rewrite pretty_N_go_0|].
    rewrite pretty_N_go_step by lia. apply IH; [apply N.div_lt; lia|done]. }
  specialize (Hg (n `div` 10)%N (String (pretty_N_char (n `mod` 10)) "")). intros E. apply Hg; [done|].
  by apply str_bytes_inj.
Qed.

(** A number the vault writes is read back. *)
Lemma parse_u32_pretty (n : N) : (n < 2 ^ 32)%N → parse_u32 (pretty n) = Some n.
Proof.
  intros Hn%parse_digits_pretty. unfold parse_u32. pose proof (pretty_not_empty n) as Hne.
  destruct (parse_digits_first _ _ Hn) as [|(b & k & E & Hb)]; [done|]. rewrite E in *. by destruct b.
Qed.

Lemma parse_digits_bound acc l n : (acc < 2 ^ 32)%N → parse_digits acc l = Some n → (n < 2 ^ 32)%N.
Proof.
  revert acc. induction l as [|b l IH]; intros acc Ha; cbn [parse_digits]; [congruence|].
  destruct (is_ascii_digit b); [|done]. destruct (N.ltb_spec (acc * 10 + digit_of b) (2 ^ 32)); [|done].
  by apply IH.
Qed.
Lemma parse_u32_bound s n : parse_u32 s = Some n → (n < 2 ^ 32)%N.
Proof.
  unfold parse_u32. intros H. assert (∃ l, parse_digits 0 l = Some n) as [l Hl]; [|by eapply parse_digits_bound; [|exact Hl]].
  destruct (str_bytes s) as [|b l]; [done|]. destruct b; eauto. destruct l; [done|eauto].
Qed.

(** ** Paths *)

Lemma resolved_app dir cs cs' : resolved dir (cs ++ cs') = resolved (resolved dir cs) cs'.
Proof. apply fold_left_app. Qed.

(** A component that is a name. *)
Definition proper_name (c : string) : Prop := c ≠ "."%string ∧ c ≠ ".."%string.

Lemma resolved_proper dir c : proper_name c → resolved dir [c] = dir ++ [c].
Proof. intros [H1 H2]. cbn. unfold resolve_step. by rewrite !decide_False. Qed.

Lemma file_name_proper s : proper_name (s ++ "." ++ KEY_EXT)%string.
Proof. by split; destruct s as [|c1 [|c2 [|c3 s]]]; cbn; intros [=]. Qed.

Section paths.
Context {AP : Type}.
Implicit Types (v : BasicFileKeyVault AP).

(** Where the files of an account are, under its folder. *)
Lemma account_file_eq v alias : account_file v alias = account_dir v alias ++ [ACCOUNT_FILE].
Proof.
  unfold account_file, account_dir. change [alias; ACCOUNT_FILE] with ([alias] ++ [ACCOUNT_FILE]).
  rewrite resolved_app. by apply resolved_proper.
Qed.
Lemma installation_path_eq v alias n :
  installation_path v alias n =
  account_dir v alias ++ [INSTALLATIONS_DIR; (pretty n ++ "." ++ KEY_EXT)%string].
Proof.
  unfold installation_path, account_dir.
  change [alias; ?b; ?c] with (([alias] ++ [b]) ++ [c]). rewrite !resolved_app.
  rewrite (resolved_proper _ INSTALLATIONS_DIR) by done.
  rewrite resolved_proper by apply file_name_proper. by rewrite <- app_assoc.
Qed.

Lemma paths_differ v alias n : account_file v alias ≠ installation_path v alias n.
Proof. rewrite account_file_eq, installation_path_eq. intros [=]%app_inv_head. Qed.
End paths.

(** ** Installing: lemmas *)

Section lemmas.
Context {D : Dalek} {DL : DalekLaws D} {AP : Type} {PV : AccountProvider AP}.
Implicit Types (v : BasicFileKeyVault AP) (a : Account AP).

Abbreviation files v := (fs_files (kv_fs v)).

Lemma publish_cases a es a' r :
  publish a es = Some (a', r) →
  signing_key a' = signing_key a ∧
  (∀ s, r = Ok s → account_sign a es = Some (Ok s) ∧
     provider_publish (provider a) (account_addr a) s = (provider a', Ok ())).
Proof.
  unfold publish. destruct (account_sign a es) as [[s|e]|]; cbn; [|by intros [= <- <-]|done].
  destruct (provider_publish _ _ _) as [p [[]|e]] eqn:Hp; intros [= <- <-]; split; try done.
  by intros ? [= <-].
Qed.

Lemma write_new_spec F p bytes fs fs' r :
  write_new F p bytes fs = (fs', r) →
  (∀ q, q ≠ p → fs_files fs' !! q = fs_files fs !! q) ∧
  (r = Ok () → fs_files fs' !! p = Some bytes ∧ list_to_set (ancestors (removelast p)) ⊆ fs_dirs fs') ∧
  (fs_files fs' !! p = fs_files fs !! p ∨ ∃ n, fs_files fs' !! p = Some (take n bytes)) ∧
  fs_dirs fs ⊆ fs_dirs fs'.
Proof.
  unfold write_new. destruct (fault_mkdir _ _); [intros [= <- <-]; split_and!; auto; done|].
  destruct (fault_write F p) as [[e [n|]]|]; intros [= <- <-]; cbn [fs_files fs_dirs set_file make_dirs];
    rewrite ?lookup_insert_eq; split_and!; try done; try set_solver; eauto;
    try (intros q Hq; by rewrite lookup_insert_ne by done).
  right. exists (length bytes). by rewrite firstn_all.
Qed.

Lemma seed_at_Ok F p fs o :
  seed_at F p fs = Ok o →
  fault_read F p = None ∧ fs_files fs !! p = o ∧ ∀ s, o = Some s → length s = VAULT_SEED_LEN.
Proof.
  unfold seed_at. destruct (fault_read F p); [done|]. destruct (fs_files fs !! p); [|by intros [= <-]].
  case_decide; [|done]. intros [= <-]. split_and!; [done..|]. by intros ? [= <-].
Qed.

Lemma seed_at_file F p fs s :
  fault_read F p = None → fs_files fs !! p = Some s → length s = VAULT_SEED_LEN → seed_at F p fs = Ok (Some s).
Proof. unfold seed_at. intros -> -> H. by rewrite decide_True. Qed.

Lemma seed_length k : length (seed k) = VAULT_SEED_LEN.
Proof. apply sk_len. Qed.
Lemma seed_from_seed s : length s = VAULT_SEED_LEN → seed (from_seed s) = s.
Proof. apply sk_to_from. Qed.

Lemma vault_account_cases F fresh alias v v' r :
  vault_account F fresh alias v = Some (v', r) →
  kv_dir v' = kv_dir v ∧ (∀ q, q ≠ account_file v alias → files v' !! q = files v !! q) ∧
  (∀ a, r = Ok a → provider a = kv_client v' ∧
     files v' !! account_file v alias = Some (seed (signing_key a))) ∧
  fs_dirs (kv_fs v) ⊆ fs_dirs (kv_fs v').
Proof.
  unfold vault_account. destruct (seed_at _ _ _) as [[s|]|e] eqn:Hs; [|..].
  - intros [= <- <-]. apply seed_at_Ok in Hs as (_ & Hf & Hl). split_and!; try done.
    intros a [= <-]. split; [done|]. cbn. rewrite seed_from_seed; [done|by apply Hl].
  - destruct (write_new _ _ _ _) as [fs [[]|e]] eqn:Hw; apply write_new_spec in Hw as (W1 & W2 & _ & W4).
    + destruct (publish _ _) as [[a r']|] eqn:Hp; cbn; [|done]. intros [= <- <-].
      apply publish_cases in Hp as [Hk _]. split_and!; try done.
      intros a' Ha. destruct r'; [|done]. injection Ha as <-. split; [done|]. cbn. rewrite Hk.
      by apply W2.
    + intros [= <- <-]. split_and!; try done.
  - intros [= <- <-]. by split_and!.
Qed.

(** An installed alias, found again without the directory. *)
Lemma install_found F fresh drawn text alias n v key s :
  parse_alias text = Ok (alias, n) →
  fault_read F (account_file v alias) = None → fault_read F (installation_path v alias n) = None →
  files v !! account_file v alias = Some (seed key) →
  files v !! installation_path v alias n = Some s → length s = VAULT_SEED_LEN →
  install F fresh drawn text v =
    Some (v, Ok {| ik_account := account_addr {| signing_key := key; provider := kv_client v |};
                   ik_signing_key := from_seed s |}).
Proof.
  intros Hp Hr1 Hr2 Hf1 Hf2 Hl. unfold install. rewrite Hp. unfold vault_account.
  rewrite (seed_at_file _ _ _ _ Hr1 Hf1) by apply seed_length. cbn [mbind option_bind].
  rewrite (seed_at_file _ _ _ _ Hr2 Hf2 Hl). by rewrite from_seed_seed.
Qed.

(** What an installation that is there after a call, or is returned, is. *)
Lemma install_cases F fresh drawn text v v' r alias n :
  install F fresh drawn text v = Some (v', r) → parse_alias text = Ok (alias, n) →
  let p := installation_path v alias n in
  kv_dir v' = kv_dir v ∧
  (∀ q, q ≠ account_file v alias → q ≠ p → files v' !! q = files v !! q) ∧
  (files v' !! p = files v !! p ∨
   ∃ key c0 signed m,
     files v' !! account_file v alias = Some (seed key) ∧
     account_sign {| signing_key := key; provider := c0 |} (endorse_chat_signer [] (verifying_key drawn)) =
       Some (Ok signed) ∧
     provider_publish c0 (addr_from_key (verifying_key key)) signed = (kv_client v', Ok ()) ∧
     files v' !! p = Some (take m (seed drawn))) ∧
  (∀ ik, r = Ok ik → ∃ key,
     files v' !! account_file v alias = Some (seed key) ∧ ik_account ik = addr_from_key (verifying_key key) ∧
     files v' !! p = Some (seed (ik_signing_key ik))).
Proof.
  unfold install. intros Hi Hp. rewrite Hp in Hi. cbv zeta. set (p := installation_path v alias n).
  destruct (vault_account F fresh alias v) as [[v1 r1]|] eqn:Ha; [|done]. cbn [mbind option_bind] in Hi.
  apply vault_account_cases in Ha as (Hd & Hother & Hok & _).
  assert (installation_path v1 alias n = p) as Hpath.
  { unfold p, installation_path. by rewrite Hd. }
  pose proof (paths_differ v alias n) as Hne. fold p in Hne.
  assert (files v1 !! p = files v !! p) as Hp1 by by apply Hother.
  destruct r1 as [a|e]; [|injection Hi as <- <-; split_and!; auto; done].
  destruct (Hok a eq_refl) as [Hc Hkey]. rewrite Hpath in Hi.
  destruct (seed_at F p (kv_fs v1)) as [[s|]|e] eqn:Hs; [|..|injection Hi as <- <-; split_and!; auto; done].
  - injection Hi as <- <-. apply seed_at_Ok in Hs as (_ & Hf & Hl). split_and!; auto.
    intros ik [= <-]. exists (signing_key a). cbn. rewrite seed_from_seed; [done|by apply Hl].
  - destruct (publish _ _) as [[a' r']|] eqn:Hpub; [|done]. cbn [mbind option_bind] in Hi.
    apply publish_cases in Hpub as [Hk Hsig].
    destruct r' as [signed|e]; [|injection Hi as <- <-; split_and!; auto; done].
    destruct (Hsig _ eq_refl) as [Hsign Hprov]. cbn in Hi.
    destruct (write_new _ _ _ _) as [fs [[]|e]] eqn:Hw; apply write_new_spec in Hw as (W1 & W2 & W3 & _);
      injection Hi as <- <-; cbn [kv_fs kv_dir kv_client set_fs set_client] in *.
    all: rewrite <- Hp1; split_and!; [done|intros q ??; rewrite W1 by done; auto| |].
    all: try (intros ik [=]; fail).
    1,3: destruct W3 as [W3|[m W3]]; [by left|right].
    1,2: exists (signing_key a), (provider a), signed, m; rewrite W1 by done;
      split_and!; try done; destruct a; done.
    intros ik [= <-]. exists (signing_key a). rewrite W1 by done. cbn. split_and!; [done| |by apply W2].
    unfold account_addr. by rewrite Hk.
Qed.
End lemmas.

(** ** Properties *)

Section properties.
Context {D : Dalek} {DL : DalekLaws D} {AP : Type} {PV : AccountProvider AP}.
Implicit Types (v : BasicFileKeyVault AP).

Lemma chat_signer_authored k : authored (Add CHATSIGNER_CONTEXT (Ed25519Key (key_bytes k))).
Proof.
  split; [split; [done|apply length_key_bytes]|]. unfold fits, entry_parts, encode_add. cbn [snd].
  cbn [length]. rewrite length_app. cbn [encode_data length]. rewrite length_key_bytes. vm_compute. done.
Qed.

(** C35. Installing, whatever fails on the way: only files in the account's own
    folder change; and an installation key that was not on disk before and is
    after, whole or cut short, was endorsed first: the directory accepted a
    log that verifies under the account whose key is on disk and ends in the
    endorsement of that very key. *)
Theorem install_endorses_first F fresh drawn text v v' r alias n :
  install F fresh drawn text v = Some (v', r) → parse_alias text = Ok (alias, n) →
  let p := installation_path v alias n in
  (∀ q, ¬ account_dir v alias `prefix_of` q → fs_files (kv_fs v') !! q = fs_files (kv_fs v) !! q) ∧
  (fs_files (kv_fs v) !! p = None → is_Some (fs_files (kv_fs v') !! p) →
   ∃ key c0 signed base m,
     fs_files (kv_fs v') !! account_file v alias = Some (seed key) ∧
     provider_publish c0 (addr_from_key (verifying_key key)) signed = (kv_client v', Ok ()) ∧
     signed_verify signed (verifying_key key) =
       Ok {| entries := base ++ [Add CHATSIGNER_CONTEXT (Ed25519Key (key_bytes (verifying_key drawn)))] |} ∧
     fs_files (kv_fs v') !! p = Some (take m (seed drawn))).
Proof.
  intros Hi Hp p. destruct (install_cases _ _ _ _ _ _ _ _ _ Hi Hp) as (_ & Hother & Hnew & _).
  fold p in Hother, Hnew. split.
  - intros q Hq. apply Hother; intros ->; apply Hq.
    + rewrite account_file_eq. by apply prefix_app_r.
    + unfold p. rewrite installation_path_eq. by apply prefix_app_r.
  - intros Hn Hs. destruct Hnew as [E|(key & c0 & signed & m & H1 & H2 & H3 & H4)].
    { rewrite E, Hn in Hs. by destruct Hs. }
    apply account_sign_verifies in H2 as (base & _ & Hv).
    2: { constructor; [apply chat_signer_authored|constructor]. }
    exists key, c0, signed, base, m. by split_and!.
Qed.

(** What was installed is found again: after an installation was returned,
    installing under the same alias returns the same account and key, draws
    nothing, writes nothing and asks the directory nothing, whatever has
    become of it. *)
Theorem install_again F F' fresh drawn fresh' drawn' text v v' ik alias n c :
  install F fresh drawn text v = Some (v', Ok ik) → parse_alias text = Ok (alias, n) →
  fault_read F' (account_file v alias) = None → fault_read F' (installation_path v alias n) = None →
  install F' fresh' drawn' text (set_client c v') = Some (set_client c v', Ok ik).
Proof.
  intros Hi Hp H1 H2. destruct (install_cases _ _ _ _ _ _ _ _ _ Hi Hp) as (Hd & _ & _ & Hok).
  destruct (Hok ik eq_refl) as (key & K1 & K2 & K3).
  assert (account_file (set_client c v') alias = account_file v alias) as E1.
  { unfold account_file. cbn. by rewrite Hd. }
  assert (installation_path (set_client c v') alias n = installation_path v alias n) as E2.
  { unfold installation_path. cbn. by rewrite Hd. }
  rewrite (install_found F' fresh' drawn' text alias n (set_client c v') key (seed (ik_signing_key ik)));
    rewrite ?E1, ?E2; try done; [|apply seed_length].
  unfold account_addr. cbn. rewrite from_seed_seed, <- K2. by destruct ik.
Qed.

(** A display name whose publication failed is never published: the
    account's key is on disk already, and from then on the account is loaded
    and nothing is sent to the directory, whatever state it is in. *)
Theorem failed_name_never_published F F' fresh fresh' alias v v' e c :
  vault_account F fresh alias v = Some (v', Err (KeyVaultError.Publish e)) →
  fault_read F' (account_file v alias) = None →
  fs_files (kv_fs v') !! account_file v alias = Some (seed fresh) ∧
  vault_account F' fresh' alias (set_client c v') =
    Some (set_client c v', Ok {| signing_key := fresh; provider := c |}).
Proof.
  unfold vault_account at 1. destruct (seed_at _ _ _) as [[s|]|e'] eqn:Hs; try done.
  2: { unfold seed_at in Hs. repeat case_match; naive_solver. }
  destruct (write_new _ _ _ _) as [fs [[]|e']] eqn:Hw.
  2: { unfold write_new in Hw. repeat case_match; naive_solver. }
  apply write_new_spec in Hw as (_ & W2 & _). destruct (W2 eq_refl) as [Hf _].
  destruct (publish _ _) as [[a r]|]; [|done]. cbn [mbind option_bind].
  destruct r; [done|]. intros [= <- <-] Hr. split; [done|]. unfold vault_account.
  change (account_file (set_client c _) alias) with (account_file v alias).
  rewrite (seed_at_file F' _ _ (seed fresh)); [by rewrite from_seed_seed|done|done|apply seed_length].
Qed.

(** The alias of two dots is taken for a name and leads out of the vault:
    its account key is kept in the folder above it. *)
Theorem dots_lead_out v :
  parse_alias ".." = Ok (".."%string, 1%N) ∧
  account_file v ".." = removelast (kv_dir v) ++ [ACCOUNT_FILE].
Proof. by rewrite account_file_eq. Qed.
End properties.

(** ** Runs of a vault *)

Section runs.
Context {D : Dalek} {DL : DalekLaws D} {AP : Type} {PV : AccountProvider AP}.
Implicit Types (v : BasicFileKeyVault AP).

(** Installs one after the other, and a directory that changes in between. *)
Inductive vault_step : BasicFileKeyVault AP → BasicFileKeyVault AP → Prop :=
| step_install F fresh drawn text v v' r :
    install F fresh drawn text v = Some (v', r) → vault_step v v'
| step_directory c v : vault_step v (set_client c v).

(** The folders a file is in are there. *)
Definition fs_wf (fs : Fs) : Prop :=
  ∀ p b q, fs_files fs !! p = Some b → q ∈ ancestors (removelast p) → q ∈ fs_dirs fs.

(** From one state of the files to a later one: nothing is lost or changed. *)
Definition fs_later (fs fs' : Fs) : Prop := fs_files fs ⊆ fs_files fs' ∧ (fs_wf fs → fs_wf fs').

#[local] Instance fs_later_preorder : PreOrder fs_later.
Proof.
  split; [by intros fs|]. intros fs1 fs2 fs3 [H1 H2] [H3 H4]. split; [by etrans|auto].
Qed.

Lemma ancestor_app p q : p ∈ ancestors (p ++ q).
Proof.
  unfold ancestors. apply list_elem_of_fmap. exists (length p). rewrite take_app_length. split; [done|].
  apply elem_of_seq. rewrite length_app. lia.
Qed.

Lemma ancestor_self p : p ∈ ancestors p.
Proof. pose proof (ancestor_app p []) as H. by rewrite app_nil_r in H. Qed.

Lemma write_new_later F p bytes fs fs' r :
  write_new F p bytes fs = (fs', r) → fs_files fs !! p = None → fs_later fs fs'.
Proof.
  unfold write_new. intros Hw Hn. destruct (fault_mkdir _ _); [by injection Hw as <- <-|].
  assert (fs_later fs (make_dirs (removelast p) fs)) as Hd.
  { split; [done|]. intros H q b q' Hq Hq'. cbn. apply elem_of_union_r. by eapply H. }
  assert (∀ b, fs_later fs (set_file p b (make_dirs (removelast p) fs))) as Hf.
  { intros b. split; [by apply insert_subseteq|]. intros H q b' q'. cbn [fs_files fs_dirs set_file make_dirs].
    rewrite lookup_insert_Some. intros [(<- & _)|[_ Hq]] Hq'; [by apply elem_of_union_l, elem_of_list_to_set|].
    apply elem_of_union_r. by eapply H. }
  destruct (fault_write F p) as [[e [k|]]|]; injection Hw as <- <-; auto.
Qed.

Lemma vault_account_later F fresh alias v v' r :
  vault_account F fresh alias v = Some (v', r) → fs_later (kv_fs v) (kv_fs v').
Proof.
  unfold vault_account. destruct (seed_at _ _ _) as [[s|]|e] eqn:Hs; [by intros [= <- <-]| |by intros [= <- <-]].
  apply seed_at_Ok in Hs as (_ & Hn & _).
  destruct (write_new _ _ _ _) as [fs [[]|e]] eqn:Hw; eapply write_new_later in Hw; try exact Hn.
  - destruct (publish _ _) as [[a r']|]; [|done]. by intros [= <- <-].
  - by intros [= <- <-].
Qed.

Lemma install_later F fresh drawn text v v' r :
  install F fresh drawn text v = Some (v', r) → kv_dir v' = kv_dir v ∧ fs_later (kv_fs v) (kv_fs v').
Proof.
  unfold install. destruct (parse_alias text) as [[alias n]|e]; [|by intros [= <- <-]].
  destruct (vault_account F fresh alias v) as [[v1 r1]|] eqn:Ha; [|done]. cbn [mbind option_bind].
  pose proof (vault_account_later _ _ _ _ _ _ Ha) as H1.
  apply vault_account_cases in Ha as (Hd & _). rewrite <- Hd.
  destruct r1 as [a|e]; [|by intros [= <- <-]].
  destruct (seed_at F _ (kv_fs v1)) as [[s|]|e] eqn:Hs; [by intros [= <- <-]| |by intros [= <- <-]].
  destruct (publish _ _) as [[a' r']|]; [|done]. cbn [mbind option_bind].
  destruct r'; [|by intros [= <- <-]]. cbn.
  apply seed_at_Ok in Hs as (_ & Hn & _).
  destruct (write_new _ _ _ _) as [fs w] eqn:Hw. eapply write_new_later in Hw; [|exact Hn].
  intros [= <- _]. split; [done|]. by etrans.
Qed.

Lemma vault_steps_later v v' :
  rtc vault_step v v' → kv_dir v' = kv_dir v ∧ fs_later (kv_fs v) (kv_fs v').
Proof.
  induction 1 as [v|v1 v2 v3 Hs _ [IH1 IH2]]; [done|]. destruct Hs as [F f d t v1 v2 r Hi|c v1].
  - apply install_later in Hi as [Hd Hl]. split; [congruence|by etrans].
  - done.
Qed.

Lemma installation_number_pretty (n : N) :
  (n < 2 ^ 32)%N → installation_number (pretty n ++ "." ++ KEY_EXT)%string = Some n.
Proof.
  intros Hn. unfold installation_number.
  assert (∀ l suffix, strip_suffix suffix (l ++ suffix) = Some l) as Hs.
  { intros l suffix. unfold strip_suffix. rewrite length_app, Nat.add_sub, take_app_length.
    by rewrite decide_True. }
  assert (str_bytes (pretty n ++ "." ++ KEY_EXT)%string = (str_bytes (pretty n) ++ [x2e]) ++ str_bytes KEY_EXT) as ->.
  { rewrite !str_bytes_app, <- app_assoc. done. }
  rewrite Hs. cbn [mbind option_bind]. rewrite Hs. cbn [mbind option_bind].
  rewrite string_of_list_byte_of_string. by apply parse_u32_pretty.
Qed.

Lemma account_listed F v alias b :
  proper_name alias → fs_wf (kv_fs v) → fs_files (kv_fs v) !! account_file v alias = Some b →
  fault_list F (kv_dir v) = None → ∃ l, vault_accounts F v = Ok l ∧ alias ∈ l.
Proof.
  intros Hn Hwf Hf Hl. rewrite account_file_eq in Hf. unfold account_dir in Hf.
  rewrite resolved_proper in Hf by done.
  assert (∀ q, q ∈ ancestors (kv_dir v ++ [alias]) → q ∈ fs_dirs (kv_fs v)) as Hd.
  { intros q Hq. eapply Hwf; [exact Hf|]. by rewrite removelast_last. }
  unfold vault_accounts, names_in. rewrite Hl, decide_True by apply Hd, ancestor_app.
  eexists. split; [done|]. rewrite merge_sort_Permutation. apply list_elem_of_omap. exists (kv_dir v ++ [alias]). split.
  - apply elem_of_elements, Hd, ancestor_self.
  - unfold child_of. by rewrite last_snoc, decide_True.
Qed.

Lemma installation_listed F v alias n b :
  (n < 2 ^ 32)%N → fs_wf (kv_fs v) → fs_files (kv_fs v) !! installation_path v alias n = Some b →
  fault_list F (resolved (kv_dir v) [alias; INSTALLATIONS_DIR]) = None →
  ∃ l, vault_installations F alias v = Ok l ∧ n ∈ l ∧ Sorted N.le l.
Proof.
  intros Hn Hwf Hfile Hl. set (dir := resolved (kv_dir v) [alias; INSTALLATIONS_DIR]) in *.
  set (name := (pretty n ++ "." ++ KEY_EXT)%string).
  assert (installation_path v alias n = dir ++ [name]) as Hpath.
  { unfold installation_path, dir. change [alias; INSTALLATIONS_DIR; ?c] with ([alias; INSTALLATIONS_DIR] ++ [c]).
    rewrite resolved_app. apply resolved_proper, file_name_proper. }
  rewrite Hpath in Hfile. assert (dir ∈ fs_dirs (kv_fs v)) as Hdir.
  { eapply Hwf; [exact Hfile|]. rewrite removelast_last. apply ancestor_self. }
  assert (name ∈ omap (child_of dir) (map fst (map_to_list (fs_files (kv_fs v))))) as Hin.
  { apply list_elem_of_omap. exists (dir ++ [name]). split.
    - apply list_elem_of_fmap. exists (dir ++ [name], b). split; [done|]. by apply elem_of_map_to_list.
    - unfold child_of. by rewrite last_snoc, decide_True. }
  unfold vault_installations, names_in. fold dir. rewrite Hl.
  rewrite decide_True by done. cbn [mbind result_bind]. eexists. split; [done|]. split.
  - rewrite merge_sort_Permutation. apply list_elem_of_omap. exists name. split.
    + by rewrite merge_sort_Permutation.
    + by apply installation_number_pretty.
  - apply Sorted_merge_sort. intros x y. lia.
Qed.

(** C36. What was installed stays: over any further installs of any alias,
    however they fail, and whatever the directory does, no file of the vault is
    changed or removed; installing under the alias again returns the very
    account and signing key it returned, draws nothing and changes nothing;
    and where the folders can be listed, the installation is among those of
    its account, in order, and the account among the vault's (unless its alias
    is made of dots and leads out of the vault). *)
Theorem installed_stays F fresh drawn text v v1 v2 ik alias n F' fresh' drawn' :
  install F fresh drawn text v = Some (v1, Ok ik) → parse_alias text = Ok (alias, n) → fs_wf (kv_fs v) →
  rtc vault_step v1 v2 →
  fs_files (kv_fs v) ⊆ fs_files (kv_fs v1) ∧ fs_files (kv_fs v1) ⊆ fs_files (kv_fs v2) ∧
  (fault_read F' (account_file v alias) = None → fault_read F' (installation_path v alias n) = None →
   install F' fresh' drawn' text v2 = Some (v2, Ok ik)) ∧
  (fault_list F' (resolved (kv_dir v) [alias; INSTALLATIONS_DIR]) = None →
   ∃ l, vault_installations F' alias v2 = Ok l ∧ n ∈ l ∧ Sorted N.le l) ∧
  (proper_name alias → fault_list F' (kv_dir v) = None → ∃ l, vault_accounts F' v2 = Ok l ∧ alias ∈ l).
Proof.
  intros Hi Hp Hwf Hrun. pose proof (install_later _ _ _ _ _ _ _ Hi) as [Hd1 [Hs1 Hw1]].
  destruct (install_cases _ _ _ _ _ _ _ _ _ Hi Hp) as (_ & _ & _ & Hok).
  destruct (Hok ik eq_refl) as (key & Hacc & Hik & Hfile).
  apply vault_steps_later in Hrun as [Hd2 [Hs2 Hw2]].
  assert (account_file v2 alias = account_file v alias) as E1 by (unfold account_file; by rewrite Hd2, Hd1).
  assert (installation_path v2 alias n = installation_path v alias n) as E2
    by (unfold installation_path; by rewrite Hd2, Hd1).
  eapply lookup_weaken in Hfile, Hacc; [|exact Hs2..]. rewrite <- E1 in Hacc. rewrite <- E2 in Hfile.
  specialize (Hw2 (Hw1 Hwf)). split_and!; [done..| | |].
  - rewrite <- E1, <- E2. intros H1 H2. rewrite (install_found F' fresh' drawn' text alias n v2 key
      (seed (ik_signing_key ik))); try done; [|apply seed_length].
    unfold account_addr. cbn. rewrite from_seed_seed, <- Hik. by destruct ik.
  - rewrite <- Hd1, <- Hd2. eapply installation_listed; [|done..].
    apply parse_alias_Ok in Hp as (_ & _ & [[_ ->]|(num & _ & Hn)]); [lia|]. by eapply parse_u32_bound.
  - rewrite <- Hd1, <- Hd2. intros Hn. by eapply account_listed.
Qed.
End runs.

(** ** Witnesses *)

Definition demo_fresh_key : Ed25519SigningKey (D := dalek_ref) := from_seed (D := dalek_ref) (replicate 32 x05).
Definition demo_drawn_key : Ed25519SigningKey (D := dalek_ref) := from_seed (D := dalek_ref) (replicate 32 x07).
Abbreviation DemoVault := (BasicFileKeyVault (option SignedAccountLog)).
Definition empty_vault : DemoVault :=
  {| kv_dir := ["keys"%string]; kv_client := None; kv_fs := {| fs_files := ∅; fs_dirs := ∅ |} |}.
Abbreviation demo_install := (install (D := dalek_ref) (PV := demo_provider)).

Definition demo_installed : option (DemoVault * result KeyVaultError.t (InstallationKey (D := dalek_ref))) :=
  demo_install no_faults demo_fresh_key demo_drawn_key "saro:2" empty_vault.
Definition demo_vault : DemoVault := match demo_installed with Some (v, _) => v | None => empty_vault end.
Definition demo_ik : InstallationKey (D := dalek_ref) :=
  {| ik_account := addr_from_key (verifying_key demo_fresh_key); ik_signing_key := demo_drawn_key |}.
Lemma demo_installed_Ok : demo_installed = Some (demo_vault, Ok demo_ik).
Proof. vm_compute. reflexivity. Qed.

Lemma install_endorses_first_witness :
  ∃ signed base, signed_verify (D := dalek_ref) signed (verifying_key demo_fresh_key) =
    Ok {| entries := base ++ [Add CHATSIGNER_CONTEXT (Ed25519Key (key_bytes (verifying_key demo_drawn_key)))] |}.
Proof.
  destruct (install_endorses_first (D := dalek_ref) (DL := dalek_ref_laws) (PV := demo_provider) no_faults
    demo_fresh_key demo_drawn_key "saro:2" empty_vault demo_vault (Ok demo_ik) "saro" 2 demo_installed_Ok)
    as [_ H]; [vm_compute; reflexivity|].
  destruct H as (key & c0 & signed & base & m & H1 & _ & H3 & _); [vm_compute; reflexivity|vm_compute; eauto|].
  assert (key = demo_fresh_key) as ->; [|by exists signed, base].
  rewrite <- (from_seed_seed (DL := dalek_ref_laws) key).
  assert (fs_files (kv_fs demo_vault) !! account_file empty_vault "saro" = Some (seed demo_fresh_key)) as Hf
    by (vm_compute; reflexivity).
  assert (seed key = seed demo_fresh_key) as -> by congruence. apply (from_seed_seed (DL := dalek_ref_laws)).
Defined.

Lemma install_again_witness :
  demo_install no_faults demo_drawn_key demo_fresh_key "saro:2" (set_client None demo_vault) =
    Some (set_client None demo_vault, Ok demo_ik).
Proof.
  apply (install_again (D := dalek_ref) (DL := dalek_ref_laws) (PV := demo_provider) no_faults no_faults
    demo_fresh_key demo_drawn_key demo_drawn_key demo_fresh_key "saro:2" empty_vault demo_vault demo_ik "saro" 2 None
    demo_installed_Ok); vm_compute; reflexivity.
Defined.

Lemma installed_stays_witness :
  demo_install no_faults demo_drawn_key demo_fresh_key "saro:2" demo_vault = Some (demo_vault, Ok demo_ik) ∧
  (∃ l, vault_installations no_faults "saro" demo_vault = Ok l ∧ (2%N : N) ∈ l) ∧
  ∃ l, vault_accounts no_faults demo_vault = Ok l ∧ "saro"%string ∈ l.
Proof.
  destruct (installed_stays (D := dalek_ref) (DL := dalek_ref_laws) (PV := demo_provider) no_faults
    demo_fresh_key demo_drawn_key "saro:2" empty_vault demo_vault demo_vault demo_ik "saro" 2 no_faults
    demo_drawn_key demo_fresh_key demo_installed_Ok) as (_ & _ & H1 & H2 & H3);
    [vm_compute; reflexivity|by intros ??? ?|apply rtc_refl|].
  split; [by apply H1|]. split; [|by apply H3].
  destruct H2 as (l & H2 & H4 & _); [reflexivity|]. exists l. exact (conj H2 H4).
Defined.

(** A directory that is out of order. *)
Definition closed_provider : AccountProvider (D := dalek_ref) () :=
  {| fetch _ _ := Ok None; provider_publish u _ _ := (u, Err "out of order"%string) |}.
Definition closed_vault : BasicFileKeyVault () :=
  {| kv_dir := ["keys"%string]; kv_client := (); kv_fs := {| fs_files := ∅; fs_dirs := ∅ |} |}.
Definition closed_after : BasicFileKeyVault () :=
  match vault_account (D := dalek_ref) (PV := closed_provider) no_faults demo_fresh_key "saro" closed_vault with
  | Some (v, _) => v
  | None => closed_vault
  end.

Lemma failed_name_never_published_witness :
  vault_account (D := dalek_ref) (PV := closed_provider) no_faults demo_drawn_key "saro" (set_client () closed_after) =
    Some (set_client () closed_after, Ok {| signing_key := demo_fresh_key; provider := () |}).
Proof.
  apply (failed_name_never_published (D := dalek_ref) (DL := dalek_ref_laws) (PV := closed_provider) no_faults
    no_faults demo_fresh_key demo_drawn_key "saro" closed_vault closed_after (AccountError.Provider "out of order"));
    vm_compute; reflexivity.
Defined.
