(* ===== verification/Registry.v ===== *)
(** * Key-package registries ([extensions/components/src/contact_registry])

    The registry clients publish their key packages to and fetch others'
    from. The server, JSON, base64 and protobuf are parameters; the server is
    untrusted. The theorems: a key package is returned only when the
    requested device signed it, the retry loop is bounded, and what a device
    registers is what a reader gets back. *)

From Stdlib Require Import Strings.Byte Strings.String.
From stdpp Require Import base gmap strings numbers list.
From S2P Require Import Prelude Utf8 Hex Ed25519 Identity Codec HttpAuth Delivery.

(** The [base64] crate, standard alphabet; an error is its message. *)
Class Base64 := {
  b64_encode : list byte → string;
  b64_decode : string → result string (list byte);
}.
Class Base64Laws (B : Base64) := { b64_decode_encode l : b64_decode (b64_encode l) = Ok l }.

(** The JSON and protobuf shapes on the wire. *)
Record SubmitRequest := { sr_device_id : string; sr_payload : string; sr_signature : string }.
Record FetchResponse := { fr_payload : string; fr_signature : string }.
Record KeyPackageSubmissionV1 := {
  ks_device_id : list byte; ks_payload : list byte; ks_signature : list byte }.

Class RegistryWire := {
  json_submit : SubmitRequest → list byte;
  json_fetch : list byte → result string FetchResponse;
  proto_submission : KeyPackageSubmissionV1 → list byte;
}.

Module ContactRegistryError.
Inductive t : Type :=
| Http (e : string)
| Server (status : N) (message : string)
| Decode (e : string)
| Clock
| SignatureInvalid
| Publish (e : string).
End ContactRegistryError.

Inductive RegistryPublishMode : Type := ModeHttp | ModeDelivery.

Definition KEYPACKAGE_SUBMIT_ADDRESS : string := "store-keypackage-v0".
Definition MAX_RETRIES : nat := 4.
Definition RETRY_BASE_MS : N := 200.
Definition RETRY_MAX_BACKOFF_MS : N := 2000.

(** ** The signed payload *)

Definition encode_payload (timestamp_ms : N) (key_package : list byte) : list byte :=
  to_le_bytes 8 timestamp_ms ++ key_package.

Definition decode_payload (payload : list byte) : option (N * list byte) :=
  if (length payload <? 8) then None
  else Some (from_le_bytes (take 8 payload), drop 8 payload).

(** ** Retrying *)

Definition is_transient_status (s : N) : bool :=
  is_server_error s || (s =? TOO_MANY_REQUESTS)%N.

(** The outcome of one attempt is worth another try. *)
Definition is_transient (r : result string Response) : bool :=
  match r with Err _ => true | Ok resp => is_transient_status (status resp) end.

(** [send_retrying]; [send n] is the outcome of the [n]-th attempt. *)
Fixpoint retry_loop (send : nat → result string Response) (attempt retries : nat)
  : result ContactRegistryError.t Response :=
  match retries with
  | O => map_err ContactRegistryError.Http (send attempt)
  | S retries =>
      if negb (is_transient (send attempt))
      then map_err ContactRegistryError.Http (send attempt)
      else retry_loop send (attempt + 1) retries
  end.

Definition send_retrying (send : nat → result string Response)
  : result ContactRegistryError.t Response := retry_loop send 0 MAX_RETRIES.

(** [u64::saturating_mul]. *)
Definition u64_MAX : N := (2 ^ 64 - 1)%N.
Definition saturating_mul (a b : N) : N := N.min (a * b) u64_MAX.

Definition jitter_below (nanos max : N) : N :=
  if (max =? 0)%N then 0%N else (nanos mod (max + 1))%N.

Definition backoff_with_jitter (nanos : N) (attempt : nat) : N :=
  let exp := saturating_mul RETRY_BASE_MS (N.shiftl 1 (N.of_nat (Nat.min attempt 16))) in
  jitter_below nanos (N.min exp RETRY_MAX_BACKOFF_MS).

(** ** The registry *)

Section registry.
Context {HX : Hex} {D : Dalek} {SV : HttpServer} {B : Base64} {WR : RegistryWire}
  {T : Type} {DS : DeliveryService T}.

Record ContactRegistry := {
  cr_base_url : string;
  cr_delivery : T;
  cr_publish_mode : RegistryPublishMode;
}.

Definition registry_post (r : ContactRegistry) (path : string) (req : SubmitRequest)
  : result ContactRegistryError.t () :=
  resp ← send_retrying (http_post (cr_base_url r ++ path)%string (json_submit req));
  if is_success (status resp) then Ok ()
  else Err (ContactRegistryError.Server (status resp) (text_or_default resp)).

Record FetchedBundle := { fb_payload : list byte; fb_signature : list byte }.

Definition decode_b64 (s : string) : result ContactRegistryError.t (list byte) :=
  map_err ContactRegistryError.Decode (b64_decode s).

Definition registry_fetch (url : string) : result ContactRegistryError.t (option FetchedBundle) :=
  resp ← send_retrying (http_get url);
  if (status resp =? NOT_FOUND)%N then Ok None
  else if negb (is_success (status resp)) then
    Err (ContactRegistryError.Server (status resp) (text_or_default resp))
  else
    body ← map_err ContactRegistryError.Http (read_all resp);
    fr ← map_err ContactRegistryError.Http (json_fetch body);
    payload ← decode_b64 (fr_payload fr);
    signature ← decode_b64 (fr_signature fr);
    if decide (length signature = 64)
    then Ok (Some {| fb_payload := payload; fb_signature := signature |})
    else Err (ContactRegistryError.Decode "signature not 64 bytes").

(** [register], for the time read ([None]: a clock before the epoch). *)
Definition registry_register (r : ContactRegistry) (sk : Ed25519SigningKey) (signer : SignerKey)
    (now_ms : option N) (key_bundle : list byte)
  : ContactRegistry * result ContactRegistryError.t () :=
  match now_ms with
  | None => (r, Err ContactRegistryError.Clock)
  | Some timestamp_ms =>
      let payload := encode_payload timestamp_ms key_bundle in
      let signature := sign sk payload in
      let device_id := signer_bytes signer in
      match cr_publish_mode r with
      | ModeHttp =>
          (r, registry_post r "/v0/keypackage"
                {| sr_device_id := bytes_str (hex_encode device_id);
                   sr_payload := b64_encode payload;
                   sr_signature := b64_encode (sig_bytes signature) |})
      | ModeDelivery =>
          let '(d, res) := ds_publish (cr_delivery r)
            {| delivery_address := KEYPACKAGE_SUBMIT_ADDRESS;
               env_data := proto_submission
                 {| ks_device_id := device_id; ks_payload := payload;
                    ks_signature := sig_bytes signature |} |} in
          ({| cr_base_url := cr_base_url r; cr_delivery := d;
              cr_publish_mode := cr_publish_mode r |},
           map_err ContactRegistryError.Publish res)
      end
  end.

Definition registry_retrieve (r : ContactRegistry) (device_id : string)
  : result ContactRegistryError.t (option (list byte)) :=
  fetched ← registry_fetch (cr_base_url r ++ "/v0/keypackage/" ++ device_id)%string;
  match fetched with
  | None => Ok None
  | Some bundle =>
      bytes ← ok_or (hex_decode (str_bytes device_id))
                (ContactRegistryError.Decode (hex_error (str_bytes device_id)));
      if decide (length bytes = 32) then
        key ← map_err (λ _, ContactRegistryError.Decode "device_id not a valid ed25519 vk")
                (from_canonical_bytes bytes);
        _ ← map_err (λ _, ContactRegistryError.SignatureInvalid)
              (verify key (fb_payload bundle) (Signature (fb_signature bundle)));
        '(_, key_package) ← ok_or (decode_payload (fb_payload bundle))
                              (ContactRegistryError.Decode "short payload");
        Ok (Some key_package)
      else Err (ContactRegistryError.Decode "device_id not a 32-byte key")
  end.
End registry.
Arguments ContactRegistry : clear implicits.

(** ** The test registry ([ephemeral.rs]) *)

Record EphemeralRegistry := { key_packages : gmap string (list byte) }.

Definition ephemeral_register {HX : Hex} (r : EphemeralRegistry) (signer : SignerKey)
    (key_bundle : list byte) : EphemeralRegistry :=
  {| key_packages := <[signer_to_string signer := key_bundle]> (key_packages r) |}.

Definition ephemeral_retrieve (r : EphemeralRegistry) (device_id : string) : option (list byte) :=
  key_packages r !! device_id.

(** ** Lemmas *)

Lemma decode_encode_payload ts kp :
  (ts < 2 ^ 64)%N → decode_payload (encode_payload ts kp) = Some (ts, kp).
Proof.
  intros Hts. unfold decode_payload, encode_payload.
  assert (length (to_le_bytes 8 ts) = 8) as Hl by apply length_to_le_bytes.
  rewrite length_app, Hl. destruct (Nat.ltb_spec (8 + length kp) 8); [lia|].
  rewrite <- Hl at 1 3. rewrite take_app_length, drop_app_length, from_to_le_bytes.
  rewrite N.mod_small by done. done.
Qed.

Lemma decode_payload_Some p ts kp :
  decode_payload p = Some (ts, kp) → p = encode_payload ts kp ∧ (ts < 2 ^ 64)%N.
Proof.
  unfold decode_payload, encode_payload. destruct (Nat.ltb_spec (length p) 8) as [|Hl]; [done|].
  intros [= <- <-]. assert (length (take 8 p) = 8) as Ht by (rewrite length_take; lia).
  pose proof (to_from_le_bytes (take 8 p)) as E. rewrite Ht in E. rewrite E, take_drop.
  split; [done|]. pose proof (from_le_bytes_lt (take 8 p)) as Hlt. by rewrite Ht in Hlt.
Qed.

(** At most [retries + 1] attempts; the answer is the first that is not
    transient, or the last. *)
Lemma retry_loop_spec send a r :
  ∃ n, n ≤ r ∧ retry_loop send a r = map_err ContactRegistryError.Http (send (a + n)) ∧
    (n = r ∨ is_transient (send (a + n)) = false) ∧
    ∀ m, m < n → is_transient (send (a + m)) = true.
Proof.
  revert a. induction r as [|r IH]; intros a; cbn.
  { exists 0. rewrite Nat.add_0_r. split_and!; [done|done|auto|lia]. }
  destruct (is_transient (send a)) eqn:Ht; cbn.
  - destruct (IH (a + 1)) as (n & Hn & Hr & Hor & Hall). exists (S n).
    replace (a + S n) with (a + 1 + n) by lia. split_and!; [lia|done| |].
    + destruct Hor; [left; lia | auto].
    + intros [|m] Hm; [by rewrite Nat.add_0_r|].
      replace (a + S m) with (a + 1 + m) by lia. apply Hall. lia.
  - exists 0. rewrite Nat.add_0_r. split_and!; [lia|done|auto|lia].
Qed.

Lemma backoff_bound nanos a : (backoff_with_jitter nanos a ≤ RETRY_MAX_BACKOFF_MS)%N.
Proof.
  unfold backoff_with_jitter, jitter_below. set (m := N.min _ _).
  assert (m ≤ RETRY_MAX_BACKOFF_MS)%N by (apply N.le_min_r).
  destruct (N.eqb_spec m 0); [lia|].
  pose proof (N.mod_upper_bound nanos (m + 1) ltac:(lia)). lia.
Qed.

Section properties.
Context {HX : Hex} {HL : HexLaws HX} {D : Dalek} {DL : DalekLaws D} {SV : HttpServer} {B : Base64}
  {BL : Base64Laws B} {WR : RegistryWire} {T : Type} {DS : DeliveryService T}.

(** C14. A key package is returned only when the device that was asked for
    signed it: the requested id is the hex of an admissible key, and the
    fetched signature verifies under that key over a timestamp and exactly
    the bytes returned. *)
Theorem retrieve_authenticated (r : ContactRegistry T) device_id kp :
  registry_retrieve r device_id = Ok (Some kp) →
  ∃ key ts sig, hex_decode (str_bytes device_id) = Some (key_bytes key) ∧ key_wf key ∧
    (ts < 2 ^ 64)%N ∧ length sig = 64 ∧
    verify key (encode_payload ts kp) (Signature sig) = Ok ().
Proof.
  unfold registry_retrieve. intros ([bundle|] & Hf & H)%bind_Ok; [|done].
  apply bind_Ok in H as (bytes & Hb%ok_or_Ok & H). case_decide as Hl; [|done].
  apply bind_Ok in H as (key & Hk%map_err_Ok & H).
  apply bind_Ok in H as ([] & Hv%map_err_Ok & H).
  apply bind_Ok in H as ([ts kp'] & Hp%ok_or_Ok & [= <-]).
  apply decode_payload_Some in Hp as [Hp Hts]. rewrite Hp in Hv.
  exists key, ts, (fb_signature bundle).
  split_and!; [|by eapply from_canonical_bytes_wf|done| |done].
  - rewrite Hb. f_equal. symmetry. by apply from_canonical_bytes_bytes.
  - unfold registry_fetch in Hf. apply bind_Ok in Hf as (resp & _ & Hf).
    destruct (_ =? _)%N; [done|]. destruct (negb _); [done|].
    apply bind_Ok in Hf as (b & _ & Hf). apply bind_Ok in Hf as (fr & _ & Hf). apply bind_Ok in Hf as (p & _ & Hf).
    apply bind_Ok in Hf as (s & _ & Hf). case_decide; [|done]. by simplify_eq.
Qed.

(** What a device registers is what a reader gets: a store that answers with
    the submitted fields yields the registered key package. *)
Lemma register_retrieve (r : ContactRegistry T) sk ts kp resp fr :
  (ts < 2 ^ 64)%N →
  let payload := encode_payload ts kp in
  let device_id := signer_to_string (signer_from_key (verifying_key sk)) in
  send_retrying (http_get (cr_base_url r ++ "/v0/keypackage/" ++ device_id)%string) = Ok resp →
  status resp = 200%N → broken resp = None → json_fetch (body resp) = Ok fr →
  fr_payload fr = b64_encode payload → fr_signature fr = b64_encode (sig_bytes (sign sk payload)) →
  registry_retrieve r device_id = Ok (Some kp).
Proof.
  intros Hts payload device_id Hsend Hst Hbr Hj Hp Hs. unfold registry_retrieve, registry_fetch.
  rewrite Hsend. cbn [mbind result_bind]. rewrite Hst. cbn [N.eqb NOT_FOUND Pos.eqb].
  cbn [is_success]. change (is_success 200) with true. cbn [negb].
  unfold read_all. rewrite Hbr. cbn [mbind result_bind map_err].
  rewrite Hj. cbn [mbind result_bind map_err]. unfold decode_b64.
  rewrite Hp, Hs, !b64_decode_encode. cbn [mbind result_bind map_err].
  rewrite decide_True by (cbn; apply sign_len). cbn [mbind result_bind fb_payload fb_signature].
  unfold device_id, signer_to_string. rewrite list_byte_of_string_of_list_byte, hex_decode_encode.
  cbn [mbind result_bind ok_or signer_from_key signer_bytes].
  rewrite decide_True by apply length_key_bytes.
  pose proof (verifying_key_wf sk) as Hwf. unfold key_wf in Hwf. rewrite Hwf.
  cbn [mbind result_bind map_err].
  assert (verify (verifying_key sk) payload (Signature (sig_bytes (sign sk payload))) = Ok ()) as ->
    by apply verify_sign.
  cbn [mbind result_bind map_err]. unfold payload. rewrite decode_encode_payload by done. done.
Qed.
End properties.
