(* ===== verification/HttpTheorems.v ===== *)
(** * Theorems about the HTTP clients

    The verdict of [HttpAuthClient] on a signer, and inhabited instances of
    the registry's parameters. *)

From Stdlib Require Import Strings.Byte Strings.String.
From stdpp Require Import base gmap strings list numbers.
From S2P Require Import Prelude Utf8 Hex Ed25519 Context AccountLog Codec Addr.
From S2P Require Import Draft Record Account AccountTheorems Identity HttpAuth Delivery Registry.

Section properties.
Context {HX : Hex} {D : Dalek} {DL : DalekLaws D} {SV : HttpServer}.

(** C15. The verdict on a signer, on every branch, for whatever the server
    answers: it never panics; an unreadable participant or signer is invalid
    without asking the server; a failed lookup is an error and never a
    verdict; otherwise the account shown is one its own key signed, and the
    signer is valid exactly when that log endorses it live, revoked exactly
    when every endorsement was withdrawn, invalid when it has none. *)
Theorem auth_verdict_exact e sk pid :
  ∃ res, http_validate_signer e sk pid = Some res ∧
  match addr_try_from (participant_bytes pid), from_canonical_slice (signer_bytes sk) with
  | Ok addr, Ok k =>
      match get_account e addr with
      | Err err => res = Err err
      | Ok None => res = Ok AuthResult.Invalid
      | Ok (Some r) =>
          let endorsement := Add CHATSIGNER_CONTEXT (Ed25519Key (key_bytes k)) in
          let live := ∃ t, live_at (rec_entries r) t endorsement in
          let withdrawn := ∃ t, rec_entries r !! t = Some endorsement ∧
                                Remove (N.of_nat t) ∈ rec_entries r in
          record_valid r ∧ rec_addr r = addr ∧
          match res with
          | Ok AuthResult.Valid => live
          | Ok AuthResult.Revoked => ¬ live ∧ withdrawn
          | Ok AuthResult.Invalid => ¬ live ∧ ¬ withdrawn
          | Err _ => False
          end
      end
  | _, _ => res = Ok AuthResult.Invalid
  end.
Proof.
  destruct (addr_try_from (participant_bytes pid)) as [addr|?] eqn:Ha.
  2: { exists (Ok AuthResult.Invalid). unfold http_validate_signer. by rewrite Ha. }
  destruct (from_canonical_slice (signer_bytes sk)) as [k|?] eqn:Hk.
  2: { exists (Ok AuthResult.Invalid). unfold http_validate_signer. by rewrite Ha, Hk. }
  destruct (get_account e addr) as [[r|]|err] eqn:Hg.
  - destruct (http_validate_signer_account e sk pid addr k r Ha Hk Hg) as (v & Hv & Hspec).
    destruct (get_account_Some e addr r Hg) as (Hr & Hra & _).
    exists (Ok v). split; [done|]. cbv zeta. split_and!; [done..|]. by destruct v.
  - exists (Ok AuthResult.Invalid). unfold http_validate_signer. by rewrite Ha, Hk, Hg.
  - exists (Err err). unfold http_validate_signer. by rewrite Ha, Hk, Hg.
Qed.
End properties.

(** ** A concrete registry: a server that is busy twice, then answers *)

Definition demo_b64 : Base64 := {| b64_encode := bytes_str; b64_decode s := Ok (str_bytes s) |}.

Definition demo_stored : FetchResponse := {|
  fr_payload := bytes_str (encode_payload 7 [x0a; x0b]);
  fr_signature := bytes_str (sig_bytes (sign (D := dalek_ref) demo_sk
                               (encode_payload 7 [x0a; x0b]))) |}.

Definition demo_wire : RegistryWire := {|
  json_submit r := str_bytes (sr_payload r);
  json_fetch _ := Ok demo_stored;
  proto_submission s := ks_payload s |}.

Definition demo_server : HttpServer := {|
  http_get _ n := if n <? 2 then Ok (whole 503 [])
                  else Ok (whole 200 []);
  http_post _ _ _ := Ok (whole 200 []) |}.

Definition demo_registry : ContactRegistry () :=
  {| cr_base_url := "http://store"; cr_delivery := (); cr_publish_mode := ModeHttp |}.

Definition demo_device : string :=
  signer_to_string (HX := hex_ref) (signer_from_key (verifying_key (D := dalek_ref) demo_sk)).

Lemma retrieve_authenticated_witness :
  ∃ key ts sig, verify (D := dalek_ref) key (encode_payload ts [x0a; x0b]) (Signature sig) = Ok ().
Proof.
  destruct (retrieve_authenticated (HX := hex_ref) (D := dalek_ref) (DL := dalek_ref_laws)
    (SV := demo_server) (B := demo_b64) (WR := demo_wire) demo_registry demo_device [x0a; x0b])
    as (key & ts & sig & _ & _ & _ & _ & H).
  - vm_compute. reflexivity.
  - exists key, ts, sig. exact H.
Defined.

(** A server that holds one account's log. *)
Definition log_server : HttpServer := {|
  http_get _ _ := Ok (whole 200 (signed_to_bytes (demo_sign demo_entries)));
  http_post _ _ _ := Ok (whole 200 []) |}.

Lemma auth_verdict_exact_witness :
  ∃ res, http_validate_signer (HX := hex_ref) (D := dalek_ref) (SV := log_server)
      {| base_url := "http://accounts" |} (signer_from_key (D := dalek_ref) demo_key)
      (Participant (addr_to_bytes demo_addr)) = Some res ∧ res = Ok AuthResult.Revoked.
Proof.
  destruct (auth_verdict_exact (HX := hex_ref) (D := dalek_ref) (DL := dalek_ref_laws)
    (SV := log_server) {| base_url := "http://accounts" |}
    (signer_from_key (D := dalek_ref) demo_key) (Participant (addr_to_bytes demo_addr)))
    as (res & H & _).
  exists res. split; [exact H|]. vm_compute in H. congruence.
Defined.
