(* ===== verification/MessageStore.v ===== *)
(** * The message store ([extensions/message-store/src/lib.rs])

    A SQLite table of messages: rows under an [AUTOINCREMENT] key, read back
    a page at a time. The queries are modelled as SQL gives them meaning, the
    abstract view is a log, and the store refines it. *)

From Stdlib Require Import Strings.Byte Strings.String.
From stdpp Require Import base gmap strings numbers sorting list.
From S2P Require Import Prelude.

Inductive Direction : Type := Sent | Received.
Definition direction_as_i64 (d : Direction) : Z := match d with Sent => 0 | Received => 1 end%Z.

Record Message := {
  msg_chat_id : string;
  msg_convo_id : string;
  msg_direction : Direction;
  msg_sender_account : option string;
  msg_sender_installation : option string;
  msg_message_id : option string;
  msg_timestamp_ms : Z;
  msg_content : list byte;
}.

Record StoredMessage := { sm_seq : Z; sm_message : Message }.

(** ** The table *)

(** A row without its key: the direction is an integer column. *)
Record Row := {
  row_chat_id : string;
  row_convo_id : string;
  row_direction : Z;
  row_sender_account : option string;
  row_sender_installation : option string;
  row_message_id : option string;
  row_timestamp_ms : Z;
  row_content : list byte;
}.

(** The rows by [seq], and the table's entry in [sqlite_sequence] (0 before
    the first insert). *)
Record MessageTable := { mt_rows : gmap Z Row; mt_sequence : Z }.

(** A table just migrated. *)
Definition empty_table : MessageTable := {| mt_rows := ∅; mt_sequence := 0 |}.

Definition i64_MAX : Z := 2 ^ 63 - 1.

Definition keys (t : MessageTable) : list Z := elements (dom (mt_rows t) : gset Z).

(** The key [AUTOINCREMENT] picks: above every row and every key ever used,
    or none when the range is exhausted ([SQLITE_FULL]). *)
Definition next_seq (t : MessageTable) : option Z :=
  let last := fold_right Z.max (mt_sequence t) (keys t) in
  if decide (last < i64_MAX)%Z then Some (last + 1)%Z else None.

(** [stored_message]. *)
Definition stored_message (seq : Z) (r : Row) : result string StoredMessage :=
  direction ← (if decide (row_direction r = 0%Z) then Ok Sent
               else if decide (row_direction r = 1%Z) then Ok Received
               else Err "integral value out of range"%string);
  Ok {| sm_seq := seq;
        sm_message := {| msg_chat_id := row_chat_id r; msg_convo_id := row_convo_id r;
          msg_direction := direction; msg_sender_account := row_sender_account r;
          msg_sender_installation := row_sender_installation r;
          msg_message_id := row_message_id r; msg_timestamp_ms := row_timestamp_ms r;
          msg_content := row_content r |} |}.

Definition message_row (m : Message) : Row :=
  {| row_chat_id := msg_chat_id m; row_convo_id := msg_convo_id m;
     row_direction := direction_as_i64 (msg_direction m);
     row_sender_account := msg_sender_account m;
     row_sender_installation := msg_sender_installation m;
     row_message_id := msg_message_id m; row_timestamp_ms := msg_timestamp_ms m;
     row_content := msg_content m |}.

(** [record]. *)
Definition record (m : Message) (t : MessageTable) : MessageTable * result string Z :=
  match next_seq t with
  | None => (t, Err "database or disk is full"%string)
  | Some seq =>
      ({| mt_rows := <[seq := message_row m]> (mt_rows t); mt_sequence := seq |}, Ok seq)
  end.

(** Whether the row under a key is of a chat. *)
Definition in_chat (t : MessageTable) (chat_id : string) (seq : Z) : bool :=
  match mt_rows t !! seq with
  | Some r => bool_decide (row_chat_id r = chat_id)
  | None => false
  end.

(** [WHERE chat_id = ?1 AND seq < ?2 ORDER BY seq DESC]. *)
Definition select_desc (t : MessageTable) (chat_id : string) (before : Z) : list Z :=
  merge_sort (flip Z.le) (filter (λ seq, in_chat t chat_id seq = true ∧ (seq < before)%Z) (keys t)).

(** The row under a selected key, as a message. *)
Definition fetch (t : MessageTable) (seq : Z) : result string StoredMessage :=
  r ← ok_or (mt_rows t !! seq) "no row"%string; stored_message seq r.

(** [messages]; a limit beyond [i64] cannot be bound. *)
Definition messages (t : MessageTable) (chat_id : string) (before : option Z) (limit : N)
  : result string (list StoredMessage) :=
  if decide (i64_MAX < Z.of_N limit)%Z then Err "out of range integral type conversion"%string
  else
    page ← collect (fetch t)
             (take (N.to_nat limit) (select_desc t chat_id (default i64_MAX before)));
    Ok (reverse page).

(** [count], [delete], [delete_chat]. *)
Definition count (t : MessageTable) (chat_id : string) : nat :=
  length (filter (λ seq, in_chat t chat_id seq = true) (keys t)).

Definition delete_message (seq : Z) (t : MessageTable) : MessageTable * bool :=
  ({| mt_rows := delete seq (mt_rows t); mt_sequence := mt_sequence t |},
   bool_decide (is_Some (mt_rows t !! seq))).

Definition delete_chat (chat_id : string) (t : MessageTable) : MessageTable * nat :=
  ({| mt_rows := filter (λ kv, row_chat_id kv.2 ≠ chat_id) (mt_rows t);
      mt_sequence := mt_sequence t |}, count t chat_id).

(** ** The log a table stands for *)

(** Well-formed: keys were handed out, and directions are the two written. *)
Definition table_ok (t : MessageTable) : Prop :=
  (0 ≤ mt_sequence t ≤ i64_MAX)%Z ∧
  map_Forall (λ seq r, (1 ≤ seq ≤ mt_sequence t)%Z ∧ (row_direction r = 0 ∨ row_direction r = 1)%Z)
    (mt_rows t).

Definition message_of (seq : Z) (r : Row) : StoredMessage :=
  match stored_message seq r with
  | Ok m => m
  | Err _ => {| sm_seq := seq; sm_message := {| msg_chat_id := row_chat_id r;
      msg_convo_id := row_convo_id r; msg_direction := Received;
      msg_sender_account := row_sender_account r;
      msg_sender_installation := row_sender_installation r;
      msg_message_id := row_message_id r; msg_timestamp_ms := row_timestamp_ms r;
      msg_content := row_content r |} |}
  end.

(** Every message in the order of its [seq]. *)
Definition log_of (t : MessageTable) : list StoredMessage :=
  omap (λ seq, message_of seq <$> mt_rows t !! seq) (merge_sort Z.le (keys t)).

(** Of a chat, and below a cursor. *)
Definition of_chat (chat_id : string) (m : StoredMessage) : Prop :=
  msg_chat_id (sm_message m) = chat_id.
#[export] Instance of_chat_dec chat_id m : Decision (of_chat chat_id m).
Proof. unfold of_chat. apply _. Defined.

(** ** Lemmas *)

Lemma message_of_chat seq r : msg_chat_id (sm_message (message_of seq r)) = row_chat_id r.
Proof. unfold message_of, stored_message. by repeat case_decide. Qed.
Lemma message_of_seq seq r : sm_seq (message_of seq r) = seq.
Proof. unfold message_of, stored_message. by repeat case_decide. Qed.
Lemma message_of_row seq m : message_of seq (message_row m) = {| sm_seq := seq; sm_message := m |}.
Proof. unfold message_of, stored_message. by destruct m as [?? []]. Qed.

Lemma fetch_ok t seq r :
  table_ok t → mt_rows t !! seq = Some r → fetch t seq = Ok (message_of seq r).
Proof.
  intros [_ Ht] Hr. destruct (Ht _ _ Hr) as [_ Hd]. unfold fetch. rewrite Hr. cbn [ok_or mbind result_bind].
  unfold message_of, stored_message. by destruct Hd as [->| ->].
Qed.

Lemma keys_elem t seq : seq ∈ keys t ↔ is_Some (mt_rows t !! seq).
Proof. unfold keys. by rewrite elem_of_elements, elem_of_dom. Qed.
Lemma keys_NoDup t : NoDup (keys t).
Proof. unfold keys. apply (NoDup_elements (C := gset Z)). Qed.

(** Reading the rows of keys that are there. *)
Lemma collect_fetch t l :
  table_ok t → (∀ seq, seq ∈ l → seq ∈ keys t) →
  collect (fetch t) l = Ok (omap (λ seq, message_of seq <$> mt_rows t !! seq) l).
Proof.
  intros Ht. induction l as [|seq l IH]; intros Hl; [done|]. cbn [collect].
  destruct (proj1 (keys_elem t seq) (Hl seq ltac:(by left))) as [r Hr].
  rewrite (fetch_ok _ _ _ Ht Hr). cbn [mbind result_bind]. rewrite IH by (intros; apply Hl; by right).
  cbn. by rewrite Hr.
Qed.

Lemma omap_reverse {X Y} (f : X → option Y) (l : list X) : omap f (reverse l) = reverse (omap f l).
Proof.
  induction l as [|x l IH]; [done|]. rewrite reverse_cons, omap_app, IH. csimpl.
  destruct (f x); [by rewrite reverse_cons|by rewrite app_nil_r].
Qed.

(** Sorting keys, and what survives filtering and reversing. *)
#[local] Instance z_ge_total : Total (flip Z.le).
Proof. intros x y. unfold flip. lia. Qed.
#[local] Instance z_ge_trans : Transitive (flip Z.le).
Proof. intros x y z. unfold flip. lia. Qed.
#[local] Instance z_ge_antisymm : AntiSymm (=) (flip Z.le).
Proof. intros x y. unfold flip. lia. Qed.

Lemma StronglySorted_filter {X} (R : relation X) (P : X → Prop) `{∀ x, Decision (P x)} (l : list X) :
  StronglySorted R l → StronglySorted R (filter P l).
Proof.
  induction 1 as [|x l Hl IH Hx]; [constructor|]. rewrite filter_cons.
  case_decide; [|done]. constructor; [done|]. rewrite Forall_forall in *.
  intros y [_ ?]%list_elem_of_filter. by apply Hx.
Qed.

Lemma StronglySorted_reverse {X} (R : relation X) l :
  StronglySorted R l → StronglySorted (flip R) (reverse l).
Proof.
  induction 1 as [|x l Hl IH Hx]; [constructor|]. rewrite reverse_cons.
  apply StronglySorted_app_2; [|done|by repeat constructor].
  intros y z Hy Hz. apply list_elem_of_singleton in Hz as ->. unfold flip.
  rewrite Forall_forall in Hx. apply Hx. by apply elem_of_reverse.
Qed.

(** The descending selection is the ascending log read backwards. *)
Lemma select_desc_rev t chat_id before :
  select_desc t chat_id before =
  reverse (filter (λ seq, in_chat t chat_id seq = true ∧ (seq < before)%Z) (merge_sort Z.le (keys t))).
Proof.
  unfold select_desc. apply (StronglySorted_unique (flip Z.le)).
  - apply (StronglySorted_merge_sort _).
  - apply StronglySorted_reverse, StronglySorted_filter, (StronglySorted_merge_sort _).
  - rewrite merge_sort_Permutation, reverse_Permutation.
    by apply filter_Permutation; rewrite merge_sort_Permutation.
Qed.

Lemma omap_agree {X Y} (f g : X → option Y) (l : list X) : (∀ x, x ∈ l → f x = g x) → omap f l = omap g l.
Proof. intros H. apply list_omap_ext, Forall_Forall2_diag, Forall_forall, H. Qed.

(** Filtering what a partial map reads. *)
Lemma filter_omap {X Y} (f : X → option Y) (P : Y → Prop) (Q : X → Prop)
    `{∀ y, Decision (P y), ∀ x, Decision (Q x)} (l : list X) :
  (∀ x y, x ∈ l → f x = Some y → P y ↔ Q x) → filter P (omap f l) = omap f (filter Q l).
Proof.
  induction l as [|x l IH]; intros Hl; [done|].
  assert (IH' : filter P (omap f l) = omap f (filter Q l)) by (apply IH; intros; apply Hl; [by right|done]).
  rewrite filter_cons. csimpl. destruct (f x) as [y|] eqn:Hf.
  - rewrite filter_cons, IH'. pose proof (Hl x y ltac:(by left) Hf).
    destruct (decide (P y)), (decide (Q x)); try tauto. csimpl. by rewrite Hf.
  - rewrite IH'. destruct (decide (Q x)); [|done]. csimpl. by rewrite Hf.
Qed.

Lemma filter_agree {X} (P Q : X → Prop) `{∀ x, Decision (P x), ∀ x, Decision (Q x)} (l : list X) :
  (∀ x, x ∈ l → P x ↔ Q x) → filter P l = filter Q l.
Proof.
  induction l as [|x l IH]; intros Hl; [done|]. rewrite !filter_cons.
  rewrite IH by (intros; apply Hl; by right). specialize (Hl x ltac:(by left)).
  by repeat case_decide; try tauto.
Qed.

Lemma filter_true {X} (P : X → Prop) `{∀ x, Decision (P x)} (l : list X) :
  (∀ x, x ∈ l → P x) → filter P l = l.
Proof.
  intros Hl. rewrite (filter_agree P (λ _, True)) by naive_solver. induction l as [|x l IH]; [done|].
  rewrite filter_cons, decide_True by done. f_equal. apply IH. intros; apply Hl; by right.
Qed.

Lemma filter_none {X} (P : X → Prop) `{∀ x, Decision (P x)} (l : list X) :
  (∀ x, x ∈ l → ¬ P x) → filter P l = [].
Proof.
  intros Hl. rewrite (filter_agree P (λ _, False)) by naive_solver. clear Hl. by induction l.
Qed.

(** Two ways of listing the same keys in order agree. *)
Lemma sorted_keys t l :
  StronglySorted Z.le l → NoDup l → (∀ seq, seq ∈ l ↔ is_Some (mt_rows t !! seq)) →
  merge_sort Z.le (keys t) = l.
Proof.
  intros Hs Hn Hl. apply (StronglySorted_unique Z.le); [apply (StronglySorted_merge_sort _)|done|].
  rewrite merge_sort_Permutation. apply NoDup_Permutation; [apply keys_NoDup|done|].
  intros seq. by rewrite keys_elem, Hl.
Qed.

Lemma sorted_elem t seq : seq ∈ merge_sort Z.le (keys t) ↔ is_Some (mt_rows t !! seq).
Proof. by rewrite merge_sort_Permutation, keys_elem. Qed.
Lemma sorted_NoDup t : NoDup (merge_sort Z.le (keys t)).
Proof. rewrite merge_sort_Permutation. apply keys_NoDup. Qed.
Lemma sorted_sorted t : StronglySorted Z.le (merge_sort Z.le (keys t)).
Proof. apply (StronglySorted_merge_sort _). Qed.

(** Keeping some of the rows keeps their part of the log. *)
Lemma log_of_keep t (P : StoredMessage → Prop) `{∀ m, Decision (P m)} rows' seq' :
  (∀ seq, rows' !! seq = r ← mt_rows t !! seq; guard (P (message_of seq r));; Some r) →
  log_of {| mt_rows := rows'; mt_sequence := seq' |} = filter P (log_of t).
Proof.
  intros Hrows. set (t' := {| mt_rows := rows'; mt_sequence := seq' |}).
  assert (Hkeep : ∀ seq, is_Some (mt_rows t' !! seq) ↔
    ∃ r, mt_rows t !! seq = Some r ∧ P (message_of seq r)).
  { intros seq. cbn. rewrite Hrows. destruct (mt_rows t !! seq) as [r|]; cbn.
    - case_guard; cbn; split; [eauto|eauto|intros [? [=]]|intros (? & [= ->] & ?); done].
    - split; [intros [? [=]]|intros (? & [=] & ?)]. }
  set (Q := λ seq, is_Some (mt_rows t' !! seq)). unfold log_of at 1. fold t'.
  rewrite (sorted_keys t' (filter Q (merge_sort Z.le (keys t)))).
  - unfold log_of. rewrite (filter_omap _ P Q).
    + apply omap_agree. intros seq [[r Hr] _]%list_elem_of_filter. rewrite Hr.
      cbn in Hr. rewrite Hrows in Hr. destruct (mt_rows t !! seq) as [r'|]; [|done]. cbn in Hr.
      revert Hr. case_guard; cbn; [by intros [= ->]|done].
    + intros seq m _ Hm. cbn in Hm. destruct (mt_rows t !! seq) as [r|] eqn:Hr; [|done].
      cbn in Hm. simplify_eq. unfold Q. rewrite (Hkeep seq). rewrite Hr. naive_solver.
  - apply StronglySorted_filter, sorted_sorted.
  - apply NoDup_filter, sorted_NoDup.
  - intros seq. rewrite list_elem_of_filter, sorted_elem, (Hkeep seq). naive_solver eauto.
Qed.

(** ** The operations on the log *)

Lemma last_seq t : table_ok t → fold_right Z.max (mt_sequence t) (keys t) = mt_sequence t.
Proof.
  intros [_ Ht]. assert (Hk : ∀ seq, seq ∈ keys t → (seq ≤ mt_sequence t)%Z).
  { intros seq [r Hr]%keys_elem. destruct (Ht _ _ Hr) as [? _]; lia. }
  revert Hk. induction (keys t) as [|seq l IH]; intros Hk; [done|]. cbn.
  rewrite IH by (intros; apply Hk; by right).
  specialize (Hk seq ltac:(by left)). lia.
Qed.

Lemma next_seq_ok t :
  table_ok t →
  next_seq t = if decide (mt_sequence t < i64_MAX)%Z then Some (mt_sequence t + 1)%Z else None.
Proof. intros Ht. unfold next_seq. by rewrite last_seq. Qed.

Lemma message_row_direction m : (row_direction (message_row m) = 0 ∨ row_direction (message_row m) = 1)%Z.
Proof. destruct m as [?? []]; cbn; auto. Qed.

Lemma record_ok m t : table_ok t → table_ok (record m t).1.
Proof.
  intros Ht. unfold record. rewrite next_seq_ok by done. case_decide as Hlt; [|done].
  destruct Ht as [Hs Ht]. split; cbn; [lia|]. intros seq r. rewrite lookup_insert_Some.
  intros [[<- <-]|[_ Hr]]; [split; [lia|apply message_row_direction]|].
  destruct (Ht _ _ Hr); split; [lia|done].
Qed.

(** Fewer rows are as good. *)
Lemma table_ok_fewer t rows' :
  table_ok t → rows' ⊆ mt_rows t → table_ok {| mt_rows := rows'; mt_sequence := mt_sequence t |}.
Proof.
  intros [Hs Ht] Hsub. split; [done|]. intros seq r Hr. cbn in *.
  by apply Ht, (lookup_weaken rows').
Qed.

Lemma record_log m t :
  table_ok t → (mt_sequence t < i64_MAX)%Z →
  log_of (record m t).1 = log_of t ++ [{| sm_seq := mt_sequence t + 1; sm_message := m |}].
Proof.
  intros Ht Hlt. unfold record. rewrite next_seq_ok, decide_True by done. cbn [fst].
  set (seq := (mt_sequence t + 1)%Z). destruct Ht as [Hs Ht].
  assert (Hk : ∀ k, k ∈ merge_sort Z.le (keys t) → (k < seq)%Z).
  { intros k [r Hr]%sorted_elem. destruct (Ht _ _ Hr) as [? _]. lia. }
  unfold log_of at 1. rewrite (sorted_keys _ (merge_sort Z.le (keys t) ++ [seq])); cbn [mt_rows].
  - rewrite omap_app. f_equal.
    + apply omap_agree. intros k Hin. specialize (Hk k Hin). by rewrite lookup_insert_ne by lia.
    + cbn. rewrite lookup_insert, decide_True by done. cbn. by rewrite message_of_row.
  - apply StronglySorted_app_2; [|apply sorted_sorted|by repeat constructor].
    intros k k' Hin ->%list_elem_of_singleton. specialize (Hk k Hin). lia.
  - apply NoDup_app. split; [apply sorted_NoDup|]. split; [|apply NoDup_singleton].
    intros k Hin ->%list_elem_of_singleton. specialize (Hk _ Hin). lia.
  - intros k. rewrite elem_of_app, list_elem_of_singleton, sorted_elem, lookup_insert_is_Some.
    destruct (decide (seq = k)); naive_solver.
Qed.

Lemma delete_log seq t :
  log_of (delete_message seq t).1 = filter (λ m, sm_seq m ≠ seq) (log_of t).
Proof.
  apply log_of_keep. intros k. rewrite lookup_delete. destruct (mt_rows t !! k) as [r|] eqn:Hr; cbn.
  - pose proof (message_of_seq k r). case_guard; case_decide; simplify_eq; done || congruence.
  - by case_decide.
Qed.

Lemma delete_chat_log chat_id t :
  log_of (delete_chat chat_id t).1 = filter (λ m, ¬ of_chat chat_id m) (log_of t).
Proof.
  apply log_of_keep. intros k. rewrite map_lookup_filter.
  destruct (mt_rows t !! k) as [r|] eqn:Hr; cbn; [|done].
  assert (of_chat chat_id (message_of k r) ↔ row_chat_id r = chat_id).
  { unfold of_chat. by rewrite message_of_chat. }
  case_guard; case_guard; cbn; done || (exfalso; tauto).
Qed.

(** The log's members, and the part of a chat. *)
Lemma in_chat_of t chat_id seq m :
  message_of seq <$> mt_rows t !! seq = Some m → of_chat chat_id m ↔ in_chat t chat_id seq = true.
Proof.
  unfold in_chat, of_chat. intros (r & Hr & ->)%fmap_Some. rewrite Hr, message_of_chat.
  by rewrite bool_decide_eq_true.
Qed.

Lemma log_seq_mem t seq : (∃ m, m ∈ log_of t ∧ sm_seq m = seq) ↔ is_Some (mt_rows t !! seq).
Proof.
  unfold log_of. setoid_rewrite list_elem_of_omap. split.
  - intros (m & (k & Hk & (r & Hr & ->)%fmap_Some) & <-). rewrite message_of_seq. eauto.
  - intros [r Hr]. exists (message_of seq r). split; [|apply message_of_seq]. exists seq.
    rewrite sorted_elem, Hr. eauto.
Qed.

Lemma omap_length {X Y} (f : X → option Y) (l : list X) :
  (∀ x, x ∈ l → is_Some (f x)) → length (omap f l) = length l.
Proof.
  induction l as [|x l IH]; intros Hl; [done|]. csimpl.
  destruct (Hl x ltac:(by left)) as [y ->]. cbn. f_equal. apply IH. intros; apply Hl; by right.
Qed.

Lemma count_log chat_id t : count t chat_id = length (filter (of_chat chat_id) (log_of t)).
Proof.
  unfold count, log_of.
  rewrite (filter_omap _ _ (λ seq, in_chat t chat_id seq = true)) by (intros; by apply in_chat_of).
  rewrite omap_length.
  - apply Permutation_length, filter_Permutation. by rewrite merge_sort_Permutation.
  - intros seq [_ [r ->]%sorted_elem]%list_elem_of_filter. cbn. eauto.
Qed.

(** The last [n] of a list. *)
Definition last_n {X} (n : nat) (l : list X) : list X := drop (length l - n) l.

Lemma reverse_take_reverse {X} n (l : list X) : reverse (take n (reverse l)) = last_n n l.
Proof. unfold last_n. by rewrite take_reverse, reverse_involutive. Qed.

Lemma omap_take {X Y} (f : X → option Y) n (l : list X) :
  (∀ x, x ∈ l → is_Some (f x)) → omap f (take n l) = take n (omap f l).
Proof.
  revert n. induction l as [|x l IH]; intros [|n] Hl; [done|done|done|]. csimpl.
  destruct (Hl x ltac:(by left)) as [y ->]. cbn. f_equal. apply IH. intros; apply Hl; by right.
Qed.

Lemma messages_log chat_id before limit t :
  table_ok t → (Z.of_N limit ≤ i64_MAX)%Z →
  messages t chat_id before limit =
  Ok (last_n (N.to_nat limit)
        (filter (λ m, of_chat chat_id m ∧ (sm_seq m < default i64_MAX before)%Z) (log_of t))).
Proof.
  intros Ht Hlim. unfold messages. rewrite decide_False by lia. rewrite select_desc_rev.
  set (b := default i64_MAX before). set (Q := λ seq, _ ∧ _).
  assert (HQ : ∀ seq, seq ∈ reverse (filter Q (merge_sort Z.le (keys t))) → is_Some (mt_rows t !! seq)).
  { intros seq. rewrite elem_of_reverse, list_elem_of_filter. intros [_ ?]. by apply sorted_elem. }
  rewrite collect_fetch; [|done|].
  2:{ intros seq Hin. apply keys_elem, HQ. apply elem_of_take in Hin as (i & Hi & _).
      by apply list_elem_of_lookup_2 in Hi. }
  cbn [mbind result_bind]. rewrite omap_take.
  2:{ intros seq [r ->]%HQ. cbn. eauto. }
  rewrite omap_reverse, reverse_take_reverse. do 2 f_equal. unfold log_of. symmetry.
  apply filter_omap. intros seq m _ Hm. unfold Q. rewrite (in_chat_of _ _ _ _ Hm).
  apply fmap_Some in Hm as (r & _ & ->). by rewrite message_of_seq.
Qed.

(** ** Refinement: the table behaves as the log it stands for *)

(** What the store promises: a log, and the last [seq] handed out. *)
Record Log := { entries : list StoredMessage; last_handed : Z }.

Definition abs (t : MessageTable) : Log := {| entries := log_of t; last_handed := mt_sequence t |}.

Definition log_record (m : Message) (l : Log) : Log * result string Z :=
  if decide (last_handed l < i64_MAX)%Z then
    let seq := (last_handed l + 1)%Z in
    ({| entries := entries l ++ [{| sm_seq := seq; sm_message := m |}]; last_handed := seq |}, Ok seq)
  else (l, Err "database or disk is full"%string).

Definition log_delete (seq : Z) (l : Log) : Log * bool :=
  ({| entries := filter (λ m, sm_seq m ≠ seq) (entries l); last_handed := last_handed l |},
   bool_decide (seq ∈ sm_seq <$> entries l)).

Definition log_delete_chat (chat_id : string) (l : Log) : Log * nat :=
  ({| entries := filter (λ m, ¬ of_chat chat_id m) (entries l); last_handed := last_handed l |},
   length (filter (of_chat chat_id) (entries l))).

Definition log_page (chat_id : string) (before : option Z) (limit : nat) (l : Log)
  : list StoredMessage :=
  last_n limit (filter (λ m, of_chat chat_id m ∧ (sm_seq m < default i64_MAX before)%Z) (entries l)).

(** The calls an application makes, and what each answers. *)
Inductive Call : Type :=
  | CallRecord (m : Message)
  | CallMessages (chat_id : string) (before : option Z) (limit : N)
  | CallCount (chat_id : string)
  | CallDelete (seq : Z)
  | CallDeleteChat (chat_id : string).

Inductive Answer : Type :=
  | Recorded (r : result string Z)
  | Page (r : result string (list StoredMessage))
  | Counted (n : nat)
  | Deleted (b : bool)
  | DeletedChat (n : nat).

Definition call (c : Call) (t : MessageTable) : MessageTable * Answer :=
  match c with
  | CallRecord m => let '(t', r) := record m t in (t', Recorded r)
  | CallMessages chat_id before limit => (t, Page (messages t chat_id before limit))
  | CallCount chat_id => (t, Counted (count t chat_id))
  | CallDelete seq => let '(t', b) := delete_message seq t in (t', Deleted b)
  | CallDeleteChat chat_id => let '(t', n) := delete_chat chat_id t in (t', DeletedChat n)
  end.

Definition log_call (c : Call) (l : Log) : Log * Answer :=
  match c with
  | CallRecord m => let '(l', r) := log_record m l in (l', Recorded r)
  | CallMessages chat_id before limit =>
      (l, Page (if decide (i64_MAX < Z.of_N limit)%Z
                then Err "out of range integral type conversion"%string
                else Ok (log_page chat_id before (N.to_nat limit) l)))
  | CallCount chat_id => (l, Counted (length (filter (of_chat chat_id) (entries l))))
  | CallDelete seq => let '(l', b) := log_delete seq l in (l', Deleted b)
  | CallDeleteChat chat_id => let '(l', n) := log_delete_chat chat_id l in (l', DeletedChat n)
  end.

Fixpoint calls {S} (step : Call → S → S * Answer) (cs : list Call) (s : S) : S * list Answer :=
  match cs with
  | [] => (s, [])
  | c :: cs' => let '(s', a) := step c s in
                let '(s'', rest) := calls step cs' s' in (s'', a :: rest)
  end.

Lemma call_ok c t : table_ok t → table_ok (call c t).1.
Proof.
  intros Ht. destruct c as [m| | |seq|chat_id]; cbn [call]; try done.
  - pose proof (record_ok m t Ht). by destruct (record m t).
  - apply table_ok_fewer; [done|]. apply delete_subseteq.
  - apply table_ok_fewer; [done|]. apply map_filter_subseteq.
Qed.

Lemma call_refines c t :
  table_ok t → log_call c (abs t) = (abs (call c t).1, (call c t).2).
Proof.
  intros Ht. destruct c as [m|chat_id before limit|chat_id|seq|chat_id]; cbn [call log_call fst snd].
  - unfold log_record. cbn [abs last_handed entries].
    case_decide as Hlt.
    + pose proof (record_log m t Ht Hlt) as Hlog. revert Hlog. unfold record.
      rewrite next_seq_ok, decide_True by done. cbn. intros Hlog. unfold abs. by rewrite Hlog.
    + unfold record. by rewrite next_seq_ok, decide_False by done.
  - case_decide as Hlim; [unfold messages; by rewrite decide_True|].
    by rewrite messages_log by (done || lia).
  - by rewrite count_log.
  - pose proof (delete_log seq t) as Hlog. unfold log_delete, abs. cbn in *. rewrite Hlog.
    f_equal. f_equal. apply bool_decide_ext.
    rewrite <-log_seq_mem, list_elem_of_fmap. naive_solver.
  - pose proof (delete_chat_log chat_id t) as Hlog. unfold log_delete_chat, abs. cbn in *.
    by rewrite Hlog, count_log.
Qed.

Lemma empty_ok : table_ok empty_table.
Proof. split; [cbn; unfold i64_MAX; lia|]. apply map_Forall_empty. Qed.

Lemma calls_refine cs t :
  table_ok t → calls log_call cs (abs t) = (abs (calls call cs t).1, (calls call cs t).2).
Proof.
  revert t. induction cs as [|c cs IH]; intros t Ht; [done|]. cbn [calls].
  rewrite call_refines by done. pose proof (call_ok c t Ht) as Ht'.
  destruct (call c t) as [t' a]. cbn [fst snd] in *. rewrite IH by done.
  by destruct (calls call cs t').
Qed.

(** C26. Refinement: over every sequence of calls on a new store, the table
    answers what the log answers and stands for the log reached: a record is
    appended under the next [seq], a page is the last [limit] messages of the
    chat below the cursor, oldest first, a count is the chat's share, and a
    delete removes exactly what it names. *)
Theorem message_store_refines_log (cs : list Call) :
  let '(t, answers) := calls call cs empty_table in
  calls log_call cs {| entries := []; last_handed := 0 |} = (abs t, answers).
Proof.
  pose proof (calls_refine cs empty_table empty_ok) as H.
  destruct (calls call cs empty_table) as [t answers]. exact H.
Qed.

(** The [seq]s a run hands out. *)
Definition handed_out (answers : list Answer) : list Z :=
  omap (λ a, match a with Recorded (Ok seq) => Some seq | _ => None end) answers.

Lemma call_sequence c t :
  table_ok t →
  (mt_sequence t ≤ mt_sequence (call c t).1)%Z ∧
  (∀ seq, (call c t).2 = Recorded (Ok seq) → mt_sequence t < seq ∧ mt_sequence (call c t).1 = seq)%Z.
Proof.
  intros Ht. destruct c; cbn [call delete_message delete_chat fst snd mt_sequence]; try (split; [lia|done]).
  unfold record. rewrite next_seq_ok by done. case_decide; cbn; split; try lia; intros ? [= <-]; lia.
Qed.

Lemma handed_above cs t :
  table_ok t →
  Forall (λ seq, mt_sequence t < seq)%Z (handed_out (calls call cs t).2) ∧
  StronglySorted Z.lt (handed_out (calls call cs t).2).
Proof.
  revert t. induction cs as [|c cs IH]; intros t Ht; [split; constructor|]. cbn [calls].
  pose proof (call_ok c t Ht) as Ht'. destruct (call_sequence c t Ht) as [Hge Hseq].
  destruct (call c t) as [t' a]. cbn [fst snd] in *. destruct (IH t' Ht') as [Hall Hs].
  destruct (calls call cs t') as [t'' rest]. cbn [fst snd] in *.
  assert (Hall' : Forall (λ seq, mt_sequence t < seq)%Z (handed_out rest)).
  { eapply Forall_impl; [exact Hall|]. cbn. lia. }
  unfold handed_out. csimpl. fold (handed_out rest).
  destruct a as [[seq|e]| | | |]; try by split. destruct (Hseq seq eq_refl) as [Hlt Heq].
  split; constructor; [lia|done|done|]. rewrite <-Heq. exact Hall.
Qed.

(** Invariant: the [seq]s a store hands out over any calls, deletes
    included, are positive and strictly grow, so none is handed out twice. *)
Theorem seqs_never_reused (cs : list Call) :
  let seqs := handed_out (calls call cs empty_table).2 in
  Forall (λ seq, 0 < seq)%Z seqs ∧ StronglySorted Z.lt seqs ∧ NoDup seqs.
Proof.
  destruct (handed_above cs empty_table empty_ok) as [Hall Hs]. split; [exact Hall|]. split; [done|].
  induction Hs as [|seq l Hl IH Hf]; [constructor|]. constructor.
  - rewrite Forall_forall in Hf. intros Hin%Hf. lia.
  - apply IH. by inv Hall.
Qed.

(** ** Paging *)

(** Reading a chat backwards: each page's first [seq] is the next cursor, and
    a page shorter than the limit ends the reading. *)
Fixpoint read_back (fuel : nat) (t : MessageTable) (chat_id : string) (before : option Z) (limit : N)
  : result string (list StoredMessage) :=
  match fuel with
  | O => Err "fuel"%string
  | S fuel' =>
      page ← messages t chat_id before limit;
      match page with
      | [] => Ok []
      | m :: _ => if decide (length page < N.to_nat limit) then Ok page
                  else older ← read_back fuel' t chat_id (Some (sm_seq m)) limit; Ok (older ++ page)
      end
  end.

(** The log is strictly ordered by [seq]. *)
Lemma log_sorted t : StronglySorted (λ m m', sm_seq m < sm_seq m')%Z (log_of t).
Proof.
  unfold log_of. pose proof (sorted_sorted t) as Hs. pose proof (sorted_NoDup t) as Hn.
  induction Hs as [|seq l Hl IH Hseq]; [constructor|]. apply NoDup_cons in Hn as [Hnin Hn]. csimpl.
  destruct (mt_rows t !! seq) as [r|]; cbn; [|by apply IH]. constructor; [by apply IH|].
  rewrite Forall_forall in Hseq. apply Forall_forall. intros m (k & Hk & (r' & _ & ->)%fmap_Some)%list_elem_of_omap.
  rewrite !message_of_seq. specialize (Hseq k Hk). enough (seq ≠ k) by lia. by intros ->.
Qed.

(** The messages of a chat below a cursor. *)
Definition below (chat_id : string) (b : Z) (l : list StoredMessage) : list StoredMessage :=
  filter (λ m, of_chat chat_id m ∧ (sm_seq m < b)%Z) l.

(** What lies below a message is what precedes it. *)
Lemma below_cursor chat_id b l l1 m l2 :
  StronglySorted (λ m m', sm_seq m < sm_seq m')%Z l →
  below chat_id b l = l1 ++ m :: l2 → below chat_id (sm_seq m) l = l1.
Proof.
  intros Hl Hb. unfold below in *.
  pose proof (StronglySorted_filter _ (λ m, of_chat chat_id m ∧ (sm_seq m < b)%Z) _ Hl) as Hs.
  rewrite Hb in Hs. apply StronglySorted_app in Hs as (H12 & _ & [Hm _]%StronglySorted_cons).
  assert (Hall : ∀ m', m' ∈ l1 ++ m :: l2 → of_chat chat_id m' ∧ (sm_seq m' < b)%Z).
  { intros m'. rewrite <-Hb. by intros [? _]%list_elem_of_filter. }
  assert (Hmb : (sm_seq m < b)%Z) by (apply Hall; set_solver).
  transitivity (filter (λ m', of_chat chat_id m' ∧ (sm_seq m' < sm_seq m)%Z) (l1 ++ m :: l2)).
  { rewrite <-Hb, list_filter_filter. apply list_filter_iff. intros m'. intuition lia. }
  rewrite filter_app, filter_true.
  2:{ intros m' Hm'. split; [apply Hall; set_solver|]. apply H12; set_solver. }
  rewrite filter_none, app_nil_r; [done|].
  rewrite Forall_forall in Hm. intros m' [->|Hm']%elem_of_cons; [lia|]. specialize (Hm m' Hm'). lia.
Qed.

Lemma read_back_below fuel t chat_id before limit :
  table_ok t → (0 < Z.of_N limit ≤ i64_MAX)%Z →
  length (below chat_id (default i64_MAX before) (log_of t)) < fuel →
  read_back fuel t chat_id before limit = Ok (below chat_id (default i64_MAX before) (log_of t)).
Proof.
  intros Ht Hlim. revert before. induction fuel as [|fuel IH]; intros before Hf; [lia|].
  cbn [read_back]. rewrite messages_log by (done || lia). cbn [mbind result_bind].
  fold (below chat_id (default i64_MAX before) (log_of t)).
  set (l := below _ _ _) in *. set (n := N.to_nat limit). unfold last_n.
  assert (Hl : take (length l - n) l ++ drop (length l - n) l = l) by apply take_drop.
  pose proof (length_drop l (length l - n)) as Hlen.
  destruct (drop (length l - n) l) as [|m rest] eqn:Hd.
  { cbn in Hlen. destruct l; [done|]. cbn in *. lia. }
  case_decide as Hshort.
  - replace (length l - n) with 0 in * by lia. by rewrite <-Hl.
  - assert (Hb : below chat_id (sm_seq m) (log_of t) = take (length l - n) l).
    { eapply below_cursor; [apply log_sorted|]. fold l. rewrite Hl at 1. reflexivity. }
    rewrite IH; cbn [default from_option id]; rewrite Hb; cbn [mbind result_bind]; [by rewrite Hl|].
    rewrite length_take. lia.
Qed.

(** C27. Termination and completeness of paging: reading a chat backwards,
    page by page from the newest, ends within one page per message and one
    more, whatever the page size, and the pages together are every message of
    the chat in order, once each. *)
Theorem paging_complete t chat_id limit :
  table_ok t → (mt_sequence t < i64_MAX)%Z → (0 < Z.of_N limit ≤ i64_MAX)%Z →
  read_back (S (count t chat_id)) t chat_id None limit = Ok (filter (of_chat chat_id) (log_of t)).
Proof.
  intros Ht Hmax Hlim.
  assert (Hall : below chat_id i64_MAX (log_of t) = filter (of_chat chat_id) (log_of t)).
  { unfold below. apply filter_agree. intros m Hm.
    enough (sm_seq m < i64_MAX)%Z by tauto.
    destruct (proj1 (log_seq_mem t (sm_seq m))) as [r Hr]; [eauto|].
    destruct (proj2 Ht _ _ Hr) as [? _]. lia. }
  rewrite read_back_below by (done || cbn; rewrite Hall, count_log; lia).
  cbn. by rewrite Hall.
Qed.

(** Four messages in two chats, one deleted, read in pages of one. *)
Definition demo_message (chat_id content : string) : Message :=
  {| msg_chat_id := chat_id; msg_convo_id := "convo-1"; msg_direction := Received;
     msg_sender_account := Some "raya"%string; msg_sender_installation := None;
     msg_message_id := None; msg_timestamp_ms := 1758000000000;
     msg_content := list_byte_of_string content |}.

Definition demo_table : MessageTable :=
  (calls call [CallRecord (demo_message "saro-raya" "m1"); CallRecord (demo_message "saro-pax" "m2");
               CallRecord (demo_message "saro-raya" "m3"); CallDelete 1;
               CallRecord (demo_message "saro-raya" "m4")] empty_table).1.

Lemma paging_complete_witness :
  read_back 3 demo_table "saro-raya" None 1 =
  Ok (filter (of_chat "saro-raya") (log_of demo_table)) ∧
  (sm_seq <$> filter (of_chat "saro-raya") (log_of demo_table)) = [3; 4]%Z.
Proof.
  split; [|vm_compute; reflexivity].
  refine (paging_complete demo_table "saro-raya" 1 _ _ _).
  - unfold demo_table. cbn [calls]. split; [vm_compute; split; discriminate|].
    apply map_Forall_to_list. vm_compute. repeat constructor; discriminate.
  - vm_compute. reflexivity.
  - vm_compute. split; [reflexivity|discriminate].
Defined.
