(* ===== verification/Wakeup.v ===== *)
(** * Wake-up timers ([extensions/components/src/wakeup.rs])

    A service thread owned by its client: registrations go under a mutex into
    a heap of deadlines, a background thread sleeps on a condition variable
    until the nearest one and sends it on a channel. The two threads and the
    clock are interleaved steps on a shared state. *)

From Stdlib Require Import Strings.String.
From stdpp Require Import base gmap strings numbers relations sorting list.
From S2P Require Import Prelude.

(** Instants are nanoseconds of the monotonic clock; the last one that can be
    told has as many seconds as an [i64] holds. *)
Definition INSTANT_MAX : Z := (2 ^ 63 * 10 ^ 9 - 1)%Z.
Record WakeupRecord := { expiry : Z; rec_convo_id : string }.
#[export] Instance WakeupRecord_eq_dec : EqDecision WakeupRecord.
Proof. solve_decision. Defined.

(** [Ord for WakeupRecord]: by deadline alone. *)
Definition record_cmp (a b : WakeupRecord) : comparison := (expiry a ?= expiry b)%Z.

(** [BinaryHeap<Reverse<WakeupRecord>>]: a bag of records. [peek] and [pop]
    give a greatest element of the reversed order, the standard library does
    not say which of several. *)
Definition heap_top (pending : list WakeupRecord) (r : WakeupRecord) (rest : list WakeupRecord)
  : Prop :=
  pending ≡ₚ r :: rest ∧ Forall (λ r', record_cmp r r' ≠ Gt) rest.

(** ** Where each thread is *)

(** [run]. [Locked]: the guard taken, [running] not yet read. [Holding]: it
    was read as true, the guard still held. [Arming]: the nearest deadline is
    ahead of the instant read. [Waiting]: inside the condition variable, the
    guard released, until an instant or for ever, and whether notified. *)
Inductive WorkerPc : Type :=
  | AtLoop
  | Locked
  | Holding
  | Arming (next : WakeupRecord) (now : Z)
  | Waiting (until : option Z) (notified : bool)
  | Sending (record : WakeupRecord)
  | Returned.

(** The owner: [wakeup_in] under the guard, then [Drop]. [Panicked]: the
    deadline was past the last instant, the addition panicked with the guard
    held, and the mutex is poisoned from then on. *)
Inductive OwnerPc : Type :=
  | Idle
  | Registering (duration : N) (convo_id : string)
  | Panicked
  | Pushed
  | Notified
  | DropStored
  | DropJoining
  | Dropped.

(** [Shared], the channel and the two threads; [slack], [registered] and
    [fired] only record what happened. *)
Record Timers := {
  pending : list WakeupRecord;
  running : bool;
  clock : Z;
  worker : WorkerPc;
  owner : OwnerPc;
  receiver_alive : bool;
  sent : list WakeupRecord;
  slack : Z;
  registered : list WakeupRecord;
  fired : list (WakeupRecord * Z);
}.

(** [ThreadedWakeupService::new] at an instant. *)
Definition timers_new (now : Z) : Timers :=
  {| pending := []; running := true; clock := now; worker := AtLoop; owner := Idle;
     receiver_alive := true; sent := []; slack := 0; registered := []; fired := [] |}.

Definition worker_holds (pc : WorkerPc) : bool :=
  match pc with Locked | Holding | Arming _ _ => true | _ => false end.
Definition owner_holds (pc : OwnerPc) : bool :=
  match pc with Registering _ _ | Pushed | Notified => true | _ => false end.

Definition set_worker (pc : WorkerPc) (s : Timers) : Timers :=
  {| pending := pending s; running := running s; clock := clock s; worker := pc; owner := owner s;
     receiver_alive := receiver_alive s; sent := sent s; slack := slack s;
     registered := registered s; fired := fired s |}.
Definition set_owner (pc : OwnerPc) (s : Timers) : Timers :=
  {| pending := pending s; running := running s; clock := clock s; worker := worker s; owner := pc;
     receiver_alive := receiver_alive s; sent := sent s; slack := slack s;
     registered := registered s; fired := fired s |}.

(** [Condvar::notify_one]: wakes the waiter there is, and is lost otherwise. *)
Definition notify_one (pc : WorkerPc) : WorkerPc :=
  match pc with Waiting until _ => Waiting until true | pc => pc end.

(** The push of [wakeup_in]. *)
Definition push_record (duration : N) (convo_id : string) (s : Timers) : Timers :=
  let r := {| expiry := clock s + Z.of_N duration; rec_convo_id := convo_id |} in
  {| pending := r :: pending s; running := running s; clock := clock s; worker := worker s;
     owner := Pushed; receiver_alive := receiver_alive s; sent := sent s; slack := slack s;
     registered := registered s ++ [r]; fired := fired s |}.

(** Waiting begins: the guard is released and the timeout runs from now. *)
Definition arm (next : WakeupRecord) (now : Z) (s : Timers) : Timers :=
  {| pending := pending s; running := running s; clock := clock s;
     worker := Waiting (Some (clock s + (expiry next - now))%Z) false; owner := owner s;
     receiver_alive := receiver_alive s; sent := sent s; slack := clock s - now;
     registered := registered s; fired := fired s |}.

(** The pop, the guard dropped. *)
Definition pop_record (r : WakeupRecord) (rest : list WakeupRecord) (s : Timers) : Timers :=
  {| pending := rest; running := running s; clock := clock s; worker := Sending r; owner := owner s;
     receiver_alive := receiver_alive s; sent := sent s; slack := slack s;
     registered := registered s; fired := fired s ++ [(r, clock s)] |}.

Definition send_event (r : WakeupRecord) (s : Timers) : Timers :=
  {| pending := pending s; running := running s; clock := clock s; worker := AtLoop;
     owner := owner s; receiver_alive := receiver_alive s; sent := sent s ++ [r]; slack := slack s;
     registered := registered s; fired := fired s |}.

Definition stop (s : Timers) : Timers :=
  {| pending := pending s; running := false; clock := clock s; worker := worker s;
     owner := DropStored; receiver_alive := receiver_alive s; sent := sent s; slack := slack s;
     registered := registered s; fired := fired s |}.

Definition set_clock (t : Z) (s : Timers) : Timers :=
  {| pending := pending s; running := running s; clock := t; worker := worker s; owner := owner s;
     receiver_alive := receiver_alive s; sent := sent s; slack := slack s;
     registered := registered s; fired := fired s |}.
Definition drop_receiver (s : Timers) : Timers :=
  {| pending := pending s; running := running s; clock := clock s; worker := worker s;
     owner := owner s; receiver_alive := false; sent := sent s; slack := slack s;
     registered := registered s; fired := fired s |}.

(** ** Steps *)

(** The background thread, [run]. Leaving the condition variable takes the
    guard again and drops it. Taking a poisoned guard panics, which ends it. *)
Inductive worker_step (s : Timers) : Timers → Prop :=
  | step_lock :
      worker s = AtLoop → owner_holds (owner s) = false → owner s ≠ Panicked →
      worker_step s (set_worker Locked s)
  | step_running :
      worker s = Locked → running s = true → worker_step s (set_worker Holding s)
  | step_stopped :
      worker s = Locked → running s = false → worker_step s (set_worker Returned s)
  | step_nothing :
      worker s = Holding → pending s = [] → worker_step s (set_worker (Waiting None false) s)
  | step_ahead r rest :
      worker s = Holding → heap_top (pending s) r rest → (clock s < expiry r)%Z →
      worker_step s (set_worker (Arming r (clock s)) s)
  | step_arm r now :
      worker s = Arming r now → worker_step s (arm r now s)
  | step_pop r rest :
      worker s = Holding → heap_top (pending s) r rest → (expiry r ≤ clock s)%Z →
      worker_step s (pop_record r rest s)
  | step_send r :
      worker s = Sending r → receiver_alive s = true → worker_step s (send_event r s)
  | step_send_failed r :
      worker s = Sending r → receiver_alive s = false → worker_step s (set_worker Returned s)
  | step_woken until :
      worker s = Waiting until true → owner_holds (owner s) = false →
      worker_step s (set_worker AtLoop s)
  | step_timeout until n :
      worker s = Waiting (Some until) n → (until ≤ clock s)%Z → owner_holds (owner s) = false →
      worker_step s (set_worker AtLoop s)
  | step_poisoned :
      worker s = AtLoop → owner s = Panicked → worker_step s (set_worker Returned s).

(** The owner: [wakeup_in] and [drop]. *)
Inductive owner_step (s : Timers) : Timers → Prop :=
  | step_register duration convo_id :
      owner s = Idle → worker_holds (worker s) = false →
      owner_step s (set_owner (Registering duration convo_id) s)
  | step_push duration convo_id :
      owner s = Registering duration convo_id → (clock s + Z.of_N duration ≤ INSTANT_MAX)%Z →
      owner_step s (push_record duration convo_id s)
  | step_overflow duration convo_id :
      owner s = Registering duration convo_id → (INSTANT_MAX < clock s + Z.of_N duration)%Z →
      owner_step s (set_owner Panicked s)
  | step_notify :
      owner s = Pushed → owner_step s (set_owner Notified (set_worker (notify_one (worker s)) s))
  | step_release :
      owner s = Notified → owner_step s (set_owner Idle s)
  | step_drop_store :
      owner s = Idle → owner_step s (stop s)
  | step_drop_notify :
      owner s = DropStored →
      owner_step s (set_owner DropJoining (set_worker (notify_one (worker s)) s))
  | step_drop_join :
      owner s = DropJoining → worker s = Returned → owner_step s (set_owner Dropped s).

(** The rest: time passes, the receiver goes away. *)
Inductive world_step (s : Timers) : Timers → Prop :=
  | step_tick t : (clock s < t)%Z → world_step s (set_clock t s)
  | step_receiver_gone : world_step s (drop_receiver s).

(** The condition variable may wake for no reason. *)
Inductive spurious_step (s : Timers) : Timers → Prop :=
  | step_spurious until n :
      worker s = Waiting until n → owner_holds (owner s) = false →
      spurious_step s (set_worker AtLoop s).

Definition program_step (s s' : Timers) : Prop :=
  worker_step s s' ∨ owner_step s s' ∨ world_step s s'.
Definition timers_step (s s' : Timers) : Prop := program_step s s' ∨ spurious_step s s'.

Definition reachable (s : Timers) : Prop := ∃ now, rtc timers_step (timers_new now) s.

(** ** The invariant *)

Record timers_ok (s : Timers) : Prop := {
  ok_exclusion : ¬ (worker_holds (worker s) = true ∧ owner_holds (owner s) = true);
  ok_arming : ∀ r now, worker s = Arming r now →
    (now ≤ clock s)%Z ∧ Forall (λ r', expiry r ≤ expiry r')%Z (pending s);
  ok_forever : worker s = Waiting None false → owner s ≠ Pushed → pending s = [];
  ok_until : ∀ d, worker s = Waiting (Some d) false → owner s ≠ Pushed →
    Forall (λ r, d ≤ expiry r + slack s)%Z (pending s);
  ok_conserved : registered s ≡ₚ pending s ++ (fired s).*1;
  ok_fired : Forall (λ rt, expiry rt.1 ≤ rt.2 ≤ clock s)%Z (fired s);
  ok_sent : match worker s with
            | Sending r => (fired s).*1 = sent s ++ [r]
            | Returned => ∃ l, (fired s).*1 = sent s ++ l ∧ length l ≤ 1
            | _ => (fired s).*1 = sent s
            end;
  ok_running : running s = match owner s with DropStored | DropJoining | Dropped => false | _ => true end;
  ok_returned : worker s = Returned → running s = false ∨ receiver_alive s = false ∨ owner s = Panicked;
  ok_slack : (0 ≤ slack s)%Z;
}.

Ltac easy_ok :=
  try first [done | by intros [? ?]; congruence | by intros; congruence | by intros; auto].

Lemma heap_top_least p r rest :
  heap_top p r rest → Forall (λ r', expiry r ≤ expiry r')%Z p.
Proof.
  intros [Hp Hr]. rewrite Hp. constructor; [lia|]. eapply Forall_impl; [exact Hr|]. intros r'.
  unfold record_cmp. cbn. destruct (Z.compare_spec (expiry r) (expiry r')); lia || done.
Qed.

Lemma timers_new_ok now : timers_ok (timers_new now).
Proof. split; cbn; easy_ok; try (by intros [??]); constructor. Qed.

Lemma worker_step_ok s s' : timers_ok s → worker_step s s' → timers_ok s'.
Proof.
  intros [Hx Ha Hf Hu Hc Hfi Hs Hr Hret Hsl]. destruct 1 as
    [Hw Ho Hpn|Hw Hrun|Hw Hrun|Hw Hp|r rest Hw Hp Hlt|r now Hw|r rest Hw Hp Hle|r Hw Hal|r Hw Hal
    |until Hw Ho|until n Hw Hd Ho|Hw Hpn]; rewrite Hw in *; split; cbn in *; easy_ok.
  - exists []. rewrite Hs, app_nil_r. cbn. auto with lia.
  - intros r' now [= <- <-]. split; [lia|]. by eapply heap_top_least.
  - intros d [= <-] _. destruct (Ha r now eq_refl) as [_ Hall]. eapply Forall_impl; [exact Hall|].
    cbn. lia.
  - destruct (Ha r now eq_refl). lia.
  - rewrite fmap_app. cbn. rewrite Hc, (proj1 Hp). solve_Permutation.
  - rewrite Forall_app. split; [done|]. repeat constructor; cbn; lia.
  - rewrite fmap_app. cbn. by rewrite Hs.
  - exists [r]. by rewrite Hs.
  - exists []. rewrite Hs, app_nil_r. cbn. auto with lia.
Qed.

Lemma owner_step_ok s s' : timers_ok s → owner_step s s' → timers_ok s'.
Proof.
  intros [Hx Ha Hf Hu Hc Hfi Hs Hr Hret Hsl]. destruct 1 as
    [d c Ho Hw|d c Ho Hmax|d c Ho Hmax|Ho|Ho|Ho|Ho|Ho Hw]; rewrite Ho in *; split; cbn in *; easy_ok;
    try (by intros; first [apply Hf|apply Hu]);
    try (by destruct (worker s); easy_ok; intros; apply Ha);
    try (by intros; destruct Hret as [?|[?|?]]; auto; destruct (worker s)).
  - intros r now Hw. rewrite Hw in Hx. exfalso. by apply Hx.
  - rewrite Hc. solve_Permutation.
Qed.

Lemma world_step_ok s s' : timers_ok s → world_step s s' → timers_ok s'.
Proof.
  intros [Hx Ha Hf Hu Hc Hfi Hs Hr Hret Hsl]. destruct 1 as [t Ht|]; split; cbn in *; easy_ok.
  - intros r now Hw. destruct (Ha r now Hw). split; [lia|done].
  - eapply Forall_impl; [exact Hfi|]. cbn. lia.
Qed.

Lemma spurious_step_ok s s' : timers_ok s → spurious_step s s' → timers_ok s'.
Proof.
  intros [Hx Ha Hf Hu Hc Hfi Hs Hr Hret Hsl]. destruct 1 as [until n Hw Ho].
  rewrite Hw in *. split; cbn in *; easy_ok.
Qed.

Lemma timers_step_ok s s' : timers_ok s → timers_step s s' → timers_ok s'.
Proof.
  intros Hs [[H|[H|H]]|H]; eauto using worker_step_ok, owner_step_ok, world_step_ok, spurious_step_ok.
Qed.

Lemma reachable_ok s : reachable s → timers_ok s.
Proof.
  intros [now H]. pose proof (timers_new_ok now) as Hok.
  induction H as [|s1 s2 s3 Hstep _ IH]; [done|]. apply IH. by eapply timers_step_ok.
Qed.

(** ** What the timers promise *)

(** C28. Safety over every interleaving of the owner, the background thread,
    the clock and spurious wake-ups: a registered timer is either still pending
    or has fired, once; none fires before its deadline; what was sent is what
    fired, in order, but for the one in hand when the channel's receiver is
    gone or being served; and the thread asleep without a notification on its
    way sleeps past no pending deadline by more than the time it took to start
    sleeping. *)
Theorem timers_exact s :
  reachable s →
  registered s ≡ₚ pending s ++ (fired s).*1 ∧
  Forall (λ rt, expiry rt.1 ≤ rt.2 ≤ clock s)%Z (fired s) ∧
  (∃ l, (fired s).*1 = sent s ++ l ∧ length l ≤ 1) ∧
  (∀ until, worker s = Waiting until false → owner s ≠ Pushed →
     match until with
     | None => pending s = []
     | Some d => Forall (λ r, d ≤ expiry r + slack s)%Z (pending s)
     end).
Proof.
  intros Hs%reachable_ok. split; [apply Hs|]. split; [apply Hs|]. split.
  - pose proof (ok_sent s Hs) as H.
    destruct (worker s); try (exists []; rewrite H, app_nil_r; by cbn; auto with lia); [|done].
    eexists. split; [exact H|cbn; lia].
  - intros [d|] Hw Ho; [by apply Hs|by apply Hs].
Qed.

(** *** Order *)

(** Between two registrations, timers fire nearest deadline first. *)
Lemma fires_in_order s s' :
  rtc timers_step s s' → registered s' = registered s →
  ∃ l, fired s' = fired s ++ l ∧ pending s ≡ₚ l.*1 ++ pending s' ∧
       StronglySorted (λ r r', expiry r ≤ expiry r')%Z (l.*1) ∧
       Forall (λ r, Forall (λ r', expiry r ≤ expiry r')%Z (pending s')) (l.*1).
Proof.
  intros H. induction H as [s|s s1 s' Hstep Hrest IH].
  { exists []. rewrite app_nil_r. split; [done|]. split; [done|]. split; constructor. }
  assert (Hmono : ∀ a b, rtc timers_step a b → registered a `prefix_of` registered b).
  { clear. intros a b H. induction H as [|a a1 b Hs _ IH]; [done|]. etransitivity; [|exact IH].
    destruct Hs as [[Hs|[Hs|Hs]]|Hs]; destruct Hs; cbn; try done. by apply prefix_app_r. }
  intros Heq. pose proof (Hmono _ _ Hrest) as Hp. rewrite Heq in Hp.
  assert (Hsame : registered s1 = registered s ∧
    ((fired s1 = fired s ∧ pending s1 = pending s) ∨
     ∃ r rest, heap_top (pending s) r rest ∧ pending s1 = rest ∧ fired s1 = fired s ++ [(r, clock s)])).
  { destruct Hstep as [[Hstep|[Hstep|Hstep]]|Hstep]; destruct Hstep; cbn in *; eauto 8; try done.
    apply prefix_length in Hp. rewrite length_app in Hp. cbn in Hp. lia. }
  destruct Hsame as [Hreg Hcase]. destruct (IH ltac:(congruence)) as (l & Hf & Hpend & Hl & Hall).
  destruct Hcase as [[Hf1 Hp1]|(r & rest & Htop & <- & Hfr)].
  { exists l. by rewrite Hf, Hf1, <-Hp1. }
  pose proof (heap_top_least _ _ _ Htop) as Hleast. destruct Htop as [Hperm _].
  rewrite Hperm, Hpend in Hleast. apply Forall_cons in Hleast as [_ [Hl1 Hl2]%Forall_app].
  exists ((r, clock s) :: l). cbn. rewrite Hf, Hfr, <-app_assoc. split; [done|]. split.
  - by rewrite Hperm, Hpend.
  - split; constructor; done.
Qed.

(** *** Liveness *)

Lemma heap_top_exists p : p ≠ [] → ∃ r rest, heap_top p r rest.
Proof.
  induction p as [|a p IH]; [done|]. intros _. destruct p as [|b p].
  { exists a, []. by split. }
  destruct (IH ltac:(done)) as (r & rest & Htop). pose proof (heap_top_least _ _ _ Htop) as Hl.
  destruct Htop as [Hp Hr]. destruct (decide (expiry a ≤ expiry r)%Z) as [Hle|Hgt].
  - exists a, (b :: p). split; [done|]. eapply Forall_impl; [exact Hl|]. cbn. unfold record_cmp.
    intros x. destruct (Z.compare_spec (expiry a) (expiry x)); lia || done.
  - exists r, (a :: rest). split; [rewrite Hp; solve_Permutation|]. constructor; [|done].
    unfold record_cmp. destruct (Z.compare_spec (expiry r) (expiry a)); lia || done.
Qed.

(** A timer on its way out, nobody interfering. *)
Definition firing (r : WakeupRecord) (s : Timers) : Prop :=
  timers_ok s ∧ owner s = Idle ∧ receiver_alive s = true ∧
  (worker s = Sending r ∨
   (r ∈ pending s ∧ (expiry r + slack s ≤ clock s)%Z ∧ ∀ next now, worker s ≠ Arming next now)).

(** How many steps the thread may still take. *)
Definition steps_left (s : Timers) : nat :=
  match worker s with
  | AtLoop => 4 * length (pending s)
  | Locked => 4 * length (pending s) - 1
  | Holding => 4 * length (pending s) - 2
  | Sending _ => 4 * length (pending s) + 1
  | _ => 4 * length (pending s) + 1
  end.

Lemma firing_sent r s s' :
  worker s = Sending r → receiver_alive s = true → worker_step s s' → r ∈ sent s'.
Proof.
  intros Hw Ha. destruct 1 as [| | | | | | |x Hx _| | | |]; try congruence. cbn.
  rewrite Hw in Hx. injection Hx as <-. apply elem_of_app. right. by left.
Qed.

Lemma firing_progress r s : firing r s → ∃ s', worker_step s s'.
Proof.
  intros (Hok & Ho & Hal & [Hw|(Hin & Hdue & Harm)]); [by eauto using step_send|].
  assert (Hrun : running s = true) by (rewrite (ok_running s Hok); by rewrite Ho).
  assert (Hhold : owner_holds (owner s) = false) by by rewrite Ho.
  assert (Hpn : owner s ≠ Panicked) by by rewrite Ho.
  destruct (worker s) as [| | |next now|[d|] []|x|] eqn:Hw.
  - eauto using step_lock.
  - eauto using step_running.
  - destruct (heap_top_exists (pending s)) as (x & rest & Htop); [by intros Hp; rewrite Hp in Hin; inv Hin|].
    destruct (decide (expiry x ≤ clock s)%Z); [by eauto using step_pop|].
    eapply ex_intro, step_ahead; eauto. lia.
  - by destruct (Harm next now).
  - eauto using step_woken.
  - pose proof (ok_until s Hok d Hw ltac:(by rewrite Ho)) as Hall. rewrite Forall_forall in Hall.
    specialize (Hall r Hin). eapply ex_intro, step_timeout; eauto. lia.
  - eauto using step_woken.
  - rewrite (ok_forever s Hok Hw ltac:(by rewrite Ho)) in Hin. inv Hin.
  - eauto using step_send.
  - destruct (ok_returned s Hok Hw) as [?|[?|?]]; congruence.
Qed.

Lemma firing_step r s s' :
  firing r s → worker_step s s' → r ∈ sent s' ∨ (firing r s' ∧ steps_left s' < steps_left s).
Proof.
  intros (Hok & Ho & Hal & [Hw|(Hin & Hdue & Harm)]) Hstep; [left; by eapply firing_sent|].
  pose proof (worker_step_ok _ _ Hok Hstep) as Hok'. right.
  assert (Hlen : 0 < length (pending s)).
  { destruct (pending s); [inv Hin|cbn; lia]. }
  pose proof (ok_slack s Hok) as Hsl.
  assert (Htop : ∀ x rest, heap_top (pending s) x rest → (expiry x ≤ expiry r)%Z).
  { intros x rest H%heap_top_least. rewrite Forall_forall in H. auto. }
  destruct Hstep as
    [Hw Hh Hpn|Hw Hrun|Hw Hrun|Hw Hp|x rest Hw Hp Hlt|x now Hw|x rest Hw Hp Hle|x Hw Hal'|x Hw Hal'
    |until Hw Hh|until n Hw Hd Hh|Hw Hpn]; unfold steps_left; cbn; rewrite ?Hw.
  all: try (split; [|lia]; split; [done|]; split; [done|]; split; [done|]; right; by split).
  - rewrite (ok_running s Hok), Ho in Hrun. done.
  - rewrite Hp in Hin. inv Hin.
  - specialize (Htop x rest Hp). lia.
  - by destruct (Harm x now).
  - pose proof (Permutation_length (proj1 Hp)) as Hl. cbn in Hl. split; [|lia].
    split; [done|]. split; [done|]. split; [done|].
    rewrite (proj1 Hp) in Hin. apply elem_of_cons in Hin as [->|Hin]; [by left|right; by split].
  - congruence.
  - congruence.
Qed.

Lemma sent_grows s s' r : worker_step s s' → r ∈ sent s → r ∈ sent s'.
Proof. destruct 1; cbn; try done. rewrite elem_of_app. auto. Qed.

(** C29. Liveness: a pending timer that is due, counting the time the thread
    took to fall asleep, is sent by the background thread alone: along every
    run of its steps it has been sent, or fewer than four steps per pending
    timer and two more were taken and another step is possible. *)
Theorem due_timers_fire s r :
  reachable s → owner s = Idle → receiver_alive s = true →
  (∀ next now, worker s ≠ Arming next now) →
  r ∈ pending s → (expiry r + slack s ≤ clock s)%Z →
  ∀ n s', nsteps worker_step n s s' →
    r ∈ sent s' ∨ (n < 4 * length (pending s) + 2 ∧ ∃ s'', worker_step s' s'').
Proof.
  intros Hr%reachable_ok Ho Hal Harm Hin Hdue n s' Hn.
  assert (Hf : firing r s) by (split; [done|]; split; [done|]; split; [done|]; right; done).
  assert (Hm : steps_left s < 4 * length (pending s) + 2) by (unfold steps_left; destruct (worker s); lia).
  enough (r ∈ sent s' ∨ (n + steps_left s' ≤ steps_left s ∧ firing r s')) as [?|[? ?%firing_progress]];
    [by left|right; split; [lia|done]|].
  clear Hr Ho Hal Harm Hin Hdue Hm. induction Hn as [s|n s s1 s' Hstep Hrest IH]; [right; split; [lia|done]|].
  destruct (firing_step r s s1 Hf Hstep) as [Hsent|[Hf1 Hlt]].
  - left. clear -Hrest Hsent. induction Hrest; eauto using sent_grows.
  - destruct (IH Hf1) as [?|[? ?]]; [by left|right; split; [lia|done]].
Qed.

(** ** Shutting down *)

(** Told to stop, the thread is past every wait. *)
Definition stopping (s : Timers) : Prop :=
  timers_ok s ∧ owner s = DropJoining ∧
  match worker s with
  | Holding | Arming _ _ | Waiting None false => False
  | Waiting (Some d) false => (d ≤ clock s)%Z
  | _ => True
  end.

Definition steps_to_stop (pc : WorkerPc) : nat :=
  match pc with Returned => 0 | Locked => 1 | AtLoop => 2 | _ => 3 end.

Lemma stopping_progress s : stopping s → worker s = Returned ∨ ∃ s', worker_step s s'.
Proof.
  intros (Hok & Ho & Hw). assert (Hrun : running s = false) by (rewrite (ok_running s Hok); by rewrite Ho).
  assert (Hh : owner_holds (owner s) = false) by by rewrite Ho.
  assert (Hpn : owner s ≠ Panicked) by by rewrite Ho.
  destruct (worker s) as [| | |next now|[d|] []|x|] eqn:Hpc; try done; [right..|by left];
    eauto using step_lock, step_stopped, step_woken, step_timeout.
  destruct (receiver_alive s) eqn:Hal; eauto using step_send, step_send_failed.
Qed.

Lemma stopping_step s s' :
  stopping s → worker_step s s' →
  stopping s' ∧ steps_to_stop (worker s') < steps_to_stop (worker s).
Proof.
  intros (Hok & Ho & Hw) Hstep. pose proof (worker_step_ok _ _ Hok Hstep) as Hok'.
  assert (Hrun : running s = false) by (rewrite (ok_running s Hok); by rewrite Ho).
  destruct Hstep as
    [Hpc Hh ?|Hpc ?|Hpc ?|Hpc Hp|x rest Hpc Hp Hlt|x now Hpc|x rest Hpc Hp Hle|x Hpc Hal'|x Hpc Hal'
    |until Hpc Hh|until n Hpc Hd Hh|Hpc ?]; rewrite Hpc in *; try done; try congruence;
    (split; [split; [done|by split]|cbn; lia]).
Qed.

(** Termination of shutting down: once [drop] has notified and the
    thread is not caught between reading [running] and its wait, every run of
    the thread's steps ends it within three, and none is stuck before. *)
Theorem drop_stops_thread s :
  reachable s → owner s = DropJoining →
  match worker s with
  | Holding | Arming _ _ | Waiting None false => False
  | Waiting (Some d) false => (d ≤ clock s)%Z
  | _ => True
  end →
  ∀ n s', nsteps worker_step n s s' →
    worker s' = Returned ∨ (n < 3 ∧ ∃ s'', worker_step s' s'').
Proof.
  intros Hr%reachable_ok Ho Hw n s' Hn. assert (Hst : stopping s) by by split.
  assert (Hle : steps_to_stop (worker s) ≤ 3) by (destruct (worker s); cbn; lia).
  clear Hr Ho Hw. enough (stopping s' ∧ n + steps_to_stop (worker s') ≤ 3) as [Hst' Hn'].
  { destruct (stopping_progress s' Hst') as [?|?]; [by left|].
    destruct (worker s') eqn:Hpc; cbn in Hn'; [right..|by left]; split; done || lia. }
  revert Hle. generalize 3 as k. induction Hn as [s|n s s1 s' Hstep _ IH]; intros k Hk; [done|].
  destruct (stopping_step s s1 Hst Hstep) as [Hst1 Hlt].
  destruct (IH Hst1 (k - 1)) as [? ?]; [lia|]. split; [done|lia].
Qed.

(** The thread is waiting for ever and nothing will notify it. *)
Definition hung (s : Timers) : Prop := owner s = DropJoining ∧ worker s = Waiting None false.

Lemma hung_step s s' : hung s → program_step s s' → hung s'.
Proof.
  intros [Ho Hw] [H|[H|H]]; destruct H; try congruence; by split.
Qed.

(** [drop] overtaking the thread: [running] is stored and the notification
    sent after the thread read [running] and before it waits. *)
Definition overtaken : Timers :=
  set_worker (Waiting None false)
    (set_owner DropJoining (stop (set_worker Holding (set_worker Locked (timers_new 0))))).

Lemma overtaken_reachable : reachable overtaken.
Proof.
  exists 0%Z.
  eapply rtc_l; [left; left; by apply step_lock|].
  eapply rtc_l; [left; left; by apply step_running|].
  eapply rtc_l; [left; right; left; by apply step_drop_store|].
  eapply rtc_l; [left; right; left; by apply step_drop_notify|].
  eapply rtc_l; [left; left; by apply step_nothing|]. apply rtc_refl.
Qed.

(** The shutdown race: [drop] stores [running] and notifies without the
    mutex, so an interleaving is reachable where the notification falls between
    the thread's read and its wait; from there, unless the condition variable
    wakes spuriously, the thread waits for ever and [drop] never returns. *)
Theorem drop_can_hang :
  reachable overtaken ∧ hung overtaken ∧
  ∀ s, rtc program_step overtaken s → hung s.
Proof.
  split; [apply overtaken_reachable|]. split; [by split|]. intros s H.
  assert (Hh : hung overtaken) by by split. induction H; eauto using hung_step.
Qed.

(** ** A timer of two nanoseconds, three later *)

Definition demo_timer : WakeupRecord := {| expiry := 2; rec_convo_id := "convo" |}.
Definition demo_timers : Timers :=
  set_clock 3 (set_owner Idle (set_owner Notified
    (set_worker AtLoop (push_record 2 "convo" (set_owner (Registering 2 "convo") (timers_new 0)))))).

Lemma demo_timers_reachable : reachable demo_timers.
Proof.
  exists 0%Z.
  eapply rtc_l; [left; right; left; by apply (step_register _ 2 "convo")|].
  eapply rtc_l; [left; right; left; by apply step_push|].
  eapply rtc_l; [left; right; left; by apply step_notify|].
  eapply rtc_l; [left; right; left; by apply step_release|].
  eapply rtc_l; [left; right; right; by apply (step_tick _ 3)|]. apply rtc_refl.
Qed.

Lemma timers_exact_witness : registered demo_timers ≡ₚ [demo_timer] ++ [].
Proof. exact (proj1 (timers_exact demo_timers demo_timers_reachable)). Defined.

(** Six steps of the thread: the timer is popped and sent, and the next turn
    begins. *)
Definition demo_fired : Timers :=
  set_worker Holding (set_worker Locked (send_event demo_timer
    (pop_record demo_timer [] (set_worker Holding (set_worker Locked demo_timers))))).

Lemma demo_fired_run : nsteps worker_step 6 demo_timers demo_fired.
Proof.
  eapply nsteps_l; [by apply step_lock|]. eapply nsteps_l; [by apply step_running|].
  eapply nsteps_l; [apply (step_pop _ demo_timer []); [done|by split|vm_compute; discriminate]|].
  eapply nsteps_l; [by apply step_send|]. eapply nsteps_l; [by apply step_lock|].
  eapply nsteps_l; [by apply step_running|]. apply nsteps_O.
Qed.

Lemma due_timers_fire_witness : demo_timer ∈ sent demo_fired.
Proof.
  destruct (due_timers_fire demo_timers demo_timer demo_timers_reachable eq_refl eq_refl
              ltac:(done) ltac:(by left) ltac:(vm_compute; discriminate) 6 demo_fired demo_fired_run)
    as [H|[H _]]; [exact H|]. exfalso. cbn in H. lia.
Defined.

(** The owner dropping that service with the thread at its loop. *)
Definition demo_dropped : Timers := set_owner DropJoining (set_worker AtLoop (stop demo_timers)).

Lemma demo_dropped_reachable : reachable demo_dropped.
Proof.
  destruct demo_timers_reachable as [now H]. exists now. etransitivity; [exact H|].
  eapply rtc_l; [left; right; left; by apply step_drop_store|].
  eapply rtc_l; [left; right; left; by apply step_drop_notify|]. apply rtc_refl.
Qed.

Lemma drop_stops_thread_witness :
  let s := set_worker Returned (set_worker Locked demo_dropped) in
  worker s = Returned ∨ (2 < 3 ∧ ∃ s'', worker_step s s'').
Proof.
  apply (drop_stops_thread demo_dropped demo_dropped_reachable eq_refl I).
  eapply nsteps_l; [by apply step_lock|]. eapply nsteps_l; [by apply step_stopped|]. apply nsteps_O.
Defined.
