(* ===== verification/Sql.v ===== *)
(** * SQL tables and schema migrations ([extensions/sqlite/src/migrations.rs],
      [extensions/message-store/src/migrations.rs])

    The statements the two crates use, with the meaning SQL gives them, and
    the two migration runners: the one of the SQLite store, which checks
    before it takes the write lock, and the one of the message store, which
    checks under it. Connections to one database are interleaved steps. *)

From Stdlib Require Import Strings.Byte Strings.String.
From stdpp Require Import base gmap strings numbers list.
From S2P Require Import Prelude.

(** ** Tables *)

Inductive Value : Type := VNull | VInt (z : Z) | VText (s : string) | VBlob (b : list byte).
#[export] Instance Value_eq_dec : EqDecision Value.
Proof. solve_decision. Defined.

Abbreviation SqlRow := (gmap string Value).

Record Table := { tb_columns : list string; tb_key : list string; tb_rows : list SqlRow }.
#[export] Instance Table_eq_dec : EqDecision Table.
Proof. solve_decision. Defined.

(** Tables, and which table each index is on. *)
Record Database := { db_tables : gmap string Table; db_indexes : gmap string string }.
#[export] Instance Database_eq_dec : EqDecision Database.
Proof. solve_decision. Defined.

Definition new_database : Database := {| db_tables := ∅; db_indexes := ∅ |}.

(** The errors of [rusqlite] the code tells apart. *)
Inductive ErrorCode : Type := ConstraintViolation | NotADatabase | OtherCode.
Inductive RusqliteError : Type :=
  | QueryReturnedNoRows
  | InvalidColumnType (column : string)
  | SqliteFailure (code : ErrorCode) (message : string).

Definition sql_error (message : string) : RusqliteError := SqliteFailure OtherCode message.

Definition set_table (name : string) (t : Table) (db : Database) : Database :=
  {| db_tables := <[name := t]> (db_tables db); db_indexes := db_indexes db |}.

(** ** Statements *)

Inductive Statement : Type :=
  | CreateTable (if_not_exists : bool) (name : string) (columns key : list string)
  | CreateIndex (if_not_exists : bool) (index table : string)
  | DropTableIfExists (name : string)
  | DropColumn (table column : string).

Definition exec (st : Statement) (db : Database) : result RusqliteError Database :=
  match st with
  | CreateTable if_not_exists name columns key =>
      match db_tables db !! name with
      | Some _ => if if_not_exists then Ok db else Err (sql_error "table already exists")
      | None => Ok (set_table name {| tb_columns := columns; tb_key := key; tb_rows := [] |} db)
      end
  | CreateIndex if_not_exists index table =>
      match db_indexes db !! index with
      | Some _ => if if_not_exists then Ok db else Err (sql_error "index already exists")
      | None =>
          match db_tables db !! table with
          | None => Err (sql_error "no such table")
          | Some _ => Ok {| db_tables := db_tables db; db_indexes := <[index := table]> (db_indexes db) |}
          end
      end
  | DropTableIfExists name =>
      Ok {| db_tables := delete name (db_tables db);
            db_indexes := filter (λ kv, kv.2 ≠ name) (db_indexes db) |}
  | DropColumn table column =>
      match db_tables db !! table with
      | None => Err (sql_error "no such table")
      | Some t =>
          if decide (column ∈ tb_columns t ∧ column ∉ tb_key t) then
            Ok (set_table table
                  {| tb_columns := filter (λ c, c ≠ column) (tb_columns t); tb_key := tb_key t;
                     tb_rows := delete column <$> tb_rows t |} db)
          else Err (sql_error "cannot drop column")
      end
  end.

(** [execute_batch]: the first error ends it. *)
Fixpoint execute_batch (sts : list Statement) (db : Database) : result RusqliteError Database :=
  match sts with [] => Ok db | st :: sts => db ← exec st db; execute_batch sts db end.

(** A row's primary key. *)
Definition row_key (t : Table) (r : SqlRow) : list (option Value) := (λ c, r !! c) <$> tb_key t.

Definition has_key (t : Table) (r : SqlRow) : bool :=
  bool_decide (row_key t r ∈ row_key t <$> tb_rows t).

Definition add_row (r : SqlRow) (t : Table) : Table :=
  {| tb_columns := tb_columns t; tb_key := tb_key t; tb_rows := tb_rows t ++ [r] |}.

(** [INSERT INTO]. *)
Definition insert_row (table : string) (r : SqlRow) (db : Database) : result RusqliteError Database :=
  match db_tables db !! table with
  | None => Err (sql_error "no such table")
  | Some t => if has_key t r then Err (SqliteFailure ConstraintViolation "UNIQUE constraint failed")
              else Ok (set_table table (add_row r t) db)
  end.

(** ** Migrations *)

Abbreviation Migration := (string * list Statement)%type.

(** [get_migrations], from the embedded SQL files. *)
Definition get_migrations : list Migration :=
  [("001_initial_schema",
    [CreateTable true "identity" ["id"; "name"; "secret_key"] ["id"];
     CreateTable true "ephemeral_keys" ["public_key_hex"; "secret_key"] ["public_key_hex"];
     CreateTable true "conversations" ["local_convo_id"; "remote_convo_id"; "convo_type"; "created_at"]
       ["local_convo_id"]]);
   ("002_ratchet_state",
    [CreateTable true "ratchet_state"
       ["conversation_id"; "root_key"; "sending_chain"; "receiving_chain"; "dh_self_secret"; "dh_remote";
        "msg_send"; "msg_recv"; "prev_chain_len"] ["conversation_id"];
     CreateTable true "skipped_keys"
       ["conversation_id"; "public_key"; "msg_num"; "message_key"; "created_at"]
       ["conversation_id"; "public_key"; "msg_num"];
     CreateIndex true "idx_skipped_keys_conversation" "skipped_keys"]);
   ("003_drop_ratchet_state", [DropTableIfExists "skipped_keys"; DropTableIfExists "ratchet_state"]);
   ("004_drop_ephemeral_keys", [DropTableIfExists "ephemeral_keys"]);
   ("005_drop_identity", [DropTableIfExists "identity"]);
   ("006_drop_remote_convo_id", [DropColumn "conversations" "remote_convo_id"]);
   ("007_kv", [CreateTable true "kv" ["ns"; "instance"; "key"; "value"] ["ns"; "instance"; "key"]]);
   ("009_installation", [CreateTable true "installation" ["id"; "record"] ["id"]])]%string.

(** [MIGRATIONS] of the message store. *)
Definition message_store_migrations : list Migration :=
  [("001_messages",
    [CreateTable false "message_store_messages"
       ["seq"; "chat_id"; "convo_id"; "direction"; "sender_account"; "sender_installation"; "message_id";
        "timestamp_ms"; "content"] ["seq"];
     CreateIndex false "message_store_messages_by_chat" "message_store_messages"])]%string.

Section runner.
(** The tracking table, and the instant it records. *)
Context (tracking : string) (now : Z).

Definition create_tracking : Statement :=
  CreateTable true tracking ["name"; "applied_at"]%string ["name"]%string.

Definition migration_row (name : string) : SqlRow :=
  {["name"%string := VText name; "applied_at"%string := VInt now]}.

(** [SELECT EXISTS(SELECT 1 FROM ... WHERE name = ?1)]. *)
Definition already_applied (name : string) (db : Database) : bool :=
  match db_tables db !! tracking with
  | Some t => bool_decide (Some (VText name) ∈ (λ r : SqlRow, r !! "name"%string) <$> tb_rows t)
  | None => false
  end.

(** The transaction of one migration; its error rolls everything back. *)
Definition migrate_tx (m : Migration) (db : Database) : result RusqliteError Database :=
  db ← execute_batch m.2 db; insert_row tracking (migration_row m.1) db.

(** One turn of the loop; [io] is a failure of the database itself. *)
Definition migrate_one (io : string → option RusqliteError) (m : Migration) (db : Database)
  : Database * result RusqliteError () :=
  match io m.1 with
  | Some e => (db, Err e)
  | None =>
      if already_applied m.1 db then (db, Ok ())
      else match migrate_tx m db with Ok db' => (db', Ok ()) | Err e => (db, Err e) end
  end.

Fixpoint migrate_loop (io : string → option RusqliteError) (ms : list Migration) (db : Database)
  : Database * result RusqliteError () :=
  match ms with
  | [] => (db, Ok ())
  | m :: ms => match migrate_one io m db with
               | (db, Ok _) => migrate_loop io ms db
               | (db, Err e) => (db, Err e)
               end
  end.

(** [apply_migrations], and [apply] of the message store on one connection. *)
Definition apply_migrations (ms : list Migration) (io : string → option RusqliteError) (db : Database)
  : Database * result RusqliteError () :=
  match exec create_tracking db with
  | Err e => (db, Err e)
  | Ok db => migrate_loop io ms db
  end.
End runner.

(** ** Connections opening one database at once *)

(** Where a connection is: about to create the tracking table, at the head of
    its loop, past a check that found the head unapplied, or done. *)
Inductive Opening : Type :=
  | Starting
  | AtMigration (todo : list Migration)
  | FoundMissing (m : Migration) (todo : list Migration)
  | Opened
  | OpenFailed (e : RusqliteError).

Section opening.
Context (tracking : string) (now : Z) (ms : list Migration).

(** The statements of a migration in its transaction. *)
Definition commit_migration (m : Migration) (todo : list Migration) (db : Database)
  : Database * Opening :=
  match migrate_tx tracking now m db with
  | Ok db' => (db', AtMigration todo)
  | Err e => (db, OpenFailed e)
  end.

(** [SqliteStore]: the check reads outside the transaction. *)
Definition check_then_lock (c : Opening) (db : Database) : Database * Opening :=
  match c with
  | Starting => match exec (create_tracking tracking) db with
                | Ok db => (db, AtMigration ms) | Err e => (db, OpenFailed e) end
  | AtMigration [] => (db, Opened)
  | AtMigration (m :: todo) =>
      (db, if already_applied tracking m.1 db then AtMigration todo else FoundMissing m todo)
  | FoundMissing m todo => commit_migration m todo db
  | c => (db, c)
  end.

(** [MessageStore]: the check is inside an immediate transaction. *)
Definition lock_then_check (c : Opening) (db : Database) : Database * Opening :=
  match c with
  | Starting => match exec (create_tracking tracking) db with
                | Ok db => (db, AtMigration ms) | Err e => (db, OpenFailed e) end
  | AtMigration [] => (db, Opened)
  | AtMigration (m :: todo) =>
      if already_applied tracking m.1 db then (db, AtMigration todo) else commit_migration m todo db
  | c => (db, c)
  end.
End opening.

(** Connections take turns as a schedule says. *)
Fixpoint schedule (step : Opening → Database → Database * Opening) (turns : list nat)
    (s : Database * list Opening) : Database * list Opening :=
  match turns with
  | [] => s
  | i :: turns =>
      match s.2 !! i with
      | None => schedule step turns s
      | Some c => let '(db, c') := step c s.1 in schedule step turns (db, <[i := c']> s.2)
      end
  end.

(** ** Schemas *)

(** The schema: the tables without their rows. *)
Definition strip_table (t : Table) : Table :=
  {| tb_columns := tb_columns t; tb_key := tb_key t; tb_rows := [] |}.
Definition schema (db : Database) : Database :=
  {| db_tables := strip_table <$> db_tables db; db_indexes := db_indexes db |}.

(** Statements act on schemas alone. *)
Lemma exec_schema st db : exec st (schema db) = schema <$> exec st db.
Proof.
  destruct st as [ine name cols key|ine index table|name|table column];
    unfold exec, schema, set_table; cbn [db_tables db_indexes].
  - rewrite lookup_fmap. destruct (db_tables db !! name); cbn; [by destruct ine|].
    by rewrite fmap_insert.
  - destruct (db_indexes db !! index); [by destruct ine|]. rewrite lookup_fmap.
    by destruct (db_tables db !! table).
  - cbn. by rewrite fmap_delete.
  - rewrite lookup_fmap. destruct (db_tables db !! table) as [t|]; cbn; [|done].
    case_decide; cbn; [|done]. by rewrite fmap_insert.
Qed.

Lemma execute_batch_schema sts db : execute_batch sts (schema db) = schema <$> execute_batch sts db.
Proof.
  revert db. induction sts as [|st sts IH]; intros db; [done|]. cbn [execute_batch].
  rewrite exec_schema. destruct (exec st db) as [db'|e]; cbn; [apply IH|done].
Qed.

Lemma insert_row_schema table r db db' : insert_row table r db = Ok db' → schema db' = schema db.
Proof.
  unfold insert_row. destruct (db_tables db !! table) as [t|] eqn:Ht; [|done].
  destruct (has_key t r); [done|]. intros [= <-]. unfold schema, set_table. cbn. f_equal.
  rewrite fmap_insert. apply insert_id. by rewrite lookup_fmap, Ht.
Qed.

(** ** Versions of a database *)

Section versions.
Context (tracking : string) (now : Z) (ms : list Migration).

(** The schema after the first [k] migrations. *)
Definition version (k : nat) : result RusqliteError Database :=
  db ← exec (create_tracking tracking) new_database; execute_batch (concat (take k ms).*2) db.

(** The names the tracking table holds. *)
Definition tracked (db : Database) : list (option Value) :=
  match db_tables db !! tracking with
  | Some t => (λ r : SqlRow, r !! "name"%string) <$> tb_rows t
  | None => []
  end.

(** A database at version [k]: that schema, with the first [k] migrations
    tracked. *)
Definition at_version (k : nat) (db : Database) : Prop :=
  version k = Ok (schema db) ∧ tracked db = (λ m, Some (VText m.1)) <$> take k ms.

(** What a list of migrations has to be: distinct names, every version exists
    and keeps the tracking table, which no migration touches. *)
Definition touches (st : Statement) : bool :=
  match st with
  | CreateTable _ name _ _ => bool_decide (name = tracking)
  | CreateIndex _ _ _ => false
  | DropTableIfExists name => bool_decide (name = tracking)
  | DropColumn table _ => bool_decide (table = tracking)
  end.

Definition migrations_ok : bool :=
  bool_decide (NoDup ms.*1) && forallb (λ m, forallb (λ st, negb (touches st)) m.2) ms &&
  is_ok (version (length ms)).

Hypothesis ms_ok : migrations_ok = true.

Lemma ms_nodup : NoDup ms.*1.
Proof. unfold migrations_ok in ms_ok. apply andb_prop in ms_ok as [[H _]%andb_prop _]. by apply bool_decide_eq_true in H. Qed.
Lemma ms_untouched m st : m ∈ ms → st ∈ m.2 → touches st = false.
Proof.
  unfold migrations_ok in ms_ok. apply andb_prop in ms_ok as [[_ H]%andb_prop _].
  rewrite forallb_forall in H. intros Hm%list_elem_of_In Hst%list_elem_of_In. specialize (H m Hm).
  rewrite forallb_forall in H. by apply negb_true_iff, H.
Qed.
Lemma ms_version : is_ok (version (length ms)) = true.
Proof. unfold migrations_ok in ms_ok. by apply andb_prop in ms_ok as [_ H]. Qed.

Lemma exec_untouched st db db' :
  touches st = false → exec st db = Ok db' → db_tables db' !! tracking = db_tables db !! tracking.
Proof.
  destruct st as [ine name cols key|ine index table|name|table column]; cbn.
  - rewrite bool_decide_eq_false. intros Hne. destruct (db_tables db !! name); [destruct ine; by intros [= <-]|].
    intros [= <-]. cbn. by rewrite lookup_insert_ne.
  - intros _. destruct (db_indexes db !! index); [destruct ine; by intros [= <-]|].
    destruct (db_tables db !! table); by intros [= <-].
  - rewrite bool_decide_eq_false. intros Hne [= <-]. cbn. by rewrite lookup_delete_ne.
  - rewrite bool_decide_eq_false. intros Hne. destruct (db_tables db !! table); [|done].
    case_decide; [|done]. intros [= <-]. cbn. by rewrite lookup_insert_ne.
Qed.

Lemma batch_untouched sts db db' :
  (∀ st, st ∈ sts → touches st = false) → execute_batch sts db = Ok db' →
  db_tables db' !! tracking = db_tables db !! tracking.
Proof.
  revert db. induction sts as [|st sts IH]; intros db Hsts; [by intros [= <-]|].
  cbn [execute_batch]. intros (db1 & H1 & H2)%bind_Ok. etransitivity.
  - eapply IH; [|done]. intros; apply Hsts; by right.
  - eapply exec_untouched; [|done]. apply Hsts. by left.
Qed.

Lemma execute_batch_app sts sts' db :
  execute_batch (sts ++ sts') db = execute_batch sts db ≫= execute_batch sts'.
Proof.
  revert db. induction sts as [|st sts IH]; intros db; [done|]. cbn [execute_batch app].
  destruct (exec st db); cbn; [apply IH|done].
Qed.

Lemma version_step k m : ms !! k = Some m → version (S k) = version k ≫= execute_batch m.2.
Proof.
  intros Hm. unfold version. rewrite (take_S_r _ _ _ Hm), fmap_app, concat_app. cbn [fmap list_fmap concat].
  rewrite app_nil_r. destruct (exec (create_tracking tracking) new_database) as [db|e];
    cbn [mbind result_bind]; [apply execute_batch_app|done].
Qed.

Lemma version_ok k : k ≤ length ms → ∃ db, version k = Ok db.
Proof.
  pose proof ms_version as Hall. intros Hk. assert (H : ∀ j, is_ok (version (k + j)) = true → is_ok (version k) = true).
  { intros j. induction j as [|j IH]; [by rewrite Nat.add_0_r|]. rewrite Nat.add_succ_r.
    destruct (ms !! (k + j)) as [m|] eqn:Hm.
    - rewrite (version_step _ _ Hm). intros Hok. apply IH. by destruct (version (k + j)).
    - intros Hok. apply IH. apply lookup_ge_None in Hm. revert Hok. unfold version.
      by rewrite !take_ge by lia. }
  specialize (H (length ms - k)). replace (k + (length ms - k)) with (length ms) in H by lia.
  specialize (H Hall). destruct (version k) as [db|]; [eauto|done].
Qed.

(** Every version has the tracking table as created. *)
Lemma version_tracking k db :
  version k = Ok db →
  db_tables db !! tracking =
  Some {| tb_columns := ["name"; "applied_at"]%string; tb_key := ["name"]%string; tb_rows := [] |}.
Proof.
  unfold version. intros (db0 & H0 & H)%bind_Ok. cbn in H0. injection H0 as <-.
  erewrite batch_untouched; [|clear H|exact H].
  - cbn. apply lookup_insert_eq.
  - intros st Hst. apply list_elem_of_In, in_concat in Hst as (l & Hl & Hst).
    apply list_elem_of_In, list_elem_of_fmap in Hl as (m & -> & Hm%elem_of_take).
    destruct Hm as (i & Hi & _). eapply ms_untouched; [by eapply list_elem_of_lookup_2|].
    by apply list_elem_of_In.
Qed.

Lemma at_version_table k db :
  at_version k db →
  ∃ t, db_tables db !! tracking = Some t ∧ tb_key t = ["name"%string].
Proof.
  intros [Hv _]. apply version_tracking in Hv. unfold schema in Hv. cbn in Hv.
  rewrite lookup_fmap in Hv. apply fmap_Some in Hv as (t & Ht & Heq). exists t. split; [done|].
  destruct t. by injection Heq as <- <-.
Qed.

Lemma already_applied_tracked name db :
  already_applied tracking name db = bool_decide (Some (VText name) ∈ tracked db).
Proof.
  unfold already_applied, tracked. destruct (db_tables db !! tracking); [done|].
  symmetry. apply bool_decide_eq_false. by intros ?%elem_of_nil.
Qed.

Lemma applied_at k j db m :
  at_version k db → ms !! j = Some m → already_applied tracking m.1 db = bool_decide (j < k).
Proof.
  intros [_ Ht] Hm. rewrite already_applied_tracked, Ht. apply bool_decide_ext.
  rewrite list_elem_of_fmap. split.
  - intros (m' & [= Heq] & (i & Hi & Hlt)%elem_of_take). enough (i = j) by lia.
    eapply (NoDup_lookup ms.*1); [apply ms_nodup| |]; rewrite list_lookup_fmap.
    + by rewrite Hi. + rewrite Hm. cbn. by rewrite Heq.
  - intros Hlt. exists m. split; [done|]. apply elem_of_take. eauto.
Qed.

Lemma insert_migration name t db :
  db_tables db !! tracking = Some t → tb_key t = ["name"%string] →
  already_applied tracking name db = false →
  insert_row tracking (migration_row now name) db =
  Ok (set_table tracking (add_row (migration_row now name) t) db).
Proof.
  intros Ht Hkey Happ. unfold insert_row. rewrite Ht. unfold has_key, row_key. rewrite Hkey.
  rewrite bool_decide_eq_false_2; [done|]. unfold already_applied in Happ. rewrite Ht in Happ.
  apply bool_decide_eq_false in Happ. intros (r & Hr & Hin)%list_elem_of_fmap. apply Happ.
  cbn in Hr. injection Hr as Hr. apply list_elem_of_fmap. eauto.
Qed.

Lemma migrate_at k db m :
  at_version k db → ms !! k = Some m → ∃ db', migrate_tx tracking now m db = Ok db' ∧ at_version (S k) db'.
Proof.
  intros Hat Hm. pose proof (applied_at k k db m Hat Hm) as Happ.
  rewrite bool_decide_eq_false_2 in Happ by lia. destruct (at_version_table k db Hat) as (t & Ht & Hkey).
  destruct Hat as [Hv Htr]. pose proof (lookup_lt_Some _ _ _ Hm) as Hlt.
  destruct (version_ok (S k) ltac:(lia)) as [v' Hv']. pose proof Hv' as Hstep.
  rewrite (version_step _ _ Hm), Hv in Hstep. cbn in Hstep.
  rewrite execute_batch_schema in Hstep. apply fmap_Ok in Hstep as (db1 & Hdb1 & ->).
  assert (Ht1 : db_tables db1 !! tracking = Some t).
  { rewrite <-Ht. eapply batch_untouched; [|exact Hdb1]. intros st. apply ms_untouched.
    by eapply list_elem_of_lookup_2. }
  assert (Hins : insert_row tracking (migration_row now m.1) db1 =
                 Ok (set_table tracking (add_row (migration_row now m.1) t) db1)).
  { apply insert_migration; [done|done|]. rewrite <-Happ. unfold already_applied. by rewrite Ht, Ht1. }
  unfold migrate_tx. rewrite Hdb1. cbn [mbind result_bind]. rewrite Hins. eexists. split; [done|]. split.
  - by rewrite (insert_row_schema _ _ _ _ Hins).
  - unfold tracked, set_table, add_row. cbn. rewrite lookup_insert_eq. cbn. rewrite fmap_app.
    unfold tracked in Htr. rewrite Ht in Htr. rewrite Htr, (take_S_r _ _ _ Hm), fmap_app. done.
Qed.

(** A whole run of the loop from any version, whatever fails. *)
Lemma migrate_loop_at io j k db :
  j ≤ k → k ≤ length ms → at_version k db →
  ∃ k' db' r, migrate_loop tracking now io (drop j ms) db = (db', r) ∧ k ≤ k' ≤ length ms ∧
    at_version k' db' ∧ (r = Ok () → k' = length ms) ∧ (k = length ms → db' = db).
Proof.
  remember (length ms - j) as n eqn:Hn. revert j k db Hn.
  induction n as [|n IH]; intros j k db Hn Hj Hk Hat.
  { rewrite drop_ge by lia. exists k, db, (Ok ()). cbn. split; [done|]. split; [lia|].
    split; [done|]. split; [lia|done]. }
  destruct (lookup_lt_is_Some_2 ms j) as [m Hm]; [lia|]. rewrite (drop_S _ _ _ Hm). cbn [migrate_loop].
  unfold migrate_one. destruct (io m.1) as [e|].
  { exists k, db, (Err e). split; [done|]. split; [lia|]. split; [done|]. split; done. }
  rewrite (applied_at k j db m Hat Hm). destruct (decide (j < k)) as [Hjk|Hjk].
  - rewrite bool_decide_eq_true_2 by done. by apply IH; lia || done.
  - rewrite bool_decide_eq_false_2 by done. assert (j = k) as -> by lia.
    destruct (migrate_at k db m Hat Hm) as (db1 & Htx & Hat1). rewrite Htx.
    destruct (IH (S k) (S k) db1) as (k' & db' & r & Hloop & Hk' & Hat' & Hr & _); [lia..|done|].
    exists k', db', r. split; [done|]. split; [lia|]. split; [done|]. split; [done|]. lia.
Qed.

Lemma tracking_created k db : at_version k db → exec (create_tracking tracking) db = Ok db.
Proof. intros (t & Ht & _)%at_version_table. cbn. by rewrite Ht. Qed.

Lemma new_at_version : ∃ db, exec (create_tracking tracking) new_database = Ok db ∧ at_version 0 db.
Proof.
  eexists. split; [done|]. split; [unfold version, schema, set_table; cbn; by rewrite fmap_insert, fmap_empty|].
  unfold tracked. cbn. by rewrite lookup_insert_eq.
Qed.

(** Opening again and again, each time with whatever failures. *)
Fixpoint openings (ios : list (string → option RusqliteError)) (db : Database)
  : Database * list (result RusqliteError ()) :=
  match ios with
  | [] => (db, [])
  | io :: ios => let '(db, r) := apply_migrations tracking now ms io db in
                 let '(db, rs) := openings ios db in (db, r :: rs)
  end.

Lemma openings_at ios k db db' rs :
  k ≤ length ms → at_version k db → openings ios db = (db', rs) →
  ∃ k', k ≤ k' ≤ length ms ∧ at_version k' db' ∧ (Ok () ∈ rs → k' = length ms) ∧
        (k = length ms → db' = db).
Proof.
  revert k db rs. induction ios as [|io ios IH]; intros k db rs Hk Hat.
  { intros [= <- <-]. exists k. split; [lia|]. split; [done|]. split; [by intros ?%elem_of_nil|done]. }
  cbn [openings]. unfold apply_migrations. rewrite (tracking_created k db Hat).
  destruct (migrate_loop_at io 0 k db) as (k1 & db1 & r & Hl & Hk1 & Hat1 & Hr & Hsame); [lia|done..|].
  rewrite drop_0 in Hl. rewrite Hl. destruct (openings ios db1) as [db2 rs2] eqn:Hop.
  intros [= <- <-]. destruct (IH k1 db1 rs2 ltac:(lia) Hat1 Hop) as (k' & Hk' & Hat' & Hrs & Hs).
  exists k'. split; [lia|]. split; [done|]. split.
  - rewrite elem_of_cons. intros [Heq|?]; [|by apply Hrs]. specialize (Hr (eq_sym Heq)). lia.
  - intros ->. rewrite <-Hsame by done. apply Hs. lia.
Qed.

Lemma migrate_loop_Ok j k db :
  j ≤ k → k ≤ length ms → at_version k db →
  (migrate_loop tracking now (λ _, None) (drop j ms) db).2 = Ok ().
Proof.
  remember (length ms - j) as n eqn:Hn. revert j k db Hn.
  induction n as [|n IH]; intros j k db Hn Hj Hk Hat; [by rewrite drop_ge by lia|].
  destruct (lookup_lt_is_Some_2 ms j) as [m Hm]; [lia|]. rewrite (drop_S _ _ _ Hm). cbn [migrate_loop].
  unfold migrate_one. rewrite (applied_at k j db m Hat Hm). destruct (decide (j < k)) as [Hjk|Hjk].
  - rewrite bool_decide_eq_true_2 by done. apply (IH (S j) k); lia || done.
  - rewrite bool_decide_eq_false_2 by done. assert (j = k) as -> by lia.
    destruct (migrate_at k db m Hat Hm) as (db1 & Htx & Hat1). rewrite Htx. apply (IH (S k) (S k)); lia || done.
Qed.

(** An opening that meets no failure. *)
Lemma apply_at k db :
  k ≤ length ms → at_version k db →
  ∃ db', apply_migrations tracking now ms (λ _, None) db = (db', Ok ()) ∧
         at_version (length ms) db' ∧ (k = length ms → db' = db).
Proof.
  intros Hk Hat. unfold apply_migrations. rewrite (tracking_created k db Hat).
  pose proof (migrate_loop_Ok 0 k db ltac:(lia) Hk Hat) as Hok.
  destruct (migrate_loop_at (λ _, None) 0 k db) as (k1 & db1 & r & Hl & Hk1 & Hat1 & Hr & Hs); [lia|done..|].
  rewrite drop_0 in *. rewrite Hl in *. cbn in Hok. subst r. exists db1. split; [done|].
  specialize (Hr eq_refl) as ->. by split.
Qed.

(** *** At once *)

(** A connection is behind the version the database is at. *)
Definition opening_ok (k : nat) (c : Opening) : Prop :=
  match c with
  | Starting | OpenFailed _ => True
  | AtMigration todo => ∃ j, j ≤ k ∧ todo = drop j ms
  | FoundMissing m todo => ∃ j, j ≤ k ∧ ms !! j = Some m ∧ todo = drop (S j) ms
  | Opened => k = length ms
  end.

Definition never_failed (c : Opening) : Prop :=
  match c with OpenFailed _ | FoundMissing _ _ => False | _ => True end.

Lemma opening_ok_mono k k' c : k ≤ k' → k' ≤ length ms → opening_ok k c → opening_ok k' c.
Proof.
  destruct c; cbn; [done| | |lia|done]; intros ? ? (j & ? & ?); exists j; (split; [lia|done]).
Qed.

(** A migration tracked already cannot be committed again. *)
Lemma migrate_again k j db m :
  at_version k db → ms !! j = Some m → j < k → ∃ e, migrate_tx tracking now m db = Err e.
Proof.
  intros Hat Hm Hlt. pose proof (applied_at k j db m Hat Hm) as Happ.
  rewrite bool_decide_eq_true_2 in Happ by done. destruct (at_version_table k db Hat) as (t & Ht & Hkey).
  unfold migrate_tx. destruct (execute_batch m.2 db) as [db1|e] eqn:Hb; cbn [mbind result_bind]; [|eauto].
  assert (Ht1 : db_tables db1 !! tracking = Some t).
  { rewrite <-Ht. eapply batch_untouched; [|exact Hb]. intros st. apply ms_untouched.
    by eapply list_elem_of_lookup_2. }
  unfold insert_row. rewrite Ht1. unfold has_key, row_key. rewrite Hkey, bool_decide_eq_true_2; [eauto|].
  unfold already_applied in Happ. rewrite Ht in Happ. apply bool_decide_eq_true in Happ.
  apply list_elem_of_fmap in Happ as (r & Hr & Hin). apply list_elem_of_fmap. exists r.
  split; [|done]. cbn. by rewrite <-Hr.
Qed.

Lemma commit_at k j db m :
  at_version k db → k ≤ length ms → j ≤ k → ms !! j = Some m →
  ∃ k' db' c, commit_migration tracking now m (drop (S j) ms) db = (db', c) ∧ k ≤ k' ≤ length ms ∧
    at_version k' db' ∧ opening_ok k' c ∧ (j = k → never_failed c).
Proof.
  intros Hat Hk Hj Hm. pose proof (lookup_lt_Some _ _ _ Hm). unfold commit_migration.
  destruct (decide (j = k)) as [->|Hne].
  - destruct (migrate_at k db m Hat Hm) as (db' & -> & Hat'). exists (S k), db', (AtMigration (drop (S k) ms)).
    split; [done|]. split; [lia|]. split; [done|]. split; [by exists (S k)|done].
  - destruct (migrate_again k j db m Hat Hm ltac:(lia)) as [e ->]. exists k, db, (OpenFailed e).
    split; [done|]. split; [lia|]. split; [done|]. split; [done|]. done.
Qed.

(** A step of either runner keeps the database at a version. *)
Lemma step_at (strict : bool) k db c :
  at_version k db → k ≤ length ms → opening_ok k c → (strict = true → never_failed c) →
  ∃ k' db' c', (if strict then lock_then_check else check_then_lock) tracking now ms c db = (db', c') ∧
    k ≤ k' ≤ length ms ∧ at_version k' db' ∧ opening_ok k' c' ∧ (strict = true → never_failed c').
Proof.
  intros Hat Hk Hc Hs.
  assert (Hstay : ∀ c', opening_ok k c' → (strict = true → never_failed c') →
    ∃ k' db' c'', (db, c') = (db', c'') ∧ k ≤ k' ≤ length ms ∧ at_version k' db' ∧ opening_ok k' c'' ∧
      (strict = true → never_failed c'')).
  { intros c' ? ?. exists k, db, c'. split; [done|]. split; [lia|]. done. }
  assert (Hcommit : ∀ j m, j ≤ k → ms !! j = Some m → (strict = true → j = k) →
    ∃ k' db' c', commit_migration tracking now m (drop (S j) ms) db = (db', c') ∧ k ≤ k' ≤ length ms ∧
      at_version k' db' ∧ opening_ok k' c' ∧ (strict = true → never_failed c')).
  { intros j m Hj Hm Hst. destruct (commit_at k j db m Hat Hk Hj Hm) as (k' & db' & c' & ? & ? & ? & ? & Hn).
    exists k', db', c'. split_and!; try done; try lia. auto. }
  destruct c as [|[|m todo]|m todo| |e].
  - destruct strict; cbn [check_then_lock lock_then_check]; rewrite (tracking_created k db Hat);
      (apply Hstay; [by exists 0; split; [lia|]|done]).
  - destruct Hc as (j & Hj & Heq). assert (k = length ms).
    { apply (f_equal length) in Heq. rewrite length_drop in Heq. cbn in Heq. lia. }
    destruct strict; by apply Hstay.
  - destruct Hc as (j & Hj & Heq).
    assert (Hm : ms !! j = Some m).
    { rewrite <-(Nat.add_0_r j), <-lookup_drop, <-Heq. done. }
    rewrite (drop_S _ _ _ Hm) in Heq. injection Heq as ->.
    destruct strict; cbn [check_then_lock lock_then_check];
      rewrite (applied_at k j db m Hat Hm); destruct (decide (j < k)) as [Hlt|Hge].
    + rewrite bool_decide_eq_true_2 by done. apply Hstay; [exists (S j); split; [lia|done]|done].
    + rewrite bool_decide_eq_false_2 by done. apply Hcommit; [lia|done|lia].
    + rewrite bool_decide_eq_true_2 by done. apply Hstay; [exists (S j); split; [lia|done]|done].
    + rewrite bool_decide_eq_false_2 by done. apply Hstay; [exists j; split_and!; [lia|done|done]|done].
  - destruct strict; [by specialize (Hs eq_refl)|]. destruct Hc as (j & Hj & Hm & ->).
    cbn [check_then_lock]. by apply Hcommit.
  - destruct strict; by apply Hstay.
  - destruct strict; [by specialize (Hs eq_refl)|]. by apply Hstay.
Qed.

Lemma schedule_at (strict : bool) turns k db cs :
  at_version k db → k ≤ length ms → Forall (opening_ok k) cs →
  (strict = true → Forall never_failed cs) →
  ∃ k' db' cs',
    schedule ((if strict then lock_then_check else check_then_lock) tracking now ms) turns (db, cs) = (db', cs') ∧
    k ≤ k' ≤ length ms ∧ at_version k' db' ∧ Forall (opening_ok k') cs' ∧
    (strict = true → Forall never_failed cs').
Proof.
  revert k db cs. induction turns as [|i turns IH]; intros k db cs Hat Hk Hcs Hs.
  { exists k, db, cs. split; [done|]. split; [lia|]. done. }
  cbn [schedule snd fst]. destruct (cs !! i) as [c|] eqn:Hi; [|by apply IH].
  destruct (step_at strict k db c Hat Hk) as (k1 & db1 & c1 & Hstep & Hk1 & Hat1 & Hc1 & Hn1).
  { by eapply Forall_lookup_1. } { intros ?. eapply Forall_lookup_1; [by apply Hs|done]. }
  rewrite Hstep. destruct (IH k1 db1 (<[i:=c1]> cs) Hat1) as (k' & db' & cs' & ? & ? & ? & ? & ?);
    [lia| | |exists k', db', cs'; split_and!; lia || done].
  - apply Forall_insert; [|done]. eapply Forall_impl; [exact Hcs|]. intros x. apply opening_ok_mono; lia.
  - intros ?. by apply Forall_insert; auto.
Qed.
End versions.

(** ** The two stores *)

Definition sqlite_tracking : string := "_migrations".
Definition message_store_tracking : string := "message_store_migrations".

Lemma get_migrations_ok : migrations_ok sqlite_tracking get_migrations = true.
Proof. vm_compute. reflexivity. Qed.
Lemma message_store_migrations_ok :
  migrations_ok message_store_tracking message_store_migrations = true.
Proof. vm_compute. reflexivity. Qed.

(** The tables the SQLite store works on: nothing of the dropped ones is left. *)
Definition current_schema : Database :=
  {| db_tables :=
       {["_migrations" := {| tb_columns := ["name"; "applied_at"]; tb_key := ["name"]; tb_rows := [] |};
         "conversations" := {| tb_columns := ["local_convo_id"; "convo_type"; "created_at"];
                               tb_key := ["local_convo_id"]; tb_rows := [] |};
         "kv" := {| tb_columns := ["ns"; "instance"; "key"; "value"];
                    tb_key := ["ns"; "instance"; "key"]; tb_rows := [] |};
         "installation" := {| tb_columns := ["id"; "record"]; tb_key := ["id"]; tb_rows := [] |}]};
     db_indexes := ∅ |}%string.

Lemma current_version : version sqlite_tracking get_migrations (length get_migrations) = Ok current_schema.
Proof. vm_compute. reflexivity. Qed.

Lemma Ok_inj {E A} (a b : A) : @Ok E A a = Ok b → a = b.
Proof. by intros [=]. Qed.

(** The openings of a new file, the first of which creates the tracking table. *)
Lemma openings_new now ios :
  let '(db, rs) := openings sqlite_tracking now get_migrations ios new_database in
  db = new_database ∧ rs = [] ∨
  ∃ k, k ≤ length get_migrations ∧ at_version sqlite_tracking get_migrations k db ∧
       (Ok () ∈ rs → k = length get_migrations).
Proof.
  destruct ios as [|io ios]; [by left|].
  destruct (new_at_version sqlite_tracking get_migrations) as (db0 & Hdb0 & Hat0).
  assert (Heq : openings sqlite_tracking now get_migrations (io :: ios) new_database =
                openings sqlite_tracking now get_migrations (io :: ios) db0).
  { cbn [openings]. unfold apply_migrations. rewrite Hdb0.
    by rewrite (tracking_created _ _ get_migrations_ok 0 db0 Hat0). }
  rewrite Heq. destruct (openings _ _ _ (io :: ios) db0) as [db rs] eqn:Hop. right.
  destruct (openings_at _ _ _ get_migrations_ok _ 0 _ _ _ ltac:(lia) Hat0 Hop) as (k & Hk & Hat & Hok & _).
  exists k. split; [lia|]. done.
Qed.

(** C31. Resumption: however many openings of a new database failed before,
    each wherever it did, an opening that meets no failure succeeds, leaves
    exactly the current schema with every migration recorded once in order, and
    changes nothing at all when an earlier opening had succeeded. *)
Theorem migrations_resume now ios :
  let '(db, rs) := openings sqlite_tracking now get_migrations ios new_database in
  ∃ db', apply_migrations sqlite_tracking now get_migrations (λ _, None) db = (db', Ok ()) ∧
         schema db' = current_schema ∧
         tracked sqlite_tracking db' = (λ m, Some (VText m.1)) <$> get_migrations ∧
         (Ok () ∈ rs → db' = db).
Proof.
  pose proof (openings_new now ios) as Hnew. destruct (openings _ _ _ ios new_database) as [db rs].
  assert (Hat : ∃ k db0, k ≤ length get_migrations ∧ at_version sqlite_tracking get_migrations k db0 ∧
    exec (create_tracking sqlite_tracking) db = Ok db0 ∧ (Ok () ∈ rs → k = length get_migrations ∧ db0 = db)).
  { destruct Hnew as [[-> ->]|(k & Hk & Hat & Hok)].
    - destruct (new_at_version sqlite_tracking get_migrations) as (db0 & Hdb0 & Hat0).
      exists 0, db0. split; [lia|]. split; [done|]. split; [done|]. by intros ?%elem_of_nil.
    - exists k, db. split; [lia|]. split; [done|]. split; [|auto].
      exact (tracking_created _ _ get_migrations_ok k db Hat). }
  destruct Hat as (k & db0 & Hk & Hat & Hcreate & Hok).
  destruct (apply_at _ now _ get_migrations_ok k db0 Hk Hat) as (db' & Happ & [Hv Htr] & Hsame).
  exists db'. split; [|split; [|split]].
  - revert Happ. unfold apply_migrations. rewrite Hcreate.
    by rewrite (tracking_created _ _ get_migrations_ok k db0 Hat).
  - rewrite current_version in Hv. symmetry. exact (Ok_inj _ _ Hv).
  - by rewrite Htr.
  - intros [Hlast <-]%Hok. auto.
Qed.

(** *** Data *)

(** The conversations recorded, whatever else the table has. *)
Definition conversation_records (db : Database) : list (option Value * option Value) :=
  match db_tables db !! "conversations"%string with
  | Some t => (λ r : SqlRow, (r !! "local_convo_id"%string, r !! "convo_type"%string)) <$> tb_rows t
  | None => []
  end.

Definition keeps_conversations (st : Statement) : bool :=
  match st with
  | DropTableIfExists name => bool_decide (name ≠ "conversations"%string)
  | DropColumn table column =>
      bool_decide (table ≠ "conversations"%string ∨
                   (column ≠ "local_convo_id"%string ∧ column ≠ "convo_type"%string))
  | _ => true
  end.

Lemma set_table_records name t db :
  name ≠ "conversations"%string → conversation_records (set_table name t db) = conversation_records db.
Proof. intros Hne. unfold conversation_records. cbn. by rewrite lookup_insert_ne. Qed.

Lemma exec_records st db db' :
  keeps_conversations st = true → exec st db = Ok db' → conversation_records db' = conversation_records db.
Proof.
  destruct st as [ine name cols key|ine index table|name|table column]; cbn.
  - intros _. destruct (db_tables db !! name) eqn:Hn; [destruct ine; by intros [= <-]|].
    intros [= <-]. destruct (decide (name = "conversations"%string)) as [->|Hne]; [|by apply set_table_records].
    unfold conversation_records. cbn. by rewrite lookup_insert_eq, Hn.
  - intros _. destruct (db_indexes db !! index); [destruct ine; by intros [= <-]|].
    destruct (db_tables db !! table); by intros [= <-].
  - rewrite bool_decide_eq_true. intros Hne [= <-]. unfold conversation_records. cbn.
    by rewrite lookup_delete_ne by done.
  - rewrite bool_decide_eq_true. intros Hok. destruct (db_tables db !! table) as [t|] eqn:Ht; [|done].
    case_decide; [|done]. intros [= <-]. destruct (decide (table = "conversations"%string)) as [->|Hne];
      [|by apply set_table_records].
    destruct Hok as [?|[? ?]]; [done|]. unfold conversation_records. cbn. rewrite lookup_insert_eq, Ht. cbn.
    rewrite <-list_fmap_compose. apply list_fmap_ext. intros ? r _. cbn. by rewrite !lookup_delete_ne.
Qed.

Lemma batch_records sts db db' :
  forallb keeps_conversations sts = true → execute_batch sts db = Ok db' →
  conversation_records db' = conversation_records db.
Proof.
  revert db. induction sts as [|st sts IH]; intros db; [by intros _ [= <-]|]. cbn.
  intros [H1 H2]%andb_prop (db1 & He & Hb)%bind_Ok. rewrite (IH db1 H2 Hb). by eapply exec_records.
Qed.

Lemma migrate_records tracking now io ms db :
  tracking ≠ "conversations"%string → forallb (λ m : Migration, forallb keeps_conversations m.2) ms = true →
  conversation_records (migrate_loop tracking now io ms db).1 = conversation_records db.
Proof.
  intros Htr. revert db. induction ms as [|m ms IH]; intros db; [done|]. cbn.
  intros [Hm Hms]%andb_prop. unfold migrate_one. destruct (io m.1); [done|].
  destruct (already_applied tracking m.1 db); [by apply IH|].
  destruct (migrate_tx tracking now m db) as [db'|e] eqn:Htx; [|done]. rewrite IH by done.
  unfold migrate_tx in Htx. apply bind_Ok in Htx as (db1 & Hb & Hi).
  rewrite <-(batch_records _ _ _ Hm Hb). unfold insert_row in Hi.
  destruct (db_tables db1 !! tracking) as [t|]; [|done]. destruct (has_key _ _); [done|].
  injection Hi as <-. by apply set_table_records.
Qed.

(** Upgrading keeps the data: opening a database, at whatever version and
    in whatever state it is and wherever the opening fails, keeps the id and the
    kind of every conversation recorded in it, in order. *)
Theorem upgrade_keeps_conversations now io db :
  conversation_records (apply_migrations sqlite_tracking now get_migrations io db).1 =
  conversation_records db.
Proof.
  unfold apply_migrations. destruct (exec (create_tracking sqlite_tracking) db) as [db0|e] eqn:He; [|done].
  rewrite migrate_records by done || (vm_compute; reflexivity). eapply exec_records; [|exact He]. done.
Qed.

(** *** At once *)

(** The first turn on a new database. *)
Lemma schedule_start step db0 c0 turns n :
  step Starting new_database = (db0, c0) →
  schedule step turns (new_database, replicate n Starting) = (new_database, replicate n Starting) ∨
  ∃ turns' i, schedule step turns (new_database, replicate n Starting) =
              schedule step turns' (db0, <[i := c0]> (replicate n Starting)).
Proof.
  intros Hstep. induction turns as [|i turns IH]; [by left|]. cbn [schedule snd fst].
  destruct (replicate n Starting !! i) as [c|] eqn:Hi; [|exact IH].
  apply lookup_replicate in Hi as [-> _]. rewrite Hstep. eauto.
Qed.

(** The message store's check under the lock: whatever number of
    connections open one new database at once, and however their steps
    interleave, none fails, and the database is migrated for whoever is done. *)
Theorem message_store_opens_at_once now n turns :
  let '(db, cs) := schedule (lock_then_check message_store_tracking now message_store_migrations) turns
                     (new_database, replicate n Starting) in
  Forall never_failed cs ∧
  (Opened ∈ cs → at_version message_store_tracking message_store_migrations
                   (length message_store_migrations) db).
Proof.
  destruct (new_at_version message_store_tracking message_store_migrations) as (db0 & Hdb0 & Hat0).
  assert (Hstep : lock_then_check message_store_tracking now message_store_migrations Starting new_database =
                  (db0, AtMigration message_store_migrations)).
  { unfold lock_then_check. by rewrite Hdb0. }
  destruct (schedule_start _ _ _ turns n Hstep) as [->|(turns' & i & ->)].
  { split; [by apply Forall_replicate|]. by intros [? _]%elem_of_replicate. }
  destruct (schedule_at _ now _ message_store_migrations_ok true turns' 0 db0
              (<[i := AtMigration message_store_migrations]> (replicate n Starting)) Hat0)
    as (k & db' & cs' & Hsch & Hk & Hat & Hcs' & Hnf); [lia| | |].
  { apply Forall_insert; [by apply Forall_replicate|by exists 0]. }
  { intros _. by apply Forall_insert; [apply Forall_replicate|]. }
  cbn in Hsch. rewrite Hsch. split; [by apply Hnf|]. intros Hin. rewrite Forall_forall in Hcs'.
  specialize (Hcs' _ Hin). cbn in Hcs'. by subst k.
Qed.

(** The SQLite store's check before the lock: two connections opening one
    new database at once can both find a migration missing; the second to take
    the lock then fails on the tracking table's key, although the database was
    migrated in full by the first. *)
Theorem sqlite_open_race now :
  let turns := [0; 1; 0; 1] ++ replicate 20 0 ++ [1] in
  let '(db, cs) := schedule (check_then_lock sqlite_tracking now get_migrations) turns
                     (new_database, [Starting; Starting]) in
  cs = [Opened; OpenFailed (SqliteFailure ConstraintViolation "UNIQUE constraint failed")] ∧
  schema db = current_schema.
Proof. vm_compute. done. Qed.
