(* ===== verification/Services.v ===== *)
(** * Services and outcomes of the conversation core
      ([core/conversations/src/service_traits.rs], [service_context.rs],
      [errors.rs], [outcomes.rs], [types.rs], [inbox_v2/identity.rs])

    What a conversation operation works with: the platform's services behind
    their traits, the MLS library and the protobuf codecs as interfaces, the
    [ServiceContext] that bundles them, the errors and the observations. Every
    operation is a state-passing function that keeps the state also when it
    fails, as [&mut] arguments do; a panic is a fault of its own. *)

From Stdlib Require Import Strings.Byte Strings.String.
From stdpp Require Import base gmap strings numbers list.
From S2P Require Import Prelude Utf8 Hex Ed25519 Identity CausalHistory Storage Delivery.

(** ** Errors *)

Module KeyPackageError.
Inductive t : Type :=
| MlsVerify (e : string)
| TypeConvert (e : string)
| AuthFailed (s : Signer) (auth : AuthStatus.t)
| WrongPackage (expected : SignerKey) (got : list byte)
| Decode (e : string).
End KeyPackageError.

Module SendError.
Inductive t : Type :=
| MlsCreate (e : string)
| Delivery (e : string)
| MlsMessageError (e : string)
| MlsMergeCommit (e : string).
End SendError.

(** Errors of other crates are carried as their displayed text. *)
Module ChatError.
Inductive t : Type :=
| Protocol (e : string)
| ProtocolExpectation (got expected : string)
| DecodeError (e : string)
| UnexpectedPayload (e : string)
| BadBundleValue (e : string)
| UnknownEphemeralKey
| InvalidKeyLength
| BadParsing (what : string)
| NoConvo (id : string)
| UnsupportedConvoType (ty : string)
| Storage (e : StorageError.t)
| MlsMessageError (e : string)
| TlsCodec (e : string)
| Generic (e : string)
| KeyPackageVerify (e : string)
| Delivery (e : string)
| MlsError (e : string)
| MlsMergeCommit (e : string)
| DeMlsError (e : string)
| UnsupportedFunction (convo_id what : string)
| CannotRemoveSelf
| NotAGroupMember
| CannotMessageSelf
| Auth (signer participant : string)
| ParticipantResolution (e : string)
| KeyPackage (e : KeyPackageError.t)
| GroupCreate (e : string)
| SendFailed (e : SendError.t)
| ConversionError (e : string).
End ChatError.

(** How an operation ends other than well: an error, or a panic ([unwrap],
    [expect], [todo!]). *)
Inductive Fault : Type :=
| Error (e : ChatError.t)
| Panic.

(** ** Stateful operations *)

Definition St (S A : Type) : Type := S → S * result Fault A.

#[export] Instance st_ret {S} : MRet (St S) := λ A a s, (s, Ok a).
#[export] Instance st_bind {S} : MBind (St S) := λ A B f m s,
  match m s with
  | (s', Ok a) => f a s'
  | (s', Err e) => (s', Err e)
  end.

Definition fail {S A} (e : ChatError.t) : St S A := λ s, (s, Err (Error e)).
Definition panic {S A} : St S A := λ s, (s, Err Panic).
Definition lift {S A} (r : result ChatError.t A) : St S A := λ s, (s, map_err Error r).
Definition get {S} : St S S := λ s, (s, Ok s).
Definition modify {S} (f : S → S) : St S () := λ s, (f s, Ok ()).

(** [?] on the outcome of a call that also returned a new state. *)
Definition step {S A} (f : S → S * result ChatError.t A) : St S A := λ s,
  let '(s', r) := f s in (s', map_err Error r).

(** [for x in xs { body(x)?; }]. *)
Fixpoint for_each {S A} (xs : list A) (body : A → St S ()) : St S () :=
  match xs with
  | [] => mret ()
  | x :: xs => body x ≫= λ _, for_each xs body
  end.

(** [Option::is_some]. *)
Definition is_some {A} (o : option A) : bool := match o with Some _ => true | None => false end.

(** ** Service traits *)

(** [IdentityProvider]: who this installation is; its signatures are made
    inside the services that take it. *)
Record Ident := { id_signer_key : SignerKey; id_participant : ParticipantId }.

Class RegistrationService (R : Type) := {
  rs_register : R → Ident → list byte → R * result string ();
  rs_retrieve : R → string → result string (option (list byte));
}.

(** [None] is a panic: the in-memory store leaves removal undone. *)
Class ConversationStore (C : Type) := {
  cs_save : C → ConversationMeta → C * result StorageError.t ();
  cs_load : C → string → result StorageError.t (option ConversationMeta);
  cs_remove : C → string → option (C * result StorageError.t ());
  cs_load_all : C → result StorageError.t (list ConversationMeta);
  cs_has : C → string → result StorageError.t bool;
}.

(** What the core relies on, for kinds that are read back from their text as
    they are: one record an id, the listing and the existence
    check agree with it, and saving a record changes that record only. *)
Class ConversationStoreLaws (C : Type) {CSI : ConversationStore C} := {
  cs_ok : C → Prop;
  cs_save_ok c m c' r : cs_ok c → cs_save c m = (c', r) → cs_ok c';
  cs_load_save c m c' id : cs_ok c → cs_save c m = (c', Ok ()) →
    kind_from (kind_as_str (kind m)) = kind m →
    cs_load c' id = if decide (id = local_convo_id m) then Ok (Some m) else cs_load c id;
  cs_save_failed c m c' e id : cs_ok c → cs_save c m = (c', Err e) → cs_load c' id = cs_load c id;
  cs_load_id c id m : cs_ok c → cs_load c id = Ok (Some m) → local_convo_id m = id;
  cs_has_load c id b : cs_ok c → cs_has c id = Ok b → ∃ o, cs_load c id = Ok o ∧ b = is_some o;
  cs_load_all_elem c l m : cs_ok c → cs_load_all c = Ok l →
    m ∈ l ↔ cs_load c (local_convo_id m) = Ok (Some m);
}.

#[export] Instance mem_conversation_store : ConversationStore MemStore := {|
  cs_save m meta := (save_conversation m meta, Ok ());
  cs_load m id := Ok (load_conversation m id);
  cs_remove m id := None;
  cs_load_all m := Ok (load_conversations m);
  cs_has m id := Ok (has_conversation m id);
|}.

(** Records are filed under their own id. *)
Definition convos_filed (m : MemStore) : Prop :=
  map_Forall (λ id meta, local_convo_id meta = id) (ms_convos m).

#[export, refine] Instance mem_conversation_laws : ConversationStoreLaws MemStore :=
  {| cs_ok := convos_filed |}.
Proof.
  - intros c m c' r Hok [= <- <-]. unfold convos_filed, save_conversation. cbn.
    by apply map_Forall_insert_2.
  - intros c m c' id _ [= <-]. cbn. unfold load_conversation, save_conversation. cbn.
    case_decide; [subst; by rewrite lookup_insert_eq|by rewrite lookup_insert_ne].
  - done.
  - intros c id m Hok [= H]. by apply Hok in H.
  - intros c id b _ [= <-]. cbn. unfold has_conversation, load_conversation.
    eexists. split; [done|]. by destruct (ms_convos c !! id).
  - intros c l m Hok [= <-]. cbn. unfold load_conversations, load_conversation.
    rewrite list_elem_of_fmap. split.
    + intros ([id m'] & -> & H%elem_of_map_to_list). cbn. by rewrite (Hok _ _ H), H.
    + intros [= H]. exists (local_convo_id m, m). split; [done|]. by apply elem_of_map_to_list.
Defined.

(** Durations in milliseconds. *)
Class WakeupService (W : Type) := { wakeup_in : W → N → string → W }.

(** ** Wire formats *)

(** Envelopes of the protobuf crate; encryptions other than the plaintext
    marker are carried opaquely. *)
Record EnvelopeV1 := { conversation_hint : string; salt : N; ev_payload : list byte }.
Inductive Encryption : Type := Plaintext (payload : list byte) | OtherEncryption (raw : list byte).
Record EncryptedPayload := { encryption : option Encryption }.

Record GroupV1HeavyInvite := { welcome_bytes : list byte }.
Inductive InviteType : Type :=
| InviteGroupV1 (inv : GroupV1HeavyInvite)
| InviteGroupV2 (welcome : list byte)
| InviteGroupV3 (welcome : list byte).
Record InboxV2Frame := { if_payload : option InviteType }.

Record GroupV3Frame := { v3_payload : option (list byte) }.
Record GroupV3Payload := { encrypted_header : list byte; encrypted_frame : list byte }.

(** [prost]: encoding into a [Vec] cannot fail. *)
Class Prost := {
  envelope_encode : EnvelopeV1 → list byte;
  envelope_decode : list byte → result string EnvelopeV1;
  encrypted_encode : EncryptedPayload → list byte;
  encrypted_decode : list byte → result string EncryptedPayload;
  reliable_encode : ReliablePayload → list byte;
  reliable_decode : list byte → result string ReliablePayload;
  inbox_encode : InboxV2Frame → list byte;
  inbox_decode : list byte → result string InboxV2Frame;
  v3_frame_encode : GroupV3Frame → list byte;
  v3_frame_decode : list byte → result string GroupV3Frame;
  v3_payload_encode : GroupV3Payload → list byte;
  v3_payload_decode : list byte → result string GroupV3Payload;
}.

(** What was encoded decodes to itself; a timestamp is an [int32] field. *)
Class ProstLaws (PB : Prost) := {
  envelope_rt e : envelope_decode (envelope_encode e) = Ok e;
  encrypted_rt e : encrypted_decode (encrypted_encode e) = Ok e;
  reliable_rt r : (i32_MIN ≤ p_lamport_timestamp r ≤ i32_MAX)%Z →
    reliable_decode (reliable_encode r) = Ok r;
  reliable_range b r : reliable_decode b = Ok r →
    (i32_MIN ≤ p_lamport_timestamp r ≤ i32_MAX)%Z;
  inbox_rt f : inbox_decode (inbox_encode f) = Ok f;
  v3_frame_rt f : v3_frame_decode (v3_frame_encode f) = Ok f;
  v3_payload_rt p : v3_payload_decode (v3_payload_encode p) = Ok p;
}.

(** [AddressedEnvelope::new]. *)
Definition addressed_envelope {PB : Prost} (address convo_id : string) (data : list byte)
  : AddressedEnvelope :=
  {| delivery_address := address;
     env_data := envelope_encode
       {| conversation_hint := convo_id; salt := 0; ev_payload := data |} |}.

(** [AddressedEncryptedPayload::into_envelope]. *)
Definition into_envelope {PB : Prost} (address : string) (data : EncryptedPayload)
    (convo_id : string) : AddressedEnvelope :=
  addressed_envelope address convo_id (encrypted_encode data).

Record ConvoMetadata := { md_name : string; md_desc : string }.

(** ** OpenMLS

    The part of the library the conversations call: [P] is the provider with
    its key store, [G] a group. Errors are displayed texts; what a call does
    to the group or the store on an error is left open. *)

Record Member := { m_index : N; m_signature_key : list byte; m_credential : list byte }.

(** [ProcessMessageError]: whether it is [CannotDecryptOwnMessage]. *)
Record ProcessError := { pe_own_message : bool; pe_text : string }.

(** [ProcessedMessageContent] and [ProcessedMessage]; a sender that is not a
    member has no leaf index. *)
Inductive ProcessedContent (SC : Type) : Type :=
| ApplicationMessage (bytes : list byte)
| StagedCommitMessage (commit : SC)
| OtherContent.
Arguments ApplicationMessage {SC} bytes.
Arguments StagedCommitMessage {SC} commit.
Arguments OtherContent {SC}.

Record ProcessedMessage (SC : Type) := { pm_sender : option N; pm_content : ProcessedContent SC }.
Arguments pm_sender {SC}.
Arguments pm_content {SC}.

Class OpenMls (P G : Type) := {
  KeyPackageIn : Type;
  KeyPackage : Type;
  MlsMessageIn : Type;
  MlsMessageOut : Type;
  ProtocolMessage : Type;
  StagedCommit : Type;
  Welcome : Type;
  mls_new : P → Ident → option (list byte) → P * result string G;
  mls_join : P → Welcome → P * result string G;
  mls_load : P → list byte → result string (option G);
  mls_group_id : G → list byte;
  mls_epoch : G → N;
  mls_is_active : G → bool;
  mls_members : G → list Member;
  mls_member_at : G → N → option Member;
  mls_member_participant : Member → result string ParticipantId;
  mls_own_leaf : G → N;
  mls_extensions : G → list (N * list byte);
  mls_create_message : P → Ident → G → list byte → P * G * result string MlsMessageOut;
  mls_process : P → G → ProtocolMessage →
    P * G * result ProcessError (ProcessedMessage StagedCommit);
  mls_merge_staged : P → G → StagedCommit → P * G * result string ();
  mls_epoch_authenticator : StagedCommit → option (list byte);
  mls_add_members : P → Ident → G → list KeyPackage →
    P * G * result string (MlsMessageOut * MlsMessageOut);
  mls_remove_members : P → Ident → G → list N → P * G * result string MlsMessageOut;
  mls_merge_pending : P → G → P * G * result string ();
  mls_clear_pending : P → G → P * G * result string ();
  mls_to_bytes : MlsMessageOut → result string (list byte);
  mls_from_bytes_exact : list byte → result string MlsMessageIn;
  mls_from_bytes : list byte → result string MlsMessageIn;
  mls_into_protocol : MlsMessageIn → result string ProtocolMessage;
  mls_extract_welcome : MlsMessageIn → option Welcome;
  mls_message_epoch : ProtocolMessage → N;
  kp_build : P → Ident → P * result string KeyPackage;
  kp_serialize : KeyPackage → result string (list byte);
  kp_deserialize : list byte → result string KeyPackageIn;
  kp_deserialize_exact : list byte → result string KeyPackageIn;
  kp_validate : KeyPackageIn → result string KeyPackage;
  kp_init_key : KeyPackage → list byte;
  kp_signature_key : KeyPackage → list byte;
  kp_credential : KeyPackage → list byte;
  kp_participant : KeyPackage → result string ParticipantId;
}.

(** ** The service context *)

Section context.
Context (DS RS CS P WS : Type).

Record ServiceContext := {
  cx_ds : DS;
  cx_registry : RS;
  cx_store : CS;
  cx_identity : Ident;
  cx_provider : P;
  cx_causal : Inner;
  cx_wakeup : WS;
}.
End context.
Arguments cx_ds {_ _ _ _ _}.
Arguments cx_registry {_ _ _ _ _}.
Arguments cx_store {_ _ _ _ _}.
Arguments cx_identity {_ _ _ _ _}.
Arguments cx_provider {_ _ _ _ _}.
Arguments cx_causal {_ _ _ _ _}.
Arguments cx_wakeup {_ _ _ _ _}.

Section updates.
Context {DS RS CS P WS : Type}.
Implicit Types cx : ServiceContext DS RS CS P WS.

Definition set_ds (d : DS) cx : ServiceContext DS RS CS P WS :=
  {| cx_ds := d; cx_registry := cx_registry cx; cx_store := cx_store cx;
     cx_identity := cx_identity cx; cx_provider := cx_provider cx; cx_causal := cx_causal cx;
     cx_wakeup := cx_wakeup cx |}.
Definition set_registry (r : RS) cx : ServiceContext DS RS CS P WS :=
  {| cx_ds := cx_ds cx; cx_registry := r; cx_store := cx_store cx;
     cx_identity := cx_identity cx; cx_provider := cx_provider cx; cx_causal := cx_causal cx;
     cx_wakeup := cx_wakeup cx |}.
Definition set_store (c : CS) cx : ServiceContext DS RS CS P WS :=
  {| cx_ds := cx_ds cx; cx_registry := cx_registry cx; cx_store := c;
     cx_identity := cx_identity cx; cx_provider := cx_provider cx; cx_causal := cx_causal cx;
     cx_wakeup := cx_wakeup cx |}.
Definition set_provider (p : P) cx : ServiceContext DS RS CS P WS :=
  {| cx_ds := cx_ds cx; cx_registry := cx_registry cx; cx_store := cx_store cx;
     cx_identity := cx_identity cx; cx_provider := p; cx_causal := cx_causal cx;
     cx_wakeup := cx_wakeup cx |}.
Definition set_causal (i : Inner) cx : ServiceContext DS RS CS P WS :=
  {| cx_ds := cx_ds cx; cx_registry := cx_registry cx; cx_store := cx_store cx;
     cx_identity := cx_identity cx; cx_provider := cx_provider cx; cx_causal := i;
     cx_wakeup := cx_wakeup cx |}.
End updates.

(** ** Outcomes *)

Record Content := { ct_bytes : list byte; ct_sender : AuthenticatedSigner; ct_message_id : string }.
Inductive Observation : Type := ObsContent (c : Content) | SignersChanged.
Record ConvoOutcome := { co_convo_id : string; observations : list Observation }.
Definition outcome_empty (id : string) : ConvoOutcome :=
  {| co_convo_id := id; observations := [] |}.

Inductive ConversationClass : Type := Dm | GroupClass.
Definition class_from_kind (k : ConversationKind) : option ConversationClass :=
  match k with GroupV1 => Some GroupClass | UnknownKind _ => None end.

Record NewConversation := { nc_convo_id : string; nc_class : ConversationClass }.
Record InboxOutcome := { new_conversation : NewConversation; initial : option ConvoOutcome }.
Inductive PayloadOutcome : Type :=
| OutEmpty
| OutConvo (c : ConvoOutcome)
| OutInbox (i : InboxOutcome).

(** ** Lemmas on stateful operations *)

Lemma st_bind_Ok {S A B} (m : St S A) (f : A → St S B) s s' b :
  (m ≫= f) s = (s', Ok b) ↔ ∃ s1 a, m s = (s1, Ok a) ∧ f a s1 = (s', Ok b).
Proof.
  unfold mbind, st_bind. destruct (m s) as [s1 [a|e]].
  - split; [eauto|]. intros (? & ? & [= <- <-] & H). exact H.
  - split; [done|]. intros (? & ? & [=] & _).
Qed.

Lemma st_bind_Err {S A B} (m : St S A) (f : A → St S B) s s' e :
  (m ≫= f) s = (s', Err e) ↔
  m s = (s', Err e) ∨ ∃ s1 a, m s = (s1, Ok a) ∧ f a s1 = (s', Err e).
Proof.
  unfold mbind, st_bind. destruct (m s) as [s1 [a|e']].
  - split; [eauto|]. intros [[=]|(? & ? & [= <- <-] & H)]. exact H.
  - split; [|intros [H|(? & ? & [=] & _)]; congruence]. intros [= <- <-]. auto.
Qed.

(** A predicate on states that a step keeps whatever it returns. *)
Definition keeps {S A} (I : S → S → Prop) (m : St S A) : Prop := ∀ s, I s (m s).1.

Section keeps.
Context {S : Type} (I : S → S → Prop) `{!Reflexive I, !Transitive I}.

Lemma keeps_ret {A} (a : A) : keeps I (mret a).
Proof. intros s. apply reflexivity. Qed.
Lemma keeps_lift {A} (r : result ChatError.t A) : keeps I (lift r).
Proof. intros s. apply reflexivity. Qed.
Lemma keeps_fail {A} e : keeps I (fail e : St S A).
Proof. intros s. apply reflexivity. Qed.
Lemma keeps_panic {A} : keeps I (panic : St S A).
Proof. intros s. apply reflexivity. Qed.
Lemma keeps_get : keeps I (get : St S S).
Proof. intros s. apply reflexivity. Qed.

Lemma keeps_bind {A B} (m : St S A) (f : A → St S B) :
  keeps I m → (∀ a, keeps I (f a)) → keeps I (m ≫= f).
Proof.
  intros Hm Hf s. unfold mbind, st_bind. specialize (Hm s).
  destruct (m s) as [s1 [a|e]]; cbn in *; [|done]. etrans; [done|apply Hf].
Qed.

Lemma keeps_for_each {A} (xs : list A) (body : A → St S ()) :
  (∀ x, keeps I (body x)) → keeps I (for_each xs body).
Proof.
  intros Hb. induction xs as [|x xs IH]; cbn; [apply keeps_ret|].
  apply keeps_bind; [done|]. intros _. exact IH.
Qed.
End keeps.

(** [solve_keeps tac]: walk an operation's body, leaving the calls [tac]
    knows. *)
Ltac solve_keeps tac :=
  repeat first
    [ progress cbv zeta
    | tac
    | apply keeps_ret; exact _ | apply keeps_lift; exact _ | apply keeps_fail; exact _
    | apply keeps_panic; exact _ | apply keeps_get; exact _
    | apply keeps_for_each; [exact _..|intros ?]
    | apply keeps_bind; [exact _| |intros ?]
    | match goal with
      | |- keeps _ (match ?x with _ => _ end) => destruct x
      end ].
