(* ===== verification/MlsIdentity.v ===== *)
(** * How a client appears to others ([core/conversations/src/identity.rs],
      [inbox_v2/identity.rs], [utils.rs], the [IdentityProvider] of
      [installation.rs], [integration_tests_core/src/test_ident.rs])

    The identity a platform supplies, wrapped for MLS: the credential put in a
    leaf, the signer read back from one, the signatures made for it, and the
    names shown. The credential types of OpenMLS are an interface. The theorem:
    what the others read off an installation's leaf is its key and its account,
    and what it signs for MLS verifies under that key and no second reading of
    the credential is possible. *)

From Stdlib Require Import Strings.Byte Strings.String.
From stdpp Require Import base gmap strings numbers list.
From S2P Require Import Prelude Utf8 Hex Ed25519 Context Addr Identity Storage Installation.
From S2P Require Import Text CausalHistory Delivery Services.

(** ** Names shown ([utils.rs], [identity.rs], [types.rs]) *)

Section shown.
Context {HX : Hex}.

(** [hex_trunc], also written out in [Debug for AddressedEnvelope]. *)
Definition hex_trunc (data : list byte) : string :=
  if length data <=? 8 then bytes_str (hex_encode data)
  else (bytes_str (hex_encode (take 4 data)) ++ ".." ++
        bytes_str (hex_encode (drop (length data - 4) data)))%string.

(** [trunc]: both collects are strings again. *)
Definition trunc (data : string) : string :=
  let cs := chars data in
  if length cs <=? 8 then data
  else
    let head := bytes_str (concat (take 4 cs)) in
    let last := bytes_str (concat (take 4 (rev cs))) in
    let tail := bytes_str (concat (rev (chars last))) in
    (head ++ ".." ++ tail)%string.

(** [Debug]; [debug_str] is that of a string. *)
Definition signer_debug (debug_str : string → string) (s : SignerKey) : string :=
  ("SignerKey(" ++ debug_str (bytes_str (hex_encode (signer_bytes s))) ++ ")")%string.
Definition envelope_debug (debug_str : string → string) (e : AddressedEnvelope) : string :=
  ("AddressedEnvelope { addr: " ++ debug_str (delivery_address e) ++ ", data: " ++
   debug_str (hex_trunc (env_data e)) ++ " }")%string.
(** [Display for AuthStatus]. *)
Definition auth_status_display (s : AuthStatus.t) : string := AuthStatus.as_str s.
End shown.

(** ** Credentials *)

(** [openmls::credentials]: a basic credential from its identity, and the
    identity of one that is basic. *)
Class Credentials := {
  Credential : Type;
  basic_credential : list byte → Credential;
  basic_identity : Credential → result string (list byte);
}.
Class CredentialsLaws (CR : Credentials) := {
  basic_identity_new b : basic_identity (basic_credential b) = Ok b;
}.

Inductive TypeConversionError : Type := ParticipantIdError (e : string).

Section conversions.
Context {CR : Credentials}.

(** [From<ParticipantId> for Credential] and [TryFrom<Credential> for
    ParticipantId]. *)
Definition credential_from (pid : ParticipantId) : Credential := basic_credential (participant_bytes pid).
Definition participant_try_from (cred : Credential) : result TypeConversionError ParticipantId :=
  b ← map_err ParticipantIdError (basic_identity cred); Ok (Participant b).

(** [openmls::group::Member] and [LeafNode]: what the sources read of them. *)
Record MlsMember := { mm_signature_key : list byte; mm_credential : Credential }.
Record LeafNode := { ln_signature_key : list byte; ln_credential : Credential }.

Definition signer_key_from_leaf (leaf : LeafNode) : SignerKey := Signer_key (ln_signature_key leaf).
Definition signer_from_member (member : MlsMember) : result TypeConversionError Signer :=
  pid ← participant_try_from (mm_credential member);
  Ok {| signer := Signer_key (mm_signature_key member); participant_id := pid |}.
Definition signer_from_leaf_node (leaf : LeafNode) : result TypeConversionError Signer :=
  pid ← participant_try_from (ln_credential leaf);
  Ok {| signer := signer_key_from_leaf leaf; participant_id := pid |}.
End conversions.

(** ** Identity providers *)

(** [IdentityProvider]. *)
Class IdentityProvider (T : Type) := {
  ip_signer_key : T → SignerKey;
  ip_participant_id : T → ParticipantId;
  ip_display_name : T → string;
  ip_sign : T → list byte → Ed25519Signature;
}.

(** [MlsIdentityProvider]. *)
Record MlsIdentityProvider (T : Type) := MlsIdentity { mip_inner : T }.
Arguments MlsIdentity {T}.
Arguments mip_inner {T}.

#[export] Instance mls_identity_provider {T : Type} {IP : IdentityProvider T}
  : IdentityProvider (MlsIdentityProvider T) := {|
  ip_signer_key p := ip_signer_key (mip_inner p);
  ip_participant_id p := ip_participant_id (mip_inner p);
  ip_display_name p := ip_display_name (mip_inner p);
  ip_sign p := ip_sign (mip_inner p);
|}.

Inductive SignatureScheme : Type := ED25519.

Section mls.
Context {CR : Credentials} {T : Type} {IP : IdentityProvider T}.

Record CredentialWithKey := { cwk_credential : Credential; cwk_signature_key : list byte }.

Definition get_credential (p : MlsIdentityProvider T) : CredentialWithKey :=
  {| cwk_credential := basic_credential (participant_bytes (ip_participant_id p));
     cwk_signature_key := signer_bytes (ip_signer_key p) |}.

(** [openmls_traits::signatures::Signer]. *)
Definition mls_sign (p : MlsIdentityProvider T) (payload : list byte) : result string (list byte) :=
  Ok (sig_bytes (ip_sign (mip_inner p) payload)).
Definition signature_scheme (p : MlsIdentityProvider T) : SignatureScheme := ED25519.

(** What the conversations are given of it. *)
Definition provider_ident (p : MlsIdentityProvider T) : Ident :=
  {| id_signer_key := ip_signer_key p; id_participant := ip_participant_id p |}.

(** The leaf and the member a group shows for it. *)
Definition leaf_of (c : CredentialWithKey) : LeafNode :=
  {| ln_signature_key := cwk_signature_key c; ln_credential := cwk_credential c |}.
Definition member_of (c : CredentialWithKey) : MlsMember :=
  {| mm_signature_key := cwk_signature_key c; mm_credential := cwk_credential c |}.
End mls.

Section providers.
Context {HX : Hex} {D : Dalek}.

Definition inst_display_name (i : Installation) : string := trunc (signer_to_string (inst_signer i)).
Definition inst_sign (i : Installation) (payload : list byte) : Ed25519Signature :=
  sign (inst_signing_key i) payload.

#[export] Instance installation_identity : IdentityProvider Installation := {|
  ip_signer_key := inst_signer;
  ip_participant_id := inst_participant_id;
  ip_display_name := inst_display_name;
  ip_sign := inst_sign;
|}.

(** [TestIdent]: a name for the participant, and a key drawn. *)
Record TestIdent := { ti_name : string; ti_signer : SignerKey; ti_signing_key : Ed25519SigningKey }.
Definition test_ident_new (name : string) (drawn : Ed25519SigningKey) : TestIdent :=
  {| ti_name := name; ti_signer := signer_from_key (verifying_key drawn); ti_signing_key := drawn |}.

#[export] Instance test_identity : IdentityProvider TestIdent := {|
  ip_signer_key := ti_signer;
  ip_participant_id i := Participant (str_bytes (ti_name i));
  ip_display_name := ti_name;
  ip_sign i := sign (ti_signing_key i);
|}.

(** [TestLogosAccount::addr] of the message-exchange example; an error is the
    panic of [expect]. *)
Definition test_account_addr (key : Ed25519SigningKey) : result AccountAddrError.t AccountAddr :=
  addr_try_from (key_bytes (verifying_key key)).

(** [AcceptAllAuth]: the registry its clones share. *)
Record AcceptAllAuth := { aa_signers : list (ParticipantId * list SignerKey) }.
Definition accept_all_default : AcceptAllAuth := {| aa_signers := [] |}.

Fixpoint entry_push (p : ParticipantId) (s : SignerKey) (m : list (ParticipantId * list SignerKey))
  : list (ParticipantId * list SignerKey) :=
  match m with
  | [] => [(p, [s])]
  | (q, l) :: m => if decide (q = p) then (q, l ++ [s]) :: m else (q, l) :: entry_push p s m
  end.
Fixpoint entry_get (p : ParticipantId) (m : list (ParticipantId * list SignerKey)) : option (list SignerKey) :=
  match m with
  | [] => None
  | (q, l) :: m => if decide (q = p) then Some l else entry_get p m
  end.

Definition endorse (a : AcceptAllAuth) (p : ParticipantId) (s : SignerKey) : AcceptAllAuth :=
  {| aa_signers := entry_push p s (aa_signers a) |}.
Definition register {T : Type} {IP : IdentityProvider T} (a : AcceptAllAuth) (ident : T) : AcceptAllAuth :=
  endorse a (ip_participant_id ident) (ip_signer_key ident).

Definition accept_all_auth (a : AcceptAllAuth) : AuthService string := {|
  validate_signer _ _ := Ok AuthResult.Valid;
  signers_for_participant p :=
    ok_or (entry_get p (aa_signers a)) ("no signers registered for " ++ participant_to_string p)%string;
|}.
End providers.

(** ** Lemmas *)

Section names.
Context {HX : Hex} {HL : HexLaws HX}.

Lemma chars_valid s :
  utf8_valid (str_bytes s) = true →
  bytes_str (concat (chars s)) = s ∧ Forall one_char (chars s) ∧
  Forall (λ c, ∀ r, utf8_valid (c ++ r) = utf8_valid r) (chars s).
Proof.
  intros Hv. destruct (chars_from_valid _ Hv) as (_ & Hc & H1 & H2). unfold chars. split_and!; [|done..].
  rewrite Hc. apply string_of_list_byte_of_string.
Qed.

(** [trunc] keeps the first and last four characters of a long text, and cuts
    none of them. *)
Lemma trunc_spec s :
  utf8_valid (str_bytes s) = true → 8 < length (chars s) →
  trunc s = (bytes_str (concat (take 4 (chars s))) ++ ".." ++
             bytes_str (concat (drop (length (chars s) - 4) (chars s))))%string.
Proof.
  intros Hv Hl. destruct (chars_valid s Hv) as (_ & H1 & _). unfold trunc.
  assert (take 4 (rev (chars s)) = rev (drop (length (chars s) - 4) (chars s))) as E.
  { rewrite firstn_rev. done. }
  destruct (Nat.leb_spec (length (chars s)) 8); [lia|]. do 2 f_equal. rewrite E, chars_concat.
  - by rewrite rev_involutive.
  - apply Forall_rev. by apply Forall_drop.
Qed.

Lemma ascii_one_char b : is_ascii b = true → one_char [b].
Proof.
  intros Hb. exists b, []. split_and!; [done| |constructor]. destruct b; try reflexivity; discriminate.
Qed.

Lemma chars_ascii l : Forall (λ b, is_ascii b = true) l → chars (bytes_str l) = map (λ b, [b]) l.
Proof.
  intros Hl. assert (l = concat (map (λ b, [b]) l)) as E by (induction l; cbn; f_equal; inversion Hl; auto).
  rewrite E at 1. apply chars_concat. apply Forall_map. eapply Forall_impl; [exact Hl|]. apply ascii_one_char.
Qed.

Lemma concat_singletons {A} (l : list A) : concat (map (λ x, [x]) l) = l.
Proof. induction l as [|x l IH]; [done|]. cbn. by rewrite IH. Qed.
End names.

Section presented.
Context {HX : Hex} {HL : HexLaws HX} {D : Dalek} {DL : DalekLaws D} {CR : Credentials} {CL : CredentialsLaws CR}.

(** The signer of an installation is the public half of its signing key. *)
Definition inst_wf (i : Installation) : Prop :=
  inst_signer i = signer_from_key (verifying_key (inst_signing_key i)) ∧ addr_wf (inst_account i).

Lemma complete_wf sk account : addr_wf account → inst_wf (complete (pending_generate sk) account).
Proof. by split. Qed.
Lemma decode_wf b i : installation_decode b = Ok i → inst_wf i.
Proof. intros (_ & -> & Hw)%encode_decode_installation. by split. Qed.

(** A generated key is an address. *)
Lemma test_account_addr_Ok key : test_account_addr key = Ok (addr_from_key (verifying_key key)).
Proof. apply addr_try_from_Ok. split; [apply addr_from_key_wf|done]. Qed.

Lemma participant_roundtrip pid : participant_try_from (credential_from pid) = Ok pid.
Proof. unfold participant_try_from, credential_from. rewrite basic_identity_new. by destruct pid. Qed.

Lemma credential_from_inj p q : credential_from p = credential_from q → p = q.
Proof. intros E%(f_equal participant_try_from). rewrite !participant_roundtrip in E. congruence. Qed.

(** A member reads off the leaf what the provider put there. *)
Lemma presented_signer {T : Type} {IP : IdentityProvider T} (p : MlsIdentityProvider T) :
  signer_from_member (member_of (get_credential p)) =
    Ok {| signer := ip_signer_key p; participant_id := ip_participant_id p |} ∧
  signer_from_leaf_node (leaf_of (get_credential p)) = signer_from_member (member_of (get_credential p)).
Proof.
  unfold signer_from_member, signer_from_leaf_node, signer_key_from_leaf. cbn.
  change (basic_credential (participant_bytes ?x)) with (credential_from x).
  rewrite participant_roundtrip. cbn. by destruct (ip_signer_key (mip_inner p)).
Qed.

(** Eight hex digits of a key are shown. *)
Lemma display_name_digits (i : Installation) :
  length (signer_bytes (inst_signer i)) = KEY_LEN →
  let digits := hex_encode (signer_bytes (inst_signer i)) in
  inst_display_name i = (bytes_str (take 4 digits) ++ ".." ++ bytes_str (drop 60 digits))%string.
Proof.
  intros Hl digits. assert (length digits = 64) as Hd by (unfold digits; rewrite hex_length, Hl; done).
  assert (chars (signer_to_string (inst_signer i)) = map (λ b, [b]) digits) as Hc
    by apply chars_ascii, hex_encode_ascii.
  unfold inst_display_name. rewrite trunc_spec.
  - rewrite Hc, length_map, Hd, firstn_map, skipn_map, !concat_singletons. done.
  - unfold signer_to_string. rewrite list_byte_of_string_of_list_byte. apply hex_encode_utf8.
  - rewrite Hc, length_map, Hd. lia.
Qed.

(** C16. An installation is to others what it is: whoever reads its leaf, in a
    member list or in a key package, finds its signing key and the account it
    runs for; the key is a canonical Ed25519 key; every signature it makes for
    MLS is 64 bytes and verifies under that key; two installations with one
    credential are one; and the name it shows is the first and last four hex
    digits of the key. *)
Theorem presented_identity_holds i j :
  inst_wf i → inst_wf j →
  let p := MlsIdentity i in
  (∃ s, signer_from_member (member_of (get_credential p)) = Ok s ∧
        signer_from_leaf_node (leaf_of (get_credential p)) = Ok s ∧
        member_try_from s = Ok {| ms_signer_key := inst_signer i; ms_account := inst_account i |}) ∧
  (∃ k, from_canonical_slice (cwk_signature_key (get_credential p)) = Ok k ∧
        ∀ payload, ∃ sig, mls_sign p payload = Ok sig ∧ length sig = SIG_LEN ∧
          verify k payload (Signature sig) = Ok ()) ∧
  (get_credential p = get_credential (MlsIdentity j) →
     inst_signer i = inst_signer j ∧ inst_account i = inst_account j) ∧
  ip_display_name p =
    (bytes_str (take 4 (hex_encode (signer_bytes (inst_signer i)))) ++ ".." ++
     bytes_str (drop 60 (hex_encode (signer_bytes (inst_signer i)))))%string.
Proof.
  intros [Hi Ai] [Hj Aj] p. destruct (presented_signer p) as [Hm Hl].
  assert (∀ i, addr_wf (inst_account i) → account_of (inst_participant_id i) = Ok (inst_account i)) as Hacc.
  { intros i' Ha. unfold account_of, inst_participant_id, account_id. cbn [participant_bytes].
    by rewrite (proj2 (addr_try_from_Ok _ (inst_account i'))). }
  split_and!.
  - eexists. split; [exact Hm|]. split; [by rewrite Hl|]. unfold member_try_from. cbn.
    by rewrite Hacc.
  - exists (verifying_key (inst_signing_key i)). cbn. rewrite Hi. split.
    { unfold from_canonical_slice. rewrite decide_True by apply length_key_bytes. apply verifying_key_wf. }
    intros payload. eexists. split; [done|]. split; [apply sign_len|]. apply verify_sign.
  - intros E. pose proof (f_equal (λ c, signer_from_member (member_of c)) E) as E2. cbn beta in E2.
    rewrite Hm, (proj1 (presented_signer (MlsIdentity j))) in E2. injection E2 as Es Ep. cbn in Es, Ep.
    split; [done|].
    assert (inst_participant_id i = inst_participant_id j) as Ep' by (unfold inst_participant_id, account_id; congruence).
    apply (f_equal account_of) in Ep'. rewrite !Hacc in Ep' by done. congruence.
  - apply display_name_digits. rewrite Hi. apply length_key_bytes.
Qed.
End presented.

Section accepts.
Context {HX : Hex}.

Lemma entry_get_push p q s m :
  entry_get p (entry_push q s m) =
  if decide (p = q) then Some (default [] (entry_get q m) ++ [s]) else entry_get p m.
Proof.
  induction m as [|[r l] m IH]; cbn.
  - repeat case_decide; naive_solver.
  - destruct (decide (r = q)) as [->|Hq]; cbn.
    + destruct (decide (q = p)) as [->|]; [by rewrite decide_True|by rewrite decide_False by congruence].
    + destruct (decide (r = p)) as [->|]; [by rewrite decide_False|done].
Qed.

(** After any endorsements an account resolves to the signers listed under it,
    in order, and one nobody listed does not resolve. *)
Theorem accept_all_resolves es p :
  let a := foldl (λ a e, endorse a e.1 e.2) accept_all_default es in
  signers_for_participant (AuthService := accept_all_auth a) p =
  match filter (λ e, e.1 = p) es with
  | [] => Err ("no signers registered for " ++ participant_to_string p)%string
  | l => Ok l.*2
  end.
Proof.
  cbn zeta. cbn [signers_for_participant accept_all_auth].
  assert (entry_get p (aa_signers (foldl (λ a e, endorse a e.1 e.2) accept_all_default es)) =
    match filter (λ e, e.1 = p) es with [] => None | l => Some l.*2 end) as ->; [|by destruct (filter _ es)].
  induction es as [|e es IH] using rev_ind; [done|]. rewrite foldl_snoc. cbn [endorse aa_signers].
  rewrite entry_get_push, filter_app, (filter_singleton (λ e, e.1 = p) e []). case_decide as Hp.
  - rewrite decide_True by done. subst. rewrite IH. destruct (filter _ es); [done|]. cbn. by rewrite fmap_app.
  - rewrite decide_False by congruence. by rewrite app_nil_r.
Qed.
End accepts.

(** ** Witnesses *)

(** A basic credential is its identity; another kind has none. *)
Definition credentials_ref : Credentials := {|
  Credential := option (list byte);
  basic_credential := Some;
  basic_identity c := ok_or c "the credential is not basic"%string;
|}.
#[export] Instance credentials_ref_laws : CredentialsLaws credentials_ref.
Proof. by constructor. Qed.

Lemma presented_identity_holds_witness :
  ip_display_name (IdentityProvider := mls_identity_provider (IP := installation_identity (HX := hex_ref) (D := dalek_ref)))
    (MlsIdentity demo_inst) =
  (bytes_str (take 4 (hex_encode (Hex := hex_ref) (signer_bytes (inst_signer demo_inst)))) ++ ".." ++
   bytes_str (drop 60 (hex_encode (Hex := hex_ref) (signer_bytes (inst_signer demo_inst)))))%string.
Proof.
  assert (inst_wf (D := dalek_ref) demo_inst) as H.
  { split; [done|]. apply (addr_from_key_wf (DL := dalek_ref_laws)). }
  exact (proj2 (proj2 (proj2 (presented_identity_holds (HX := hex_ref) (HL := hex_ref_laws) (D := dalek_ref)
    (DL := dalek_ref_laws) (CR := credentials_ref) (CL := credentials_ref_laws) demo_inst demo_inst H H)))).
Defined.
