(* ===== verification/SqliteStore.v ===== *)
(** * The SQLite store ([extensions/sqlite/src/common.rs], [lib.rs],
      [identity.rs], [errors.rs])

    Opening a database, keyed or not, over the connection's interface, and
    the two record stores as queries on its tables; both discharge the
    contracts the core and the client are verified against. *)

From Stdlib Require Import Strings.Byte Strings.String.
From stdpp Require Import base gmap strings numbers list.
From S2P Require Import Prelude Utf8 Hex Storage Delivery Installation Sql Services.

(** [Display for rusqlite::Error]. *)
Class RusqliteDisplay := { show_rusqlite : RusqliteError → string }.

Section errors.
Context {RD : RusqliteDisplay}.

Definition map_rusqlite_error (e : RusqliteError) : StorageError.t :=
  StorageError.Database (show_rusqlite e).

Definition map_optional_row {T} (r : result RusqliteError T) : result StorageError.t (option T) :=
  match r with
  | Ok value => Ok (Some value)
  | Err QueryReturnedNoRows => Ok None
  | Err err => Err (map_rusqlite_error err)
  end.
End errors.

(** ** Opening *)

Record DbKey := { db_key_bytes : list byte }.

Inductive StorageConfig : Type :=
  | InMemory
  | File (path : string)
  | Encrypted (path key : string)
  | EncryptedWithKey (path : string) (key : DbKey).

(** A double quote, as a string. *)
Definition quote : string := String (Ascii.ascii_of_nat 34) EmptyString.

(** Each byte as two lowercase hex digits. *)
Definition hex_key (key : DbKey) : string :=
  string_of_list_byte (flat_map hex_byte (db_key_bytes key)).

(** [DbKey::pragma]. *)
Definition key_pragma (key : DbKey) : string :=
  ("PRAGMA key = " ++ quote ++ "x'" ++ hex_key key ++ "'" ++ quote ++ ";")%string.

(** [Debug]; [debug_str] is that of a string. *)
Section debug.
Context (debug_str : string → string).
Definition db_key_debug (key : DbKey) : string := ("DbKey(" ++ debug_str "[redacted]" ++ ")")%string.
Definition storage_config_debug (c : StorageConfig) : string :=
  match c with
  | InMemory => "InMemory"
  | File path => "File(" ++ debug_str path ++ ")"
  | Encrypted path _ =>
      "Encrypted { path: " ++ debug_str path ++ ", key: " ++ debug_str "[redacted]" ++ " }"
  | EncryptedWithKey path key =>
      "EncryptedWithKey { path: " ++ debug_str path ++ ", key: " ++ db_key_debug key ++ " }"
  end%string.
End debug.

(** What is asked of a connection, in order. *)
Inductive Command : Type :=
  | OpenInMemory
  | OpenPath (path : string)
  | PragmaUpdate (name value : string)
  | ExecuteBatch (sql : string)
  | BusyTimeout (secs : N)
  | QuerySchema
  | SetImmediate.

Section opening.
(** How the connection answers a command after those before it. *)
Context {RD : RusqliteDisplay} (answer : list Command → Command → result RusqliteError ()).

(** A command sent, its error mapped; the commands sent so far are kept. *)
Definition Db (A : Type) : Type := list Command → list Command * result StorageError.t A.
Definition send (c : Command) (f : RusqliteError → StorageError.t) : Db () :=
  λ h, (h ++ [c], map_err f (answer h c)).
Definition then_ {A B} (m : Db A) (k : Db B) : Db B :=
  λ h, match m h with (h, Ok _) => k h | (h, Err e) => (h, Err e) end.
Definition skip : Db () := λ h, (h, Ok ()).

Definition is_not_a_database (e : RusqliteError) : bool :=
  match e with SqliteFailure NotADatabase _ => true | _ => false end.

Definition wrong_key : StorageError.t :=
  StorageError.Database ("the database key is incorrect, the file is not a SQLCipher database, or it was "
    ++ "written in the other key form (a passphrase-keyed database does not open with a "
    ++ "raw key, and the reverse)").

Definition verify_key : Db () :=
  send QuerySchema (λ e, if is_not_a_database e then wrong_key else map_rusqlite_error e).

Definition encrypted (c : StorageConfig) : bool :=
  match c with InMemory | File _ => false | _ => true end.

(** The connection of a configuration, keyed. *)
Definition open_conn (c : StorageConfig) : Db () :=
  match c with
  | InMemory => send OpenInMemory map_rusqlite_error
  | File path => send (OpenPath path) map_rusqlite_error
  | Encrypted path key =>
      then_ (send (OpenPath path) map_rusqlite_error) (send (PragmaUpdate "key" key) map_rusqlite_error)
  | EncryptedWithKey path key =>
      then_ (send (OpenPath path) map_rusqlite_error)
            (send (ExecuteBatch (key_pragma key)) map_rusqlite_error)
  end.

(** [SqliteDb::new]. *)
Definition sqlite_db_new (c : StorageConfig) : Db () :=
  then_ (open_conn c)
  (then_ (send (BusyTimeout 5) map_rusqlite_error)
  (then_ (if encrypted c then verify_key else skip)
  (then_ (send (ExecuteBatch "PRAGMA foreign_keys = ON;") map_rusqlite_error)
  (then_ (send (ExecuteBatch "PRAGMA journal_mode = WAL;") map_rusqlite_error)
  (then_ (send (ExecuteBatch "PRAGMA synchronous = NORMAL;") map_rusqlite_error)
         (λ h, (h ++ [SetImmediate], Ok ()))))))).
End opening.

(** ** The records *)

(** The database, and the instant it stamps rows with. *)
Record SqliteStore := { ss_db : Database; ss_now : Z }.

(** [SqliteStore::new] and [run_migrations], on the database found: a failed
    migration leaves it where it stopped. *)
Definition sqlite_store_new {RD : RusqliteDisplay} (answer : list Command → Command → result RusqliteError ())
    (io : string → option RusqliteError) (now : Z) (config : StorageConfig) (found : Database)
  : Database * result StorageError.t SqliteStore :=
  match (sqlite_db_new answer config []).2 with
  | Err e => (found, Err e)
  | Ok _ =>
      match apply_migrations sqlite_tracking now get_migrations io found with
      | (db, Ok _) => (db, Ok {| ss_db := db; ss_now := now |})
      | (db, Err e) => (db, Err (map_rusqlite_error e))
      end
  end.

(** [Row::get] of a text or a blob column. *)
Definition get_text (r : SqlRow) (column : string) : result RusqliteError string :=
  match r !! column with Some (VText s) => Ok s | _ => Err (InvalidColumnType column) end.
Definition get_blob (r : SqlRow) (column : string) : result RusqliteError (list byte) :=
  match r !! column with Some (VBlob b) => Ok b | _ => Err (InvalidColumnType column) end.

(** The rows of a table, when there is one. *)
Definition rows_of (db : Database) (table : string) : result RusqliteError (list SqlRow) :=
  match db_tables db !! table with
  | Some t => Ok (tb_rows t)
  | None => Err (sql_error "no such table")
  end.

(** [query_row]: the first row a condition selects. *)
Definition query_row {T} (rows : list SqlRow) (P : SqlRow → bool) (f : SqlRow → result RusqliteError T)
  : result RusqliteError T :=
  match filter (λ r, P r = true) rows with
  | [] => Err QueryReturnedNoRows
  | r :: _ => f r
  end.

(** [INSERT OR REPLACE]. *)
Definition replace_row (table : string) (r : SqlRow) (db : Database) : result RusqliteError Database :=
  match db_tables db !! table with
  | None => Err (sql_error "no such table")
  | Some t =>
      Ok (set_table table
            (add_row r {| tb_columns := tb_columns t; tb_key := tb_key t;
                          tb_rows := filter (λ r', row_key t r' ≠ row_key t r) (tb_rows t) |}) db)
  end.

Section records.
Context {RD : RusqliteDisplay}.
Implicit Types (s : SqliteStore).

Definition CONVERSATIONS : string := "conversations".
Definition INSTALLATION : string := "installation".

Definition with_db s (db : Database) : SqliteStore := {| ss_db := db; ss_now := ss_now s |}.

(** A write: its error leaves the store as it was. *)
Definition write (r : result RusqliteError Database) (f : RusqliteError → StorageError.t) s
  : SqliteStore * result StorageError.t () :=
  match r with Ok db => (with_db s db, Ok ()) | Err e => (s, Err (f e)) end.

(** A row as a record. *)
Definition meta_of_row (r : SqlRow) : result RusqliteError ConversationMeta :=
  id ← get_text r "local_convo_id"; convo_type ← get_text r "convo_type";
  Ok {| local_convo_id := id; kind := kind_from convo_type |}.

Definition conversation_row s (m : ConversationMeta) : SqlRow :=
  {["local_convo_id" := VText (local_convo_id m); "convo_type" := VText (kind_as_str (kind m));
    "created_at" := VInt (ss_now s)]}%string.

Definition has_convo_id (id : string) (r : SqlRow) : bool :=
  bool_decide (r !! "local_convo_id"%string = Some (VText id)).

Definition sqlite_save_conversation s (m : ConversationMeta) : SqliteStore * result StorageError.t () :=
  write (replace_row CONVERSATIONS (conversation_row s m) (ss_db s)) map_rusqlite_error s.

Definition sqlite_load_conversation s (id : string) : result StorageError.t (option ConversationMeta) :=
  rows ← map_err map_rusqlite_error (rows_of (ss_db s) CONVERSATIONS);
  map_optional_row (query_row rows (has_convo_id id) meta_of_row).

Definition sqlite_remove_conversation s (id : string) : SqliteStore * result StorageError.t () :=
  match db_tables (ss_db s) !! CONVERSATIONS with
  | None => (s, Err (map_rusqlite_error (sql_error "no such table")))
  | Some t =>
      (with_db s (set_table CONVERSATIONS
         {| tb_columns := tb_columns t; tb_key := tb_key t;
            tb_rows := filter (λ r, has_convo_id id r = false) (tb_rows t) |} (ss_db s)), Ok ())
  end.

Definition sqlite_load_conversations s : result StorageError.t (list ConversationMeta) :=
  rows ← map_err map_rusqlite_error (rows_of (ss_db s) CONVERSATIONS);
  map_err map_rusqlite_error (collect meta_of_row rows).

Definition sqlite_has_conversation s (id : string) : result StorageError.t bool :=
  rows ← map_err map_rusqlite_error (rows_of (ss_db s) CONVERSATIONS);
  Ok (existsb (has_convo_id id) rows).

Definition sqlite_load_installation s : result StorageError.t (option StoredInstallation) :=
  rows ← map_err map_rusqlite_error (rows_of (ss_db s) INSTALLATION);
  record ← map_optional_row
    (query_row rows (λ r, bool_decide (r !! "id"%string = Some (VInt 1))) (λ r, get_blob r "record"));
  Ok (option_map Stored record).

Definition installation_row (i : StoredInstallation) : SqlRow :=
  {["id" := VInt 1; "record" := VBlob (stored_bytes i)]}%string.

Definition sqlite_save_installation s (i : StoredInstallation) : SqliteStore * result StorageError.t () :=
  write (insert_row INSTALLATION (installation_row i) (ss_db s))
    (λ e, match e with
          | SqliteFailure ConstraintViolation _ =>
              StorageError.InvalidData "an installation is already stored"
          | _ => map_rusqlite_error e
          end) s.
End records.

(** ** The contracts *)

#[export] Instance sqlite_conversation_store {RD : RusqliteDisplay} : ConversationStore SqliteStore := {|
  cs_save := sqlite_save_conversation;
  cs_load := sqlite_load_conversation;
  cs_remove s id := Some (sqlite_remove_conversation s id);
  cs_load_all := sqlite_load_conversations;
  cs_has := sqlite_has_conversation;
|}.

#[export] Instance sqlite_identity_store {RD : RusqliteDisplay} : IdentityStore SqliteStore := {|
  is_load := sqlite_load_installation;
  is_save := sqlite_save_installation;
|}.

(** A row that holds a record. *)
Definition holds_record (r : SqlRow) (m : ConversationMeta) : Prop :=
  meta_of_row r = Ok m.

(** The table is as migrated, its rows hold records under distinct ids. *)
Definition convo_table (s : SqliteStore) (t : Table) (ms : list ConversationMeta) : Prop :=
  db_tables (ss_db s) !! CONVERSATIONS = Some t ∧ tb_key t = ["local_convo_id"%string] ∧
  Forall2 holds_record (tb_rows t) ms ∧ NoDup (local_convo_id <$> ms).

Lemma holds_record_id r m id :
  holds_record r m → has_convo_id id r = bool_decide (local_convo_id m = id).
Proof.
  unfold holds_record, meta_of_row, get_text, has_convo_id. intros H.
  destruct (r !! "local_convo_id"%string) as [[|z|x|b]|]; try done.
  destruct (r !! "convo_type"%string) as [[|z'|x'|b']|]; try done. injection H as <-. cbn.
  apply bool_decide_ext. naive_solver.
Qed.

Lemma holds_record_key r m t :
  tb_key t = ["local_convo_id"%string] → holds_record r m → row_key t r = [Some (VText (local_convo_id m))].
Proof.
  unfold holds_record, meta_of_row, get_text, row_key. intros -> H. cbn.
  destruct (r !! "local_convo_id"%string) as [[|z|x|b]|]; try done.
  destruct (r !! "convo_type"%string) as [[|z'|x'|b']|]; try done. by injection H as <-.
Qed.

Lemma conversation_row_holds s m :
  holds_record (conversation_row s m) {| local_convo_id := local_convo_id m; kind := kind_from (kind_as_str (kind m)) |}.
Proof. done. Qed.

(** Rows and records filtered alike stay in step. *)
Lemma Forall2_filter {X Y} (R : X → Y → Prop) (P : X → Prop) (Q : Y → Prop)
    `{∀ x, Decision (P x), ∀ y, Decision (Q y)} l k :
  Forall2 R l k → (∀ x y, R x y → P x ↔ Q y) → Forall2 R (filter P l) (filter Q k).
Proof.
  intros HR HPQ. induction HR as [|x y l k Hxy _ IH]; [constructor|]. rewrite !filter_cons.
  specialize (HPQ x y Hxy). repeat case_decide; try tauto. by constructor.
Qed.

Lemma NoDup_fmap_filter {X Y} (f : X → Y) (P : X → Prop) `{∀ x, Decision (P x)} (l : list X) :
  NoDup (f <$> l) → NoDup (f <$> filter P l).
Proof.
  induction l as [|x l IH]; [done|]. rewrite fmap_cons. intros [Hx Hl]%NoDup_cons. rewrite filter_cons.
  case_decide; [|by apply IH]. cbn. constructor; [|by apply IH].
  intros (y & Heq & [_ Hy]%list_elem_of_filter)%list_elem_of_fmap. apply Hx, list_elem_of_fmap. eauto.
Qed.

Section laws.
Context {RD : RusqliteDisplay}.
Implicit Types (s : SqliteStore) (t : Table).

(** The records as a list searched by id. *)
Definition find_record (ms : list ConversationMeta) (id : string) : option ConversationMeta :=
  head (filter (λ m, local_convo_id m = id) ms).

Lemma load_find s t ms id :
  convo_table s t ms → sqlite_load_conversation s id = Ok (find_record ms id).
Proof.
  intros (Ht & _ & Hms & _). unfold sqlite_load_conversation, rows_of. rewrite Ht. cbn [map_err mbind result_bind].
  unfold query_row, find_record.
  assert (HF : Forall2 holds_record (filter (λ r, has_convo_id id r = true) (tb_rows t))
                 (filter (λ m, local_convo_id m = id) ms)).
  { eapply Forall2_filter; [exact Hms|]. intros r m Hrm. by rewrite (holds_record_id _ _ _ Hrm), bool_decide_eq_true. }
  destruct HF as [|r m l k Hrm _]; [done|]. cbn. unfold holds_record in Hrm. by rewrite Hrm.
Qed.

Lemma load_all_records s t ms : convo_table s t ms → sqlite_load_conversations s = Ok ms.
Proof.
  intros (Ht & _ & Hms & _). unfold sqlite_load_conversations, rows_of. rewrite Ht. cbn [map_err mbind result_bind].
  apply map_err_Ok, collect_Ok. exact Hms.
Qed.

Lemma has_find s t ms id :
  convo_table s t ms → sqlite_has_conversation s id = Ok (is_some (find_record ms id)).
Proof.
  intros (Ht & _ & Hms & _). unfold sqlite_has_conversation, rows_of. rewrite Ht. cbn [map_err mbind result_bind].
  f_equal. unfold find_record. induction Hms as [|r m l k Hrm _ IH]; [done|]. cbn [existsb].
  rewrite (holds_record_id _ _ _ Hrm), filter_cons. case_decide as Hid.
  - by rewrite bool_decide_eq_true_2.
  - by rewrite bool_decide_eq_false_2.
Qed.

(** What the records are after each write. *)
Lemma save_records s t ms m :
  convo_table s t ms →
  ∃ t', sqlite_save_conversation s m = (with_db s (set_table CONVERSATIONS t' (ss_db s)), Ok ()) ∧
    convo_table (with_db s (set_table CONVERSATIONS t' (ss_db s))) t'
      (filter (λ m', local_convo_id m' ≠ local_convo_id m) ms ++
       [{| local_convo_id := local_convo_id m; kind := kind_from (kind_as_str (kind m)) |}]).
Proof.
  intros (Ht & Hkey & Hms & Hnd). unfold sqlite_save_conversation, replace_row. rewrite Ht. cbn [write].
  eexists. split; [done|]. unfold convo_table. cbn. rewrite lookup_insert_eq. split; [done|]. split; [done|]. split.
  - apply Forall2_app; [|by constructor]. eapply Forall2_filter; [exact Hms|]. intros r m' Hrm.
    rewrite (holds_record_key _ _ _ Hkey Hrm).
    rewrite (holds_record_key _ _ _ Hkey (conversation_row_holds s m)). cbn.
    split; intros Hne Heq; apply Hne; congruence.
  - rewrite fmap_app. cbn. apply NoDup_app. split; [|split; [|apply NoDup_singleton]].
    + by apply NoDup_fmap_filter.
    + intros id (m' & -> & [Hne _]%list_elem_of_filter)%list_elem_of_fmap ?%list_elem_of_singleton. done.
Qed.

Lemma remove_records s t ms id :
  convo_table s t ms →
  ∃ t', sqlite_remove_conversation s id = (with_db s (set_table CONVERSATIONS t' (ss_db s)), Ok ()) ∧
    convo_table (with_db s (set_table CONVERSATIONS t' (ss_db s))) t'
      (filter (λ m, local_convo_id m ≠ id) ms).
Proof.
  intros (Ht & Hkey & Hms & Hnd). unfold sqlite_remove_conversation. rewrite Ht. eexists. split; [done|].
  unfold convo_table. cbn. rewrite lookup_insert_eq. split; [done|]. split; [done|]. split.
  - eapply Forall2_filter; [exact Hms|]. intros r m Hrm.
    by rewrite (holds_record_id _ _ _ Hrm), bool_decide_eq_false.
  - by apply NoDup_fmap_filter.
Qed.

(** Searching what was filtered and extended. *)
Lemma find_record_app l k id :
  find_record (l ++ k) id = match find_record l id with Some m => Some m | None => find_record k id end.
Proof. unfold find_record. rewrite filter_app. by destruct (filter _ l). Qed.

Lemma find_record_ne ms id id' :
  find_record (filter (λ m, local_convo_id m ≠ id) ms) id' =
  if decide (id' = id) then None else find_record ms id'.
Proof.
  unfold find_record. rewrite list_filter_filter. case_decide as Hid.
  - subst. induction ms as [|m ms IH]; [done|]. rewrite filter_cons, decide_False by tauto. exact IH.
  - f_equal. apply list_filter_iff. intros m. split; [tauto|]. intros <-. done.
Qed.

Lemma find_record_Some ms id m :
  NoDup (local_convo_id <$> ms) → find_record ms id = Some m ↔ m ∈ ms ∧ local_convo_id m = id.
Proof.
  unfold find_record. intros Hnd. induction ms as [|m' ms IH].
  { split; [done|]. by intros [?%elem_of_nil _]. }
  cbn in Hnd. apply NoDup_cons in Hnd as [Hm' Hnd]. rewrite filter_cons, elem_of_cons. case_decide as Hid.
  - cbn. split; [intros [= ->]; auto|]. intros [[->|Hin] Heq]; [done|]. destruct Hm'.
    apply list_elem_of_fmap. exists m. by rewrite Hid, Heq.
  - rewrite IH by done. split; [naive_solver|]. intros [[->|?] ?]; [done|by split].
Qed.

#[export, refine] Instance sqlite_conversation_laws : ConversationStoreLaws SqliteStore :=
  {| cs_ok s := ∃ t ms, convo_table s t ms |}.
Proof.
  - intros s m s' r (t & ms & Hok). cbn. destruct (save_records s t ms m Hok) as (t' & -> & Hok').
    intros [= <- _]. eauto.
  - intros s m s' id (t & ms & Hok). cbn. destruct (save_records s t ms m Hok) as (t' & -> & Hok').
    intros [= <-] Hkind. rewrite (load_find _ _ _ _ Hok'), (load_find _ _ _ _ Hok).
    rewrite find_record_app, find_record_ne. case_decide as Hid.
    + subst. unfold find_record. rewrite filter_cons, decide_True by done. cbn. rewrite Hkind. by destruct m.
    + destruct (find_record ms id); [done|]. unfold find_record. by rewrite filter_cons, decide_False by done.
  - intros s m s' e id (t & ms & Hok). cbn. by destruct (save_records s t ms m Hok) as (t' & -> & _).
  - intros s id m (t & ms & Hok). cbn. rewrite (load_find _ _ _ _ Hok). intros [= H].
    apply find_record_Some in H; [naive_solver|apply Hok].
  - intros s id b (t & ms & Hok). cbn. rewrite (load_find _ _ _ _ Hok), (has_find _ _ _ _ Hok).
    intros [= <-]. eauto.
  - intros s l m (t & ms & Hok). cbn. rewrite (load_all_records _ _ _ Hok), (load_find _ _ _ _ Hok).
    intros [= <-]. split.
    + intros Hin. f_equal. apply find_record_Some; [apply Hok|]. done.
    + intros [= H]. apply find_record_Some in H; [naive_solver|apply Hok].
Defined.

(** *** The installation *)

Lemma query_row_head {T} rows P (f : SqlRow → result RusqliteError T) :
  query_row rows P f = match head (filter (λ r, P r = true) rows) with
                       | Some r => f r | None => Err QueryReturnedNoRows end.
Proof. unfold query_row. by destruct (filter _ rows). Qed.

(** The table is as migrated and its only rows are under [id] 1, by its check. *)
Definition installation_table s t : Prop :=
  db_tables (ss_db s) !! INSTALLATION = Some t ∧ tb_key t = ["id"%string] ∧
  Forall (λ r, r !! "id"%string = Some (VInt 1) ∧ ∃ b, r !! "record"%string = Some (VBlob b)) (tb_rows t).

Lemma load_installation_rows s t :
  installation_table s t →
  sqlite_load_installation s =
  Ok (match tb_rows t with
      | [] => None
      | r :: _ => match r !! "record"%string with Some (VBlob b) => Some (Stored b) | _ => None end
      end).
Proof.
  intros (Ht & _ & Hrows). unfold sqlite_load_installation, rows_of. rewrite Ht. cbn [map_err mbind result_bind].
  rewrite query_row_head. destruct Hrows as [|r rows [Hid [b Hb]] _]; [done|].
  rewrite filter_cons, decide_True by (by rewrite Hid). cbn. unfold get_blob. by rewrite Hb.
Qed.

Lemma save_installation_rows s t i :
  installation_table s t →
  match tb_rows t with
  | [] => ∃ t', sqlite_save_installation s i = (with_db s (set_table INSTALLATION t' (ss_db s)), Ok ()) ∧
          installation_table (with_db s (set_table INSTALLATION t' (ss_db s))) t' ∧
          sqlite_load_installation (with_db s (set_table INSTALLATION t' (ss_db s))) = Ok (Some i)
  | _ => sqlite_save_installation s i =
         (s, Err (StorageError.InvalidData "an installation is already stored"))
  end.
Proof.
  intros Hok. pose proof Hok as (Ht & Hkey & Hrows). unfold sqlite_save_installation, insert_row. rewrite Ht.
  unfold has_key, row_key. rewrite Hkey. destruct (tb_rows t) as [|r rows] eqn:Hr.
  - cbn. eexists. split; [done|]. 
    assert (Hok' : installation_table
      (with_db s (set_table INSTALLATION (add_row (installation_row i) t) (ss_db s)))
      (add_row (installation_row i) t)).
    { unfold installation_table. cbn. rewrite lookup_insert_eq, Hr. split; [done|]. split; [done|].
      repeat constructor; eauto. }
    split; [exact Hok'|]. rewrite (load_installation_rows _ _ Hok'). cbn. rewrite Hr. cbn. by destruct i.
  - rewrite bool_decide_eq_true_2; [done|]. apply Forall_cons in Hrows as [[Hid _] _]. cbn. rewrite Hid. by left.
Qed.

Lemma load_none s :
  sqlite_load_installation s = Ok None →
  ∃ t, db_tables (ss_db s) !! INSTALLATION = Some t ∧
       filter (λ r : SqlRow, bool_decide (r !! "id"%string = Some (VInt 1)) = true) (tb_rows t) = [].
Proof.
  unfold sqlite_load_installation, rows_of. destruct (db_tables (ss_db s) !! INSTALLATION) as [t|]; [|done].
  cbn [map_err mbind result_bind]. rewrite query_row_head. intros H. exists t. split; [done|].
  destruct (filter _ (tb_rows t)) as [|r l]; [done|]. cbn in H. unfold get_blob in H.
  by destruct (r !! "record"%string) as [[]|].
Qed.

#[export, refine] Instance sqlite_identity_laws : IdentityStoreLaws SqliteStore :=
  {| is_ok s := ∃ t, installation_table s t |}.
Proof.
  - intros s i s' e [t Hok] Hsave. cbn in Hsave. pose proof (save_installation_rows s t i Hok) as H.
    destruct (tb_rows t); [destruct H as (t' & Heq & Hok' & _)|rename H into Heq]; rewrite Heq in Hsave;
      injection Hsave as <- _; eauto.
  - intros s i s' (t & Ht & Hnone)%load_none Hsave. cbn in *. unfold sqlite_save_installation, insert_row in Hsave.
    rewrite Ht in Hsave. destruct (has_key t (installation_row i)); [done|]. injection Hsave as <-.
    unfold sqlite_load_installation, rows_of. cbn. rewrite lookup_insert_eq. cbn [map_err mbind result_bind].
    rewrite query_row_head. unfold add_row. cbn [tb_rows]. rewrite filter_app, Hnone. cbn. by destruct i.
  - intros s i o [t Hok] Hload. cbn in *. pose proof (save_installation_rows s t i Hok) as H.
    rewrite (load_installation_rows s t Hok) in Hload. destruct (tb_rows t); [done|]. eauto.
Defined.
End laws.

(** ** What opening does *)

Section opening_props.
Context {RD : RusqliteDisplay} (answer : list Command → Command → result RusqliteError ()).

(** The commands that open and key the connection. *)
Definition key_commands (c : StorageConfig) : list Command :=
  match c with
  | InMemory => [OpenInMemory]
  | File path => [OpenPath path]
  | Encrypted path key => [OpenPath path; PragmaUpdate "key" key]
  | EncryptedWithKey path key => [OpenPath path; ExecuteBatch (key_pragma key)]
  end.

Definition setup_commands : list Command :=
  [ExecuteBatch "PRAGMA foreign_keys = ON;"; ExecuteBatch "PRAGMA journal_mode = WAL;";
   ExecuteBatch "PRAGMA synchronous = NORMAL;"].

(** The whole sequence of an opening that meets no error. *)
Definition open_sequence (c : StorageConfig) : list Command :=
  key_commands c ++ [BusyTimeout 5] ++ (if encrypted c then [QuerySchema] else []) ++ setup_commands
    ++ [SetImmediate].

(** The sequence runs in order up to the first command that fails; the error
    returned is of that command. *)
Definition error_of (cmd : Command) (e : RusqliteError) : StorageError.t :=
  match cmd with
  | QuerySchema => if is_not_a_database e then wrong_key else map_rusqlite_error e
  | _ => map_rusqlite_error e
  end.

Fixpoint run_commands (cmds : list Command) (h : list Command) : list Command * result StorageError.t () :=
  match cmds with
  | [] => (h, Ok ())
  | SetImmediate :: cmds => run_commands cmds (h ++ [SetImmediate])
  | cmd :: cmds => match answer h cmd with
                   | Ok _ => run_commands cmds (h ++ [cmd])
                   | Err e => (h ++ [cmd], Err (error_of cmd e))
                   end
  end.

(** Opening, for every configuration and whatever the connection answers:
    the commands are exactly the sequence of that configuration, in order and
    up to the first that fails, whose error is returned; a keyed database is
    keyed before anything else touches it and is asked to prove the key before
    any other statement, one without a key is never asked, and only the answer
    that the file is no database is reported as a wrong key. *)
Theorem sqlite_open_exact c :
  sqlite_db_new answer c [] = run_commands (open_sequence c) [].
Proof.
  unfold sqlite_db_new, open_sequence, open_conn, verify_key, then_, send, skip, setup_commands.
  destruct c as [|path|path key|path key];
    cbn [key_commands encrypted app run_commands error_of map_err];
    repeat (match goal with |- context[answer ?h ?cmd] => destruct (answer h cmd) as [[]|];
                                       cbn [app run_commands error_of map_err] end; try reflexivity).
Qed.
End opening_props.

(** The key's digits determine it, and its pragma does. *)
Lemma hex_key_inj k k' : hex_key k = hex_key k' → k = k'.
Proof.
  destruct k as [b], k' as [b']. unfold hex_key. cbn [db_key_bytes]. intros Heq. f_equal.
  apply (f_equal list_byte_of_string) in Heq. rewrite !list_byte_of_string_of_list_byte in Heq.
  apply (f_equal hex_pairs) in Heq.
  assert (H : ∀ l, hex_pairs (flat_map hex_byte l) = Some l).
  { induction l as [|x l IH]; [done|]. cbn [flat_map]. by rewrite hex_pairs_byte, IH. }
  rewrite !H in Heq. by injection Heq.
Qed.

(** ** Agreement with the in-memory store *)

(** The calls both stores implement. *)
Inductive ConvoCall : Type :=
  | CallSave (m : ConversationMeta)
  | CallLoad (id : string)
  | CallLoadAll
  | CallHas (id : string).

Inductive ConvoReply : Type :=
  | Saved (r : result StorageError.t ())
  | Loaded (r : result StorageError.t (option ConversationMeta))
  | LoadedAll (r : result StorageError.t (list ConversationMeta))
  | Has (r : result StorageError.t bool).

Definition convo_call {C} {CSI : ConversationStore C} (c : ConvoCall) (s : C) : C * ConvoReply :=
  match c with
  | CallSave m => let '(s, r) := cs_save s m in (s, Saved r)
  | CallLoad id => (s, Loaded (cs_load s id))
  | CallLoadAll => (s, LoadedAll (cs_load_all s))
  | CallHas id => (s, Has (cs_has s id))
  end.

Fixpoint convo_calls {C} {CSI : ConversationStore C} (cs : list ConvoCall) (s : C) : C * list ConvoReply :=
  match cs with
  | [] => (s, [])
  | c :: cs => let '(s, r) := convo_call c s in let '(s, rs) := convo_calls cs s in (s, r :: rs)
  end.

(** Replies equal but for the order of a listing. *)
Definition same_reply (r r' : ConvoReply) : Prop :=
  match r, r' with
  | LoadedAll (Ok l), LoadedAll (Ok l') => l ≡ₚ l'
  | _, _ => r = r'
  end.

(** Kinds that are read back as they are written: all the code makes. *)
Definition canonical_call (c : ConvoCall) : Prop :=
  match c with CallSave m => kind_from (kind_as_str (kind m)) = kind m | _ => True end.

Section agree.
Context {RD : RusqliteDisplay}.

(** Both hold the same records. *)
Definition same_records (s : SqliteStore) (m : MemStore) : Prop :=
  ∃ t ms, convo_table s t ms ∧ convos_filed m ∧ (∀ id, find_record ms id = ms_convos m !! id).

Lemma same_records_list t ms s m :
  convo_table s t ms → convos_filed m → (∀ id, find_record ms id = ms_convos m !! id) →
  ms ≡ₚ load_conversations m.
Proof.
  intros (_ & _ & _ & Hnd) Hf Hfind. apply NoDup_Permutation.
  - by eapply NoDup_fmap_1.
  - apply (NoDup_fmap_1 local_convo_id). unfold load_conversations. rewrite <-list_fmap_compose.
    rewrite (list_fmap_ext _ fst); [apply NoDup_fst_map_to_list|].
    intros i [id meta] Hi%list_elem_of_lookup_2%elem_of_map_to_list. cbn. by apply Hf.
  - intros meta. unfold load_conversations. rewrite list_elem_of_fmap. split.
    + intros Hin. exists (local_convo_id meta, meta). split; [done|]. apply elem_of_map_to_list.
      rewrite <-Hfind. by apply find_record_Some.
    + intros ([id meta'] & -> & Hin%elem_of_map_to_list). rewrite <-Hfind in Hin.
      by apply find_record_Some in Hin as [? _].
Qed.

Lemma call_agrees c s m :
  same_records s m → canonical_call c →
  same_records (convo_call c s).1 (convo_call c m).1 ∧
  same_reply (convo_call c s).2 (convo_call c m).2.
Proof.
  intros (t & ms & Ht & Hf & Hfind) Hc. destruct c as [meta|id| |id]; cbn [convo_call].
  - destruct (save_records s t ms meta Ht) as (t' & Hsave & Ht').
    change (@cs_save SqliteStore _ s meta) with (sqlite_save_conversation s meta). rewrite Hsave.
    cbn [mem_conversation_store fst snd]. split; [|done]. eexists _, _. split; [exact Ht'|]. split.
    { unfold convos_filed, save_conversation. cbn. by apply map_Forall_insert_2. }
    intros id. rewrite find_record_app, find_record_ne. unfold save_conversation. cbn [ms_convos].
    unfold find_record at 2. rewrite filter_cons. cbn [local_convo_id]. cbn in Hc. rewrite Hc.
    destruct (decide (id = local_convo_id meta)) as [->|Hne].
    + rewrite decide_True by done. cbn. rewrite lookup_insert_eq. by destruct meta.
    + rewrite decide_False by done. cbn. rewrite lookup_insert_ne by done. rewrite <-Hfind.
      by destruct (find_record ms id).
  - cbn. split; [by exists t, ms|]. by rewrite (load_find _ _ _ _ Ht), Hfind.
  - cbn. split; [by exists t, ms|]. rewrite (load_all_records _ _ _ Ht). by eapply same_records_list.
  - cbn. split; [by exists t, ms|]. rewrite (has_find _ _ _ _ Ht), Hfind. unfold has_conversation.
    by destruct (ms_convos m !! id).
Qed.

(** A database just created and migrated. *)
Definition fresh_store (now : Z) : SqliteStore :=
  {| ss_db := (apply_migrations sqlite_tracking now get_migrations (λ _, None) new_database).1; ss_now := now |}.

Lemma fresh_same_records now : same_records (fresh_store now) memstore_new.
Proof.
  eexists _, []. split; [|split; [apply map_Forall_empty|done]].
  split; [vm_compute; reflexivity|]. split; [done|]. split; constructor.
Qed.

(** The SQLite store, freshly migrated, and the in-memory store give the
    same replies to every sequence of saves, loads, listings and existence
    checks, the order of a listing apart. *)
Theorem conversation_stores_agree now cs :
  Forall canonical_call cs →
  Forall2 same_reply (convo_calls cs (fresh_store now)).2 (convo_calls cs memstore_new).2.
Proof.
  generalize (fresh_same_records now). generalize (fresh_store now) memstore_new. intros s m Hs Hcs.
  revert s m Hs. induction Hcs as [|c cs Hc _ IH]; intros s m Hs; [constructor|]. cbn [convo_calls].
  destruct (call_agrees c s m Hs Hc) as [Hs' Hr]. destruct (convo_call c s) as [s1 r1], (convo_call c m) as [m1 r2].
  cbn [fst snd] in *. specialize (IH s1 m1 Hs'). destruct (convo_calls cs s1), (convo_calls cs m1).
  by constructor.
Qed.
End agree.

Definition display_ref : RusqliteDisplay := {| show_rusqlite _ := "sqlite error"%string |}.

Lemma conversation_stores_agree_witness :
  Forall2 same_reply
    (convo_calls (CSI := sqlite_conversation_store (RD := display_ref))
       [CallSave {| local_convo_id := "a"; kind := GroupV1 |}; CallLoadAll; CallHas "a"; CallLoad "b"]
       (fresh_store 0)).2
    (convo_calls [CallSave {| local_convo_id := "a"; kind := GroupV1 |}; CallLoadAll; CallHas "a"; CallLoad "b"]
       memstore_new).2.
Proof.
  apply (conversation_stores_agree (RD := display_ref) 0). repeat constructor.
Defined.
