(* ===== verification/SqliteKv.v ===== *)
(** * Transactions on a store ([storage.rs], [kv.rs],
      [storage/in_memory_store.rs], [extensions/sqlite/src/kv.rs])

    [KvStore] is the interface: a transaction is begun, worked in by its verbs,
    and committed or dropped, and each call may fail. The in-memory store
    never fails; a SQLite connection runs each call as a statement that the
    engine may refuse with any error, rolling the transaction back or not.
    The theorem: whatever fails, a transaction that stops at its first error
    leaves the database as it was, and one that commits leaves exactly its
    writes. *)

From Stdlib Require Import Strings.Byte Strings.String.
From stdpp Require Import base gmap strings numbers list.
From S2P Require Import Prelude Utf8 Storage Sql Services SqliteStore.

(** [KvStore] and [KvTx]: [S] the store, [T] what a transaction holds. *)
Class KvStore (S T : Type) := {
  kvs_begin : S → S * result StorageError.t T;
  kvs_verb : S → T → verb → S * T * result StorageError.t reply;
  kvs_commit : S → T → S * result StorageError.t ();
  kvs_drop : S → T → S;
}.

(** ** The in-memory store *)

Definition mem_verb (m : MemStore) (tx : MemKvTx) (v : verb) : MemStore * MemKvTx * result StorageError.t reply :=
  let '(kv, r) := run_verb (staged tx) v in (m, Staged kv, Ok r).

#[export] Instance mem_kv_store : KvStore MemStore MemKvTx := {|
  kvs_begin := begin;
  kvs_verb := mem_verb;
  kvs_commit m tx := (commit m tx, Ok ());
  kvs_drop m _ := tx_drop m;
|}.

(** ** A SQLite connection

    The rows committed, the rows a transaction sees while one is open, and
    the calls made. [io] is the engine: for each call, a failure of its own and
    whether it also rolled the transaction back. *)

Abbreviation Engine := (nat → option (ErrorCode * string * bool)).

Record Conn := { cn_rows : table; cn_tx : option table; cn_calls : nat }.

Section connection.
Context {RD : RusqliteDisplay} (io : Engine).

Definition with_rows (c : Conn) (t : table) : Conn :=
  match cn_tx c with
  | Some _ => {| cn_rows := cn_rows c; cn_tx := Some t; cn_calls := cn_calls c |}
  | None => {| cn_rows := t; cn_tx := None; cn_calls := cn_calls c |}
  end.
Definition seen_rows (c : Conn) : table := default (cn_rows c) (cn_tx c).

(** One call into the engine; [f] is what it does when nothing fails. *)
Definition call {A} (f : Conn → Conn * result RusqliteError A) (c : Conn) : Conn * result RusqliteError A :=
  let counted tx := {| cn_rows := cn_rows c; cn_tx := tx; cn_calls := S (cn_calls c) |} in
  match io (cn_calls c) with
  | Some (code, message, rolled_back) =>
      (counted (if (rolled_back : bool) then None else cn_tx c), Err (SqliteFailure code message))
  | None => f (counted (cn_tx c))
  end.

(** [BEGIN], [COMMIT], [ROLLBACK]. *)
Definition stmt_begin : Conn → Conn * result RusqliteError () :=
  call (λ c, match cn_tx c with
             | Some _ => (c, Err (sql_error "cannot start a transaction within a transaction"))
             | None => ({| cn_rows := cn_rows c; cn_tx := Some (cn_rows c); cn_calls := cn_calls c |}, Ok ())
             end).
Definition stmt_commit : Conn → Conn * result RusqliteError () :=
  call (λ c, match cn_tx c with
             | Some t => ({| cn_rows := t; cn_tx := None; cn_calls := cn_calls c |}, Ok ())
             | None => (c, Err (sql_error "cannot commit - no transaction is active"))
             end).
Definition stmt_rollback : Conn → Conn * result RusqliteError () :=
  call (λ c, match cn_tx c with
             | Some _ => ({| cn_rows := cn_rows c; cn_tx := None; cn_calls := cn_calls c |}, Ok ())
             | None => (c, Err (sql_error "cannot rollback - no transaction is active"))
             end).

(** [Drop for rusqlite::Transaction]: rolled back when one is still open, its
    error dropped. *)
Definition sqlite_drop (c : Conn) : Conn :=
  match cn_tx c with None => c | Some _ => (stmt_rollback c).1 end.

Definition sqlite_begin (c : Conn) : Conn * result StorageError.t () :=
  let '(c, r) := stmt_begin c in (c, map_err map_rusqlite_error r).

(** [commit] takes the transaction: after a refusal it is dropped. *)
Definition sqlite_commit (c : Conn) : Conn * result StorageError.t () :=
  let '(c, r) := stmt_commit c in (sqlite_drop c, map_err map_rusqlite_error r).

(** A statement over the rows seen: a query answers, an update replaces them. *)
Definition query {A} (f : table → result RusqliteError A) : Conn → Conn * result RusqliteError A :=
  call (λ c, (c, f (seen_rows c))).
Definition execute (f : table → table) : Conn → Conn * result RusqliteError () :=
  call (λ c, (with_rows c (f (seen_rows c)), Ok ())).

Definition conn_get (s : Scope) (k : list byte) (c : Conn) : Conn * result StorageError.t (option (list byte)) :=
  let '(c, row) := query (λ t, ok_or (sql_get t s k) QueryReturnedNoRows) c in (c, map_optional_row row).
Definition conn_scan_prefix (s : Scope) (p : list byte) (c : Conn) : Conn * result StorageError.t (list KvPair) :=
  let '(c, r) := query (λ t, Ok (sql_scan_prefix t s p)) c in (c, map_err map_rusqlite_error r).
Definition conn_update (f : table → table) (c : Conn) : Conn * result StorageError.t () :=
  let '(c, r) := execute f c in (c, map_err map_rusqlite_error r).

Definition sqlite_verb (v : verb) (c : Conn) : Conn * result StorageError.t reply :=
  let unit '(c, r) := ((c : Conn), (λ _ : (), RUnit) <$> (r : result StorageError.t ())) in
  match v with
  | VGet s k => let '(c, r) := conn_get s k c in (c, RValue <$> r)
  | VPut s k v => unit (conn_update (λ t, sql_put t s k v) c)
  | VDelete s k => unit (conn_update (λ t, sql_delete t s k) c)
  | VScanPrefix s p => let '(c, r) := conn_scan_prefix s p c in (c, RPairs <$> r)
  | VDeletePrefix s p => unit (conn_update (λ t, sql_delete_prefix t s p) c)
  | VDeleteScope s => unit (conn_update (λ t, sql_delete_scope t s) c)
  | VDeleteNamespace n => unit (conn_update (λ t, sql_delete_namespace t n) c)
  end.

Definition sqlite_kv_store : KvStore Conn () := {|
  kvs_begin := sqlite_begin;
  kvs_verb c _ v := let '(c, r) := sqlite_verb v c in (c, (), r);
  kvs_commit c _ := sqlite_commit c;
  kvs_drop c _ := sqlite_drop c;
|}.
End connection.

(** ** A transaction from begin to end ([KvTransaction]) *)

Section transaction.
Context {S T : Type} {K : KvStore S T}.

(** The verbs one after the other, up to the first that fails ([?]). *)
Fixpoint tx_verbs (s : S) (tx : T) (vs : list verb) : S * T * result StorageError.t (list reply) :=
  match vs with
  | [] => (s, tx, Ok [])
  | v :: vs =>
      let '(s, tx, r) := kvs_verb s tx v in
      match r with
      | Err e => (s, tx, Err e)
      | Ok r => let '(s, tx, rs) := tx_verbs s tx vs in (s, tx, cons r <$> rs)
      end
  end.

(** Begun, worked in, committed; dropped where an error leaves it. *)
Definition transact (s : S) (vs : list verb) : S * result StorageError.t (list reply) :=
  let '(s, tx) := kvs_begin s in
  match tx with
  | Err e => (s, Err e)
  | Ok tx =>
      let '(s, tx, rs) := tx_verbs s tx vs in
      match rs with
      | Err e => (kvs_drop s tx, Err e)
      | Ok rs => let '(s, r) := kvs_commit s tx in
                 (s, match r with Ok () => Ok rs | Err e => Err e end)
      end
  end.

(** [KvTransaction::delete_scope]. *)
Definition transaction_delete_scope (s : S) (tx : T) (scope : Scope) : S * T * result StorageError.t reply :=
  kvs_verb s tx (VDeleteScope scope).
End transaction.

(** ** Whatever the engine does *)

Section atomic.
Context {RD : RusqliteDisplay} (io : Engine).
Implicit Types c : Conn.

Lemma call_Ok {A} (f : Conn → Conn * result RusqliteError A) c c' a :
  call io f c = (c', Ok a) →
  io (cn_calls c) = None ∧ f {| cn_rows := cn_rows c; cn_tx := cn_tx c; cn_calls := S (cn_calls c) |} = (c', Ok a).
Proof. unfold call. destruct (io (cn_calls c)) as [[[code m] rb]|]; [done|]. auto. Qed.

(** A call that fails leaves what is committed, and the rows seen or the
    committed ones. *)
Lemma call_Err {A} (f : Conn → Conn * result RusqliteError A) c c' e :
  (∀ c c' e, f c = (c', Err e) → c' = c) →
  call io f c = (c', Err e) → cn_rows c' = cn_rows c ∧ (cn_tx c' = cn_tx c ∨ cn_tx c' = None).
Proof.
  intros Hf. unfold call. destruct (io (cn_calls c)) as [[[code m] rb]|].
  - intros [= <- <-]. cbn. destruct rb; auto.
  - intros ->%Hf. auto.
Qed.

(** A verb that answers did on the rows seen what it does on rows. *)
Lemma sqlite_verb_Ok v c c' r :
  sqlite_verb io v c = (c', Ok r) →
  r = (run_verb (seen_rows c) v).2 ∧
  cn_rows c' = cn_rows (with_rows c (run_verb (seen_rows c) v).1) ∧
  cn_tx c' = cn_tx (with_rows c (run_verb (seen_rows c) v).1).
Proof.
  destruct v; cbn [sqlite_verb run_verb fst snd kv_get kv_put kv_delete kv_scan_prefix kv_delete_prefix
    kv_delete_scope kv_delete_namespace sql_kv_tx];
    unfold conn_get, conn_scan_prefix, conn_update, query, execute, call;
    destruct (io (cn_calls c)) as [[[code m] rb]|]; try done;
    unfold seen_rows, with_rows; cbn [cn_rows cn_tx].
  all: try (intros [= <- <-]; by destruct (cn_tx c)).
  destruct (sql_get _ s k) as [v|]; cbn; intros [= <- <-]; by destruct (cn_tx c).
Qed.

Lemma sqlite_verb_Err v c c' e :
  sqlite_verb io v c = (c', Err e) →
  cn_rows c' = cn_rows c ∧ (cn_tx c' = cn_tx c ∨ cn_tx c' = None) ∧ ∃ msg, e = StorageError.Database msg.
Proof.
  destruct v; cbn [sqlite_verb]; unfold conn_get, conn_scan_prefix, conn_update, query, execute, call;
    destruct (io (cn_calls c)) as [[[code m] rb]|]; try done.
  all: try (intros [= <- <-]; cbn; unfold map_rusqlite_error; destruct rb; naive_solver).
  cbn. by destruct (sql_get _ _ _).
Qed.

Lemma sqlite_drop_rows c : cn_rows (sqlite_drop io c) = cn_rows c.
Proof.
  unfold sqlite_drop, stmt_rollback, call. destruct (cn_tx c) as [t|] eqn:Ht; [|done].
  by destruct (io (cn_calls c)) as [[[code m] rb]|].
Qed.

Lemma tx_verbs_rows vs c u c' u' rs :
  is_Some (cn_tx c) → tx_verbs (K := sqlite_kv_store io) c u vs = (c', u', rs) →
  cn_rows c' = cn_rows c ∧
  match rs with
  | Ok rs => cn_tx c' = Some (run_verbs (seen_rows c) vs).1 ∧ rs = (run_verbs (seen_rows c) vs).2
  | Err e => ∃ msg, e = StorageError.Database msg
  end.
Proof.
  revert c u c' u' rs. induction vs as [|v vs IH]; intros c u c' u' rs [t Ht]; cbn [tx_verbs].
  - intros [= <- <- <-]. unfold seen_rows. by rewrite Ht.
  - cbn [kvs_verb sqlite_kv_store]. destruct (sqlite_verb io v c) as [c1 [r|e]] eqn:Hv.
    + apply sqlite_verb_Ok in Hv as (-> & Hr & Htx). unfold with_rows in Hr, Htx. rewrite Ht in Hr, Htx.
      cbn in Hr, Htx.
      destruct (tx_verbs c1 () vs) as [[c2 u2] rs2] eqn:Hvs. intros [= <- <- <-].
      apply IH in Hvs as [H1 H2]; [|by eexists]. rewrite H1, Hr. split; [done|].
      assert (seen_rows c1 = (run_verb (seen_rows c) v).1) as Es by (unfold seen_rows at 1; by rewrite Htx).
      rewrite Es in H2. cbn. destruct (run_verb (seen_rows c) v) as [t1 r1]. cbn in H2 |- *.
      destruct (run_verbs t1 vs) as [t2 rs']. cbn in H2 |- *. destruct rs2; cbn; [|done].
      destruct H2 as [H2 ->]. done.
    + intros [= <- <- <-]. apply sqlite_verb_Err in Hv as (H1 & _ & H3). auto.
Qed.

Lemma sqlite_begin_Ok c c' :
  sqlite_begin io c = (c', Ok ()) → cn_tx c = None ∧ cn_rows c' = cn_rows c ∧ cn_tx c' = Some (cn_rows c).
Proof.
  unfold sqlite_begin, stmt_begin, call. destruct (io (cn_calls c)) as [[[code m] rb]|]; [done|]. cbn.
  destruct (cn_tx c); [done|]. by intros [= <-].
Qed.

Lemma sqlite_begin_Err c c' e :
  sqlite_begin io c = (c', Err e) → cn_rows c' = cn_rows c ∧ ∃ msg, e = StorageError.Database msg.
Proof.
  unfold sqlite_begin, stmt_begin, call. destruct (io (cn_calls c)) as [[[code m] rb]|].
  - intros [= <- <-]. unfold map_rusqlite_error. eauto.
  - cbn. destruct (cn_tx c); [|done]. intros [= <- <-]. unfold map_rusqlite_error. eauto.
Qed.

Lemma sqlite_commit_Ok c c' :
  sqlite_commit io c = (c', Ok ()) → cn_tx c = Some (cn_rows c') ∧ cn_tx c' = None.
Proof.
  unfold sqlite_commit, stmt_commit, call. destruct (io (cn_calls c)) as [[[code m] rb]|]; [done|]. cbn.
  destruct (cn_tx c); [|done]. by intros [= <-].
Qed.

Lemma sqlite_commit_Err c c' e :
  sqlite_commit io c = (c', Err e) → cn_rows c' = cn_rows c ∧ ∃ msg, e = StorageError.Database msg.
Proof.
  unfold sqlite_commit, stmt_commit, call. destruct (io (cn_calls c)) as [[[code m] rb]|].
  - intros [= <- <-]. rewrite sqlite_drop_rows. unfold map_rusqlite_error. eauto.
  - cbn. destruct (cn_tx c) eqn:Ht; [done|]. intros [= <- <-]. rewrite sqlite_drop_rows.
    unfold map_rusqlite_error. eauto.
Qed.

Lemma sqlite_verb_no_fault v c : (∀ n, io n = None) → ∃ c' r, sqlite_verb io v c = (c', Ok r).
Proof.
  intros Hio. destruct v; cbn [sqlite_verb];
    unfold conn_get, conn_scan_prefix, conn_update, query, execute, call; rewrite Hio; cbn; eauto.
  destruct (sql_get _ _ _); cbn; eauto.
Qed.

Lemma tx_verbs_no_fault vs c u c' u' e :
  (∀ n, io n = None) → tx_verbs (K := sqlite_kv_store io) c u vs ≠ (c', u', Err e).
Proof.
  intros Hio. revert c u c' u' e. induction vs as [|v vs IH]; intros c u c' u' e; cbn [tx_verbs]; [done|].
  cbn [kvs_verb sqlite_kv_store]. destruct (sqlite_verb_no_fault v c Hio) as (c1 & r & ->).
  destruct (tx_verbs c1 () vs) as [[c2 u2] [rs|]] eqn:E; [done|]. intros [= -> -> ->]. by eapply IH.
Qed.

(** C12. All or nothing under any faults: however the engine refuses statements,
    the commit and the rollback included, and whether or not a refusal rolled
    the transaction back, a transaction over SQLite that reports success left
    exactly the rows its verbs make of those committed before, answered every
    read from them, and is closed; one that reports an error, always a
    database error, left the committed rows as they were. An engine that
    refuses nothing never makes it fail. *)
Theorem sqlite_transaction_atomic c vs :
  let '(c', r) := transact (K := sqlite_kv_store io) c vs in
  match r with
  | Ok replies =>
      cn_rows c' = (run_verbs (cn_rows c) vs).1 ∧ replies = (run_verbs (cn_rows c) vs).2 ∧ cn_tx c' = None
  | Err e => cn_rows c' = cn_rows c ∧ ∃ msg, e = StorageError.Database msg
  end ∧
  ((∀ n, io n = None) → cn_tx c = None → is_ok r = true).
Proof.
  unfold transact. cbn [kvs_begin kvs_commit kvs_drop sqlite_kv_store].
  destruct (sqlite_begin io c) as [c1 [[]|e]] eqn:Hb.
  2: { split; [by apply sqlite_begin_Err in Hb|]. intros Hio Ht. exfalso. revert Hb.
       unfold sqlite_begin, stmt_begin, call. rewrite Hio. cbn. by rewrite Ht. }
  apply sqlite_begin_Ok in Hb as (Hn & Hr1 & Ht1).
  destruct (tx_verbs c1 () vs) as [[c2 u] rs] eqn:Hvs.
  pose proof (tx_verbs_rows _ _ _ _ _ _ (ex_intro _ _ Ht1) Hvs) as [Hr2 Hrs].
  assert (seen_rows c1 = cn_rows c) as Es by (unfold seen_rows; by rewrite Ht1).
  destruct rs as [rs|e].
  - destruct Hrs as [Ht2 ->]. destruct (sqlite_commit io c2) as [c3 [[]|e]] eqn:Hc.
    + apply sqlite_commit_Ok in Hc as [H1 H2]. rewrite Es in *. split; [|done]. split_and!; [congruence|done..].
    + split; [apply sqlite_commit_Err in Hc as [H1 H2]; split; [congruence|done]|].
      intros Hio _. exfalso. revert Hc. unfold sqlite_commit, stmt_commit, call. rewrite Hio. cbn.
      by rewrite Ht2.
  - split; [rewrite sqlite_drop_rows; split; [congruence|done]|]. intros Hio _. exfalso.
    by eapply tx_verbs_no_fault.
Qed.
End atomic.
