(* ===== verification/KvSuite.v ===== *)
(** * What a store owes its callers ([core/conversations/src/storage/test_assertions.rs])

    The contract of the substrate as the repository states it: a suite of
    programs every store must run without a panic, each on a fresh store. A
    program is written once and run on any [KvStore]; the suite's own helpers
    and cases are the definitions. The theorems: a store that simulates the
    plain map of maps passes the whole suite, the in-memory store and a SQLite
    connection do simulate it, and both pass the identity contract. *)

From Stdlib Require Import Strings.Byte Strings.String.
From stdpp Require Import base gmap strings numbers list.
From S2P Require Import Prelude Utf8 Storage Installation Sql Services SqliteStore SqliteKv.

(** ** Programs over a store *)

(** [TryBegin] opens a transaction, tells whether it could, and drops it at
    once; [Begin], [Verb] and [Commit] unwrap. *)
Inductive Prog (A : Type) : Type :=
| Ret (a : A)
| Begin (k : Prog A)
| TryBegin (k : bool → Prog A)
| Verb (v : verb) (k : reply → Prog A)
| Commit (k : Prog A)
| Drop (k : Prog A)
| Panics.
Arguments Ret {A}. Arguments Begin {A}. Arguments TryBegin {A}. Arguments Verb {A}.
Arguments Commit {A}. Arguments Drop {A}. Arguments Panics {A}.

#[export] Instance prog_ret : MRet Prog := @Ret.
#[export] Instance prog_bind : MBind Prog := λ A B f,
  fix go (p : Prog A) : Prog B :=
    match p with
    | Ret a => f a
    | Begin k => Begin (go k)
    | TryBegin k => TryBegin (λ b, go (k b))
    | Verb v k => Verb v (λ r, go (k r))
    | Commit k => Commit (go k)
    | Drop k => Drop (go k)
    | Panics => Panics
    end.

Definition assert (b : bool) : Prog () := if b then Ret () else Panics.

(** The verbs of the open transaction. *)
Definition put (s : Scope) (k v : list byte) : Prog () := Verb (VPut s k v) (λ _, Ret ()).
Definition delete (s : Scope) (k : list byte) : Prog () := Verb (VDelete s k) (λ _, Ret ()).
Definition delete_prefix (s : Scope) (p : list byte) : Prog () := Verb (VDeletePrefix s p) (λ _, Ret ()).
Definition delete_scope (s : Scope) : Prog () := Verb (VDeleteScope s) (λ _, Ret ()).
Definition delete_namespace (n : Namespace) : Prog () := Verb (VDeleteNamespace n) (λ _, Ret ()).
Definition tx_get (s : Scope) (k : list byte) : Prog (option (list byte)) :=
  Verb (VGet s k) (λ r, match r with RValue v => Ret v | _ => Panics end).
Definition tx_scan (s : Scope) (p : list byte) : Prog (list KvPair) :=
  Verb (VScanPrefix s p) (λ r, match r with RPairs l => Ret l | _ => Panics end).
Definition commit_tx : Prog () := Commit (Ret ()).
Definition drop_tx : Prog () := Drop (Ret ()).
Definition begin_tx : Prog () := Begin (Ret ()).
Definition begin_is_ok : Prog bool := TryBegin Ret.

Fixpoint for_each {A} (l : list A) (f : A → Prog ()) : Prog () :=
  match l with [] => Ret () | x :: l => _ ← f x; for_each l f end.

(** ** The helpers *)

Definition write (f : Prog ()) : Prog () := _ ← begin_tx; _ ← f; commit_tx.
Definition read {A} (f : Prog A) : Prog A := _ ← begin_tx; a ← f; _ ← drop_tx; Ret a.
Definition get (s : Scope) (k : list byte) : Prog (option (list byte)) := read (tx_get s k).
Definition scan (s : Scope) (p : list byte) : Prog (list KvPair) := read (tx_scan s p).
Definition pairs (keys : list (list byte)) : list KvPair := map (λ k, (k, k)) keys.

Definition ALPHA : Namespace := Ns "alpha".
Definition BETA : Namespace := Ns "beta".
Definition CONVO : Scope := {| ns := ALPHA; instance := "convo" |}.
Definition SIBLING : Scope := {| ns := ALPHA; instance := "sibling" |}.
Definition OTHER_PROTOCOL : Scope := {| ns := BETA; instance := "convo" |}.

Definition scopes_with_values : list (Scope * list byte) :=
  [(CONVO, str_bytes "convo"); (SIBLING, str_bytes "sibling"); (OTHER_PROTOCOL, str_bytes "other protocol")].
Definition keys_around_a_prefix : list (list byte) :=
  map str_bytes [""; "mls%wildcard"; "mls/context"; "mls/tree"; "mls_wildcard"; "other"]%string.

Definition eqb_value (a b : option (list byte)) : bool := bool_decide (a = b).
Definition eqb_pairs (a b : list KvPair) : bool := bool_decide (a = b).
Definition is_empty (l : list KvPair) : bool := match l with [] => true | _ => false end.

Definition write_shared : Prog () :=
  write (for_each scopes_with_values (λ '(s, v), put s (str_bytes "shared") v)).

(** ** The cases *)

Definition scopes_are_isolated : Prog () :=
  _ ← write_shared;
  _ ← for_each scopes_with_values (λ '(s, v),
        r ← get s (str_bytes "shared"); assert (eqb_value r (Some v)));
  _ ← write (put CONVO (str_bytes "private") (str_bytes "v"));
  for_each [SIBLING; OTHER_PROTOCOL] (λ s,
    r ← get s (str_bytes "private"); assert (eqb_value r None)).

Definition a_key_holds_one_value : Prog () :=
  for_each scopes_with_values (λ '(s, _),
    _ ← write (_ ← put s (str_bytes "key") (str_bytes "first"); put s (str_bytes "key") (str_bytes "second"));
    r ← get s (str_bytes "key");
    _ ← assert (eqb_value r (Some (str_bytes "second")));
    l ← scan s (str_bytes "key");
    assert (length l =? 1)).

Definition keys_and_values_are_arbitrary_bytes : Prog () :=
  let key := x00 :: str_bytes "key" ++ [xff] in
  _ ← write (put CONVO key [x00; xff]);
  r ← get CONVO key;
  _ ← assert (eqb_value r (Some [x00; xff]));
  l ← scan CONVO [x00];
  _ ← assert (eqb_pairs l [(key, [x00; xff])]);
  _ ← write (put CONVO (str_bytes "empty") []);
  r ← get CONVO (str_bytes "empty");
  assert (eqb_value r (Some [])).

Definition prefixes_bound_scan_and_delete : Prog () :=
  _ ← write (for_each [CONVO; SIBLING] (λ s, for_each keys_around_a_prefix (λ k, put s k k)));
  l ← scan CONVO (str_bytes "mls/");
  _ ← assert (eqb_pairs l (pairs (map str_bytes ["mls/context"; "mls/tree"]%string)));
  l ← scan CONVO (str_bytes "mls%");
  _ ← assert (eqb_pairs l (pairs [str_bytes "mls%wildcard"]));
  l ← scan CONVO (str_bytes "mls_");
  _ ← assert (eqb_pairs l (pairs [str_bytes "mls_wildcard"]));
  l ← scan CONVO [];
  _ ← assert (eqb_pairs l (pairs keys_around_a_prefix));
  _ ← write (delete_prefix CONVO (str_bytes "mls/"));
  l ← scan CONVO [];
  _ ← assert (eqb_pairs l (pairs (map str_bytes [""; "mls%wildcard"; "mls_wildcard"; "other"]%string)));
  _ ← write (delete_prefix CONVO []);
  l ← scan CONVO [];
  _ ← assert (is_empty l);
  l ← scan SIBLING [];
  assert (eqb_pairs l (pairs keys_around_a_prefix)).

Definition a_scan_is_in_key_order : Prog () :=
  _ ← write (for_each (map str_bytes ["b"; "c"; "a"]%string) (λ k, put CONVO k k));
  l ← scan CONVO [];
  assert (eqb_pairs l (pairs (map str_bytes ["a"; "b"; "c"]%string))).

Definition delete_scope_empties_one_scope : Prog () :=
  _ ← write_shared;
  _ ← write (delete_scope CONVO);
  l ← scan CONVO [];
  _ ← assert (is_empty l);
  for_each [SIBLING; OTHER_PROTOCOL] (λ s, r ← get s (str_bytes "shared"); assert (is_some r)).

Definition delete_namespace_empties_every_instance : Prog () :=
  _ ← write_shared;
  _ ← write (delete_namespace ALPHA);
  _ ← for_each [CONVO; SIBLING] (λ s, l ← scan s []; assert (is_empty l));
  r ← get OTHER_PROTOCOL (str_bytes "shared");
  assert (is_some r).

Definition a_transaction_lands_on_commit_and_is_discarded_on_drop : Prog () :=
  _ ← begin_tx;
  _ ← put CONVO (str_bytes "committed") (str_bytes "v");
  _ ← commit_tx;
  r ← get CONVO (str_bytes "committed");
  _ ← assert (is_some r);
  _ ← begin_tx;
  _ ← put CONVO (str_bytes "dropped") (str_bytes "v");
  _ ← delete CONVO (str_bytes "committed");
  _ ← drop_tx;
  r ← get CONVO (str_bytes "dropped");
  _ ← assert (eqb_value r None);
  r ← get CONVO (str_bytes "committed");
  assert (is_some r).

Definition a_transaction_reads_its_own_writes : Prog () :=
  _ ← begin_tx;
  _ ← put CONVO (str_bytes "key") (str_bytes "v");
  r ← tx_get CONVO (str_bytes "key");
  _ ← assert (eqb_value r (Some (str_bytes "v")));
  l ← tx_scan CONVO [];
  _ ← assert (length l =? 1);
  _ ← delete CONVO (str_bytes "key");
  r ← tx_get CONVO (str_bytes "key");
  _ ← assert (eqb_value r None);
  commit_tx.

Definition empty_both_scopes : Prog () :=
  _ ← delete_prefix CONVO (str_bytes "mls/");
  l ← tx_scan CONVO [];
  _ ← assert (eqb_pairs l (pairs [str_bytes "other"]));
  _ ← delete_scope CONVO;
  l ← tx_scan CONVO [];
  _ ← assert (is_empty l);
  _ ← delete_namespace (ns OTHER_PROTOCOL);
  l ← tx_scan OTHER_PROTOCOL [];
  assert (is_empty l).

Definition a_transaction_stages_the_destructive_verbs : Prog () :=
  _ ← write (_ ← for_each (map str_bytes ["mls/tree"; "other"]%string) (λ k, put CONVO k k);
             put OTHER_PROTOCOL (str_bytes "key") (str_bytes "key"));
  _ ← begin_tx;
  _ ← empty_both_scopes;
  _ ← drop_tx;
  l ← scan CONVO [];
  _ ← assert (eqb_pairs l (pairs (map str_bytes ["mls/tree"; "other"]%string)));
  r ← get OTHER_PROTOCOL (str_bytes "key");
  _ ← assert (is_some r);
  _ ← begin_tx;
  _ ← empty_both_scopes;
  _ ← commit_tx;
  l ← scan CONVO [];
  _ ← assert (is_empty l);
  r ← get OTHER_PROTOCOL (str_bytes "key");
  assert (eqb_value r None).

Definition a_second_transaction_is_refused : Prog () :=
  _ ← begin_tx;
  ok ← begin_is_ok;
  _ ← assert (negb ok);
  _ ← drop_tx;
  ok ← begin_is_ok;
  assert ok.

Definition kv_cases : list (Prog ()) :=
  [scopes_are_isolated; a_key_holds_one_value; keys_and_values_are_arbitrary_bytes;
   prefixes_bound_scan_and_delete; a_scan_is_in_key_order; delete_scope_empties_one_scope;
   delete_namespace_empties_every_instance; a_transaction_lands_on_commit_and_is_discarded_on_drop;
   a_transaction_reads_its_own_writes; a_transaction_stages_the_destructive_verbs;
   a_second_transaction_is_refused].

(** ** Running a program *)

Section run.
Context {S T : Type} {K : KvStore S T}.

(** [None] is a panic; [tx] is the transaction the program holds. *)
Fixpoint run {A} (p : Prog A) (s : S) (tx : option T) : option A :=
  match p with
  | Ret a => Some a
  | Begin k =>
      match kvs_begin s with (s, Ok t) => run k s (Some t) | (_, Err _) => None end
  | TryBegin k =>
      match kvs_begin s with
      | (s, Ok t) => run (k true) (kvs_drop s t) tx
      | (s, Err _) => run (k false) s tx
      end
  | Verb v k =>
      match tx with
      | None => None
      | Some t => match kvs_verb s t v with
                  | (s, t, Ok r) => run (k r) s (Some t)
                  | (_, _, Err _) => None
                  end
      end
  | Commit k =>
      match tx with
      | None => None
      | Some t => match kvs_commit s t with (s, Ok ()) => run k s None | (_, Err _) => None end
      end
  | Drop k => match tx with None => None | Some t => run k (kvs_drop s t) None end
  | Panics => None
  end.

(** [assert_kv_contract]: whether every case runs through. *)
Definition assert_kv_contract (new_store : () → S) : bool :=
  forallb (λ case, is_some (run case (new_store ()) None)) kv_cases.
End run.

(** ** The identity contract *)

Section identity.
Context {S : Type} {I : IdentityStore S}.

Definition a_new_store_holds_no_installation (store : S) : bool :=
  match is_load store with Ok None => true | _ => false end.
Definition a_record_reads_back_as_written (store : S) : bool :=
  let record := Stored [x00; xff; x27; x0a; x00] in
  match is_save store record with
  | (store, Ok ()) =>
      match is_load store with
      | Ok (Some r) => bool_decide (stored_bytes r = stored_bytes record)
      | _ => false
      end
  | (_, Err _) => false
  end.
Definition a_store_holds_one_installation (store : S) : bool :=
  let first := Stored (str_bytes "first") in
  match is_save store first with
  | (store, Ok ()) =>
      let '(store, r) := is_save store (Stored (str_bytes "second")) in
      negb (Prelude.is_ok r) &&
      match is_load store with
      | Ok (Some r) => bool_decide (stored_bytes r = stored_bytes first)
      | _ => false
      end
  | (_, Err _) => false
  end.

Definition assert_identity_store_contract (new_store : () → S) : bool :=
  a_new_store_holds_no_installation (new_store ()) &&
  a_record_reads_back_as_written (new_store ()) &&
  a_store_holds_one_installation (new_store ()).
End identity.

(** ** The specification: a map, and a working copy while a transaction is open *)

Fixpoint run_spec {A} (p : Prog A) (kv : Kv) (work : option Kv) : option A :=
  match p with
  | Ret a => Some a
  | Begin k => match work with None => run_spec k kv (Some kv) | Some _ => None end
  | TryBegin k => run_spec (k (negb (is_some work))) kv work
  | Verb v k =>
      match work with
      | None => None
      | Some w => let '(w, r) := run_verb w v in run_spec (k r) kv (Some w)
      end
  | Commit k => match work with None => None | Some w => run_spec k w None end
  | Drop k => match work with None => None | Some _ => run_spec k kv None end
  | Panics => None
  end.

(** A store that keeps to it, by a relation between its states and the
    specification's. *)
Class KvStoreLaws (S T : Type) {K : KvStore S T} := {
  kvs_rel : S → option T → Kv → option Kv → Prop;
  kvs_rel_open s tx kv w : kvs_rel s tx kv w → is_some tx = is_some w;
  kvs_begin_closed s kv : kvs_rel s None kv None →
    ∃ s' t, kvs_begin s = (s', Ok t) ∧ kvs_rel s' (Some t) kv (Some kv);
  kvs_begin_open s t kv w : kvs_rel s (Some t) kv (Some w) →
    ∃ s' e, kvs_begin s = (s', Err e) ∧ kvs_rel s' (Some t) kv (Some w);
  kvs_verb_spec s t kv w v : kvs_rel s (Some t) kv (Some w) →
    ∃ s' t', kvs_verb s t v = (s', t', Ok (run_verb w v).2) ∧ kvs_rel s' (Some t') kv (Some (run_verb w v).1);
  kvs_commit_spec s t kv w : kvs_rel s (Some t) kv (Some w) →
    ∃ s', kvs_commit s t = (s', Ok ()) ∧ kvs_rel s' None w None;
  kvs_drop_spec s t kv w : kvs_rel s (Some t) kv (Some w) → kvs_rel (kvs_drop s t) None kv None;
}.

Section simulation.
Context {S T : Type} {K : KvStore S T} {L : KvStoreLaws S T}.

(** Every program, not only the suite's, runs on such a store as it does on
    the map. *)
Lemma run_simulates {A} (p : Prog A) s tx kv w : kvs_rel s tx kv w → run p s tx = run_spec p kv w.
Proof.
  revert s tx kv w. induction p as [a|k IH|k IH|v k IH|k IH|k IH|]; intros s tx kv w Hr;
    pose proof (kvs_rel_open _ _ _ _ Hr) as Ho; destruct tx as [t|], w as [w|]; try done;
    cbn [run run_spec is_some negb].
  - destruct (kvs_begin_open _ _ _ _ Hr) as (s' & e & -> & _). done.
  - destruct (kvs_begin_closed _ _ Hr) as (s' & t & -> & Hr'). by apply IH.
  - destruct (kvs_begin_open _ _ _ _ Hr) as (s' & e & -> & Hr'). by apply IH.
  - destruct (kvs_begin_closed _ _ Hr) as (s' & t & -> & Hr'). apply IH. by eapply kvs_drop_spec.
  - destruct (kvs_verb_spec _ _ _ _ v Hr) as (s' & t' & -> & Hr').
    destruct (run_verb w v) as [w' r]. by apply IH.
  - destruct (kvs_commit_spec _ _ _ _ Hr) as (s' & -> & Hr'). by apply IH.
  - apply IH. by eapply kvs_drop_spec.
Qed.

Lemma spec_passes : forallb (λ case, is_some (run_spec case ∅ None)) kv_cases = true.
Proof. vm_compute. reflexivity. Qed.

Lemma simulating_store_passes (new_store : () → S) :
  kvs_rel (new_store ()) None ∅ None → assert_kv_contract new_store = true.
Proof.
  intros Hr. unfold assert_kv_contract. rewrite <- spec_passes.
  generalize kv_cases. intros cases. induction cases as [|case cases IH]; [done|]. cbn [forallb].
  by rewrite (run_simulates case _ _ _ _ Hr), IH.
Qed.
End simulation.

(** ** The two stores *)

Definition mem_rel (m : MemStore) (tx : option MemKvTx) (kv : Kv) (w : option Kv) : Prop :=
  ms_kv m = kv ∧ ms_tx_open m = is_some tx ∧ staged <$> tx = w.

#[export, refine] Instance mem_kv_store_laws : KvStoreLaws MemStore MemKvTx := {| kvs_rel := mem_rel |}.
Proof.
  - intros s tx kv w (_ & _ & <-). by destruct tx.
  - intros s kv (<- & Ho & _). cbn. unfold begin. rewrite Ho. eexists _, _. done.
  - intros s t kv w (<- & Ho & [= <-]). cbn. unfold begin. rewrite Ho. eexists _, _. done.
  - intros s t kv w v (<- & Ho & [= <-]). cbn [kvs_verb mem_kv_store]. unfold mem_verb.
    destruct (run_verb (staged t) v) as [kv' r]. eexists _, _. split; [done|]. done.
  - intros s t kv w (<- & Ho & [= <-]). eexists. done.
  - by intros s t kv w (<- & Ho & _).
Defined.

Section sqlite.
Context {RD : RusqliteDisplay}.

(** An engine that refuses nothing. *)
Definition works : Engine := λ _, None.

Definition conn_rel (c : Conn) (tx : option ()) (kv : Kv) (w : option Kv) : Prop :=
  kv_same kv (cn_rows c) ∧
  match tx, w, cn_tx c with
  | None, None, None => True
  | Some (), Some w, Some t => kv_same w t
  | _, _, _ => False
  end.

Lemma sqlite_verb_works v c t :
  cn_tx c = Some t →
  sqlite_verb works v c = ({| cn_rows := cn_rows c; cn_tx := Some (run_verb t v).1; cn_calls := S (cn_calls c) |},
                           Ok (run_verb t v).2).
Proof.
  intros Ht. destruct v; cbn [sqlite_verb]; unfold conn_get, conn_scan_prefix, conn_update, query, execute, call,
    works, with_rows, seen_rows; cbn [cn_rows cn_tx cn_calls]; rewrite Ht; try done.
  cbn. by destruct (sql_get t s k).
Qed.

Definition sqlite_kv_store_laws : @KvStoreLaws Conn () (sqlite_kv_store works).
Proof.
  refine {| kvs_rel := conn_rel |}; unfold conn_rel.
  - intros c tx kv w [_ H]. destruct tx as [[]|], w, (cn_tx c); done.
  - intros c kv [Hs Ht]. cbn. unfold sqlite_begin, stmt_begin, call, works. destruct (cn_tx c) eqn:E; [done|].
    cbn [cn_tx]. eexists _, _. split; [done|]. cbn. done.
  - intros c [] kv w [Hs Hw]. cbn. unfold sqlite_begin, stmt_begin, call, works.
    destruct (cn_tx c) as [t|] eqn:E; [|done]. cbn [cn_tx]. eexists _, _. split; [done|]. cbn. done.
  - intros c [] kv w v [Hs Hw]. destruct (cn_tx c) as [t|] eqn:E; [|done]. cbn [kvs_verb sqlite_kv_store].
    rewrite (sqlite_verb_works _ _ _ E). destruct (kv_same_verb w t v Hw) as [H1 H2].
    eexists _, _. split; [by rewrite H2|]. done.
  - intros c [] kv w [Hs Hw]. destruct (cn_tx c) as [t|] eqn:E; [|done]. cbn.
    unfold sqlite_commit, stmt_commit, call, works. cbn [cn_tx]. rewrite E. eexists. split; [done|]. done.
  - intros c [] kv w [Hs Hw]. cbn. unfold sqlite_drop, stmt_rollback, call, works.
    destruct (cn_tx c) as [t|] eqn:E; done.
Defined.

Definition fresh_conn : Conn := {| cn_rows := []; cn_tx := None; cn_calls := 0 |}.

Lemma fresh_conn_rel : conn_rel fresh_conn None ∅ None.
Proof.
  split; [|done]. split; [exact I|]. split; [apply NoDup_nil_2|].
  intros s k. cbn. unfold mem_get, sql_get. by rewrite lookup_empty.
Qed.

(** C13. The contract is what the specification promises, and both stores keep
    it: a store whose fresh states simulate the empty map passes every case of
    the suite, whatever its representation; and a new in-memory store and a
    SQLite connection, while the engine refuses no statement, each pass it. *)
Theorem lawful_store_passes_suite :
  (∀ S T (K : KvStore S T) (L : KvStoreLaws S T) (new_store : () → S),
     kvs_rel (new_store ()) None ∅ None → assert_kv_contract new_store = true) ∧
  assert_kv_contract (K := mem_kv_store) (λ _, memstore_new) = true ∧
  assert_kv_contract (K := sqlite_kv_store works) (λ _, fresh_conn) = true.
Proof.
  split_and!.
  - intros S T K L. apply simulating_store_passes.
  - by apply (simulating_store_passes (L := mem_kv_store_laws) (λ _, memstore_new)).
  - apply (simulating_store_passes (L := sqlite_kv_store_laws) (λ _, fresh_conn)). apply fresh_conn_rel.
Qed.

(** Both stores pass the identity contract. *)
Theorem stores_pass_identity_contract now :
  assert_identity_store_contract (λ _, memstore_new) = true ∧
  assert_identity_store_contract (λ _, fresh_store now) = true.
Proof. split; [vm_compute; reflexivity|]. vm_compute. reflexivity. Qed.
End sqlite.

(** ** Witnesses *)

Lemma lawful_store_passes_suite_witness :
  assert_kv_contract (K := mem_kv_store) (λ _, memstore_new) = true.
Proof.
  apply (lawful_store_passes_suite (RD := display_ref)) with (L := mem_kv_store_laws). done.
Defined.

(** The suite tells stores apart: one that keeps a dropped transaction's
    writes fails it. *)
Definition leaky_store : KvStore MemStore MemKvTx := {|
  kvs_begin := begin; kvs_verb := mem_verb; kvs_commit m tx := (commit m tx, Ok ()); kvs_drop := commit |}.
Example leaky_store_fails : assert_kv_contract (K := leaky_store) (λ _, memstore_new) = false.
Proof. vm_compute. reflexivity. Qed.
