(* ===== verification/MlsUtils.v ===== *)
(** * Key packages and invites ([core/conversations/src/inbox_v2.rs],
      [inbox_v2/mls_provider.rs], [conversation/mls_utils.rs])

    Fetching and checking the key package of a signer, and the invite that
    carries a welcome to its inbox. *)

From Stdlib Require Import Strings.Byte Strings.String.
From stdpp Require Import base gmap strings numbers list pretty.
From S2P Require Import Prelude Utf8 Hex Ed25519 Identity CausalHistory Storage Delivery Services.

(** 1184 bytes of ML-KEM-768 and 32 of X25519. *)
Definition HPKE_PUBLIC_KEY_LEN : N := (1184 + 32)%N.

Definition check_hpke_public_key (key : list byte) : result ChatError.t () :=
  if negb (N.of_nat (length key) =? HPKE_PUBLIC_KEY_LEN)%N then
    Err (ChatError.BadBundleValue
      ("HPKE public key is " ++ pretty (N.of_nat (length key)) ++ " bytes, expected " ++
       pretty HPKE_PUBLIC_KEY_LEN)%string)
  else Ok ().

(** [unique]: the first occurrence of each. *)
Fixpoint unique_from {A} `{Countable A} (seen : gset A) (l : list A) : list A :=
  match l with
  | [] => []
  | x :: l => if decide (x ∈ seen) then unique_from seen l
              else x :: unique_from ({[x]} ∪ seen) l
  end.
Definition unique {A} `{Countable A} (l : list A) : list A := unique_from ∅ l.

(** [member_diff]. *)
Definition member_diff (new : list SignerKey) (existing : list Signer) : list SignerKey :=
  let existing : gset SignerKey := list_to_set (map signer existing) in
  filter (λ s, s ∉ existing) new.

Section invites.
Context {HX : Hex} {B : Blake2b} {PB : Prost}.

Definition delivery_address_for (s : SignerKey) : string :=
  blake2b_hex hash_DeliveryAddr
    [str_bytes "InboxV2|"; str_bytes "delivery_address|"; str_bytes (signer_to_string s)].
Definition conversation_id_for (s : SignerKey) : string :=
  blake2b_hex hash_ConvoId
    [str_bytes "InboxV2|"; str_bytes "conversation_id|"; str_bytes (signer_to_string s)].

(** The envelope an invite travels in, to the signer's inbox. *)
Definition invite_envelope (s : SignerKey) (invite : InviteType) : AddressedEnvelope :=
  {| delivery_address := delivery_address_for s;
     env_data := envelope_encode
       {| conversation_hint := conversation_id_for s; salt := 0;
          ev_payload := inbox_encode {| if_payload := Some invite |} |} |}.

Context {P G : Type} {ML : OpenMls P G}.

(** [MlsProvider::invite_user]. *)
Definition invite_user {DS : Type} {DSI : DeliveryService DS} (s : SignerKey)
    (welcome : MlsMessageOut) (ds : DS) : DS * result ChatError.t () :=
  match mls_to_bytes welcome with
  | Err e => (ds, Err (ChatError.MlsMessageError e))
  | Ok bytes =>
      let '(ds', r) := ds_publish ds
        (invite_envelope s (InviteGroupV1 {| welcome_bytes := bytes |})) in
      (ds', map_err ChatError.Generic r)
  end.

(** [create_invite_v3]. *)
Definition create_invite_v3 (s : SignerKey) (welcome : MlsMessageOut)
  : result SendError.t AddressedEnvelope :=
  bytes ← map_err SendError.MlsMessageError (mls_to_bytes welcome);
  Ok (invite_envelope s (InviteGroupV3 bytes)).

Context {RS : Type} {RSI : RegistrationService RS} {E : Type} {A : AuthService E}.

(** [validate_keypackage] of [mls_utils.rs]. *)
Definition validate_keypackage (expected : SignerKey) (kp_bytes : list byte)
  : result KeyPackageError.t KeyPackage :=
  unchecked ← map_err KeyPackageError.Decode (kp_deserialize_exact kp_bytes);
  key_package ← map_err KeyPackageError.MlsVerify (kp_validate unchecked);
  participant ← map_err KeyPackageError.TypeConvert (kp_participant key_package);
  let reported := {| signer := Signer_key (kp_signature_key key_package);
                     participant_id := participant |} in
  if negb (bool_decide (expected = signer reported)) then
    Err (KeyPackageError.WrongPackage expected (kp_signature_key key_package))
  else
    match auth_status reported with
    | AuthStatus.Valid => Ok key_package
    | status => Err (KeyPackageError.AuthFailed reported status)
    end.

(** [fetch_key_packages]. *)
Definition fetch_key_packages (registry : RS) (signers : list SignerKey)
  : result ChatError.t (list KeyPackage) :=
  collect (λ s,
    fetched ← map_err ChatError.Generic (rs_retrieve registry (signer_to_string s));
    kp_bytes ← ok_or fetched (ChatError.Generic "No key package");
    map_err ChatError.KeyPackage (validate_keypackage s kp_bytes)) (unique signers).

(** [GroupV1Convo::key_package_for_signer]. *)
Definition key_package_for_signer (registry : RS) (s : SignerKey)
  : result ChatError.t KeyPackage :=
  retrieved ← map_err ChatError.Generic (rs_retrieve registry (signer_to_string s));
  keypkg_bytes ← ok_or retrieved
    (ChatError.Protocol ("no keypackage for signer " ++ signer_to_string s)%string);
  key_package_in ← map_err ChatError.TlsCodec (kp_deserialize keypkg_bytes);
  keypkg ← map_err ChatError.KeyPackageVerify (kp_validate key_package_in);
  _ ← check_hpke_public_key (kp_init_key keypkg);
  let leaf_key := kp_signature_key keypkg in
  if negb (bool_decide (leaf_key = signer_bytes s)) then
    Err (ChatError.Protocol ("keypackage for signer " ++ signer_to_string s ++
      " is bound to a different signing key (" ++ bytes_str (hex_encode leaf_key) ++ ")")%string)
  else
    _ ← ok_or (require_valid (signer_from_leaf leaf_key (kp_credential keypkg)))
          (ChatError.BadBundleValue "invalid credential");
    Ok keypkg.
End invites.

(** ** Lemmas *)

Lemma unique_from_elem {A} `{Countable A} (seen : gset A) l x :
  x ∈ unique_from seen l ↔ x ∈ l ∧ x ∉ seen.
Proof.
  revert seen. induction l as [|y l IH]; intros seen; cbn; [set_solver|].
  case_decide as Hy; rewrite ?elem_of_cons, IH.
  - set_solver.
  - destruct (decide (x = y)) as [->|]; set_solver.
Qed.

Lemma unique_from_NoDup {A} `{Countable A} (seen : gset A) l : NoDup (unique_from seen l).
Proof.
  revert seen. induction l as [|y l IH]; intros seen; cbn; [constructor|].
  case_decide; [apply IH|]. constructor; [|apply IH]. rewrite unique_from_elem. set_solver.
Qed.

Lemma unique_elem {A} `{Countable A} (l : list A) x : x ∈ unique l ↔ x ∈ l.
Proof. unfold unique. rewrite unique_from_elem. set_solver. Qed.
Lemma unique_NoDup {A} `{Countable A} (l : list A) : NoDup (unique l).
Proof. apply unique_from_NoDup. Qed.

Lemma member_diff_elem new existing s :
  s ∈ member_diff new existing ↔ s ∈ new ∧ ∀ m, m ∈ existing → signer m ≠ s.
Proof.
  unfold member_diff. rewrite list_elem_of_filter, elem_of_list_to_set, list_elem_of_fmap.
  split.
  - intros [H1 H2]. split; [done|]. intros m Hm <-. apply H1. eauto.
  - intros [H1 H2]. split; [|done]. intros (m & -> & Hm). by eapply H2.
Qed.

Lemma check_hpke_public_key_Ok key :
  check_hpke_public_key key = Ok () ↔ N.of_nat (length key) = HPKE_PUBLIC_KEY_LEN.
Proof.
  unfold check_hpke_public_key. destruct (N.eqb_spec (N.of_nat (length key)) HPKE_PUBLIC_KEY_LEN);
    cbn [negb]; naive_solver.
Qed.

(** What a key package that passed the checks guarantees. *)
Section vetted.
Context {P G : Type} {ML : OpenMls P G} {E : Type} {A : AuthService E}.

Definition vouched (s : SignerKey) (pid : ParticipantId) : Prop :=
  validate_signer s pid = Ok AuthResult.Valid.

Context {HX : Hex} {RS : Type} {RSI : RegistrationService RS}.

Lemma key_package_for_signer_Ok (registry : RS) s kp :
  key_package_for_signer registry s = Ok kp →
  kp_signature_key kp = signer_bytes s ∧
  vouched s (Participant (kp_credential kp)) ∧
  N.of_nat (length (kp_init_key kp)) = HPKE_PUBLIC_KEY_LEN.
Proof.
  unfold key_package_for_signer.
  intros (o & _ & (b & _ & (i & _ & (k & _ & ([] & Hlen%check_hpke_public_key_Ok & H)
    %bind_Ok)%bind_Ok)%bind_Ok)%bind_Ok)%bind_Ok.
  case_bool_decide as Hk; [|done]. cbn [negb] in H.
  apply bind_Ok in H as (a & Ha%ok_or_Ok & [= <-]).
  apply require_valid_Some in Ha as [_ Ha]. unfold vouched. cbn in Ha. rewrite Hk in Ha.
  split_and!; [done| |done]. by destruct s.
Qed.

Lemma validate_keypackage_Ok s b kp :
  validate_keypackage s b = Ok kp →
  kp_signature_key kp = signer_bytes s ∧
  ∃ pid, kp_participant kp = Ok pid ∧ vouched s pid.
Proof.
  unfold validate_keypackage.
  intros (i & _ & (k & _ & (pid & Hp%map_err_Ok & H)%bind_Ok)%bind_Ok)%bind_Ok.
  cbn [signer] in H. case_bool_decide as Hk; [|done]. cbn [negb] in H. unfold auth_status in H.
  cbn [signer participant_id] in H. rewrite <- Hk in H.
  destruct (validate_signer s pid) as [[]|] eqn:Hv; cbn in H; try done. injection H as <-.
  split; [by rewrite Hk|]. eauto.
Qed.

Lemma fetch_key_packages_Ok (registry : RS) signers kps :
  fetch_key_packages registry signers = Ok kps →
  Forall2 (λ s kp, kp_signature_key kp = signer_bytes s ∧
             ∃ pid, kp_participant kp = Ok pid ∧ vouched s pid) (unique signers) kps.
Proof.
  intros H%collect_Ok. eapply Forall2_impl; [exact H|]. cbn. intros s kp Hs.
  apply bind_Ok in Hs as (o & _ & Hs). apply bind_Ok in Hs as (b & _ & Hs%map_err_Ok).
  by eapply validate_keypackage_Ok.
Qed.
End vetted.
