(* ===== verification/GroupV1.v ===== *)
(** * GroupV1 conversations ([core/conversations/src/conversation/group_v1.rs],
      [direct_v1.rs])

    A group over MLS whose messages travel in causal-history envelopes. The
    state is the MLS group, the conversation id and the cache of hashes of
    what was sent; operations run on it together with the service context.
    [DirectV1Convo] delegates every operation to an inner [GroupV1Convo]. *)

From Stdlib Require Import Strings.Byte Strings.String.
From stdpp Require Import base gmap strings numbers list.
From S2P Require Import Prelude Utf8 Hex Ed25519 Identity CausalHistory Storage Delivery Services.
From S2P Require Import MlsUtils.

Definition OUTBOUND_HASH_CACHE_SIZE : nat := 25.
Definition MAX_ADDED_AT_ONCE : nat := 50.

Section group_v1.
Context {HX : Hex} {B : Blake2b} {PB : Prost} {P G : Type} {ML : OpenMls P G}.
Context {DS : Type} {DSI : DeliveryService DS} {RS : Type} {RSI : RegistrationService RS}.
Context {CS WS E : Type} {A : AuthService E}.

Record GroupV1Convo := {
  v1_group : G;
  v1_convo_id : string;
  v1_outbound : list string;
}.

Abbreviation CX := (ServiceContext DS RS CS P WS).
Abbreviation V1 := (CX * GroupV1Convo)%type.

Definition set_group (g : G) (c : GroupV1Convo) : GroupV1Convo :=
  {| v1_group := g; v1_convo_id := v1_convo_id c; v1_outbound := v1_outbound c |}.

(** A call into the library on the provider and the group. *)
Definition on_group {X} (f : P → Ident → G → P * G * result ChatError.t X) : St V1 X :=
  step (λ '(cx, c),
    let '(p, g, r) := f (cx_provider cx) (cx_identity cx) (v1_group c) in
    ((set_provider p cx, set_group g c), r)).

Definition delivery_address_from_id (convo_id : string) : string :=
  blake2b_hex 6 [str_bytes "delivery_addr|"; str_bytes convo_id].

Definition v1_subscribe (convo_id : string) : St CX () := step (λ cx,
  let '(d, r) := ds_subscribe (cx_ds cx) (delivery_address_from_id convo_id) in
  (set_ds d cx, map_err ChatError.Generic r)).

(** [GroupV1Convo::new]: a failing [MlsGroup::new] is unwrapped. *)
Definition v1_new : St CX GroupV1Convo :=
  cx ← get;
  let '(p, r) := mls_new (cx_provider cx) (cx_identity cx) None in
  _ ← modify (set_provider p);
  match r with
  | Err _ => panic
  | Ok g =>
      let convo_id := bytes_str (hex_encode (mls_group_id g)) in
      _ ← v1_subscribe convo_id;
      mret {| v1_group := g; v1_convo_id := convo_id; v1_outbound := [] |}
  end.

(** [GroupV1Convo::new_from_welcome]. *)
Definition v1_from_welcome (w : Welcome) : St CX GroupV1Convo :=
  g ← step (λ cx,
    let '(p, r) := mls_join (cx_provider cx) w in
    (set_provider p cx, map_err ChatError.Generic r));
  let convo_id := bytes_str (hex_encode (mls_group_id g)) in
  _ ← v1_subscribe convo_id;
  mret {| v1_group := g; v1_convo_id := convo_id; v1_outbound := [] |}.

(** [GroupV1Convo::load]. *)
Definition v1_load (convo_id : string) (group_id : list byte) : St CX GroupV1Convo :=
  cx ← get;
  loaded ← lift (map_err ChatError.Generic (mls_load (cx_provider cx) group_id));
  g ← lift (ok_or loaded (ChatError.NoConvo "mls group not found"));
  _ ← v1_subscribe convo_id;
  mret {| v1_group := g; v1_convo_id := convo_id; v1_outbound := [] |}.

(** [VecDeque]: push the hash at the back, drop the front past the bound. *)
Definition push_outbound (h : string) (l : list string) : list string :=
  let l := l ++ [h] in
  if (OUTBOUND_HASH_CACHE_SIZE <? length l) then tail l else l.

Definition msg_hash (bytes : list byte) : string := blake2b_hex hash_MessageId [bytes].

(** [send_payload]. *)
Definition v1_send_payload (msg_bytes : list byte) : St V1 () := step (λ '(cx, c),
  let c := {| v1_group := v1_group c; v1_convo_id := v1_convo_id c;
              v1_outbound := push_outbound (msg_hash msg_bytes) (v1_outbound c) |} in
  let env := into_envelope (delivery_address_from_id (v1_convo_id c))
    {| encryption := Some (Plaintext msg_bytes) |} (v1_convo_id c) in
  let '(d, r) := ds_publish (cx_ds cx) env in
  ((set_ds d cx, c), map_err ChatError.Delivery r)).

(** [send_message], behind [Convo::send_content]. *)
Definition v1_send_content (content : list byte) : St V1 string :=
  '(cx, c) ← get;
  let '(i, reliable) := on_send (cx_causal cx) (v1_convo_id c) (id_signer_key (cx_identity cx))
                          content in
  _ ← modify (λ '(cx, c), (set_causal i cx, c));
  out ← on_group (λ p ident g,
    let '(p, g, r) := mls_create_message p ident g (reliable_encode reliable) in
    (p, g, map_err ChatError.Generic r));
  msg_bytes ← lift (map_err ChatError.MlsMessageError (mls_to_bytes out));
  _ ← v1_send_payload msg_bytes;
  mret (p_message_id reliable).

(** The content an application message yields: nothing unless its MLS sender
    is a member the auth service vouches for. *)
Definition content_from (sender : option Member) (reliable : ReliablePayload) : option Content :=
  leaf ← sender;
  a ← require_valid (signer_from_leaf (m_signature_key leaf) (m_credential leaf));
  Some {| ct_bytes := p_content reliable; ct_sender := a;
          ct_message_id := p_message_id reliable |}.

(** The part of [handle_payload] behind the drops. *)
Definition v1_process (msg : ProtocolMessage) : St V1 (option Content) :=
  processed ← on_group (λ p _ g,
    let '(p, g, r) := mls_process p g msg in
    (p, g, map_err (λ e, ChatError.Generic (pe_text e)) r));
  '(cx, c) ← get;
  let sender := i ← pm_sender processed; mls_member_at (v1_group c) i in
  match pm_content processed with
  | ApplicationMessage bytes =>
      reliable ← lift (map_err ChatError.DecodeError (reliable_decode bytes));
      _ ← modify (λ '(cx, c), (set_causal (on_receive (cx_causal cx) (v1_convo_id c) reliable).1 cx, c));
      mret (content_from sender reliable)
  | StagedCommitMessage commit =>
      _ ← on_group (λ p _ g,
        let '(p, g, r) := mls_merge_staged p g commit in
        (p, g, map_err ChatError.Generic r));
      mret None
  | OtherContent => mret None
  end.

Definition v1_outcome (id : string) (content : option Content) : ConvoOutcome :=
  {| co_convo_id := id; observations := map ObsContent (option_list content) |}.

(** [Convo::handle_payload]. *)
Definition v1_handle_payload (payload : list byte) : St V1 ConvoOutcome :=
  encrypted ← lift (map_err ChatError.DecodeError (encrypted_decode payload));
  bytes ← lift (match encryption encrypted with
                | Some (Plaintext bytes) => Ok bytes
                | _ => Err (ChatError.ProtocolExpectation "None" "Some(Encryption::Plaintext)")
                end);
  '(cx, c) ← get;
  if negb (mls_is_active (v1_group c)) then mret (outcome_empty (v1_convo_id c))
  else if decide (msg_hash bytes ∈ v1_outbound c) then mret (outcome_empty (v1_convo_id c))
  else
    msg_in ← lift (map_err ChatError.Generic (mls_from_bytes_exact bytes));
    msg ← lift (map_err ChatError.Generic (mls_into_protocol msg_in));
    if (mls_message_epoch msg <? mls_epoch (v1_group c))%N
    then mret (outcome_empty (v1_convo_id c))
    else
      content ← v1_process msg;
      mret (v1_outcome (v1_convo_id c) content).

(** [Convo::wakeup]. *)
Definition v1_wakeup : St V1 ConvoOutcome :=
  '(_, c) ← get; mret (outcome_empty (v1_convo_id c)).

(** The signers of [members] not seated and not named twice. *)
Definition fresh_signers (c : GroupV1Convo) (members : list SignerKey) : list SignerKey :=
  unique_from (list_to_set (map (λ m, Signer_key (m_signature_key m)) (mls_members (v1_group c))))
    members.

(** [GroupConvo::add_signer]. *)
Definition v1_add_signer (members : list SignerKey) : St V1 () :=
  if (MAX_ADDED_AT_ONCE <? length members) then
    fail (ChatError.Protocol "Cannot add more than 50 Members at a time")
  else
    '(cx, c) ← get;
    let members := fresh_signers c members in
    if decide (members = []) then mret ()
    else
      keypkgs ← lift (collect (key_package_for_signer (cx_registry cx)) members);
      '(commit, welcome) ← on_group (λ p ident g,
        let '(p, g, r) := mls_add_members p ident g keypkgs in
        (p, g, map_err ChatError.Generic r));
      _ ← on_group (λ p _ g,
        let '(p, g, r) := mls_merge_pending p g in (p, g, map_err ChatError.Generic r));
      _ ← for_each members (λ s, step (λ '(cx, c),
        let '(d, r) := invite_user s welcome (cx_ds cx) in ((set_ds d cx, c), r)));
      bytes ← lift (map_err ChatError.MlsMessageError (mls_to_bytes commit));
      v1_send_payload bytes.

(** The leaves the named signers occupy. *)
Definition leaves_of (c : GroupV1Convo) (members : list SignerKey) : list N :=
  let wanted : gset SignerKey := list_to_set members in
  map m_index
    (filter (λ m, Signer_key (m_signature_key m) ∈ wanted) (mls_members (v1_group c))).

(** [GroupConvo::remove_signer]. *)
Definition v1_remove_signer (members : list SignerKey) : St V1 () :=
  '(cx, c) ← get;
  let leaves := leaves_of c members in
  if decide (mls_own_leaf (v1_group c) ∈ leaves) then fail ChatError.CannotRemoveSelf
  else if decide (leaves = []) then fail ChatError.NotAGroupMember
  else
    commit ← on_group (λ p ident g,
      let '(p, g, r) := mls_remove_members p ident g leaves in
      (p, g, map_err ChatError.Generic r));
    _ ← on_group (λ p _ g,
      let '(p, g, r) := mls_merge_pending p g in (p, g, map_err ChatError.Generic r));
    bytes ← lift (map_err ChatError.MlsMessageError (mls_to_bytes commit));
    v1_send_payload bytes.

(** [ConvoBase]. *)
Definition v1_signers (c : GroupV1Convo) : list Signer :=
  map (λ m, signer_from_leaf (m_signature_key m) (m_credential m)) (mls_members (v1_group c)).
Definition v1_pending_signers (c : GroupV1Convo) : list Signer := [].
Definition v1_can_send (c : GroupV1Convo) : bool := mls_is_active (v1_group c).
Definition v1_metadata (c : GroupV1Convo) : option ConvoMetadata := None.

(** [DirectV1Convo::new]. *)
Definition direct_new (members : list SignerKey) : St CX GroupV1Convo := λ cx,
  match v1_new cx with
  | (cx, Ok inner) =>
      match v1_add_signer members (cx, inner) with
      | ((cx, inner), Ok _) => (cx, Ok inner)
      | ((cx, _), Err e) => (cx, Err e)
      end
  | (cx, Err e) => (cx, Err e)
  end.
End group_v1.
Arguments GroupV1Convo : clear implicits.

(** ** The cache of sent hashes *)

(** The cache holds the last 25 of everything pushed. *)
Lemma push_outbound_last h l k :
  l = drop (length k - OUTBOUND_HASH_CACHE_SIZE) k →
  push_outbound h l = drop (length (k ++ [h]) - OUTBOUND_HASH_CACHE_SIZE) (k ++ [h]).
Proof.
  intros ->. unfold push_outbound, OUTBOUND_HASH_CACHE_SIZE.
  rewrite !length_app, length_drop. cbn [length]. case_match eqn:Hlt.
  - apply Nat.ltb_lt in Hlt.
    replace (length k + 1 - 25) with (S (length k - 25)) by lia.
    rewrite <- (drop_app_le k [h]) by lia.
    destruct (drop (length k - 25) (k ++ [h])) as [|x t] eqn:Hd.
    + apply (f_equal length) in Hd. rewrite length_drop, length_app in Hd. cbn in Hd. lia.
    + cbn [tail]. change (S (length k - 25)) with (1 + (length k - 25)).
      rewrite Nat.add_comm, <- drop_drop, Hd. done.
  - apply Nat.ltb_ge in Hlt. replace (length k + 1 - 25) with 0 by lia.
    by replace (length k - 25) with 0 by lia.
Qed.

Lemma push_outbound_len h l :
  length l ≤ OUTBOUND_HASH_CACHE_SIZE →
  length (push_outbound h l) ≤ OUTBOUND_HASH_CACHE_SIZE.
Proof.
  intros Hl. rewrite (push_outbound_last h l l); [|by rewrite (proj2 (Nat.sub_0_le _ _) Hl)].
  rewrite length_drop, length_app. unfold OUTBOUND_HASH_CACHE_SIZE in *. cbn. lia.
Qed.

(** A hash stays in the cache for the next 24 pushes. *)
Lemma push_outbound_recent h l hs :
  length l ≤ OUTBOUND_HASH_CACHE_SIZE → length hs < OUTBOUND_HASH_CACHE_SIZE →
  h ∈ fold_left (λ l h, push_outbound h l) hs (push_outbound h l).
Proof.
  intros Hl Hhs.
  assert (∀ hs k l, l = drop (length k - OUTBOUND_HASH_CACHE_SIZE) k →
    fold_left (λ l h, push_outbound h l) hs l =
    drop (length (k ++ hs) - OUTBOUND_HASH_CACHE_SIZE) (k ++ hs)) as Hfold.
  { clear. induction hs as [|x hs IH]; intros k l Hk; cbn [fold_left].
    - by rewrite app_nil_r.
    - rewrite (IH (k ++ [x])); [by rewrite <- app_assoc|]. by apply push_outbound_last. }
  rewrite (Hfold hs (l ++ [h])); [|apply push_outbound_last;
    by rewrite (proj2 (Nat.sub_0_le _ _) Hl)].
  rewrite <- app_assoc, !length_app. rewrite drop_app_le.
  - apply elem_of_app. right. apply elem_of_app. left. by apply list_elem_of_singleton.
  - unfold OUTBOUND_HASH_CACHE_SIZE in *. cbn in *. lia.
Qed.

Section lemmas.
Context {HX : Hex} {B : Blake2b} {PB : Prost} {P G : Type} {ML : OpenMls P G}.
Context {DS : Type} {DSI : DeliveryService DS} {RS : Type} {RSI : RegistrationService RS}.
Context {CS WS E : Type} {A : AuthService E}.

Abbreviation CX := (ServiceContext DS RS CS P WS).
Abbreviation V1 := (CX * GroupV1Convo G)%type.
Implicit Types (cx : CX) (c : GroupV1Convo G).

(** What every operation on a conversation keeps: its id, who we are, the
    stores it does not own, and the bound of its cache. *)
Definition v1_frame (s s' : V1) : Prop :=
  v1_convo_id s'.2 = v1_convo_id s.2 ∧
  cx_identity s'.1 = cx_identity s.1 ∧ cx_store s'.1 = cx_store s.1 ∧
  cx_registry s'.1 = cx_registry s.1 ∧ cx_wakeup s'.1 = cx_wakeup s.1 ∧
  (length (v1_outbound s.2) ≤ OUTBOUND_HASH_CACHE_SIZE →
   length (v1_outbound s'.2) ≤ OUTBOUND_HASH_CACHE_SIZE).

#[local] Instance v1_frame_refl : Reflexive v1_frame.
Proof. by intros s. Qed.
#[local] Instance v1_frame_trans : Transitive v1_frame.
Proof.
  intros s t u (H1 & H2 & H3 & H4 & H5 & H6) (K1 & K2 & K3 & K4 & K5 & K6).
  split_and!; [congruence..|auto].
Qed.

Lemma on_group_frame {X} (f : P → Ident → G → P * G * result ChatError.t X) :
  keeps v1_frame (on_group f).
Proof. intros [cx c]. unfold on_group, step. by destruct (f _ _ _) as [[p g] r]. Qed.

Lemma v1_send_payload_frame bytes : keeps v1_frame (v1_send_payload bytes).
Proof.
  intros [cx c]. unfold v1_send_payload, step. destruct (ds_publish _ _) as [d r].
  split_and!; try done. cbn. apply push_outbound_len.
Qed.

Ltac v1_keeps := solve_keeps
  ltac:(first [ apply on_group_frame | apply v1_send_payload_frame | by intros [] ]).

Lemma v1_send_content_frame content : keeps v1_frame (v1_send_content content).
Proof. unfold v1_send_content. v1_keeps. Qed.

Lemma v1_process_frame msg : keeps v1_frame (v1_process msg).
Proof. unfold v1_process. v1_keeps. Qed.

Lemma v1_handle_payload_frame payload : keeps v1_frame (v1_handle_payload payload).
Proof. unfold v1_handle_payload. solve_keeps ltac:(apply v1_process_frame). Qed.

Lemma v1_wakeup_frame : keeps v1_frame v1_wakeup.
Proof. unfold v1_wakeup. v1_keeps. Qed.

Lemma v1_add_signer_frame members : keeps v1_frame (v1_add_signer members).
Proof.
  unfold v1_add_signer. v1_keeps.
  intros [cx' c']. unfold step. by destruct (invite_user _ _ _) as [d r].
Qed.

Lemma v1_remove_signer_frame members : keeps v1_frame (v1_remove_signer members).
Proof. unfold v1_remove_signer. v1_keeps. Qed.

(** Where content comes from: an application message MLS decrypted, from a
    leaf of the group the auth service vouches for. *)
Definition content_of (g : G) (processed : ProcessedMessage StagedCommit) (ct : Content) : Prop :=
  ∃ index leaf bytes reliable,
    pm_sender processed = Some index ∧ mls_member_at g index = Some leaf ∧
    pm_content processed = ApplicationMessage bytes ∧ reliable_decode bytes = Ok reliable ∧
    vouched (Signer_key (m_signature_key leaf)) (Participant (m_credential leaf)) ∧
    ct = {| ct_bytes := p_content reliable;
            ct_sender := Authenticated (signer_from_leaf (m_signature_key leaf) (m_credential leaf));
            ct_message_id := p_message_id reliable |}.

Lemma content_from_Some sender reliable ct :
  content_from sender reliable = Some ct ↔
  ∃ leaf, sender = Some leaf ∧
    vouched (Signer_key (m_signature_key leaf)) (Participant (m_credential leaf)) ∧
    ct = {| ct_bytes := p_content reliable;
            ct_sender := Authenticated (signer_from_leaf (m_signature_key leaf) (m_credential leaf));
            ct_message_id := p_message_id reliable |}.
Proof.
  unfold content_from, vouched. rewrite bind_Some. split.
  - intros (leaf & -> & (a & [-> Hv]%require_valid_Some & [= <-])%bind_Some). eauto.
  - intros (leaf & -> & Hv & ->). exists leaf. split; [done|]. apply bind_Some.
    eexists. split; [|reflexivity]. by apply require_valid_Some.
Qed.

Lemma v1_process_Ok msg cx c s' ct :
  v1_process msg (cx, c) = (s', Ok ct) →
  ∃ p g processed,
    mls_process (cx_provider cx) (v1_group c) msg = (p, g, Ok processed) ∧
    match ct with
    | Some ct => content_of g processed ct ∧ v1_group s'.2 = g
    | None => True
    end.
Proof.
  unfold v1_process. intros ([cx1 c1] & pm & H1 & H)%st_bind_Ok.
  unfold on_group, step in H1. destruct (mls_process _ _ _) as [[p g] [pm'|e]] eqn:Hp; [|done].
  cbn in H1. injection H1 as <- <- <-. exists p, g, pm'. split; [done|].
  destruct ct as [ct|]; [|done].
  apply st_bind_Ok in H as (s1 & [cx1 c1] & [= <- <- <-] & H). cbn [fst snd] in H.
  destruct (pm_content pm') as [bytes|commit|] eqn:Hc.
  - apply st_bind_Ok in H as (s2 & reliable & H2 & H). unfold lift in H2.
    destruct (reliable_decode bytes) as [r|] eqn:Hr; [|done]. injection H2 as <- <-.
    apply st_bind_Ok in H as (s3 & [] & [= <-] & H). injection H as <- Hct.
    split; [|done]. apply content_from_Some in Hct as (leaf & Hs & Hv & ->).
    apply bind_Some in Hs as (index & Hi & Hl). unfold content_of. cbn in Hl. eauto 12.
  - apply st_bind_Ok in H as (s2 & [] & _ & [=]).
  - done.
Qed.

(** A payload that yields something got past every drop. *)
Lemma v1_handle_payload_Ok payload cx c s' out :
  v1_handle_payload payload (cx, c) = (s', Ok out) →
  co_convo_id out = v1_convo_id c ∧
  (s' = (cx, c) ∧ observations out = [] ∨
   ∃ bytes msg_in msg content,
     encrypted_decode payload = Ok {| encryption := Some (Plaintext bytes) |} ∧
     mls_is_active (v1_group c) = true ∧ (msg_hash bytes ∉ v1_outbound c) ∧
     mls_from_bytes_exact bytes = Ok msg_in ∧ mls_into_protocol msg_in = Ok msg ∧
     (mls_epoch (v1_group c) ≤ mls_message_epoch msg)%N ∧
     v1_process msg (cx, c) = (s', Ok content) ∧
     observations out = map ObsContent (option_list content)).
Proof.
  unfold v1_handle_payload. intros (s1 & enc & H1 & H)%st_bind_Ok. unfold lift in H1.
  destruct (encrypted_decode payload) as [enc'|] eqn:He; [|done]. injection H1 as <- <-.
  apply st_bind_Ok in H as (s2 & bytes & H2 & H). unfold lift in H2.
  destruct enc' as [[[bytes'|]|]]; cbn in H2; try done. injection H2 as <- <-.
  apply st_bind_Ok in H as (s3 & [cx3 c3] & [= <- <- <-] & H). cbn [fst snd] in H.
  destruct (mls_is_active (v1_group c)) eqn:Ha; cbn [negb] in H.
  2: { injection H as <- <-. auto. }
  case_decide as Hh; [injection H as <- <-; auto|].
  apply st_bind_Ok in H as (s4 & msg_in & H4 & H). unfold lift in H4.
  destruct (mls_from_bytes_exact bytes') as [mi|] eqn:Hmi; [|done]. injection H4 as <- <-.
  apply st_bind_Ok in H as (s5 & msg & H5 & H). unfold lift in H5.
  destruct (mls_into_protocol mi) as [m|] eqn:Hm; [|done]. injection H5 as <- <-.
  destruct (N.ltb_spec (mls_message_epoch m) (mls_epoch (v1_group c))).
  { injection H as <- <-. auto. }
  apply st_bind_Ok in H as (s6 & ct & H6 & [= <- <-]).
  split; [done|]. right. eauto 15.
Qed.
End lemmas.
