(* ===== verification/GroupV3.v ===== *)
(** * GroupV3 conversations ([core/conversations/src/conversation/group_v3.rs],
      [group_v3/handlers.rs], [group_v3/payloads.rs], [mls_groups.rs],
      [mls_extensions.rs])

    A group over MLS that names messages by the hash of their plaintext frame,
    publishes a commit before merging it, and carries its name and
    description in a group-context extension. *)

From Stdlib Require Import Strings.Byte Strings.String.
From stdpp Require Import base gmap strings numbers list pretty.
From S2P Require Import Prelude Utf8 Hex Ed25519 Identity CausalHistory Storage Delivery Services.
From S2P Require Import MlsUtils GroupV1.

(** ** Metadata extension *)

Definition GROUP_METADATA_EXTENSION_TYPE : N := 65281. (* 0xFF01 *)

(** The [tls_codec] crate: variable-length opaque vectors, and the message of
    an input that ends early. *)
Class TlsCodec := {
  vl_write : list byte → result string (list byte);
  vl_read : list byte → result string (list byte * list byte);
  tls_end_of_stream : string;
}.

(** Documented: a vector has less than 2^30 bytes, which its length prefix can
    say; it reads back, and a longer one is refused. *)
Definition TLS_VEC_LIMIT : N := 2 ^ 30.
Definition vl_fits (b : list byte) : Prop := (N.of_nat (length b) < TLS_VEC_LIMIT)%N.
Class TlsCodecLaws (TC : TlsCodec) := {
  vl_write_fits b : vl_fits b →
    ∃ w, vl_write b = Ok w ∧ ∀ rest, vl_read (w ++ rest) = Ok (b, rest);
  vl_write_long b : ¬ vl_fits b → ∃ e, vl_write b = Err e;
}.

Inductive ConvoMetaInfoVersion : Type := V1Meta.
Definition meta_version_u16 (v : ConvoMetaInfoVersion) : N := match v with V1Meta => 1%N end.
Definition meta_version_try_from (value : N) : result string ConvoMetaInfoVersion :=
  if (value =? 1)%N then Ok V1Meta
  else Err ("unknown ConvoMetaInfo version " ++ pretty value)%string.

Record ConvoMetaInfo := {
  mi_version : ConvoMetaInfoVersion; mi_name : string; mi_desc : string }.
Definition meta_new (name desc : string) : ConvoMetaInfo :=
  {| mi_version := V1Meta; mi_name := name; mi_desc := desc |}.

Section meta.
Context {TC : TlsCodec}.

(** [Serialize for ConvoMetaInfo]. *)
Definition meta_tls_serialize (m : ConvoMetaInfo) : result string (list byte) :=
  name ← vl_write (str_bytes (mi_name m));
  desc ← vl_write (str_bytes (mi_desc m));
  Ok (to_be_bytes 2 (meta_version_u16 (mi_version m)) ++ name ++ desc).

(** [None] is the panic of [expect]. *)
Definition to_extension_bytes (m : ConvoMetaInfo) : option (list byte) :=
  match meta_tls_serialize m with Ok bytes => Some bytes | Err _ => None end.

Definition u16_tls_deserialize (bytes : list byte) : result string (N * list byte) :=
  match bytes with
  | a :: b :: rest => Ok ((Byte.to_N a * 256 + Byte.to_N b)%N, rest)
  | _ => Err tls_end_of_stream
  end.

Definition vl_string (bytes : list byte) : result string (string * list byte) :=
  '(raw, rest) ← vl_read bytes;
  s ← ok_or (from_utf8 raw) "invalid utf-8 in ConvoMetaInfo"%string;
  Ok (s, rest).

(** Reads from the front; what follows is left. *)
Definition from_extension_bytes (bytes : list byte) : result string ConvoMetaInfo :=
  '(v, rest) ← u16_tls_deserialize bytes;
  version ← meta_version_try_from v;
  '(name, rest) ← vl_string rest;
  '(desc, _) ← vl_string rest;
  Ok {| mi_version := version; mi_name := name; mi_desc := desc |}.

(** [find_map] over the group context's unknown extensions. *)
Fixpoint metadata_from (exts : list (N * list byte)) : option ConvoMetadata :=
  match exts with
  | [] => None
  | (ty, bytes) :: exts =>
      match (if (ty =? GROUP_METADATA_EXTENSION_TYPE)%N
             then match from_extension_bytes bytes with Ok m => Some m | Err _ => None end
             else None) with
      | Some m => Some {| md_name := mi_name m; md_desc := mi_desc m |}
      | None => metadata_from exts
      end
  end.
End meta.

(** ** The conversation *)

Section group_v3.
Context {HX : Hex} {B : Blake2b} {PB : Prost} {TC : TlsCodec} {P G : Type} {ML : OpenMls P G}.
Context {DS : Type} {DSI : DeliveryService DS} {RS : Type} {RSI : RegistrationService RS}.
Context {CS WS E : Type} {A : AuthService E}.

Record GroupV3Convo := { v3_convo_id : string; v3_group : G }.

Abbreviation CX := (ServiceContext DS RS CS P WS).
Abbreviation V3 := (CX * GroupV3Convo)%type.

Definition v3_on_group {X} (f : P → Ident → G → P * G * result ChatError.t X) : St V3 X :=
  step (λ '(cx, c),
    let '(p, g, r) := f (cx_provider cx) (cx_identity cx) (v3_group c) in
    ((set_provider p cx, {| v3_convo_id := v3_convo_id c; v3_group := g |}), r)).

Definition v3_delivery_address (convo_id : string) : string :=
  blake2b_hex hash_DeliveryAddr [str_bytes "delivery_addr|"; str_bytes convo_id].

Definition v3_frame_id (frame_bytes : list byte) : string :=
  blake2b_hex hash_MessageId [str_bytes "logos-chat|message_id|"; frame_bytes].

Definition frame_from_content (bytes : list byte) : GroupV3Frame :=
  {| v3_payload := Some bytes |}.

Definition to_payload (msg : MlsMessageOut) : result SendError.t (list byte) :=
  bytes ← map_err SendError.MlsMessageError (mls_to_bytes msg);
  Ok (v3_payload_encode
        {| encrypted_header := [x00; x00; x00; x00]; encrypted_frame := bytes |}).

Definition to_envelope (convo_id : string) (msg : MlsMessageOut)
  : result SendError.t AddressedEnvelope :=
  payload ← to_payload msg;
  Ok (addressed_envelope (v3_delivery_address convo_id) convo_id payload).

(** [init]: listen on the conversation's address. *)
Definition v3_init (convo_id : string) : St CX () := step (λ cx,
  let '(d, r) := ds_subscribe (cx_ds cx) (v3_delivery_address convo_id) in
  (set_ds d cx, map_err ChatError.Generic r)).

(** [publish_envelope] and [publish_mls_msg]. *)
Definition v3_publish_envelope (env : AddressedEnvelope) (cx : CX)
  : CX * result SendError.t () :=
  let '(d, r) := ds_publish (cx_ds cx) env in (set_ds d cx, map_err SendError.Delivery r).

Definition v3_publish_mls_msg (convo_id : string) (msg : MlsMessageOut) (cx : CX)
  : CX * result SendError.t () :=
  match to_envelope convo_id msg with
  | Err e => (cx, Err e)
  | Ok env => v3_publish_envelope env cx
  end.

(** [send_frame], behind [Convo::send_content]. *)
Definition v3_send_content (content : list byte) : St V3 string :=
  let frame := v3_frame_encode (frame_from_content content) in
  mls_msg ← v3_on_group (λ p ident g,
    let '(p, g, r) := mls_create_message p ident g frame in
    (p, g, map_err (λ e, ChatError.SendFailed (SendError.MlsCreate e)) r));
  _ ← step (λ '(cx, c),
    let '(cx, r) := v3_publish_mls_msg (v3_convo_id c) mls_msg cx in
    ((cx, c), map_err ChatError.SendFailed r));
  mret (v3_frame_id frame).

(** [send_pending_commit]: publish, then merge, then the welcomes; a commit
    that could not be published is discarded. *)
Definition v3_send_pending_commit (commit : MlsMessageOut) (dependent : list AddressedEnvelope)
  : St V3 () := λ '(cx, c),
  match v3_publish_mls_msg (v3_convo_id c) commit cx with
  | (cx, Err e) =>
      let '(p, g, _) := mls_clear_pending (cx_provider cx) (v3_group c) in
      ((set_provider p cx, {| v3_convo_id := v3_convo_id c; v3_group := g |}),
       Err (Error (ChatError.SendFailed e)))
  | (cx, Ok _) =>
      (_ ← v3_on_group (λ p _ g,
         let '(p, g, r) := mls_merge_pending p g in
         (p, g, map_err ChatError.MlsMergeCommit r));
       for_each dependent (λ env, step (λ '(cx, c),
         let '(cx, r) := v3_publish_envelope env cx in
         ((cx, c), map_err ChatError.SendFailed r)))) (cx, c)
  end.

(** [HasMlsConvo]'s [signers]. *)
Definition v3_signers (c : GroupV3Convo) : result ChatError.t (list Signer) :=
  map_err ChatError.ConversionError
    (collect (λ m,
       pid ← mls_member_participant m;
       Ok {| signer := Signer_key (m_signature_key m); participant_id := pid |})
     (mls_members (v3_group c))).

(** [pending_signers] and [remove_signer] are [todo!()]. *)
Definition v3_pending_signers (c : GroupV3Convo) : result Fault (list Signer) := Err Panic.
Definition v3_remove_signer (signers : list SignerKey) : St V3 () := panic.
Definition v3_can_send (c : GroupV3Convo) : bool := true.
Definition v3_metadata (c : GroupV3Convo) : option ConvoMetadata :=
  metadata_from (mls_extensions (v3_group c)).

(** [GroupConvo::add_signer]. *)
Definition v3_add_signer (signers : list SignerKey) : St V3 () :=
  '(cx, c) ← get;
  existing ← lift (v3_signers c);
  key_packages ← lift (fetch_key_packages (cx_registry cx) (unique (member_diff signers existing)));
  if decide (length key_packages = 0) then mret ()
  else
    '(commit, welcome) ← v3_on_group (λ p ident g,
      let '(p, g, r) := mls_add_members p ident g key_packages in
      (p, g, map_err ChatError.Generic r));
    invites ← lift (map_err ChatError.SendFailed
      (collect (λ kp, create_invite_v3 (Signer_key (kp_signature_key kp)) welcome) key_packages));
    v3_send_pending_commit commit invites.

(** [GroupV3Convo::new], for the metadata the group is created with. *)
Definition v3_new (name desc : string) (signers : list SignerKey) : St CX GroupV3Convo := λ cx,
  match to_extension_bytes (meta_new name desc) with
  | None => (cx, Err Panic)
  | Some metadata =>
  let '(p, r) := mls_new (cx_provider cx) (cx_identity cx) (Some metadata) in
  let cx := set_provider p cx in
  match r with
  | Err e => (cx, Err (Error (ChatError.GroupCreate e)))
  | Ok g =>
      let c := {| v3_convo_id := bytes_str (hex_encode (mls_group_id g)); v3_group := g |} in
      match v3_init (v3_convo_id c) cx with
      | (cx, Err e) => (cx, Err e)
      | (cx, Ok _) =>
          match v3_add_signer signers (cx, c) with
          | ((cx, _), Err e) => (cx, Err e)
          | ((cx, c), Ok _) => (cx, Ok c)
          end
      end
  end
  end.

Definition v3_from_welcome (w : Welcome) : St CX GroupV3Convo :=
  g ← step (λ cx,
    let '(p, r) := mls_join (cx_provider cx) w in
    (set_provider p cx, map_err ChatError.Generic r));
  let convo_id := bytes_str (hex_encode (mls_group_id g)) in
  _ ← v3_init convo_id;
  mret {| v3_convo_id := convo_id; v3_group := g |}.

(** [handle_mls_application_message]. *)
Definition v3_application (sender : option Member) (bytes : list byte) : St V3 ConvoOutcome :=
  '(_, c) ← get;
  frame ← lift (map_err ChatError.DecodeError (v3_frame_decode bytes));
  match v3_payload frame with
  | None => mret (outcome_empty (v3_convo_id c))
  | Some content =>
      let content :=
        leaf ← sender;
        a ← require_valid (signer_from_leaf (m_signature_key leaf) (m_credential leaf));
        Some {| ct_bytes := content; ct_sender := a; ct_message_id := v3_frame_id bytes |} in
      mret {| co_convo_id := v3_convo_id c; observations := map ObsContent (option_list content) |}
  end.

(** [EpochFingerprint::from]; [None] is the panic of its [expect]. *)
Definition epoch_fingerprint (commit : StagedCommit) : option string :=
  authenticator ← mls_epoch_authenticator commit;
  Some (blake2b_hex hash_EpochFingerprint
    [str_bytes "logos-chat|epoch-fingerprint|v1" ++ [x00]; authenticator]).
Definition default_outcome (c : GroupV3Convo) : ConvoOutcome := outcome_empty (v3_convo_id c).

(** [handle_mls_commit]; the fingerprint [expect]s an epoch authenticator. *)
Definition v3_commit (commit : StagedCommit) : St V3 ConvoOutcome :=
  '(_, c) ← get;
  match epoch_fingerprint commit with
  | None => panic
  | Some _ =>
      _ ← v3_on_group (λ p _ g,
        let '(p, g, r) := mls_merge_staged p g commit in (p, g, map_err ChatError.Generic r));
      mret {| co_convo_id := co_convo_id (default_outcome c); observations := [SignersChanged] |}
  end.

(** [handle_mls_protocol_msg] and [handle_mls_msg]. *)
Definition v3_protocol_msg (msg : ProtocolMessage) : St V3 ConvoOutcome := λ '(cx, c),
  if (mls_message_epoch msg <? mls_epoch (v3_group c))%N
  then ((cx, c), Ok (outcome_empty (v3_convo_id c)))
  else
    let '(p, g, r) := mls_process (cx_provider cx) (v3_group c) msg in
    let s := (set_provider p cx, {| v3_convo_id := v3_convo_id c; v3_group := g |}) in
    match r with
    | Err e =>
        if pe_own_message e then (s, Ok (outcome_empty (v3_convo_id c)))
        else (s, Err (Error (ChatError.Generic (pe_text e))))
    | Ok processed =>
        let sender := i ← pm_sender processed; mls_member_at g i in
        match pm_content processed with
        | ApplicationMessage bytes => v3_application sender bytes s
        | StagedCommitMessage commit => v3_commit commit s
        | OtherContent => (s, Ok (outcome_empty (v3_convo_id c)))
        end
    end.

(** [Convo::handle_payload] and [Convo::wakeup]. *)
Definition v3_handle_payload (payload : list byte) : St V3 ConvoOutcome :=
  payload ← lift (map_err ChatError.DecodeError (v3_payload_decode payload));
  msg_in ← lift (map_err ChatError.Generic (mls_from_bytes_exact (encrypted_frame payload)));
  msg ← lift (map_err ChatError.Generic (mls_into_protocol msg_in));
  v3_protocol_msg msg.

Definition v3_wakeup : St V3 ConvoOutcome :=
  '(_, c) ← get; mret (outcome_empty (v3_convo_id c)).
End group_v3.
Arguments GroupV3Convo : clear implicits.

(** ** Lemmas *)

Section lemmas.
Context {HX : Hex} {B : Blake2b} {PB : Prost} {TC : TlsCodec} {P G : Type} {ML : OpenMls P G}.
Context {DS : Type} {DSI : DeliveryService DS} {RS : Type} {RSI : RegistrationService RS}.
Context {CS WS E : Type} {A : AuthService E}.

Abbreviation CX := (ServiceContext DS RS CS P WS).
Abbreviation V3 := (CX * GroupV3Convo G)%type.

(** What every operation keeps, the causal history included: GroupV3 does not
    use it. *)
Definition v3_kept (s s' : V3) : Prop :=
  v3_convo_id s'.2 = v3_convo_id s.2 ∧
  cx_identity s'.1 = cx_identity s.1 ∧ cx_store s'.1 = cx_store s.1 ∧
  cx_registry s'.1 = cx_registry s.1 ∧ cx_causal s'.1 = cx_causal s.1.

#[export] Instance v3_kept_refl : Reflexive v3_kept.
Proof. by intros s. Qed.
#[export] Instance v3_kept_trans : Transitive v3_kept.
Proof.
  intros s t u (H1 & H2 & H3 & H4 & H5) (K1 & K2 & K3 & K4 & K5). split_and!; congruence.
Qed.

Lemma v3_on_group_kept {X} (f : P → Ident → G → P * G * result ChatError.t X) :
  keeps v3_kept (v3_on_group f).
Proof. intros [cx c]. unfold v3_on_group, step. by destruct (f _ _ _) as [[p g] r]. Qed.

Lemma v3_publish_kept env (cx : CX) :
  cx_identity (v3_publish_envelope env cx).1 = cx_identity cx ∧
  cx_store (v3_publish_envelope env cx).1 = cx_store cx ∧
  cx_registry (v3_publish_envelope env cx).1 = cx_registry cx ∧
  cx_causal (v3_publish_envelope env cx).1 = cx_causal cx.
Proof. unfold v3_publish_envelope. by destruct (ds_publish _ _) as [d r]. Qed.

Lemma v3_publish_mls_kept id msg (cx : CX) :
  cx_identity (v3_publish_mls_msg id msg cx).1 = cx_identity cx ∧
  cx_store (v3_publish_mls_msg id msg cx).1 = cx_store cx ∧
  cx_registry (v3_publish_mls_msg id msg cx).1 = cx_registry cx ∧
  cx_causal (v3_publish_mls_msg id msg cx).1 = cx_causal cx.
Proof.
  unfold v3_publish_mls_msg. destruct (to_envelope id msg); [apply v3_publish_kept|done].
Qed.

Lemma v3_send_content_kept content : keeps v3_kept (v3_send_content content).
Proof.
  unfold v3_send_content. solve_keeps ltac:(apply v3_on_group_kept).
  intros [cx c]. unfold step. pose proof (v3_publish_mls_kept (v3_convo_id c) a cx) as H.
  destruct (v3_publish_mls_msg _ _ _) as [cx' r]. by split.
Qed.

Lemma v3_send_pending_commit_kept commit dependent :
  keeps v3_kept (v3_send_pending_commit commit dependent).
Proof.
  intros [cx c]. unfold v3_send_pending_commit.
  pose proof (v3_publish_mls_kept (v3_convo_id c) commit cx) as H.
  destruct (v3_publish_mls_msg _ _ _) as [cx1 [[]|e]]; cbn [fst] in H.
  - trans (cx1, c); [by split|]. match goal with |- v3_kept _ (?m _).1 =>
      enough (keeps v3_kept m) as Hm by exact (Hm (cx1, c)) end.
    solve_keeps ltac:(apply v3_on_group_kept). intros [cx2 c2]. unfold step.
    pose proof (v3_publish_kept x cx2) as H2. destruct (v3_publish_envelope x cx2) as [cx3 r].
    by split.
  - destruct (mls_clear_pending _ _) as [[p g] r]. by split.
Qed.

Lemma v3_add_signer_kept l : keeps v3_kept (v3_add_signer l).
Proof.
  unfold v3_add_signer.
  solve_keeps ltac:(first [ apply v3_on_group_kept | apply v3_send_pending_commit_kept ]).
Qed.

Lemma v3_application_kept sender bytes : keeps v3_kept (v3_application sender bytes).
Proof. unfold v3_application. solve_keeps ltac:(apply v3_on_group_kept). Qed.

Lemma v3_commit_kept commit : keeps v3_kept (v3_commit commit).
Proof. unfold v3_commit. solve_keeps ltac:(apply v3_on_group_kept). Qed.

Lemma v3_protocol_msg_kept msg : keeps v3_kept (v3_protocol_msg msg).
Proof.
  intros [cx c]. unfold v3_protocol_msg. destruct (_ <? _)%N; [done|].
  destruct (mls_process _ _ _) as [[p g] [pm|e]]; [|by destruct (pe_own_message e)].
  set (s := (set_provider p cx, _)). cbv zeta. trans s; [done|].
  destruct (pm_content pm); [apply v3_application_kept|apply v3_commit_kept|done].
Qed.

Lemma v3_handle_payload_kept payload : keeps v3_kept (v3_handle_payload payload).
Proof. unfold v3_handle_payload. solve_keeps ltac:(apply v3_protocol_msg_kept). Qed.

Lemma v3_application_id sender bytes (cx : CX) (c : GroupV3Convo G) s' out :
  v3_application sender bytes (cx, c) = (s', Ok out) → co_convo_id out = v3_convo_id c.
Proof.
  unfold v3_application, mbind, st_bind, get, lift. cbv beta iota.
  destruct (v3_frame_decode bytes) as [fr|]; cbn [map_err]; [|done].
  by destruct (v3_payload fr); intros [= <- <-].
Qed.

(** Every outcome is this conversation's. *)
Lemma v3_handle_payload_id payload (cx : CX) (c : GroupV3Convo G) s' out :
  v3_handle_payload payload (cx, c) = (s', Ok out) → co_convo_id out = v3_convo_id c.
Proof.
  unfold v3_handle_payload. intros (s1 & pl & H1 & H)%st_bind_Ok.
  assert (s1 = (cx, c)) as -> by (by injection H1).
  apply st_bind_Ok in H as (s2 & mi & H2 & H). assert (s2 = (cx, c)) as -> by (by injection H2).
  apply st_bind_Ok in H as (s3 & msg & H3 & H). assert (s3 = (cx, c)) as -> by (by injection H3).
  unfold v3_protocol_msg in H. destruct (_ <? _)%N; [by simplify_eq|].
  destruct (mls_process _ _ _) as [[p g] [pm|e]].
  - destruct (pm_content pm) as [bytes|commit|]; [|unfold v3_commit in H|by simplify_eq].
    + by apply v3_application_id in H.
    + apply st_bind_Ok in H as (s4 & [cx4 c4] & [= <- <- <-] & H). cbn in H.
      destruct (epoch_fingerprint commit); [|done].
      by apply st_bind_Ok in H as (s5 & [] & _ & [= <- <-]).
  - by destruct (pe_own_message e); simplify_eq.
Qed.
End lemmas.

Section meta_lemmas.
Context {TC : TlsCodec} {TL : TlsCodecLaws TC}.

(** Metadata serializes exactly when both fields fit, and reads back. *)
Lemma meta_serializes name desc :
  (to_extension_bytes (meta_new name desc) = None ↔
     ¬ vl_fits (str_bytes name) ∨ ¬ vl_fits (str_bytes desc)) ∧
  ∀ bytes, to_extension_bytes (meta_new name desc) = Some bytes →
    utf8_valid (str_bytes name) = true → utf8_valid (str_bytes desc) = true →
    from_extension_bytes bytes = Ok (meta_new name desc).
Proof.
  unfold to_extension_bytes, meta_tls_serialize, meta_new. cbn [mi_version mi_name mi_desc].
  destruct (decide (N.of_nat (length (str_bytes name)) < TLS_VEC_LIMIT)%N) as [Fn|Fn].
  2: { destruct (vl_write_long _ Fn) as [e ->]. split; [|done]. by split; [left|]. }
  destruct (vl_write_fits _ Fn) as (wn & -> & Rn).
  destruct (decide (N.of_nat (length (str_bytes desc)) < TLS_VEC_LIMIT)%N) as [Fd|Fd].
  2: { destruct (vl_write_long _ Fd) as [e ->]. split; [|done]. by split; [right|]. }
  destruct (vl_write_fits _ Fd) as (wd & -> & Rd). cbn [mbind result_bind]. split; [unfold vl_fits; naive_solver|].
  intros bytes [= <-] Hn Hd. unfold from_extension_bytes, vl_string.
  change (to_be_bytes 2 (meta_version_u16 V1Meta)) with [x00; x01].
  cbn [app u16_tls_deserialize mbind result_bind].
  change (meta_version_try_from (Byte.to_N x00 * 256 + Byte.to_N x01)) with (Ok (E := string) V1Meta).
  cbn [mbind result_bind]. rewrite Rn. cbn [mbind result_bind]. unfold from_utf8. rewrite Hn.
  cbn [ok_or mbind result_bind]. rewrite <- (app_nil_r wd), Rd. cbn [mbind result_bind]. rewrite Hd. cbn.
  by rewrite !string_of_list_byte_of_string.
Qed.
End meta_lemmas.
