(* ===== verification/GroupV2.v ===== *)
(** * GroupV2 conversations ([core/conversations/src/conversation/group_v2.rs])

    A group run by the de-mls consensus library: membership changes are voted
    and surface as events. The library is an interface; what the code keeps
    beside it (the invites it made and the member directory), how it routes
    events, publishes and re-arms its wake-up is modelled. The records it writes
    to the trace log are in [Trace], which shows that they change nothing. *)

From Stdlib Require Import Strings.Byte Strings.String.
From stdpp Require Import base gmap strings numbers list.
From S2P Require Import Prelude Utf8 Hex Ed25519 Identity CausalHistory Storage Delivery Services.
From S2P Require Import MlsUtils GroupV1 GroupV3.

(** ** de-mls *)

Abbreviation MemberId := (list byte).

Record MemberWelcome := {
  mw_welcome_bytes : list byte;
  mw_sync_bytes : list byte;
  mw_joiners : list (list byte);
}.

(** A message event carries [Some] when its payload is a conversation message. *)
Inductive ConversationEvent : Type :=
| WelcomeReady (welcome : MemberWelcome)
| MembersChanged (added : list Member) (removed : list MemberId)
| ConversationMessage (message : option (list byte)) (sender : Member)
| CommitApplied
| Leaving
| OtherEvent.

Record Outbound := { ob_payload : list byte; ob_sender : list byte; ob_conversation_id : string }.

Inductive ConversationError : Type :=
| AlreadyMember
| MemberGone
| OtherError (e : string).

(** [K] is a conversation, [Seed] the randomness and policy it is made with, and
    [P] all that the library reads and changes beside the conversation: the
    provider's keys and randomness, and the clock of [GroupV2Clock]. *)
Class DeMls (P K : Type) := {
  Seed : Type;
  dm_create : P → Ident → string → list byte → Seed → list (list byte) → P * result string K;
  dm_join : P → Ident → list byte → list byte → Seed → P * result string (option K);
  dm_id : K → string;
  dm_members : K → list Member;
  dm_member_id : Member → MemberId;
  dm_own_member_id : K → MemberId;
  dm_process : P → Ident → K → list byte → list byte → P * K * result string ();
  dm_poll : P → Ident → K → P * K;
  dm_add_member : P → Ident → K → list byte → P * K * result ConversationError ();
  dm_remove_member : P → Ident → K → MemberId → P * K * result ConversationError ();
  dm_send_message : P → Ident → K → list byte → P * K * result string ();
  dm_drain_events : K → K * list ConversationEvent;
  dm_drain_outbound : K → K * list Outbound;
  dm_next_wakeup : P → K → option N;
  dm_extensions : K → list (N * list byte);
  dm_error_text : ConversationError → string;
}.

Inductive GroupV2Payload : Type := DeMlsWrapper (b : list byte) | MlsCommitMessage (b : list byte).
Record GroupV2Frame := { v2f_payload : option GroupV2Payload; v2f_sender_app_id : list byte }.

Class ProstV2 := {
  v2_frame_encode : GroupV2Frame → list byte;
  v2_frame_decode : list byte → result string GroupV2Frame;
  welcome_encode : MemberWelcome → list byte;
  welcome_decode : list byte → result string MemberWelcome;
}.

(** ** The conversation *)

Record FetchedMember := {
  fm_signature_key : list byte; fm_credential : list byte; fm_key_package : list byte }.

Section group_v2.
Context {HX : Hex} {B : Blake2b} {PB : Prost} {PB2 : ProstV2} {TC : TlsCodec}.
Context {P G K : Type} {ML : OpenMls P G} {DM : DeMls P K}.
Context {DS : Type} {DSI : DeliveryService DS} {RS : Type} {RSI : RegistrationService RS}.
Context {CS : Type} {WS : Type} {WSI : WakeupService WS} {E : Type} {A : AuthService E}.

Record GroupV2Convo := {
  v2_convo_id : string;
  v2_conversation : K;
  v2_pending_invites : gmap (list byte) (list byte);
  v2_member_directory : gmap MemberId SignerKey;
}.

Abbreviation CX := (ServiceContext DS RS CS P WS).
Abbreviation V2 := (CX * GroupV2Convo)%type.

Definition set_conversation (k : K) (c : GroupV2Convo) : GroupV2Convo :=
  {| v2_convo_id := v2_convo_id c; v2_conversation := k;
     v2_pending_invites := v2_pending_invites c; v2_member_directory := v2_member_directory c |}.
Definition set_pending (m : gmap (list byte) (list byte)) (c : GroupV2Convo) : GroupV2Convo :=
  {| v2_convo_id := v2_convo_id c; v2_conversation := v2_conversation c;
     v2_pending_invites := m; v2_member_directory := v2_member_directory c |}.
Definition set_directory (m : gmap MemberId SignerKey) (c : GroupV2Convo) : GroupV2Convo :=
  {| v2_convo_id := v2_convo_id c; v2_conversation := v2_conversation c;
     v2_pending_invites := v2_pending_invites c; v2_member_directory := m |}.

(** A call into the library. *)
Definition v2_on {X} (f : P → Ident → K → P * K * result ChatError.t X) : St V2 X :=
  step (λ '(cx, c),
    let '(p, k, r) := f (cx_provider cx) (cx_identity cx) (v2_conversation c) in
    ((set_provider p cx, set_conversation k c), r)).

Definition v2_poll : St V2 () := v2_on (λ p ident k,
  let '(p, k) := dm_poll p ident k in (p, k, Ok ())).

(** One signer's key package, checked as for GroupV1. *)
Definition fetch_member (registry : RS) (s : SignerKey) : result ChatError.t FetchedMember :=
  fetched ← map_err ChatError.Generic (rs_retrieve registry (signer_to_string s));
  key_package ← ok_or fetched (ChatError.Generic "No key package");
  unchecked ← map_err ChatError.TlsCodec (kp_deserialize key_package);
  validated ← map_err ChatError.KeyPackageVerify (kp_validate unchecked);
  _ ← check_hpke_public_key (kp_init_key validated);
  let signature_key := kp_signature_key validated in
  if negb (bool_decide (signature_key = signer_bytes s)) then
    Err (ChatError.Generic ("key package for " ++ signer_to_string s ++
      " is bound to a different signing key (" ++ bytes_str (hex_encode signature_key) ++ ")")%string)
  else
    let credential := kp_credential validated in
    _ ← ok_or (require_valid (signer_from_leaf signature_key credential))
          (ChatError.BadBundleValue "invalid credential");
    Ok {| fm_signature_key := signature_key; fm_credential := credential;
          fm_key_package := key_package |}.

Definition fetch_members (registry : RS) (signers : list SignerKey)
  : result ChatError.t (list FetchedMember) := collect (fetch_member registry) (unique signers).

(** [signer_of]: the leaf key of a member. *)
Definition signer_of (m : Member) : SignerKey := Signer_key (m_signature_key m).

(** [delivery_address_from_id] of a GroupV2, and the ids drawn for one. *)
Definition v2_delivery_address (convo_id : string) : string :=
  blake2b_hex 6 [str_bytes "delivery_addr|"; str_bytes convo_id].
Definition rand_string (drawn : list byte) : string := bytes_str (hex_encode drawn).

(** [own_signer], [is_member], [seats_of]. *)
Definition be_u32 (n : N) : list byte := to_be_bytes 4 n.
Definition own_signer (c : GroupV2Convo) : option SignerKey :=
  signer_of <$>
  head (filter (λ m, be_u32 (m_index m) = dm_own_member_id (v2_conversation c))
          (dm_members (v2_conversation c))).
Definition is_member (c : GroupV2Convo) : bool := bool_decide (is_Some (own_signer c)).
Definition seats_of (c : GroupV2Convo) (members : list SignerKey) : list MemberId :=
  map dm_member_id
    (filter (λ m, signer_of m ∈ members) (dm_members (v2_conversation c))).

Definition rebuild_member_directory (c : GroupV2Convo) : GroupV2Convo :=
  set_directory
    (fold_left (λ d m, <[dm_member_id m := signer_of m]> d)
       (dm_members (v2_conversation c)) ∅) c.

(** [init]. *)
Definition v2_init : St V2 () := step (λ '(cx, c),
  let '(d, r) := ds_subscribe (cx_ds cx) (v2_delivery_address (v2_convo_id c)) in
  ((set_ds d cx, c), map_err ChatError.Generic r)).

(** [invite_user_v2]. *)
Definition invite_user_v2 (s : SignerKey) (welcome : MemberWelcome) : St V2 () := step (λ '(cx, c),
  let '(d, r) := ds_publish (cx_ds cx) (invite_envelope s (InviteGroupV2 (welcome_encode welcome))) in
  ((set_ds d cx, c), map_err ChatError.Generic r)).

(** Routing one event of [after_op]: a welcome goes to the joiners invited
    here, a membership change updates the directory. *)
Definition route_joiner (welcome : MemberWelcome) (joiner : list byte) : St V2 () :=
  '(_, c) ← get;
  match v2_pending_invites c !! joiner with
  | Some _ =>
      _ ← modify (λ '(cx, c), (cx, set_pending (delete joiner (v2_pending_invites c)) c));
      invite_user_v2 (Signer_key joiner) welcome
  | None => mret ()
  end.

Definition apply_delta (added : list Member) (removed : list MemberId)
    (d : gmap MemberId SignerKey) : gmap MemberId SignerKey :=
  fold_left (λ d id, delete id d) removed
    (fold_left (λ d m, <[dm_member_id m := signer_of m]> d) added d).

Definition route_event (evt : ConversationEvent) : St V2 () :=
  match evt with
  | WelcomeReady welcome => for_each (mw_joiners welcome) (route_joiner welcome)
  | MembersChanged added removed =>
      modify (λ '(cx, c), (cx, set_directory (apply_delta added removed (v2_member_directory c)) c))
  | _ => mret ()
  end.

(** Publishing one outbound packet. *)
Definition publish_outbound (out : Outbound) : St V2 () := step (λ '(cx, c),
  let encoded := v2_frame_encode
    {| v2f_payload := Some (DeMlsWrapper (ob_payload out)); v2f_sender_app_id := ob_sender out |} in
  let '(d, r) := ds_publish (cx_ds cx)
    (into_envelope (v2_delivery_address (ob_conversation_id out))
       {| encryption := Some (Plaintext encoded) |} (ob_conversation_id out)) in
  ((set_ds d cx, c), map_err ChatError.Generic r)).

(** [after_op]: take everything, route, publish, re-arm; returns the events. *)
Definition after_op : St V2 (list ConversationEvent) :=
  '(cx, c) ← get;
  let '(k, events) := dm_drain_events (v2_conversation c) in
  let '(k, outbound) := dm_drain_outbound k in
  let wakeup := dm_next_wakeup (cx_provider cx) k in
  _ ← modify (λ '(cx, c), (cx, set_conversation k c));
  _ ← for_each events route_event;
  _ ← for_each outbound publish_outbound;
  _ ← modify (λ '(cx, c),
        (match wakeup with
         | Some d => {| cx_ds := cx_ds cx; cx_registry := cx_registry cx; cx_store := cx_store cx;
                        cx_identity := cx_identity cx; cx_provider := cx_provider cx;
                        cx_causal := cx_causal cx;
                        cx_wakeup := wakeup_in (cx_wakeup cx) d (v2_convo_id c) |}
         | None => cx
         end, c));
  mret events.

(** The first conversation message of a drain. *)
Fixpoint first_message (events : list ConversationEvent) : option (list byte * Member) :=
  match events with
  | [] => None
  | ConversationMessage (Some message) sender :: _ => Some (message, sender)
  | _ :: events => first_message events
  end.

Definition changes_signers (evt : ConversationEvent) : bool :=
  match evt with
  | CommitApplied | WelcomeReady _ | MembersChanged _ _ | Leaving => true
  | _ => false
  end.

(** [outcome_from_events]. *)
Definition outcome_from_events (events : list ConversationEvent) : St V2 ConvoOutcome :=
  '(_, c) ← get;
  content ← (match first_message events with
             | None => mret None
             | Some (message, sender) =>
                 reliable ← lift (map_err ChatError.Generic (reliable_decode message));
                 _ ← modify (λ '(cx, c),
                       (set_causal (on_receive (cx_causal cx) (v2_convo_id c) reliable).1 cx, c));
                 mret (content_from (Some sender) reliable)
             end);
  mret {| co_convo_id := v2_convo_id c;
          observations := map ObsContent (option_list content) ++
            (if existsb changes_signers events then [SignersChanged] else []) |}.

(** [Convo::send_content]. *)
Definition v2_send_content (content : list byte) : St V2 string :=
  '(cx, c) ← get;
  let '(i, reliable) := on_send (cx_causal cx) (v2_convo_id c) (id_signer_key (cx_identity cx))
                          content in
  _ ← modify (λ '(cx, c), (set_causal i cx, c));
  _ ← v2_on (λ p ident k,
    let '(p, k, r) := dm_send_message p ident k (reliable_encode reliable) in
    (p, k, map_err ChatError.DeMlsError r));
  _ ← after_op;
  mret (p_message_id reliable).

(** [Convo::handle_payload]. *)
Definition v2_handle_payload (payload : list byte) : St V2 ConvoOutcome :=
  encrypted ← lift (map_err ChatError.DecodeError (encrypted_decode payload));
  bytes ← lift (match encryption encrypted with
                | Some (Plaintext bytes) => Ok bytes
                | _ => Err (ChatError.Generic "Expected plaintext")
                end);
  '(_, c) ← get;
  if negb (is_member c) then mret (outcome_empty (v2_convo_id c))
  else
    frame ← lift (map_err ChatError.Generic (v2_frame_decode bytes));
    match v2f_payload frame with
    | None | Some (MlsCommitMessage _) => mret (outcome_empty (v2_convo_id c))
    | Some (DeMlsWrapper inner) =>
        _ ← v2_on (λ p ident k,
          let '(p, k, r) := dm_process p ident k (v2f_sender_app_id frame) inner in
          (p, k, map_err ChatError.DeMlsError r));
        _ ← v2_poll;
        events ← after_op;
        outcome_from_events events
    end.

(** [Convo::wakeup]. *)
Definition v2_wakeup : St V2 ConvoOutcome :=
  _ ← v2_poll; events ← after_op; outcome_from_events events.

(** One turn of [add_signer]'s loop; the flag says an add went through. *)
Fixpoint add_loop (existing : gset (list byte)) (l : list FetchedMember) (added : bool)
  : St V2 (bool * result ChatError.t ()) :=
  match l with
  | [] => mret (added, Ok ())
  | m :: l =>
      if decide (fm_signature_key m ∈ existing) then add_loop existing l added
      else
        _ ← modify (λ '(cx, c), (cx, set_pending
              (<[fm_signature_key m := fm_credential m]> (v2_pending_invites c)) c));
        r ← v2_on (λ p ident k,
          let '(p, k, r) := dm_add_member p ident k (fm_key_package m) in (p, k, Ok r));
        match r with
        | Ok _ => add_loop existing l true
        | Err AlreadyMember =>
            _ ← modify (λ '(cx, c), (cx, set_pending
                  (delete (fm_signature_key m) (v2_pending_invites c)) c));
            add_loop existing l added
        | Err e =>
            _ ← modify (λ '(cx, c), (cx, set_pending
                  (delete (fm_signature_key m) (v2_pending_invites c)) c));
            mret (added, Err (ChatError.DeMlsError (dm_error_text e)))
        end
  end.

(** [result.and(flushed)] after the flush ran. *)
Definition v2_flush (r : result ChatError.t ()) : St V2 () := λ s,
  let '(s', flushed) := after_op s in
  (s', match r with
       | Err e => Err (Error e)
       | Ok _ => match flushed with Ok _ => Ok () | Err f => Err f end
       end).

(** [GroupConvo::add_signer]. *)
Definition v2_add_signer (members : list SignerKey) : St V2 () :=
  '(cx, c) ← get;
  members_to_add ← lift (fetch_members (cx_registry cx) members);
  let existing := list_to_set (map m_signature_key (dm_members (v2_conversation c))) in
  '(added, result) ← add_loop existing members_to_add false;
  _ ← (if (added : bool) then v2_poll else mret ());
  v2_flush result.

Fixpoint remove_loop (targets : list MemberId) : St V2 (result ChatError.t ()) :=
  match targets with
  | [] => mret (Ok ())
  | target :: targets =>
      r ← v2_on (λ p ident k,
        let '(p, k, r) := dm_remove_member p ident k target in (p, k, Ok r));
      match r with
      | Ok _ | Err MemberGone => remove_loop targets
      | Err e => mret (Err (ChatError.DeMlsError (dm_error_text e)))
      end
  end.

(** [GroupConvo::remove_signer]. *)
Definition v2_remove_signer (members : list SignerKey) : St V2 () :=
  '(_, c) ← get;
  if (match own_signer c with Some me => bool_decide (me ∈ members) | None => false end) then
    fail ChatError.CannotRemoveSelf
  else
    let targets := seats_of c members in
    if decide (targets = []) then fail ChatError.NotAGroupMember
    else result ← remove_loop targets; v2_flush result.

(** [ConvoBase]. *)
Definition v2_signers (c : GroupV2Convo) : list Signer :=
  map (λ m, signer_from_leaf (m_signature_key m) (m_credential m)) (dm_members (v2_conversation c)).
Definition v2_pending_signers (c : GroupV2Convo) : list Signer :=
  map (λ kv, signer_from_leaf kv.1 kv.2) (map_to_list (v2_pending_invites c)).
Definition v2_can_send (c : GroupV2Convo) : bool := is_member c.
Definition v2_metadata (c : GroupV2Convo) : option ConvoMetadata :=
  metadata_from (dm_extensions (v2_conversation c)).

(** Subscribing and flushing a conversation just made. *)
Definition v2_start (c : GroupV2Convo) : St CX GroupV2Convo := λ cx,
  match (_ ← v2_init; after_op) (cx, rebuild_member_directory c) with
  | ((cx, c), Ok _) => (cx, Ok c)
  | ((cx, _), Err e) => (cx, Err e)
  end.

(** [GroupV2Convo::new], for the id and randomness drawn. *)
Definition v2_new (drawn_id : list byte) (rnd : Seed) (name desc : string)
    (signers : list SignerKey) : St CX GroupV2Convo :=
  let convo_id := rand_string drawn_id in
  metadata ← (match to_extension_bytes (meta_new name desc) with
              | Some bytes => mret bytes
              | None => panic
              end);
  cx ← get;
  invites ← lift (fetch_members (cx_registry cx) signers);
  k ← step (λ cx,
    let '(p, r) := dm_create (cx_provider cx) (cx_identity cx) convo_id
      metadata rnd (map fm_key_package invites) in
    (set_provider p cx, map_err ChatError.DeMlsError r));
  v2_start
    {| v2_convo_id := convo_id; v2_conversation := k;
       v2_pending_invites :=
         fold_left (λ m i, <[fm_signature_key i := fm_credential i]> m) invites ∅;
       v2_member_directory := ∅ |}.

(** [GroupV2Convo::new_from_welcome]. *)
Definition v2_from_welcome (rnd : Seed) (w : MemberWelcome) : St CX GroupV2Convo :=
  joined ← step (λ cx,
    let '(p, r) := dm_join (cx_provider cx) (cx_identity cx) (mw_welcome_bytes w)
      (mw_sync_bytes w) rnd in
    (set_provider p cx, map_err ChatError.DeMlsError r));
  k ← lift (ok_or joined (ChatError.Generic "welcome not addressed to this member"));
  v2_start
    {| v2_convo_id := dm_id k; v2_conversation := k; v2_pending_invites := ∅;
       v2_member_directory := ∅ |}.
End group_v2.
Arguments GroupV2Convo : clear implicits.

(** ** Lemmas *)

Section lemmas.
Context {HX : Hex} {B : Blake2b} {PB : Prost} {PB2 : ProstV2} {TC : TlsCodec}.
Context {P G K : Type} {ML : OpenMls P G} {DM : DeMls P K}.
Context {DS : Type} {DSI : DeliveryService DS} {RS : Type} {RSI : RegistrationService RS}.
Context {CS : Type} {WS : Type} {WSI : WakeupService WS} {E : Type} {A : AuthService E}.

Abbreviation CX := (ServiceContext DS RS CS P WS).
Abbreviation V2 := (CX * GroupV2Convo K)%type.

Definition v2_kept (s s' : V2) : Prop :=
  v2_convo_id s'.2 = v2_convo_id s.2 ∧
  cx_identity s'.1 = cx_identity s.1 ∧ cx_store s'.1 = cx_store s.1 ∧
  cx_registry s'.1 = cx_registry s.1.

#[export] Instance v2_kept_refl : Reflexive v2_kept.
Proof. by intros s. Qed.
#[export] Instance v2_kept_trans : Transitive v2_kept.
Proof. intros s t u (H1 & H2 & H3 & H4) (K1 & K2 & K3 & K4). split_and!; congruence. Qed.

Lemma v2_on_kept {X} (f : P → Ident → K → P * K * result ChatError.t X) :
  keeps v2_kept (v2_on f).
Proof. intros [cx c]. unfold v2_on, step. by destruct (f _ _ _) as [[p g] r]. Qed.

Lemma publish_outbound_kept out : keeps v2_kept (publish_outbound out).
Proof. intros [cx c]. unfold publish_outbound, step. by destruct (ds_publish _ _). Qed.
Lemma invite_user_v2_kept s w : keeps v2_kept (invite_user_v2 s w).
Proof. intros [cx c]. unfold invite_user_v2, step. by destruct (ds_publish _ _). Qed.
Lemma modify_kept (f : V2 → V2) : (∀ s, v2_kept s (f s)) → keeps v2_kept (modify f).
Proof. intros Hf s. apply Hf. Qed.

Ltac v2_keeps := solve_keeps
  ltac:(first [ apply v2_on_kept | apply publish_outbound_kept | apply invite_user_v2_kept
              | apply modify_kept; by intros [] ]).

Lemma route_event_kept evt : keeps v2_kept (route_event evt).
Proof. unfold route_event, route_joiner. destruct evt; v2_keeps. Qed.

Lemma after_op_kept : keeps v2_kept after_op.
Proof.
  unfold after_op. v2_keeps; try apply route_event_kept.
  apply modify_kept. intros [cx c]. by case_match.
Qed.

Lemma v2_poll_kept : keeps v2_kept v2_poll.
Proof. apply v2_on_kept. Qed.

Lemma outcome_from_events_kept events : keeps v2_kept (outcome_from_events events).
Proof. unfold outcome_from_events. v2_keeps. Qed.

Ltac v2_keeps' := solve_keeps
  ltac:(first [ apply v2_on_kept | apply after_op_kept | apply v2_poll_kept
              | apply outcome_from_events_kept | apply modify_kept; by intros [] ]).

Lemma v2_send_content_kept content : keeps v2_kept (v2_send_content content).
Proof. unfold v2_send_content. v2_keeps'. Qed.

Lemma v2_handle_payload_kept payload : keeps v2_kept (v2_handle_payload payload).
Proof. unfold v2_handle_payload. v2_keeps'. Qed.

Lemma v2_wakeup_kept : keeps v2_kept v2_wakeup.
Proof. unfold v2_wakeup. v2_keeps'. Qed.

Lemma add_loop_kept existing l added : keeps v2_kept (add_loop existing l added).
Proof.
  revert added. induction l as [|m l IH]; intros added; cbn [add_loop];
    solve_keeps ltac:(first [ apply IH | apply v2_on_kept | apply modify_kept; by intros [] ]).
Qed.

Lemma v2_flush_kept r : keeps v2_kept (v2_flush r).
Proof.
  intros s. unfold v2_flush. pose proof (after_op_kept s). by destruct (after_op s) as [s' o].
Qed.

Lemma v2_add_signer_kept l : keeps v2_kept (v2_add_signer l).
Proof.
  unfold v2_add_signer. solve_keeps
    ltac:(first [ apply add_loop_kept | apply v2_flush_kept | apply v2_poll_kept ]).
Qed.

Lemma remove_loop_kept l : keeps v2_kept (remove_loop l).
Proof.
  induction l as [|m l IH]; cbn [remove_loop];
    solve_keeps ltac:(first [ apply IH | apply v2_on_kept ]).
Qed.

Lemma v2_remove_signer_kept l : keeps v2_kept (v2_remove_signer l).
Proof.
  unfold v2_remove_signer.
  solve_keeps ltac:(first [ apply remove_loop_kept | apply v2_flush_kept ]).
Qed.

Lemma outcome_from_events_id events (cx : CX) (c : GroupV2Convo K) s' out :
  outcome_from_events events (cx, c) = (s', Ok out) → co_convo_id out = v2_convo_id c.
Proof.
  unfold outcome_from_events.
  intros (s1 & [cx1 c1] & [= <- <- <-] & (s2 & ct & _ & [= _ <-])%st_bind_Ok)%st_bind_Ok. done.
Qed.

(** Every outcome is this conversation's. *)
Lemma v2_handle_payload_id payload (cx : CX) (c : GroupV2Convo K) s' out :
  v2_handle_payload payload (cx, c) = (s', Ok out) → co_convo_id out = v2_convo_id c.
Proof.
  unfold v2_handle_payload. intros (s1 & enc & H1 & H)%st_bind_Ok.
  assert (s1 = (cx, c)) as -> by (by injection H1).
  apply st_bind_Ok in H as (s2 & bytes & H2 & H). assert (s2 = (cx, c)) as -> by (by injection H2).
  apply st_bind_Ok in H as (s3 & [cx3 c3] & [= <- <- <-] & H). cbn in H.
  destruct (is_member c); cbn [negb] in H; [|by injection H as _ <-].
  apply st_bind_Ok in H as (s4 & fr & H4 & H). assert (s4 = (cx, c)) as -> by (by injection H4).
  destruct (v2f_payload fr) as [[l|?]|]; [|by injection H as _ <-..].
  apply st_bind_Ok in H as (s5 & [] & H5 & H). apply st_bind_Ok in H as (s6 & [] & H6 & H).
  apply st_bind_Ok in H as (s7 & evs & H7 & H).
  pose proof (v2_on_kept (λ p ident k, let '(p, k, r) := dm_process p ident k
    (v2f_sender_app_id fr) l in (p, k, map_err ChatError.DeMlsError r)) (cx, c)) as K5.
  rewrite H5 in K5. pose proof (v2_poll_kept s5) as K6. rewrite H6 in K6.
  pose proof (after_op_kept s6) as K7. rewrite H7 in K7. destruct s7 as [cx7 c7].
  apply outcome_from_events_id in H. cbn in *. rewrite H.
  destruct K5 as [K5 _], K6 as [K6 _], K7 as [K7 _]. cbn in *. congruence.
Qed.
End lemmas.
