(* ===== verification/Convo.v ===== *)
(** * Conversation objects and the inbox
      ([core/conversations/src/conversation.rs], [inbox_v2.rs])

    [Convo] is the trait objects' interface ([Convo], [GroupConvo],
    [ConvoBase], [Identified]) and [ConvoLaws] what the core relies on: an
    operation never changes a conversation's id, nor the records of the store
    or who we are. [AnyConvo] is the sum of the implementations and discharges
    it. The inbox turns an invite into a conversation. *)

From Stdlib Require Import Strings.Byte Strings.String.
From stdpp Require Import base gmap strings numbers list.
From S2P Require Import Prelude Utf8 Hex Ed25519 Identity CausalHistory Storage Delivery Services.
From S2P Require Import MlsUtils GroupV1 GroupV3 GroupV2.

(** ** The interface *)

Class Convo (DS RS CS P WS O : Type) := {
  obj_id : O → string;
  obj_send_content : list byte → St (ServiceContext DS RS CS P WS * O) string;
  obj_handle_payload : list byte → St (ServiceContext DS RS CS P WS * O) ConvoOutcome;
  obj_wakeup : St (ServiceContext DS RS CS P WS * O) ConvoOutcome;
  obj_add_signer : list SignerKey → St (ServiceContext DS RS CS P WS * O) ();
  obj_remove_signer : list SignerKey → St (ServiceContext DS RS CS P WS * O) ();
  obj_signers : O → result Fault (list Signer);
  obj_pending_signers : O → result Fault (list Signer);
  obj_can_send : O → bool;
  obj_metadata : O → option ConvoMetadata;
}.

(** What no operation on a conversation changes. *)
Definition obj_frame {DS RS CS P WS O : Type} {CO : Convo DS RS CS P WS O}
    (s s' : ServiceContext DS RS CS P WS * O) : Prop :=
  obj_id s'.2 = obj_id s.2 ∧ cx_identity s'.1 = cx_identity s.1 ∧ cx_store s'.1 = cx_store s.1.

Class ConvoLaws (DS RS CS P WS O : Type) {CO : Convo DS RS CS P WS O} := {
  obj_send_content_frame content : keeps obj_frame (obj_send_content content);
  obj_handle_payload_frame payload : keeps obj_frame (obj_handle_payload payload);
  obj_wakeup_frame : keeps obj_frame obj_wakeup;
  obj_add_signer_frame l : keeps obj_frame (obj_add_signer l);
  obj_remove_signer_frame l : keeps obj_frame (obj_remove_signer l);
  obj_outcome_id payload s s' out :
    obj_handle_payload payload s = (s', Ok out) → co_convo_id out = obj_id s.2;
}.

(** ** The implementations *)

Record DirectV1Convo (G : Type) := { inner_group : GroupV1Convo G }.
Arguments inner_group {G}.

Inductive AnyConvo (G K : Type) : Type :=
| AnyV1 (c : GroupV1Convo G)
| AnyDirect (c : DirectV1Convo G)
| AnyV2 (c : GroupV2Convo K)
| AnyV3 (c : GroupV3Convo G).
Arguments AnyV1 {G K}.
Arguments AnyDirect {G K}.
Arguments AnyV2 {G K}.
Arguments AnyV3 {G K}.

(** Run a method of a component of a larger state. *)
Definition zoom {X C O A} (inj : C → O) (m : St (X * C) A) (cx : X) (c : C) : (X * O) * result Fault A :=
  let '((cx, c), r) := m (cx, c) in ((cx, inj c), r).

Section any.
Context {HX : Hex} {B : Blake2b} {PB : Prost} {PB2 : ProstV2} {TC : TlsCodec}.
Context {P G K : Type} {ML : OpenMls P G} {DM : DeMls P K}.
Context {DS : Type} {DSI : DeliveryService DS} {RS : Type} {RSI : RegistrationService RS}.
Context {CS : Type} {CSI : ConversationStore CS} {WS : Type} {WSI : WakeupService WS}.
Context {E : Type} {A : AuthService E}.

Abbreviation CX := (ServiceContext DS RS CS P WS).
Abbreviation Any := (AnyConvo G K).

(** [DirectV1Convo] hands every call to its inner group. *)
Definition direct (g : GroupV1Convo G) : Any := AnyDirect {| inner_group := g |}.

Definition any_id (o : Any) : string :=
  match o with
  | AnyV1 c => v1_convo_id c
  | AnyDirect c => v1_convo_id (inner_group c)
  | AnyV2 c => v2_convo_id c
  | AnyV3 c => v3_convo_id c
  end.

Definition any_dispatch {X} (f1 : St (CX * GroupV1Convo G) X) (f2 : St (CX * GroupV2Convo K) X)
    (f3 : St (CX * GroupV3Convo G) X) : St (CX * Any) X := λ '(cx, o),
  match o with
  | AnyV1 c => zoom AnyV1 f1 cx c
  | AnyDirect c => zoom direct f1 cx (inner_group c)
  | AnyV2 c => zoom AnyV2 f2 cx c
  | AnyV3 c => zoom AnyV3 f3 cx c
  end.

#[export] Instance any_convo : Convo DS RS CS P WS Any := {|
  obj_id := any_id;
  obj_send_content l := any_dispatch (v1_send_content l) (v2_send_content l) (v3_send_content l);
  obj_handle_payload l :=
    any_dispatch (v1_handle_payload l) (v2_handle_payload l) (v3_handle_payload l);
  obj_wakeup := any_dispatch v1_wakeup v2_wakeup v3_wakeup;
  obj_add_signer l := any_dispatch (v1_add_signer l) (v2_add_signer l) (v3_add_signer l);
  obj_remove_signer l :=
    any_dispatch (v1_remove_signer l) (v2_remove_signer l) (v3_remove_signer l);
  obj_signers o :=
    match o with
    | AnyV1 c => Ok (v1_signers c)
    | AnyDirect c => Ok (v1_signers (inner_group c))
    | AnyV2 c => Ok (v2_signers c)
    | AnyV3 c => map_err Error (v3_signers c)
    end;
  obj_pending_signers o :=
    match o with
    | AnyV1 c => Ok (v1_pending_signers c)
    | AnyDirect _ => Ok []
    | AnyV2 c => Ok (v2_pending_signers c)
    | AnyV3 c => v3_pending_signers c
    end;
  obj_can_send o :=
    match o with
    | AnyV1 c => v1_can_send c
    | AnyDirect c => v1_can_send (inner_group c)
    | AnyV2 c => v2_can_send c
    | AnyV3 c => v3_can_send c
    end;
  obj_metadata o :=
    match o with
    | AnyV1 c => v1_metadata c
    | AnyDirect _ => None
    | AnyV2 c => v2_metadata c
    | AnyV3 c => v3_metadata c
    end;
|}.

(** ** The inbox *)

(** [InboxV2::new]: subscribe, and the id the inbox listens under. *)
Definition inbox_new (ident : Ident) (ds : DS) : DS * result string string :=
  let '(ds, r) := ds_subscribe ds (delivery_address_for (id_signer_key ident)) in
  (ds, _ ← r; Ok (conversation_id_for (id_signer_key ident))).

(** [InboxV2::register]; [create_keypackage] [expect]s its build. *)
Definition inbox_register : St CX () :=
  cx ← get;
  let '(p, r) := kp_build (cx_provider cx) (cx_identity cx) in
  _ ← modify (set_provider p);
  match r with
  | Err _ => panic
  | Ok kp =>
      bytes ← lift (map_err ChatError.TlsCodec (kp_serialize kp));
      step (λ cx,
        let '(reg, r) := rs_register (cx_registry cx) (cx_identity cx) bytes in
        (set_registry reg cx, map_err ChatError.Generic r))
  end.

(** [parse_heavy_welcome], also the head of [handle_heavy_invite]. *)
Definition parse_heavy_welcome (bytes : list byte) : result ChatError.t Welcome :=
  msg_in ← map_err ChatError.TlsCodec (mls_from_bytes bytes);
  ok_or (mls_extract_welcome msg_in)
    (ChatError.ProtocolExpectation "something else" "Welcome").

(** [persist_convo]. *)
Definition persist_convo (c : GroupV1Convo G) : St CX () := step (λ cx,
  let '(store, r) := cs_save (cx_store cx)
    {| local_convo_id := v1_convo_id c; kind := Storage.GroupV1 |} in
  (set_store store cx, map_err ChatError.Storage r)).

(** [handle_heavy_invite]. *)
Definition handle_heavy_invite (invite : GroupV1HeavyInvite) : St CX (GroupV1Convo G) :=
  welcome ← lift (parse_heavy_welcome (welcome_bytes invite));
  convo ← v1_from_welcome welcome;
  _ ← persist_convo convo;
  mret convo.

(** [InboxV2::handle_frame]; [rnd] is what a GroupV2 join draws. *)
Definition inbox_handle_frame (rnd : Seed) (payload : list byte)
  : St CX (option (Any * ConversationClass)) :=
  match inbox_decode payload with
  | Err _ => mret None
  | Ok frame =>
      match if_payload frame with
      | None => mret None
      | Some (InviteGroupV1 inv) =>
          convo ← handle_heavy_invite inv; mret (Some (AnyV1 convo, Dm))
      | Some (InviteGroupV2 bytes) =>
          mw ← lift (map_err ChatError.Generic (welcome_decode bytes));
          convo ← v2_from_welcome rnd mw; mret (Some (AnyV2 convo, GroupClass))
      | Some (InviteGroupV3 bytes) =>
          welcome ← lift (parse_heavy_welcome bytes);
          convo ← v3_from_welcome welcome; mret (Some (AnyV3 convo, GroupClass))
      end
  end.

(** ** The laws *)

Lemma any_dispatch_frame {X} (f1 : St (CX * GroupV1Convo G) X) (f2 : St (CX * GroupV2Convo K) X)
    (f3 : St (CX * GroupV3Convo G) X) :
  keeps v1_frame f1 → keeps v2_kept f2 → keeps v3_kept f3 →
  keeps obj_frame (any_dispatch f1 f2 f3).
Proof.
  intros H1 H2 H3 [cx o]. destruct o as [c|[c]|c|c]; cbn [any_dispatch]; unfold zoom, direct;
    cbn [inner_group].
  1,2: specialize (H1 (cx, c)); destruct (f1 (cx, c)) as [[cx' c'] r]; destruct H1 as (?&?&?&_).
  3: specialize (H2 (cx, c)); destruct (f2 (cx, c)) as [[cx' c'] r]; destruct H2 as (?&?&?&_).
  4: specialize (H3 (cx, c)); destruct (f3 (cx, c)) as [[cx' c'] r]; destruct H3 as (?&?&?&_).
  all: done.
Qed.

#[export] Instance any_convo_laws : ConvoLaws DS RS CS P WS Any.
Proof.
  split.
  - intros l. apply any_dispatch_frame;
      [apply v1_send_content_frame|apply v2_send_content_kept|apply v3_send_content_kept].
  - intros l. apply any_dispatch_frame;
      [apply v1_handle_payload_frame|apply v2_handle_payload_kept|apply v3_handle_payload_kept].
  - apply any_dispatch_frame; [apply v1_wakeup_frame|apply v2_wakeup_kept|].
    unfold v3_wakeup. solve_keeps ltac:(apply v3_on_group_kept).
  - intros l. apply any_dispatch_frame;
      [apply v1_add_signer_frame|apply v2_add_signer_kept|apply v3_add_signer_kept].
  - intros l. apply any_dispatch_frame; [apply v1_remove_signer_frame|apply v2_remove_signer_kept|].
    by intros s.
  - intros payload [cx o] s' out. cbn [obj_handle_payload any_convo obj_id snd].
    destruct o as [c|[c]|c|c]; cbn [any_dispatch]; unfold zoom; cbn [inner_group].
    1,2: destruct (v1_handle_payload payload (cx, c)) as [[cx' c'] r] eqn:H; intros [= <- ->];
      by apply v1_handle_payload_Ok in H as [H _].
    + destruct (v2_handle_payload payload (cx, c)) as [[cx' c'] r] eqn:H. intros [= <- ->].
      by apply v2_handle_payload_id in H.
    + destruct (v3_handle_payload payload (cx, c)) as [[cx' c'] r] eqn:H. intros [= <- ->].
      by apply v3_handle_payload_id in H.
Qed.
End any.
