(* ===== verification/Core.v ===== *)
(** * The conversation core ([core/conversations/src/core.rs])

    [Core] owns the services, the inbox id and the conversations loaded this
    session, and routes every call and every inbound payload. It is written
    against the [Convo] interface and a [ConvoFactory] for the constructors it
    calls; [Convo.v] and the end of this file supply both. *)

From Stdlib Require Import Strings.Byte Strings.String.
From stdpp Require Import base gmap strings numbers list.
From S2P Require Import Prelude Utf8 Hex Ed25519 Identity CausalHistory Storage Delivery Services.
From S2P Require Import MlsUtils GroupV1 GroupV3 GroupV2 Convo.

(** The constructors: [R] is the randomness a GroupV2 draws. *)
Class ConvoFactory (DS RS CS P WS O R : Type) := {
  make_direct : list SignerKey → St (ServiceContext DS RS CS P WS) O;
  make_v1 : St (ServiceContext DS RS CS P WS) O;
  make_v2 : R → string → string → list SignerKey → St (ServiceContext DS RS CS P WS) O;
  make_v3 : string → string → list SignerKey → St (ServiceContext DS RS CS P WS) O;
  make_loaded : string → list byte → St (ServiceContext DS RS CS P WS) O;
  inbox_frame : R → list byte → St (ServiceContext DS RS CS P WS) (option (O * ConversationClass));
}.

Inductive ConvoTypeOwned (O : Type) : Type := Direct (o : O) | Group (o : O).
Arguments Direct {O} o.
Arguments Group {O} o.

Definition convo_obj {O} (c : ConvoTypeOwned O) : O := match c with Direct o | Group o => o end.
Definition with_obj {O} (c : ConvoTypeOwned O) (o : O) : ConvoTypeOwned O :=
  match c with Direct _ => Direct o | Group _ => Group o end.

Section core.
Context {HX : Hex} {PB : Prost} {DS RS CS P WS O R : Type}.
Context {DSI : DeliveryService DS} {CSI : ConversationStore CS} {CO : Convo DS RS CS P WS O}.
Context {CF : ConvoFactory DS RS CS P WS O R} {E : Type} {A : AuthService E}.
Context (show : E → string).

Abbreviation CX := (ServiceContext DS RS CS P WS).

Record Core := {
  services : CX;
  inbox_id : string;
  cached_convos : gmap string (ConvoTypeOwned O);
}.

Definition set_services (cx : CX) (k : Core) : Core :=
  {| services := cx; inbox_id := inbox_id k; cached_convos := cached_convos k |}.

(** A call that works on the services alone. *)
Definition on_services {X} (m : St CX X) : St Core X := λ k,
  let '(cx, r) := m (services k) in (set_services cx k, r).

(** A call on a cached conversation, which is updated in place. *)
Definition on_convo {X} (id : string) (m : ConvoTypeOwned O → St (CX * O) X) : St Core X := λ k,
  match cached_convos k !! id with
  | None => (k, Err (Error (ChatError.NoConvo id)))
  | Some ct =>
      let '((cx, o), r) := m ct (services k, convo_obj ct) in
      ({| services := cx; inbox_id := inbox_id k;
          cached_convos := <[id := with_obj ct o]> (cached_convos k) |}, r)
  end.

(** A call on a conversation rebuilt for it and dropped afterwards. *)
Definition on_loaded {X} (load : St CX O) (m : St (CX * O) X) : St Core X := λ k,
  match load (services k) with
  | (cx, Err e) => (set_services cx k, Err e)
  | (cx, Ok o) => let '((cx, _), r) := m (cx, o) in (set_services cx k, r)
  end.

Definition register_convo (ct : ConvoTypeOwned O) : St Core () := λ k,
  match cached_convos k !! obj_id (convo_obj ct) with
  | Some _ => (k, Err (Error (ChatError.Generic "Convo already exists. Cannot save")))
  | None =>
      ({| services := services k; inbox_id := inbox_id k;
          cached_convos := <[obj_id (convo_obj ct) := ct]> (cached_convos k) |}, Ok ())
  end.

(** [load_conversation_meta], [load_mls_convo], [load_convo]. *)
Definition load_conversation_meta (id : string) (cx : CX) : result ChatError.t ConversationMeta :=
  meta ← map_err ChatError.Storage (cs_load (cx_store cx) id);
  ok_or meta (ChatError.NoConvo id).

Definition load_mls_convo (id : string) : St CX O :=
  group_id ← lift (ok_or (hex_decode (str_bytes id)) (ChatError.Generic (hex_error (str_bytes id))));
  make_loaded id group_id.

Definition load_convo (id : string) : St CX O :=
  cx ← get;
  meta ← lift (load_conversation_meta id cx);
  match kind meta with
  | GroupV1 => load_mls_convo (local_convo_id meta)
  | UnknownKind _ => fail (ChatError.UnsupportedConvoType (kind_as_str (kind meta)))
  end.

Definition get_signers_for_participants (participants : list ParticipantId)
  : result ChatError.t (list SignerKey) :=
  signers ← map_err (λ e, ChatError.ParticipantResolution (show e))
              (collect signers_for_participant participants);
  Ok (concat signers).

(** ** Creating conversations *)

Definition create_direct_convo_v1 (participant : ParticipantId) : St Core string :=
  k ← get;
  if decide (participant = id_participant (cx_identity (services k)))
  then fail ChatError.CannotMessageSelf
  else
    signers ← lift (get_signers_for_participants [participant]);
    convo ← on_services (make_direct signers);
    _ ← register_convo (Direct convo);
    mret (obj_id convo).

Definition create_group_convo_v1 (participants : list ParticipantId) : St Core string :=
  signers ← lift (get_signers_for_participants participants);
  convo ← on_services make_v1;
  _ ← on_services (step (λ cx,
        let '(store, r) := cs_save (cx_store cx)
          {| local_convo_id := obj_id convo; kind := Storage.GroupV1 |} in
        (set_store store cx, map_err ChatError.Storage r)));
  convo ← (λ k,
    let '((cx, o), r) := obj_add_signer signers (services k, convo) in
    (set_services cx k, _ ← r; Ok o));
  _ ← register_convo (Group convo);
  mret (obj_id convo).

Definition create_group_convo_v2 (rnd : R) (participants : list ParticipantId) (name desc : string)
  : St Core string :=
  signers ← lift (get_signers_for_participants participants);
  convo ← on_services (make_v2 rnd name desc signers);
  _ ← register_convo (Group convo);
  mret (obj_id convo).

Definition create_group_convo_v3 (participants : list ParticipantId) (name desc : string)
  : St Core string :=
  signers ← lift (get_signers_for_participants participants);
  convo ← on_services (make_v3 name desc signers);
  _ ← register_convo (Group convo);
  mret (obj_id convo).

(** [create_direct_convo] and [create_group_convo]: the kinds used by default. *)
Definition create_direct_convo (participant : ParticipantId) : St Core string :=
  create_direct_convo_v1 participant.
Definition create_group_convo (rnd : R) (participants : list ParticipantId) : St Core string :=
  create_group_convo_v2 rnd participants "" "".

(** ** Membership *)

Definition group_add_signers (id : string) (members : list SignerKey) : St Core () :=
  on_convo id (λ ct,
    match ct with
    | Group _ => obj_add_signer members
    | Direct o => fail (ChatError.UnsupportedFunction (obj_id o) "Add Member")
    end).

Definition group_add_participants (id : string) (participants : list ParticipantId) : St Core () :=
  signers ← lift (get_signers_for_participants participants);
  group_add_signers id signers.

Definition group_remove_signers (id : string) (signers : list SignerKey) : St Core () :=
  on_convo id (λ ct,
    match ct with
    | Group _ => obj_remove_signer signers
    | Direct o => fail (ChatError.UnsupportedFunction (obj_id o) "Remove Member")
    end).

(** The installations of the given participants seated in a conversation. *)
Definition seated_of (signers : list Signer) (participants : list ParticipantId)
  : list SignerKey :=
  map signer (filter (λ s, participant_id s ∈ participants) signers).

Definition lookup_convo (id : string) (k : Core) : result Fault (ConvoTypeOwned O) :=
  ok_or (cached_convos k !! id) (Error (ChatError.NoConvo id)).

Definition group_remove_participants (id : string) (participants : list ParticipantId)
  : St Core () := λ k,
  match (ct ← lookup_convo id k; obj_signers (convo_obj ct)) with
  | Err e => (k, Err e)
  | Ok signers => group_remove_signers id (seated_of signers participants) k
  end.

Definition group_signers (id : string) (k : Core) : result Fault (list AuthenticatedSigner) :=
  ct ← lookup_convo id k;
  signers ← obj_signers (convo_obj ct);
  Ok (filter_map require_valid signers).

Definition group_pending_signers (id : string) (k : Core) : result Fault (list Signer) :=
  ct ← lookup_convo id k;
  match ct with
  | Direct _ => Ok []
  | Group o =>
      committed ← obj_signers o;
      pending ← obj_pending_signers o;
      Ok (filter (λ p, signer p ∉ map signer committed) pending)
  end.

(** ** Listing *)

Definition list_all_conversations (k : Core) : result ChatError.t (list string) :=
  records ← map_err ChatError.Storage (cs_load_all (cx_store (services k)));
  Ok (unique (map local_convo_id records ++ (map_to_list (cached_convos k)).*1)).

Definition can_send (id : string) (k : Core) : bool :=
  match cached_convos k !! id with Some ct => obj_can_send (convo_obj ct) | None => false end.

Definition can_receive (id : string) (k : Core) : bool :=
  bool_decide (is_Some (cached_convos k !! id)) ||
  match cs_has (cx_store (services k)) id with Ok b => b | Err _ => false end.

Definition list_sendable_conversations (k : Core) : result ChatError.t (list string) :=
  all ← list_all_conversations k;
  Ok (filter (λ id, can_send id k = true) all).

Definition convo_metadata (id : string) (k : Core) : result ChatError.t ConvoMetadata :=
  match cached_convos k !! id with
  | Some (Group o) =>
      ok_or (obj_metadata o) (ChatError.UnsupportedConvoType
        "metadata is not available for this legacy convo_type")
  | Some (Direct _) => Err (ChatError.UnsupportedFunction id "implementation coming")
  | None => Err (ChatError.NoConvo id)
  end.

(** ** Messages *)

Definition take_missing_messages : St Core (list MissingMessage) := λ k,
  let '(i, ms) := take_missing (cx_causal (services k)) in
  (set_services (set_causal i (services k)) k, Ok ms).
Definition core_take_acks : St Core (list DeliveryAck) := λ k,
  let '(i, a) := take_acks (cx_causal (services k)) in
  (set_services (set_causal i (services k)) k, Ok a).

Definition send_content (id : string) (content : list byte) : St Core string := λ k,
  match cached_convos k !! id with
  | Some _ => on_convo id (λ _, obj_send_content content) k
  | None => on_loaded (load_convo id) (obj_send_content content) k
  end.

Definition dispatch_to_convo (id : string) (payload : list byte) : St Core ConvoOutcome := λ k,
  match cached_convos k !! id with
  | Some _ => on_convo id (λ _, obj_handle_payload payload) k
  | None => on_loaded (load_convo id) (obj_handle_payload payload) k
  end.

Definition dispatch_to_inbox2 (rnd : R) (payload : list byte) : St Core PayloadOutcome :=
  invited ← on_services (inbox_frame rnd payload);
  match invited with
  | None => mret OutEmpty
  | Some (convo, class) =>
      _ ← register_convo (match class with Dm => Direct convo | GroupClass => Group convo end);
      mret (OutInbox
        {| new_conversation := {| nc_convo_id := obj_id convo; nc_class := class |};
           initial := None |})
  end.

Definition handle_payload (rnd : R) (payload : list byte) : St Core PayloadOutcome :=
  env ← lift (map_err ChatError.DecodeError (envelope_decode payload));
  k ← get;
  let c := conversation_hint env in
  if decide (c = inbox_id k) then dispatch_to_inbox2 rnd (ev_payload env)
  else if decide (is_Some (cached_convos k !! c)) then
    out ← dispatch_to_convo c (ev_payload env); mret (OutConvo out)
  else
    known ← lift (map_err ChatError.Storage (cs_has (cx_store (services k)) c));
    if (known : bool) then out ← dispatch_to_convo c (ev_payload env); mret (OutConvo out)
    else mret OutEmpty.

Definition wakeup_convo (id : string) : St Core ConvoOutcome := λ k,
  match cached_convos k !! id with
  | None => (k, Err (Error (ChatError.Generic "No Convo Found")))
  | Some _ => on_convo id (λ _, obj_wakeup) k
  end.

Definition wakeup (id : string) : St Core PayloadOutcome :=
  k ← get;
  if decide (id = inbox_id k) then fail (ChatError.UnsupportedFunction id "wakeup")
  else if decide (is_Some (cached_convos k !! id)) then
    out ← wakeup_convo id; mret (OutConvo out)
  else mret OutEmpty.
End core.
Arguments Core : clear implicits.

(** ** The constructors of the conversation kinds *)

(** [Result::map] on what an operation returns. *)
Definition st_map {S A B} (f : A → B) (m : St S A) : St S B := λ s, let '(s', r) := m s in (s', f <$> r).

Section assemble.
Context {HX : Hex} {B : Blake2b} {PB : Prost} {PB2 : ProstV2} {TC : TlsCodec}.
Context {P G K : Type} {ML : OpenMls P G} {DM : DeMls P K}.
Context {DS : Type} {DSI : DeliveryService DS} {RS : Type} {RSI : RegistrationService RS}.
Context {CS : Type} {CSI : ConversationStore CS} {WS : Type} {WSI : WakeupService WS}.
Context {E : Type} {A : AuthService E}.

(** The id and seed a GroupV2 draws. *)
#[export] Instance any_factory
  : ConvoFactory DS RS CS P WS (AnyConvo G K) (list byte * Seed) := {|
  make_direct l := st_map direct (direct_new l);
  make_v1 := st_map AnyV1 v1_new;
  make_v2 rnd name desc l := st_map AnyV2 (v2_new rnd.1 rnd.2 name desc l);
  make_v3 name desc l := st_map AnyV3 (v3_new name desc l);
  make_loaded id gid := st_map AnyV1 (v1_load id gid);
  inbox_frame rnd payload := inbox_handle_frame rnd.2 payload;
|}.

(** [Core::assemble]; [provider] is the MLS provider, or why it failed. *)
Definition core_assemble (ident : Ident) (ds : DS) (registry : RS) (ws : WS) (store : CS)
    (provider : result string P) : result ChatError.t (Core DS RS CS P WS (AnyConvo G K)) :=
  let '(ds, r) := inbox_new ident ds in
  inbox ← map_err ChatError.Generic r;
  p ← map_err ChatError.Generic provider;
  Ok {| services := {| cx_ds := ds; cx_registry := registry; cx_store := store;
                       cx_identity := ident; cx_provider := p; cx_causal := store_new;
                       cx_wakeup := ws |};
        inbox_id := inbox; cached_convos := ∅ |}.

(** [Core::new_from_store]. *)
Definition new_from_store := core_assemble.

(** [Core::register_keypackage] and [Core::new_with_name]. *)
Definition register_keypackage : St (Core DS RS CS P WS (AnyConvo G K)) () :=
  on_services inbox_register.

Definition new_with_name (ident : Ident) (ds : DS) (registry : RS) (ws : WS) (store : CS)
    (provider : result string P) : result Fault (Core DS RS CS P WS (AnyConvo G K)) :=
  core ← map_err Error (core_assemble ident ds registry ws store provider);
  let '(core, r) := register_keypackage core in
  _ ← r; Ok core.
End assemble.

(** ** What the core keeps *)

(** What the constructors promise: they leave identity and records alone (the
    inbox may save a record), and a rebuilt conversation has the id asked for. *)
Definition cx_frame {DS RS CS P WS : Type} (cx cx' : ServiceContext DS RS CS P WS) : Prop :=
  cx_identity cx' = cx_identity cx ∧ cx_store cx' = cx_store cx.

Class ConvoFactoryLaws (DS RS CS P WS O R : Type) {CO : Convo DS RS CS P WS O}
    {CF : ConvoFactory DS RS CS P WS O R} := {
  make_direct_frame l : keeps cx_frame (make_direct l);
  make_v1_frame : keeps cx_frame make_v1;
  make_v2_frame rnd n d l : keeps cx_frame (make_v2 rnd n d l);
  make_v3_frame n d l : keeps cx_frame (make_v3 n d l);
  make_loaded_frame id gid : keeps cx_frame (make_loaded id gid);
  inbox_frame_identity rnd payload :
    keeps (λ cx cx', cx_identity cx' = cx_identity cx) (inbox_frame rnd payload);
  make_loaded_id id gid cx cx' o : make_loaded id gid cx = (cx', Ok o) → obj_id o = id;
}.

Section invariant.
Context {HX : Hex} {PB : Prost} {DS RS CS P WS O R : Type}.
Context {DSI : DeliveryService DS} {CSI : ConversationStore CS} {CO : Convo DS RS CS P WS O}.
Context {CL : ConvoLaws DS RS CS P WS O} {CF : ConvoFactory DS RS CS P WS O R}.
Context {FL : ConvoFactoryLaws DS RS CS P WS O R} {E : Type} {A : AuthService E}.
Context (show : E → string).

Abbreviation CX := (ServiceContext DS RS CS P WS).
Abbreviation K := (Core DS RS CS P WS O).

(** Conversations are filed under their own id. *)
Definition core_ok (k : K) : Prop :=
  map_Forall (λ id ct, obj_id (convo_obj ct) = id) (cached_convos k).

(** One core later than another: the same identity and inbox, and every
    conversation still there, of the same class. *)
Definition core_later (k k' : K) : Prop :=
  inbox_id k' = inbox_id k ∧ cx_identity (services k') = cx_identity (services k) ∧
  (∀ id ct, cached_convos k !! id = Some ct →
     ∃ o, cached_convos k' !! id = Some (with_obj ct o)) ∧
  (core_ok k → core_ok k').

#[export] Instance core_later_refl : Reflexive core_later.
Proof. intros k. split_and!; try done. intros id ct H. exists (convo_obj ct). by destruct ct. Qed.
#[export] Instance core_later_trans : Transitive core_later.
Proof.
  intros k1 k2 k3 (H1 & H2 & H3 & H4) (K1 & K2 & K3 & K4).
  split_and!; [congruence..| |auto]. intros id ct Hk.
  destruct (H3 _ _ Hk) as [o Ho]. destruct (K3 _ _ Ho) as [o' Ho']. exists o'.
  rewrite Ho'. by destruct ct.
Qed.

Lemma on_services_later {X} (m : St CX X) :
  keeps (λ cx cx', cx_identity cx' = cx_identity cx) m → keeps core_later (on_services m).
Proof.
  intros Hm k. unfold on_services. specialize (Hm (services k)).
  destruct (m (services k)) as [cx r]. split_and!; try done.
  intros id ct H. exists (convo_obj ct). by destruct ct.
Qed.

Lemma on_services_frame {X} (m : St CX X) : keeps cx_frame m → keeps core_later (on_services m).
Proof. intros Hm. apply on_services_later. intros cx. apply Hm. Qed.

Lemma on_convo_later {X} id (m : ConvoTypeOwned O → St (CX * O) X) :
  (∀ ct, keeps obj_frame (m ct)) → keeps core_later (on_convo id m).
Proof.
  intros Hm k. unfold on_convo. destruct (cached_convos k !! id) as [ct|] eqn:Hk; [|done].
  specialize (Hm ct (services k, convo_obj ct)).
  destruct (m ct (services k, convo_obj ct)) as [[cx o] r]. destruct Hm as (Hid & Hi & _).
  cbn in *. split_and!; [done..| |].
  - cbn. intros id' ct' Hk'. destruct (decide (id' = id)) as [->|].
    + rewrite lookup_insert_eq. simplify_eq. eauto.
    + rewrite lookup_insert_ne by done. exists (convo_obj ct'). by destruct ct'.
  - intros Hok. unfold core_ok. cbn. apply map_Forall_insert_2; [|done].
    apply Hok in Hk. destruct ct; cbn in *; congruence.
Qed.

Lemma on_loaded_later {X} (load : St CX O) (m : St (CX * O) X) :
  keeps cx_frame load → keeps obj_frame m → keeps core_later (on_loaded load m).
Proof.
  intros Hl Hm k. unfold on_loaded. specialize (Hl (services k)).
  destruct (load (services k)) as [cx [o|e]]; cbn in Hl.
  - specialize (Hm (cx, o)). destruct (m (cx, o)) as [[cx' o'] r].
    destruct Hl as [Hl _], Hm as (_ & Hm & _). cbn in *. split_and!; [done|cbn; congruence| |done].
    intros id ct H. exists (convo_obj ct). by destruct ct.
  - destruct Hl as [Hl _]. split_and!; try done. intros id ct H. exists (convo_obj ct).
    by destruct ct.
Qed.

Lemma register_convo_later ct : keeps core_later (register_convo ct).
Proof.
  intros k. unfold register_convo.
  destruct (cached_convos k !! obj_id (convo_obj ct)) as [ct'|] eqn:Hk; [done|].
  split_and!; try done; cbn.
  - intros id ct' H. rewrite lookup_insert_ne by congruence. exists (convo_obj ct').
    by destruct ct'.
  - intros Hok. unfold core_ok. cbn. by apply map_Forall_insert_2.
Qed.

#[export] Instance cx_frame_refl : Reflexive (cx_frame (DS:=DS) (RS:=RS) (CS:=CS) (P:=P) (WS:=WS)).
Proof. by intros cx. Qed.
#[export] Instance cx_frame_trans :
  Transitive (cx_frame (DS:=DS) (RS:=RS) (CS:=CS) (P:=P) (WS:=WS)).
Proof. intros a b c [H1 H2] [K1 K2]. split; congruence. Qed.

Lemma load_convo_frame id : keeps cx_frame (load_convo id).
Proof.
  unfold load_convo, load_mls_convo. solve_keeps ltac:(apply make_loaded_frame).
Qed.

Lemma load_convo_id {SL : ConversationStoreLaws CS} id cx cx' o :
  cs_ok (cx_store cx) → load_convo id cx = (cx', Ok o) → obj_id o = id.
Proof.
  intros Hcs. unfold load_convo. intros (s1 & cx1 & [= <- <-] & H)%st_bind_Ok.
  apply st_bind_Ok in H as (s2 & meta & H2 & H). unfold lift, load_conversation_meta in H2.
  destruct (cs_load (cx_store cx) id) as [[m|]|] eqn:Hl; cbn in H2; try done.
  injection H2 as <- <-. apply cs_load_id in Hl; [|done].
  destruct (kind m); [done|]. unfold load_mls_convo in H.
  apply st_bind_Ok in H as (s3 & gid & _ & H). apply make_loaded_id in H. congruence.
Qed.

Ltac core_keeps := solve_keeps ltac:(first
  [ apply register_convo_later
  | apply on_services_frame; first [ apply make_direct_frame | apply make_v1_frame
      | apply make_v2_frame | apply make_v3_frame ]
  | apply on_services_later; apply inbox_frame_identity
  | apply on_convo_later; intros []; intros; first
      [ apply obj_add_signer_frame | apply obj_remove_signer_frame
      | apply obj_wakeup_frame | apply obj_send_content_frame | apply obj_handle_payload_frame
      | by intros [] ] ]).

Lemma send_content_later id content : keeps core_later (send_content id content).
Proof.
  intros k. unfold send_content. destruct (cached_convos k !! id).
  - apply on_convo_later. intros _. apply obj_send_content_frame.
  - apply on_loaded_later; [apply load_convo_frame|apply obj_send_content_frame].
Qed.

Lemma dispatch_to_convo_later id payload : keeps core_later (dispatch_to_convo id payload).
Proof.
  intros k. unfold dispatch_to_convo. destruct (cached_convos k !! id).
  - apply on_convo_later. intros _. apply obj_handle_payload_frame.
  - apply on_loaded_later; [apply load_convo_frame|apply obj_handle_payload_frame].
Qed.

Lemma handle_payload_later rnd payload : keeps core_later (handle_payload rnd payload).
Proof.
  unfold handle_payload, dispatch_to_inbox2. core_keeps; apply dispatch_to_convo_later.
Qed.

Lemma wakeup_later id : keeps core_later (wakeup id).
Proof.
  unfold wakeup. core_keeps. intros k'. unfold wakeup_convo.
  destruct (cached_convos k' !! id); [|done]. apply on_convo_later.
  intros _. apply obj_wakeup_frame.
Qed.

Lemma create_direct_convo_v1_later p : keeps core_later (create_direct_convo_v1 show p).
Proof. unfold create_direct_convo_v1. core_keeps. Qed.

Lemma create_group_convo_v1_later ps : keeps core_later (create_group_convo_v1 show ps).
Proof.
  unfold create_group_convo_v1. core_keeps.
  - apply on_services_later. intros cx. unfold step.
    by destruct (cs_save _ _) as [st r].
  - intros k. pose proof (obj_add_signer_frame a (services k, a0)) as H.
    destruct (obj_add_signer a (services k, a0)) as [[cx o] r]. destruct H as (_ & H & _).
    split_and!; try done. intros id ct Hk. exists (convo_obj ct). by destruct ct.
Qed.

Lemma create_group_convo_v2_later rnd ps n d : keeps core_later (create_group_convo_v2 show rnd ps n d).
Proof. unfold create_group_convo_v2. core_keeps. Qed.
Lemma create_group_convo_v3_later ps n d : keeps core_later (create_group_convo_v3 show ps n d).
Proof. unfold create_group_convo_v3. core_keeps. Qed.
Lemma group_add_signers_later id l : keeps core_later (group_add_signers id l).
Proof. unfold group_add_signers. core_keeps. Qed.
Lemma group_remove_signers_later id l : keeps core_later (group_remove_signers id l).
Proof. unfold group_remove_signers. core_keeps. Qed.
Lemma group_add_participants_later id ps : keeps core_later (group_add_participants show id ps).
Proof. unfold group_add_participants. core_keeps. Qed.
Lemma group_remove_participants_later id ps : keeps core_later (group_remove_participants id ps).
Proof.
  intros k. unfold group_remove_participants.
  destruct (_ ≫= _); [apply group_remove_signers_later|done].
Qed.
Lemma take_missing_later : keeps core_later take_missing_messages.
Proof. intros k. split_and!; try done. intros id ct H. exists (convo_obj ct). by destruct ct. Qed.
Lemma take_acks_later : keeps core_later core_take_acks.
Proof. intros k. split_and!; try done. intros id ct H. exists (convo_obj ct). by destruct ct. Qed.

(** ** Runs of the core *)

Inductive core_step : K → K → Prop :=
| step_direct p k : core_step k (create_direct_convo_v1 show p k).1
| step_group_v1 ps k : core_step k (create_group_convo_v1 show ps k).1
| step_group_v2 rnd ps n d k : core_step k (create_group_convo_v2 show rnd ps n d k).1
| step_group_v3 ps n d k : core_step k (create_group_convo_v3 show ps n d k).1
| step_add id ps k : core_step k (group_add_participants show id ps k).1
| step_remove id ps k : core_step k (group_remove_participants id ps k).1
| step_add_signers id l k : core_step k (group_add_signers id l k).1
| step_remove_signers id l k : core_step k (group_remove_signers id l k).1
| step_send id content k : core_step k (send_content id content k).1
| step_payload rnd payload k : core_step k (handle_payload rnd payload k).1
| step_wakeup id k : core_step k (wakeup id k).1
| step_take_missing k : core_step k (take_missing_messages k).1
| step_take_acks k : core_step k (core_take_acks k).1.

Lemma core_step_later k k' : core_step k k' → core_later k k'.
Proof.
  destruct 1;
    [apply create_direct_convo_v1_later|apply create_group_convo_v1_later
    |apply create_group_convo_v2_later|apply create_group_convo_v3_later
    |apply group_add_participants_later|apply group_remove_participants_later
    |apply group_add_signers_later|apply group_remove_signers_later
    |apply send_content_later|apply handle_payload_later|apply wakeup_later
    |apply take_missing_later|apply take_acks_later].
Qed.

Lemma core_steps_later k k' : rtc core_step k k' → core_later k k'.
Proof. induction 1; [done|]. etrans; [by apply core_step_later|done]. Qed.
End invariant.

(** ** The constructors keep their promise *)

Section factory_laws.
Context {HX : Hex} {B : Blake2b} {PB : Prost} {PB2 : ProstV2} {TC : TlsCodec}.
Context {P G K : Type} {ML : OpenMls P G} {DM : DeMls P K}.
Context {DS : Type} {DSI : DeliveryService DS} {RS : Type} {RSI : RegistrationService RS}.
Context {CS : Type} {CSI : ConversationStore CS} {WS : Type} {WSI : WakeupService WS}.
Context {E : Type} {A : AuthService E}.

Abbreviation CX := (ServiceContext DS RS CS P WS).
Abbreviation same_ident := (λ cx cx' : CX, cx_identity cx' = cx_identity cx).

Lemma st_map_keeps {S X Y} (I : S → S → Prop) (f : X → Y) (m : St S X) :
  keeps I m → keeps I (st_map f m).
Proof. intros Hm s. unfold st_map. specialize (Hm s). by destruct (m s). Qed.

#[local] Instance same_ident_refl : Reflexive same_ident.
Proof. by intros cx. Qed.
#[local] Instance same_ident_trans : Transitive same_ident.
Proof. intros a b c H1 H2. congruence. Qed.

Lemma keeps_weaken {S X} (I J : S → S → Prop) (m : St S X) :
  (∀ s s', I s s' → J s s') → keeps I m → keeps J m.
Proof. intros HIJ Hm s. apply HIJ, Hm. Qed.

Lemma v1_subscribe_frame id : keeps cx_frame (v1_subscribe id : St CX ()).
Proof. intros cx. unfold v1_subscribe, step. by destruct (ds_subscribe _ _). Qed.
Lemma v3_init_frame id : keeps cx_frame (v3_init id : St CX ()).
Proof. intros cx. unfold v3_init, step. by destruct (ds_subscribe _ _). Qed.

Lemma v1_new_frame : keeps cx_frame (v1_new : St CX (GroupV1Convo G)).
Proof.
  unfold v1_new. solve_keeps ltac:(first [ apply v1_subscribe_frame | by intros ? ]).
Qed.

Lemma join_frame w : keeps cx_frame (step (λ cx : CX,
  let '(p, r) := mls_join (cx_provider cx) w in (set_provider p cx, map_err ChatError.Generic r))).
Proof. intros cx. unfold step. by destruct (mls_join _ _). Qed.

Lemma v1_from_welcome_frame w : keeps cx_frame (v1_from_welcome w : St CX (GroupV1Convo G)).
Proof.
  unfold v1_from_welcome. solve_keeps ltac:(first [ apply join_frame | apply v1_subscribe_frame ]).
Qed.
Lemma v3_from_welcome_frame w : keeps cx_frame (v3_from_welcome w : St CX (GroupV3Convo G)).
Proof.
  unfold v3_from_welcome. solve_keeps ltac:(first [ apply join_frame | apply v3_init_frame ]).
Qed.
Lemma v1_load_frame id gid : keeps cx_frame (v1_load id gid : St CX (GroupV1Convo G)).
Proof. unfold v1_load. solve_keeps ltac:(apply v1_subscribe_frame). Qed.

Lemma direct_new_frame l : keeps cx_frame (direct_new l : St CX (GroupV1Convo G)).
Proof.
  intros cx. unfold direct_new. pose proof (v1_new_frame cx) as H.
  destruct (v1_new cx) as [cx1 [g|e]]; cbn [fst] in H; [|done].
  pose proof (v1_add_signer_frame l (cx1, g)) as H2.
  destruct (v1_add_signer l (cx1, g)) as [[cx2 g2] [[]|e]]; destruct H2 as (_ & H2 & H3 & _);
    cbn in *; etrans; [done| |done|]; by split.
Qed.

Lemma v3_new_frame n d l : keeps cx_frame (v3_new n d l : St CX (GroupV3Convo G)).
Proof.
  intros cx. unfold v3_new. destruct (to_extension_bytes _); [|done].
  destruct (mls_new _ _ _) as [p [g|e]]; [|done]. cbv zeta.
  set (cx0 := set_provider p cx). trans cx0; [done|].
  match goal with |- context [v3_init ?i cx0] => pose proof (v3_init_frame i cx0) as H;
    destruct (v3_init i cx0) as [cx1 [[]|e]] end; cbn [fst] in H; [|done].
  etrans; [exact H|]. match goal with |- context [v3_add_signer l (cx1, ?c)] =>
    pose proof (v3_add_signer_kept l (cx1, c)) as H2;
    destruct (v3_add_signer l (cx1, c)) as [[cx2 c2] [[]|e]] end;
    destruct H2 as (_ & H2 & H3 & _); by split.
Qed.

Lemma v2_start_frame c : keeps cx_frame (v2_start c : St CX (GroupV2Convo K)).
Proof.
  intros cx. unfold v2_start. match goal with |- context [?m (cx, ?c0)] =>
    assert (v2_kept (cx, c0) (m (cx, c0)).1) as H; [|destruct (m (cx, c0)) as [[cx' c'] [|]]] end.
  { match goal with |- v2_kept _ (?m _).1 => enough (keeps v2_kept m) as Hm by apply Hm end.
    solve_keeps ltac:(apply after_op_kept). intros [cx1 c1]. unfold v2_init, step.
    by destruct (ds_subscribe _ _). }
  all: destruct H as (_ & H1 & H2 & _); by split.
Qed.

Lemma v2_new_frame id rnd n d l : keeps cx_frame (v2_new id rnd n d l : St CX (GroupV2Convo K)).
Proof.
  unfold v2_new. solve_keeps ltac:(apply v2_start_frame).
  intros cx. unfold step. by destruct (dm_create _ _ _ _ _ _).
Qed.
Lemma v2_from_welcome_frame rnd w : keeps cx_frame (v2_from_welcome rnd w : St CX (GroupV2Convo K)).
Proof.
  unfold v2_from_welcome. solve_keeps ltac:(apply v2_start_frame).
  intros cx. unfold step. by destruct (dm_join _ _ _ _ _).
Qed.

Lemma inbox_handle_frame_ident rnd payload :
  keeps same_ident (inbox_handle_frame rnd payload : St CX (option (AnyConvo G K * _))).
Proof.
  unfold inbox_handle_frame, handle_heavy_invite. solve_keeps ltac:(first
    [ eapply keeps_weaken; [|first [ apply v1_from_welcome_frame | apply v2_from_welcome_frame
        | apply v3_from_welcome_frame ]]; by intros ? ? []
    | by intros cx; unfold persist_convo, step; destruct (cs_save _ _) ]).
Qed.

#[export] Instance any_factory_laws
  : ConvoFactoryLaws DS RS CS P WS (AnyConvo G K) (list byte * Seed).
Proof.
  split.
  - intros l. apply st_map_keeps, direct_new_frame.
  - apply st_map_keeps, v1_new_frame.
  - intros rnd n d l. apply st_map_keeps, v2_new_frame.
  - intros n d l. apply st_map_keeps, v3_new_frame.
  - intros id gid. apply st_map_keeps, v1_load_frame.
  - intros rnd payload. apply inbox_handle_frame_ident.
  - intros id gid cx cx' o. cbn [make_loaded any_factory]. unfold st_map.
    destruct (v1_load id gid cx) as [cx1 [g|e]] eqn:H; [|done]. intros [= <- <-]. cbn.
    unfold v1_load in H. repeat (apply st_bind_Ok in H as (? & ? & _ & H)).
    by injection H as _ <-.
Qed.
End factory_laws.
