(* ===== verification/Client.v ===== *)
(** * The chat client ([crates/generic-chat/src/client.rs], [event.rs])

    The client owns the core behind a lock and runs a worker that feeds it
    inbound payloads and wake-ups and turns what it reports into events for
    the application. A call locks the core for its whole duration, so a run is
    a sequence of whole calls and whole worker turns in some order. *)

From Stdlib Require Import Strings.Byte Strings.String.
From stdpp Require Import base gmap strings numbers list.
From S2P Require Import Prelude Utf8 Hex Ed25519 Context Addr Identity CausalHistory Storage Delivery.
From S2P Require Import Services MlsUtils GroupV1 GroupV3 GroupV2 Convo Core Installation.

Record GroupMetadata := { gm_name : string; gm_desc : string }.

(** How a client call ends other than well: an error, or a panic of the core. *)
Inductive ClientFault : Type :=
| ClientErr (e : ClientError.t)
| ClientPanic.

Section client.
Context {HX : Hex} {D : Dalek} {PB : Prost} {DS RS CS P WS O R : Type}.
Context {DSI : DeliveryService DS} {CSI : ConversationStore CS} {CO : Convo DS RS CS P WS O}.
Context {CF : ConvoFactory DS RS CS P WS O R} {E : Type} {A : AuthService E}.
(** [Display] of the auth service's error, of [ChatError] and of an address error. *)
Context (show : E → string) (show_chat : ChatError.t → string).
Context (show_addr : AccountAddrError.t → string).

Abbreviation K := (Core DS RS CS P WS O).

(** ** Members *)

(** [members::AuthenticatedSigner] and its conversion from the core's. *)
Record AuthenticatedMember := { am_inner : MemberSigner }.
Definition authenticated_try_from (a : AuthenticatedSigner) : result ClientError.t AuthenticatedMember :=
  account ← account_of (participant_id (auth_inner a));
  Ok {| am_inner := {| ms_signer_key := signer (auth_inner a); ms_account := account |} |}.

(** [decode_signer]: a member that does not decode is dropped. *)
Definition decode_signer {X Y} (f : X → result ClientError.t Y) (x : X) : option Y :=
  match f x with Ok y => Some y | Err _ => None end.

(** [parse_account], [account_ids]. *)
Definition parse_account (account : string) : result ClientError.t AccountAddr :=
  map_err (λ e, ClientError.InvalidAccountAddress (account ++ ": " ++ show_addr e)%string)
    (addr_from_str account).
Definition account_ids (accounts : list string) : result ClientError.t (list ParticipantId) :=
  collect (λ a, addr ← parse_account a; Ok (account_id addr)) accounts.

(** ** Events *)

Inductive Event : Type :=
| ConversationStarted (convo_id : string) (class : ConversationClass)
| MessageReceived (convo_id : string) (content : list byte) (sender : AuthenticatedMember)
    (message_id : string)
| MessageAcked (convo_id message_id : string) (acked_by : SignerKey)
| MessageMissing (convo_id message_id : string) (sender_hint : SignerKey)
| ConversationMembersChanged (convo_id : string)
| InboundError (message : string).

Definition observation_event (convo_id : string) (o : Observation) : option Event :=
  match o with
  | ObsContent c =>
      (λ sender, MessageReceived convo_id (ct_bytes c) sender (ct_message_id c)) <$>
        decode_signer authenticated_try_from (ct_sender c)
  | SignersChanged => Some (ConversationMembersChanged convo_id)
  end.

Definition convo_events (co : ConvoOutcome) : list Event :=
  filter_map (observation_event (co_convo_id co)) (observations co).

Definition inbox_events (io : InboxOutcome) : list Event :=
  let id := nc_convo_id (new_conversation io) in
  ConversationStarted id (nc_class (new_conversation io)) ::
  filter_map (observation_event id) (flat_map observations (option_list (initial io))).

Definition events_from_inbound (out : PayloadOutcome) : list Event :=
  match out with
  | OutEmpty => []
  | OutConvo co => convo_events co
  | OutInbox io => inbox_events io
  end.

Definition delivery_ack_events (l : list DeliveryAck) : list Event :=
  map (λ a, MessageAcked (a_conversation_id a) (a_message_id a) (a_acked_by a)) l.
Definition missing_events (l : list MissingMessage) : list Event :=
  map (λ m, MessageMissing (m_conversation_id m) (f_message_id (m_frontier m))
              (f_sender (m_frontier m))) l.

(** ** The worker *)

(** Drain what the core noticed, acknowledgements first. *)
Definition drain_events (k : K) : K * list Event :=
  let '(i, acked) := take_acks (cx_causal (services k)) in
  let '(i, gaps) := take_missing i in
  (set_services (set_causal i (services k)) k, delivery_ack_events acked ++ missing_events gaps).

(** One inbound payload; a panic ends the worker. *)
Definition on_inbound (rnd : R) (bytes : list byte) (k : K) : K * option (list Event) :=
  match handle_payload rnd bytes k with
  | (k, Err Panic) => (k, None)
  | (k, Ok out) =>
      let '(k, drained) := drain_events k in (k, Some (events_from_inbound out ++ drained))
  | (k, Err (Error e)) =>
      let '(k, drained) := drain_events k in (k, Some (InboundError (show_chat e) :: drained))
  end.

(** One wake-up; its errors are logged only. *)
Definition on_wakeup (convo_id : string) (k : K) : K * option (list Event) :=
  match wakeup convo_id k with
  | (k, Err Panic) => (k, None)
  | (k, Ok out) =>
      let '(k, drained) := drain_events k in (k, Some (events_from_inbound out ++ drained))
  | (k, Err (Error e)) => let '(k, drained) := drain_events k in (k, Some drained)
  end.

(** What [select!] picks: a message, or [None] when the channel's sender is
    gone, or the shutdown. *)
Inductive WorkerInput : Type :=
| Inbound (rnd : R) (msg : option (list byte))
| WakeupInput (msg : option string)
| Shutdown.

(** Sending events to an application that takes [budget] more before it drops
    the receiver ([None]: it never does); [None] when a send failed. *)
Fixpoint forward (budget : option nat) (events : list Event) : list Event * option (option nat) :=
  match events with
  | [] => ([], Some budget)
  | e :: events =>
      match budget with
      | Some 0 => ([], None)
      | Some (S n) => let '(sent, b) := forward (Some n) events in (e :: sent, b)
      | None => let '(sent, b) := forward None events in (e :: sent, b)
      end
  end.

(** One turn of [worker_loop]: the events sent, and the budget to go on with
    unless the worker returned. *)
Definition worker_turn (budget : option nat) (input : WorkerInput) (k : K)
  : K * list Event * option (option nat) :=
  let turn := match input with
              | Inbound rnd (Some bytes) => on_inbound rnd bytes k
              | WakeupInput (Some convo_id) => on_wakeup convo_id k
              | Inbound _ None | WakeupInput None | Shutdown => (k, None)
              end in
  match turn with
  | (k, None) => (k, [], None)
  | (k, Some events) => let '(sent, b) := forward budget events in (k, sent, b)
  end.

(** [worker_loop] on the inputs [select!] picks in turn; [None] as the last
    component once the worker returned. *)
Fixpoint worker_loop (budget : option nat) (inputs : list WorkerInput) (k : K)
  : K * list Event * option (option nat) :=
  match inputs with
  | [] => (k, [], Some budget)
  | input :: inputs =>
      match worker_turn budget input k with
      | (k, sent, None) => (k, sent, None)
      | (k, sent, Some budget) =>
          let '(k, sent', b) := worker_loop budget inputs k in (k, sent ++ sent', b)
      end
  end.

(** ** Calls *)

Definition from_fault (f : Fault) : ClientFault :=
  match f with Error e => ClientErr (ClientError.Chat (show_chat e)) | Panic => ClientPanic end.

(** A call on the locked core. *)
Definition on_core {X} (m : St K X) (k : K) : K * result ClientFault X :=
  let '(k, r) := m k in (k, map_err from_fault r).

Definition create_direct_conversation (account : string) (k : K) : K * result ClientFault string :=
  match parse_account account with
  | Err e => (k, Err (ClientErr e))
  | Ok addr => on_core (create_direct_convo show (account_id addr)) k
  end.

Definition create_group_conversation (rnd : R) (accounts : list string) (metadata : GroupMetadata)
    (k : K) : K * result ClientFault string :=
  match account_ids accounts with
  | Err e => (k, Err (ClientErr e))
  | Ok ids => on_core (create_group_convo_v2 show rnd ids (gm_name metadata) (gm_desc metadata)) k
  end.

Definition add_group_participants (convo_id : string) (accounts : list string) (k : K)
  : K * result ClientFault () :=
  match account_ids accounts with
  | Err e => (k, Err (ClientErr e))
  | Ok ids => on_core (group_add_participants show convo_id ids) k
  end.

Definition remove_group_participants (convo_id : string) (accounts : list string) (k : K)
  : K * result ClientFault () :=
  match account_ids accounts with
  | Err e => (k, Err (ClientErr e))
  | Ok ids => on_core (group_remove_participants convo_id ids) k
  end.

Definition send_message (convo_id : string) (content : list byte) (k : K)
  : K * result ClientFault string := on_core (send_content convo_id content) k.

Definition members (convo_id : string) (k : K) : result ClientFault (list MemberSigner) :=
  signers ← map_err from_fault (group_signers convo_id k);
  Ok (map am_inner (filter_map (decode_signer authenticated_try_from) signers)).

Definition pending_members (convo_id : string) (k : K) : result ClientFault (list MemberSigner) :=
  pending ← map_err from_fault (group_pending_signers convo_id k);
  Ok (filter_map (decode_signer member_try_from) pending).

(** [participants]: the set of accounts, as a list without repetitions. *)
Definition participants (convo_id : string) (k : K) : result ClientFault (list AccountAddr) :=
  l ← members convo_id k;
  Ok (remove_dups (map ms_account l)).

Definition group_metadata (convo_id : string) (k : K) : result ClientFault ConvoMetadata :=
  map_err (λ e, ClientErr (ClientError.Chat (show_chat e))) (convo_metadata convo_id k).

(** [Core::signer_key] and [Core::participant_id]. *)
Definition core_signer_key (k : K) : SignerKey := id_signer_key (cx_identity (services k)).
Definition core_participant_id (k : K) : ParticipantId := id_participant (cx_identity (services k)).

Definition installation_name (k : K) : string := signer_to_string (core_signer_key k).

(** [ChatClient::list_all_conversations], [list_sendable_conversations],
    [can_send] and [can_receive]. *)
Definition client_list_all (k : K) : result ClientFault (list string) :=
  map_err (λ e, ClientErr (ClientError.Chat (show_chat e))) (list_all_conversations k).
Definition client_list_sendable (k : K) : result ClientFault (list string) :=
  map_err (λ e, ClientErr (ClientError.Chat (show_chat e))) (list_sendable_conversations k).
Definition client_can_send (convo_id : string) (k : K) : bool := can_send convo_id k.
Definition client_can_receive (convo_id : string) (k : K) : bool := can_receive convo_id k.

(** ** Runs *)

(** A run: calls and worker turns in any order, with the events the
    application was sent so far and what the worker goes on with. *)
Record Client := {
  cl_core : K;
  cl_events : list Event;
  cl_worker : option (option nat);
}.

Definition with_core (c : Client) (k : K) : Client :=
  {| cl_core := k; cl_events := cl_events c; cl_worker := cl_worker c |}.

(** [Drop]: the worker takes the inputs [select!] still picks before it sees
    that the shutdown channel is gone, and is joined; [None] as its state is a
    thread that returned. *)
Definition client_drop (picked : list WorkerInput) (c : Client) : Client :=
  match cl_worker c with
  | None => c
  | Some budget =>
      let '(k, sent, b) := worker_loop budget (picked ++ [Shutdown]) (cl_core c) in
      {| cl_core := k; cl_events := cl_events c ++ sent; cl_worker := b |}
  end.

(** What can happen to a client: a call that changes it, or a turn of the
    worker on the input [select!] picked. *)
Inductive ClientAction : Type :=
| ActDirect (account : string)
| ActGroup (rnd : R) (accounts : list string) (metadata : GroupMetadata)
| ActAdd (convo_id : string) (accounts : list string)
| ActRemove (convo_id : string) (accounts : list string)
| ActSend (convo_id : string) (content : list byte)
| ActTurn (input : WorkerInput).

(** What the caller is answered, or the application is sent. *)
Inductive ClientReply : Type :=
| AnsweredId (r : result ClientFault string)
| AnsweredUnit (r : result ClientFault ())
| SentEvents (events : list Event).

Definition client_act (act : ClientAction) (c : Client) : Client * ClientReply :=
  match act with
  | ActDirect account =>
      let '(k, r) := create_direct_conversation account (cl_core c) in (with_core c k, AnsweredId r)
  | ActGroup rnd accounts metadata =>
      let '(k, r) := create_group_conversation rnd accounts metadata (cl_core c) in
      (with_core c k, AnsweredId r)
  | ActAdd convo_id accounts =>
      let '(k, r) := add_group_participants convo_id accounts (cl_core c) in (with_core c k, AnsweredUnit r)
  | ActRemove convo_id accounts =>
      let '(k, r) := remove_group_participants convo_id accounts (cl_core c) in
      (with_core c k, AnsweredUnit r)
  | ActSend convo_id content =>
      let '(k, r) := send_message convo_id content (cl_core c) in (with_core c k, AnsweredId r)
  | ActTurn input =>
      match cl_worker c with
      | None => (c, SentEvents [])
      | Some budget =>
          let '(k, sent, b) := worker_turn budget input (cl_core c) in
          ({| cl_core := k; cl_events := cl_events c ++ sent; cl_worker := b |}, SentEvents sent)
      end
  end.

Inductive client_step : Client → Client → Prop :=
| client_acts act c : client_step c (client_act act c).1.

Lemma call_direct account c :
  client_step c (with_core c (create_direct_conversation account (cl_core c)).1).
Proof. pose proof (client_acts (ActDirect account) c) as H. cbn in H. by destruct (create_direct_conversation _ _). Qed.
Lemma call_group rnd accounts md c :
  client_step c (with_core c (create_group_conversation rnd accounts md (cl_core c)).1).
Proof. pose proof (client_acts (ActGroup rnd accounts md) c) as H. cbn in H. by destruct (create_group_conversation _ _ _ _). Qed.
Lemma call_add id accounts c : client_step c (with_core c (add_group_participants id accounts (cl_core c)).1).
Proof. pose proof (client_acts (ActAdd id accounts) c) as H. cbn in H. by destruct (add_group_participants _ _ _). Qed.
Lemma call_remove id accounts c :
  client_step c (with_core c (remove_group_participants id accounts (cl_core c)).1).
Proof. pose proof (client_acts (ActRemove id accounts) c) as H. cbn in H. by destruct (remove_group_participants _ _ _). Qed.
Lemma call_send id content c : client_step c (with_core c (send_message id content (cl_core c)).1).
Proof. pose proof (client_acts (ActSend id content) c) as H. cbn in H. by destruct (send_message _ _ _). Qed.
Lemma worker budget input c k sent b :
  cl_worker c = Some budget → worker_turn budget input (cl_core c) = (k, sent, b) →
  client_step c {| cl_core := k; cl_events := cl_events c ++ sent; cl_worker := b |}.
Proof. intros Hw Ht. pose proof (client_acts (ActTurn input) c) as H. cbn in H. by rewrite Hw, Ht in H. Qed.
End client.
Arguments Client {D} DS RS CS P WS O.

Section new.
Context {HX : Hex} {D : Dalek} {B : Blake2b} {PB : Prost} {PB2 : ProstV2} {TC : TlsCodec}.
Context {P G K : Type} {ML : OpenMls P G} {DM : DeMls P K}.
Context {DS : Type} {DSI : DeliveryService DS} {RS : Type} {RSI : RegistrationService RS}.
Context {CS : Type} {CSI : ConversationStore CS} {WS : Type} {WSI : WakeupService WS}.
Context {E : Type} {A : AuthService E}.
Context (show : E → string) (show_chat : ChatError.t → string).

(** The identity the core runs under. *)
Definition ident_of (i : Installation) : Ident :=
  {| id_signer_key := inst_signer i; id_participant := inst_participant_id i |}.

(** [ChatClient::new]: the self-check, the core, and a worker that has sent
    nothing; [provider] is the MLS provider, or why it failed, and [budget] how
    many events the application takes before it drops the receiver. *)
Definition client_new (i : Installation) (transport : DS) (reg : RS) (ws : WS) (storage : CS)
    (provider : result string P) (budget : option nat)
  : result ClientFault (Client DS RS CS P WS (AnyConvo G K)) :=
  _ ← map_err ClientErr (installation_validate show i);
  core ← map_err (from_fault show_chat) (new_with_name (ident_of i) transport reg ws storage provider);
  Ok {| cl_core := core; cl_events := []; cl_worker := Some budget |}.
End new.
