(* ===== verification/ChatApp.v ===== *)
(** * The command-line client's application ([bin/chat-cli/src/app.rs])

    The chats shown, which one is active, and every command, over the chat
    client. The state is saved after what changes it. A panic (slicing inside
    a character) is a fault of its own. *)

From Stdlib Require Import Strings.Byte Strings.String.
From stdpp Require Import base gmap strings numbers pretty sorting list.
From S2P Require Import Prelude Utf8 Hex Ed25519 Context AccountLog Addr Identity CausalHistory Storage Delivery.
From S2P Require Import Services MlsUtils GroupV1 GroupV3 GroupV2 Convo Core Installation Client MessageTypes Text.

#[export] Instance ConversationClass_eq_dec : EqDecision ConversationClass.
Proof. solve_decision. Defined.

(** ** Messages and sessions *)

Inductive MessageOrigin : Type := Own | Foreign (account : string).

Record DisplayMessage := {
  dm_from_self : bool;
  dm_content : string;
  dm_timestamp : N;
  dm_message_id : option string;
  dm_delivered_to : list string;
  dm_origin : MessageOrigin;
}.

(** [DisplayMessage::new] at an instant. *)
Definition display_message (now : N) (from_self : bool) (content : string) (origin : MessageOrigin)
  : DisplayMessage :=
  {| dm_from_self := from_self; dm_content := content; dm_timestamp := now; dm_message_id := None;
     dm_delivered_to := []; dm_origin := origin |}.
Definition with_message_id (id : string) (m : DisplayMessage) : DisplayMessage :=
  {| dm_from_self := dm_from_self m; dm_content := dm_content m; dm_timestamp := dm_timestamp m;
     dm_message_id := Some id; dm_delivered_to := dm_delivered_to m; dm_origin := dm_origin m |}.

Record ChatSession := {
  cs_chat_id : string;
  cs_nickname : option string;
  cs_kind : ConversationClass;
  cs_messages : list DisplayMessage;
}.

Definition set_messages (l : list DisplayMessage) (s : ChatSession) : ChatSession :=
  {| cs_chat_id := cs_chat_id s; cs_nickname := cs_nickname s; cs_kind := cs_kind s; cs_messages := l |}.
Definition set_nickname (n : option string) (s : ChatSession) : ChatSession :=
  {| cs_chat_id := cs_chat_id s; cs_nickname := n; cs_kind := cs_kind s; cs_messages := cs_messages s |}.

Record AppState := { chats : gmap string ChatSession; active_chat : option string }.

(** [snippet_of], [reply_body]. *)
Definition snippet_of (body : string) : string :=
  let cs := chars (first_line body) in
  let short := bytes_str (concat (take 24 cs)) in
  if (24 <? length cs) then (short ++ "…")%string else short.
Definition reply_body (preview body : string) : string :=
  ("↩ " ++ preview ++ String (Ascii.ascii_of_nat 10) body)%string.

(** [ChatSession::display_name]; [None] is a panic. *)
Definition session_display_name (s : ChatSession) : option string :=
  match cs_nickname s with Some n => Some n | None => slice_to 8 (cs_chat_id s) end.

Definition class_debug (c : ConversationClass) : string :=
  match c with Dm => "Dm" | GroupClass => "Group" end.

(** How a command ends other than well. *)
Inductive AppFault : Type := AppError (message : string) | AppPanic.

(** The order a [HashMap] happens to iterate in. *)
Class HashIter := { hash_iter : gmap string ChatSession → list (string * ChatSession) }.
Class HashIterLaws (H : HashIter) := { hash_iter_perm m : hash_iter m ≡ₚ map_to_list m }.

(** [serde_json] on the state: the text it is written as, and what a file's
    bytes read as ([read_to_string] and [from_str]). *)
Class SerdeJson := {
  to_json : AppState → result string (list byte);
  from_json : list byte → option AppState;
}.
Class SerdeJsonLaws (J : SerdeJson) := {
  json_roundtrip st : ∃ b, to_json st = Ok b ∧ from_json b = Some st;
}.

Section app.
Context {HX : Hex} {D : Dalek} {PB : Prost} {DS RS CS P WS O R : Type}.
Context {DSI : DeliveryService DS} {CSI : ConversationStore CS} {CO : Convo DS RS CS P WS O}.
Context {CF : ConvoFactory DS RS CS P WS O R} {E : Type} {A : AuthService E} {C : Cbor} {HI : HashIter} {SJ : SerdeJson}.
Context (show : E → string) (show_chat : ChatError.t → string) (show_addr : AccountAddrError.t → string).
(** [Display] and [Debug] of the client's errors. *)
Context (show_client debug_client : ClientError.t → string).
(** [fs::write] on the state file: what the file holds from then on, given what
    it held before ([None]: there is none) and the bytes written, and whether
    the writing succeeded. *)
Context (save : option (list byte) → list byte → option (list byte) * result string ()).

Abbreviation K := (Core DS RS CS P WS O).

Record ChatApp := {
  ap_core : K;
  ap_addr : string;
  ap_state : AppState;
  ap_is_active : bool;
  ap_output : list DisplayMessage;
  ap_input : string;
  ap_status : string;
  ap_user_name : string;
  ap_saved : option (list byte);
}.

Implicit Types (a : ChatApp).

(** Field updates. *)
Definition set_core (k : K) a : ChatApp :=
  {| ap_core := k; ap_addr := ap_addr a; ap_state := ap_state a; ap_is_active := ap_is_active a;
     ap_output := ap_output a; ap_input := ap_input a; ap_status := ap_status a; ap_user_name := ap_user_name a;
     ap_saved := ap_saved a |}.
Definition set_state (st : AppState) a : ChatApp :=
  {| ap_core := ap_core a; ap_addr := ap_addr a; ap_state := st; ap_is_active := ap_is_active a;
     ap_output := ap_output a; ap_input := ap_input a; ap_status := ap_status a; ap_user_name := ap_user_name a;
     ap_saved := ap_saved a |}.
Definition set_is_active (b : bool) a : ChatApp :=
  {| ap_core := ap_core a; ap_addr := ap_addr a; ap_state := ap_state a; ap_is_active := b;
     ap_output := ap_output a; ap_input := ap_input a; ap_status := ap_status a; ap_user_name := ap_user_name a;
     ap_saved := ap_saved a |}.
Definition set_output (l : list DisplayMessage) a : ChatApp :=
  {| ap_core := ap_core a; ap_addr := ap_addr a; ap_state := ap_state a; ap_is_active := ap_is_active a;
     ap_output := l; ap_input := ap_input a; ap_status := ap_status a; ap_user_name := ap_user_name a;
     ap_saved := ap_saved a |}.
Definition set_status (s : string) a : ChatApp :=
  {| ap_core := ap_core a; ap_addr := ap_addr a; ap_state := ap_state a; ap_is_active := ap_is_active a;
     ap_output := ap_output a; ap_input := ap_input a; ap_status := s; ap_user_name := ap_user_name a; ap_saved := ap_saved a |}.
Definition set_input (s : string) a : ChatApp :=
  {| ap_core := ap_core a; ap_addr := ap_addr a; ap_state := ap_state a; ap_is_active := ap_is_active a;
     ap_output := ap_output a; ap_input := s; ap_status := ap_status a; ap_user_name := ap_user_name a;
     ap_saved := ap_saved a |}.
Definition set_saved (st : option (list byte)) a : ChatApp :=
  {| ap_core := ap_core a; ap_addr := ap_addr a; ap_state := ap_state a; ap_is_active := ap_is_active a;
     ap_output := ap_output a; ap_input := ap_input a; ap_status := ap_status a; ap_user_name := ap_user_name a; ap_saved := st |}.
Definition set_chats (m : gmap string ChatSession) a : ChatApp :=
  set_state {| chats := m; active_chat := active_chat (ap_state a) |} a.

(** ** A small monad: the state stays as it is where a command fails *)

Definition App (X : Type) : Type := ChatApp → ChatApp * result AppFault X.
Definition app_ret {X} (x : X) : App X := λ a, (a, Ok x).
Definition app_bind {X Y} (m : App X) (f : X → App Y) : App Y :=
  λ a, match m a with (a, Ok x) => f x a | (a, Err e) => (a, Err e) end.
Definition app_get : App ChatApp := λ a, (a, Ok a).
Definition app_modify (f : ChatApp → ChatApp) : App () := λ a, (f a, Ok ()).
Definition app_fail {X} (e : AppFault) : App X := λ a, (a, Err e).
Definition app_opt {X} (o : option X) : App X :=
  match o with Some x => app_ret x | None => app_fail AppPanic end.
Definition app_lift {X} (r : result AppFault X) : App X := λ a, (a, r).

(** A call on the client, its error worded. *)
Definition word (f : ClientError.t → string) (e : ClientFault) : AppFault :=
  match e with ClientErr e => AppError (f e) | ClientPanic => AppPanic end.
Definition call_client {X} (f : ClientError.t → string) (m : K → K * result ClientFault X) : App X :=
  λ a, let '(k, r) := m (ap_core a) in (set_core k a, map_err (word f) r).

Local Notation "x <-- m ;; k" := (app_bind m (λ x, k)) (at level 100, m at next level, right associativity).
Local Notation "m ;;; k" := (app_bind m (λ _, k)) (at level 100, right associativity).

(** ** State *)

(** [load_state] on the file's content, and [save_state]. *)
Definition load_state (file : option (list byte)) : AppState :=
  match file ≫= from_json with Some state => state | None => {| chats := ∅; active_chat := None |} end.
Definition save_state : App () := λ a,
  match to_json (ap_state a) with
  | Err e => (a, Err (AppError e))
  | Ok json => let '(file, r) := save (ap_saved a) json in (set_saved file a, map_err AppError r)
  end.

Definition current_session a : option ChatSession :=
  id ← active_chat (ap_state a); chats (ap_state a) !! id.

(** [messages]: the active chat's, then command output. *)
Definition app_messages a : list DisplayMessage :=
  (match current_session a with Some s => cs_messages s | None => [] end) ++ ap_output a.

Definition app_can_send (id : string) a : bool := can_send id (ap_core a).

Definition set_active_chat (chat_id : option string) a : ChatApp :=
  set_output []
    (set_state {| chats := chats (ap_state a); active_chat := chat_id |}
       (set_is_active (match chat_id with Some id => app_can_send id a | None => false end) a)).

Definition add_system_message (now : N) (content : string) a : ChatApp :=
  set_output (ap_output a ++ [display_message now true content Own]) a.

(** One line of the chat list; [None] is a panic. *)
Definition chat_label a (s : ChatSession) : option string :=
  name ← session_display_name s;
  short ← slice_to 8 (cs_chat_id s);
  let active := if decide (active_chat (ap_state a) = Some (cs_chat_id s)) then " (active)"%string else "" in
  let read_only := if app_can_send (cs_chat_id s) a then ""%string else " (read-only)" in
  Some ("  • [" ++ class_debug (cs_kind s) ++ "] " ++ name ++ " (" ++ short ++ ")" ++ active ++ read_only)%string.

Fixpoint show_labels (now : N) (ss : list ChatSession) : App () :=
  match ss with
  | [] => app_ret ()
  | s :: ss => a <-- app_get;; label <-- app_opt (chat_label a s);;
               app_modify (add_system_message now label) ;;; show_labels now ss
  end.

Definition show_chats_list (now : N) : App () :=
  app_modify (set_output []) ;;;
  a <-- app_get;;
  let sessions := (hash_iter (chats (ap_state a))).*2 in
  if decide (sessions = []) then app_modify (add_system_message now "No chats yet. Use /dm or /new to start one.")
  else
    app_modify (add_system_message now ("── Your Chats (" ++ pretty (length sessions) ++ ") ──")) ;;;
    show_labels now sessions.

Definition start_session (chat_id : string) (kind : ConversationClass) (nickname : option string) a : ChatApp :=
  set_active_chat (Some chat_id)
    (set_chats (<[chat_id := {| cs_chat_id := chat_id; cs_nickname := nickname; cs_kind := kind;
                                cs_messages := [] |}]> (chats (ap_state a))) a).

(** [resolve_chat_id]: a nickname, then a prefix of an id. *)
Definition resolve_chat_id (query : string) a : option string :=
  let entries := hash_iter (chats (ap_state a)) in
  match head (filter (λ e, cs_nickname e.2 = Some query) entries) with
  | Some e => Some e.1
  | None => head (filter (λ id, starts_with_str id query = true) entries.*1)
  end.

(** [ChatApp::new] on the state file found. *)
Definition app_new (now : N) (core : K) (addr user_name : string) (file : option (list byte))
  : ChatApp * result AppFault () :=
  let state := load_state file in
  let n := size (chats state) in
  let status := if decide (n = 0)
    then ("Welcome, " ++ user_name ++ "! Type /help for commands.")%string
    else ("Welcome back, " ++ user_name ++ "! " ++ pretty n ++ " chat(s) loaded — read-only from a previous "
          ++ "session; start a new /dm or /new to chat. Type /help.")%string in
  show_chats_list now
    {| ap_core := core; ap_addr := addr; ap_state := {| chats := chats state; active_chat := None |};
       ap_is_active := false; ap_output := []; ap_input := ""; ap_status := status; ap_user_name := user_name;
       ap_saved := file |}.

(** ** Events *)

Definition has_id (id : string) (m : DisplayMessage) : bool := bool_decide (dm_message_id m = Some id).

(** The preview a reply shows; [None] is a panic. *)
Definition reply_preview (msgs : list DisplayMessage) (target : string) : option string :=
  match head (filter (λ m, has_id target m = true) msgs) with
  | Some m => Some (snippet_of (dm_content m))
  | None => short ← slice_to 8 target; Some ("re: " ++ short)%string
  end.

(** The body of a received message. *)
Definition received_body (msgs : list DisplayMessage) (bytes : list byte) : option string :=
  let decoded := decode_message bytes in
  let body := MessageContent.to_string (MessageTypes.msg_content decoded) in
  match msg_in_reply_to decoded with
  | Some target => preview ← reply_preview msgs (content_id_str target); Some (reply_body preview body)
  | None => Some body
  end.

Definition origin_of a (account : string) : MessageOrigin :=
  if decide (account = ap_addr a) then Own else Foreign account.

(** Adding a peer to the first message with an id. *)
Fixpoint mark_delivered (id peer : string) (msgs : list DisplayMessage) : list DisplayMessage :=
  match msgs with
  | [] => []
  | m :: msgs =>
      if has_id id m then
        {| dm_from_self := dm_from_self m; dm_content := dm_content m; dm_timestamp := dm_timestamp m;
           dm_message_id := dm_message_id m; dm_origin := dm_origin m;
           dm_delivered_to := if decide (peer ∈ dm_delivered_to m) then dm_delivered_to m
                              else dm_delivered_to m ++ [peer] |} :: msgs
      else m :: mark_delivered id peer msgs
  end.

(** The first characters of a signer, as shown. *)
Definition short_signer (s : SignerKey) : option string :=
  short ← slice_to 8 (signer_to_string s); Some (short ++ "…")%string.

Definition update_session (id : string) (f : ChatSession → ChatSession) a : ChatApp :=
  set_chats (alter f id (chats (ap_state a))) a.

Definition push_message (id : string) (m : DisplayMessage) a : ChatApp :=
  update_session id (λ s, set_messages (cs_messages s ++ [m]) s) a.

(** [handle_event]. *)
Definition handle_event (now : N) (event : Event) : App () :=
  a <-- app_get;;
  match event with
  | ConversationStarted convo_id class =>
      if decide (is_Some (chats (ap_state a) !! convo_id)) then app_ret ()
      else
        label <-- app_opt (slice_to 8 convo_id);;
        app_modify (set_status ("New " ++ class_debug class ++ " (" ++ label
                                ++ ")! Use /nickname to name it.")) ;;;
        app_modify (start_session convo_id class None)
  | MessageReceived convo_id bytes sender message_id =>
      let origin := origin_of a (addr_to_string (ms_account (am_inner sender))) in
      match chats (ap_state a) !! convo_id with
      | None => app_ret ()
      | Some session =>
          body <-- app_opt (received_body (cs_messages session) bytes);;
          app_modify (push_message convo_id (with_message_id message_id (display_message now false body origin)))
      end
  | MessageAcked convo_id message_id acked_by =>
      match chats (ap_state a) !! convo_id with
      | None => app_ret ()
      | Some session =>
          if existsb (has_id message_id) (cs_messages session) then
            peer <-- app_opt (short_signer acked_by);;
            app_modify (update_session convo_id
                          (λ s, set_messages (mark_delivered message_id peer (cs_messages s)) s))
          else app_ret ()
      end
  | MessageMissing convo_id _ sender_hint =>
      match chats (ap_state a) !! convo_id with
      | None => app_ret ()
      | Some session =>
          author <-- app_opt (short_signer sender_hint);;
          name <-- app_opt (session_display_name session);;
          app_modify (set_status ("A message from " ++ author ++ " never arrived in '" ++ name ++ "'."))
      end
  | ConversationMembersChanged convo_id =>
      (match chats (ap_state a) !! convo_id with
       | Some session => name <-- app_opt (session_display_name session);;
                         app_modify (set_status ("Membership changed in " ++ name ++ "."))
       | None => app_ret ()
       end) ;;;
      (if decide (active_chat (ap_state a) = Some convo_id)
       then app_modify (λ a, set_is_active (app_can_send convo_id a) a) else app_ret ())
  | InboundError message => app_modify (set_status ("Could not process incoming message: " ++ message))
  end%string.

Fixpoint handle_events (now : N) (events : list Event) : App () :=
  match events with
  | [] => app_ret ()
  | e :: events => handle_event now e ;;; handle_events now events
  end.

(** [process_incoming] on the events the channel holds. *)
Definition process_incoming (now : N) (events : list Event) : App () :=
  handle_events now events ;;;
  match events with [] => app_ret () | _ => save_state end.

(** ** Sending *)

Definition active_sendable_chat : App string :=
  a <-- app_get;;
  match active_chat (ap_state a) with
  | None => app_fail (AppError "No active chat. Use /dm or /new first.")
  | Some chat_id =>
      if ap_is_active a then app_ret chat_id
      else app_fail (AppError ("Not an active conversation — it may be a stale one from a previous session, "
                               ++ "or you're no longer a member."))
  end.

(** [echo_sent]. *)
Definition echo_sent (now : N) (chat_id message_id body : string) : App () :=
  app_modify (push_message chat_id (with_message_id message_id (display_message now true body Own))) ;;;
  save_state.

Definition app_send_message (now : N) (content : string) : App () :=
  chat_id <-- active_sendable_chat;;
  bytes <-- app_lift (map_err AppError (encode_text content));;
  message_id <-- call_client show_client (send_message show_chat chat_id bytes);;
  echo_sent now chat_id message_id content.

Definition send_reply (now : N) (in_reply_to : ContentId) (content preview : string) : App () :=
  chat_id <-- active_sendable_chat;;
  bytes <-- app_lift (map_err AppError (encode_reply in_reply_to content));;
  message_id <-- call_client show_client (send_message show_chat chat_id bytes);;
  echo_sent now chat_id message_id (reply_body preview content).

(** ** Commands *)

(** Lines of output. *)
Fixpoint show_lines (now : N) (lines : list string) : App () :=
  match lines with
  | [] => app_ret ()
  | l :: lines => app_modify (add_system_message now l) ;;; show_lines now lines
  end.

Definition help_lines : list string :=
  ["── Commands ──"; "/account - Show your account address"; "/dm <address> - Start a direct (1:1) chat";
   "/new <name> [address...] - Create a group chat"; "/add <address> - Add someone to the active group";
   "/remove <address> - Remove someone from the active group";
   "/members - List members of the active conversation"; "/reply <text> - Reply to the latest message";
   "/nickname <name> - Name the active chat"; "/chats - List all chats";
   "/switch <name|id> - Switch active chat"; "/delete <name|id> - Delete a chat";
   "/status - Show connection status"; "/clear - Clear current chat messages";
   "/quit or Esc or Ctrl+C - Exit"]%string.

(** [clipboard]: whether the address could be copied. *)
Definition cmd_account (now : N) (clipboard : bool) : App (option string) :=
  a <-- app_get;;
  show_lines now ["── Your Account Address ──"%string; ap_addr a; installation_name (ap_core a);
                  if clipboard then "Address copied to clipboard. Share it so others can reach you."%string
                  else "Share this address so others can reach you."%string] ;;;
  app_ret (Some "Account address shown"%string).

Definition cmd_dm (args : string) : App (option string) :=
  let address := trim_str args in
  if decide (address = ""%string) then app_ret (Some "Usage: /dm <address>"%string)
  else
    chat_id <-- call_client debug_client (create_direct_conversation show show_chat show_addr address);;
    label <-- app_opt (slice_to 8 chat_id);;
    app_modify (start_session chat_id Dm None) ;;; save_state ;;;
    app_modify (set_status ("Direct chat started (" ++ label ++ "). Say hello!")) ;;;
    app_ret (Some ("DM started (" ++ label ++ ")"))%string.

Definition cmd_new (rnd : R) (args : string) : App (option string) :=
  match split_whitespace args with
  | [] => app_ret (Some "Usage: /new <name> [address...]"%string)
  | name :: addresses =>
      a <-- app_get;;
      let members := sorted_set (filter (λ x, x ≠ ap_addr a) addresses) in
      chat_id <-- call_client debug_client
        (create_group_conversation show show_chat show_addr rnd members {| gm_name := name; gm_desc := "" |});;
      label <-- app_opt (slice_to 8 chat_id);;
      app_modify (start_session chat_id GroupClass (Some name)) ;;; save_state ;;;
      let msg := if decide (members = []) then ("Group created (" ++ label ++ ").")%string
                 else ("Group created (" ++ label ++ "); " ++ pretty (length members) ++ " invite(s) pending.")%string in
      app_modify (set_status msg) ;;; app_ret (Some msg)
  end.

(** Whether an account is seated or invited; a roster that errs is skipped. *)
Definition already_present (chat_id address : string) a : result AppFault bool :=
  match members show_chat chat_id (ap_core a), pending_members show_chat chat_id (ap_core a) with
  | Err ClientPanic, _ | _, Err ClientPanic => Err AppPanic
  | m, p =>
      let seated := match m with Ok l => l | Err _ => [] end in
      let invited := match p with Ok l => l | Err _ => [] end in
      Ok (existsb (λ s, bool_decide (addr_to_string (ms_account s) = address)) (seated ++ invited))
  end.

Definition cmd_add (args : string) : App (option string) :=
  let address := trim_str args in
  if decide (address = ""%string) then app_ret (Some "Usage: /add <address>"%string)
  else
    a <-- app_get;;
    match active_chat (ap_state a) with
    | None => app_fail (AppError "No active conversation. Use /new to create a group.")
    | Some chat_id =>
        if decide (cs_kind <$> chats (ap_state a) !! chat_id = Some Dm)
        then app_ret (Some "DMs are 1:1 — start a group with /new to add people."%string)
        else if decide (address = ap_addr a)
        then app_ret (Some "That's your own address — you're already in the group."%string)
        else
          present <-- app_lift (already_present chat_id address a);;
          if (present : bool)
          then app_ret (Some "That account is already in the group (or its invite is pending)."%string)
          else
            call_client debug_client (add_group_participants show show_chat show_addr chat_id [address]) ;;;
            app_modify (set_status "Invite pending — the group will commit it shortly.") ;;;
            app_ret (Some "Invite pending"%string)
    end.

Definition cmd_remove (args : string) : App (option string) :=
  let address := trim_str args in
  if decide (address = ""%string) then app_ret (Some "Usage: /remove <address>"%string)
  else
    a <-- app_get;;
    match active_chat (ap_state a) with
    | None => app_fail (AppError "No active conversation.")
    | Some chat_id =>
        call_client show_client (remove_group_participants show_chat show_addr chat_id [address]) ;;;
        let msg := "Removal pending — the group will commit it shortly."%string in
        app_modify (set_status msg) ;;; app_ret (Some msg)
    end.

(** One row of the members list. *)
Definition member_row a (row : string * bool) : option string :=
  short ← slice_to 16 row.1;
  let you := if decide (row.1 = ap_addr a) then " (you)"%string else "" in
  let pending := if (row.2 : bool) then " (pending)"%string else "" in
  Some ("  • " ++ short ++ "…" ++ you ++ pending)%string.

Fixpoint show_rows (now : N) (rows : list (string * bool)) : App () :=
  match rows with
  | [] => app_ret ()
  | r :: rows => a <-- app_get;; line <-- app_opt (member_row a r);;
                 app_modify (add_system_message now line) ;;; show_rows now rows
  end.

Definition cmd_members (now : N) : App (option string) :=
  a <-- app_get;;
  match active_chat (ap_state a) with
  | None => app_fail (AppError "No active conversation.")
  | Some chat_id =>
      participants <-- app_lift (map_err (word debug_client) (participants show_chat chat_id (ap_core a)));;
      pending <-- app_lift (map_err (word debug_client) (pending_members show_chat chat_id (ap_core a)));;
      let joined := sorted_set (map addr_to_string participants) in
      let invited := sorted_set (filter (λ x, x ∉ joined) (map (λ m, addr_to_string (ms_account m)) pending)) in
      let total := pretty (length joined + length invited) in
      app_modify (add_system_message now ("── Members (" ++ total ++ ") ──")) ;;;
      show_rows now (map (λ x, (x, false)) joined ++ map (λ x, (x, true)) invited) ;;;
      app_ret (Some (total ++ " member(s)"))%string
  end.

(** The most recent message with an id. *)
Definition reply_target (msgs : list DisplayMessage) : option (ContentId * string) :=
  match filter (λ m, is_some (dm_message_id m) = true) (rev msgs) with
  | m :: _ => id ← dm_message_id m; Some (Content_id id, snippet_of (dm_content m))
  | [] => None
  end.

Definition cmd_reply (now : N) (args : string) : App (option string) :=
  let text := trim_str args in
  if decide (text = ""%string) then app_ret (Some "Usage: /reply <text>"%string)
  else
    a <-- app_get;;
    match active_chat (ap_state a) with
    | None => app_fail (AppError "No active chat. Use /dm or /new first.")
    | Some chat_id =>
        match chats (ap_state a) !! chat_id ≫= λ s, reply_target (cs_messages s) with
        | None => app_ret (Some "Nothing to reply to yet."%string)
        | Some (target, preview) => send_reply now target text preview ;;; app_ret (Some "Reply sent"%string)
        end
    end.

Definition cmd_nickname (args : string) : App (option string) :=
  if decide (args = ""%string) then app_ret (Some "Usage: /nickname <name>"%string)
  else
    a <-- app_get;;
    match active_chat (ap_state a) with
    | None => app_fail (AppError "No active chat.")
    | Some chat_id =>
        match chats (ap_state a) !! chat_id with
        | None => app_fail (AppError "Chat session not found.")
        | Some _ =>
            app_modify (update_session chat_id (set_nickname (Some args))) ;;; save_state ;;;
            app_modify (set_status ("Chat named '" ++ args ++ "'.")) ;;;
            app_ret (Some ("Nickname set to '" ++ args ++ "'"))
        end
    end%string.

Definition cmd_chats (now : N) : App (option string) :=
  show_chats_list now ;;;
  a <-- app_get;;
  let n := size (chats (ap_state a)) in
  app_ret (Some (if decide (n = 0) then "No chats yet"%string else (pretty n ++ " chat(s)")%string)).

(** The label of a chat that is there: indexing a missing one panics. *)
Definition label_of (chat_id : string) a : option string := s ← chats (ap_state a) !! chat_id; session_display_name s.

Definition cmd_switch (args : string) : App (option string) :=
  if decide (args = ""%string) then app_ret (Some "Usage: /switch <nickname|id-prefix>"%string)
  else
    a <-- app_get;;
    match resolve_chat_id args a with
    | None => app_fail (AppError ("No chat matching '" ++ args ++ "'."))
    | Some chat_id =>
        label <-- app_opt (label_of chat_id a);;
        app_modify (set_active_chat (Some chat_id)) ;;; save_state ;;;
        app_modify (set_status ("Switched to '" ++ label ++ "'.")) ;;;
        app_ret (Some ("Switched to '" ++ label ++ "'"))
    end%string.

Definition remove_chat (chat_id : string) a : ChatApp :=
  let rest := delete chat_id (chats (ap_state a)) in
  set_state
    {| chats := rest;
       active_chat := if decide (active_chat (ap_state a) = Some chat_id) then head (hash_iter rest).*1
                      else active_chat (ap_state a) |} a.

Definition cmd_delete (args : string) : App (option string) :=
  if decide (args = ""%string) then app_ret (Some "Usage: /delete <nickname|id-prefix>"%string)
  else
    a <-- app_get;;
    match resolve_chat_id args a with
    | None => app_fail (AppError ("No chat matching '" ++ args ++ "'."))
    | Some chat_id =>
        label <-- app_opt (label_of chat_id a);;
        app_modify (remove_chat chat_id) ;;; save_state ;;;
        app_modify (set_status ("Deleted '" ++ label ++ "'.")) ;;;
        app_ret (Some ("Deleted '" ++ label ++ "'"))
    end%string.

Definition newline : string := String (Ascii.ascii_of_nat 10) EmptyString.

Definition cmd_status : App (option string) :=
  a <-- app_get;;
  active_label <-- app_opt
    (match active_chat (ap_state a) ≫= λ id, chats (ap_state a) !! id with
     | Some s => name ← session_display_name s; short ← slice_to 8 (cs_chat_id s);
                 Some (name ++ " (" ++ short ++ ")")%string
     | None => Some "none"%string
     end);;
  app_ret (Some ("User: " ++ ap_user_name a ++ newline ++ "Identity: " ++ installation_name (ap_core a) ++ newline
                 ++ "Chats: " ++ pretty (size (chats (ap_state a))) ++ newline ++ "Active: " ++ active_label))%string.

Definition cmd_clear : App (option string) :=
  a <-- app_get;;
  (match active_chat (ap_state a) with
   | Some active =>
       if decide (is_Some (chats (ap_state a) !! active))
       then app_modify (update_session active (set_messages [])) ;;; save_state
       else app_ret ()
   | None => app_ret ()
   end) ;;;
  app_ret (Some "Messages cleared"%string).

(** [handle_command]; [None] as the answer is quitting. *)
Definition handle_command (now : N) (rnd : R) (clipboard : bool) (cmd : string) : App (option string) :=
  let '(first, rest) := split_space (str_bytes cmd) in
  let command := bytes_str first in
  let args := match rest with Some l => bytes_str l | None => ""%string end in
  if decide (command = "/help"%string)
  then show_lines now help_lines ;;; app_ret (Some "Help displayed"%string)
  else if decide (command = "/account"%string) then cmd_account now clipboard
  else if decide (command = "/dm"%string) then cmd_dm args
  else if decide (command = "/new"%string) then cmd_new rnd args
  else if decide (command = "/add"%string) then cmd_add args
  else if decide (command = "/remove"%string) then cmd_remove args
  else if decide (command = "/members"%string) then cmd_members now
  else if decide (command = "/reply"%string) then cmd_reply now args
  else if decide (command = "/nickname"%string) then cmd_nickname args
  else if decide (command = "/chats"%string) then cmd_chats now
  else if decide (command = "/switch"%string) then cmd_switch args
  else if decide (command = "/delete"%string) then cmd_delete args
  else if decide (command = "/status"%string) then cmd_status
  else if decide (command = "/clear"%string) then cmd_clear
  else if decide (command = "/quit"%string) then app_ret None
  else app_ret (Some ("Unknown command: " ++ command ++ ". Type /help for commands."))%string.

(** ** The keyboard ([bin/chat-cli/src/ui.rs]) *)

(** A key press as [handle_events] tells them apart; a character is its bytes. *)
Inductive Key : Type := Esc | CtrlC | Enter | Char (c : list byte) | Backspace | OtherKey.

(** What an answer does to the status line; the flag is whether to go on. *)
Definition on_fault (prefix : string) (f : AppFault) : App bool :=
  match f with
  | AppError e => app_modify (set_status (prefix ++ e)) ;;; app_ret true
  | AppPanic => app_fail AppPanic
  end.

(** Entering a line: a command, or a message to the chat shown. *)
Definition enter (now : N) (rnd : R) (clipboard : bool) (input : string) : App bool :=
  if starts_with_str input "/" then
    λ a, match handle_command now rnd clipboard input a with
         | (a, Ok (Some response)) => (set_status response a, Ok true)
         | (a, Ok None) => (a, Ok false)
         | (a, Err f) => on_fault "Error: " f a
         end
  else λ a,
    match current_session a with
    | Some _ =>
        match app_send_message now input a with
        | (a, Ok _) => (a, Ok true)
        | (a, Err f) => on_fault "Send error: " f a
        end
    | None => (set_status "No active chat. Use /dm or /new first." a, Ok true)
    end.

Definition press (now : N) (rnd : R) (clipboard : bool) (key : Key) : App bool :=
  match key with
  | Esc | CtrlC => app_ret false
  | Enter =>
      a <-- app_get;;
      if decide (ap_input a = ""%string) then app_ret true
      else app_modify (set_input "") ;;; enter now rnd clipboard (ap_input a)
  | Char c => app_modify (λ a, set_input (ap_input a ++ bytes_str c) a) ;;; app_ret true
  | Backspace =>
      app_modify (λ a, set_input (bytes_str (concat (removelast (chars (ap_input a))))) a) ;;; app_ret true
  | OtherKey => app_ret true
  end.

(** ** Runs ([run_app] in [bin/chat-cli/src/main.rs]) *)

(** The application, the events it was sent and has not taken yet, and what
    the client's worker goes on with. *)
Record AppRun := { ar_app : ChatApp; ar_queue : list Event; ar_worker : option (option nat) }.

(** The loop takes every waiting event and then at most one key; the worker's
    turns fall anywhere in between. The loop ends where one of them fails. A
    key press is one step: a command that locks the core more than once ([/add]
    reads the members before it adds) is taken to hold it throughout, so worker
    turns between its calls are not modelled. *)
Inductive app_step : AppRun → AppRun → Prop :=
| app_incoming now a queue w a' :
    process_incoming now queue a = (a', Ok ()) →
    app_step {| ar_app := a; ar_queue := queue; ar_worker := w |}
             {| ar_app := a'; ar_queue := []; ar_worker := w |}
| app_press now rnd clipboard key a queue w a' go_on :
    press now rnd clipboard key a = (a', Ok go_on) →
    app_step {| ar_app := a; ar_queue := queue; ar_worker := w |}
             {| ar_app := a'; ar_queue := queue; ar_worker := w |}
| app_worker budget input a queue k sent w :
    worker_turn show_chat budget input (ap_core a) = (k, sent, w) →
    app_step {| ar_app := a; ar_queue := queue; ar_worker := Some budget |}
             {| ar_app := set_core k a; ar_queue := queue ++ sent; ar_worker := w |}.
End app.

Arguments ChatApp : clear implicits.
Arguments AppRun {D} DS RS CS P WS O.
