(* ===== verification/Ui.v ===== *)
(** * What the terminal shows ([bin/chat-cli/src/ui.rs])

    The texts, rows and positions the drawing code hands to the terminal
    library: the header, the messages wrapped to the width of the window, the
    scroll offset, and the input line with its cursor. Widths and heights are
    what the library's layout gives; a panic (a slice inside a character or
    past the end) is [None]. *)

From Stdlib Require Import Strings.Byte Strings.String.
From stdpp Require Import base gmap strings numbers pretty sorting list.
From S2P Require Import Prelude Utf8 Ed25519 Identity CausalHistory Storage Services Core Client Text ChatApp.

(** [wrap_line]. *)
Definition wrap_line (line : string) (width : nat) : list string :=
  if decide (line = ""%string) then [""%string]
  else map (λ piece, bytes_str (concat piece)) (chunks (Nat.max width 1) (chars line)).

(** A row of the message list: what leads it, and its text. *)
Record Row := { row_lead : string; row_text : string }.

Fixpoint spaces (n : nat) : string :=
  match n with O => "" | S n => String (Ascii.ascii_of_nat 32) (spaces n) end.

(** Who a message is from, as its first row says; [None] is a panic. *)
Definition sender_label (remote_name : string) (is_group : bool) (m : DisplayMessage) : option string :=
  if dm_from_self m then Some "You"%string
  else if is_group then
    match dm_origin m with
    | Own => Some "you"%string
    | Foreign account => slice_to 8 account
    end
  else Some remote_name.

(** The pieces of a message, its lines wrapped one by one. *)
Definition message_pieces (content_width : nat) (content : string) : list string :=
  flat_map (λ line, wrap_line (bytes_str line) content_width) (split_newline (str_bytes content)).

(** The first piece under the prefix, the others under the indent. *)
Definition lead_rows (prefix indent : string) (pieces : list string) : list Row :=
  match pieces with
  | [] => []
  | p :: ps => {| row_lead := prefix; row_text := p |} ::
               map (λ p, {| row_lead := indent; row_text := p |}) ps
  end.

Fixpoint join_comma (l : list string) : string :=
  match l with [] => "" | [x] => x | x :: l => x ++ ", " ++ join_comma l end%string.

Definition receipt_row (indent : string) (m : DisplayMessage) : list Row :=
  match dm_delivered_to m with
  | [] => []
  | peers => [{| row_lead := indent; row_text := ("↳ delivered to " ++ join_comma peers)%string |}]
  end.

Definition message_rows (inner_width : nat) (remote_name : string) (is_group : bool) (m : DisplayMessage)
  : option (list Row) :=
  label ← sender_label remote_name is_group m;
  let prefix := (label ++ ": ")%string in
  let prefix_len := length (str_bytes prefix) in
  let indent := spaces prefix_len in
  let content_width := Nat.max (inner_width - prefix_len) 1 in
  Some (lead_rows prefix indent (message_pieces content_width (dm_content m)) ++ receipt_row indent m).

Fixpoint all_rows (inner_width : nat) (remote_name : string) (is_group : bool) (ms : list DisplayMessage)
  : option (list Row) :=
  match ms with
  | [] => Some []
  | m :: ms => rows ← message_rows inner_width remote_name is_group m;
               rest ← all_rows inner_width remote_name is_group ms; Some (rows ++ rest)
  end.

(** The input line: the visible part, and the column of the cursor. *)
Definition draw_input (x width : nat) (input : string) : option (string * nat) :=
  let inner_width := width - 2 in
  let input_len := length (str_bytes input) in
  let scroll_offset := if inner_width <=? input_len then input_len - inner_width + 1 else 0 in
  visible ← slice_from scroll_offset input;
  Some (visible, x + (input_len - scroll_offset) + 1).

Section ui.
Context {DS RS CS P WS O : Type}.
Implicit Types (a : ChatApp DS RS CS P WS O).

(** [draw_header]: the title; [None] is a panic. *)
Definition header_title a : option string :=
  match current_session a with
  | Some s =>
      id ← slice_to 8 (cs_chat_id s);
      let ro := if ap_is_active a then ""%string else " [read-only]"%string in
      Some match cs_nickname s with
           | Some name => " 💬 Chat: " ++ ap_user_name a ++ " ↔ " ++ name ++ " (" ++ id ++ ")" ++ ro ++ " "
           | None => " 💬 Chat: " ++ ap_user_name a ++ " ↔ (" ++ id ++ ")" ++ ro ++ " "
           end%string
  | None => Some (" 💬 " ++ ap_user_name a ++ " — no active chat ")%string
  end.

Definition messages_title a : option string :=
  match current_session a with
  | Some s =>
      match cs_nickname s with
      | Some name => Some (" Messages with " ++ name ++ " ")%string
      | None => short ← slice_to 8 (cs_chat_id s); Some (" Messages (" ++ short ++ ") ")%string
      end
  | None => Some " Command output "%string
  end.

(** [draw_messages] in a window: the title, the rows and the scroll offset. *)
Definition draw_messages (width height : nat) a : option (string * list Row * nat) :=
  remote_name ← (match current_session a with
                 | Some s => session_display_name s
                 | None => Some "Them"%string
                 end);
  let is_group := bool_decide (cs_kind <$> current_session a = Some GroupClass) in
  rows ← all_rows (width - 2) remote_name is_group (app_messages a);
  title ← messages_title a;
  Some (title, rows, length rows - (height - 2)).

(** [draw] in the four windows the layout gives. *)
Definition draw (x width height : nat) a : option (string * (string * list Row * nat) * (string * nat) * string) :=
  header ← header_title a;
  messages ← draw_messages width height a;
  input ← draw_input x width (ap_input a);
  Some (header, messages, input, ap_status a).
End ui.

(** ** Wrapping *)

Lemma bytes_of_piece (p : list (list byte)) : str_bytes (bytes_str (concat p)) = concat p.
Proof. apply list_byte_of_string_of_list_byte. Qed.

Lemma concat_map_concat {A} (ls : list (list (list A))) : concat (map (@concat A) ls) = concat (concat ls).
Proof. induction ls as [|l ls IH]; [done|]. cbn. by rewrite concat_app, IH. Qed.

(** Wrapping loses and adds nothing, and cuts between characters only. *)
Lemma wrap_line_spec line width :
  utf8_valid (str_bytes line) = true →
  concat (map str_bytes (wrap_line line width)) = str_bytes line ∧ wrap_line line width ≠ [] ∧
  Forall (λ p, utf8_valid (str_bytes p) = true ∧ length (chars p) ≤ Nat.max width 1) (wrap_line line width) ∧
  (∀ i p, wrap_line line width !! i = Some p → S i < length (wrap_line line width) →
     length (chars p) = Nat.max width 1).
Proof.
  intros Hv. unfold wrap_line. case_decide as He.
  { subst. split_and!; [done|done| |intros [|i] p; cbn; [lia|done]]. constructor; [cbn; lia|constructor]. }
  destruct (chars_from_valid _ Hv) as (_ & Hc & Hone & Hval).
  destruct (chunks_spec (Nat.max width 1) (chars line)) as (H1 & H2 & H3); [lia|].
  assert (∀ piece, piece ∈ chunks (Nat.max width 1) (chars line) → chars (bytes_str (concat piece)) = piece ∧
    utf8_valid (concat piece) = true) as Hpiece.
  { intros piece Hp. assert (piece ⊆ chars line) as Hsub.
    { rewrite <- H1. intros c Hin. apply list_elem_of_In, in_concat.
      exists piece. split; by apply list_elem_of_In. }
    assert (Forall one_char piece ∧ Forall (λ c, ∀ r, utf8_valid (c ++ r) = utf8_valid r) piece) as [P1 P2].
    { rewrite !Forall_forall in Hone, Hval. split; apply Forall_forall; auto. }
    split; [by apply chars_concat|by apply concat_valid]. }
  rewrite map_map. split_and!.
  - rewrite (map_ext _ (@concat byte) bytes_of_piece), concat_map_concat, H1. exact Hc.
  - destruct (chars line) as [|c cs] eqn:Hcs; [|done]. unfold chars in Hcs. rewrite Hcs in Hc.
    exfalso. apply He, str_bytes_inj. by rewrite <- Hc.
  - apply Forall_map, Forall_forall. intros piece Hp. rewrite Forall_forall in H2.
    destruct (Hpiece _ Hp) as [E1 E2]. rewrite E1, bytes_of_piece. split; [done|]. by apply H2.
  - intros i p. rewrite list_lookup_fmap, length_map. intros (piece & Hp & ->)%fmap_Some Hi.
    rewrite (proj1 (Hpiece _ (list_elem_of_lookup_2 _ _ _ Hp))). by apply (H3 i).
Qed.

(** ** Rows *)

(** The pieces of a message, grouped by its lines. *)
Definition piece_groups (content_width : nat) (content : string) : list (list string) :=
  map (λ line, wrap_line (bytes_str line) content_width) (split_newline (str_bytes content)).

Lemma map_fixed {A} (f : A → A) l : Forall (λ x, f x = x) l → map f l = l.
Proof. induction 1 as [|x l Hx _ IH]; [done|]. cbn. by rewrite Hx, IH. Qed.

Lemma pieces_spec width content :
  utf8_valid (str_bytes content) = true →
  message_pieces width content = concat (piece_groups width content) ∧
  join_newline (map (λ g, concat (map str_bytes g)) (piece_groups width content)) = str_bytes content ∧
  Forall (λ p, utf8_valid (str_bytes p) = true ∧ length (chars p) ≤ Nat.max width 1)
    (message_pieces width content) ∧
  message_pieces width content ≠ [].
Proof.
  intros Hv%split_newline_valid. unfold message_pieces, piece_groups. rewrite flat_map_concat_map.
  assert (∀ l, utf8_valid l = true → utf8_valid (str_bytes (bytes_str l)) = true) as Hb.
  { intros l. by rewrite list_byte_of_string_of_list_byte. }
  split_and!; [done| | |].
  - rewrite map_map. rewrite <- (join_split (str_bytes content)) at 2. f_equal.
    apply map_fixed. eapply Forall_impl; [exact Hv|]. intros line Hl. cbn.
    rewrite (proj1 (wrap_line_spec _ width (Hb _ Hl))). apply list_byte_of_string_of_list_byte.
  - apply Forall_concat, Forall_map. eapply Forall_impl; [exact Hv|]. intros line Hl.
    by apply wrap_line_spec, Hb.
  - destruct (split_newline (str_bytes content)) as [|line lines] eqn:Hs;
      [by apply split_newline_nonempty in Hs|]. apply Forall_cons_1 in Hv as [Hl _]. cbn.
    destruct (wrap_line_spec _ width (Hb _ Hl)) as (_ & Hne & _).
    destruct (wrap_line _ width); [done|]. done.
Qed.

Lemma lead_rows_text prefix indent ps : map row_text (lead_rows prefix indent ps) = ps.
Proof. destruct ps as [|p ps]; [done|]. cbn. rewrite map_map. cbn. by rewrite map_id. Qed.

(** A message is shown whole: its rows, put back together line by line,
    are exactly its content; each is valid text of at most the width left of
    the prefix; the first stands under the sender's label and every other
    under as many blanks, and a last one names who has it exactly when
    somebody acknowledged it. *)
Theorem message_rows_faithful inner_width remote_name is_group m rows :
  utf8_valid (str_bytes (dm_content m)) = true →
  message_rows inner_width remote_name is_group m = Some rows →
  ∃ label groups receipt,
    sender_label remote_name is_group m = Some label ∧
    map row_text rows = concat groups ++ receipt ∧
    join_newline (map (λ g, concat (map str_bytes g)) groups) = str_bytes (dm_content m) ∧
    Forall (λ p, utf8_valid (str_bytes p) = true ∧
      length (chars p) ≤ Nat.max (inner_width - length (str_bytes (label ++ ": ")%string)) 1) (concat groups) ∧
    (receipt = [] ↔ dm_delivered_to m = []) ∧ length receipt ≤ 1 ∧
    (∃ first rest, map row_lead rows = first :: rest ∧ first = (label ++ ": ")%string ∧
       Forall (λ l, l = spaces (length (str_bytes first))) rest).
Proof.
  intros Hv. unfold message_rows. destruct (sender_label _ _ m) as [label|]; [|done]. cbn [mbind option_bind].
  set (prefix := (label ++ ": ")%string). set (w := Nat.max _ 1). intros [= <-].
  destruct (pieces_spec w (dm_content m) Hv) as (H1 & H2 & H3 & H4).
  exists label, (piece_groups w (dm_content m)), (map row_text (receipt_row (spaces (length (str_bytes prefix))) m)).
  rewrite !map_app, lead_rows_text, H1 in *. split_and!; try done.
  - eapply Forall_impl; [exact H3|]. cbn. intros p [? ?]. split; [done|]. unfold w, prefix in *. lia.
  - unfold receipt_row. by destruct (dm_delivered_to m).
  - unfold receipt_row. destruct (dm_delivered_to m); cbn; lia.
  - destruct (concat _) as [|p ps]; [done|]. cbn [lead_rows map]. eexists _, _. split; [done|].
    split; [done|]. apply Forall_app. split.
    + apply Forall_map, Forall_map, Forall_forall. done.
    + unfold receipt_row. destruct (dm_delivered_to m); repeat constructor.
Qed.

(** ** The input line *)

Lemma slice_from_Some n s v :
  slice_from n s = Some v → str_bytes s = take n (str_bytes s) ++ str_bytes v ∧ n ≤ length (str_bytes s).
Proof.
  unfold slice_from. destruct (drop n (str_bytes s)) as [|b l] eqn:Hd.
  - destruct (Nat.leb_spec n (length (str_bytes s))); [|done]. intros [= <-]. cbn.
    rewrite <- Hd, take_drop. auto.
  - destruct (is_cont b); [done|]. intros [= <-]. rewrite list_byte_of_string_of_list_byte, <- Hd, take_drop.
    split; [done|]. assert (length (drop n (str_bytes s)) ≠ 0) by by rewrite Hd.
    rewrite length_drop in *. lia.
Qed.

Lemma slice_from_None n s :
  slice_from n s = None ↔ length (str_bytes s) < n ∨ ∃ b, str_bytes s !! n = Some b ∧ is_cont b = true.
Proof.
  unfold slice_from. rewrite <- (Nat.add_0_r n), <- lookup_drop, Nat.add_0_r.
  destruct (drop n (str_bytes s)) as [|b l] eqn:Hd.
  - destruct (Nat.leb_spec n (length (str_bytes s))); cbn; split; [done|intros [?|(b & [=] & _)]; lia|auto|done].
  - assert (length (drop n (str_bytes s)) ≠ 0) as Hl by by rewrite Hd. rewrite length_drop in Hl. cbn.
    destruct (is_cont b) eqn:Hb; split; try done; [eauto|]. intros [?|(b' & [= <-] & ?)]; [lia|congruence].
Qed.

(** What the input line shows: an end of the input, short enough to leave
    room for the cursor, which stands right behind it and inside the box; and
    exactly when there is none: in a window of at most two columns, or when
    the cut falls inside a character, where drawing panics. *)
Theorem input_line_exact x width input :
  utf8_valid (str_bytes input) = true →
  let len := length (str_bytes input) in
  match draw_input x width input with
  | Some (visible, cursor) =>
      3 ≤ width ∧ (∃ hidden, str_bytes input = hidden ++ str_bytes visible) ∧
      length (str_bytes visible) < width - 2 ∧ (len < width - 2 → visible = input) ∧
      cursor = x + 1 + length (str_bytes visible) ∧ x < cursor < x + width - 1
  | None =>
      width ≤ 2 ∨
      width - 2 ≤ len ∧ ∃ b, str_bytes input !! (len - (width - 2) + 1) = Some b ∧ is_cont b = true
  end.
Proof.
  intros Hvalid. cbv zeta. unfold draw_input. cbv zeta.
  destruct (Nat.leb_spec (width - 2) (length (str_bytes input))) as [Hw|Hw].
  - destruct (slice_from _ input) as [v|] eqn:Hs; cbn.
    + pose proof (slice_from_Some _ _ _ Hs) as [He Hl].
      assert (length (str_bytes v) = length (str_bytes input) - (length (str_bytes input) - (width - 2) + 1)) as Hv.
      { apply (f_equal length) in He. rewrite length_app, length_take in He. lia. }
      split_and!; [lia|eauto|lia|lia|lia|lia|lia].
    + apply slice_from_None in Hs as [Hs|Hs]; [left; lia|right; eauto].
  - destruct (slice_from 0 input) as [v|] eqn:Hs; cbn.
    + pose proof (slice_from_Some _ _ _ Hs) as [He Hl]. cbn in He. apply str_bytes_inj in He as <-.
      split_and!; [lia|by exists []|lia|done|lia|lia|lia].
    + apply slice_from_None in Hs as [Hs|(b & Hb & Hc)]; [lia|]. exfalso.
      destruct (utf8_step (str_bytes input) Hvalid) as (c & rest & E & (b0 & t & -> & Hb0 & _) & _).
      { by intros E; rewrite E in Hb. }
      rewrite E in Hb. injection Hb as ->. congruence.
Qed.

(** Two-byte characters, [n] of them. *)
Fixpoint wide (n : nat) : list byte := match n with O => [] | S n => xc3 :: xa9 :: wide n end.

Lemma wide_odd n i l : i < n → (wide n ++ l) !! (2 * i + 1) = Some xa9.
Proof.
  revert i. induction n as [|n IH]; intros i Hi; [lia|]. destruct i as [|i]; [done|].
  replace (2 * S i + 1) with (S (S (2 * i + 1))) by lia. cbn. apply IH. lia.
Qed.
Lemma wide_valid n l : utf8_valid (wide n ++ l) = utf8_valid l.
Proof. induction n as [|n IH]; [done|]. cbn [wide app]. by rewrite utf8_valid_2. Qed.
Lemma wide_length n : length (wide n) = 2 * n.
Proof. induction n as [|n IH]; [done|]. cbn [wide length]. lia. Qed.

(** Whatever the width of the window, but three columns, in which no text
    is visible at all, there is ordinary text that stops
    the application when it is typed: once the line is longer than the window
    and the cut falls inside a character, drawing panics. *)
Theorem typed_text_stops_drawing {DS RS CS P WS O : Type} x width height :
  width ≠ 3 →
  ∃ input, utf8_valid (str_bytes input) = true ∧
    ∀ a : ChatApp DS RS CS P WS O, ap_input a = input → draw x width height a = None.
Proof.
  intros H3. set (tail := if Nat.even width then [] else [x61]).
  exists (bytes_str (wide width ++ tail)).
  rewrite list_byte_of_string_of_list_byte, wide_valid. split; [unfold tail; by destruct (Nat.even width)|].
  assert (draw_input x width (bytes_str (wide width ++ tail)) = None) as Hd.
  { unfold draw_input. cbv zeta.
    rewrite !list_byte_of_string_of_list_byte, length_app, wide_length.
    destruct (Nat.leb_spec (width - 2) (2 * width + length tail)); [|lia].
    assert (slice_from (2 * width + length tail - (width - 2) + 1) (bytes_str (wide width ++ tail)) = None) as ->;
      [|done].
    apply slice_from_None. rewrite list_byte_of_string_of_list_byte, length_app, wide_length.
    destruct (decide (width ≤ 2)) as [Hw|Hw]; [left; lia|right]. exists xa9. split; [|done].
    assert (∃ i, i < width ∧ 2 * width + length tail - (width - 2) + 1 = 2 * i + 1) as (i & Hi & ->);
      [|by apply wide_odd].
    unfold tail. destruct (Nat.even width) eqn:He; cbn [length].
    - apply Nat.even_spec in He as [k Hk]. exists (k + 1). lia.
    - assert (Nat.odd width = true) as [k Hk]%Nat.odd_spec by (unfold Nat.odd; by rewrite He).
      exists (k + 2). lia. }
  intros a Ha. unfold draw. rewrite Ha, Hd. destruct (header_title a); [|done]. cbn.
  by destruct (draw_messages width height a).
Qed.

(** ** Witnesses *)

Definition demo_message : DisplayMessage :=
  {| dm_from_self := false; dm_content := "héllo wörld"; dm_timestamp := 0; dm_message_id := None;
     dm_delivered_to := ["0a0b0c0d…"%string]; dm_origin := Foreign "0123456789" |}.

Lemma message_rows_faithful_witness :
  ∃ rows, message_rows 14 "" true demo_message = Some rows ∧
    map row_text rows = ["héll"; "o wö"; "rld"; "↳ delivered to 0a0b0c0d…"]%string ∧
    ∃ first rest, map row_lead rows = first :: rest ∧ first = "01234567: "%string.
Proof.
  destruct (message_rows 14 "" true demo_message) as [rows|] eqn:Hr; [|by vm_compute in Hr].
  exists rows. split; [done|]. split.
  - assert (map row_text <$> message_rows 14 "" true demo_message =
      Some ["héll"; "o wö"; "rld"; "↳ delivered to 0a0b0c0d…"]%string) as H by (vm_compute; reflexivity).
    rewrite Hr in H. cbn in H. congruence.
  - destruct (message_rows_faithful 14 "" true demo_message rows) as
      (label & groups & receipt & Hl & _ & _ & _ & _ & _ & first & rest & H1 & H2 & _);
      [vm_compute; reflexivity|done|].
    exists first, rest. split; [done|]. rewrite H2. vm_compute in Hl. by injection Hl as <-.
Defined.

Lemma input_line_exact_witness :
  draw_input 0 6 "abcdef" = Some ("def"%string, 4) ∧ 0 < 4 < 0 + 6 - 1.
Proof.
  split; [vm_compute; reflexivity|].
  pose proof (input_line_exact 0 6 "abcdef" eq_refl) as H. vm_compute in H. apply H.
Defined.

Definition plain_app : ChatApp () () () () () () :=
  {| ap_core := {| services := {| cx_ds := (); cx_registry := (); cx_store := ();
                     cx_identity := {| id_signer_key := Signer_key []; id_participant := Participant [] |};
                     cx_provider := (); cx_causal := store_new; cx_wakeup := () |};
                   inbox_id := ""; cached_convos := ∅ |};
     ap_addr := ""; ap_state := {| chats := ∅; active_chat := None |}; ap_is_active := false; ap_output := [];
     ap_input := ""; ap_status := ""; ap_user_name := "saro"; ap_saved := None |}.

Lemma typed_text_stops_drawing_witness :
  is_Some (draw 0 80 24 plain_app) ∧ ∃ input, draw 0 80 24 (set_input input plain_app) = None.
Proof.
  split; [vm_compute; eauto|].
  destruct (typed_text_stops_drawing (DS := ()) (RS := ()) (CS := ()) (P := ()) (WS := ()) (O := ()) 0 80 24)
    as (input & _ & H); [lia|]. exists input. by apply H.
Defined.
