(* ===== verification/Screen.v ===== *)
(** * The terminal session ([bin/chat-cli/src/main.rs], [ui.rs])

    From the client that was opened to the terminal handed back: logging is
    set up, the terminal is switched to its alternate screen and raw mode, the
    loop draws and takes keys until told to quit, and the terminal is
    restored. The terminal's operations may each fail; what the application
    does in a turn is that of [ChatApp] and [Ui]. The theorems: the loop goes
    on exactly until a turn ends it, and the terminal is handed back as it was
    unless one of its own operations fails or the application panics. *)

From Stdlib Require Import Strings.Byte Strings.String.
From stdpp Require Import base gmap strings numbers list.
From S2P Require Import Prelude Utf8 Hex Ed25519 Context Addr Identity Storage Installation Text.
From S2P Require Import CausalHistory Delivery Services Convo Core Client MessageTypes ChatApp Ui.

(** ** What an application does in a turn *)

(** [A] is the application, [T] what the world gives it in one turn: events,
    the time, the size of the screen. *)
Class TuiApp (A T : Type) := {
  tui_incoming : T → A → A * result AppFault ();
  tui_draw : T → A → bool; (* false is a panic *)
  tui_press : T → Key → A → A * result AppFault bool;
}.

(** ** The terminal *)

Record Term := { alternate_screen : bool; raw_mode : bool }.
Definition shell_term : Term := {| alternate_screen := false; raw_mode := false |}.

Inductive TermOp : Type :=
  EnterAlternateScreen | EnableRawMode | TerminalNew | DisableRawMode | LeaveAlternateScreen.

(** How [poll] and [read] answer. *)
Inductive Polled : Type :=
| PollFailed (e : string)
| NoEvent
| ReadFailed (e : string)
| KeyEvent (pressed : bool) (key : Key)
| OtherEvent.

(** How a session ends, if it has. *)
Inductive Ended : Type := StillRunning | Panicked | Returned (r : result string ()).

Section session.
Context {A T : Type} {TA : TuiApp A T}.
(** The failures of the terminal's operations. *)
Context (fails : TermOp → option string).

Definition term_op (o : TermOp) (t : Term) : Term * result string () :=
  match fails o with
  | Some e => (t, Err e)
  | None =>
      (match o with
       | EnterAlternateScreen => {| alternate_screen := true; raw_mode := raw_mode t |}
       | EnableRawMode => {| alternate_screen := alternate_screen t; raw_mode := true |}
       | TerminalNew => t
       | DisableRawMode => {| alternate_screen := alternate_screen t; raw_mode := false |}
       | LeaveAlternateScreen => {| alternate_screen := false; raw_mode := raw_mode t |}
       end, Ok ())
  end.
Definition then_op (m : Term * result string ()) (o : TermOp) : Term * result string () :=
  match m with (t, Ok ()) => term_op o t | (t, Err e) => (t, Err e) end.

(** [ui::init] and [ui::restore]. *)
Definition ui_init (t : Term) : Term * result string () :=
  then_op (then_op (term_op EnterAlternateScreen t) EnableRawMode) TerminalNew.
Definition ui_restore (t : Term) : Term * result string () :=
  then_op (term_op DisableRawMode t) LeaveAlternateScreen.

(** [ui::handle_events]. *)
Definition handle_key_events (w : T) (p : Polled) (a : A) : A * result AppFault bool :=
  match p with
  | PollFailed e | ReadFailed e => (a, Err (AppError e))
  | NoEvent | OtherEvent => (a, Ok true)
  | KeyEvent pressed key => if (pressed : bool) then tui_press w key a else (a, Ok true)
  end.

(** One turn of the loop: [draws] is how the terminal took the frame. *)
Record Turn := { tn_world : T; tn_draws : result string (); tn_polled : Polled }.

Definition turn (tn : Turn) (a : A) : A * result AppFault bool :=
  match tui_incoming (tn_world tn) a with
  | (a, Err f) => (a, Err f)
  | (a, Ok ()) =>
      if negb (tui_draw (tn_world tn) a) then (a, Err AppPanic)
      else match tn_draws tn with
           | Err e => (a, Err (AppError e))
           | Ok () => handle_key_events (tn_world tn) (tn_polled tn) a
           end
  end.

(** [run_app], as long as the world gives it turns. *)
Fixpoint run_app (turns : list Turn) (a : A) : A * Ended :=
  match turns with
  | [] => (a, StillRunning)
  | tn :: turns =>
      match turn tn a with
      | (a, Ok true) => run_app turns a
      | (a, Ok false) => (a, Returned (Ok ()))
      | (a, Err (AppError e)) => (a, Returned (Err e))
      | (a, Err AppPanic) => (a, Panicked)
      end
  end.

(** [launch_tui], for the application made of the client, or why it was not. *)
Definition launch_tui (app : A * result AppFault ()) (smoketest : bool) (turns : list Turn) (t : Term)
  : Term * Ended :=
  match app with
  | (_, Err AppPanic) => (t, Panicked)
  | (_, Err (AppError e)) => (t, Returned (Err e))
  | (a, Ok ()) =>
      if smoketest then (t, Returned (Ok ()))
      else match ui_init t with
           | (t, Err e) => (t, Returned (Err ("failed to initialize terminal: " ++ e)%string))
           | (t, Ok ()) =>
               match (run_app turns a).2 with
               | Returned result =>
                   match ui_restore t with
                   | (t, Err e) => (t, Returned (Err ("failed to restore terminal: " ++ e)%string))
                   | (t, Ok ()) => (t, Returned result)
                   end
               | ended => (t, ended)
               end
           end
  end.
End session.

(** ** Logging, and [main] *)

Inductive Logging : Type := LogOff | LogTo (path filter : string).

(** [RUST_LOG] if it is set and reads as a filter. *)
Definition setup_logging (create : string → result string ()) (env_filter : option string)
    (log_file : option string) : result string Logging :=
  let filter := default "warn"%string env_filter in
  match log_file with
  | Some path =>
      _ ← map_err (λ e, ("failed to create log file: " ++ path ++ ": " ++ e)%string) (create path);
      Ok (LogTo path filter)
  | None => Ok LogOff
  end.

(** [main], around the branch that opens the client: [db_path] is the path as
    text if it is, [branch] opens the client and launches the session. *)
Definition main_flow (logging : result string Logging) (create_dir_all : result string ())
    (db_path : option string) (branch : string → Term → Term * Ended) (t : Term) : Term * Ended :=
  match logging with
  | Err e => (t, Returned (Err e))
  | Ok _ =>
      match create_dir_all with
      | Err e => (t, Returned (Err ("failed to create data directory: " ++ e)%string))
      | Ok () =>
          match db_path with
          | None => (t, Returned (Err "db path contains non-UTF-8 characters"%string))
          | Some db => branch db t
          end
      end
  end.

(** ** The chat application *)

Section chat.
Context {HX : Hex} {D : Dalek} {PB : Prost} {DS RS CS P WS O R : Type}.
Context {DSI : DeliveryService DS} {CSI : ConversationStore CS} {CO : Convo DS RS CS P WS O}.
Context {CF : ConvoFactory DS RS CS P WS O R} {E : Type} {AU : AuthService E} {C : Cbor} {HI : HashIter} {SJ : SerdeJson}.
Context (show : E → string) (show_chat : ChatError.t → string) (show_addr : AccountAddrError.t → string).
Context (show_client debug_client : ClientError.t → string).
Context (save : option (list byte) → list byte → option (list byte) * result string ()).

(** A turn's time, waiting events, clipboard, randomness and screen. *)
Record ChatTurn := {
  ct_now : N; ct_events : list Event; ct_rnd : R; ct_clipboard : bool;
  ct_x : nat; ct_width : nat; ct_height : nat;
}.

Definition chat_tui : TuiApp (ChatApp DS RS CS P WS O) ChatTurn := {|
  tui_incoming w := process_incoming save (ct_now w) (ct_events w);
  tui_draw w a := is_some (draw (ct_x w) (ct_width w) (ct_height w) a);
  tui_press w key := press show show_chat show_addr show_client debug_client save
    (ct_now w) (ct_rnd w) (ct_clipboard w) key;
|}.
End chat.

(** ** Theorems *)

Section theorems.
Context {A T : Type} {TA : TuiApp A T}.
Implicit Types (turns : list (Turn (T := T))) (a : A).

(** The turns that go on, and the one that does not. *)
Inductive runs : list Turn → A → A → Prop :=
| runs_nil a : runs [] a a
| runs_cons tn turns a a' a'' : turn tn a = (a', Ok true) → runs turns a' a'' → runs (tn :: turns) a a''.

Definition ends_with (r : result AppFault bool) (e : Ended) : Prop :=
  match r with
  | Ok true => False
  | Ok false => e = Returned (Ok ())
  | Err (AppError m) => e = Returned (Err m)
  | Err AppPanic => e = Panicked
  end.

Lemma run_app_spec turns a a' e :
  run_app turns a = (a', e) →
  match e with
  | StillRunning => runs turns a a'
  | _ => ∃ before tn after b r, turns = before ++ tn :: after ∧ runs before a b ∧ turn tn b = (a', r) ∧ ends_with r e
  end.
Proof.
  revert a. induction turns as [|tn turns IH]; intros a; cbn [run_app].
  { intros [= <- <-]. constructor. }
  destruct (turn tn a) as [a1 r] eqn:Ht.
  assert (∀ e', ends_with r e' → (a1, e') = (a', e) → e ≠ StillRunning →
    ∃ before tn' after b r', tn :: turns = before ++ tn' :: after ∧ runs before a b ∧
      turn tn' b = (a', r') ∧ ends_with r' e) as Hend.
  { intros e' He [= <- <-] _. exists [], tn, turns, a, r. split_and!; [done|constructor|done..]. }
  destruct r as [[]|[m|]].
  - intros H%IH. destruct e; [by econstructor|..];
      destruct H as (before & tn' & after & b & r1 & -> & H1 & H2 & H3);
      exists (tn :: before), tn', after, b, r1; (split_and!; [done|by econstructor|done..]).
  - intros H. assert (e = Returned (Ok ())) as -> by congruence. by eapply Hend.
  - intros H. assert (e = Returned (Err m)) as -> by congruence. by eapply Hend.
  - intros H. assert (e = Panicked) as -> by congruence. by eapply Hend.
Qed.

Context (fails : TermOp → option string).

Lemma ui_init_spec :
  (fails EnterAlternateScreen = None ∧ fails EnableRawMode = None ∧ fails TerminalNew = None ∧
   ui_init fails shell_term = ({| alternate_screen := true; raw_mode := true |}, Ok ())) ∨
  (∃ o m t, fails o = Some m ∧ ui_init fails shell_term = (t, Err m)).
Proof.
  unfold ui_init, then_op, term_op.
  destruct (fails EnterAlternateScreen) as [e|] eqn:H1; [eauto 6|].
  destruct (fails EnableRawMode) as [e|] eqn:H2; [eauto 6|].
  destruct (fails TerminalNew) as [e|] eqn:H3; [eauto 6|]. auto.
Qed.

Lemma ui_restore_spec t :
  (fails DisableRawMode = None ∧ fails LeaveAlternateScreen = None ∧ ui_restore fails t = (shell_term, Ok ())) ∨
  (∃ o m t', fails o = Some m ∧ ui_restore fails t = (t', Err m)).
Proof.
  unfold ui_restore, then_op, term_op.
  destruct (fails DisableRawMode) as [e|] eqn:H1; [eauto 6|].
  destruct (fails LeaveAlternateScreen) as [e|] eqn:H2; [eauto 6|]. auto.
Qed.

(** The terminal is handed back: a session that returns, with success or an
    error, leaves the terminal as the shell had it, unless an operation on
    the terminal itself failed; a smoketest never touches it; and what is
    returned is how the loop ended: at the first turn that quits or fails,
    after turns that all went on. *)
Theorem terminal_handed_back a smoketest turns t ended :
  launch_tui fails (a, Ok ()) smoketest turns shell_term = (t, ended) →
  (smoketest = true → t = shell_term ∧ ended = Returned (Ok ())) ∧
  (∀ r, ended = Returned r → t = shell_term ∨ ∃ o m, fails o = Some m) ∧
  (smoketest = false → (∀ o, fails o = None) →
     ended = (run_app turns a).2 ∧
     match ended with
     | StillRunning => ∃ a', runs turns a a'
     | _ => ∃ before tn after b a' r, turns = before ++ tn :: after ∧ runs before a b ∧
              turn tn b = (a', r) ∧ ends_with r ended
     end).
Proof.
  cbn [launch_tui]. destruct smoketest.
  { intros [= <- <-]. split_and!; [done|auto|done]. }
  destruct ui_init_spec as [(H1 & H2 & H3 & ->)|(o & m & t1 & Ho & ->)].
  2: { intros [= <- <-]. split_and!; [done|eauto|]. intros _ Hn. by rewrite Hn in Ho. }
  destruct (run_app turns a) as [a' e] eqn:Hrun. pose proof (run_app_spec _ _ _ _ Hrun) as Hspec.
  cbn [snd]. destruct e as [| |result].
  - intros [= <- <-]. split_and!; [done..|]. eauto.
  - intros [= <- <-]. split_and!; [done..|]. intros _ _. split; [done|]. naive_solver.
  - destruct (ui_restore_spec {| alternate_screen := true; raw_mode := true |})
      as [(H4 & H5 & ->)|(o & m & t1 & Ho & ->)]; intros [= <- <-].
    + split_and!; [done|auto|]. intros _ _. split; [done|]. naive_solver.
    + split_and!; [done|eauto|]. intros _ Hn. by rewrite Hn in Ho.
Qed.

(** Where it is not: when raw mode is refused the alternate screen stays, and
    a panic of the application leaves both on. *)
Theorem terminal_left_behind a tn m :
  (∀ o, o ≠ EnableRawMode → fails o = None) →
  (fails EnableRawMode = Some m →
     launch_tui fails (a, Ok ()) false [tn] shell_term =
       ({| alternate_screen := true; raw_mode := false |},
        Returned (Err ("failed to initialize terminal: " ++ m)%string))) ∧
  (fails EnableRawMode = None → (turn tn a).2 = Err AppPanic →
     launch_tui fails (a, Ok ()) false [tn] shell_term =
       ({| alternate_screen := true; raw_mode := true |}, Panicked)).
Proof.
  intros Hf. unfold launch_tui, ui_init, then_op, term_op. rewrite (Hf EnterAlternateScreen) by done.
  split; intros H; rewrite H; [done|]. rewrite (Hf TerminalNew) by done.
  cbn [run_app]. destruct (turn tn a) as [a' r]. cbn. by intros ->.
Qed.
End theorems.

(** ** Witnesses *)

(** An application that counts its keys, and panics where the world says so. *)
Definition counting_app : TuiApp nat bool := {|
  tui_incoming _ n := (n, Ok ());
  tui_draw fine _ := fine;
  tui_press _ key n := match key with Esc => (n, Ok false) | _ => (S n, Ok true) end;
|}.

Definition key_turn (key : Key) : Turn (T := bool) :=
  {| tn_world := true; tn_draws := Ok (); tn_polled := KeyEvent true key |}.

Lemma terminal_handed_back_witness :
  ∃ t ended, launch_tui (TA := counting_app) (λ _, None) (0, Ok ()) false
    [key_turn Enter; key_turn Esc; key_turn Enter] shell_term = (t, ended) ∧
    ended = (run_app (TA := counting_app) [key_turn Enter; key_turn Esc; key_turn Enter] 0).2 ∧
    t = shell_term.
Proof.
  eexists _, _. split; [reflexivity|].
  pose proof (terminal_handed_back (TA := counting_app) (λ _, None) 0 false
    [key_turn Enter; key_turn Esc; key_turn Enter] _ _ eq_refl) as (_ & H & H').
  split; [exact (proj1 (H' eq_refl (λ _, eq_refl)))|].
  destruct (H _ eq_refl) as [E|(o & m & E)]; [exact E|discriminate E].
Defined.

Lemma terminal_left_behind_witness :
  launch_tui (TA := counting_app) (λ _, None) (0, Ok ()) false
    [{| tn_world := false; tn_draws := Ok (); tn_polled := NoEvent |}] shell_term =
  ({| alternate_screen := true; raw_mode := true |}, Panicked).
Proof.
  apply (terminal_left_behind (TA := counting_app) (λ _, None) 0 _ ""%string); reflexivity.
Defined.
