(* ===== verification/Logos.v ===== *)
(** * Opening a client ([crates/generic-chat/src/builder.rs],
      [crates/logos-chat/src/logos.rs], [bin/chat-cli/src/main.rs])

    How the parts are put together: the builder with its defaults, the
    configuration of the Logos stack, registering a new installation with the
    account server and finding it again in the store, and how the terminal
    client's options become a configuration. The account server is a parameter
    with a state: what it answers, and what it becomes when it is written to. *)

From Stdlib Require Import Strings.Byte Strings.String.
From stdpp Require Import base gmap strings numbers pretty list.
From S2P Require Import Prelude Utf8 Hex Ed25519 Context AccountLog Codec Addr Draft Record Account AccountTheorems.
From S2P Require Import Identity HttpAuth CausalHistory Storage Delivery Registry Sql Services SqliteStore Installation.
From S2P Require Import MlsUtils GroupV1 GroupV3 GroupV2 Convo Core Client KeyVault Endpoints.

(** ** The account server *)

(** A server with a state: how it answers, and what a write makes of it. *)
Class HttpWorld (W : Type) := {
  world_server : W → HttpServer;
  world_posted : W → string → list byte → W;
}.

(** What it accepted it has: a read of it may fail, be shed or be refused, but
    is not answered as never published, nor, when it is answered whole, with
    anything else. *)
Class HttpWorldLaws (W : Type) {HW : HttpWorld W} := {
  world_serves w u b resp n r :
    http_post (HttpServer := world_server w) u b 0 = Ok resp → is_success (status resp) = true →
    http_get (HttpServer := world_server (world_posted w u b)) u n = Ok r →
    status r ≠ NOT_FOUND ∧ (is_success (status r) = true → broken r = None → body r = b);
}.

(** [trim_end_matches('/')], [Endpoint::new], [HttpAuthClient::new]. *)
Fixpoint drop_slashes (l : list byte) : list byte :=
  match l with x2f :: l' => drop_slashes l' | _ => l end.
Definition trim_slashes (s : string) : string := bytes_str (rev (drop_slashes (rev (str_bytes s)))).
Definition endpoint_new (base_url : string) : Endpoint := {| base_url := trim_slashes base_url |}.

(** [ContactRegistry::new]. *)
Definition registry_new {T} (delivery : T) (base_url : string) (mode : RegistryPublishMode) : ContactRegistry T :=
  {| cr_base_url := trim_slashes base_url; cr_delivery := delivery; cr_publish_mode := mode |}.

Section http.
Context {HX : Hex} {D : Dalek} {W : Type} {HW : HttpWorld W} (show_http : HttpAccountError.t → string).

(** [HttpAuthClient] as the directory... *)
Definition http_provider (e : Endpoint) : AccountProvider W := {|
  fetch w addr := map_err show_http (http_fetch (SV := world_server w) e addr);
  provider_publish w addr log :=
    (world_posted w (url e addr) (signed_to_bytes log),
     map_err show_http (http_publish (SV := world_server w) e addr log));
|}.

(** ...and as the auth service. A panic of a query, which never happens
    ([auth_verdict_exact]), is an error here. *)
Definition unpanic {A} (o : option (result HttpAccountError.t A)) : result HttpAccountError.t A :=
  match o with Some r => r | None => Err (HttpAccountError.Io "panic") end.
Definition http_auth (e : Endpoint) (w : W) : AuthService HttpAccountError.t := {|
  validate_signer s p := unpanic (http_validate_signer (SV := world_server w) e s p);
  signers_for_participant p := unpanic (http_signers_for_participant (SV := world_server w) e p);
|}.
End http.

(** ** Configurations *)

Inductive IdentityMode : Type := LoadOrCreate | Ephemeral.
#[export] Instance identity_mode_eq_dec : EqDecision IdentityMode.
Proof. solve_decision. Defined.

(** [GroupV2Config] is de-mls's; the program sets five of its times. *)
Record GroupV2Timing := {
  voting_delay_ms : N; consensus_timeout_ms : N; commit_batch_window_ms : N;
  freeze_duration_ms : N; proposal_expiration_ms : N;
}.
Class DeMlsConfig := {
  GroupV2Config : Type;
  group_v2_default : GroupV2Config;
  with_timing : GroupV2Timing → GroupV2Config → GroupV2Config;
}.

Definition REGISTRY_ENDPOINT : string := "https://devnet.chat-kc.logos.co".

Section config.
Context {DC : DeMlsConfig}.

Record LogosConfig := {
  db_path : string;
  db_key : DbKey;
  identity_mode : IdentityMode;
  registry_url : string;
  registry_publish_mode : RegistryPublishMode;
  p2p_config : P2pConfig;
  group_v2_config : option GroupV2Config;
}.

Definition config_new (path : string) (key : DbKey) : LogosConfig :=
  {| db_path := path; db_key := key; identity_mode := LoadOrCreate; registry_url := REGISTRY_ENDPOINT;
     registry_publish_mode := ModeHttp; p2p_config := p2p_default; group_v2_config := None |}.

Definition set_identity_mode (m : IdentityMode) (c : LogosConfig) : LogosConfig :=
  {| db_path := db_path c; db_key := db_key c; identity_mode := m; registry_url := registry_url c;
     registry_publish_mode := registry_publish_mode c; p2p_config := p2p_config c;
     group_v2_config := group_v2_config c |}.
Definition set_registry_url (u : string) (c : LogosConfig) : LogosConfig :=
  {| db_path := db_path c; db_key := db_key c; identity_mode := identity_mode c; registry_url := u;
     registry_publish_mode := registry_publish_mode c; p2p_config := p2p_config c;
     group_v2_config := group_v2_config c |}.
Definition set_registry_publish_mode (m : RegistryPublishMode) (c : LogosConfig) : LogosConfig :=
  {| db_path := db_path c; db_key := db_key c; identity_mode := identity_mode c; registry_url := registry_url c;
     registry_publish_mode := m; p2p_config := p2p_config c; group_v2_config := group_v2_config c |}.
Definition set_p2p_config (p : P2pConfig) (c : LogosConfig) : LogosConfig :=
  {| db_path := db_path c; db_key := db_key c; identity_mode := identity_mode c; registry_url := registry_url c;
     registry_publish_mode := registry_publish_mode c; p2p_config := p; group_v2_config := group_v2_config c |}.
Definition set_group_v2_config (g : GroupV2Config) (c : LogosConfig) : LogosConfig :=
  {| db_path := db_path c; db_key := db_key c; identity_mode := identity_mode c; registry_url := registry_url c;
     registry_publish_mode := registry_publish_mode c; p2p_config := p2p_config c; group_v2_config := Some g |}.

(** Which database a client is opened on. *)
Definition storage_of (c : LogosConfig) : StorageConfig :=
  match identity_mode c with
  | Ephemeral => InMemory
  | LoadOrCreate => EncryptedWithKey (db_path c) (db_key c)
  end.

(** ** The builder *)

(** A field that has not been configured. *)
Inductive Unset : Type := unset.

Record ChatClientBuilder {HX : Hex} {D : Dalek} (T R A S : Type) := {
  b_installation : Installation;
  b_transport : T;
  b_registration : R;
  b_auth : A;
  b_storage : S;
  b_group_v2 : option GroupV2Config;
}.
End config.
Arguments b_installation {DC HX D T R A S}.
Arguments b_transport {DC HX D T R A S}.
Arguments b_registration {DC HX D T R A S}.
Arguments b_auth {DC HX D T R A S}.
Arguments b_storage {DC HX D T R A S}.
Arguments b_group_v2 {DC HX D T R A S}.

Section builder.
Context {DC : DeMlsConfig} {HX : Hex} {D : Dalek}.

Definition builder_new (i : Installation) : ChatClientBuilder Unset Unset Unset Unset :=
  {| b_installation := i; b_transport := unset; b_registration := unset; b_auth := unset; b_storage := unset;
     b_group_v2 := None |}.

Context {T R A S : Type}.
Implicit Types (b : ChatClientBuilder T R A S).

Definition with_transport {NT} (t : NT) b : ChatClientBuilder NT R A S :=
  {| b_installation := b_installation b; b_transport := t; b_registration := b_registration b;
     b_auth := b_auth b; b_storage := b_storage b; b_group_v2 := b_group_v2 b |}.
Definition with_registration {NR} (r : NR) b : ChatClientBuilder T NR A S :=
  {| b_installation := b_installation b; b_transport := b_transport b; b_registration := r;
     b_auth := b_auth b; b_storage := b_storage b; b_group_v2 := b_group_v2 b |}.
Definition with_auth {NA} (a : NA) b : ChatClientBuilder T R NA S :=
  {| b_installation := b_installation b; b_transport := b_transport b; b_registration := b_registration b;
     b_auth := a; b_storage := b_storage b; b_group_v2 := b_group_v2 b |}.
Definition with_storage {NS} (s : NS) b : ChatClientBuilder T R A NS :=
  {| b_installation := b_installation b; b_transport := b_transport b; b_registration := b_registration b;
     b_auth := b_auth b; b_storage := s; b_group_v2 := b_group_v2 b |}.
Definition with_group_v2 (g : GroupV2Config) b : ChatClientBuilder T R A S :=
  {| b_installation := b_installation b; b_transport := b_transport b; b_registration := b_registration b;
     b_auth := b_auth b; b_storage := b_storage b; b_group_v2 := Some g |}.

(** [storage_config], for the store the configuration opens; [None] is the
    panic when it does not. *)
Definition with_storage_config (opened : result StorageError.t SqliteStore) b
  : option (ChatClientBuilder T R A SqliteStore) :=
  match opened with Ok s => Some (with_storage s b) | Err _ => None end.
End builder.

(** What a field is when the client is built: as configured, or the default;
    [None] is a panic. *)
Class Component (X Y : Type) := component : X → option Y.
#[export] Instance component_given X : Component X X := Some.
#[export] Instance component_registry : Component Unset EphemeralRegistry := λ _, Some {| key_packages := ∅ |}.
(** [SqliteStore::in_memory], over a connection that answers and a clock. *)
Definition component_storage {RD : RusqliteDisplay} (answer : list Command → Command → result RusqliteError ())
    (io : string → option RusqliteError) (now : Z) : Component Unset SqliteStore :=
  λ _, match (sqlite_store_new answer io now InMemory {| db_tables := ∅; db_indexes := ∅ |}).2 with
       | Ok s => Some s
       | Err _ => None
       end.

(** The services a field stands for: a registry signs with the installation's
    key, an auth value answers. *)
Class RegistrationOf {D : Dalek} (R : Type) := registration_of : Ed25519SigningKey → RegistrationService R.
Class AuthOf (A E : Type) := auth_of : A → AuthService E.

(** [ContactRegistry] as a registration service, at a time of the clock. *)
Definition contact_registration {HX : Hex} {D : Dalek} {SV : HttpServer} {B64 : Base64} {WR : RegistryWire}
    {T} {DSI : DeliveryService T} (show_registry : ContactRegistryError.t → string) (now_ms : option N)
  : RegistrationOf (ContactRegistry T) := λ sk, {|
  rs_register r ident kp :=
    let '(r', res) := registry_register r sk (id_signer_key ident) now_ms kp in (r', map_err show_registry res);
  rs_retrieve r device := map_err show_registry (registry_retrieve r device);
|}.

Section build.
Context {DC : DeMlsConfig} {HX : Hex} {D : Dalek} {B : Blake2b} {PB : Prost} {PB2 : ProstV2} {TC : TlsCodec}.
Context {P G K : Type} {ML : OpenMls P G} {DM : DeMls P K} {WS : Type} {WSI : WakeupService WS} {E : Type}.
Context (show : E → string) (show_chat : ChatError.t → string).
(** The timer service, the MLS provider, and how many events the application takes. *)
Context (ws : WS) (mls_provider : result string P) (budget : option nat).

(** The client, and the GroupV2 configuration its core runs under. *)
Record Opened (T R S : Type) := {
  op_client : Client T R S P WS (AnyConvo G K);
  op_group_v2 : option GroupV2Config;
}.

(** [build], in its four forms. *)
Definition build {T R A S R' S' : Type} {DSI : DeliveryService T} {CR : Component R R'} {CS : Component S S'}
    {RO : RegistrationOf R'} {AO : AuthOf A E} {CSI : ConversationStore S'} (b : ChatClientBuilder T R A S)
  : option (result ClientFault (Opened T R' S')) :=
  registration ← component (b_registration b);
  storage ← component (b_storage b);
  let i := b_installation b in
  Some (
    client ← client_new (RSI := registration_of (inst_signing_key i)) (A := auth_of (b_auth b)) show show_chat i
               (b_transport b) registration ws storage mls_provider budget;
    Ok {| op_client := client; op_group_v2 := b_group_v2 b |}).
End build.
Arguments Opened {DC D} P G K WS T R S.

(** ** Registering an installation *)

Section register.
Context {HX : Hex} {D : Dalek} {AP : Type} {PV : AccountProvider AP}.
(** [Display] of an account error. *)
Context (show_account : AccountError.t → string).

(** [register_account], for the account key and the installation key drawn;
    the directory after the call is part of the answer. *)
Definition register_account (account_key installation_key : Ed25519SigningKey) (p : AP)
  : option (AP * result AccountError.t Installation) :=
  let pending := pending_generate installation_key in
  match from_canonical_slice (endorsement_request pending) with
  | Err e => Some (p, Err (AccountError.from_ed25519 e))
  | Ok key =>
      '(a, r) ← publish {| signing_key := account_key; provider := p |} (endorse_chat_signer [] key);
      Some (provider a, match r with Ok _ => Ok (complete pending (account_addr a)) | Err e => Err e end)
  end.

Definition registered (r : result AccountError.t Installation) : result ClientError.t Installation :=
  map_err (λ e, ClientError.Account (show_account e)) r.

(** [open_installation]. Registering runs, and changes the directory, only
    when there is no stored installation. *)
Definition open_installation {S} {I : IdentityStore S} (account_key installation_key : Ed25519SigningKey)
    (mode : IdentityMode) (p : AP) (s : S) : option (AP * S * result ClientError.t Installation) :=
  '(p', r) ← register_account account_key installation_key p;
  match mode with
  | Ephemeral => Some (p', s, registered r)
  | LoadOrCreate =>
      let '(s', res) := load_or_create s (λ _, registered r) in
      Some (match installation_load s with Ok None => p' | _ => p end, s', res)
  end.
End register.

(** ** Opening *)

Definition fast_timing : GroupV2Timing :=
  {| voting_delay_ms := 50; consensus_timeout_ms := 250; commit_batch_window_ms := 500;
     freeze_duration_ms := 500; proposal_expiration_ms := 4000 |}.
Definition fast_group_v2_config {DC : DeMlsConfig} : GroupV2Config := with_timing fast_timing group_v2_default.

Section opening.
Context {DC : DeMlsConfig} {HX : Hex} {D : Dalek} {B : Blake2b} {PB : Prost} {PB2 : ProstV2} {TC : TlsCodec}.
Context {P G K : Type} {ML : OpenMls P G} {DM : DeMls P K} {WS : Type} {WSI : WakeupService WS}.
Context {T : Type} {DSI : DeliveryService T} {W : Type} {HW : HttpWorld W}.
Context {RD : RusqliteDisplay} {B64 : Base64} {WR : RegistryWire}.
Context (show_http : HttpAccountError.t → string) (show_chat : ChatError.t → string).
Context (show_account : AccountError.t → string) (show_registry : ContactRegistryError.t → string).
Context (ws : WS) (mls_provider : result string P) (budget : option nat).
(** The connection's answers, the faults of its statements, and the clocks. *)
Context (answer : list Command → Command → result RusqliteError ()) (io : string → option RusqliteError).
Context (now : Z) (now_ms : option N).

Abbreviation LogosClient := (Opened P G K WS T (ContactRegistry T) SqliteStore).

Definition auth_http : AuthOf (Endpoint * W) HttpAccountError.t := λ a, http_auth a.1 a.2.

(** The builder with everything provided, built on the world as it is. *)
Definition build_logos (i : Installation) (transport : T) (registry : ContactRegistry T) (e : Endpoint) (w : W)
    (store : SqliteStore) (group_v2 : option GroupV2Config) : option (result ClientFault LogosClient) :=
  let b := with_storage store (with_auth (e, w) (with_registration registry
             (with_transport transport (builder_new i)))) in
  let b := match group_v2 with Some g => with_group_v2 g b | None => b end in
  build (RO := contact_registration (SV := world_server w) show_registry now_ms) (AO := auth_http) show_http
    show_chat ws mls_provider budget b.

(** [open_with_transport] on the account server and the database found at the
    path; both are given back as they are left. *)
Definition open_with_transport (config : LogosConfig) (transport : T)
    (account_key installation_key : Ed25519SigningKey) (w : W) (found : Database)
  : option (W * Database * result ClientFault LogosClient) :=
  let registry := registry_new transport (registry_url config) (registry_publish_mode config) in
  let e := endpoint_new (registry_url config) in
  let mode := identity_mode config in
  let kept db := match mode with Ephemeral => found | LoadOrCreate => db end in
  match sqlite_store_new answer io now (storage_of config)
          (match mode with Ephemeral => new_database | LoadOrCreate => found end) with
  | (db, Err err) => Some (w, kept db, Err (ClientErr (ClientError.Storage err)))
  | (db, Ok store) =>
      '(w, store, r) ← open_installation (PV := http_provider show_http e) show_account account_key
                         installation_key mode w store;
      match r with
      | Err err => Some (w, kept (ss_db store), Err (ClientErr err))
      | Ok i =>
          r ← build_logos i transport registry e w store (group_v2_config config);
          Some (w, kept (ss_db store), r)
      end
  end.

(** The embedded node: started with its settings, or why not. *)
Context (node_start : P2pConfig → result string T).

Definition open_logos (config : LogosConfig) (account_key installation_key : Ed25519SigningKey) (w : W)
    (found : Database) : option (W * Database * result ClientFault LogosClient) :=
  match node_start (p2p_config config) with
  | Err e => Some (w, found, Err (ClientErr (ClientError.Transport e)))
  | Ok transport => open_with_transport config transport account_key installation_key w found
  end.

(** [client_with]. *)
Definition client_with (i : Installation) (config : LogosConfig) (w : W) : option (result ClientFault LogosClient) :=
  match node_start (p2p_config config) with
  | Err e => Some (Err (ClientErr (ClientError.Transport e)))
  | Ok transport =>
      let registry := registry_new transport (registry_url config) ModeHttp in
      let e := endpoint_new (registry_url config) in
      match (sqlite_store_new answer io now InMemory new_database).2 with
      | Err err => Some (Err (ClientErr (ClientError.Storage err)))
      | Ok store => build_logos i transport registry e w store (Some fast_group_v2_config)
      end
  end.
End opening.

(** ** The terminal client's options ([main.rs]) *)

Inductive TransportKind : Type := FileTransport | LogosDelivery.
Inductive GroupCommit : Type := AutoCommit | FastCommit | DefaultCommit.
Inductive RegistryPublishKind : Type := PublishHttp | PublishDelivery.

Record Cli := {
  cli_name : string;
  cli_transport : TransportKind;
  cli_group_commit : GroupCommit;
  cli_data : VaultPath;
  cli_keys : VaultPath;
  cli_db : option string;
  cli_preset : option string;
  cli_port : option N;
  cli_smoketest : bool;
  cli_registry_url : option string;
  cli_registry_publish : RegistryPublishKind;
}.

Section main.
Context {DC : DeMlsConfig}.

Definition group_v2_override (mode : GroupCommit) (transport : TransportKind) : option GroupV2Config :=
  let fast := match mode with
              | FastCommit => true
              | DefaultCommit => false
              | AutoCommit => match transport with FileTransport => true | LogosDelivery => false end
              end in
  if (fast : bool) then Some fast_group_v2_config else None.

Definition publish_mode_of (k : RegistryPublishKind) : RegistryPublishMode :=
  match k with PublishHttp => ModeHttp | PublishDelivery => ModeDelivery end.

(** [db_path]; a path is text here, so it is always UTF-8. *)
Definition cli_db_path (cli : Cli) : string :=
  default (display_path (cli_data cli ++ [(cli_name cli ++ ".db")%string])) (cli_db cli).

Definition override_group_v2 (cli : Cli) (c : LogosConfig) : LogosConfig :=
  match group_v2_override (cli_group_commit cli) (cli_transport cli) with
  | Some g => set_group_v2_config g c
  | None => c
  end.

(** What the embedded node is started with. *)
Definition cli_p2p (cli : Cli) : P2pConfig :=
  {| p2p_preset := default (p2p_preset p2p_default) (cli_preset cli);
     p2p_port := default (p2p_port p2p_default) (cli_port cli);
     p2p_log_level := p2p_log_level p2p_default |}.

(** [db_key]. *)
Definition cli_db_key : DbKey := {| db_key_bytes := str_bytes "chat-cli example database key --" |}.

(** The configuration of each branch of [main]. *)
Definition network_config (cli : Cli) : LogosConfig :=
  override_group_v2 cli
    (set_p2p_config (cli_p2p cli)
       (set_registry_publish_mode (publish_mode_of (cli_registry_publish cli))
          (set_registry_url (default REGISTRY_ENDPOINT (cli_registry_url cli))
             (config_new (cli_db_path cli) cli_db_key)))).
Definition file_config (cli : Cli) : LogosConfig :=
  override_group_v2 cli
    (set_registry_publish_mode (publish_mode_of (cli_registry_publish cli))
       (match cli_registry_url cli with
        | Some u => set_registry_url u (config_new (cli_db_path cli) cli_db_key)
        | None => config_new (cli_db_path cli) cli_db_key
        end)).

(** [main] up to the client it launches the terminal on. *)
Inductive MainError : Type :=
| MainVault (e : KeyVaultError.t)
| MainClient (e : ClientFault)
| MainTransport (e : string).

Context {HX : Hex} {D : Dalek} {B : Blake2b} {PB : Prost} {PB2 : ProstV2} {TC : TlsCodec}.
Context {P G K : Type} {ML : OpenMls P G} {DM : DeMls P K} {WS : Type} {WSI : WakeupService WS}.
Context {T : Type} {DSI : DeliveryService T} {W : Type} {HW : HttpWorld W}.
Context {RD : RusqliteDisplay} {B64 : Base64} {WR : RegistryWire}.
Context (show_http : HttpAccountError.t → string) (show_chat : ChatError.t → string).
Context (show_account : AccountError.t → string) (show_registry : ContactRegistryError.t → string).
Context (ws : WS) (mls_provider : result string P) (budget : option nat).
Context (answer : list Command → Command → result RusqliteError ()) (io : string → option RusqliteError).
Context (now : Z) (now_ms : option N).

Abbreviation MainClientT := (Opened P G K WS T (ContactRegistry T) SqliteStore).

(** The vault's folder: a smoketest's keys go to a folder of this run's. *)
Definition vault_dir (smoketest_dir : VaultPath) (cli : Cli) : VaultPath :=
  if cli_smoketest cli then smoketest_dir else cli_keys cli.

(** The [LogosDelivery] branch, on the account server and the file system; the
    database is not touched. *)
Definition main_network (node_start : P2pConfig → result string T) (smoketest_dir : VaultPath) (F : Faults)
    (fresh drawn : Ed25519SigningKey) (cli : Cli) (w : W) (fs : Fs)
  : option (W * Fs * result MainError MainClientT) :=
  let config := network_config cli in
  let e := endpoint_new (default REGISTRY_ENDPOINT (cli_registry_url cli)) in
  '(v, r) ← install (PV := http_provider show_http e) F fresh drawn (cli_name cli)
              {| kv_dir := vault_dir smoketest_dir cli; kv_client := w; kv_fs := fs |};
  match r with
  | Err err => Some (kv_client v, kv_fs v, Err (MainVault err))
  | Ok ik =>
      let i := installation_make (ik_signing_key ik) (ik_account ik) in
      r ← client_with show_http show_chat show_registry ws mls_provider budget answer io now now_ms node_start
            i config (kv_client v);
      Some (kv_client v, kv_fs v, map_err MainClient r)
  end.

(** The [File] branch, for the file transport opened or why not. *)
Definition main_file (transport : result string T) (account_key installation_key : Ed25519SigningKey)
    (cli : Cli) (w : W) (found : Database) : option (W * Database * result MainError MainClientT) :=
  match transport with
  | Err e => Some (w, found, Err (MainTransport e))
  | Ok t =>
      '(w, db, r) ← open_with_transport show_http show_chat show_account show_registry ws mls_provider budget
                      answer io now now_ms (file_config cli) t account_key installation_key w found;
      Some (w, db, map_err MainClient r)
  end.
End main.
