(* ===== verification/Evidence.v ===== *)
(** * What conversations leave behind

    Two promises every conversation kind makes beyond [ConvoLaws], and the
    core lifts to all its operations: the causal history only ever moves by
    sends and receives, and content is only reported under a signer the auth
    service vouches for. *)

From Stdlib Require Import Strings.Byte Strings.String.
From stdpp Require Import base gmap strings numbers list.
From S2P Require Import Prelude Utf8 Hex Ed25519 Identity CausalHistory CausalTheorems Storage.
From S2P Require Import Delivery Services MlsUtils GroupV1 GroupV3 GroupV2 Convo Core.

(** ** Histories that only send and receive *)

Definition quiet (o : op) : Prop :=
  match o with Send _ _ _ => True | Receive _ _ => op_ok o | TakeMissing | TakeAcks => False end.

Definition grows {B : Blake2b} {HX : Hex} (i i' : Inner) : Prop :=
  ∃ ops, Forall quiet ops ∧ i' = (run i ops).1.

Section grows.
Context {B : Blake2b} {HX : Hex} {DS RS CS P WS : Type}.

#[export] Instance grows_refl : Reflexive grows.
Proof. intros i. by exists []. Qed.
#[export] Instance grows_trans : Transitive grows.
Proof.
  intros i j k (o1 & H1 & ->) (o2 & H2 & ->). exists (o1 ++ o2). rewrite run_app.
  split; [by apply Forall_app|done].
Qed.

Lemma grows_send i c s content : grows i (on_send i c s content).1.
Proof.
  exists [Send c s content]. split; [by repeat constructor|]. unfold run, exec.
  by destruct (on_send i c s content).
Qed.
Lemma grows_receive i c p :
  (i32_MIN ≤ p_lamport_timestamp p ≤ i32_MAX)%Z → grows i (on_receive i c p).1.
Proof.
  intros Hp. exists [Receive c p]. split; [by apply Forall_singleton|]. unfold run, exec.
  by destruct (on_receive i c p).
Qed.

(** The history of a context, of a context with an object, and of a core. *)
Definition cx_grew (cx cx' : ServiceContext DS RS CS P WS) : Prop :=
  grows (cx_causal cx) (cx_causal cx').
Definition obj_grew {O} (s s' : ServiceContext DS RS CS P WS * O) : Prop := cx_grew s.1 s'.1.

#[export] Instance cx_grew_refl : Reflexive cx_grew.
Proof. intros cx. unfold cx_grew. reflexivity. Qed.
#[export] Instance cx_grew_trans : Transitive cx_grew.
Proof. intros a b c. unfold cx_grew. apply grows_trans. Qed.
#[export] Instance obj_grew_refl {O} : Reflexive (obj_grew (O := O)).
Proof. intros s. unfold obj_grew. reflexivity. Qed.
#[export] Instance obj_grew_trans {O} : Transitive (obj_grew (O := O)).
Proof. intros a b c. unfold obj_grew. apply cx_grew_trans. Qed.
End grows.

(** A lifted result that is then used: what it was is known. *)
Lemma keeps_lift_bind {S X Y} (I : S → S → Prop) `{!Reflexive I} (r : result ChatError.t X)
    (f : X → St S Y) :
  (∀ x, r = Ok x → keeps I (f x)) → keeps I (lift r ≫= f).
Proof.
  intros Hf s. unfold mbind, st_bind, lift. destruct r as [x|e]; cbn; [by apply Hf|reflexivity].
Qed.

(** A call that does not touch the history. *)
Lemma keeps_same {DS RS CS P WS O X} {B : Blake2b} {HX : Hex}
    (m : St (ServiceContext DS RS CS P WS * O) X) :
  (∀ s, cx_causal (m s).1.1 = cx_causal s.1) → keeps obj_grew m.
Proof. intros Hm s. unfold obj_grew, cx_grew. rewrite Hm. reflexivity. Qed.

(** ** Content *)

(** Reported under a signer the auth service vouches for. *)
Definition content_vouched {E} {A : AuthService E} (o : Observation) : Prop :=
  match o with
  | ObsContent ct =>
      vouched (signer (auth_inner (ct_sender ct))) (participant_id (auth_inner (ct_sender ct)))
  | SignersChanged => True
  end.

Class ConvoEvidence (DS RS CS P WS O : Type) {CO : Convo DS RS CS P WS O} {B : Blake2b} {HX : Hex}
    {E : Type} {A : AuthService E} := {
  ev_send content : keeps obj_grew (obj_send_content content);
  ev_handle payload : keeps obj_grew (obj_handle_payload payload);
  ev_wakeup : keeps obj_grew obj_wakeup;
  ev_add l : keeps obj_grew (obj_add_signer l);
  ev_remove l : keeps obj_grew (obj_remove_signer l);
  ev_handle_content payload s s' out :
    obj_handle_payload payload s = (s', Ok out) → Forall content_vouched (observations out);
  ev_wakeup_content s s' out :
    obj_wakeup s = (s', Ok out) → Forall content_vouched (observations out);
}.

Class FactoryEvidence (DS RS CS P WS O R : Type) {CF : ConvoFactory DS RS CS P WS O R}
    {B : Blake2b} {HX : Hex} := {
  ev_direct l : keeps cx_grew (make_direct l);
  ev_v1 : keeps cx_grew make_v1;
  ev_v2 rnd n d l : keeps cx_grew (make_v2 rnd n d l);
  ev_v3 n d l : keeps cx_grew (make_v3 n d l);
  ev_loaded id gid : keeps cx_grew (make_loaded id gid);
  ev_inbox rnd payload : keeps cx_grew (inbox_frame rnd payload);
}.

(** ** The kinds *)

Section kinds.
Context {HX : Hex} {B : Blake2b} {PB : Prost} {PL : ProstLaws PB} {PB2 : ProstV2} {TC : TlsCodec}.
Context {P G K : Type} {ML : OpenMls P G} {DM : DeMls P K}.
Context {DS : Type} {DSI : DeliveryService DS} {RS : Type} {RSI : RegistrationService RS}.
Context {CS : Type} {CSI : ConversationStore CS} {WS : Type} {WSI : WakeupService WS}.
Context {E : Type} {A : AuthService E}.

Abbreviation CX := (ServiceContext DS RS CS P WS).
Abbreviation V1 := (CX * GroupV1Convo G)%type.
Abbreviation V2 := (CX * GroupV2Convo K)%type.
Abbreviation V3 := (CX * GroupV3Convo G)%type.

(** Recording a send, then going on. *)
Lemma send_then_grew {O X} (f : CX → O → string * SignerKey * list byte)
    (g : ReliablePayload → St (CX * O) X) :
  (∀ r, keeps obj_grew (g r)) →
  keeps obj_grew ('(cx, c) ← get;
    let '(id, who, content) := f cx c in
    let '(i, reliable) := on_send (cx_causal cx) id who content in
    _ ← modify (λ '(cx, c), (set_causal i cx, c)); g reliable).
Proof.
  intros Hg [cx c]. unfold mbind, st_bind, get, modify. cbv beta iota.
  destruct (f cx c) as [[id who] content]. pose proof (grows_send (cx_causal cx) id who content) as H.
  destruct (on_send (cx_causal cx) id who content) as [i r]. cbn [fst] in H.
  trans (set_causal i cx, c); [exact H|]. apply Hg.
Qed.

Lemma modify_receive_grew {O} (id : O → string) bytes r :
  reliable_decode bytes = Ok r →
  keeps obj_grew (modify (λ '(cx, c), (set_causal (on_receive (cx_causal cx) (id c) r).1 cx, c))
                  : St (CX * O) ()).
Proof. intros Hr [cx c]. unfold modify. apply grows_receive. by eapply reliable_range. Qed.

Lemma v1_on_group_grew {X} (f : P → Ident → G → P * G * result ChatError.t X) :
  keeps obj_grew (on_group f : St V1 X).
Proof. apply keeps_same. intros [cx c]. unfold on_group, step. by destruct (f _ _ _) as [[]]. Qed.
Lemma v1_send_payload_grew bytes : keeps obj_grew (v1_send_payload bytes : St V1 ()).
Proof. apply keeps_same. intros [cx c]. unfold v1_send_payload, step. by destruct (ds_publish _ _). Qed.
Lemma v2_on_grew {X} (f : P → Ident → K → P * K * result ChatError.t X) :
  keeps obj_grew (v2_on f : St V2 X).
Proof. apply keeps_same. intros [cx c]. unfold v2_on, step. by destruct (f _ _ _) as [[]]. Qed.

Ltac grew_with tac := solve_keeps ltac:(first
  [ apply v1_on_group_grew | apply v1_send_payload_grew | apply v2_on_grew | tac
  | apply keeps_lift_bind; [exact _|intros ? ?] ]).
Ltac grew := grew_with ltac:(idtac; fail).
Ltac grew_receive id := grew_with ltac:(
  eapply (modify_receive_grew id); eapply map_err_Ok; eassumption).

Lemma v1_send_grew content : keeps obj_grew (v1_send_content content : St V1 string).
Proof.
  unfold v1_send_content.
  apply (send_then_grew (λ cx c, (v1_convo_id c, id_signer_key (cx_identity cx), content))).
  intros r. grew.
Qed.

Lemma v1_handle_grew payload : keeps obj_grew (v1_handle_payload payload : St V1 _).
Proof.
  unfold v1_handle_payload, v1_process. grew_receive (v1_convo_id (G := G)).
Qed.

Lemma v1_add_grew l : keeps obj_grew (v1_add_signer l : St V1 ()).
Proof.
  unfold v1_add_signer. grew. apply keeps_same. intros [cx c]. unfold step.
  by destruct (invite_user _ _ _).
Qed.
Lemma v1_remove_grew l : keeps obj_grew (v1_remove_signer l : St V1 ()).
Proof. unfold v1_remove_signer. grew. Qed.

(** GroupV3 keeps no causal history. *)
Lemma v3_grew {X} (m : St V3 X) : keeps v3_kept m → keeps obj_grew m.
Proof. intros Hm. apply keeps_same. intros s. apply Hm. Qed.

(** GroupV2: only sends and received messages reach the history. *)
Lemma route_event_grew evt : keeps obj_grew (route_event evt : St V2 ()).
Proof.
  unfold route_event, route_joiner. grew; apply keeps_same; intros [cx c]; [done| |done].
  unfold invite_user_v2, step. by destruct (ds_publish _ _).
Qed.

Lemma after_op_grew : keeps obj_grew (after_op : St V2 _).
Proof.
  unfold after_op. grew; try apply route_event_grew; apply keeps_same; intros [cx c].
  - done.
  - unfold publish_outbound, step. by destruct (ds_publish _ _).
  - unfold modify. by case_match.
Qed.

Lemma outcome_grew events : keeps obj_grew (outcome_from_events events : St V2 _).
Proof. unfold outcome_from_events. grew_receive (v2_convo_id (K := K)). Qed.

Ltac grew2 := grew_with ltac:(first
  [ apply after_op_grew | apply outcome_grew | apply keeps_same; by intros [] ]).

Lemma v2_send_grew content : keeps obj_grew (v2_send_content content : St V2 string).
Proof.
  unfold v2_send_content.
  apply (send_then_grew (λ cx c, (v2_convo_id c, id_signer_key (cx_identity cx), content))).
  intros r. grew2.
Qed.
Lemma v2_handle_grew payload : keeps obj_grew (v2_handle_payload payload : St V2 _).
Proof. unfold v2_handle_payload, v2_poll. grew2. Qed.
Lemma v2_wakeup_grew : keeps obj_grew (v2_wakeup : St V2 _).
Proof. unfold v2_wakeup, v2_poll. grew2. Qed.

Lemma add_loop_grew existing l added : keeps obj_grew (add_loop existing l added : St V2 _).
Proof.
  revert added. induction l as [|m l IH]; intros added; cbn [add_loop];
    grew_with ltac:(first [ apply IH | apply keeps_same; by intros [] ]).
Qed.
Lemma remove_loop_grew l : keeps obj_grew (remove_loop l : St V2 _).
Proof. induction l as [|m l IH]; cbn [remove_loop]; grew_with ltac:(apply IH). Qed.
Lemma v2_flush_grew r : keeps obj_grew (v2_flush r : St V2 ()).
Proof.
  intros s. unfold v2_flush. pose proof (after_op_grew s). by destruct (after_op s).
Qed.
Lemma v2_add_grew l : keeps obj_grew (v2_add_signer l : St V2 ()).
Proof.
  unfold v2_add_signer, v2_poll. grew_with ltac:(first [ apply add_loop_grew | apply v2_flush_grew ]).
Qed.
Lemma v2_remove_grew l : keeps obj_grew (v2_remove_signer l : St V2 ()).
Proof.
  unfold v2_remove_signer. grew_with ltac:(first [ apply remove_loop_grew | apply v2_flush_grew ]).
Qed.

(** *** Who content comes from *)

Lemma content_from_vouched sender r ct :
  content_from sender r = Some ct → content_vouched (ObsContent ct).
Proof. intros (leaf & _ & Hv & ->)%content_from_Some. exact Hv. Qed.

Lemma option_content_vouched (o : option Content) :
  (∀ ct, o = Some ct → content_vouched (ObsContent ct)) →
  Forall content_vouched (map ObsContent (option_list o)).
Proof. intros Ho. destruct o; repeat constructor. by apply Ho. Qed.

Lemma v1_content_vouched payload (s s' : V1) out :
  v1_handle_payload payload s = (s', Ok out) → Forall content_vouched (observations out).
Proof.
  destruct s as [cx c].
  intros [_ [[_ ->]|(?&?&?&ct&?&?&?&?&?&?&Hp&->)]]%v1_handle_payload_Ok; [constructor|].
  apply option_content_vouched. intros ct' ->.
  apply v1_process_Ok in Hp as (?&?&?&_&Hc&_).
  destruct Hc as (?&?&?&?&?&?&?&?&Hv&->). exact Hv.
Qed.

Lemma outcome_vouched events (s s' : V2) out :
  outcome_from_events events s = (s', Ok out) → Forall content_vouched (observations out).
Proof.
  destruct s as [cx c]. unfold outcome_from_events.
  intros (s1 & [cx1 c1] & [= <- <- <-] & (s2 & ct & H & [= _ <-])%st_bind_Ok)%st_bind_Ok.
  apply Forall_app. split; [|by destruct (existsb _ _); repeat constructor].
  apply option_content_vouched. intros ct' ->.
  destruct (first_message events) as [[message sender]|]; [|done].
  apply st_bind_Ok in H as (s3 & r & _ & H). apply st_bind_Ok in H as (s4 & [] & _ & H).
  injection H as _ H. by eapply (content_from_vouched (Some sender) r).
Qed.

Lemma v2_content_vouched payload (s s' : V2) out :
  v2_handle_payload payload s = (s', Ok out) → Forall content_vouched (observations out).
Proof.
  unfold v2_handle_payload. intros (s1 & enc & _ & H)%st_bind_Ok.
  apply st_bind_Ok in H as (s2 & bytes & _ & H). apply st_bind_Ok in H as (s3 & [cx c] & _ & H).
  destruct (is_member c); cbn [negb] in H; [|injection H as _ <-; constructor].
  apply st_bind_Ok in H as (s4 & fr & _ & H).
  destruct (v2f_payload fr) as [[inner|?]|]; [|injection H as _ <-; constructor..].
  do 3 (apply st_bind_Ok in H as (? & ? & _ & H)). by apply outcome_vouched in H.
Qed.

Lemma v2_wakeup_vouched (s s' : V2) out :
  v2_wakeup s = (s', Ok out) → Forall content_vouched (observations out).
Proof.
  unfold v2_wakeup. intros H. do 2 (apply st_bind_Ok in H as (? & ? & _ & H)).
  by apply outcome_vouched in H.
Qed.

Lemma v3_content_vouched payload (s s' : V3) out :
  v3_handle_payload payload s = (s', Ok out) → Forall content_vouched (observations out).
Proof.
  unfold v3_handle_payload. intros H. do 3 (apply st_bind_Ok in H as (? & ? & _ & H)).
  revert H. unfold v3_protocol_msg. match goal with |- context [match ?s with (_, _) => _ end] =>
    destruct s as [cx c] end.
  case_match; [intros [= _ <-]; constructor|].
  destruct (mls_process _ _ _) as [[p g] [pm|e]]; [|case_match; [intros [= _ <-]; constructor|done]].
  destruct (pm_content pm) as [bytes|commit|]; [| |intros [= _ <-]; constructor].
  - unfold v3_application. intros (s1 & [cx1 c1] & _ & Hx)%st_bind_Ok.
    apply st_bind_Ok in Hx as (s2 & fr & _ & Hx).
    destruct (v3_payload fr) as [content|]; [|injection Hx as _ <-; constructor].
    injection Hx as _ <-. apply option_content_vouched. intros ct.
    intros (leaf & _ & (a & [-> Hv]%require_valid_Some & [= <-])%bind_Some)%bind_Some. exact Hv.
  - unfold v3_commit. intros (s1 & [cx1 c1] & _ & Hx)%st_bind_Ok. case_match; [|done].
    apply st_bind_Ok in Hx as (? & ? & _ & Hx). injection Hx as _ <-. by repeat constructor.
Qed.

(** *** All of them *)

Lemma any_dispatch_grew {X} (f1 : St V1 X) (f2 : St V2 X) (f3 : St V3 X) :
  keeps obj_grew f1 → keeps obj_grew f2 → keeps obj_grew f3 →
  keeps obj_grew (any_dispatch f1 f2 f3).
Proof.
  intros H1 H2 H3 [cx o]. destruct o as [c|[c]|c|c]; cbn [any_dispatch]; unfold zoom;
    cbn [inner_group].
  1,2: specialize (H1 (cx, c)); by destruct (f1 (cx, c)) as [[]].
  - specialize (H2 (cx, c)). by destruct (f2 (cx, c)) as [[]].
  - specialize (H3 (cx, c)). by destruct (f3 (cx, c)) as [[]].
Qed.

Lemma any_dispatch_Ok {X} (f1 : St V1 X) (f2 : St V2 X) (f3 : St V3 X) (Q : X → Prop) s s' x :
  (∀ t t' x, f1 t = (t', Ok x) → Q x) → (∀ t t' x, f2 t = (t', Ok x) → Q x) →
  (∀ t t' x, f3 t = (t', Ok x) → Q x) → any_dispatch f1 f2 f3 s = (s', Ok x) → Q x.
Proof.
  intros H1 H2 H3. destruct s as [cx o]. destruct o as [c|[c]|c|c]; cbn [any_dispatch]; unfold zoom;
    cbn [inner_group].
  1,2: destruct (f1 (cx, c)) as [[] r] eqn:Hf; intros [= _ ->]; by eapply H1.
  - destruct (f2 (cx, c)) as [[] r] eqn:Hf; intros [= _ ->]; by eapply H2.
  - destruct (f3 (cx, c)) as [[] r] eqn:Hf; intros [= _ ->]; by eapply H3.
Qed.

#[export] Instance any_convo_evidence : ConvoEvidence DS RS CS P WS (AnyConvo G K).
Proof.
  split.
  - intros l. apply any_dispatch_grew; [apply v1_send_grew|apply v2_send_grew|].
    apply v3_grew, v3_send_content_kept.
  - intros l. apply any_dispatch_grew; [apply v1_handle_grew|apply v2_handle_grew|].
    apply v3_grew, v3_handle_payload_kept.
  - apply any_dispatch_grew; [unfold v1_wakeup; grew|apply v2_wakeup_grew|unfold v3_wakeup; grew].
  - intros l. apply any_dispatch_grew; [apply v1_add_grew|apply v2_add_grew|].
    apply v3_grew, v3_add_signer_kept.
  - intros l. apply any_dispatch_grew; [apply v1_remove_grew|apply v2_remove_grew|].
    unfold v3_remove_signer. grew.
  - intros l s s' out. apply (any_dispatch_Ok _ _ _ (λ out, Forall content_vouched (observations out)));
      intros ???;
      [apply v1_content_vouched|apply v2_content_vouched|apply v3_content_vouched].
  - intros s s' out. apply (any_dispatch_Ok _ _ _ (λ out, Forall content_vouched (observations out)));
      intros ???; [|apply v2_wakeup_vouched|].
    + unfold v1_wakeup. intros (? & [] & _ & [= _ <-])%st_bind_Ok. constructor.
    + unfold v3_wakeup. intros (? & [] & _ & [= _ <-])%st_bind_Ok. constructor.
Qed.

(** *** The constructors *)

Lemma cx_same_grew {X} (m : St CX X) :
  (∀ cx, cx_causal (m cx).1 = cx_causal cx) → keeps cx_grew m.
Proof. intros Hm cx. unfold cx_grew. rewrite Hm. reflexivity. Qed.

Lemma subscribe_grew id : keeps cx_grew (v1_subscribe id : St CX ()).
Proof. apply cx_same_grew. intros cx. unfold v1_subscribe, step. by destruct (ds_subscribe _ _). Qed.
Lemma v3_init_grew id : keeps cx_grew (v3_init id : St CX ()).
Proof. apply cx_same_grew. intros cx. unfold v3_init, step. by destruct (ds_subscribe _ _). Qed.
Lemma join_grew w : keeps cx_grew (step (λ cx : CX,
  let '(p, r) := mls_join (cx_provider cx) w in (set_provider p cx, map_err ChatError.Generic r))).
Proof. apply cx_same_grew. intros cx. unfold step. by destruct (mls_join _ _). Qed.

Ltac made := solve_keeps ltac:(first
  [ apply subscribe_grew | apply v3_init_grew | apply join_grew | apply cx_same_grew; by intros ? ]).

Lemma v1_new_grew : keeps cx_grew (v1_new : St CX (GroupV1Convo G)).
Proof. unfold v1_new. made. Qed.
Lemma v1_from_welcome_grew w : keeps cx_grew (v1_from_welcome w : St CX (GroupV1Convo G)).
Proof. unfold v1_from_welcome. made. Qed.
Lemma v3_from_welcome_grew w : keeps cx_grew (v3_from_welcome w : St CX (GroupV3Convo G)).
Proof. unfold v3_from_welcome. made. Qed.
Lemma v1_load_grew id gid : keeps cx_grew (v1_load id gid : St CX (GroupV1Convo G)).
Proof. unfold v1_load. made. Qed.

Lemma direct_new_grew l : keeps cx_grew (direct_new l : St CX (GroupV1Convo G)).
Proof.
  intros cx. unfold direct_new. pose proof (v1_new_grew cx) as H.
  destruct (v1_new cx) as [cx1 [g|e]]; cbn [fst] in H; [|done].
  pose proof (v1_add_grew l (cx1, g)) as H2.
  destruct (v1_add_signer l (cx1, g)) as [[cx2 g2] [[]|e]]; (etrans; [exact H|exact H2]).
Qed.

Lemma v3_new_grew n d l : keeps cx_grew (v3_new n d l : St CX (GroupV3Convo G)).
Proof.
  intros cx. unfold v3_new. destruct (to_extension_bytes _); [|apply grows_refl].
  destruct (mls_new _ _ _) as [p [g|e]]; [|apply grows_refl]. cbv zeta.
  match goal with |- context [v3_init ?i ?cx0] => pose proof (v3_init_grew i cx0) as H;
    destruct (v3_init i cx0) as [cx1 [[]|e]] end; cbn [fst] in H; [|exact H].
  match goal with |- context [v3_add_signer l (cx1, ?c)] =>
    pose proof (v3_add_signer_kept l (cx1, c)) as (_ & _ & _ & _ & H2);
    destruct (v3_add_signer l (cx1, c)) as [[cx2 c2] [[]|e]] end;
    cbn in H2; unfold cx_grew; cbn [fst]; by rewrite H2.
Qed.

Lemma v2_start_grew c : keeps cx_grew (v2_start c : St CX (GroupV2Convo K)).
Proof.
  intros cx. unfold v2_start. match goal with |- context [?m (cx, ?c0)] =>
    assert (obj_grew (cx, c0) (m (cx, c0)).1) as H; [|destruct (m (cx, c0)) as [[cx' c'] [|]]] end;
    [|exact H..].
  match goal with |- obj_grew _ (?m _).1 => enough (keeps obj_grew m) as Hm by apply Hm end.
  solve_keeps ltac:(apply after_op_grew). apply keeps_same. intros [cx1 c1]. unfold v2_init, step.
  by destruct (ds_subscribe _ _).
Qed.

Lemma v2_new_grew id rnd n d l : keeps cx_grew (v2_new id rnd n d l : St CX (GroupV2Convo K)).
Proof.
  unfold v2_new. solve_keeps ltac:(apply v2_start_grew).
  apply cx_same_grew. intros cx. unfold step. by destruct (dm_create _ _ _ _ _ _).
Qed.
Lemma v2_from_welcome_grew rnd w : keeps cx_grew (v2_from_welcome rnd w : St CX (GroupV2Convo K)).
Proof.
  unfold v2_from_welcome. solve_keeps ltac:(apply v2_start_grew).
  apply cx_same_grew. intros cx. unfold step. by destruct (dm_join _ _ _ _ _).
Qed.

Lemma inbox_grew rnd payload :
  keeps cx_grew (inbox_handle_frame rnd payload : St CX (option (AnyConvo G K * _))).
Proof.
  unfold inbox_handle_frame, handle_heavy_invite. solve_keeps ltac:(first
    [ apply v1_from_welcome_grew | apply v2_from_welcome_grew | apply v3_from_welcome_grew ]).
  apply cx_same_grew. intros cx. unfold persist_convo, step. by destruct (cs_save _ _).
Qed.

#[export] Instance any_factory_evidence
  : FactoryEvidence DS RS CS P WS (AnyConvo G K) (list byte * Seed).
Proof.
  split.
  - intros l. apply st_map_keeps, direct_new_grew.
  - apply st_map_keeps, v1_new_grew.
  - intros rnd n d l. apply st_map_keeps, v2_new_grew.
  - intros n d l. apply st_map_keeps, v3_new_grew.
  - intros id gid. apply st_map_keeps, v1_load_grew.
  - intros rnd payload. apply inbox_grew.
Qed.
End kinds.

(** ** The core *)

Section core.
Context {HX : Hex} {B : Blake2b} {PB : Prost} {DS RS CS P WS O R : Type}.
Context {DSI : DeliveryService DS} {CSI : ConversationStore CS} {CO : Convo DS RS CS P WS O}.
Context {CF : ConvoFactory DS RS CS P WS O R} {E : Type} {A : AuthService E}.
Context {EV : ConvoEvidence DS RS CS P WS O} {FE : FactoryEvidence DS RS CS P WS O R}.
Context (show : E → string).

Abbreviation CX := (ServiceContext DS RS CS P WS).
Abbreviation KC := (Core DS RS CS P WS O).

Definition core_grew (k k' : KC) : Prop := cx_grew (services k) (services k').

#[export] Instance core_grew_refl : Reflexive core_grew.
Proof. intros k. unfold core_grew. reflexivity. Qed.
#[export] Instance core_grew_trans : Transitive core_grew.
Proof. intros a b c. unfold core_grew. apply cx_grew_trans. Qed.

Lemma on_services_grew {X} (m : St CX X) : keeps cx_grew m → keeps core_grew (on_services m).
Proof.
  intros Hm k. unfold on_services. specialize (Hm (services k)). by destruct (m (services k)).
Qed.
Lemma on_convo_grew {X} id (m : ConvoTypeOwned O → St (CX * O) X) :
  (∀ ct, keeps obj_grew (m ct)) → keeps core_grew (on_convo id m).
Proof.
  intros Hm k. unfold on_convo. destruct (cached_convos k !! id) as [ct|]; [|reflexivity].
  specialize (Hm ct (services k, convo_obj ct)). by destruct (m ct _) as [[]].
Qed.
Lemma on_loaded_grew {X} (load : St CX O) (m : St (CX * O) X) :
  keeps cx_grew load → keeps obj_grew m → keeps core_grew (on_loaded load m).
Proof.
  intros Hl Hm k. unfold on_loaded. specialize (Hl (services k)).
  destruct (load (services k)) as [cx [o|e]]; [|exact Hl]. cbn [fst] in Hl.
  specialize (Hm (cx, o)). destruct (m (cx, o)) as [[cx' o'] r].
  exact (cx_grew_trans _ _ _ Hl Hm).
Qed.
Lemma register_convo_grew ct : keeps core_grew (register_convo ct).
Proof. intros k. unfold register_convo. case_match; apply grows_refl. Qed.
Lemma load_convo_grew id : keeps cx_grew (load_convo id : St CX O).
Proof. unfold load_convo, load_mls_convo. solve_keeps ltac:(apply ev_loaded). Qed.

Ltac core_grows := solve_keeps ltac:(first
  [ apply register_convo_grew
  | apply on_services_grew; first [ apply ev_direct | apply ev_v1 | apply ev_v2 | apply ev_v3
      | apply ev_inbox | by intros ?; unfold step; destruct (cs_save _ _) ]
  | apply on_convo_grew; intros []; intros; first
      [ apply ev_add | apply ev_remove | apply ev_wakeup | apply ev_send | apply ev_handle
      | by intros [] ] ]).

Lemma create_direct_grew p : keeps core_grew (create_direct_convo show p).
Proof. unfold create_direct_convo, create_direct_convo_v1. core_grows. Qed.
Lemma create_group_v2_grew rnd ps n d : keeps core_grew (create_group_convo_v2 show rnd ps n d).
Proof. unfold create_group_convo_v2. core_grows. Qed.
Lemma group_add_grew id ps : keeps core_grew (group_add_participants show id ps).
Proof. unfold group_add_participants, group_add_signers. core_grows. Qed.
Lemma group_remove_grew id ps : keeps core_grew (group_remove_participants id ps).
Proof.
  intros k. unfold group_remove_participants. destruct (_ ≫= _); [|reflexivity].
  unfold group_remove_signers. revert k. core_grows.
Qed.
Lemma send_content_grew id content : keeps core_grew (send_content id content).
Proof.
  intros k. unfold send_content. destruct (cached_convos k !! id).
  - apply on_convo_grew. intros _. apply ev_send.
  - apply on_loaded_grew; [apply load_convo_grew|apply ev_send].
Qed.
Lemma dispatch_grew id payload : keeps core_grew (dispatch_to_convo id payload).
Proof.
  intros k. unfold dispatch_to_convo. destruct (cached_convos k !! id).
  - apply on_convo_grew. intros _. apply ev_handle.
  - apply on_loaded_grew; [apply load_convo_grew|apply ev_handle].
Qed.
Lemma handle_payload_grew rnd payload : keeps core_grew (handle_payload rnd payload).
Proof. unfold handle_payload, dispatch_to_inbox2. core_grows; apply dispatch_grew. Qed.
Lemma wakeup_grew id : keeps core_grew (wakeup id).
Proof.
  unfold wakeup. core_grows. intros k. unfold wakeup_convo.
  destruct (cached_convos k !! id); [|reflexivity]. apply on_convo_grew. intros _. apply ev_wakeup.
Qed.

(** What an outcome reports, and under which signers. *)
Definition outcome_observations (out : PayloadOutcome) : list Observation :=
  match out with
  | OutEmpty => []
  | OutConvo co => observations co
  | OutInbox io => flat_map observations (option_list (initial io))
  end.

Lemma on_convo_Ok {X} id (m : ConvoTypeOwned O → St (CX * O) X) k k' x :
  on_convo id m k = (k', Ok x) → ∃ ct s s', m ct s = (s', Ok x).
Proof.
  unfold on_convo. destruct (cached_convos k !! id) as [ct|]; [|done].
  destruct (m ct _) as [[cx o] r] eqn:Hm. intros [= _ ->]. eauto.
Qed.

Lemma dispatch_vouched id payload k k' out :
  dispatch_to_convo id payload k = (k', Ok out) → Forall content_vouched (observations out).
Proof.
  unfold dispatch_to_convo. destruct (cached_convos k !! id).
  - intros (ct & s & s' & H)%on_convo_Ok. by eapply ev_handle_content.
  - unfold on_loaded. destruct (load_convo id (services k)) as [cx [o|e]]; [|done].
    destruct (obj_handle_payload payload (cx, o)) as [[cx' o'] r] eqn:H. intros [= _ ->].
    by eapply ev_handle_content.
Qed.

Lemma handle_payload_vouched rnd payload k k' out :
  handle_payload rnd payload k = (k', Ok out) → Forall content_vouched (outcome_observations out).
Proof.
  unfold handle_payload. intros (k1 & env & _ & H)%st_bind_Ok.
  apply st_bind_Ok in H as (k2 & k3 & _ & H). case_decide.
  { unfold dispatch_to_inbox2 in H. apply st_bind_Ok in H as (k4 & [[o class]|] & _ & H).
    - apply st_bind_Ok in H as (k5 & [] & _ & [= _ <-]). constructor.
    - injection H as _ <-. constructor. }
  case_decide.
  { apply st_bind_Ok in H as (k4 & co & H & [= _ <-]). by apply dispatch_vouched in H. }
  apply st_bind_Ok in H as (k4 & known & _ & H). destruct known; [|by injection H as _ <-].
  apply st_bind_Ok in H as (k5 & co & H & [= _ <-]). by apply dispatch_vouched in H.
Qed.

Lemma wakeup_vouched id k k' out :
  wakeup id k = (k', Ok out) → Forall content_vouched (outcome_observations out).
Proof.
  unfold wakeup. intros (k1 & k2 & _ & H)%st_bind_Ok. case_decide; [done|].
  case_decide; [|injection H as _ <-; constructor].
  apply st_bind_Ok in H as (k3 & co & H & [= _ <-]). unfold wakeup_convo in H.
  destruct (cached_convos k1 !! id); [|done].
  apply on_convo_Ok in H as (ct & s & s' & H). by eapply ev_wakeup_content.
Qed.
End core.
