(* ===== verification/Reference.v ===== *)
(** * Reference instances

    Small executable instances of the third-party interfaces of the
    conversation core: protobuf, TLS vectors, OpenMLS, and services over
    them. They show that the interfaces' laws can hold and let the model be
    run on concrete inputs. No theorem about the program depends on them. *)

From Stdlib Require Import Strings.Byte Strings.String.
From stdpp Require Import base gmap strings numbers list.
From S2P Require Import Prelude Utf8 Hex Ed25519 Identity CausalHistory Storage Delivery Services.
From S2P Require Import MlsUtils GroupV1 GroupV3 GroupV2.

(** ** A codec for every countable type *)

Fixpoint pos_bytes (p : positive) : list byte :=
  match p with xH => [] | xO p => x00 :: pos_bytes p | xI p => x01 :: pos_bytes p end.
Fixpoint bytes_pos (b : list byte) : positive :=
  match b with
  | [] => xH
  | x :: b => if Byte.eqb x x00 then xO (bytes_pos b) else xI (bytes_pos b)
  end.

Lemma bytes_pos_bytes p : bytes_pos (pos_bytes p) = p.
Proof. induction p; cbn; congruence. Qed.

Definition write {A} `{Countable A} (a : A) : list byte := pos_bytes (encode a).
Definition read {A} `{Countable A} (b : list byte) : result string A :=
  ok_or (decode (bytes_pos b)) "malformed"%string.

Lemma read_write {A} `{Countable A} (a : A) : read (write a) = Ok a.
Proof. unfold read, write. by rewrite bytes_pos_bytes, decode_encode. Qed.

#[local] Instance history_entry_eq_dec : EqDecision HistoryEntry.
Proof. solve_decision. Defined.
#[local, refine] Instance history_entry_countable : Countable HistoryEntry :=
  inj_countable' (λ h, (h_message_id h, h_sender_id h, h_retrieval_hint h))
    (λ '(a, b, c), {| h_message_id := a; h_sender_id := b; h_retrieval_hint := c |}) _.
Proof. by intros []. Defined.
#[local] Instance reliable_eq_dec : EqDecision ReliablePayload.
Proof. solve_decision. Defined.
#[local, refine] Instance reliable_countable : Countable ReliablePayload :=
  inj_countable' (λ r, (p_message_id r, p_sender_id r, p_channel_id r, p_lamport_timestamp r,
      p_causal_history r, p_bloom_filter r, p_content r))
    (λ '(a, b, c, d, e, f, g), {| p_message_id := a; p_sender_id := b; p_channel_id := c;
      p_lamport_timestamp := d; p_causal_history := e; p_bloom_filter := f; p_content := g |}) _.
Proof. by intros []. Defined.
#[local] Instance envelope_eq_dec : EqDecision EnvelopeV1.
Proof. solve_decision. Defined.
#[local, refine] Instance envelope_countable : Countable EnvelopeV1 :=
  inj_countable' (λ e, (conversation_hint e, salt e, ev_payload e))
    (λ '(a, b, c), {| conversation_hint := a; salt := b; ev_payload := c |}) _.
Proof. by intros []. Defined.
#[local] Instance encryption_eq_dec : EqDecision Encryption.
Proof. solve_decision. Defined.
#[local, refine] Instance encryption_countable : Countable Encryption :=
  inj_countable' (λ e, match e with Plaintext b => inl b | OtherEncryption b => inr b end)
    (λ s, match s with inl b => Plaintext b | inr b => OtherEncryption b end) _.
Proof. by intros []. Defined.
#[local] Instance encrypted_eq_dec : EqDecision EncryptedPayload.
Proof. solve_decision. Defined.
#[local, refine] Instance encrypted_countable : Countable EncryptedPayload :=
  inj_countable' encryption (λ e, {| encryption := e |}) _.
Proof. by intros []. Defined.
#[local] Instance heavy_invite_eq_dec : EqDecision GroupV1HeavyInvite.
Proof. solve_decision. Defined.
#[local] Instance invite_eq_dec : EqDecision InviteType.
Proof. solve_decision. Defined.
#[local, refine] Instance invite_countable : Countable InviteType :=
  inj_countable' (λ i, match i with
      | InviteGroupV1 v => inl (welcome_bytes v) | InviteGroupV2 b => inr (inl b)
      | InviteGroupV3 b => inr (inr b) end)
    (λ s, match s with
      | inl b => InviteGroupV1 {| welcome_bytes := b |} | inr (inl b) => InviteGroupV2 b
      | inr (inr b) => InviteGroupV3 b end) _.
Proof. by intros [[]| |]. Defined.
#[local] Instance inbox_frame_eq_dec : EqDecision InboxV2Frame.
Proof. solve_decision. Defined.
#[local, refine] Instance inbox_frame_countable : Countable InboxV2Frame :=
  inj_countable' if_payload (λ p, {| if_payload := p |}) _.
Proof. by intros []. Defined.
#[local] Instance v3_frame_eq_dec : EqDecision GroupV3Frame.
Proof. solve_decision. Defined.
#[local, refine] Instance v3_frame_countable : Countable GroupV3Frame :=
  inj_countable' v3_payload (λ p, {| v3_payload := p |}) _.
Proof. by intros []. Defined.
#[local] Instance v3_payload_eq_dec : EqDecision GroupV3Payload.
Proof. solve_decision. Defined.
#[local, refine] Instance v3_payload_countable : Countable GroupV3Payload :=
  inj_countable' (λ p, (encrypted_header p, encrypted_frame p))
    (λ '(a, b), {| encrypted_header := a; encrypted_frame := b |}) _.
Proof. by intros []. Defined.

Definition prost_ref : Prost := {|
  envelope_encode := write; envelope_decode := read;
  encrypted_encode := write; encrypted_decode := read;
  reliable_encode := write;
  reliable_decode b :=
    r ← read b;
    if decide (i32_MIN ≤ p_lamport_timestamp r ≤ i32_MAX)%Z then Ok r else Err "int32"%string;
  inbox_encode := write; inbox_decode := read;
  v3_frame_encode := write; v3_frame_decode := read;
  v3_payload_encode := write; v3_payload_decode := read;
|}.

Lemma prost_ref_laws : ProstLaws prost_ref.
Proof.
  split; try (intros; apply read_write); cbn [reliable_decode reliable_encode prost_ref].
  - intros r Hr. rewrite read_write. cbn [mbind result_bind]. by rewrite decide_True.
  - intros b r (r' & _ & H)%bind_Ok. case_decide; [|done]. by injection H as <-.
Qed.

(** Vectors prefixed by their length in unary. *)
Fixpoint unary_prefix (b : list byte) : option (nat * list byte) :=
  match b with
  | [] => None
  | x :: b => if Byte.eqb x x01 then '(n, rest) ← unary_prefix b; Some (S n, rest) else Some (0, b)
  end.

Definition tls_ref : TlsCodec := {|
  vl_write b := if (N.of_nat (length b) <? TLS_VEC_LIMIT)%N
                then Ok (replicate (length b) x01 ++ x00 :: b) else Err "too long"%string;
  vl_read b := match unary_prefix b with
               | Some (n, b) => if length b <? n then Err "end of stream"%string
                                else Ok (take n b, drop n b)
               | None => Err "end of stream"%string
               end;
  tls_end_of_stream := "end of stream";
|}.

Lemma tls_ref_laws : TlsCodecLaws tls_ref.
Proof.
  split; intros b Hb; cbn [vl_read vl_write tls_ref].
  2: { rewrite (proj2 (N.ltb_ge _ _)); [by eexists|]. unfold vl_fits in Hb. lia. }
  rewrite (proj2 (N.ltb_lt _ _)) by done. eexists. split; [done|]. intros rest.
  assert (∀ n l, unary_prefix (replicate n x01 ++ x00 :: l) = Some (n, l)) as Hu.
  { induction n as [|n IH]; intros l; [done|]. cbn [replicate app unary_prefix].
    change (Byte.eqb x01 x01) with true. by rewrite IH. }
  rewrite <- app_assoc. cbn [app]. rewrite Hu, length_app.
  destruct (Nat.ltb_spec (length b + length rest) (length b)); [lia|].
  by rewrite take_app_length, drop_app_length.
Qed.

(** ** A group library without cryptography *)

Record ToyKeyPackage := { tk_key : list byte; tk_cred : list byte; tk_init : list byte }.

#[export] Instance toy_kp_eq_dec : EqDecision ToyKeyPackage.
Proof. solve_decision. Defined.
#[export, refine] Instance toy_kp_countable : Countable ToyKeyPackage :=
  inj_countable' (λ k, (tk_key k, tk_cred k, tk_init k))
    (λ '(a, b, c), {| tk_key := a; tk_cred := b; tk_init := c |}) _.
Proof. by intros []. Defined.
#[export] Instance member_eq_dec : EqDecision Member.
Proof. solve_decision. Defined.
#[export, refine] Instance member_countable : Countable Member :=
  inj_countable' (λ m, (m_index m, m_signature_key m, m_credential m))
    (λ '(a, b, c), {| m_index := a; m_signature_key := b; m_credential := c |}) _.
Proof. by intros []. Defined.

Record ToyGroup := {
  tg_id : list byte; tg_epoch : N; tg_members : list Member; tg_own : N;
  tg_exts : list (N * list byte); tg_pending : option (list Member);
}.

(** A message: its epoch, its sender's leaf, and a text, a commit to a new
    roster, or a welcome to it. *)
Abbreviation ToyMessage := (N * N * (list byte + (list Member + list Member)))%type.

Definition toy_member (index : N) (i : Ident) : Member :=
  {| m_index := index; m_signature_key := signer_bytes (id_signer_key i);
     m_credential := participant_bytes (id_participant i) |}.

Definition toy_with (g : ToyGroup) (epoch : N) (members : list Member) : ToyGroup :=
  {| tg_id := tg_id g; tg_epoch := epoch; tg_members := members; tg_own := tg_own g;
     tg_exts := tg_exts g; tg_pending := None |}.
Definition toy_stage (g : ToyGroup) (pending : option (list Member)) : ToyGroup :=
  {| tg_id := tg_id g; tg_epoch := tg_epoch g; tg_members := tg_members g; tg_own := tg_own g;
     tg_exts := tg_exts g; tg_pending := pending |}.
Definition toy_roster (g : ToyGroup) (kps : list ToyKeyPackage) : list Member :=
  tg_members g ++ imap (λ i k, {| m_index := (N.of_nat (length (tg_members g)) + N.of_nat i)%N;
    m_signature_key := tk_key k; m_credential := tk_cred k |}) kps.

Definition mls_ref : OpenMls () ToyGroup := {|
  KeyPackageIn := ToyKeyPackage; KeyPackage := ToyKeyPackage; MlsMessageIn := ToyMessage;
  MlsMessageOut := ToyMessage; ProtocolMessage := ToyMessage; StagedCommit := list Member;
  Welcome := list Member;
  mls_new p i meta := (p, Ok {| tg_id := [x0a; x0b]; tg_epoch := 0; tg_members := [toy_member 0 i];
    tg_own := 0; tg_exts := match meta with
      | Some b => [(GROUP_METADATA_EXTENSION_TYPE, b)] | None => [] end; tg_pending := None |});
  mls_join p w := (p, Ok {| tg_id := [x0a; x0b]; tg_epoch := 1; tg_members := w;
    tg_own := N.of_nat (length w) - 1; tg_exts := []; tg_pending := None |});
  mls_load p id := Ok None;
  mls_group_id := tg_id;
  mls_epoch := tg_epoch;
  mls_is_active g := existsb (λ m, (m_index m =? tg_own g)%N) (tg_members g);
  mls_members := tg_members;
  mls_member_at g i := head (filter (λ m, m_index m = i) (tg_members g));
  mls_member_participant m := Ok (Participant (m_credential m));
  mls_own_leaf := tg_own;
  mls_extensions := tg_exts;
  mls_create_message p i g text := (p, g, Ok (tg_epoch g, tg_own g, inl text));
  mls_process p g m :=
    (p, g, if (m.1.2 =? tg_own g)%N
           then Err {| pe_own_message := true; pe_text := "own message" |}
           else Ok {| pm_sender := Some m.1.2;
                      pm_content := match m.2 with
                                    | inl text => ApplicationMessage text
                                    | inr (inl roster) => StagedCommitMessage roster
                                    | inr (inr _) => OtherContent
                                    end |});
  mls_merge_staged p g roster := (p, toy_with g (tg_epoch g + 1) roster, Ok ());
  mls_epoch_authenticator roster := Some [];
  mls_add_members p i g kps :=
    let roster := toy_roster g kps in
    (p, toy_stage g (Some roster),
     Ok ((tg_epoch g, tg_own g, inr (inl roster)), (tg_epoch g, tg_own g, inr (inr roster))));
  mls_remove_members p i g leaves :=
    let roster := filter (λ m, m_index m ∉ leaves) (tg_members g) in
    (p, toy_stage g (Some roster), Ok (tg_epoch g, tg_own g, inr (inl roster)));
  mls_merge_pending p g :=
    match tg_pending g with
    | Some roster => (p, toy_with g (tg_epoch g + 1) roster, Ok ())
    | None => (p, g, Err "nothing pending"%string)
    end;
  mls_clear_pending p g := (p, toy_stage g None, Ok ());
  mls_to_bytes m := Ok (write m);
  mls_from_bytes_exact := read;
  mls_from_bytes := read;
  mls_into_protocol m := Ok m;
  mls_extract_welcome m := match m.2 with inr (inr w) => Some w | _ => None end;
  mls_message_epoch m := m.1.1;
  kp_build p i := (p, Ok {| tk_key := signer_bytes (id_signer_key i);
    tk_cred := participant_bytes (id_participant i); tk_init := replicate 1216 x00 |});
  kp_serialize k := Ok (write k);
  kp_deserialize := read;
  kp_deserialize_exact := read;
  kp_validate k := Ok k;
  kp_init_key := tk_init;
  kp_signature_key := tk_key;
  kp_credential := tk_cred;
  kp_participant k := Ok (Participant (tk_cred k));
|}.

(** ** Services *)

(** Everyone is who they say. *)
Definition auth_ref : AuthService string := {|
  validate_signer _ _ := Ok AuthResult.Valid;
  signers_for_participant p := Ok [Signer_key (participant_bytes p)];
|}.

(** A transport that keeps what it is given, and one that is down. *)
Definition outbox : DeliveryService (list AddressedEnvelope) := {|
  ds_publish d e := (d ++ [e], Ok ()); ds_subscribe d _ := (d, Ok ()) |}.
Definition down : DeliveryService () := {|
  ds_publish d _ := (d, Err "down"%string); ds_subscribe d _ := (d, Ok ()) |}.

Definition registry_ref : RegistrationService (gmap string (list byte)) := {|
  rs_register r i b := (<[signer_to_string (HX := hex_ref) (id_signer_key i) := b]> r, Ok ());
  rs_retrieve r d := Ok (r !! d) |}.

Definition blake_toy : Blake2b := {| blake2b n l := take n (l ++ replicate n x00) |}.

Definition ident_a : Ident := {| id_signer_key := Signer_key [x61]; id_participant := Participant [x41] |}.
Definition ident_b : Ident := {| id_signer_key := Signer_key [x62]; id_participant := Participant [x42] |}.

Definition context_of {DS : Type} (i : Ident) (ds : DS)
  : ServiceContext DS (gmap string (list byte)) MemStore () () :=
  {| cx_ds := ds; cx_registry := ∅; cx_store := memstore_new; cx_identity := i;
     cx_provider := (); cx_causal := store_new; cx_wakeup := () |}.

(** A and B seated in one group. *)
Definition group_ab (own : N) : ToyGroup :=
  {| tg_id := [x0a; x0b]; tg_epoch := 1; tg_members := [toy_member 0 ident_a; toy_member 1 ident_b];
     tg_own := own; tg_exts := []; tg_pending := None |}.
Definition convo_ab (own : N) : GroupV1Convo ToyGroup :=
  {| v1_group := group_ab own; v1_convo_id := "0a0b"; v1_outbound := [] |}.

(** ** A consensus library that agrees at once *)

Record ToyConsensus := {
  td_id : string; td_members : list Member; td_own : N;
  td_events : list ConversationEvent; td_outbound : list Outbound;
}.

Definition td_update (k : ToyConsensus) (members : list Member) (events : list ConversationEvent)
    (out : list Outbound) : ToyConsensus :=
  {| td_id := td_id k; td_members := members; td_own := td_own k;
     td_events := td_events k ++ events; td_outbound := td_outbound k ++ out |}.

Definition toy_add (k : ToyConsensus) (kp : ToyKeyPackage) : ToyConsensus :=
  let m := {| m_index := N.of_nat (length (td_members k)); m_signature_key := tk_key kp;
              m_credential := tk_cred kp |} in
  td_update k (td_members k ++ [m])
    [WelcomeReady {| mw_welcome_bytes := write (td_members k ++ [m]); mw_sync_bytes := [];
                     mw_joiners := [tk_key kp] |}; MembersChanged [m] []] [].

Definition demls_ref : DeMls () ToyConsensus := {|
  Seed := ();
  dm_create p i id ext _ kps :=
    (p, Ok (fold_left (λ k b, match read b with Ok kp => toy_add k kp | Err _ => k end) kps
      {| td_id := id; td_members := [toy_member 0 i]; td_own := 0; td_events := [];
         td_outbound := [] |}));
  dm_join p i welcome sync _ :=
    (p, members ← read welcome;
        Ok (Some {| td_id := "0c"; td_members := members; td_own := N.of_nat (length members) - 1;
                    td_events := []; td_outbound := [] |}));
  dm_id := td_id;
  dm_members := td_members;
  dm_member_id m := be_u32 (m_index m);
  dm_own_member_id k := be_u32 (td_own k);
  dm_process p i k sender inner :=
    (p, match head (filter (λ m, m_signature_key m = sender) (td_members k)) with
        | Some m => td_update k (td_members k) [ConversationMessage (Some inner) m] []
        | None => k
        end, Ok ());
  dm_poll p i k := (p, k);
  dm_add_member p i k b :=
    match read b with
    | Ok kp => if existsb (λ m, bool_decide (m_signature_key m = tk_key kp)) (td_members k)
               then (p, k, Err AlreadyMember) else (p, toy_add k kp, Ok ())
    | Err e => (p, k, Err (OtherError e))
    end;
  dm_remove_member p i k id :=
    (p, td_update k (filter (λ m, be_u32 (m_index m) ≠ id) (td_members k)) [MembersChanged [] [id]] [],
     Ok ());
  dm_send_message p i k bytes :=
    (p, td_update k (td_members k) []
       [{| ob_payload := bytes; ob_sender := signer_bytes (id_signer_key i);
           ob_conversation_id := td_id k |}], Ok ());
  dm_drain_events k :=
    ({| td_id := td_id k; td_members := td_members k; td_own := td_own k; td_events := [];
        td_outbound := td_outbound k |}, td_events k);
  dm_drain_outbound k :=
    ({| td_id := td_id k; td_members := td_members k; td_own := td_own k;
        td_events := td_events k; td_outbound := [] |}, td_outbound k);
  dm_next_wakeup p k := Some 10%N;
  dm_extensions k := [];
  dm_error_text e := match e with
                     | AlreadyMember => "already a member" | MemberGone => "member gone"
                     | OtherError e => e
                     end%string;
|}.

#[local] Instance v2_payload_eq_dec : EqDecision GroupV2Payload.
Proof. solve_decision. Defined.
#[local, refine] Instance v2_payload_countable : Countable GroupV2Payload :=
  inj_countable' (λ p, match p with DeMlsWrapper b => inl b | MlsCommitMessage b => inr b end)
    (λ s, match s with inl b => DeMlsWrapper b | inr b => MlsCommitMessage b end) _.
Proof. by intros []. Defined.
#[local] Instance v2_frame_eq_dec : EqDecision GroupV2Frame.
Proof. solve_decision. Defined.
#[local, refine] Instance v2_frame_countable : Countable GroupV2Frame :=
  inj_countable' (λ f, (v2f_payload f, v2f_sender_app_id f))
    (λ '(a, b), {| v2f_payload := a; v2f_sender_app_id := b |}) _.
Proof. by intros []. Defined.
#[local] Instance welcome_eq_dec : EqDecision MemberWelcome.
Proof. solve_decision. Defined.
#[local, refine] Instance welcome_countable : Countable MemberWelcome :=
  inj_countable' (λ w, (mw_welcome_bytes w, mw_sync_bytes w, mw_joiners w))
    (λ '(a, b, c), {| mw_welcome_bytes := a; mw_sync_bytes := b; mw_joiners := c |}) _.
Proof. by intros []. Defined.

Definition prost_v2_ref : ProstV2 := {|
  v2_frame_encode := write; v2_frame_decode := read;
  welcome_encode := write; welcome_decode := read;
|}.

Definition wakeup_ref : WakeupService () := {| wakeup_in w _ _ := w |}.

Definition v2_ab (own : N) : GroupV2Convo ToyConsensus :=
  {| v2_convo_id := "0c";
     v2_conversation := {| td_id := "0c"; td_own := own; td_events := []; td_outbound := [];
       td_members := [toy_member 0 ident_a; toy_member 1 ident_b] |};
     v2_pending_invites := ∅; v2_member_directory := ∅ |}.
