(* ===== verification/MlsConfig.v ===== *)
(** * How groups are set up ([conversation/mls_groups.rs], [group_v1.rs],
      [group_v2.rs], [mls_extensions.rs], [inbox_v2.rs], [inbox_v2/mls_provider.rs])

    The configurations the conversations hand to OpenMLS: for a group that is
    created, for one that is joined, and for the key package a client
    publishes. OpenMLS supplies the types, the defaults and the builders,
    which replace one field each; [MlsDefaults] is that interface. The
    theorems: a group's metadata reads back as given and everyone supports the
    extension it travels in, and who reads messages out of order and who can
    invite depends on whether a member created or joined. *)

From Stdlib Require Import Strings.Byte Strings.String.
From stdpp Require Import base gmap strings numbers list pretty.
From S2P Require Import Prelude Utf8 Hex Ed25519 Context Addr Identity Storage Installation.
From S2P Require Import Text CausalHistory Delivery Services MlsIdentity MlsUtils GroupV1 GroupV3 Reference.

(** ** The interface of OpenMLS *)

Inductive HpkeKemType : Type := XWingKemDraft6 | OtherKem.

(** [ExtensionType]: the ones named, and the rest. *)
Inductive ExtensionType : Type :=
| ApplicationId
| LastResort
| UnknownExtension (ty : N)
| OtherExtension (ty : N).
#[export] Instance extension_type_eq_dec : EqDecision ExtensionType.
Proof. solve_decision. Defined.

(** [SenderRatchetConfiguration]. *)
Record SenderRatchet := { out_of_order_tolerance : N; maximum_forward_distance : N }.

Class MlsDefaults := {
  Ciphersuite : Type;
  XWING_SUITE : Ciphersuite; (* MLS_256_XWING_CHACHA20POLY1305_SHA256_Ed25519 *)
  hpke_kem_algorithm : Ciphersuite → HpkeKemType;
  (** The other fields of capabilities and configurations. *)
  CapabilitiesRest : Type;
  default_ciphersuites : list Ciphersuite;
  default_capabilities_rest : CapabilitiesRest;
  ConfigRest : Type;
  default_config_rest : ConfigRest;
  default_suite : Ciphersuite;
  default_extensions : list ExtensionType;
  default_ratchet : SenderRatchet;
  (** [Extensions::from_vec]. *)
  extensions_from_vec : list (ExtensionType * list byte) → result string (list (ExtensionType * list byte));
}.

(** Documented: the suite is built on the X-Wing KEM, extensions of different
    types are accepted, and five messages may overtake one by default. *)
Class MlsDefaultsLaws (MD : MlsDefaults) := {
  xwing_kem : hpke_kem_algorithm XWING_SUITE = XWingKemDraft6;
  from_vec_distinct l : NoDup l.*1 → extensions_from_vec l = Ok l;
  default_tolerance : out_of_order_tolerance default_ratchet = 5%N;
}.

Section config.
Context {MD : MlsDefaults}.

Record Capabilities := {
  cap_ciphersuites : list Ciphersuite;
  cap_extensions : list ExtensionType;
  cap_rest : CapabilitiesRest;
}.
(** [Capabilities::new]: [None] is the default. *)
Definition capabilities_new (suites : option (list Ciphersuite)) (exts : option (list ExtensionType))
  : Capabilities :=
  {| cap_ciphersuites := default default_ciphersuites suites;
     cap_extensions := default default_extensions exts; cap_rest := default_capabilities_rest |}.

(** [MlsGroupCreateConfig] and [MlsGroupJoinConfig]. *)
Record CreateConfig := {
  cc_ciphersuite : Ciphersuite;
  cc_capabilities : Capabilities;
  cc_use_ratchet_tree : bool;
  cc_sender_ratchet : SenderRatchet;
  cc_context_extensions : list (ExtensionType * list byte);
  cc_rest : ConfigRest;
}.
Record JoinConfig := {
  jc_use_ratchet_tree : bool;
  jc_sender_ratchet : SenderRatchet;
  jc_rest : ConfigRest;
}.

(** [builder()]: the defaults; the ratchet tree is not sent by default. *)
Definition create_builder : CreateConfig :=
  {| cc_ciphersuite := default_suite; cc_capabilities := capabilities_new None None;
     cc_use_ratchet_tree := false; cc_sender_ratchet := default_ratchet;
     cc_context_extensions := []; cc_rest := default_config_rest |}.
Definition join_builder : JoinConfig :=
  {| jc_use_ratchet_tree := false; jc_sender_ratchet := default_ratchet; jc_rest := default_config_rest |}.

Definition with_ciphersuite (s : Ciphersuite) (c : CreateConfig) : CreateConfig :=
  {| cc_ciphersuite := s; cc_capabilities := cc_capabilities c; cc_use_ratchet_tree := cc_use_ratchet_tree c;
     cc_sender_ratchet := cc_sender_ratchet c; cc_context_extensions := cc_context_extensions c;
     cc_rest := cc_rest c |}.
Definition with_capabilities (k : Capabilities) (c : CreateConfig) : CreateConfig :=
  {| cc_ciphersuite := cc_ciphersuite c; cc_capabilities := k; cc_use_ratchet_tree := cc_use_ratchet_tree c;
     cc_sender_ratchet := cc_sender_ratchet c; cc_context_extensions := cc_context_extensions c;
     cc_rest := cc_rest c |}.
Definition with_ratchet_tree (b : bool) (c : CreateConfig) : CreateConfig :=
  {| cc_ciphersuite := cc_ciphersuite c; cc_capabilities := cc_capabilities c; cc_use_ratchet_tree := b;
     cc_sender_ratchet := cc_sender_ratchet c; cc_context_extensions := cc_context_extensions c;
     cc_rest := cc_rest c |}.
Definition with_sender_ratchet (r : SenderRatchet) (c : CreateConfig) : CreateConfig :=
  {| cc_ciphersuite := cc_ciphersuite c; cc_capabilities := cc_capabilities c;
     cc_use_ratchet_tree := cc_use_ratchet_tree c; cc_sender_ratchet := r;
     cc_context_extensions := cc_context_extensions c; cc_rest := cc_rest c |}.
Definition with_context_extensions (e : list (ExtensionType * list byte)) (c : CreateConfig) : CreateConfig :=
  {| cc_ciphersuite := cc_ciphersuite c; cc_capabilities := cc_capabilities c;
     cc_use_ratchet_tree := cc_use_ratchet_tree c; cc_sender_ratchet := cc_sender_ratchet c;
     cc_context_extensions := e; cc_rest := cc_rest c |}.
Definition join_ratchet_tree (b : bool) (c : JoinConfig) : JoinConfig :=
  {| jc_use_ratchet_tree := b; jc_sender_ratchet := jc_sender_ratchet c; jc_rest := jc_rest c |}.
Definition join_sender_ratchet (r : SenderRatchet) (c : JoinConfig) : JoinConfig :=
  {| jc_use_ratchet_tree := jc_use_ratchet_tree c; jc_sender_ratchet := r; jc_rest := jc_rest c |}.

(** ** What the sources configure *)

Definition CIPHER_SUITE : Ciphersuite := XWING_SUITE.
(** The assertion of the build. *)
Definition cipher_suite_kem_ok : bool :=
  match hpke_kem_algorithm CIPHER_SUITE with XWingKemDraft6 => true | _ => false end.

Definition capabilities_with_group_metadata : Capabilities :=
  capabilities_new None (Some [UnknownExtension GROUP_METADATA_EXTENSION_TYPE]).

Definition V1_OUT_OF_ORDER_TOLERANCE : N := 32.
Definition V3_OUT_OF_ORDER_TOLERANCE : N := 32.

(** [GroupV1Convo]. *)
Definition v1_sender_ratchet_config : SenderRatchet :=
  {| out_of_order_tolerance := V1_OUT_OF_ORDER_TOLERANCE;
     maximum_forward_distance := maximum_forward_distance default_ratchet |}.
Definition v1_mls_create_config : CreateConfig :=
  with_sender_ratchet v1_sender_ratchet_config
    (with_ratchet_tree true (with_ciphersuite CIPHER_SUITE create_builder)).
Definition v1_mls_join_config : JoinConfig :=
  join_sender_ratchet v1_sender_ratchet_config join_builder.

Context {TC : TlsCodec}.

(** The one extension a group starts with; [None] is a panic of [expect]. *)
Definition metadata_extension (name desc : string) : option (ExtensionType * list byte) :=
  bytes ← to_extension_bytes (meta_new name desc);
  Some (UnknownExtension GROUP_METADATA_EXTENSION_TYPE, bytes).

(** [mls_groups.rs], for GroupV3; [None] is the panic of [expect]. *)
Definition group_create_config (name desc : string) : option CreateConfig :=
  metadata ← metadata_extension name desc;
  match extensions_from_vec [metadata] with
  | Err _ => None
  | Ok extensions =>
      Some (with_context_extensions extensions
        (with_ratchet_tree true
          (with_capabilities capabilities_with_group_metadata
            (with_ciphersuite CIPHER_SUITE create_builder))))
  end.
Definition v3_sender_ratchet_config : SenderRatchet :=
  {| out_of_order_tolerance := V3_OUT_OF_ORDER_TOLERANCE;
     maximum_forward_distance := maximum_forward_distance default_ratchet |}.
Definition v3_mls_join_config : JoinConfig :=
  join_ratchet_tree true (join_sender_ratchet v3_sender_ratchet_config join_builder).

(** [group_v2.rs]. *)
Definition group_config (name desc : string) : option CreateConfig :=
  metadata ← metadata_extension name desc;
  match extensions_from_vec [metadata] with
  | Err _ => None
  | Ok extensions =>
      Some (with_context_extensions extensions
        (with_ratchet_tree true
          (with_capabilities capabilities_with_group_metadata
            (with_ciphersuite CIPHER_SUITE create_builder))))
  end.

(** [InboxV2::create_keypackage]: what the package is built from. *)
Record KeyPackageSpec {CR : Credentials} := {
  ks_last_resort : bool;
  ks_capabilities : Capabilities;
  ks_ciphersuite : Ciphersuite;
  ks_credential : CredentialWithKey;
}.
Definition create_keypackage {CR : Credentials} {T : Type} {IP : IdentityProvider T}
    (identity : MlsIdentityProvider T) : KeyPackageSpec :=
  {| ks_last_resort := true;
     ks_capabilities := capabilities_new (Some [CIPHER_SUITE])
       (Some [ApplicationId; LastResort; UnknownExtension GROUP_METADATA_EXTENSION_TYPE]);
     ks_ciphersuite := CIPHER_SUITE;
     ks_credential := get_credential identity |}.
End config.

(** ** What follows *)

(** The extensions a member must support: those in the group's context. *)
Definition supports {MD : MlsDefaults} (k : Capabilities) (exts : list ExtensionType) : Prop :=
  Forall (λ e, e ∈ cap_extensions k) exts.

(** The extensions OpenMLS does not know, which [ConvoBase::metadata] reads. *)
Definition unknown_extensions (exts : list (ExtensionType * list byte)) : list (N * list byte) :=
  omap (λ '(ty, bytes), match ty with UnknownExtension n => Some (n, bytes) | _ => None end) exts.

Section theorems.
Context {MD : MlsDefaults} {ML : MlsDefaultsLaws MD} {TC : TlsCodec} {TL : TlsCodecLaws TC}.
Context {CR : Credentials} {T : Type} {IP : IdentityProvider T}.

Lemma group_create_config_eq name desc :
  group_config name desc = group_create_config name desc ∧
  match metadata_extension name desc with
  | None => group_create_config name desc = None
  | Some ext =>
      ∃ c, group_create_config name desc = Some c ∧ cc_use_ratchet_tree c = true ∧
        cc_capabilities c = capabilities_with_group_metadata ∧
        cc_context_extensions c = [ext] ∧ cc_sender_ratchet c = default_ratchet
  end.
Proof.
  split; [done|]. unfold group_create_config. destruct (metadata_extension name desc) as [ext|]; [|done].
  cbn [mbind option_bind]. rewrite from_vec_distinct by apply NoDup_singleton. eexists. split_and!; done.
Qed.

Lemma metadata_from_front before ext bytes after :
  (∀ b, (UnknownExtension GROUP_METADATA_EXTENSION_TYPE, b) ∉ before) →
  from_extension_bytes bytes = Ok ext →
  metadata_from (unknown_extensions
    (before ++ (UnknownExtension GROUP_METADATA_EXTENSION_TYPE, bytes) :: after)) =
  Some {| md_name := mi_name ext; md_desc := mi_desc ext |}.
Proof.
  intros Hb Hx. induction before as [|[ty b] before IH].
  - cbn. by rewrite Hx.
  - assert (IH' := IH (λ b' H, Hb b' (list_elem_of_further _ _ _ H))).
    destruct ty as [| |n|n]; cbn; try exact IH'.
    destruct (N.eqb_spec n GROUP_METADATA_EXTENSION_TYPE) as [->|]; [|exact IH'].
    destruct (Hb b). apply list_elem_of_here.
Qed.

(** C20. A group's name and description travel with it. Setting up a GroupV2 or
    GroupV3 group panics exactly when the name or the description reaches
    2^30 bytes; otherwise its metadata reads back as exactly the two texts
    given, whatever other extensions stand before and after; and the leaf of
    its creator and the key package any client publishes support every
    extension the group is created with, so that whoever has one can be added. *)
Theorem group_metadata_roundtrip name desc (identity : MlsIdentityProvider T) :
  utf8_valid (str_bytes name) = true → utf8_valid (str_bytes desc) = true →
  group_config name desc = group_create_config name desc ∧
  (group_create_config name desc = None ↔ ¬ vl_fits (str_bytes name) ∨ ¬ vl_fits (str_bytes desc)) ∧
  ∀ c, group_create_config name desc = Some c →
    (∀ before after,
       (∀ b, (UnknownExtension GROUP_METADATA_EXTENSION_TYPE, b) ∉ before) →
       metadata_from (unknown_extensions (before ++ cc_context_extensions c ++ after)) =
         Some {| md_name := name; md_desc := desc |}) ∧
    supports (cc_capabilities c) (cc_context_extensions c).*1 ∧
    supports (ks_capabilities (create_keypackage identity)) (cc_context_extensions c).*1.
Proof.
  intros Hn Hd. destruct (group_create_config_eq name desc) as [Heq Hc].
  destruct (meta_serializes name desc) as [Hnone Hback]. unfold metadata_extension in Hc.
  destruct (to_extension_bytes (meta_new name desc)) as [bytes|]; cbn [mbind option_bind] in Hc.
  - destruct Hc as (c & Hc & _ & Hk & He & _). rewrite Hc. split_and!; [done|naive_solver|].
    intros c' [= <-]. rewrite He, Hk. split_and!; [|repeat constructor..]. intros before after Hb.
    by apply (metadata_from_front before (meta_new name desc)), Hback.
  - rewrite Hc. split_and!; [done|naive_solver|done].
Qed.

(** What a member's window and invitations depend on: with GroupV1 creators
    and joiners read a message that 32 newer ones have overtaken, with GroupV3
    only joiners do, the creator keeping the library's 5; and of the members
    of a GroupV1 only its creator sends the ratchet tree with a welcome, which
    those who joined do not, while all members of a GroupV3 do. *)
Theorem windows_by_role name desc c :
  group_create_config name desc = Some c →
  out_of_order_tolerance (cc_sender_ratchet v1_mls_create_config) = 32%N ∧
  out_of_order_tolerance (jc_sender_ratchet v1_mls_join_config) = 32%N ∧
  out_of_order_tolerance (jc_sender_ratchet v3_mls_join_config) = 32%N ∧
  out_of_order_tolerance (cc_sender_ratchet c) = 5%N ∧
  cc_use_ratchet_tree v1_mls_create_config = true ∧ jc_use_ratchet_tree v1_mls_join_config = false ∧
  cc_use_ratchet_tree c = true ∧ jc_use_ratchet_tree v3_mls_join_config = true.
Proof.
  destruct (group_create_config_eq name desc) as [_ Hc]. intros Hsome. rewrite Hsome in Hc.
  destruct (metadata_extension name desc); [|done]. destruct Hc as (c' & [= <-] & Ht & _ & _ & Hr).
  rewrite Ht, Hr, default_tolerance. done.
Qed.
End theorems.

(** ** Witnesses *)

(** Suites are numbers; extensions of one type twice are refused. *)
Definition mls_defaults_ref : MlsDefaults := {|
  Ciphersuite := N;
  XWING_SUITE := 19789%N;
  hpke_kem_algorithm s := if (s =? 19789)%N then XWingKemDraft6 else OtherKem;
  CapabilitiesRest := ();
  default_ciphersuites := [1; 2; 3]%N;
  default_capabilities_rest := ();
  ConfigRest := ();
  default_config_rest := ();
  default_suite := 1%N;
  default_extensions := [];
  default_ratchet := {| out_of_order_tolerance := 5; maximum_forward_distance := 1000 |};
  extensions_from_vec l := if decide (NoDup l.*1) then Ok l else Err "duplicate extension"%string;
|}.
#[export] Instance mls_defaults_ref_laws : MlsDefaultsLaws mls_defaults_ref.
Proof. split; [done| |done]. intros l Hl. cbn. by rewrite decide_True. Qed.

Lemma group_metadata_roundtrip_witness :
  ∃ c, group_create_config (MD := mls_defaults_ref) (TC := tls_ref) "team" "all hands" = Some c ∧
    metadata_from (TC := tls_ref)
      (unknown_extensions ([(ApplicationId, [x01])] ++ cc_context_extensions c ++ [])) =
    Some {| md_name := "team"; md_desc := "all hands" |}.
Proof.
  eexists. split; [reflexivity|].
  destruct (group_metadata_roundtrip (MD := mls_defaults_ref) (ML := mls_defaults_ref_laws) (TC := tls_ref)
    (TL := tls_ref_laws) (CR := credentials_ref)
    (IP := installation_identity (HX := hex_ref) (D := dalek_ref))
    "team" "all hands" (MlsIdentity demo_inst) eq_refl eq_refl) as (_ & _ & H).
  destruct (H _ eq_refl) as [Hm _]. apply Hm.
  intros b [[=]|[]%not_elem_of_nil]%elem_of_cons.
Defined.

Lemma windows_by_role_witness :
  ∃ c, group_create_config (MD := mls_defaults_ref) (TC := tls_ref) "team" "all hands" = Some c ∧
    out_of_order_tolerance (cc_sender_ratchet c) = 5%N.
Proof.
  eexists. split; [reflexivity|].
  exact (proj1 (proj2 (proj2 (proj2 (windows_by_role (MD := mls_defaults_ref) (ML := mls_defaults_ref_laws)
    (TC := tls_ref) "team" "all hands" _ eq_refl))))).
Defined.
