(* ===== verification/ConversationTheorems.v ===== *)
(** * Theorems about conversations

    Who content is attributed to, who is admitted to a group, what a removal
    does, that our own messages are dropped when they come back, and what a
    failed send leaves behind. *)

From Stdlib Require Import Strings.Byte Strings.String.
From stdpp Require Import base gmap strings numbers list.
From S2P Require Import Prelude Utf8 Hex Ed25519 Identity CausalHistory Storage Delivery Services.
From S2P Require Import MlsUtils GroupV1 GroupV3 GroupV2 Reference.

Section group_v1.
Context {HX : Hex} {B : Blake2b} {PB : Prost} {P G : Type} {ML : OpenMls P G}.
Context {DS : Type} {DSI : DeliveryService DS} {RS : Type} {RSI : RegistrationService RS}.
Context {CS WS E : Type} {A : AuthService E}.

Abbreviation CX := (ServiceContext DS RS CS P WS).
Implicit Types (cx : CX) (c : GroupV1Convo G).

(** C17. Content is attributed only to an authenticated member: whatever a
    GroupV1 conversation surfaces was decrypted by MLS from a message of a
    live epoch that we did not send, by a leaf of the group whose key and
    participant the auth service calls valid, and one payload surfaces at most
    one observation, under this conversation's id. *)
Theorem v1_content_authentic payload cx c s' out :
  v1_handle_payload payload (cx, c) = (s', Ok out) →
  co_convo_id out = v1_convo_id c ∧ length (observations out) ≤ 1 ∧
  ∀ obs, obs ∈ observations out →
    ∃ bytes msg_in msg p g processed ct,
      obs = ObsContent ct ∧
      encrypted_decode payload = Ok {| encryption := Some (Plaintext bytes) |} ∧
      (msg_hash bytes ∉ v1_outbound c) ∧ mls_is_active (v1_group c) = true ∧
      mls_from_bytes_exact bytes = Ok msg_in ∧ mls_into_protocol msg_in = Ok msg ∧
      (mls_epoch (v1_group c) ≤ mls_message_epoch msg)%N ∧
      mls_process (cx_provider cx) (v1_group c) msg = (p, g, Ok processed) ∧
      content_of g processed ct.
Proof.
  intros [Hid [[_ Ho]|(bytes & mi & m & ct & H1 & H2 & H3 & H4 & H5 & H6 & Hp & Ho)]]
    %v1_handle_payload_Ok; (split; [done|]); rewrite Ho.
  - split; [cbn; lia|]. intros obs Hobs. by apply elem_of_nil in Hobs.
  - split; [destruct ct; cbn; lia|]. intros obs Hobs.
    apply v1_process_Ok in Hp as (p & g & pm & Hpm & Hct). destruct ct as [ct|]; cbn in Hobs.
    + apply list_elem_of_singleton in Hobs as ->. destruct Hct as [Hct _]. eauto 20.
    + by apply elem_of_nil in Hobs.
Qed.

(** Sends of raw message bytes, their results aside. *)
Definition v1_sends (msgs : list (list byte)) (s : CX * GroupV1Convo G) : CX * GroupV1Convo G :=
  fold_left (λ s m, (v1_send_payload m s).1) msgs s.

Lemma v1_sends_outbound msgs cx c :
  v1_outbound (v1_sends msgs (cx, c)).2 =
  fold_left (λ l h, push_outbound h l) (map msg_hash msgs) (v1_outbound c).
Proof.
  revert cx c. induction msgs as [|m msgs IH]; intros cx c; [done|]. cbn [v1_sends fold_left map].
  unfold v1_send_payload at 2, step. destruct (ds_publish _ _) as [d r]. apply IH.
Qed.

(** Our own messages are dropped when a broadcast transport hands them
    back: after sending a message and up to 24 more, the payload it travelled
    in produces an empty outcome and changes nothing, delivered or not. *)
Theorem v1_own_message_dropped {PL : ProstLaws PB} msg msgs cx c :
  length (v1_outbound c) ≤ OUTBOUND_HASH_CACHE_SIZE →
  length msgs < OUTBOUND_HASH_CACHE_SIZE →
  let s := v1_sends (msg :: msgs) (cx, c) in
  v1_handle_payload (encrypted_encode {| encryption := Some (Plaintext msg) |}) s =
  (s, Ok (outcome_empty (v1_convo_id s.2))).
Proof.
  intros Hl Hm s. assert (msg_hash msg ∈ v1_outbound s.2) as Hin.
  { unfold s. rewrite v1_sends_outbound. cbn [map fold_left].
    apply push_outbound_recent; [done|by rewrite length_map]. }
  unfold v1_handle_payload, mbind, st_bind, lift. rewrite encrypted_rt.
  cbn [map_err encryption get]. destruct s as [cx' c']. cbn [snd] in *.
  destruct (mls_is_active _); cbn [negb]; [|done]. by rewrite decide_True.
Qed.

(** Admission to a GroupV1 group: the state changes only by an MLS add of
    the key packages of exactly the requested signers not yet seated, each
    once; each package carries the requested signer's key, a credential the
    auth service calls valid for it, and an HPKE key of the expected length.
    When any package fails, or more than 50 are named, nothing is touched. *)
Theorem v1_add_only_vetted members cx c :
  let fresh := fresh_signers c members in
  NoDup fresh ∧
  (∀ s, s ∈ fresh ↔ s ∈ members ∧
     ∀ m, m ∈ mls_members (v1_group c) → m_signature_key m ≠ signer_bytes s) ∧
  ((v1_add_signer members (cx, c)).1 ≠ (cx, c) →
   length members ≤ MAX_ADDED_AT_ONCE ∧
   ∃ kps p g r,
     Forall2 (λ s kp, kp_signature_key kp = signer_bytes s ∧
                vouched s (Participant (kp_credential kp)) ∧
                N.of_nat (length (kp_init_key kp)) = HPKE_PUBLIC_KEY_LEN) fresh kps ∧
     mls_add_members (cx_provider cx) (cx_identity cx) (v1_group c) kps = (p, g, r) ∧
     (∀ e, r = Err e →
        v1_add_signer members (cx, c) =
        ((set_provider p cx, set_group g c), Err (Error (ChatError.Generic e))))).
Proof.
  intros fresh. split; [apply unique_from_NoDup|]. split.
  { intros s. unfold fresh, fresh_signers. rewrite unique_from_elem.
    rewrite elem_of_list_to_set, list_elem_of_fmap. destruct s as [b]. cbn. naive_solver. }
  unfold v1_add_signer. destruct (Nat.ltb_spec MAX_ADDED_AT_ONCE (length members)).
  { intros Hne. by destruct Hne. }
  unfold mbind, st_bind, get, lift. cbv beta iota zeta. fold fresh.
  destruct (decide (fresh = [])) as [Hf|Hf]; [intros Hne; by destruct Hne|].
  destruct (collect (key_package_for_signer (cx_registry cx)) fresh) as [kps|] eqn:Hc;
    cbn [map_err]; [|intros Hne; by destruct Hne].
  intros _. split; [done|]. apply collect_Ok in Hc.
  destruct (mls_add_members (cx_provider cx) (cx_identity cx) (v1_group c) kps)
    as [[p g] r] eqn:Hadd.
  exists kps, p, g, r. split_and!; [|done|].
  - eapply Forall2_impl; [exact Hc|]. intros s kp Hs. exact (key_package_for_signer_Ok _ s kp Hs).
  - intros e ->. unfold on_group, step. by rewrite Hadd.
Qed.

(** Removal from a GroupV1 group, on every branch: the leaves removed are
    exactly those of the members holding a named key; naming ourselves, or
    nobody seated, is an error that changes nothing; success means MLS staged
    that removal, the commit was published and the group has merged it. *)
Theorem v1_remove_exact members cx c :
  let leaves := leaves_of c members in
  (∀ i, i ∈ leaves ↔ ∃ m, m ∈ mls_members (v1_group c) ∧ m_index m = i ∧
     Signer_key (m_signature_key m) ∈ members) ∧
  (mls_own_leaf (v1_group c) ∈ leaves →
   v1_remove_signer members (cx, c) = ((cx, c), Err (Error ChatError.CannotRemoveSelf))) ∧
  (leaves = [] →
   v1_remove_signer members (cx, c) = ((cx, c), Err (Error ChatError.NotAGroupMember))) ∧
  (∀ s', v1_remove_signer members (cx, c) = (s', Ok ()) →
   ∃ p g commit p' g' bytes d,
     mls_remove_members (cx_provider cx) (cx_identity cx) (v1_group c) leaves = (p, g, Ok commit) ∧
     mls_merge_pending p g = (p', g', Ok ()) ∧ mls_to_bytes commit = Ok bytes ∧
     ds_publish (cx_ds cx) (into_envelope (delivery_address_from_id (v1_convo_id c))
       {| encryption := Some (Plaintext bytes) |} (v1_convo_id c)) = (d, Ok ()) ∧
     v1_group s'.2 = g').
Proof.
  intros leaves. split.
  { intros i. unfold leaves, leaves_of. rewrite list_elem_of_fmap.
    setoid_rewrite list_elem_of_filter. setoid_rewrite elem_of_list_to_set. naive_solver. }
  unfold v1_remove_signer, mbind, st_bind, get. cbv beta iota zeta. fold leaves.
  split_and!; [intros Hin; by rewrite decide_True|intros ->; rewrite decide_False by set_solver;
    by rewrite decide_True|].
  intros s'. case_decide; [done|]. case_decide; [done|]. unfold on_group, step, lift.
  cbv beta iota.
  destruct (mls_remove_members _ _ _ _) as [[p g] [commit|]] eqn:Hrm; cbn; [|done].
  destruct (mls_merge_pending p g) as [[p' g'] [[]|]] eqn:Hmerge; cbn; [|done].
  destruct (mls_to_bytes commit) as [bytes|] eqn:Hb; cbn; [|done].
  unfold v1_send_payload, step. cbn.
  destruct (ds_publish _ _) as [d [[]|]] eqn:Hpub; cbn; [|done].
  intros [= <-]. exists p, g, commit, p', g', bytes, d. done.
Qed.

Lemma v1_send_content_causal content cx c :
  cx_causal (v1_send_content content (cx, c)).1.1 =
  (on_send (cx_causal cx) (v1_convo_id c) (id_signer_key (cx_identity cx)) content).1.
Proof.
  unfold v1_send_content, mbind, st_bind, get. cbv beta iota zeta.
  destruct (on_send _ _ _ _) as [i reliable]. cbn [modify]. unfold on_group, step, lift. cbn.
  destruct (mls_create_message _ _ _ _) as [[p g] [out|]]; cbn; [|done].
  destruct (mls_to_bytes out); cbn; [|done].
  unfold v1_send_payload, step. cbn. by destruct (ds_publish _ _) as [d [[]|]].
Qed.

Lemma on_send_frontier i id k content :
  let f := {| f_sender := k; f_message_id := p_message_id (on_send i id k content).2 |} in
  (f ∉ seen (convo i id)) → f ∈ frontiers (convo (on_send i id k content).1 id).
Proof.
  unfold on_send. cbn. intros Hf. rewrite convo_insert, decide_True by done.
  unfold record_seen. cbn. rewrite decide_False by done. cbn.
  set (l := frontiers (convo i id)). clearbody l. set (f := {| f_sender := k; f_message_id := _ |}).
  clearbody f. clear. induction l as [|x l IH]; [by apply list_elem_of_singleton|].
  cbn [trim app]. case_match; [done|]. set_solver.
Qed.

(** A send that fails is not undone: the message is already recorded as
    delivered, so the next message this conversation sends references it, and
    a peer that receives that next message reports as missing a message that
    was never sent out. *)
Theorem failed_send_leaves_gap {HL : HexLaws HX} content next_content cx c s' e peer :
  let id := v1_convo_id c in
  let k := id_signer_key (cx_identity cx) in
  let lost := (on_send (cx_causal cx) id k content).2 in
  let f := {| f_sender := k; f_message_id := p_message_id lost |} in
  v1_send_content content (cx, c) = (s', Err e) →
  (f ∉ seen (convo (cx_causal cx) id)) → (f ∉ seen (convo peer id)) →
  let next := (on_send (cx_causal s'.1) id k next_content).2 in
  history_entry f ∈ p_causal_history next ∧
  f ∈ reported_missing (convo (on_receive peer id next).1 id).
Proof.
  intros id k lost f Hs Hf Hpeer next.
  assert (cx_causal s'.1 = (on_send (cx_causal cx) id k content).1) as Hc.
  { pose proof (v1_send_content_causal content cx c) as H. by rewrite Hs in H. }
  assert (history_entry f ∈ p_causal_history next) as Hin.
  { unfold next. rewrite Hc. unfold on_send at 1. cbn. apply list_elem_of_fmap.
    exists f. split; [done|]. by apply on_send_frontier. }
  split; [done|].
  assert (signer_try_from (p_sender_id next) = Ok k) as Hsig
    by (unfold next, on_send; apply signer_try_from_to_string).
  pose proof (on_receive_spec peer id next k Hsig) as Hr.
  destruct (on_receive peer id next) as [peer' det]. destruct Hr as (_ & Hr & _).
  destruct (Hr _ k Hin) as [Hu _]; [apply signer_try_from_to_string|].
  apply elem_of_union in Hu as [Hu|Hu]; [by destruct Hpeer|done].
Qed.
End group_v1.

Section group_v3.
Context {HX : Hex} {B : Blake2b} {PB : Prost} {TC : TlsCodec} {P G : Type} {ML : OpenMls P G}.
Context {DS : Type} {DSI : DeliveryService DS} {RS : Type} {RSI : RegistrationService RS}.
Context {CS WS E : Type} {A : AuthService E}.

Abbreviation CX := (ServiceContext DS RS CS P WS).
Implicit Types (cx : CX) (c : GroupV3Convo G).

(** Sender and receivers of a GroupV3 message agree on it: the id a send
    returns and the content sent are what any receiver surfaces when MLS hands
    it the plaintext the sender gave MLS, under a leaf that is vouched for. *)
Theorem v3_send_receive_agree {PL : ProstLaws PB} content cx c s' id :
  v3_send_content content (cx, c) = (s', Ok id) →
  ∃ plain p g out,
    mls_create_message (cx_provider cx) (cx_identity cx) (v3_group c) plain = (p, g, Ok out) ∧
    ∀ (cx2 : CX) c2 leaf,
      vouched (Signer_key (m_signature_key leaf)) (Participant (m_credential leaf)) →
      v3_application (Some leaf) plain (cx2, c2) =
      ((cx2, c2), Ok {| co_convo_id := v3_convo_id c2;
        observations := [ObsContent {| ct_bytes := content;
          ct_sender := Authenticated (signer_from_leaf (m_signature_key leaf) (m_credential leaf));
          ct_message_id := id |}] |}).
Proof.
  unfold v3_send_content. intros (s1 & msg & H1 & (s2 & [] & _ & [= _ <-])%st_bind_Ok)%st_bind_Ok.
  unfold v3_on_group, step in H1.
  destruct (mls_create_message _ _ _ _) as [[p g] [out|]] eqn:Hm; [|done].
  eexists _, p, g, out. split; [exact Hm|]. intros cx2 c2 leaf Hv.
  unfold v3_application, mbind, st_bind, get, lift. cbv beta iota. rewrite v3_frame_rt.
  cbn [map_err frame_from_content v3_payload option_bind].
  assert (require_valid (signer_from_leaf (m_signature_key leaf) (m_credential leaf)) =
    Some (Authenticated (signer_from_leaf (m_signature_key leaf) (m_credential leaf)))) as ->
    by (by apply require_valid_Some).
  done.
Qed.

(** A GroupV3 commit takes effect only once it is out: the group moves to
    the merged state only after the commit was published; when publishing
    fails, the staged commit is cleared, no welcome leaves and the send error
    is reported. *)
Theorem v3_commit_published_first commit dependent cx c :
  let '(s', r) := v3_send_pending_commit commit dependent (cx, c) in
  match v3_publish_mls_msg (v3_convo_id c) commit cx with
  | (cx1, Err e) =>
      r = Err (Error (ChatError.SendFailed e)) ∧ cx_ds s'.1 = cx_ds cx1 ∧
      v3_group s'.2 = (mls_clear_pending (cx_provider cx1) (v3_group c)).1.2
  | (cx1, Ok _) =>
      v3_group s'.2 = (mls_merge_pending (cx_provider cx1) (v3_group c)).1.2 ∧
      (cx_ds s'.1 = cx_ds cx1 ∨ is_ok (mls_merge_pending (cx_provider cx1) (v3_group c)).2 = true)
  end.
Proof.
  unfold v3_send_pending_commit.
  destruct (v3_publish_mls_msg (v3_convo_id c) commit cx) as [cx1 [[]|e]].
  2: { by destruct (mls_clear_pending _ _) as [[p g] r]. }
  unfold mbind, st_bind, v3_on_group, step. cbn [cx_provider].
  destruct (mls_merge_pending (cx_provider cx1) (v3_group c)) as [[p g] [[]|e]]; cbn; [|auto].
  match goal with |- let '(s', r) := for_each _ ?b ?s in _ =>
    assert (∀ l t, v3_group (for_each l b t).1.2 = v3_group t.2) as Hl end.
  { induction l as [|x l IH]; intros [cx2 c2]; [done|]. cbn [for_each]. unfold mbind, st_bind.
    destruct (v3_publish_envelope x cx2) as [cx3 [[]|]]; cbn; [apply IH|done]. }
  match goal with |- let '(s', r) := for_each ?l _ ?s in _ => specialize (Hl l s) end.
  destruct (for_each _ _ _) as [s' r]. cbn in Hl. auto.
Qed.

(** The two key-package checks differ on the HPKE key: GroupV3 admits any
    package that decodes, is valid, carries the requested key and is vouched
    for, whatever the length of its HPKE key, while GroupV1 refuses every
    length but the expected one, the shorter ones being those that crash the
    KEM implementation. *)
Theorem v3_admits_any_hpke_key (registry : RS) s b i kp pid :
  rs_retrieve registry (signer_to_string s) = Ok (Some b) →
  kp_deserialize_exact b = Ok i → kp_deserialize b = Ok i → kp_validate i = Ok kp →
  kp_participant kp = Ok pid → kp_signature_key kp = signer_bytes s → vouched s pid →
  N.of_nat (length (kp_init_key kp)) ≠ HPKE_PUBLIC_KEY_LEN →
  fetch_key_packages registry [s] = Ok [kp] ∧
  ∃ e, key_package_for_signer registry s = Err (ChatError.BadBundleValue e).
Proof.
  intros Hr Hde Hd Hv Hp Hk Ha Hlen. split.
  - unfold fetch_key_packages, unique. cbn [unique_from]. rewrite decide_False by set_solver.
    cbn [collect]. rewrite Hr. cbn [mbind result_bind map_err ok_or].
    unfold validate_keypackage. rewrite Hde. cbn [mbind result_bind map_err]. rewrite Hv.
    cbn [mbind result_bind map_err]. rewrite Hp. cbn [mbind result_bind map_err signer].
    rewrite bool_decide_true by (rewrite Hk; by destruct s). cbn [negb].
    unfold auth_status. cbn [signer participant_id]. rewrite Hk.
    destruct s as [sb]. cbn [signer_bytes]. unfold vouched in Ha. by rewrite Ha.
  - unfold key_package_for_signer. rewrite Hr. cbn [mbind result_bind map_err ok_or].
    rewrite Hd. cbn [mbind result_bind map_err]. rewrite Hv. cbn [mbind result_bind map_err].
    unfold check_hpke_public_key. rewrite (proj2 (N.eqb_neq _ _) Hlen). cbn. eauto.
Qed.
End group_v3.

(** ** Witnesses *)

(** A's text as it reaches B. *)
Definition demo_reliable : ReliablePayload :=
  (on_send (B := blake_toy) (HX := hex_ref) store_new "0a0b" (Signer_key [x61]) [x68; x69]).2.
Definition demo_payload : list byte :=
  encrypted_encode (Prost := prost_ref) {| encryption := Some (Plaintext
    (write ((1, 0, inl (reliable_encode (Prost := prost_ref) demo_reliable)) : ToyMessage)%N)) |}.

Definition demo_received :=
  v1_handle_payload (HX := hex_ref) (B := blake_toy) (PB := prost_ref) (ML := mls_ref)
    (A := auth_ref) demo_payload (context_of ident_b ([] : list AddressedEnvelope), convo_ab 1).
Definition demo_outcome : ConvoOutcome :=
  match demo_received.2 with Ok out => out | Err _ => outcome_empty "" end.

Lemma v1_content_authentic_witness :
  length (observations demo_outcome) = 1 ∧ co_convo_id demo_outcome = "0a0b"%string.
Proof.
  split; [vm_compute; reflexivity|].
  apply (v1_content_authentic (HX := hex_ref) (B := blake_toy) (PB := prost_ref) (ML := mls_ref)
    (A := auth_ref) demo_payload (context_of ident_b []) (convo_ab 1) demo_received.1).
  vm_compute. reflexivity.
Defined.

Lemma v1_own_message_dropped_witness :
  let s := v1_sends (HX := hex_ref) (B := blake_toy) (PB := prost_ref) (DSI := outbox)
    [[x01]; [x02]] (context_of ident_a [], convo_ab 0) in
  v1_handle_payload (HX := hex_ref) (B := blake_toy) (PB := prost_ref) (ML := mls_ref)
    (A := auth_ref) (encrypted_encode (Prost := prost_ref)
      {| encryption := Some (Plaintext [x01]) |}) s = (s, Ok (outcome_empty "0a0b")).
Proof.
  apply (v1_own_message_dropped (HX := hex_ref) (B := blake_toy) (PB := prost_ref) (ML := mls_ref)
    (DSI := outbox) (A := auth_ref) (PL := prost_ref_laws) [x01] [[x02]]
    (context_of ident_a []) (convo_ab 0)); unfold OUTBOUND_HASH_CACHE_SIZE; cbn; lia.
Defined.

Definition demo_failed :=
  v1_send_content (HX := hex_ref) (B := blake_toy) (PB := prost_ref) (ML := mls_ref)
    (DSI := down) [x68] (context_of ident_a (), convo_ab 0).

Lemma failed_send_leaves_gap_witness :
  ∃ f, f ∈ reported_missing (convo (on_receive (HX := hex_ref) store_new "0a0b"
    (on_send (B := blake_toy) (HX := hex_ref) (cx_causal demo_failed.1.1) "0a0b"
       (Signer_key [x61]) [x69]).2).1 "0a0b").
Proof.
  eexists. apply (failed_send_leaves_gap (HX := hex_ref) (B := blake_toy) (PB := prost_ref)
    (ML := mls_ref) (DSI := down) (HL := hex_ref_laws) [x68] [x69] (context_of ident_a ())
    (convo_ab 0) demo_failed.1 (Error (ChatError.Delivery "down")) store_new).
  - vm_compute. reflexivity.
  - apply not_elem_of_empty.
  - apply not_elem_of_empty.
Defined.

Definition v3_ab (own : N) : GroupV3Convo ToyGroup :=
  {| v3_convo_id := "0a0b"; v3_group := group_ab own |}.
Definition demo_v3_sent :=
  v3_send_content (HX := hex_ref) (B := blake_toy) (PB := prost_ref) (ML := mls_ref)
    (DSI := outbox) [x68] (context_of ident_a [], v3_ab 0).
Definition demo_v3_id : string := match demo_v3_sent.2 with Ok id => id | Err _ => "" end.

Lemma v3_send_receive_agree_witness :
  ∃ plain out, v3_application (HX := hex_ref) (B := blake_toy) (PB := prost_ref) (A := auth_ref)
    (Some (toy_member 0 ident_a)) plain (context_of ident_b ([] : list AddressedEnvelope), v3_ab 1)
    = out ∧ is_ok out.2 = true ∧ demo_v3_id ≠ ""%string.
Proof.
  destruct (v3_send_receive_agree (HX := hex_ref) (B := blake_toy) (PB := prost_ref)
    (ML := mls_ref) (DSI := outbox) (A := auth_ref) (PL := prost_ref_laws) [x68]
    (context_of ident_a []) (v3_ab 0) demo_v3_sent.1 demo_v3_id)
    as (plain & p & g & out & _ & H); [vm_compute; reflexivity|].
  exists plain. eexists. split; [apply H; reflexivity|].
  split; [reflexivity|]. vm_compute. discriminate.
Defined.

(** A package of A's key with an empty HPKE key. *)
Definition short_package : ToyKeyPackage := {| tk_key := [x61]; tk_cred := [x41]; tk_init := [] |}.
Definition short_registry : gmap string (list byte) :=
  {[ signer_to_string (HX := hex_ref) (Signer_key [x61]) := write short_package ]}.

Lemma v3_admits_any_hpke_key_witness :
  fetch_key_packages (HX := hex_ref) (ML := mls_ref) (RSI := registry_ref) (A := auth_ref)
    short_registry [Signer_key [x61]] = Ok [short_package].
Proof.
  apply (v3_admits_any_hpke_key (HX := hex_ref) (ML := mls_ref) (RSI := registry_ref)
    (A := auth_ref) short_registry (Signer_key [x61]) (write short_package) short_package
    short_package (Participant [x41])); try (vm_compute; reflexivity).
  vm_compute. discriminate.
Defined.
