(* ===== verification/GroupV2Theorems.v ===== *)
(** * Theorems about GroupV2 conversations

    What an operation publishes and to whom, how the invites and the member
    directory follow the library's events, and who may be invited. *)

From Stdlib Require Import Strings.Byte Strings.String.
From stdpp Require Import base gmap strings numbers list.
From S2P Require Import Prelude Utf8 Hex Ed25519 Identity CausalHistory Storage Delivery Services.
From S2P Require Import MlsUtils GroupV1 GroupV3 GroupV2 Reference.

Section group_v2.
Context {HX : Hex} {B : Blake2b} {PB : Prost} {PB2 : ProstV2} {TC : TlsCodec}.
Context {P G K : Type} {ML : OpenMls P G} {DM : DeMls P K}.
Context {DS : Type} {DSI : DeliveryService DS} {RS : Type} {RSI : RegistrationService RS}.
Context {CS : Type} {WS : Type} {WSI : WakeupService WS} {E : Type} {A : AuthService E}.

Abbreviation CX := (ServiceContext DS RS CS P WS).
Abbreviation V2 := (CX * GroupV2Convo K)%type.
Implicit Types (cx : CX) (c : GroupV2Convo K) (s : V2).

(** ** What events mean *)

Definition event_joiners (evt : ConversationEvent) : list (list byte) :=
  match evt with WelcomeReady w => mw_joiners w | _ => [] end.
Definition event_directory (evt : ConversationEvent) (d : gmap MemberId SignerKey)
  : gmap MemberId SignerKey :=
  match evt with MembersChanged added removed => apply_delta added removed d | _ => d end.
Definition drop_joiners (js : list (list byte)) (p : gmap (list byte) (list byte))
  : gmap (list byte) (list byte) := fold_left (λ p j, delete j p) js p.

Lemma drop_joiners_lookup js p j :
  drop_joiners js p !! j = if decide (j ∈ js) then None else p !! j.
Proof.
  revert p. induction js as [|x js IH]; intros p; cbn [drop_joiners fold_left]; [done|].
  fold (drop_joiners js (delete x p)). rewrite IH. destruct (decide (j = x)) as [->|].
  - rewrite lookup_delete_eq. by repeat case_decide; try set_solver.
  - rewrite lookup_delete_ne by done. repeat case_decide; set_solver.
Qed.

(** The welcomes the events owe: each joiner an invite of ours still waits for,
    with the first welcome that names it. *)
Fixpoint owed_in (w : MemberWelcome) (js : list (list byte)) (pending : gmap (list byte) (list byte))
  : list (list byte * MemberWelcome) :=
  match js with
  | [] => []
  | j :: js =>
      match pending !! j with
      | Some _ => (j, w) :: owed_in w js (delete j pending)
      | None => owed_in w js pending
      end
  end.
Definition owed_by (evt : ConversationEvent) (pending : gmap (list byte) (list byte))
  : list (list byte * MemberWelcome) :=
  match evt with WelcomeReady w => owed_in w (mw_joiners w) pending | _ => [] end.
Fixpoint owed_welcomes (events : list ConversationEvent) (pending : gmap (list byte) (list byte))
  : list (list byte * MemberWelcome) :=
  match events with
  | [] => []
  | evt :: events => owed_by evt pending ++ owed_welcomes events (drop_joiners (event_joiners evt) pending)
  end.

Definition welcome_envelope (jw : list byte * MemberWelcome) : AddressedEnvelope :=
  invite_envelope (Signer_key jw.1) (InviteGroupV2 (welcome_encode jw.2)).
Definition packet_envelope (out : Outbound) : AddressedEnvelope :=
  into_envelope (v2_delivery_address (ob_conversation_id out))
    {| encryption := Some (Plaintext (v2_frame_encode
         {| v2f_payload := Some (DeMlsWrapper (ob_payload out)); v2f_sender_app_id := ob_sender out |})) |}
    (ob_conversation_id out).

Lemma owed_in_spec w js pending :
  NoDup (owed_in w js pending).*1 ∧
  ∀ j w', (j, w') ∈ owed_in w js pending ↔ w' = w ∧ j ∈ js ∧ is_Some (pending !! j).
Proof.
  revert pending. induction js as [|x js IH]; intros pending; cbn [owed_in].
  { split; [constructor|]. set_solver. }
  destruct (pending !! x) as [cred|] eqn:Hx.
  - destruct (IH (delete x pending)) as [Hnd Hin]. split.
    + cbn. constructor; [|done]. intros ([j w'] & [= <-] & [_ [_ [c Hc]]]%Hin)%list_elem_of_fmap.
      by rewrite lookup_delete_eq in Hc.
    + intros j w'. rewrite elem_of_cons, Hin, elem_of_cons. destruct (decide (j = x)) as [->|Hj].
      * rewrite lookup_delete_eq, Hx. split; [intros [[= ->]|(_ & _ & [? [=]])]; eauto|].
        intros (-> & _). by left.
      * rewrite lookup_delete_ne by done. naive_solver.
  - destruct (IH pending) as [Hnd Hin]. split; [done|]. intros j w'. rewrite Hin, elem_of_cons.
    split; [naive_solver|]. intros (-> & [->|?] & Hs); [|done]. rewrite Hx in Hs. by destruct Hs.
Qed.

(** Every pending joiner a welcome names is owed one, and one only. *)
Lemma owed_welcomes_spec events pending :
  NoDup (owed_welcomes events pending).*1 ∧
  (∀ j, j ∈ (owed_welcomes events pending).*1 ↔ is_Some (pending !! j) ∧ j ∈ flat_map event_joiners events) ∧
  ∀ j w, (j, w) ∈ owed_welcomes events pending → WelcomeReady w ∈ events ∧ j ∈ mw_joiners w.
Proof.
  revert pending. induction events as [|evt events IH]; intros pending; cbn [owed_welcomes flat_map].
  { split_and!; [constructor| |]; set_solver. }
  destruct (IH (drop_joiners (event_joiners evt) pending)) as (Hnd & Hin & Hw).
  assert (NoDup (owed_by evt pending).*1 ∧
    (∀ j, j ∈ (owed_by evt pending).*1 ↔ is_Some (pending !! j) ∧ j ∈ event_joiners evt) ∧
    ∀ j w, (j, w) ∈ owed_by evt pending → WelcomeReady w = evt ∧ j ∈ mw_joiners w) as (Hnd1 & Hin1 & Hw1).
  { destruct evt as [w| | | | |]; cbn; [|split_and!; [constructor| |]; set_solver..].
    destruct (owed_in_spec w (mw_joiners w) pending) as [? Hin']. split_and!; [done| |naive_solver].
    intros j. rewrite list_elem_of_fmap. split; [intros ([j' w'] & -> & ?%Hin'); naive_solver|].
    intros [? ?]. exists (j, w). split; [done|]. by apply Hin'. }
  rewrite fmap_app. split_and!.
  - apply NoDup_app. split_and!; [done| |done]. intros j [_ Hj]%Hin1 [Hs _]%Hin.
    rewrite drop_joiners_lookup in Hs. case_decide; [by destruct Hs|done].
  - intros j. rewrite !elem_of_app, Hin1, Hin, drop_joiners_lookup.
    case_decide as Hj; [|tauto]. split; [intros [[? ?]|[[? [=]] _]]; auto|]. tauto.
  - intros j w. rewrite elem_of_app, elem_of_cons. intros [[-> ?]%Hw1|[? ?]%Hw]; auto.
Qed.

(** The state around the transport and the bookkeeping. *)
Definition rest_same (s s' : V2) : Prop :=
  v2_conversation s'.2 = v2_conversation s.2 ∧ v2_convo_id s'.2 = v2_convo_id s.2 ∧
  cx_wakeup s'.1 = cx_wakeup s.1.

Lemma route_joiner_eq w j cx c :
  route_joiner w j (cx, c) =
  match v2_pending_invites c !! j with
  | None => ((cx, c), Ok ())
  | Some _ =>
      let '(d, r) := ds_publish (cx_ds cx) (welcome_envelope (j, w)) in
      ((set_ds d cx, set_pending (delete j (v2_pending_invites c)) c),
       map_err Error (map_err ChatError.Generic r))
  end.
Proof.
  unfold route_joiner, mbind, st_bind, get. cbv beta iota.
  destruct (v2_pending_invites c !! j); [|done]. unfold modify, invite_user_v2, step.
  cbv beta iota. unfold welcome_envelope. cbn [fst snd]. by destruct (ds_publish _ _).
Qed.

Lemma for_each_cons {S X} (x : X) xs (body : X → St S ()) st :
  for_each (x :: xs) body st =
  match body x st with
  | (st', Ok _) => for_each xs body st'
  | (st', Err e) => (st', Err e)
  end.
Proof. done. Qed.

(** How an operation ends when the transport took everything, or refused. *)
Definition sent_result {X} (refused : option string) (x : X) : result Fault X :=
  match refused with None => Ok x | Some e => Err (Error (ChatError.Generic e)) end.

Lemma route_joiners_spec w js s :
  let '(s', r) := for_each js (route_joiner w) s in
  let '(d, refused) := publish_all (map welcome_envelope (owed_in w js (v2_pending_invites s.2))) (cx_ds s.1) in
  cx_ds s'.1 = d ∧ r = sent_result refused () ∧
  v2_pending_invites s'.2 ⊆ v2_pending_invites s.2 ∧
  v2_member_directory s'.2 = v2_member_directory s.2 ∧ rest_same s s' ∧
  (refused = None → v2_pending_invites s'.2 = drop_joiners js (v2_pending_invites s.2)).
Proof.
  revert s. induction js as [|j js IH]; intros [cx c]; [done|].
  rewrite for_each_cons, route_joiner_eq. cbn [owed_in snd fst].
  destruct (v2_pending_invites c !! j) as [cred|] eqn:Hj.
  - cbn [map publish_all]. destruct (ds_publish _ _) as [d [[]|err]] eqn:Hp; cbn [map_err].
    + match goal with |- context [for_each js _ ?s1] => specialize (IH s1) end.
      destruct (for_each js (route_joiner w) _) as [s' r]. cbn [fst snd v2_pending_invites set_pending cx_ds set_ds] in *.
      destruct (publish_all _ _) as [d' refused]. destruct IH as (H1 & H2 & H3 & H4 & H5 & H6).
      split_and!; try done. etrans; [exact H3|]. apply delete_subseteq.
    + cbn. split_and!; try done. apply delete_subseteq.
  - specialize (IH (cx, c)). destruct (for_each js (route_joiner w) (cx, c)) as [s' r].
    cbn [fst snd] in *. destruct (publish_all _ _) as [d' refused].
    destruct IH as (H1 & H2 & H3 & H4 & H5 & H6). split_and!; try done.
    intros Hr. rewrite (H6 Hr). cbn. by rewrite delete_id.
Qed.

Lemma route_event_spec evt s :
  let '(s', r) := route_event evt s in
  let '(d, refused) := publish_all (map welcome_envelope (owed_by evt (v2_pending_invites s.2))) (cx_ds s.1) in
  cx_ds s'.1 = d ∧ r = sent_result refused () ∧
  v2_pending_invites s'.2 ⊆ v2_pending_invites s.2 ∧ rest_same s s' ∧
  (refused = None →
   v2_pending_invites s'.2 = drop_joiners (event_joiners evt) (v2_pending_invites s.2) ∧
   v2_member_directory s'.2 = event_directory evt (v2_member_directory s.2)).
Proof.
  destruct evt as [w|added removed| | | |]; cbn [route_event owed_by]; [|by destruct s as [cx c]; cbn..].
  pose proof (route_joiners_spec w (mw_joiners w) s) as Hw.
  destruct (for_each (mw_joiners w) (route_joiner w) s) as [s1 r1]. destruct (publish_all _ _) as [d refused].
  destruct Hw as (H1 & H2 & H3 & H4 & H5 & H6). split_and!; try done. intros Hr. split; [auto|done].
Qed.

(** Routing a drain of events. *)
Lemma route_events_spec events s :
  let '(s', r) := for_each events route_event s in
  let '(d, refused) := publish_all (map welcome_envelope (owed_welcomes events (v2_pending_invites s.2))) (cx_ds s.1) in
  cx_ds s'.1 = d ∧ r = sent_result refused () ∧
  v2_pending_invites s'.2 ⊆ v2_pending_invites s.2 ∧ rest_same s s' ∧
  (refused = None →
   v2_pending_invites s'.2 = drop_joiners (flat_map event_joiners events) (v2_pending_invites s.2) ∧
   v2_member_directory s'.2 = fold_left (λ d e, event_directory e d) events (v2_member_directory s.2)).
Proof.
  revert s. induction events as [|evt events IH]; intros s; [done|].
  rewrite for_each_cons. cbn [owed_welcomes]. rewrite map_app, publish_all_app.
  pose proof (route_event_spec evt s) as Hone. destruct (route_event evt s) as [s1 r1].
  destruct (publish_all (map welcome_envelope (owed_by evt _)) _) as [d1 refused1].
  destruct Hone as (<- & -> & H3 & (H4a & H4b & H4c) & H5). destruct refused1 as [e|]; cbn [sent_result]; [done|].
  destruct (H5 eq_refl) as [H5a H5b]. specialize (IH s1). rewrite H5a in IH.
  destruct (for_each events route_event s1) as [s' r]. destruct (publish_all _ _) as [d refused].
  destruct IH as (K1 & K2 & K3 & (K4a & K4b & K4c) & K5). rewrite <- H5a in K3. split_and!; try done.
  - by etrans.
  - split_and!; congruence.
  - intros Hr. destruct (K5 Hr) as [K5a K5b]. cbn [flat_map fold_left]. split; [|congruence].
    rewrite K5a. unfold drop_joiners. by rewrite fold_left_app.
Qed.

Lemma publish_outbounds_spec outbound s :
  let '(s', r) := for_each outbound publish_outbound s in
  let '(d, refused) := publish_all (map packet_envelope outbound) (cx_ds s.1) in
  cx_ds s'.1 = d ∧ r = sent_result refused () ∧ s'.2 = s.2 ∧ cx_wakeup s'.1 = cx_wakeup s.1.
Proof.
  revert s. induction outbound as [|out outbound IH]; intros [cx c]; [done|].
  rewrite for_each_cons. cbn [map publish_all fst]. unfold publish_outbound at 1, step, packet_envelope at 1.
  destruct (ds_publish _ _) as [d [[]|err]]; cbn [map_err]; [|done].
  specialize (IH (set_ds d cx, c)). destruct (for_each outbound _ _) as [s' r]. cbn [fst cx_ds set_ds] in IH.
  by destruct (publish_all _ _).
Qed.

Lemma after_op_spec cx c :
  let '(k1, events) := dm_drain_events (v2_conversation c) in
  let '(k2, outbound) := dm_drain_outbound k1 in
  let '(s', r) := after_op (cx, c) in
  let '(d, refused) := publish_all (map welcome_envelope (owed_welcomes events (v2_pending_invites c)) ++
                                    map packet_envelope outbound) (cx_ds cx) in
  cx_ds s'.1 = d ∧ r = sent_result refused events ∧
  v2_pending_invites s'.2 ⊆ v2_pending_invites c ∧ v2_conversation s'.2 = k2 ∧
  match refused with
  | Some _ => cx_wakeup s'.1 = cx_wakeup cx
  | None =>
      v2_pending_invites s'.2 = drop_joiners (flat_map event_joiners events) (v2_pending_invites c) ∧
      v2_member_directory s'.2 =
        fold_left (λ d e, event_directory e d) events (v2_member_directory c) ∧
      cx_wakeup s'.1 = match dm_next_wakeup (cx_provider cx) k2 with
                       | Some ms => wakeup_in (cx_wakeup cx) ms (v2_convo_id c)
                       | None => cx_wakeup cx
                       end
  end.
Proof.
  destruct (dm_drain_events (v2_conversation c)) as [k1 events] eqn:He.
  destruct (dm_drain_outbound k1) as [k2 outbound] eqn:Ho.
  unfold after_op, mbind, st_bind, get, modify. cbv beta iota zeta. rewrite He, Ho, publish_all_app.
  pose proof (route_events_spec events (cx, set_conversation k2 c)) as H1.
  destruct (for_each events route_event _) as [s1 r1]. cbn [fst snd v2_pending_invites set_conversation] in H1.
  destruct (publish_all (map welcome_envelope _) _) as [d1 refused1].
  destruct H1 as (<- & -> & P2 & (P3a & P3b & P3c) & P4). destruct refused1 as [e|]; cbn [sent_result]; [done|].
  destruct (P4 eq_refl) as [P4a P4b]. pose proof (publish_outbounds_spec outbound s1) as H2.
  destruct (for_each outbound publish_outbound s1) as [s2 r2].
  destruct (publish_all (map packet_envelope _) _) as [d2 refused2].
  destruct H2 as (<- & -> & Q2 & Q3). destruct s2 as [cx2 c2]. cbn in Q2, Q3. subst c2.
  destruct refused2 as [e|]; cbn [sent_result]; [split_and!; try done; cbn in *; congruence|].
  cbn in *. split_and!; try done; [by destruct (dm_next_wakeup _ _)|].
  destruct (dm_next_wakeup (cx_provider cx) k2); cbn; congruence.
Qed.

(** C18. What an operation on a GroupV2 conversation does once the library is
    done. The library's queues are drained, and the envelopes offered to the
    transport are exactly the welcomes owed, one to each joiner this
    conversation invited and a welcome names, and then every packet the
    library queued, in order, up to the first the transport refuses: its error
    is then what the operation answers, and the wake-up is not re-armed. Only
    when nothing is refused is every event handed on; the invites left are
    then those no welcome names, the directory has every membership change
    applied in order, and the wake-up is re-armed exactly when the library asks
    for one. Invites only ever go away. *)
Theorem v2_after_op_exact cx c :
  let '(k1, events) := dm_drain_events (v2_conversation c) in
  let '(k2, outbound) := dm_drain_outbound k1 in
  let '(s', r) := after_op (cx, c) in
  let owed := owed_welcomes events (v2_pending_invites c) in
  let '(d, refused) := publish_all (map welcome_envelope owed ++ map packet_envelope outbound) (cx_ds cx) in
  (NoDup owed.*1 ∧
   (∀ j, j ∈ owed.*1 ↔ is_Some (v2_pending_invites c !! j) ∧ j ∈ flat_map event_joiners events) ∧
   ∀ j w, (j, w) ∈ owed → WelcomeReady w ∈ events ∧ j ∈ mw_joiners w) ∧
  cx_ds s'.1 = d ∧ r = sent_result refused events ∧
  v2_pending_invites s'.2 ⊆ v2_pending_invites c ∧ v2_conversation s'.2 = k2 ∧
  match refused with
  | Some _ => cx_wakeup s'.1 = cx_wakeup cx
  | None =>
      (∀ j, v2_pending_invites s'.2 !! j =
        if decide (j ∈ flat_map event_joiners events) then None else v2_pending_invites c !! j) ∧
      v2_member_directory s'.2 =
        fold_left (λ d e, event_directory e d) events (v2_member_directory c) ∧
      cx_wakeup s'.1 = match dm_next_wakeup (cx_provider cx) k2 with
                       | Some ms => wakeup_in (cx_wakeup cx) ms (v2_convo_id c)
                       | None => cx_wakeup cx
                       end
  end.
Proof.
  pose proof (after_op_spec cx c) as H. destruct (dm_drain_events _) as [k1 events].
  destruct (dm_drain_outbound k1) as [k2 outbound]. destruct (after_op (cx, c)) as [s' r]. cbv zeta.
  destruct (publish_all _ _) as [d refused]. destruct H as (H1 & H2 & H3 & H4 & H5).
  split; [apply owed_welcomes_spec|]. split_and!; try done. destruct refused; [done|].
  destruct H5 as (-> & H6 & H7). split_and!; try done. intros j. apply drop_joiners_lookup.
Qed.

(** A welcome that cannot be published is lost: the invite was struck off
    before the attempt, so when the transport refuses the welcome the joiner
    is neither welcomed nor pending any more, what the library had queued is
    drained and never published, and the wake-up is not re-armed. *)
Theorem v2_failed_welcome_lost cx c k1 events w j js cred k2 outbound d e :
  dm_drain_events (v2_conversation c) = (k1, WelcomeReady w :: events) →
  mw_joiners w = j :: js → v2_pending_invites c !! j = Some cred →
  dm_drain_outbound k1 = (k2, outbound) →
  ds_publish (cx_ds cx) (invite_envelope (Signer_key j) (InviteGroupV2 (welcome_encode w)))
    = (d, Err e) →
  after_op (cx, c) =
    ((set_ds d cx, set_pending (delete j (v2_pending_invites c)) (set_conversation k2 c)),
     Err (Error (ChatError.Generic e))).
Proof.
  intros He Hj Hc Ho Hd. unfold after_op, mbind, st_bind, get, modify. cbv beta iota zeta.
  rewrite He, Ho, for_each_cons. cbn [route_event]. rewrite Hj, for_each_cons, route_joiner_eq.
  cbn [v2_pending_invites set_conversation]. rewrite Hc. unfold welcome_envelope. cbn [fst snd]. rewrite Hd. done.
Qed.

(** ** Invites *)

(** A signer's key package that passed every check: it is the requested
    signer's, vouched for, and its HPKE key has the expected length. *)
Definition vetted_package (registry : RS) (s : SignerKey) (m : FetchedMember) : Prop :=
  ∃ unchecked kp,
    rs_retrieve registry (signer_to_string s) = Ok (Some (fm_key_package m)) ∧
    kp_deserialize (fm_key_package m) = Ok unchecked ∧ kp_validate unchecked = Ok kp ∧
    kp_signature_key kp = signer_bytes s ∧ fm_signature_key m = signer_bytes s ∧
    fm_credential m = kp_credential kp ∧
    N.of_nat (length (kp_init_key kp)) = HPKE_PUBLIC_KEY_LEN ∧
    vouched s (Participant (fm_credential m)).

Lemma fetch_member_Ok registry (s : SignerKey) m :
  fetch_member registry s = Ok m → vetted_package registry s m.
Proof.
  unfold fetch_member. destruct (rs_retrieve _ _) as [[b|]|] eqn:Hr; cbn [mbind result_bind map_err ok_or]; try done.
  destruct (kp_deserialize b) as [u|] eqn:Hd; cbn [mbind result_bind map_err]; [|done].
  destruct (kp_validate u) as [kp|] eqn:Hv; cbn [mbind result_bind map_err]; [|done].
  destruct (check_hpke_public_key (kp_init_key kp)) as [[]|] eqn:Hh; cbn [mbind result_bind]; [|done].
  case_bool_decide as Hk; cbn [negb]; [|done].
  destruct (require_valid _) as [a|] eqn:Ha; cbn [mbind result_bind ok_or]; [|done].
  intros [= <-]. apply require_valid_Some in Ha as [_ Ha]. exists u, kp. cbn [fm_key_package
    fm_signature_key fm_credential] in *. split_and!; try done.
  - by apply check_hpke_public_key_Ok.
  - unfold vouched. cbn in Ha. rewrite Hk in Ha. by destruct s.
Qed.

Lemma add_loop_pending existing l added s key cred :
  v2_pending_invites (add_loop existing l added s).1.2 !! key = Some cred →
  v2_pending_invites s.2 !! key = Some cred ∨
  ∃ m, m ∈ l ∧ key = fm_signature_key m ∧ cred = fm_credential m ∧ key ∉ existing.
Proof.
  revert added s. induction l as [|m l IH]; intros added [cx c]; [by left|]. cbn [add_loop].
  assert (∀ added s', v2_pending_invites (add_loop existing l added s').1.2 !! key = Some cred →
    (∀ x, v2_pending_invites s'.2 !! key = Some x →
      v2_pending_invites c !! key = Some x ∨
      key = fm_signature_key m ∧ x = fm_credential m ∧ key ∉ existing) →
    v2_pending_invites c !! key = Some cred ∨
    ∃ m', m' ∈ m :: l ∧ key = fm_signature_key m' ∧ cred = fm_credential m' ∧ key ∉ existing) as Hgo.
  { intros a s' H Hs. apply IH in H as [H|(m' & Hm' & H)].
    - destruct (Hs _ H) as [?|?]; [by left|]. right. exists m. split; [by left|done].
    - right. exists m'. split; [by right|done]. }
  case_decide as Hex; [intros H; eapply Hgo; [exact H|]; auto|].
  unfold mbind, st_bind, modify, v2_on, step. cbv beta iota zeta.
  destruct (dm_add_member _ _ _ _) as [[p k] [[]|err]]; cbn [map_err].
  - intros H. eapply Hgo; [exact H|]. cbn. intros x [[<- <-]|[_ ?]]%lookup_insert_Some; auto.
  - assert (∀ x, (delete (fm_signature_key m) (<[fm_signature_key m := fm_credential m]>
        (v2_pending_invites c))) !! key = Some x → v2_pending_invites c !! key = Some x) as Hdel.
    { intros x [Hne H]%lookup_delete_Some. by rewrite lookup_insert_ne in H. }
    destruct err; [|by cbn; intros H; left; apply Hdel..].
    intros H. eapply Hgo; [exact H|]. cbn. intros x Hx. left. by apply Hdel.
Qed.

Lemma after_op_pending s : v2_pending_invites (after_op s).1.2 ⊆ v2_pending_invites s.2.
Proof.
  destruct s as [cx c]. pose proof (after_op_spec cx c) as H.
  destruct (dm_drain_events (v2_conversation c)) as [k1 events].
  destruct (dm_drain_outbound k1) as [k2 outbound]. destruct (after_op (cx, c)).
  destruct (publish_all _ _). apply H.
Qed.

Lemma fetched_vetted registry members fetched m :
  Forall2 (vetted_package registry) (unique members) fetched → m ∈ fetched →
  ∃ s : SignerKey, s ∈ members ∧ vetted_package registry s m ∧ fm_signature_key m = signer_bytes s.
Proof.
  intros Hv [i Hi]%list_elem_of_lookup.
  destruct (Forall2_lookup_r _ _ _ _ _ Hv Hi) as (s & Hs & Hvet). exists s.
  split_and!; [|done|by destruct Hvet as (?&?&?&?&?&?&?&?)].
  apply unique_elem. by eapply list_elem_of_lookup_2.
Qed.

(** Only vetted signers are ever invited to a GroupV2 conversation. A
    batch whose key packages cannot all be fetched and checked changes
    nothing; otherwise every invite pending afterwards was pending before or
    is one of the requested signers, not seated yet, whose key package is
    bound to its key, vouched for and carries an HPKE key of the right length. *)
Theorem v2_pending_only_vetted members cx c :
  let '(s', r) := v2_add_signer members (cx, c) in
  match fetch_members (cx_registry cx) members with
  | Err e => s' = (cx, c) ∧ r = Err (Error e)
  | Ok fetched =>
      Forall2 (vetted_package (cx_registry cx)) (unique members) fetched ∧
      ∀ key cred, v2_pending_invites s'.2 !! key = Some cred →
        v2_pending_invites c !! key = Some cred ∨
        ∃ m (s : SignerKey), m ∈ fetched ∧ s ∈ members ∧ vetted_package (cx_registry cx) s m ∧
          key = signer_bytes s ∧ cred = fm_credential m ∧
          (key ∉ map m_signature_key (dm_members (v2_conversation c)))
  end.
Proof.
  unfold v2_add_signer, mbind, st_bind, get, lift. cbv beta iota zeta.
  destruct (fetch_members (cx_registry cx) members) as [fetched|e] eqn:Hf; cbn [map_err]; [|done].
  apply collect_Ok in Hf.
  assert (Forall2 (vetted_package (cx_registry cx)) (unique members) fetched) as Hv
    by (eapply Forall2_impl; [exact Hf|]; intros; by apply fetch_member_Ok).
  match goal with |- context [add_loop ?ex fetched false ?s] =>
    pose proof (add_loop_pending ex fetched false s) as Hl;
    destruct (add_loop ex fetched false s) as [s1 [[added res]|e]] end.
  - match goal with |- let '(s', r) := match ?m with _ => _ end in _ =>
      assert (∃ s2, m = (s2, Ok ()) ∧ v2_pending_invites s2.2 = v2_pending_invites s1.2)
        as (s2 & -> & H2) end.
    { destruct added; [|by exists s1]. destruct s1 as [cx1 c1]. unfold v2_poll, v2_on, step.
      destruct (dm_poll _ _ _) as [p k]. by eexists. }
    unfold v2_flush. pose proof (after_op_pending s2) as Ha. destruct (after_op s2) as [s3 r3].
    split; [done|]. intros key cred Hk. cbn in Ha.
    assert (v2_pending_invites s1.2 !! key = Some cred) as Hk1
      by (rewrite <- H2; by eapply lookup_weaken).
    destruct (Hl key cred Hk1) as [?|(m & Hm & -> & -> & Hex)]; [by left|right].
    destruct (fetched_vetted _ _ _ _ Hv Hm) as (s & Hs & Hvet & Hkey). exists m, s.
    split_and!; try done. intros Hin. apply Hex. by apply elem_of_list_to_set.
  - split; [done|]. intros key cred Hk. destruct (Hl key cred Hk) as [?|(m & Hm & -> & -> & Hex)]; [by left|right].
    destruct (fetched_vetted _ _ _ _ Hv Hm) as (s & Hs & Hvet & Hkey). exists m, s.
    split_and!; try done. intros Hin. apply Hex. by apply elem_of_list_to_set.
Qed.

(** ** What reaches the application *)

(** The content a drain of events may surface. *)
Definition v2_content (events : list ConversationEvent) (ct : Content) : Prop :=
  ∃ message sender reliable,
    first_message events = Some (message, sender) ∧ reliable_decode message = Ok reliable ∧
    vouched (Signer_key (m_signature_key sender)) (Participant (m_credential sender)) ∧
    ct = {| ct_bytes := p_content reliable;
            ct_sender := Authenticated
              (signer_from_leaf (m_signature_key sender) (m_credential sender));
            ct_message_id := p_message_id reliable |}.

Lemma outcome_from_events_spec events s s' out :
  outcome_from_events events s = (s', Ok out) →
  co_convo_id out = v2_convo_id s.2 ∧
  ∃ content : option Content,
    observations out = map ObsContent (option_list content) ++
      (if existsb changes_signers events then [SignersChanged] else []) ∧
    ∀ ct, content = Some ct ↔ v2_content events ct.
Proof.
  destruct s as [cx c]. unfold outcome_from_events.
  intros (s1 & [cx1 c1] & [= <- <- <-] & (s2 & ct & H & [= _ <-])%st_bind_Ok)%st_bind_Ok.
  split; [done|]. exists ct. split; [done|]. intros ct'. unfold v2_content.
  destruct (first_message events) as [[message sender]|] eqn:Hf; [|injection H as _ <-; split; [done|naive_solver]].
  apply st_bind_Ok in H as (s3 & reliable & H3 & H). unfold lift in H3.
  injection H3 as _ Hr%map_err_Ok%map_err_Ok.
  apply st_bind_Ok in H as (s4 & [] & _ & H). injection H as _ H.
  change (content_from (Some sender) reliable = ct) in H. rewrite <- H, content_from_Some. split.
  - intros (leaf & [= <-] & Hv & ->). by exists message, sender, reliable.
  - intros (m & sd & rl & [= <- <-] & Hr' & Hv & ->). rewrite Hr in Hr'. injection Hr' as <-. by exists sender.
Qed.

(** C19. A payload surfaces exactly what the library's events of this one payload
    say: a conversation we are no longer seated in, or a frame that is not the
    library's, is answered empty and changes nothing; otherwise the frame is
    handed to the library as it came, and the observations are the content of
    the first message among its events, exactly when it decodes and the auth
    service vouches for the member that sent it, and after it a membership
    notice exactly when an event changes who is seated. *)
Theorem v2_content_authentic payload cx c s' out :
  v2_handle_payload payload (cx, c) = (s', Ok out) →
  co_convo_id out = v2_convo_id c ∧
  ∃ bytes, encrypted_decode payload = Ok {| encryption := Some (Plaintext bytes) |} ∧
  if is_member c then
    ∃ frame, v2_frame_decode bytes = Ok frame ∧
    match v2f_payload frame with
    | Some (DeMlsWrapper inner) =>
        ∃ p1 k1 p2 k2 k3 events content,
          dm_process (cx_provider cx) (cx_identity cx) (v2_conversation c) (v2f_sender_app_id frame) inner
            = (p1, k1, Ok ()) ∧
          dm_poll p1 (cx_identity cx) k1 = (p2, k2) ∧ dm_drain_events k2 = (k3, events) ∧
          observations out = map ObsContent (option_list content) ++
            (if existsb changes_signers events then [SignersChanged] else []) ∧
          ∀ ct, content = Some ct ↔ v2_content events ct
    | _ => s' = (cx, c) ∧ observations out = []
    end
  else s' = (cx, c) ∧ observations out = [].
Proof.
  intros Hh. split; [by eapply v2_handle_payload_id|]. revert Hh.
  unfold v2_handle_payload. intros (s1 & enc & H1 & H)%st_bind_Ok.
  injection H1 as <- Henc%map_err_Ok%map_err_Ok.
  apply st_bind_Ok in H as (s2 & bytes & H2 & H). injection H2 as <- H2%map_err_Ok.
  apply st_bind_Ok in H as (s3 & [cx3 c3] & [= <- <- <-] & H). cbv beta iota zeta in H.
  assert (enc = {| encryption := Some (Plaintext bytes) |}) as ->.
  { destruct enc as [[[b|]|]]; cbn in H2; try done. by injection H2 as ->. }
  exists bytes. split; [done|]. destruct (is_member c); cbn [negb] in H; [|by injection H as <- <-].
  apply st_bind_Ok in H as (s4 & fr & H4 & H). injection H4 as <- Hfr%map_err_Ok%map_err_Ok.
  exists fr. split; [done|]. destruct (v2f_payload fr) as [[inner|?]|] eqn:Hw; [|by injection H as <- <-..].
  apply st_bind_Ok in H as (s5 & [] & H5 & H). apply st_bind_Ok in H as (s6 & [] & H6 & H).
  apply st_bind_Ok in H as (s7 & evs & H7 & H). unfold v2_on, step in H5.
  destruct (dm_process _ _ _ _ _) as [[p1 k1] r1] eqn:Hp. injection H5 as <- Hr%map_err_Ok%map_err_Ok.
  subst r1. unfold v2_poll, v2_on, step in H6. cbn in H6.
  destruct (dm_poll p1 (cx_identity cx) k1) as [p2 k2] eqn:Hpoll. injection H6 as <-.
  apply outcome_from_events_spec in H as (_ & content & Hobs & Hct).
  exists p1, k1, p2, k2. match type of H7 with after_op (?cx6, ?c6) = _ => pose proof (after_op_spec cx6 c6) as Ha end.
  cbn in Ha. destruct (dm_drain_events k2) as [k3 events] eqn:Hev.
  destruct (dm_drain_outbound k3) as [k4 outbound]. rewrite H7 in Ha.
  destruct (publish_all _ _) as [d [|]]; destruct Ha as (_ & [= ->] & _). by exists k3, events, content.
Qed.
End group_v2.

(** ** Witnesses *)

(** A's text as it reaches B. *)
Definition demo_v2_payload : list byte :=
  encrypted_encode (Prost := prost_ref) {| encryption := Some (Plaintext
    (v2_frame_encode (ProstV2 := prost_v2_ref)
      {| v2f_payload := Some (DeMlsWrapper (reliable_encode (Prost := prost_ref)
           (on_send (B := blake_toy) (HX := hex_ref) store_new "0c" (Signer_key [x61]) [x68]).2));
         v2f_sender_app_id := [x61] |})) |}.
Definition demo_v2_received :=
  v2_handle_payload (HX := hex_ref) (B := blake_toy) (PB := prost_ref) (PB2 := prost_v2_ref)
    (DM := demls_ref) (DSI := outbox) (WSI := wakeup_ref) (A := auth_ref) demo_v2_payload
    (context_of ident_b ([] : list AddressedEnvelope), v2_ab 1).
Definition demo_v2_outcome : ConvoOutcome :=
  match demo_v2_received.2 with Ok out => out | Err _ => outcome_empty "" end.

Lemma v2_content_authentic_witness :
  length (observations demo_v2_outcome) = 1 ∧ co_convo_id demo_v2_outcome = "0c"%string.
Proof.
  split; [vm_compute; reflexivity|].
  apply (v2_content_authentic (HX := hex_ref) (B := blake_toy) (PB := prost_ref)
    (PB2 := prost_v2_ref) (DM := demls_ref) (DSI := outbox) (WSI := wakeup_ref) (A := auth_ref)
    demo_v2_payload (context_of ident_b []) (v2_ab 1) demo_v2_received.1).
  vm_compute. reflexivity.
Defined.

(** B invited C, the library has the welcome ready and the transport is down. *)
Definition v2_owing : GroupV2Convo ToyConsensus :=
  set_pending {[ [x63] := [x43] ]} (set_conversation
    (toy_add (v2_conversation (v2_ab 1)) {| tk_key := [x63]; tk_cred := [x43]; tk_init := [] |})
    (v2_ab 1)).

Definition owed : MemberWelcome :=
  {| mw_welcome_bytes := write (td_members (v2_conversation v2_owing)); mw_sync_bytes := [];
     mw_joiners := [[x63]] |}.

Lemma v2_failed_welcome_lost_witness :
  v2_pending_invites v2_owing !! [x63] = Some [x43] ∧
  v2_pending_invites (after_op (HX := hex_ref) (B := blake_toy) (PB := prost_ref)
    (PB2 := prost_v2_ref) (DM := demls_ref) (DSI := down) (WSI := wakeup_ref)
    (context_of ident_b (), v2_owing)).1.2 !! [x63] = None.
Proof.
  split; [reflexivity|].
  rewrite (v2_failed_welcome_lost (HX := hex_ref) (B := blake_toy) (PB := prost_ref)
    (PB2 := prost_v2_ref) (DM := demls_ref) (DSI := down) (WSI := wakeup_ref)
    (context_of ident_b ()) v2_owing
    (dm_drain_events (DeMls := demls_ref) (v2_conversation v2_owing)).1
    (tail (td_events (v2_conversation v2_owing))) owed [x63] [] [x43]
    (dm_drain_outbound (DeMls := demls_ref)
       (dm_drain_events (DeMls := demls_ref) (v2_conversation v2_owing)).1).1 [] () "down");
    [|reflexivity..]. vm_compute. reflexivity.
Defined.
