(* ===== verification/Trace.v ===== *)
(** * Trace records ([core/conversations/src/conversation/mls_trace.rs],
      [mls_trace/record.rs], [conversation/group_v2/trace.rs])

    What a conversation writes to the trace log: the records and how their
    values are rendered, and the records of a GroupV2 conversation, written in
    the middle of its operations. The operations are given again here with the
    records they write; forgetting the records gives back the operations of
    [GroupV2], so that tracing changes nothing, and what a record says of a
    frame is what became of it. *)

From Stdlib Require Import Strings.Byte Strings.String.
From stdpp Require Import base gmap strings numbers pretty list.
From S2P Require Import Prelude Utf8 Hex Ed25519 Identity CausalHistory Storage Delivery Services Text.
From S2P Require Import MlsUtils GroupV1 GroupV3 GroupV2 Reference ConversationTheorems GroupV2Theorems.

(** ** Records *)

Inductive Why : Type := WhyEpoch | WhyDecrypt | WhySender.
Definition why_display (w : Why) : string :=
  match w with WhyEpoch => "epoch" | WhyDecrypt => "decrypt" | WhySender => "sender" end.

Inductive TraceRecord : Type :=
| TrRun (signer : SignerKey) (participant : ParticipantId)
| TrEpoch (epoch : N) (authenticator : list byte) (signers : list Signer)
| TrLeft (epoch : N)
| TrSent (frame : list byte) (epoch : N)
| TrReceived (frame : list byte) (from : SignerKey) (epoch : N)
| TrUnreadable (frame : list byte) (epoch : N) (why : Why).

(** [write!("{byte:02x}")]. *)
Definition hex_digit (n : N) : byte :=
  nth (N.to_nat n) (str_bytes "0123456789abcdef") x00.
Definition hex02 (b : byte) : list byte :=
  [hex_digit (Byte.to_N b / 16)%N; hex_digit (Byte.to_N b mod 16)%N].

Definition is_ascii_alphanumeric (b : byte) : bool :=
  let n := Byte.to_N b in
  ((48 <=? n) && (n <=? 57) || (65 <=? n) && (n <=? 90) || (97 <=? n) && (n <=? 122))%N.

(** [ConvoId], byte by byte. *)
Definition convo_byte (b : byte) : list byte :=
  if is_ascii_alphanumeric b || Byte.eqb b x5f || Byte.eqb b x2d then [b] else x25 :: hex02 b.
Definition convo_word (id : string) : string := bytes_str (flat_map convo_byte (str_bytes id)).

Section records.
Context {HX : Hex} {B : Blake2b}.

Definition frame_id (encoded : list byte) : string :=
  blake2b_hex 32 [str_bytes "logos-chat|frame_id|"; encoded].

(** [state], [Short], [Signers]. *)
Definition epoch_state (authenticator : list byte) : string :=
  blake2b_hex hash_EpochState [str_bytes "report|"; str_bytes "state|"; authenticator].
Definition short (id : list byte) : string := bytes_str (hex_encode (take (length id `min` 4) id)).
Definition member_word (s : Signer) : string :=
  (short (signer_bytes (signer s)) ++ ":" ++ short (participant_bytes (participant_id s)))%string.
Fixpoint signers_word (l : list Signer) : string :=
  match l with
  | [] => ""
  | [s] => member_word s
  | s :: l => (member_word s ++ "," ++ signers_word l)%string
  end.

(** The name and the fields of a record. *)
Definition record_name (r : TraceRecord) : string :=
  match r with
  | TrRun _ _ => "run" | TrEpoch _ _ _ => "epoch" | TrLeft _ => "left" | TrSent _ _ => "sent"
  | TrReceived _ _ _ => "received" | TrUnreadable _ _ _ => "unreadable"
  end.
Definition record_fields (r : TraceRecord) : list (string * string) :=
  match r with
  | TrRun signer participant =>
      [("signer", short (signer_bytes signer)); ("participant", short (participant_bytes participant))]
  | TrEpoch epoch authenticator signers =>
      [("epoch", pretty epoch); ("state", epoch_state authenticator);
       ("members", pretty (N.of_nat (length signers))); ("signers", signers_word signers)]
  | TrLeft epoch => [("epoch", pretty epoch)]
  | TrSent frame epoch => [("frame", frame_id frame); ("epoch", pretty epoch)]
  | TrReceived frame from epoch =>
      [("frame", frame_id frame); ("from", short (signer_bytes from)); ("epoch", pretty epoch)]
  | TrUnreadable frame epoch why =>
      [("frame", frame_id frame); ("epoch", pretty epoch); ("why", why_display why)]
  end%string.
End records.

(** ** What MLS and de-mls tell *)

(** A frame of the group ([Heard]). *)
Record Heard := { heard_frame : list byte; heard_epoch : N; heard_own_epoch : N }.
Definition at_own_epoch (h : Heard) : bool := (heard_epoch h =? heard_own_epoch h)%N.

(** What de-mls made of a frame: it was taken in, or dropped as our own; or it
    failed, for want of decrypting or otherwise. *)
Inductive Processed : Type :=
| Dispatched (dropped : bool)
| Failed (unable_to_decrypt : bool) (e : string).

Definition failed_to_decrypt (p : Processed) : bool :=
  match p with Failed b _ => b | Dispatched _ => false end.

(** The group id and epoch at the head of an MLS message, the epoch of a
    conversation and its authenticator, and what processing a frame says
    besides failing. *)
Class DeMlsTrace (P K : Type) := {
  mls_header : list byte → option (list byte * N);
  dm_epoch : K → result string N;
  dm_epoch_authenticator : K → list byte;
  dm_dispatch : P → Ident → K → list byte → list byte → P * K * Processed;
}.
Definition outcome_of (p : Processed) : result string () :=
  match p with Dispatched _ => Ok () | Failed _ e => Err e end.
Class DeMlsTraceLaws (P K : Type) {DM : DeMls P K} {DT : DeMlsTrace P K} := {
  dm_process_dispatch p ident k app inner :
    dm_process p ident k app inner =
      let '(p, k, r) := dm_dispatch p ident k app inner in (p, k, outcome_of r);
}.

(** ** Operations that write records *)

Definition Tr (S X : Type) : Type := S → S * list TraceRecord * result Fault X.
#[export] Instance tr_ret {S} : MRet (Tr S) := λ X x s, (s, [], Ok x).
#[export] Instance tr_bind {S} : MBind (Tr S) := λ X Y f m s,
  match m s with
  | (s', rs, Ok x) => let '(s'', rs', r) := f x s' in (s'', rs ++ rs', r)
  | (s', rs, Err e) => (s', rs, Err e)
  end.
(** An operation that writes none, and writing some. *)
Definition silent {S X} (m : St S X) : Tr S X := λ s, let '(s', r) := m s in (s', [], r).
Definition writes {S} (f : S → list TraceRecord) : Tr S () := λ s, (s, f s, Ok ()).
(** Forgetting the records. *)
Definition erase {S X} (m : Tr S X) : St S X := λ s, let '(s', _, r) := m s in (s', r).

Section group_v2_trace.
Context {HX : Hex} {B : Blake2b} {PB : Prost} {PB2 : ProstV2} {TC : TlsCodec}.
Context {P G K : Type} {ML : OpenMls P G} {DM : DeMls P K} {DT : DeMlsTrace P K}.
Context {DS : Type} {DSI : DeliveryService DS} {RS : Type} {RSI : RegistrationService RS}.
Context {CS : Type} {WS : Type} {WSI : WakeupService WS} {E : Type} {A : AuthService E}.
(** [record::enabled]. *)
Context (enabled : bool).

Abbreviation CX := (ServiceContext DS RS CS P WS).
Abbreviation V2 := (CX * GroupV2Convo K)%type.

Definition is_seated (c : GroupV2Convo K) (s : SignerKey) : bool := bool_decide (own_signer c = Some s).
Definition v2_epoch (c : GroupV2Convo K) : option N :=
  match dm_epoch (v2_conversation c) with Ok e => Some e | Err _ => None end.
Definition own_epoch (c : GroupV2Convo K) (s : SignerKey) : option N :=
  if negb enabled || negb (is_seated c s) then None else v2_epoch c.

Definition is_leaving (evt : ConversationEvent) : bool := match evt with Leaving => true | _ => false end.

(** [trace::after_op]. *)
Definition trace_after_op (c : GroupV2Convo K) (s : SignerKey) (before : option N)
    (events : list ConversationEvent) : list TraceRecord :=
  if negb enabled then []
  else
    match v2_epoch c with
    | None => []
    | Some epoch =>
        if existsb is_leaving events then [TrLeft epoch]
        else if negb (bool_decide (before = Some epoch)) && is_seated c s then
          [TrEpoch epoch (dm_epoch_authenticator (v2_conversation c)) (v2_signers c)]
        else []
    end.

(** [trace::sent]. *)
Definition trace_sent (own : option N) (post : option (list byte)) : list TraceRecord :=
  match own, post with Some epoch, Some frame => [TrSent frame epoch] | _, _ => [] end.

(** [Heard::of]. *)
Definition heard_of (group_id frame message : list byte) (own : N) : option Heard :=
  '(header_group, epoch) ← mls_header message;
  if decide (header_group = group_id)
  then Some {| heard_frame := frame; heard_epoch := epoch; heard_own_epoch := own |} else None.

Definition unreadable_record (h : Heard) (why : Why) : TraceRecord :=
  TrUnreadable (heard_frame h) (heard_epoch h) why.

(** [trace::inbound]: the frame as the records name it, and what is written. *)
Definition trace_inbound (c : GroupV2Convo K) (own : option N) (frame inner : list byte) (processed : Processed)
  : option Heard * list TraceRecord :=
  match processed with
  | Dispatched true => (None, [])
  | _ =>
      match (own ← own; heard_of (str_bytes (v2_convo_id c)) frame inner own) with
      | None => (None, [])
      | Some heard =>
          (Some heard,
           match processed with
           | Dispatched _ => if negb (at_own_epoch heard) then [unreadable_record heard WhyEpoch] else []
           | Failed _ _ => if failed_to_decrypt processed then [unreadable_record heard WhyDecrypt] else []
           end)
      end
  end.

Definition is_post (evt : ConversationEvent) : bool :=
  match evt with ConversationMessage (Some _) _ => true | _ => false end.
Fixpoint first_content (l : list Observation) : option Content :=
  match l with
  | [] => None
  | ObsContent c :: _ => Some c
  | _ :: l => first_content l
  end.

(** [trace::read]. *)
Definition trace_read (heard : option Heard) (events : list ConversationEvent) (l : list Observation)
  : list TraceRecord :=
  match heard with
  | None => []
  | Some heard =>
      if existsb is_post events then
        match first_content l with
        | Some c => [TrReceived (heard_frame heard) (signer (auth_inner (ct_sender c))) (heard_epoch heard)]
        | None => [unreadable_record heard WhySender]
        end
      else []
  end.

(** The frame a packet travels as. *)
Definition frame_of (out : Outbound) : list byte :=
  v2_frame_encode {| v2f_payload := Some (DeMlsWrapper (ob_payload out)); v2f_sender_app_id := ob_sender out |}.

Fixpoint publish_frames (outbound : list Outbound) (post : option (list byte)) : Tr V2 (option (list byte)) :=
  match outbound with
  | [] => mret post
  | out :: outbound => _ ← silent (publish_outbound out); publish_frames outbound (Some (frame_of out))
  end.

(** [after_op]: the events, and the last frame published. *)
Definition after_op_traced (before : option N) : Tr V2 (list ConversationEvent * option (list byte)) :=
  '(cx, c) ← silent get;
  let '(k, events) := dm_drain_events (v2_conversation c) in
  let '(k, outbound) := dm_drain_outbound k in
  let wakeup := dm_next_wakeup (cx_provider cx) k in
  _ ← silent (modify (λ '(cx, c), (cx, set_conversation k c)));
  _ ← writes (λ '(cx, c), trace_after_op c (id_signer_key (cx_identity cx)) before events);
  _ ← silent (for_each events route_event);
  post ← publish_frames outbound None;
  _ ← silent (modify (λ '(cx, c),
        (match wakeup with
         | Some d => {| cx_ds := cx_ds cx; cx_registry := cx_registry cx; cx_store := cx_store cx;
                        cx_identity := cx_identity cx; cx_provider := cx_provider cx;
                        cx_causal := cx_causal cx;
                        cx_wakeup := wakeup_in (cx_wakeup cx) d (v2_convo_id c) |}
         | None => cx
         end, c)));
  mret (events, post).

Definition read_epoch : Tr V2 (option N) :=
  '(cx, c) ← silent get; mret (own_epoch c (id_signer_key (cx_identity cx))).

Definition v2_send_traced (content : list byte) : Tr V2 string :=
  '(cx, c) ← silent get;
  let '(i, reliable) := on_send (cx_causal cx) (v2_convo_id c) (id_signer_key (cx_identity cx)) content in
  _ ← silent (modify (λ '(cx, c), (set_causal i cx, c)));
  own ← read_epoch;
  _ ← silent (v2_on (λ p ident k,
    let '(p, k, r) := dm_send_message p ident k (reliable_encode reliable) in
    (p, k, map_err ChatError.DeMlsError r)));
  '(_, post) ← after_op_traced own;
  _ ← writes (λ _, trace_sent own post);
  mret (p_message_id reliable).

(** [process_inbound], with what it says of the frame. *)
Definition v2_dispatch (app inner : list byte) : St V2 Processed := v2_on (λ p ident k,
  let '(p, k, r) := dm_dispatch p ident k app inner in (p, k, Ok r)).

(** The rest of [handle_payload], once the payload is an inner message. *)
Definition v2_frame_traced (bytes app inner : list byte) : Tr V2 ConvoOutcome :=
  own ← read_epoch;
  processed ← silent (v2_dispatch app inner);
  '(_, c) ← silent get;
  let '(heard, written) := trace_inbound c own bytes inner processed in
  _ ← writes (λ _, written);
  _ ← silent (lift (map_err ChatError.DeMlsError (outcome_of processed)));
  _ ← silent v2_poll;
  '(events, _) ← after_op_traced own;
  outcome ← silent (outcome_from_events events);
  _ ← writes (λ _, trace_read heard events (observations outcome));
  mret outcome.

Definition v2_handle_traced (payload : list byte) : Tr V2 ConvoOutcome :=
  encrypted ← silent (lift (map_err ChatError.DecodeError (encrypted_decode payload)));
  bytes ← silent (lift (match encryption encrypted with
                        | Some (Plaintext bytes) => Ok bytes
                        | _ => Err (ChatError.Generic "Expected plaintext")
                        end));
  '(_, c) ← silent get;
  if negb (is_member c) then mret (outcome_empty (v2_convo_id c))
  else
    frame ← silent (lift (map_err ChatError.Generic (v2_frame_decode bytes)));
    match v2f_payload frame with
    | None | Some (MlsCommitMessage _) => mret (outcome_empty (v2_convo_id c))
    | Some (DeMlsWrapper inner) => v2_frame_traced bytes (v2f_sender_app_id frame) inner
    end.

Definition v2_wakeup_traced : Tr V2 ConvoOutcome :=
  own ← read_epoch;
  _ ← silent v2_poll;
  '(events, _) ← after_op_traced own;
  silent (outcome_from_events events).

Definition v2_flush_traced (own : option N) (r : result ChatError.t ()) : Tr V2 () := λ s,
  let '(s', rs, flushed) := after_op_traced own s in
  (s', rs, match r with
           | Err e => Err (Error e)
           | Ok _ => match flushed with Ok _ => Ok () | Err f => Err f end
           end).

Definition v2_add_traced (members : list SignerKey) : Tr V2 () :=
  '(cx, c) ← silent get;
  members_to_add ← silent (lift (fetch_members (cx_registry cx) members));
  let existing := list_to_set (map m_signature_key (dm_members (v2_conversation c))) in
  own ← read_epoch;
  '(added, result) ← silent (add_loop existing members_to_add false);
  _ ← (if (added : bool) then silent v2_poll else mret ());
  v2_flush_traced own result.

Definition v2_remove_traced (members : list SignerKey) : Tr V2 () :=
  '(_, c) ← silent get;
  if (match own_signer c with Some me => bool_decide (me ∈ members) | None => false end) then
    silent (fail ChatError.CannotRemoveSelf)
  else
    let targets := seats_of c members in
    if decide (targets = []) then silent (fail ChatError.NotAGroupMember)
    else own ← read_epoch; result ← silent (remove_loop targets); v2_flush_traced own result.
End group_v2_trace.

(** ** Forgetting the records *)

Definition result_map {E X Y} (h : X → Y) (r : result E X) : result E Y :=
  match r with Ok x => Ok (h x) | Err e => Err e end.

Section erasing.
Context {S : Type}.

(** [m] does what [n] does, and answers what [n] does through [h]. *)
Definition erases {X Y} (h : X → Y) (m : Tr S X) (n : St S Y) : Prop :=
  ∀ s, n s = ((erase m s).1, result_map h (erase m s).2).

Lemma erases_ret {X Y} (h : X → Y) (x : X) : erases h (mret x) (mret (h x)).
Proof. done. Qed.
Lemma erases_silent {X} (m : St S X) : erases id (silent m) m.
Proof. intros s. unfold erase, silent. by destruct (m s) as [? []]. Qed.
Lemma erases_bind {X X' Y Y'} (h' : X → X') (h : Y → Y') (m : Tr S X) n (f : X → Tr S Y) g :
  erases h' m n → (∀ x, erases h (f x) (g (h' x))) → erases h (m ≫= f) (n ≫= g).
Proof.
  intros Hm Hf s. specialize (Hm s). unfold erase in *. unfold mbind, tr_bind, st_bind. rewrite Hm.
  destruct (m s) as [[s' rs] [x|e]]; [|done]. specialize (Hf x s'). unfold erase in Hf.
  destruct (f x s') as [[s'' rs'] r]. exact Hf.
Qed.
Lemma erases_last {X} (m : St S X) (f : X → Tr S X) :
  (∀ x, erases id (f x) (mret x)) → erases id (silent m ≫= f) m.
Proof.
  intros Hf s. unfold erase, silent, mbind, tr_bind. destruct (m s) as [s' [x|e]]; [|done].
  specialize (Hf x s'). unfold erase in Hf. destruct (f x s') as [[s'' rs] r]. exact Hf.
Qed.
(** What leaves the state alone is seen by nobody. *)
Lemma erases_unseen {X Y Y'} (h : Y → Y') (m : Tr S X) (f : X → Tr S Y) n :
  (∀ s, ∃ rs x, m s = (s, rs, Ok x)) → (∀ x, erases h (f x) n) → erases h (m ≫= f) n.
Proof.
  intros Hm Hf s. destruct (Hm s) as (rs & x & Hs). specialize (Hf x s). unfold erase in *.
  unfold mbind, tr_bind. rewrite Hs. by destruct (f x s) as [[s' rs'] r].
Qed.
Lemma writes_unseen (f : S → list TraceRecord) s : ∃ rs x, writes f s = (s, rs, Ok x).
Proof. by eexists _, _. Qed.
Lemma get_unseen s : ∃ rs x, silent (get : St S S) s = (s, rs, Ok x).
Proof. by eexists _, _. Qed.
End erasing.

(** [erasing tac]: walk an operation and the one it erases to. *)
Ltac erasing tac :=
  repeat first
    [ apply erases_ret
    | apply erases_silent
    | apply (erases_unseen _ (writes _)); [apply writes_unseen | intros _]
    | tac
    | apply (erases_bind id); [apply erases_silent | intros ?; unfold id]
    | case_match ].

Section properties.
Context {HX : Hex} {B : Blake2b} {PB : Prost} {PB2 : ProstV2} {TC : TlsCodec}.
Context {P G K : Type} {ML : OpenMls P G} {DM : DeMls P K} {DT : DeMlsTrace P K}.
Context {DS : Type} {DSI : DeliveryService DS} {RS : Type} {RSI : RegistrationService RS}.
Context {CS : Type} {WS : Type} {WSI : WakeupService WS} {E : Type} {A : AuthService E}.
Implicit Types (enabled : bool).

Abbreviation CX := (ServiceContext DS RS CS P WS).
Abbreviation V2 := (CX * GroupV2Convo K)%type.

Lemma read_epoch_unseen enabled (s : V2) : ∃ rs x, read_epoch enabled s = (s, rs, Ok x).
Proof. destruct s. by eexists _, _. Qed.

Lemma publish_frames_erases outbound post :
  erases (λ _, ()) (publish_frames outbound post) (for_each outbound publish_outbound : St V2 ()).
Proof.
  revert post. induction outbound as [|out outbound IH]; intros post; [apply erases_ret|].
  cbn [publish_frames for_each]. apply (erases_bind id); [apply erases_silent|]. intros _. apply IH.
Qed.

Lemma after_op_erases enabled before : erases fst (after_op_traced enabled before) (after_op : St V2 _).
Proof.
  unfold after_op_traced, after_op.
  erasing ltac:(apply (erases_bind (λ _, ())); [apply publish_frames_erases|intros ?]).
Qed.

Ltac erasing_v2 := erasing ltac:(first
  [ apply erases_unseen; [apply read_epoch_unseen | intros ?]
  | apply (erases_bind fst); [apply after_op_erases | intros [? ?]; cbn [fst]] ]).

Lemma v2_send_erases enabled content : erases id (v2_send_traced enabled content) (v2_send_content content : St V2 _).
Proof. unfold v2_send_traced, v2_send_content. erasing_v2. Qed.

Lemma v2_wakeup_erases enabled : erases id (v2_wakeup_traced enabled) (v2_wakeup : St V2 _).
Proof. unfold v2_wakeup_traced, v2_wakeup. erasing_v2. Qed.

Lemma v2_flush_erases enabled own r : erases id (v2_flush_traced enabled own r) (v2_flush r : St V2 _).
Proof.
  intros s. unfold v2_flush, v2_flush_traced, erase. rewrite (after_op_erases enabled own s). unfold erase.
  destruct (after_op_traced enabled own s) as [[s' rs] [[]|]]; by destruct r.
Qed.

Lemma v2_add_erases enabled l : erases id (v2_add_traced enabled l) (v2_add_signer l : St V2 _).
Proof. unfold v2_add_traced, v2_add_signer. erasing_v2. all: apply v2_flush_erases. Qed.

Lemma v2_remove_erases enabled l : erases id (v2_remove_traced enabled l) (v2_remove_signer l : St V2 _).
Proof. unfold v2_remove_traced, v2_remove_signer. erasing_v2. all: apply v2_flush_erases. Qed.

Section inert.
Context {DTL : DeMlsTraceLaws P K}.

(** Processing a frame, then [?]: what [process_inbound] does. *)
Lemma dispatch_erases {Y Y'} (h : Y → Y') app inner (f : Processed → Tr V2 Y) (g : () → St V2 Y') :
  (∀ processed, erases h (f processed) (lift (map_err ChatError.DeMlsError (outcome_of processed)) ≫= g)) →
  erases h (silent (v2_dispatch app inner) ≫= f)
    (v2_on (λ p ident k, let '(p, k, r) := dm_process p ident k app inner in
                         (p, k, map_err ChatError.DeMlsError r)) ≫= g).
Proof.
  intros Hf [cx c]. unfold v2_dispatch, v2_on, step, silent, erase, mbind, tr_bind, st_bind.
  rewrite dm_process_dispatch. destruct (dm_dispatch _ _ _ _ _) as [[p k] r]. cbn [map_err].
  specialize (Hf r (set_provider p cx, set_conversation k c)). unfold erase, mbind, st_bind, lift in Hf.
  destruct r; cbn [outcome_of map_err] in *; rewrite Hf; by destruct (f _ _) as [[s' rs'] r'].
Qed.

Lemma v2_handle_erases enabled payload :
  erases id (v2_handle_traced enabled payload) (v2_handle_payload payload : St V2 _).
Proof.
  unfold v2_handle_traced, v2_frame_traced, v2_handle_payload.
  repeat first
    [ apply dispatch_erases; intros ?; apply erases_unseen; [apply get_unseen | intros ?]
    | progress erasing_v2
    | apply erases_last; intros ? ].
Qed.

(** Tracing changes nothing: with records written or not, every operation of a
    GroupV2 conversation leaves the same state, publishes the same frames and
    answers the same as without it, whatever fails on the way. *)
Theorem tracing_inert enabled (content payload : list byte) (l : list SignerKey) (s : V2) :
  erase (v2_send_traced enabled content) s = v2_send_content content s ∧
  erase (v2_handle_traced enabled payload) s = v2_handle_payload payload s ∧
  erase (v2_wakeup_traced enabled) s = v2_wakeup s ∧
  erase (v2_add_traced enabled l) s = v2_add_signer l s ∧
  erase (v2_remove_traced enabled l) s = v2_remove_signer l s.
Proof.
  assert (∀ X (m : Tr V2 X) n, erases id m n → erase m s = n s) as Hid.
  { intros X m n Hm. rewrite (Hm s). destruct (erase m s) as [s' []]; done. }
  split_and!; apply Hid; [apply v2_send_erases|apply v2_handle_erases|apply v2_wakeup_erases|apply v2_add_erases|
    apply v2_remove_erases].
Qed.

End inert.

(** ** What the records say *)

Lemma tr_bind_inv {S X Y} (m : Tr S X) (f : X → Tr S Y) s s' rs r :
  (m ≫= f) s = (s', rs, r) →
  ∃ s1 rs1 r1, m s = (s1, rs1, r1) ∧
    match r1 with
    | Ok x => ∃ rs2, f x s1 = (s', rs2, r) ∧ rs = rs1 ++ rs2
    | Err e => s' = s1 ∧ rs = rs1 ∧ r = Err e
    end.
Proof.
  unfold mbind, tr_bind. destruct (m s) as [[s1 rs1] [x|e]].
  - destruct (f x s1) as [[s2 rs2] r2] eqn:Hf. intros [= <- <- <-]. exists s1, rs1, (Ok x). split; [done|]. by exists rs2.
  - intros [= <- <- <-]. by eexists _, _, _.
Qed.

Lemma silent_inv {S X} (m : St S X) s s' rs r : silent m s = (s', rs, r) → m s = (s', r) ∧ rs = [].
Proof. unfold silent. destruct (m s). by intros [= <- <- <-]. Qed.

(** Operations that keep the de-mls conversation. *)
Definition same_conv (s s' : V2) : Prop := v2_conversation s'.2 = v2_conversation s.2.
#[local] Instance same_conv_refl : Reflexive same_conv.
Proof. done. Qed.
#[local] Instance same_conv_trans : Transitive same_conv.
Proof. intros s t u H1 H2. unfold same_conv in *. congruence. Qed.

Lemma route_event_conv evt : keeps same_conv (route_event evt).
Proof.
  unfold route_event, route_joiner. destruct evt; solve_keeps ltac:(first
    [ intros [cx c]; unfold invite_user_v2, step; by destruct (ds_publish _ _)
    | intros [cx c]; done ]).
Qed.
Lemma publish_outbound_conv out : keeps same_conv (publish_outbound out).
Proof. intros [cx c]. unfold publish_outbound, step. by destruct (ds_publish _ _). Qed.

Lemma publish_frames_inv outbound post (s s' : V2) rs r :
  publish_frames outbound post s = (s', rs, r) → rs = [] ∧ same_conv s s'.
Proof.
  revert post s rs. induction outbound as [|out outbound IH]; intros post s rs; [by intros [= <- <- <-]|].
  cbn [publish_frames]. intros (s1 & rs1 & r1 & [H1 ->]%silent_inv & H)%tr_bind_inv.
  pose proof (publish_outbound_conv out s) as Hc. rewrite H1 in Hc. cbn in Hc.
  destruct r1 as [[]|e]; [|by destruct H as (-> & -> & _)]. destruct H as (rs2 & [-> H]%IH & ->).
  split; [done|]. by etrans.
Qed.

(** What [after_op] writes, whether its sends fail or not. *)
Lemma after_op_records enabled before (s s' : V2) rs r :
  after_op_traced enabled before s = (s', rs, r) →
  ∃ k events, dm_drain_events (v2_conversation s.2) = (k, events) ∧
    rs = trace_after_op enabled s'.2 (id_signer_key (cx_identity s.1)) before events ∧
    ∀ ev post, r = Ok (ev, post) → ev = events.
Proof.
  unfold after_op_traced. intros (s1 & rs1 & r1 & [[= <- <-] ->]%silent_inv & (rs2 & H & ->))%tr_bind_inv.
  destruct s as [cx c]. cbn [snd]. destruct (dm_drain_events _) as [k events].
  destruct (dm_drain_outbound k) as [k' outbound]. exists k, events. split; [done|].
  apply tr_bind_inv in H as (s1 & rs1 & r1 & [[= <- <-] ->]%silent_inv & (rs3 & H & ->)).
  apply tr_bind_inv in H as (s1 & rs1 & r1 & [= <- <- <-] & (rs4 & H & ->)).
  cbn [app cx_identity fst].
  assert (∀ c' own, v2_conversation c' = k' → trace_after_op enabled c' own before events =
    trace_after_op enabled (set_conversation k' c) own before events) as Hsame.
  { intros c' own Hc. unfold trace_after_op, v2_epoch, is_seated, own_signer, v2_signers. by rewrite Hc. }
  apply tr_bind_inv in H as (s1 & rs1 & r1 & [H1 ->]%silent_inv & H).
  pose proof (keeps_for_each same_conv events route_event (route_event_conv) (cx, set_conversation k' c)) as Hc.
  rewrite H1 in Hc. cbn [fst] in Hc. unfold same_conv in Hc. cbn [snd v2_conversation set_conversation] in Hc.
  destruct r1 as [[]|e].
  2: { destruct H as (-> & -> & ->). rewrite app_nil_r, (Hsame s1.2) by done. done. }
  destruct H as (rs5 & H & ->). apply tr_bind_inv in H as (s2 & rs1 & r1 & [-> Hs2]%publish_frames_inv & H).
  unfold same_conv in Hs2. rewrite Hc in Hs2.
  destruct r1 as [post|e].
  2: { destruct H as (-> & -> & ->). rewrite app_nil_r, (Hsame s2.2) by done. done. }
  destruct H as (rs6 & H & ->). apply tr_bind_inv in H as (s3 & rs1 & r1 & [[= <- <-] ->]%silent_inv & (rs7 & H & ->)).
  injection H as <- <- <-. destruct s2 as [cx2 c2]. cbn [snd] in *. rewrite app_nil_r, (Hsame c2) by done.
  split; [done|]. by intros ev p [= <- _].
Qed.

(** The payload carries the frame [f], with the message [inner] for the library
    from the application [app]. *)
Definition framed (payload f app inner : list byte) : Prop :=
  ∃ enc frame, encrypted_decode payload = Ok enc ∧ encryption enc = Some (Plaintext f) ∧
    v2_frame_decode f = Ok frame ∧ v2f_payload frame = Some (DeMlsWrapper inner) ∧
    v2f_sender_app_id frame = app.
(** It is an MLS message of the group [id] at epoch [e]. *)
Definition carries (payload f : list byte) (id : string) (e : N) : Prop :=
  ∃ app inner, framed payload f app inner ∧ mls_header inner = Some (str_bytes id, e).
(** What the library makes of the payload's frame in [s], a conversation we are
    seated in, and the events it has once it took the frame in. *)
Definition processed_as (payload : list byte) (s : V2) (p : P) (k : K) (processed : Processed) : Prop :=
  is_member s.2 = true ∧
  ∃ f app inner, framed payload f app inner ∧
    dm_dispatch (cx_provider s.1) (cx_identity s.1) (v2_conversation s.2) app inner = (p, k, processed).
Definition drained (payload : list byte) (s : V2) (events : list ConversationEvent) : Prop :=
  ∃ p k dropped p2 k2 k3, processed_as payload s p k (Dispatched dropped) ∧
    dm_poll p (cx_identity s.1) k = (p2, k2) ∧ dm_drain_events k2 = (k3, events).
(** The epoch our signer is seated in. *)
Definition seated_epoch (s : V2) : option N := own_epoch true s.2 (id_signer_key (cx_identity s.1)).

(** What a record written while a payload was handled must mean: [s] is the
    state before, [s'] after, [r] the answer. *)
Definition record_true (payload : list byte) (s s' : V2) (r : result Fault ConvoOutcome) (rec : TraceRecord) : Prop :=
  match rec with
  | TrReceived f from e =>
      carries payload f (v2_convo_id s.2) e ∧
      ∃ events out c, drained payload s events ∧ existsb is_post events = true ∧
        r = Ok out ∧ first_content (observations out) = Some c ∧ signer (auth_inner (ct_sender c)) = from
  | TrUnreadable f e why =>
      carries payload f (v2_convo_id s.2) e ∧
      match why with
      | WhyEpoch => (∃ own, seated_epoch s = Some own ∧ own ≠ e) ∧ ∃ p k, processed_as payload s p k (Dispatched false)
      | WhyDecrypt => is_Some (seated_epoch s) ∧ (∃ err, r = Err err) ∧
          ∃ p k err, processed_as payload s p k (Failed true err)
      | WhySender => ∃ events out, drained payload s events ∧ existsb is_post events = true ∧
          r = Ok out ∧ ∀ c, ObsContent c ∉ observations out
      end
  | TrEpoch e state signers =>
      (∃ events, drained payload s events ∧ Leaving ∉ events) ∧
      seated_epoch s ≠ Some e ∧ seated_epoch s' = Some e ∧
      state = dm_epoch_authenticator (v2_conversation s'.2) ∧ signers = v2_signers s'.2
  | TrLeft e =>
      (∃ events, drained payload s events ∧ Leaving ∈ events) ∧ dm_epoch (v2_conversation s'.2) = Ok e
  | TrSent _ _ | TrRun _ _ => False
  end.

(** What must be recorded, when records are written: that we left, the epoch
    we came to, and that a frame did not decrypt. *)
Definition record_due (payload : list byte) (s s' : V2) (rec : TraceRecord) : Prop :=
  match rec with
  | TrLeft e =>
      (∃ events, drained payload s events ∧ Leaving ∈ events) ∧ dm_epoch (v2_conversation s'.2) = Ok e
  | TrEpoch e state signers =>
      (∃ events, drained payload s events ∧ Leaving ∉ events) ∧
      seated_epoch s ≠ Some e ∧ seated_epoch s' = Some e ∧
      state = dm_epoch_authenticator (v2_conversation s'.2) ∧ signers = v2_signers s'.2
  | TrUnreadable f e WhyDecrypt =>
      carries payload f (v2_convo_id s.2) e ∧ is_Some (seated_epoch s) ∧
      ∃ p k err, processed_as payload s p k (Failed true err)
  | _ => False
  end.

Lemma v2_epoch_Some (c : GroupV2Convo K) e : v2_epoch c = Some e ↔ dm_epoch (v2_conversation c) = Ok e.
Proof. unfold v2_epoch. destruct (dm_epoch _); naive_solver. Qed.
Lemma seated_epoch_Some (s : V2) e :
  seated_epoch s = Some e ↔
  is_seated s.2 (id_signer_key (cx_identity s.1)) = true ∧ dm_epoch (v2_conversation s.2) = Ok e.
Proof.
  unfold seated_epoch, own_epoch. cbn [negb orb]. destruct (is_seated _ _); cbn [negb]; [|naive_solver].
  rewrite v2_epoch_Some. naive_solver.
Qed.
Lemma leaving_spec events : existsb is_leaving events = true ↔ Leaving ∈ events.
Proof.
  rewrite existsb_exists. setoid_rewrite <- list_elem_of_In. split; [|by exists Leaving].
  by intros ([] & ? & [=]).
Qed.
Lemma framed_fun payload f f' app app' inner inner' :
  framed payload f app inner → framed payload f' app' inner' → f' = f ∧ app' = app ∧ inner' = inner.
Proof.
  intros (e & m & ?&?&?&?&?) (e' & m' & ?&?&?&?&?).
  assert (e' = e) as -> by congruence. assert (f' = f) as -> by congruence.
  assert (m' = m) as -> by congruence. split_and!; congruence.
Qed.

Lemma first_content_None l : first_content l = None → ∀ c, ObsContent c ∉ l.
Proof.
  induction l as [|[]]; cbn; [intros _ c; apply not_elem_of_nil|done|]. intros H c.
  rewrite elem_of_cons. intros [?|?]; [done|by eapply IHl].
Qed.

(** ** What is written while a frame is handled *)

(** The records of a frame that reached the library: what [inbound] has to say,
    and when the frame was taken in what [after_op] has to say of the events
    drained and, once the outcome is there, what [read] says. *)
Definition frame_records enabled (f inner : list byte) (s s' : V2) processed k
    (r : result Fault ConvoOutcome) (events : list ConversationEvent) (rs : list TraceRecord) : Prop :=
  let own := own_epoch enabled s.2 (id_signer_key (cx_identity s.1)) in
  let '(heard, written) := trace_inbound (set_conversation k s.2) own f inner processed in
  match processed with
  | Failed _ e => rs = written ∧ r = Err (Error (ChatError.DeMlsError e))
  | Dispatched _ => ∃ after,
      rs = written ++ trace_after_op enabled s'.2 (id_signer_key (cx_identity s.1)) own events ++ after ∧
      (after = [] ∨ ∃ out, r = Ok out ∧ after = trace_read heard events (observations out))
  end.

Lemma outcome_conv events : keeps same_conv (outcome_from_events events).
Proof. unfold outcome_from_events. solve_keeps ltac:(intros [cx c]; done). Qed.

Lemma after_op_traced_identity enabled before (s s' : V2) rs r :
  after_op_traced enabled before s = (s', rs, r) → cx_identity s'.1 = cx_identity s.1.
Proof.
  intros H. pose proof (after_op_kept s) as Hk. rewrite (after_op_erases enabled before s) in Hk.
  unfold erase in Hk. rewrite H in Hk. apply Hk.
Qed.

(** From the poll on. *)
Lemma settled_records enabled own heard (s s' : V2) rs r :
  (_ ← silent v2_poll;
   '(events, _) ← after_op_traced enabled own;
   outcome ← silent (outcome_from_events events);
   _ ← writes (λ _, trace_read heard events (observations outcome));
   mret outcome) s = (s', rs, r) →
  cx_identity s'.1 = cx_identity s.1 ∧
  ∃ p2 k2 k3 events after,
    dm_poll (cx_provider s.1) (cx_identity s.1) (v2_conversation s.2) = (p2, k2) ∧ dm_drain_events k2 = (k3, events) ∧
    rs = trace_after_op enabled s'.2 (id_signer_key (cx_identity s.1)) own events ++ after ∧
    (after = [] ∨ ∃ out, r = Ok out ∧ after = trace_read heard events (observations out)).
Proof.
  destruct s as [cx c]. intros (s1 & rs1 & r1 & [H1 ->]%silent_inv & H)%tr_bind_inv.
  unfold v2_poll, v2_on, step in H1. cbn [fst snd]. destruct (dm_poll _ _ _) as [p2 k2] eqn:Hpoll.
  injection H1 as <- <-. destruct H as (rs2 & H & ->). cbn [Datatypes.app].
  apply tr_bind_inv in H as (s2 & rs1 & r1 & Hop & H). pose proof (after_op_traced_identity _ _ _ _ _ _ Hop) as Hid.
  apply after_op_records in Hop as (k3 & events & Hev & -> & Hr).
  cbn [fst cx_identity set_provider snd v2_conversation set_conversation] in *.
  assert (∀ s'' : V2, same_conv s2 s'' → trace_after_op enabled s2.2 (id_signer_key (cx_identity cx)) own events =
    trace_after_op enabled s''.2 (id_signer_key (cx_identity cx)) own events) as Hsame.
  { intros s'' Hc. unfold trace_after_op, v2_epoch, is_seated, own_signer, v2_signers. by rewrite Hc. }
  destruct r1 as [[ev post]|].
  2: { destruct H as (-> & -> & _). split; [done|]. exists p2, k2, k3, events, []. rewrite app_nil_r. auto. }
  destruct H as (rs3 & H & ->). rewrite (Hr _ _ eq_refl) in H.
  apply tr_bind_inv in H as (s3 & rs4 & r1 & [Ho ->]%silent_inv & H).
  pose proof (outcome_conv events s2) as Hc. rewrite Ho in Hc. cbn [fst] in Hc. rewrite (Hsame _ Hc).
  pose proof (outcome_from_events_kept events s2) as (_ & Hid2 & _). rewrite Ho in Hid2. cbn [fst] in Hid2.
  rewrite <- Hid, <- Hid2. destruct r1 as [out|].
  2: { destruct H as (-> & -> & _). split; [done|]. exists p2, k2, k3, events, []. rewrite app_nil_r. auto. }
  destruct H as (rs5 & H & ->). apply tr_bind_inv in H as (s4 & rs4 & r1 & [= <- <- <-] & (rs6 & [= <- <- <-] & ->)).
  split; [done|]. exists p2, k2, k3, events, (trace_read heard events (observations out)).
  cbn [Datatypes.app]. rewrite app_nil_r. eauto 10.
Qed.

Lemma frame_traced enabled f app inner (s s' : V2) rs r :
  v2_frame_traced enabled f app inner s = (s', rs, r) →
  ∃ p k processed events,
    dm_dispatch (cx_provider s.1) (cx_identity s.1) (v2_conversation s.2) app inner = (p, k, processed) ∧
    cx_identity s'.1 = cx_identity s.1 ∧
    (∀ dropped, processed = Dispatched dropped →
      ∃ p2 k2 k3, dm_poll p (cx_identity s.1) k = (p2, k2) ∧ dm_drain_events k2 = (k3, events)) ∧
    frame_records enabled f inner s s' processed k r events rs.
Proof.
  unfold v2_frame_traced, frame_records. destruct s as [cx c]. cbn [fst snd].
  intros (s1 & rs1 & r1 & [= <- <- <-] & (rs2 & H & ->))%tr_bind_inv. cbn [Datatypes.app].
  set (own := own_epoch enabled c (id_signer_key (cx_identity cx))) in *.
  apply tr_bind_inv in H as (s1 & rs1 & r1 & [H1 ->]%silent_inv & H). unfold v2_dispatch, v2_on, step in H1.
  destruct (dm_dispatch _ _ _ _ _) as [[p k] processed] eqn:Hd. injection H1 as <- <-.
  destruct H as (rs3 & H & ->). cbn [Datatypes.app].
  apply tr_bind_inv in H as (s2 & rs1 & r1 & [[= <- <-] ->]%silent_inv & (rs4 & H & ->)). cbn [Datatypes.app].
  destruct (trace_inbound _ own f inner processed) as [heard written] eqn:Hin.
  apply tr_bind_inv in H as (s2 & rs1 & r1 & [= <- <- <-] & (rs5 & H & ->)).
  apply tr_bind_inv in H as (s2 & rs1 & r1 & [[= <- <-] ->]%silent_inv & H).
  exists p, k, processed. destruct processed as [dropped|b e]; cbn [outcome_of map_err] in H.
  2: { exists []. destruct H as (-> & -> & ->). rewrite app_nil_r. split_and!; try done. by rewrite Hin. }
  destruct H as (rs6 & H & ->). apply settled_records in H as (Hid & p2 & k2 & k3 & events & after & H1 & H2 & -> & H4).
  exists events. split_and!; try done; [eauto|]. rewrite Hin. exists after. done.
Qed.

(** ** The records are true, and none is missing *)

(** What [inbound] writes names a frame that was heard, and why. *)
Lemma inbound_heard (c : GroupV2Convo K) own f inner processed heard written :
  trace_inbound c own f inner processed = (heard, written) →
  (∀ h, heard = Some h → heard_frame h = f ∧ own = Some (heard_own_epoch h) ∧
    mls_header inner = Some (str_bytes (v2_convo_id c), heard_epoch h)) ∧
  ∀ rec, rec ∈ written → ∃ h why, heard = Some h ∧ rec = unreadable_record h why ∧
    ((why = WhyEpoch ∧ heard_own_epoch h ≠ heard_epoch h ∧ processed = Dispatched false) ∨
     (why = WhyDecrypt ∧ ∃ e, processed = Failed true e)).
Proof.
  unfold trace_inbound. destruct processed as [[]|b e]; [intros [= <- <-]; split; [done|set_solver]|..].
  all: destruct own as [own|]; [|intros [= <- <-]; split; [done|set_solver]]; cbn [mbind option_bind]; unfold heard_of.
  all: destruct (mls_header inner) as [[g ep]|]; [|intros [= <- <-]; split; [done|set_solver]]; cbn [mbind option_bind].
  all: case_decide as Hg; [|intros [= <- <-]; split; [done|set_solver]]; intros [= <- <-]; subst g.
  all: (split; [by intros h [= <-]|]); intros rec Hrec.
  - destruct (at_own_epoch _) eqn:Ho; [by apply elem_of_nil in Hrec|]. apply list_elem_of_singleton in Hrec as ->.
    eexists _, WhyEpoch. split_and!; [done..|]. left. apply N.eqb_neq in Ho. split_and!; [done|intros H; by apply Ho|done].
  - destruct b; [|by apply elem_of_nil in Hrec]. apply list_elem_of_singleton in Hrec as ->.
    eexists _, WhyDecrypt. eauto 10.
Qed.

Lemma own_seated enabled (s : V2) e :
  own_epoch enabled s.2 (id_signer_key (cx_identity s.1)) = Some e → seated_epoch s = Some e.
Proof. unfold seated_epoch, own_epoch. by destruct enabled. Qed.

Lemma after_op_true payload enabled (s s' : V2) r events :
  drained payload s events → cx_identity s'.1 = cx_identity s.1 →
  Forall (record_true payload s s' r) (trace_after_op enabled s'.2 (id_signer_key (cx_identity s.1))
    (own_epoch enabled s.2 (id_signer_key (cx_identity s.1))) events).
Proof.
  intros Hd Hid. unfold trace_after_op. destruct enabled; cbn [negb]; [|constructor].
  destruct (v2_epoch s'.2) as [e|] eqn:He; [|constructor]. apply v2_epoch_Some in He.
  destruct (existsb is_leaving events) eqn:Hl.
  { constructor; [|constructor]. split; [|done]. exists events. by rewrite <- leaving_spec. }
  destruct (_ && is_seated _ _) eqn:Hs; [|constructor].
  apply andb_true_iff in Hs as [Hne%negb_true_iff%bool_decide_eq_false Hs]. constructor; [|constructor]. split_and!; try done.
  - exists events. split; [done|]. rewrite <- leaving_spec. by rewrite Hl.
  - apply seated_epoch_Some. by rewrite Hid.
Qed.

Lemma read_true payload (s s' : V2) h events out :
  carries payload (heard_frame h) (v2_convo_id s.2) (heard_epoch h) → drained payload s events →
  Forall (record_true payload s s' (Ok out)) (trace_read (Some h) events (observations out)).
Proof.
  intros Hc Hd. unfold trace_read. destruct (existsb is_post events) eqn:Hp; [|constructor].
  destruct (first_content (observations out)) as [ct|] eqn:Hf; (constructor; [|constructor]); (split; [done|]).
  - by exists events, out, ct.
  - exists events, out. split_and!; try done. by apply first_content_None.
Qed.

Lemma frame_true payload enabled f app inner (s s' : V2) rs r :
  is_member s.2 = true → framed payload f app inner →
  v2_frame_traced enabled f app inner s = (s', rs, r) → Forall (record_true payload s s' r) rs.
Proof.
  intros Hm Hfr (p & k & processed & events & Hd & Hid & Hev & Hrec)%frame_traced. unfold frame_records in Hrec.
  set (own := own_epoch enabled s.2 _) in Hrec.
  destruct (trace_inbound _ own f inner processed) as [heard written] eqn:Hin.
  destruct (inbound_heard _ _ _ _ _ _ _ Hin) as [Hh Hw].
  assert (processed_as payload s p k processed) as Hp by (split; [done|]; by exists f, app, inner).
  assert (∀ h, heard = Some h → carries payload (heard_frame h) (v2_convo_id s.2) (heard_epoch h)) as Hc.
  { intros h (-> & _ & He)%Hh. by exists app, inner. }
  assert ((∀ e, processed = Failed true e → ∃ err, r = Err err) → Forall (record_true payload s s' r) written) as Hwt.
  { intros Hr. apply Forall_forall. intros rec (h & why & -> & -> & Hy)%Hw. split; [by apply Hc|].
    destruct (Hh h eq_refl) as (_ & Ho & _). apply own_seated in Ho.
    destruct Hy as [(-> & Hne & ->)|(-> & e & ->)]; [|split_and!; eauto 10]. split; eauto. }
  destruct processed as [dropped|b e].
  2: { destruct Hrec as [-> ->]. apply Hwt. eauto. }
  destruct Hrec as (after & -> & Hafter). apply Forall_app. split; [by apply Hwt|]. destruct (Hev _ eq_refl) as (p2 & k2 & k3 & H1 & H2).
  assert (drained payload s events) as Hdr by (by exists p, k, dropped, p2, k2, k3).
  apply Forall_app. split; [by apply after_op_true|]. destruct Hafter as [->|(out & -> & ->)]; [constructor|].
  destruct heard as [h|]; [|constructor]. by apply read_true; [apply Hc|].
Qed.

Lemma drained_fun payload (s : V2) p k dropped p2 k2 k3 events events' :
  processed_as payload s p k (Dispatched dropped) → dm_poll p (cx_identity s.1) k = (p2, k2) →
  dm_drain_events k2 = (k3, events) → drained payload s events' → events' = events.
Proof.
  intros (_ & f & app & inner & Hf & Hd) H1 H2 (p' & k' & d' & p2' & k2' & k3' & (_ & f' & app' & inner' & Hf' & Hd') & H1' & H2').
  destruct (framed_fun _ _ _ _ _ _ _ Hf Hf') as (-> & -> & ->). congruence.
Qed.

Lemma frame_complete payload f app inner (s s' : V2) rs r rec :
  is_member s.2 = true → framed payload f app inner →
  v2_frame_traced true f app inner s = (s', rs, r) → record_due payload s s' rec → rec ∈ rs.
Proof.
  intros Hm Hfr (p & k & processed & events & Hd & Hid & Hev & Hrec)%frame_traced Hdue. unfold frame_records in Hrec.
  destruct (trace_inbound _ _ f inner processed) as [heard written] eqn:Hin.
  assert (processed_as payload s p k processed) as Hp by (split; [done|]; by exists f, app, inner).
  assert (∀ p' k' pr, processed_as payload s p' k' pr → pr = processed) as Hfun.
  { intros p' k' pr (_ & f' & app' & inner' & Hf' & Hd'). destruct (framed_fun _ _ _ _ _ _ _ Hfr Hf') as (-> & -> & ->).
    congruence. }
  assert (∀ events', drained payload s events' → events' = events ∧ ∃ after, rs = written ++
    trace_after_op true s'.2 (id_signer_key (cx_identity s.1)) (seated_epoch s) events ++ after) as Hdr.
  { intros events' Hd'. pose proof Hd' as (p' & k' & dr & _ & _ & _ & Hp' & _). pose proof (Hfun _ _ _ Hp') as <-.
    destruct (Hev _ eq_refl) as (p2 & k2 & k3 & H1 & H2). split; [by eapply (drained_fun _ _ _ _ _ _ _ _ _ _ Hp H1 H2)|].
    destruct Hrec as (after & -> & _). by exists after. }
  destruct rec as [| e st sg | e | | | f' e []]; try done; cbn [record_due] in Hdue.
  - destruct Hdue as ((ev & (-> & after & ->)%Hdr & Hnl) & Hne & [Hs He]%seated_epoch_Some & -> & ->).
    rewrite !elem_of_app. right. left. unfold trace_after_op. cbn [negb]. rewrite (proj2 (v2_epoch_Some _ _) He).
    rewrite <- leaving_spec in Hnl. apply not_true_is_false in Hnl as ->. rewrite Hid in Hs.
    rewrite bool_decide_eq_false_2, Hs by done. by left.
  - destruct Hdue as ((ev & (-> & after & ->)%Hdr & Hnl%leaving_spec) & He). rewrite !elem_of_app. right. left.
    unfold trace_after_op. cbn [negb]. rewrite (proj2 (v2_epoch_Some _ _) He), Hnl. by left.
  - destruct Hdue as ((app' & inner' & Hf' & Hh) & [own Ho] & p' & k' & err & Hp').
    pose proof (Hfun _ _ _ Hp') as <-. destruct Hrec as [-> _].
    destruct (framed_fun _ _ _ _ _ _ _ Hfr Hf') as (-> & -> & ->). unfold seated_epoch in Ho.
    unfold trace_inbound in Hin. rewrite Ho in Hin. cbn [mbind option_bind] in Hin. unfold heard_of in Hin.
    rewrite Hh in Hin. cbn [mbind option_bind v2_convo_id set_conversation] in Hin. rewrite decide_True in Hin by done.
    injection Hin as _ <-. by left.
Qed.

(** What is written without reaching the library: nothing. *)
Lemma handle_traced enabled payload (s s' : V2) rs r :
  v2_handle_traced enabled payload s = (s', rs, r) →
  (rs = [] ∧ ∀ f app inner, framed payload f app inner → is_member s.2 = false) ∨
  ∃ f app inner, is_member s.2 = true ∧ framed payload f app inner ∧
    v2_frame_traced enabled f app inner s = (s', rs, r).
Proof.
  unfold v2_handle_traced. destruct s as [cx c].
  intros (s1 & rs1 & r1 & [[= <- <-] ->]%silent_inv & H)%tr_bind_inv.
  destruct (encrypted_decode payload) as [enc|] eqn:Henc; cbn [map_err] in H.
  2: { destruct H as (_ & -> & _). left. split; [done|]. intros f app inner (enc0 & m & ? & _). congruence. }
  destruct H as (rs2 & H & ->). apply tr_bind_inv in H as (s1 & rs1 & r1 & [[= <- <-] ->]%silent_inv & H).
  destruct (encryption enc) as [[f|]|] eqn:Hf; cbn [map_err] in H.
  2,3: destruct H as (_ & -> & _); left; split; [done|]; intros f' app inner (enc0 & m & ? & ? & _); congruence.
  destruct H as (rs3 & H & ->). apply tr_bind_inv in H as (s1 & rs1 & r1 & [[= <- <-] ->]%silent_inv & (rs4 & H & ->)).
  cbn [snd]. destruct (is_member c); cbn [negb] in H; [|injection H as <- <- <-; by left].
  apply tr_bind_inv in H as (s1 & rs1 & r1 & [[= <- <-] ->]%silent_inv & H).
  destruct (v2_frame_decode f) as [frame|] eqn:Hfr; cbn [map_err] in H.
  2: { destruct H as (_ & -> & _). left. split; [done|]. intros f' app inner (enc0 & m & ? & ? & ? & _). congruence. }
  destruct H as (rs5 & H & ->). cbn [Datatypes.app]. destruct (v2f_payload frame) as [[inner|]|] eqn:Hp.
  2,3: injection H as <- <- <-; left; split; [done|]; intros f' app inner' (enc0 & m & ? & ? & ? & ? & _); congruence.
  right. exists f, (v2f_sender_app_id frame), inner. split_and!; [done| |done]. by exists enc, frame.
Qed.

(** C40. The records an inbound payload leaves are true, however handling it ends.
    A frame recorded as received is the one the payload carried, of this group
    and epoch, the library's events hold a post, and its content was surfaced
    under that sender; one recorded as unreadable was taken in at another
    epoch than the one we are seated in, or is one the library failed to
    decrypt, or carried a post of which no content was surfaced. [left] is
    recorded only when the library's events say we are leaving; an epoch only
    when they do not, we were not seated in that epoch before and are now, and
    with the state and the members the conversation has. And, when records are
    written, none of these is missing: every leaving whose epoch can be read,
    every new epoch we are seated in and every frame of the group that did not
    decrypt is recorded. *)
Theorem trace_truthful enabled payload (s s' : V2) rs r :
  v2_handle_traced enabled payload s = (s', rs, r) →
  Forall (record_true payload s s' r) rs ∧
  (enabled = true → ∀ rec, record_due payload s s' rec → rec ∈ rs).
Proof.
  intros [(-> & Hno)|(f & app & inner & Hm & Hf & H)]%handle_traced.
  2: { split; [by eapply frame_true|]. intros -> rec. by eapply frame_complete. }
  split; [constructor|]. intros _ rec Hdue.
  assert (∀ p k pr, ¬ processed_as payload s p k pr) as Hnp.
  { intros p k pr (Hm & f & app & inner & Hf%Hno & _). congruence. }
  assert (∀ events, ¬ drained payload s events) as Hnd by (intros ev (p & k & d & ? & ? & ? & Hp & _); by eapply Hnp).
  destruct rec as [| | | | |f e []]; try done; cbn in Hdue; naive_solver.
Qed.
End properties.

(** ** One line per record *)

(** The bytes a value is written with: none is whitespace, none an equals sign. *)
Definition word_byte (b : byte) : bool :=
  is_ascii_alphanumeric b || existsb (Byte.eqb b) [x5f; x2d; x25; x3a; x2c].
Definition one_word (s : string) : Prop := Forall (λ b, word_byte b = true) (str_bytes s).

(** Reading a conversation id back. *)
Definition hex_value (b : byte) : option N := N.of_nat <$> position (Byte.eqb b) (str_bytes "0123456789abcdef").
Fixpoint unescape (l : list byte) : list byte :=
  match l with
  | x25 :: h :: g :: l' =>
      match hex_value h, hex_value g with
      | Some x, Some y => u8 (16 * x + y) :: unescape l'
      | _, _ => x25 :: h :: g :: unescape l'
      end
  | b :: l' => b :: unescape l'
  | [] => []
  end.

Lemma unescape_byte b l : unescape (convo_byte b ++ l) = b :: unescape l.
Proof. by destruct b. Qed.
Lemma convo_byte_word b : Forall (λ b, word_byte b = true) (convo_byte b).
Proof. destruct b; repeat constructor. Qed.

Lemma one_word_app s t : one_word s → one_word t → one_word (s ++ t)%string.
Proof. unfold one_word. rewrite str_bytes_app. intros. by apply Forall_app. Qed.

Lemma digits_word (n : N) : one_word (pretty n).
Proof.
  assert (∀ x s, one_word s → one_word (pretty_N_go x s)) as Hg.
  { intros x. induction (N.lt_wf_0 x) as [x _ IH]. intros s Hs.
    destruct (decide (x = 0%N)) as [->|Hx]; [by rewrite pretty_N_go_0|].
    rewrite pretty_N_go_step by lia. apply IH; [apply N.div_lt; lia|].
    constructor; [|exact Hs]. assert (x `mod` 10 < 10)%N as Hm by (apply N.mod_lt; lia).
    revert Hm. generalize (x `mod` 10)%N. intros y Hy.
    assert (y ∈ [0; 1; 2; 3; 4; 5; 6; 7; 8; 9]%N) as Hin by (rewrite !elem_of_cons; lia).
    repeat (apply elem_of_cons in Hin as [->|Hin]; [done|]). by apply elem_of_nil in Hin. }
  unfold pretty, pretty_N. case_decide; [repeat constructor|]. apply Hg. constructor.
Qed.

Section lines.
Context {HX : Hex} {HL : HexLaws HX} {B : Blake2b}.

Lemma hex_word l : one_word (bytes_str (hex_encode l)).
Proof.
  unfold one_word. rewrite list_byte_of_string_of_list_byte. eapply Forall_impl; [apply hex_charset|].
  intros b Hb. destruct b; done.
Qed.

Lemma signers_one_word l : one_word (signers_word l).
Proof.
  assert (∀ s, one_word (member_word s)) as Hm.
  { intros s. unfold member_word, short. apply one_word_app; [apply hex_word|].
    apply one_word_app; [repeat constructor|apply hex_word]. }
  induction l as [|s [|s' l] IH]; [constructor|apply Hm|].
  change (signers_word (s :: s' :: l)) with (member_word s ++ "," ++ signers_word (s' :: l))%string.
  apply one_word_app; [apply Hm|]. apply one_word_app; [repeat constructor|exact IH].
Qed.

(** A record is one line of words: whatever the epoch, the frame, the keys and
    the members are, no value holds a space, a line break or an equals sign;
    nor does a conversation id, whatever its creator picked, and it can be
    read back from what was written. *)
Theorem records_one_line r id :
  Forall (λ kv, one_word kv.2) (record_fields r) ∧
  one_word (convo_word id) ∧ unescape (str_bytes (convo_word id)) = str_bytes id.
Proof.
  split_and!.
  - destruct r; repeat (constructor; cbn [snd]).
    all: first [apply digits_word | apply hex_word | apply signers_one_word |
      match goal with w : Why |- _ => destruct w; repeat constructor end].
  - unfold one_word, convo_word. rewrite list_byte_of_string_of_list_byte.
    induction (str_bytes id) as [|b l IH]; [constructor|]. cbn. apply Forall_app. split; [apply convo_byte_word|done].
  - unfold convo_word. rewrite list_byte_of_string_of_list_byte.
    induction (str_bytes id) as [|b l IH]; [done|]. cbn [flat_map]. by rewrite unescape_byte, IH.
Qed.
End lines.

(** ** Witnesses *)

(** Every message is of the group at epoch 3, and is taken in. *)
#[local] Instance trace_ref : DeMlsTrace () ToyConsensus := {|
  mls_header _ := Some (str_bytes "0c", 3%N);
  dm_epoch k := Ok 3%N;
  dm_epoch_authenticator k := str_bytes (td_id k);
  dm_dispatch p ident k app inner :=
    let '(p, k, r) := dm_process (DeMls := demls_ref) p ident k app inner in
    (p, k, match r with Ok _ => Dispatched false | Err e => Failed false e end);
|}.
Lemma trace_ref_laws : DeMlsTraceLaws (DM := demls_ref) () ToyConsensus.
Proof. split. intros p ident k app inner. cbn [dm_dispatch trace_ref]. by destruct (dm_process _ _ _ _ _) as [[? ?] [[]|]]. Qed.

Abbreviation traced_demo := (v2_handle_traced (HX := hex_ref) (B := blake_toy) (PB := prost_ref)
  (PB2 := prost_v2_ref) (DM := demls_ref) (DSI := outbox) (WSI := wakeup_ref) (A := auth_ref) true demo_v2_payload).
Definition demo_traced := traced_demo (context_of ident_b ([] : list AddressedEnvelope), v2_ab 1).

Lemma tracing_inert_witness :
  erase traced_demo (context_of ident_b ([] : list AddressedEnvelope), v2_ab 1) = demo_v2_received.
Proof.
  apply (tracing_inert (HX := hex_ref) (B := blake_toy) (PB := prost_ref) (PB2 := prost_v2_ref)
    (ML := mls_ref) (DM := demls_ref) (DTL := trace_ref_laws) (DSI := outbox) (RSI := registry_ref) (WSI := wakeup_ref)
    (A := auth_ref) true [] demo_v2_payload [] (context_of ident_b [], v2_ab 1)).
Defined.

(** A's text is recorded as received, and what the record says is so. *)
Lemma trace_truthful_witness :
  map record_name demo_traced.1.2 = ["received"%string] ∧
  Forall (record_true (PB := prost_ref) (PB2 := prost_v2_ref) (DM := demls_ref) demo_v2_payload
    (context_of ident_b ([] : list AddressedEnvelope), v2_ab 1) demo_traced.1.1 demo_traced.2) demo_traced.1.2.
Proof.
  split; [vm_compute; reflexivity|].
  destruct (trace_truthful (HX := hex_ref) (B := blake_toy) (PB := prost_ref) (PB2 := prost_v2_ref)
    (DM := demls_ref) (DSI := outbox) (WSI := wakeup_ref) (A := auth_ref) true
    demo_v2_payload (context_of ident_b [], v2_ab 1) demo_traced.1.1 demo_traced.1.2 demo_traced.2) as [H _]; [|exact H].
  unfold demo_traced. by destruct (traced_demo _) as [[? ?] ?].
Defined.

Lemma records_one_line_witness :
  one_word (convo_word "a b=c") ∧ convo_word "a b=c" = "a%20b%3dc"%string.
Proof.
  split; [|vm_compute; reflexivity].
  apply (records_one_line (HX := hex_ref) (HL := hex_ref_laws) (B := blake_toy) (TrLeft 8) "a b=c").
Defined.
