(* ===== verification/CoreTheorems.v ===== *)
(** * Theorems about the conversation core

    What a core keeps over a run, how it creates conversations, where it
    routes a payload, and what its listings say. *)

From Stdlib Require Import Strings.Byte Strings.String.
From stdpp Require Import base gmap strings numbers list.
From S2P Require Import Prelude Utf8 Hex Ed25519 Identity CausalHistory Storage Delivery Services.
From S2P Require Import MlsUtils GroupV1 GroupV3 GroupV2 Convo Core Reference.

Section core.
Context {HX : Hex} {PB : Prost} {DS RS CS P WS O R : Type}.
Context {DSI : DeliveryService DS} {CSI : ConversationStore CS} {CO : Convo DS RS CS P WS O}.
Context {CL : ConvoLaws DS RS CS P WS O} {CF : ConvoFactory DS RS CS P WS O R}.
Context {FL : ConvoFactoryLaws DS RS CS P WS O R} {E : Type} {A : AuthService E}.
Context (show : E → string).

Abbreviation CX := (ServiceContext DS RS CS P WS).
Abbreviation K := (Core DS RS CS P WS O).
Implicit Types k : K.

(** ** Creation *)

Lemma on_services_cached {X} (m : St CX X) k :
  cached_convos (on_services m k).1 = cached_convos k.
Proof. unfold on_services. by destruct (m (services k)). Qed.

(** A constructor either adds one conversation of the class, under its own
    id, which was free, or leaves the conversations as they were. *)
Definition creates (class : O → ConvoTypeOwned O) (m : St K string) : Prop := ∀ k,
  match m k with
  | (k', Ok id) => ∃ o, obj_id o = id ∧ cached_convos k !! id = None ∧
                     cached_convos k' = <[id := class o]> (cached_convos k)
  | (k', Err _) => cached_convos k' = cached_convos k
  end.

Lemma creates_register class o : (∀ o, convo_obj (class o) = o) →
  creates class (_ ← register_convo (class o); mret (obj_id o)).
Proof.
  intros Hc k. unfold mbind, st_bind, register_convo. rewrite Hc.
  destruct (cached_convos k !! obj_id o) eqn:Hk; [done|]. cbn. eauto.
Qed.

Lemma creates_bind {X} class (m : St K X) (f : X → St K string) :
  (∀ k, cached_convos (m k).1 = cached_convos k) → (∀ x, creates class (f x)) →
  creates class (m ≫= f).
Proof.
  intros Hm Hf k. unfold mbind, st_bind. specialize (Hm k).
  destruct (m k) as [k1 [x|e]]; cbn in Hm; [|done]. specialize (Hf x k1).
  rewrite Hm in Hf. exact Hf.
Qed.

Lemma creates_fail class e : creates class (fail e).
Proof. by intros k. Qed.

Ltac creating := repeat first
  [ apply creates_register; done
  | apply creates_fail
  | apply creates_bind; [intros ?; first [ apply on_services_cached | done
      | by match goal with |- context [obj_add_signer ?l ?s] =>
          destruct (obj_add_signer l s) as [[] ?] end ]|intros ?]
  | case_match ].

(** Creating a conversation is all or nothing for the core: each of the
    four constructors either returns the id of one new conversation of the
    right class, filed under that id where nothing was, or fails with the
    conversations it holds untouched (a record a GroupV1 saved before failing
    stays); and a direct conversation with oneself is refused with nothing
    done. *)
Theorem creation_atomic :
  (∀ p, creates Direct (create_direct_convo_v1 show p)) ∧
  (∀ ps, creates Group (create_group_convo_v1 show ps)) ∧
  (∀ rnd ps name desc, creates Group (create_group_convo_v2 show rnd ps name desc)) ∧
  (∀ ps name desc, creates Group (create_group_convo_v3 show ps name desc)) ∧
  ∀ k, create_direct_convo_v1 show (id_participant (cx_identity (services k))) k =
       (k, Err (Error ChatError.CannotMessageSelf)).
Proof.
  split_and!.
  - intros p. unfold create_direct_convo_v1. creating.
  - intros ps. unfold create_group_convo_v1. creating.
  - intros rnd ps name desc. unfold create_group_convo_v2. creating.
  - intros ps name desc. unfold create_group_convo_v3. creating.
  - intros k. unfold create_direct_convo_v1, mbind, st_bind, get. cbv beta iota.
    by rewrite decide_True.
Qed.

(** ** Routing *)

(** What handling a payload for a conversation changes. *)
Definition only_convo (id : string) (k k' : K) : Prop :=
  inbox_id k' = inbox_id k ∧ cx_store (services k') = cx_store (services k) ∧
  (∀ j, j ≠ id → cached_convos k' !! j = cached_convos k !! j) ∧
  (cached_convos k !! id = None → cached_convos k' = cached_convos k).

Lemma dispatch_to_convo_only id payload k : only_convo id k (dispatch_to_convo id payload k).1.
Proof.
  unfold dispatch_to_convo. destruct (cached_convos k !! id) as [ct|] eqn:Hk.
  - unfold on_convo. rewrite Hk.
    pose proof (obj_handle_payload_frame payload (services k, convo_obj ct)) as Hf.
    destruct (obj_handle_payload _ _) as [[cx o] r]. destruct Hf as (_ & _ & Hf).
    split_and!; try done; [|congruence]. intros j Hj. cbn. by rewrite lookup_insert_ne.
  - unfold on_loaded. pose proof (load_convo_frame id (services k)) as Hl.
    destruct (load_convo id (services k)) as [cx [o|e]]; destruct Hl as [_ Hl]; [|done].
    pose proof (obj_handle_payload_frame payload (cx, o)) as Hf.
    destruct (obj_handle_payload payload (cx, o)) as [[cx' o'] r]. destruct Hf as (_ & _ & Hf).
    split_and!; try done. cbn in *. congruence.
Qed.

Lemma dispatch_to_convo_outcome {SL : ConversationStoreLaws CS} id payload k k' out :
  core_ok k → cs_ok (cx_store (services k)) →
  dispatch_to_convo id payload k = (k', Ok out) → co_convo_id out = id.
Proof.
  intros Hok Hcs. unfold dispatch_to_convo. destruct (cached_convos k !! id) as [ct|] eqn:Hk.
  - unfold on_convo. rewrite Hk.
    destruct (obj_handle_payload payload (services k, convo_obj ct)) as [[cx o] r] eqn:Hp.
    intros [= _ ->]. apply obj_outcome_id in Hp. rewrite Hp. by apply Hok in Hk.
  - unfold on_loaded. destruct (load_convo id (services k)) as [cx [o|e]] eqn:Hl; [|done].
    destruct (obj_handle_payload payload (cx, o)) as [[cx' o'] r] eqn:Hp. intros [= _ ->].
    apply obj_outcome_id in Hp. rewrite Hp. by eapply load_convo_id.
Qed.

(** Handing a payload to a conversation and wrapping what it yields. *)
Definition to_convo (id : string) (payload : list byte) : St K PayloadOutcome :=
  out ← dispatch_to_convo id payload; mret (OutConvo out).

Lemma to_convo_spec {SL : ConversationStoreLaws CS} id payload k :
  core_ok k → cs_ok (cx_store (services k)) →
  let '(k', r) := to_convo id payload k in
  only_convo id k k' ∧ (∀ out, r = Ok out → ∃ o, out = OutConvo o ∧ co_convo_id o = id).
Proof.
  intros Hok Hcs. unfold to_convo, mbind, st_bind.
  pose proof (dispatch_to_convo_only id payload k) as Ho.
  destruct (dispatch_to_convo id payload k) as [k1 [out|e]] eqn:Hdisp; cbn; [|done].
  split; [done|]. intros ? [= <-]. exists out. split; [done|].
  by eapply dispatch_to_convo_outcome.
Qed.

Lemma handle_payload_eq rnd payload k :
  handle_payload rnd payload k =
  match envelope_decode payload with
  | Err e => (k, Err (Error (ChatError.DecodeError e)))
  | Ok env =>
      let id := conversation_hint env in
      if decide (id = inbox_id k) then dispatch_to_inbox2 rnd (ev_payload env) k
      else if decide (is_Some (cached_convos k !! id)) then to_convo id (ev_payload env) k
      else match cs_has (cx_store (services k)) id with
           | Ok true => to_convo id (ev_payload env) k
           | Ok false => (k, Ok OutEmpty)
           | Err e => (k, Err (Error (ChatError.Storage e)))
           end
  end.
Proof.
  unfold handle_payload, to_convo, mbind, st_bind, lift, get.
  destruct (envelope_decode payload) as [env|e]; [|done]. cbn [map_err]. cbv beta iota zeta.
  case_decide; [done|]. case_decide; [done|]. by destruct (cs_has _ _) as [[]|].
Qed.

(** Handing a payload to a conversation that is there, or to one rebuilt. *)
Lemma to_convo_cached id payload k ct cx o r :
  cached_convos k !! id = Some ct → obj_handle_payload payload (services k, convo_obj ct) = ((cx, o), r) →
  to_convo id payload k =
    ({| services := cx; inbox_id := inbox_id k; cached_convos := <[id := with_obj ct o]> (cached_convos k) |},
     OutConvo <$> r).
Proof.
  intros Hk Hp. unfold to_convo, dispatch_to_convo, on_convo, mbind, st_bind. rewrite Hk, Hp. by destruct r.
Qed.
Lemma to_convo_loaded id payload k :
  cached_convos k !! id = None →
  to_convo id payload k =
    match load_convo id (services k) with
    | (cx, Err e) => (set_services cx k, Err e)
    | (cx, Ok o) => let '((cx', _), r) := obj_handle_payload payload (cx, o) in
                    (set_services cx' k, OutConvo <$> r)
    end.
Proof.
  intros Hk. unfold to_convo, dispatch_to_convo, on_loaded, mbind, st_bind. rewrite Hk.
  destruct (load_convo _ _) as [cx [o|e]]; [|done]. by destruct (obj_handle_payload _ _) as [[cx' o'] []].
Qed.

Lemma dispatch_to_inbox2_eq rnd payload k :
  let '(k', r) := dispatch_to_inbox2 rnd payload k in
  inbox_id k' = inbox_id k ∧
  match inbox_frame rnd payload (services k) with
  | (cx, Err e) => k' = set_services cx k ∧ r = Err e
  | (cx, Ok None) => k' = set_services cx k ∧ r = Ok OutEmpty
  | (cx, Ok (Some (o, class))) =>
      services k' = cx ∧
      match cached_convos k !! obj_id o with
      | Some _ => cached_convos k' = cached_convos k ∧
          r = Err (Error (ChatError.Generic "Convo already exists. Cannot save"))
      | None =>
          cached_convos k' =
            <[obj_id o := match class with Dm => Direct o | GroupClass => Group o end]> (cached_convos k) ∧
          r = Ok (OutInbox {| new_conversation := {| nc_convo_id := obj_id o; nc_class := class |};
                              initial := None |})
      end
  end.
Proof.
  unfold dispatch_to_inbox2, mbind, st_bind, on_services.
  destruct (inbox_frame rnd payload (services k)) as [cx [[[o class]|]|e]]; [|done..].
  unfold register_convo. assert (convo_obj (match class with Dm => Direct o | GroupClass => Group o end) = o) as ->
    by (by destruct class). cbn [cached_convos set_services]. by destruct (cached_convos k !! obj_id o).
Qed.

(** C21. Routing of an inbound payload, exactly, on every branch. An envelope
    that does not decode is an error; one for the inbox is handed to the inbox,
    whose new conversation is filed under its id and announced, unless the id
    is taken; one for a conversation the core holds is handed to that
    conversation, which is updated in place; one for a conversation only the
    store knows is handed to the conversation loaded for it; one the store does
    not know either is ignored, and a store that cannot answer is an error.
    What the conversation answers is the answer. A payload for a conversation
    touches that conversation only, never the records of the store, and its
    outcome is reported under that id. *)
Theorem handle_payload_routing {SL : ConversationStoreLaws CS} rnd payload k :
  core_ok k → cs_ok (cx_store (services k)) →
  let '(k', r) := handle_payload rnd payload k in
  match envelope_decode payload with
  | Err e => k' = k ∧ r = Err (Error (ChatError.DecodeError e))
  | Ok env =>
      let id := conversation_hint env in
      let body := ev_payload env in
      if decide (id = inbox_id k) then
        inbox_id k' = inbox_id k ∧
        match inbox_frame rnd body (services k) with
        | (cx, Err e) => k' = set_services cx k ∧ r = Err e
        | (cx, Ok None) => k' = set_services cx k ∧ r = Ok OutEmpty
        | (cx, Ok (Some (o, class))) =>
            services k' = cx ∧
            match cached_convos k !! obj_id o with
            | Some _ => cached_convos k' = cached_convos k ∧
                r = Err (Error (ChatError.Generic "Convo already exists. Cannot save"))
            | None =>
                cached_convos k' =
                  <[obj_id o := match class with Dm => Direct o | GroupClass => Group o end]> (cached_convos k) ∧
                r = Ok (OutInbox {| new_conversation := {| nc_convo_id := obj_id o; nc_class := class |};
                                    initial := None |})
            end
        end
      else
        match cached_convos k !! id with
        | Some ct =>
            let '((cx, o), ro) := obj_handle_payload body (services k, convo_obj ct) in
            k' = {| services := cx; inbox_id := inbox_id k;
                    cached_convos := <[id := with_obj ct o]> (cached_convos k) |} ∧ r = OutConvo <$> ro
        | None =>
            match cs_has (cx_store (services k)) id with
            | Err e => k' = k ∧ r = Err (Error (ChatError.Storage e))
            | Ok false => k' = k ∧ r = Ok OutEmpty
            | Ok true =>
                match load_convo id (services k) with
                | (cx, Err e) => k' = set_services cx k ∧ r = Err e
                | (cx, Ok o) =>
                    obj_id o = id ∧
                    let '((cx', _), ro) := obj_handle_payload body (cx, o) in
                    k' = set_services cx' k ∧ r = OutConvo <$> ro
                end
            end
        end ∧
        only_convo id k k' ∧
        ∀ out, r = Ok out → out = OutEmpty ∨ ∃ o, out = OutConvo o ∧ co_convo_id o = id
  end.
Proof.
  intros Hok Hcs. rewrite handle_payload_eq. destruct (envelope_decode payload) as [env|e]; [|done].
  cbv zeta. set (id := conversation_hint env).
  destruct (decide (id = inbox_id k)) as [Hid|Hid]; [apply dispatch_to_inbox2_eq|].
  pose proof (to_convo_spec id (ev_payload env) k Hok Hcs) as Hd.
  destruct (cached_convos k !! id) as [ct|] eqn:Hk.
  - rewrite decide_True by eauto. destruct (obj_handle_payload _ _) as [[cx o] ro] eqn:Hp.
    rewrite (to_convo_cached _ _ _ _ _ _ _ Hk Hp) in Hd |- *. destruct Hd as [H1 H2]. split_and!; try done.
    intros out Hr. right. auto.
  - rewrite decide_False by (by intros [? [=]]).
    destruct (cs_has (cx_store (services k)) id) as [[]|e]; [|split_and!; try done; intros out [= <-]; by left|done].
    rewrite (to_convo_loaded _ _ _ Hk) in Hd |- *. destruct (load_convo id (services k)) as [cx [o|e]] eqn:Hl.
    2: { split_and!; try done. apply Hd. }
    destruct (obj_handle_payload _ _) as [[cx' o'] ro]. destruct Hd as [H1 H2].
    split_and!; try done; [by eapply load_convo_id|]. intros out Hr. right. auto.
Qed.

(** ** Listings *)

(** The listings say what the core can do: no conversation is listed
    twice, the conversations listed are exactly those it can receive for, the
    sendable ones exactly those it can send to, and whatever it can send to it
    can also receive for. *)
Theorem listings_exact {SL : ConversationStoreLaws CS} k ids sendable :
  cs_ok (cx_store (services k)) → (∀ id, is_ok (cs_has (cx_store (services k)) id) = true) →
  list_all_conversations k = Ok ids → list_sendable_conversations k = Ok sendable →
  NoDup ids ∧ (∀ id, id ∈ ids ↔ can_receive id k = true) ∧
  NoDup sendable ∧ (∀ id, id ∈ sendable ↔ can_send id k = true) ∧
  (∀ id, can_send id k = true → can_receive id k = true).
Proof.
  intros Hcs Hhas Hl Hs. unfold list_sendable_conversations in Hs. rewrite Hl in Hs.
  cbn [mbind result_bind] in Hs. injection Hs as <-.
  unfold list_all_conversations in Hl. apply bind_Ok in Hl as (records & Hrec%map_err_Ok & [= <-]).
  set (ids := unique _).
  assert (∀ id, can_send id k = true → can_receive id k = true) as Hsr.
  { intros id. unfold can_send, can_receive. by destruct (cached_convos k !! id). }
  assert (∀ id, id ∈ ids ↔ can_receive id k = true) as Hids.
  { intros id. unfold ids, can_receive. rewrite unique_elem, elem_of_app, orb_true_iff,
      bool_decide_eq_true, (Logic.or_comm (_ ∈ map _ _)). f_equiv.
    - rewrite list_elem_of_fmap. split.
      + intros ([id' ct] & -> & H%elem_of_map_to_list). eauto.
      + intros [ct H%elem_of_map_to_list]. by exists (id, ct).
    - specialize (Hhas id). destruct (cs_has _ id) as [b|] eqn:Hb; [|done].
      destruct (cs_has_load _ _ _ Hcs Hb) as (o & Ho & ->). rewrite list_elem_of_fmap. split.
      + intros (m & -> & Hm). apply (cs_load_all_elem _ _ m Hcs Hrec) in Hm.
        rewrite Hm in Ho. by injection Ho as <-.
      + destruct o as [m|]; [|done]. intros _. exists m. pose proof (cs_load_id _ _ _ Hcs Ho) as <-.
        split; [done|]. by apply (cs_load_all_elem _ _ m Hcs Hrec). }
  split_and!; [apply unique_NoDup|done|apply NoDup_filter, unique_NoDup| |done].
  intros id. rewrite list_elem_of_filter, Hids. naive_solver.
Qed.

(** The rosters a group reports: its signers are exactly the seated ones
    the auth service calls valid; no pending signer is seated,
    and every invite not seated yet is reported pending. *)
Theorem rosters_exact id k :
  (∀ l, group_signers id k = Ok l →
    ∃ ct seated, cached_convos k !! id = Some ct ∧ obj_signers (convo_obj ct) = Ok seated ∧
      ∀ a, a ∈ l ↔ ∃ s, s ∈ seated ∧ a = Authenticated s ∧ vouched (signer s) (participant_id s)) ∧
  (∀ l, group_pending_signers id k = Ok l →
    (∃ o, cached_convos k !! id = Some (Direct o) ∧ l = []) ∨
    ∃ o seated invited, cached_convos k !! id = Some (Group o) ∧ obj_signers o = Ok seated ∧
      obj_pending_signers o = Ok invited ∧
      ∀ s, s ∈ l ↔ s ∈ invited ∧ (signer s ∉ map signer seated)).
Proof.
  split.
  - intros l (ct & Hct%ok_or_Ok & (seated & Hs & [= <-])%bind_Ok)%bind_Ok.
    exists ct, seated. split_and!; [done..|]. intros a. rewrite elem_of_filter_map.
    by setoid_rewrite require_valid_Some.
  - intros l (ct & Hct%ok_or_Ok & H)%bind_Ok. destruct ct as [o|o]; [left|right].
    { exists o. by injection H as <-. }
    apply bind_Ok in H as (seated & Hs & H). apply bind_Ok in H as (invited & Hi & [= <-]).
    exists o, seated, invited. split_and!; [done..|]. intros s. rewrite list_elem_of_filter. tauto.
Qed.
End core.

Section any.
Context {HX : Hex} {B : Blake2b} {PB : Prost} {PB2 : ProstV2} {TC : TlsCodec}.
Context {P G K : Type} {ML : OpenMls P G} {DM : DeMls P K}.
Context {DS : Type} {DSI : DeliveryService DS} {RS : Type} {RSI : RegistrationService RS}.
Context {CS : Type} {CSI : ConversationStore CS} {WS : Type} {WSI : WakeupService WS}.
Context {E : Type} (show : E → string).

Abbreviation AnyCore := (Core DS RS CS P WS (AnyConvo G K)).

(** What can happen to a core. A call is served with whatever the auth service
    answers at the time, and between calls everything the core shares with the
    world may change: the transport, the registry, the wake-ups, and the keys,
    randomness and clock of the provider. Its identity, its records and its
    causal history are its own. *)
Definition own_same (cx cx' : ServiceContext DS RS CS P WS) : Prop :=
  cx_identity cx' = cx_identity cx ∧ cx_store cx' = cx_store cx ∧ cx_causal cx' = cx_causal cx.
Inductive any_core_step : AnyCore → AnyCore → Prop :=
| core_served (A : AuthService E) k k' :
    core_step (R := list byte * Seed) (CO := any_convo (A := A)) (CF := any_factory (A := A)) (A := A) show k k' →
    any_core_step k k'
| core_registers k : any_core_step k (register_keypackage k).1
| core_outside cx k : own_same (services k) cx → any_core_step k (set_services cx k).

(** An auth service, to speak of ids without one. *)
Definition no_auth : AuthService E :=
  {| validate_signer _ _ := Ok AuthResult.Invalid; signers_for_participant _ := Ok [] |}.
Abbreviation later := (core_later (CO := any_convo (A := no_auth))).

Lemma inbox_register_own (cx : ServiceContext DS RS CS P WS) :
  cx_identity (inbox_register cx).1 = cx_identity cx ∧ cx_causal (inbox_register cx).1 = cx_causal cx.
Proof.
  unfold inbox_register, mbind, st_bind, get. cbv beta iota.
  destruct (kp_build (cx_provider cx) (cx_identity cx)) as [p' [kp|e]]; cbn; [|done].
  destruct (kp_serialize kp); cbn; [|done]. unfold Services.step. cbn. by destruct (rs_register _ _ _).
Qed.

Lemma any_core_step_later k k' : any_core_step k k' → later k k'.
Proof.
  destruct 1 as [A k k' H| |cx k (Hi & _)].
  - by apply (core_step_later (CO := any_convo (A := A)) (CL := any_convo_laws (A := A))
      (CF := any_factory (A := A)) (FL := any_factory_laws (A := A)) (A := A) show) in H.
  - apply on_services_later. intros cx. apply inbox_register_own.
  - split_and!; try done. intros id ct H. exists (convo_obj ct). by destruct ct.
Qed.
Lemma any_core_steps_later k k' : rtc any_core_step k k' → later k k'.
Proof. induction 1; [done|]. etrans; [by apply any_core_step_later|done]. Qed.

Lemma new_with_name_starts ident ds registry ws store provider (k : AnyCore) :
  new_with_name ident ds registry ws store provider = Ok k →
  cached_convos k = ∅ ∧ inbox_id k = conversation_id_for (id_signer_key ident) ∧
  cx_identity (services k) = ident ∧ cx_causal (services k) = store_new.
Proof.
  unfold new_with_name. intros (k0 & Hk0%map_err_Ok & H)%bind_Ok. unfold core_assemble in Hk0.
  unfold inbox_new in Hk0. destruct (ds_subscribe _ _) as [ds' [[]|e]]; [|done].
  cbn [mbind result_bind map_err] in Hk0. destruct provider as [p|e]; [|done].
  cbn [mbind result_bind map_err] in Hk0. injection Hk0 as <-.
  unfold register_keypackage, on_services in H. cbn [services] in H.
  match type of H with context [inbox_register ?cx] => pose proof (inbox_register_own cx) as [Hi Hh] end.
  destruct (inbox_register _) as [cx [[]|e]]; [|done]. by injection H as <-.
Qed.

(** C22. A core never loses or swaps a conversation: over any run of calls,
    payloads and wake-ups of a core made by [new_with_name], whatever fails on
    the way, whatever the auth service answers each time and however the
    transport, the registry and the clock change in between, the core keeps its identity and inbox id, every conversation is
    filed under its own id, and each one there at some point is still there at
    every later point, with the same id and class. *)
Theorem core_never_loses ident ds registry ws store provider (k0 k1 k2 : AnyCore) :
  new_with_name ident ds registry ws store provider = Ok k0 →
  rtc any_core_step k0 k1 → rtc any_core_step k1 k2 →
  cx_identity (services k2) = ident ∧ inbox_id k2 = conversation_id_for (id_signer_key ident) ∧
  map_Forall (λ id ct, any_id (convo_obj ct) = id) (cached_convos k2) ∧
  ∀ id ct, cached_convos k1 !! id = Some ct →
    ∃ o, cached_convos k2 !! id = Some (with_obj ct o) ∧ any_id o = id.
Proof.
  intros (Hc & Hi & Hid & _)%new_with_name_starts H1%any_core_steps_later H2%any_core_steps_later.
  destruct H1 as (A1 & A2 & A3 & A4), H2 as (B1 & B2 & B3 & B4).
  assert (core_ok (CO := any_convo (A := no_auth)) k2) as Hok2.
  { apply B4, A4. unfold core_ok. rewrite Hc. apply map_Forall_empty. }
  split_and!; [congruence..|exact Hok2|].
  intros id ct Hct. destruct (B3 _ _ Hct) as [o Ho]. exists o. split; [done|].
  apply Hok2 in Ho. by destruct ct.
Qed.
End any.

(** ** Witnesses *)

Abbreviation DemoCore :=
  (Core (list AddressedEnvelope) (gmap string (list byte)) MemStore () ()
     (AnyConvo ToyGroup ToyConsensus)).

Definition demo_convo : Convo (list AddressedEnvelope) (gmap string (list byte)) MemStore () ()
    (AnyConvo ToyGroup ToyConsensus) :=
  any_convo (HX := hex_ref) (B := blake_toy) (PB := prost_ref) (PB2 := prost_v2_ref)
    (TC := tls_ref) (ML := mls_ref) (DM := demls_ref) (DSI := outbox) (RSI := registry_ref)
    (WSI := wakeup_ref) (A := auth_ref).
Definition demo_factory :=
  any_factory (HX := hex_ref) (B := blake_toy) (PB := prost_ref) (PB2 := prost_v2_ref)
    (TC := tls_ref) (ML := mls_ref) (DM := demls_ref) (DSI := outbox) (RSI := registry_ref)
    (WSI := wakeup_ref) (A := auth_ref) (CSI := mem_conversation_store).

(** A core of A's, and one that holds two conversations and a record. *)
Definition demo_new : result Fault DemoCore :=
  new_with_name (HX := hex_ref) (B := blake_toy) (ML := mls_ref) (DSI := outbox)
    (RSI := registry_ref) ident_a [] ∅ () memstore_new (Ok ()).
Definition demo_core : DemoCore :=
  {| services := {| cx_ds := []; cx_registry := ∅; cx_identity := ident_a; cx_provider := ();
       cx_store := save_conversation memstore_new {| local_convo_id := "0d"; kind := GroupV1 |};
       cx_causal := store_new; cx_wakeup := () |};
     inbox_id := "inbox";
     cached_convos := {[ "0a0b" := Direct (AnyV1 (convo_ab 0)); "0c" := Group (AnyV2 (v2_ab 7)) ]} |}.
Definition demo_fresh : DemoCore := match demo_new with Ok k => k | Err _ => demo_core end.

(** An envelope for A's first conversation. *)
Definition demo_envelope : list byte :=
  envelope_encode (Prost := prost_ref)
    {| conversation_hint := "0a0b"; salt := 0; ev_payload := [x01] |}.

Lemma demo_core_ok : core_ok (CO := demo_convo) demo_core.
Proof. apply map_Forall_insert_2; [done|]. apply map_Forall_singleton. done. Qed.
Lemma demo_store_ok : convos_filed (cx_store (services demo_core)).
Proof. apply map_Forall_insert_2; [done|]. apply map_Forall_empty. Qed.

Lemma handle_payload_routing_witness :
  only_convo "0a0b" demo_core (handle_payload (HX := hex_ref) (PB := prost_ref) (CO := demo_convo)
    (CF := demo_factory) ([], ()) demo_envelope demo_core).1.
Proof.
  pose proof (handle_payload_routing (HX := hex_ref) (PB := prost_ref) (CO := demo_convo)
    (CL := any_convo_laws) (CF := demo_factory) (FL := any_factory_laws)
    (SL := mem_conversation_laws) ([], ()) demo_envelope demo_core demo_core_ok demo_store_ok) as H.
  destruct (handle_payload _ _ _) as [k' r].
  change (envelope_decode demo_envelope) with (envelope_decode (Prost := prost_ref)
    (envelope_encode (Prost := prost_ref)
       {| conversation_hint := "0a0b"; salt := 0; ev_payload := [x01] |})) in H.
  rewrite (envelope_rt (ProstLaws := prost_ref_laws)) in H. exact (proj1 (proj2 H)).
Defined.

Lemma listings_exact_witness :
  let sendable := ["0a0b"%string] in
  NoDup sendable ∧ can_send (CO := demo_convo) "0a0b" demo_core = true ∧
  can_receive "0c" demo_core = true ∧ can_send (CO := demo_convo) "0c" demo_core = false.
Proof.
  destruct (listings_exact (CO := demo_convo) (SL := mem_conversation_laws) demo_core
    ["0d"; "0c"; "0a0b"]%string ["0a0b"]%string) as (_ & Hr & Hn & Hs & _);
    [apply demo_store_ok|done|vm_compute; reflexivity|vm_compute; reflexivity|].
  split_and!; [done|apply Hs; by left|apply Hr; by right; left|reflexivity].
Defined.

(** A creates a GroupV1 group, then says something in it. *)
Definition demo_grouped : DemoCore :=
  (create_group_convo_v1 (CO := demo_convo) (CF := demo_factory) (A := auth_ref) (λ s, s)
     [] demo_fresh).1.
Definition demo_said : DemoCore :=
  (send_content (HX := hex_ref) (CO := demo_convo) (CF := demo_factory) "0a0b" [x68]
     demo_grouped).1.

Lemma core_never_loses_witness :
  length (cx_ds (services demo_said)) = 1 ∧
  ∃ o, cached_convos demo_said !! "0a0b"%string = Some (Group o) ∧ any_id o = "0a0b"%string.
Proof.
  split; [vm_compute; reflexivity|].
  destruct (core_never_loses (HX := hex_ref) (B := blake_toy) (PB := prost_ref)
    (PB2 := prost_v2_ref) (TC := tls_ref) (ML := mls_ref) (DM := demls_ref) (DSI := outbox)
    (RSI := registry_ref) (WSI := wakeup_ref) (E := string) (λ s, s) ident_a [] ∅ ()
    memstore_new (Ok ()) demo_fresh demo_grouped demo_said) as (_ & _ & _ & H).
  - vm_compute. reflexivity.
  - apply rtc_once, (core_served _ auth_ref), step_group_v1.
  - apply rtc_once, (core_served _ auth_ref), step_send.
  - destruct (cached_convos demo_grouped !! "0a0b"%string) as [[o|o]|] eqn:Ho.
    + exfalso. revert Ho. vm_compute. discriminate.
    + exact (H _ _ Ho).
    + exfalso. revert Ho. vm_compute. discriminate.
Defined.
