(* ===== verification/ClientTheorems.v ===== *)
(** * Theorems about the client

    What the application is told over a whole run of calls and worker turns:
    gaps and acknowledgements once, messages only of endorsed installations,
    conversations announced once; and that a run of the client is a run of the
    core. *)

From Stdlib Require Import Strings.Byte Strings.String.
From stdpp Require Import base gmap strings numbers list.
From S2P Require Import Prelude Utf8 Hex Ed25519 Context Addr Identity CausalHistory CausalTheorems.
From S2P Require Import Storage Delivery Services MlsUtils GroupV1 GroupV3 GroupV2 Convo Core.
From S2P Require Import Installation Client Evidence Reference CoreTheorems.

Lemma filter_map_nil {X Y} (f : X → option Y) l : (∀ x, x ∈ l → f x = None) → filter_map f l = [].
Proof.
  induction l as [|x l IH]; [done|]. cbn. intros H. rewrite H by by left.
  apply IH. intros y Hy. apply H. by right.
Qed.

(** An invariant of every step is one of every run. *)
Lemma rtc_invariant {X} (R : relation X) (I : X → Prop) x y :
  (∀ x y, I x → R x y → I y) → rtc R x y → I x → I y.
Proof. intros Hs. induction 1; eauto. Qed.

Lemma filter_map_map {X Y} (f : X → option Y) (g : Y → X) l :
  (∀ y, f (g y) = Some y) → filter_map f (map g l) = l.
Proof. intros H. induction l as [|y l IH]; [done|]. cbn. by rewrite H, IH. Qed.

Section client.
Context {HX : Hex} {HL : HexLaws HX} {B : Blake2b} {D : Dalek} {DL : DalekLaws D} {PB : Prost}.
Context {DS RS CS P WS O R : Type} {DSI : DeliveryService DS} {CSI : ConversationStore CS}.
Context {CO : Convo DS RS CS P WS O} {CL : ConvoLaws DS RS CS P WS O}.
Context {CF : ConvoFactory DS RS CS P WS O R} {FL : ConvoFactoryLaws DS RS CS P WS O R}.
Context {E : Type} {A : AuthService E}.
Context {EV : ConvoEvidence DS RS CS P WS O} {FE : FactoryEvidence DS RS CS P WS O R}.
Context (show : E → string) (show_chat : ChatError.t → string).
Context (show_addr : AccountAddrError.t → string).

Abbreviation KC := (Core DS RS CS P WS O).
Abbreviation CC := (Client DS RS CS P WS O).
Abbreviation cstep := (client_step show show_chat show_addr).
Abbreviation turn := (worker_turn show_chat).
Implicit Types (k : KC) (c : CC).

(** ** What a list of events says *)

Definition gap_of (e : Event) : option MissingMessage :=
  match e with
  | MessageMissing id mid s =>
      Some {| m_conversation_id := id; m_frontier := {| f_sender := s; f_message_id := mid |} |}
  | _ => None
  end.
Definition ack_of (e : Event) : option DeliveryAck :=
  match e with
  | MessageAcked id mid s => Some {| a_conversation_id := id; a_message_id := mid; a_acked_by := s |}
  | _ => None
  end.
Definition started_of (e : Event) : option (string * ConversationClass) :=
  match e with ConversationStarted id class => Some (id, class) | _ => None end.

(** What one outcome reports. *)
Definition reports (e : Event) : Prop :=
  match e with MessageMissing _ _ _ | MessageAcked _ _ _ => False | _ => True end.

Lemma observation_reports id o e : observation_event id o = Some e → reports e ∧ started_of e = None.
Proof.
  unfold observation_event. destruct o as [c|]; [|by intros [= <-]].
  intros (m & _ & ->)%fmap_Some. done.
Qed.

Lemma observations_report id l e :
  e ∈ filter_map (observation_event id) l → reports e ∧ started_of e = None.
Proof. intros (o & _ & H)%elem_of_filter_map. by eapply observation_reports. Qed.

Lemma events_report out e : e ∈ events_from_inbound out → reports e.
Proof.
  destruct out as [|co|io]; cbn; [by intros ?%elem_of_nil|by intros [? _]%observations_report|].
  intros [->|[? _]%observations_report]%elem_of_cons; done.
Qed.

Lemma reports_silent l :
  (∀ e, e ∈ l → reports e) → filter_map gap_of l = [] ∧ filter_map ack_of l = [].
Proof. intros H. split; apply filter_map_nil; intros [] He%H; done. Qed.

Lemma gaps_drained acked gaps :
  filter_map gap_of (delivery_ack_events acked ++ missing_events gaps) = gaps ∧
  filter_map ack_of (delivery_ack_events acked ++ missing_events gaps) = acked ∧
  filter_map started_of (delivery_ack_events acked ++ missing_events gaps) = [].
Proof.
  rewrite !filter_map_app. unfold delivery_ack_events, missing_events.
  rewrite (filter_map_map gap_of _ gaps), (filter_map_map ack_of _ acked) by by intros [? []].
  rewrite !(filter_map_nil _ (map _ _)), ?app_nil_r; [done|..];
    by intros x (y & -> & _)%list_elem_of_fmap.
Qed.

(** ** A turn of the worker *)

(** The events of a turn: those of the outcome or an error, then the
    acknowledgements, then the gaps; nothing is left to drain. *)
Definition turn_of (k k1 k' : KC) (reported evs : list Event) : Prop :=
  core_grew k k1 ∧ core_later k k1 ∧
  (∀ e, e ∈ reported → reports e) ∧
  evs = reported ++ delivery_ack_events (acks (cx_causal (services k1))) ++
        missing_events (missing (cx_causal (services k1))) ∧
  cx_causal (services k') =
    {| convos := convos (cx_causal (services k1)); missing := []; acks := [] |} ∧
  cached_convos k' = cached_convos k1 ∧ core_later k1 k'.

Lemma drain_later k : core_later k (drain_events k).1.
Proof. split_and!; try done. intros id ct H. exists (convo_obj ct). by destruct ct. Qed.

Lemma on_inbound_spec rnd bytes k k' evs :
  on_inbound show_chat rnd bytes k = (k', Some evs) →
  ∃ k1 r reported, handle_payload rnd bytes k = (k1, r) ∧ turn_of k k1 k' reported evs ∧
    match r with
    | Ok out => reported = events_from_inbound out
    | Err f => ∃ e, f = Error e ∧ reported = [InboundError (show_chat e)]
    end.
Proof.
  unfold on_inbound. pose proof (handle_payload_grew rnd bytes k) as Hg.
  pose proof (handle_payload_later rnd bytes k) as Hl.
  destruct (handle_payload rnd bytes k) as [k1 [out|[e|]]]; intros [= <- <-]; cbn [fst] in *.
  - exists k1, (Ok out), (events_from_inbound out). split_and!; try done.
    split_and!; try done; [apply events_report|apply drain_later].
  - exists k1, (Err (Error e)), [InboundError (show_chat e)]. split_and!; try done; [|eauto].
    split_and!; try done; [by intros ? ->%list_elem_of_singleton|apply drain_later].
Qed.

Lemma on_wakeup_spec id k k' evs :
  on_wakeup id k = (k', Some evs) →
  ∃ k1 r reported, wakeup id k = (k1, r) ∧ turn_of k k1 k' reported evs ∧
    match r with Ok out => reported = events_from_inbound out | Err _ => reported = [] end.
Proof.
  unfold on_wakeup. pose proof (wakeup_grew id k) as Hg. pose proof (wakeup_later id k) as Hl.
  destruct (wakeup id k) as [k1 [out|[e|]]]; intros [= <- <-]; cbn [fst] in *.
  - exists k1, (Ok out), (events_from_inbound out). split_and!; try done.
    split_and!; try done; [apply events_report|apply drain_later].
  - exists k1, (Err (Error e)), []. split_and!; try done.
    split_and!; try done; [by intros ? ?%elem_of_nil|apply drain_later].
Qed.

(** Only a prefix reaches an application that leaves. *)
Lemma forward_spec budget evs :
  let '(sent, b) := forward budget evs in
  sent `prefix_of` evs ∧ (is_some b = true → sent = evs).
Proof.
  revert budget. induction evs as [|e evs IH]; intros budget; [by split|]. cbn [forward].
  destruct budget as [[|n]|].
  - split; [apply prefix_nil|done].
  - specialize (IH (Some n)). destruct (forward (Some n) evs) as [sent b].
    destruct IH as [H1 H2]. split; [by apply prefix_cons|]. intros Hb. by rewrite H2.
  - specialize (IH None). destruct (forward None evs) as [sent b].
    destruct IH as [H1 H2]. split; [by apply prefix_cons|]. intros Hb. by rewrite H2.
Qed.

(** A turn either sends a prefix of the events of a drive of the core, all of
    them when the worker goes on, or ends the worker without an event. *)
Lemma worker_turn_spec budget input k k' sent b :
  turn budget input k = (k', sent, b) →
  (sent = [] ∧ b = None ∧ core_grew k k' ∧ core_later k k') ∨
  ∃ evs k1 reported, turn_of k k1 k' reported evs ∧ sent `prefix_of` evs ∧
    (is_some b = true → sent = evs) ∧
    ((∃ rnd bytes r, input = Inbound rnd (Some bytes) ∧ handle_payload rnd bytes k = (k1, r) ∧
        match r with
        | Ok out => reported = events_from_inbound out
        | Err f => ∃ e, f = Error e ∧ reported = [InboundError (show_chat e)]
        end) ∨
     (∃ id r, input = WakeupInput (Some id) ∧ wakeup id k = (k1, r) ∧
        match r with Ok out => reported = events_from_inbound out | Err _ => reported = [] end)).
Proof.
  unfold worker_turn. pose proof (forward_spec budget) as Hf.
  destruct input as [rnd [bytes|]|[id|]|].
  2,4,5: intros [= <- <- <-]; left; split_and!; try done; apply grows_refl.
  - destruct (on_inbound show_chat rnd bytes k) as [k2 [evs|]] eqn:Ht.
    + specialize (Hf evs). destruct (forward budget evs) as [sent' b']. intros [= <- <- <-].
      apply on_inbound_spec in Ht as (k1 & r & reported & Hh & Hturn & Hr).
      right. exists evs, k1, reported. split_and!; [done|apply Hf..|]. left. eauto 10.
    + intros [= <- <- <-]. left. unfold on_inbound in Ht.
      pose proof (handle_payload_grew rnd bytes k) as Hg.
      pose proof (handle_payload_later rnd bytes k) as Hl.
      destruct (handle_payload rnd bytes k) as [k1 [out|[e|]]]; injection Ht as <-; done.
  - destruct (on_wakeup id k) as [k2 [evs|]] eqn:Ht.
    + specialize (Hf evs). destruct (forward budget evs) as [sent' b']. intros [= <- <- <-].
      apply on_wakeup_spec in Ht as (k1 & r & reported & Hh & Hturn & Hr).
      right. exists evs, k1, reported. split_and!; [done|apply Hf..|]. right. eauto 10.
    + intros [= <- <- <-]. left. unfold on_wakeup in Ht.
      pose proof (wakeup_grew id k) as Hg. pose proof (wakeup_later id k) as Hl.
      destruct (wakeup id k) as [k1 [out|[e|]]]; injection Ht as <-; done.
Qed.

(** A call changes the core by sends and receives only, and sends no event. *)
Lemma on_core_keeps {X} (I : KC → KC → Prop) (m : St KC X) k :
  keeps I m → I k (on_core show_chat m k).1.
Proof. intros Hm. unfold on_core. specialize (Hm k). by destruct (m k). Qed.

Lemma calls_keep (I : KC → KC → Prop) `{!Reflexive I} c c' :
  (∀ p, keeps I (create_direct_convo show p)) →
  (∀ rnd ps n d, keeps I (create_group_convo_v2 show rnd ps n d)) →
  (∀ id ps, keeps I (group_add_participants show id ps)) →
  (∀ id ps, keeps I (group_remove_participants id ps)) →
  (∀ id content, keeps I (send_content id content)) →
  cstep c c' →
  (cl_events c' = cl_events c ∧ cl_worker c' = cl_worker c ∧ I (cl_core c) (cl_core c')) ∨
  ∃ budget input sent, cl_worker c = Some budget ∧
    turn budget input (cl_core c) = (cl_core c', sent, cl_worker c') ∧
    cl_events c' = cl_events c ++ sent.
Proof.
  intros H1 H2 H3 H4 H5 [act c0].
  assert (∀ X (m : KC → KC * result ClientFault X) (rep : _ → ClientReply), (∀ k, I k (m k).1) →
    let '(k, r) := m (cl_core c0) in I (cl_core c0) (cl_core (with_core c0 k, rep r).1)) as Hcall.
  { intros X m rep Hm. specialize (Hm (cl_core c0)). by destruct (m (cl_core c0)). }
  destruct act as [account|rnd accounts md|id accounts|id accounts|id content|input]; cbn [client_act].
  1: specialize (Hcall _ (create_direct_conversation show show_chat show_addr account) AnsweredId).
  2: specialize (Hcall _ (create_group_conversation show show_chat show_addr rnd accounts md) AnsweredId).
  3: specialize (Hcall _ (add_group_participants show show_chat show_addr id accounts) AnsweredUnit).
  4: specialize (Hcall _ (remove_group_participants show_chat show_addr id accounts) AnsweredUnit).
  5: specialize (Hcall _ (send_message show_chat id content) AnsweredId).
  6: { destruct (cl_worker c0) as [budget|] eqn:Hw; [|left; split_and!; done || reflexivity].
       destruct (turn budget input (cl_core c0)) as [[k sent] w] eqn:Ht. right. by exists budget, input, sent. }
  all: case_match; left; split_and!; try done; apply Hcall; intros k.
  - unfold create_direct_conversation. case_match; [by apply on_core_keeps|reflexivity].
  - unfold create_group_conversation. case_match; [by apply on_core_keeps|reflexivity].
  - unfold add_group_participants. case_match; [by apply on_core_keeps|reflexivity].
  - unfold remove_group_participants. case_match; [by apply on_core_keeps|reflexivity].
  - unfold send_message. by apply on_core_keeps.
Qed.

Lemma cstep_cases c c' :
  cstep c c' →
  (cl_events c' = cl_events c ∧ cl_worker c' = cl_worker c ∧
   core_grew (cl_core c) (cl_core c') ∧ core_later (cl_core c) (cl_core c')) ∨
  ∃ budget input sent, cl_worker c = Some budget ∧
    turn budget input (cl_core c) = (cl_core c', sent, cl_worker c') ∧
    cl_events c' = cl_events c ++ sent.
Proof.
  intros Hs.
  destruct (calls_keep core_grew c c') as [(H1 & H2 & H3)|H]; try done;
    try (by intros; first [ apply create_direct_grew | apply create_group_v2_grew
      | apply group_add_grew | apply group_remove_grew | apply send_content_grew ]); [|by right].
  destruct (calls_keep core_later c c') as [(_ & _ & H4)|H]; try done;
    try (by intros; first [ apply create_direct_convo_v1_later | apply create_group_convo_v2_later
      | apply group_add_participants_later | apply group_remove_participants_later
      | apply send_content_later ]); [|by right].
  by left.
Qed.

(** ** Gaps and acknowledgements *)

(** [M] and [A] are everything the worker ever drained; the application saw
    them up to the turn in which it left. *)
Definition history_inv (c : CC) : Prop :=
  ∃ M A, let i := cx_causal (services (cl_core c)) in
    store_inv i (M ++ missing i) (A ++ acks i) ∧
    filter_map gap_of (cl_events c) `prefix_of` M ∧ filter_map ack_of (cl_events c) `prefix_of` A ∧
    (is_some (cl_worker c) = true →
       filter_map gap_of (cl_events c) = M ∧ filter_map ack_of (cl_events c) = A).

Lemma quiet_run_silent i ops :
  Forall quiet ops →
  flat_map o_missing (run i ops).2 = [] ∧ flat_map o_acks (run i ops).2 = [].
Proof.
  intros Hq. revert i. induction Hq as [|o ops Ho _ IH]; intros i; [done|]. cbn [run].
  destruct o; try done; unfold exec.
  - destruct (on_send _ _ _ _) as [i' p]. specialize (IH i'). by destruct (run i' ops).
  - destruct (on_receive _ _ _) as [i' p]. specialize (IH i'). by destruct (run i' ops).
Qed.

Lemma grows_inv i i' M A' :
  grows i i' → store_inv i (M ++ missing i) (A' ++ acks i) →
  store_inv i' (M ++ missing i') (A' ++ acks i').
Proof.
  intros (ops & Hq & ->) Hi. pose proof (quiet_run_silent i ops Hq) as [Q1 Q2].
  assert (Forall op_ok ops) as Hops.
  { eapply Forall_impl; [exact Hq|]. by intros []. }
  pose proof (run_inv i ops M A' Hops Hi) as H. unfold all_missing, all_acks in H.
  by rewrite Q1, Q2 in H.
Qed.

Lemma prefix_filter_map {X Y} (f : X → option Y) l1 l2 :
  l1 `prefix_of` l2 → filter_map f l1 `prefix_of` filter_map f l2.
Proof. intros [l ->]. rewrite filter_map_app. by apply prefix_app_r. Qed.

Lemma history_inv_step c c' : history_inv c → cstep c c' → history_inv c'.
Proof.
  intros (M & A' & Hi & HM & HA & Heq) [(He & Hw & Hg & _)|(budget & input & sent & Hw & Ht & He)]%cstep_cases.
  { exists M, A'. rewrite He, Hw. split_and!; try done. by eapply grows_inv. }
  rewrite Hw in Heq. destruct (Heq eq_refl) as [EM EA].
  apply worker_turn_spec in Ht as
    [(-> & Hb & Hg & _)|(evs & k1 & reported & Hturn & Hp & Hall & _)].
  { exists M, A'. rewrite He, Hb, app_nil_r. split_and!; try done. by eapply grows_inv. }
  destruct Hturn as (Hg & _ & Hrep & -> & Hc & _). apply reports_silent in Hrep as [R1 R2].
  pose proof (gaps_drained (acks (cx_causal (services k1))) (missing (cx_causal (services k1))))
    as (G1 & G2 & _).
  apply (grows_inv _ _ M A' Hg) in Hi.
  exists (M ++ missing (cx_causal (services k1))), (A' ++ acks (cx_causal (services k1))).
  rewrite Hc. cbn [missing acks]. rewrite !app_nil_r. split_and!.
  - by eapply store_inv_same_convos; [|exact Hi].
  - rewrite He, filter_map_app, EM. apply prefix_app.
    apply (prefix_filter_map gap_of) in Hp. by rewrite filter_map_app, R1, G1 in Hp.
  - rewrite He, filter_map_app, EA. apply prefix_app.
    apply (prefix_filter_map ack_of) in Hp. by rewrite filter_map_app, R2, G2 in Hp.
  - intros Hb. rewrite He, (Hall Hb).
    split; rewrite filter_map_app, filter_map_app, ?R1, ?R2, ?G1, ?G2;
      cbn [app]; by rewrite ?EM, ?EA.
Qed.

(** ** Messages *)

(** Attributed to an installation its account endorses. *)
Definition attributed (e : Event) : Prop :=
  match e with
  | MessageReceived _ _ sender _ =>
      addr_wf (ms_account (am_inner sender)) ∧
      vouched (ms_signer_key (am_inner sender)) (account_id (ms_account (am_inner sender)))
  | _ => True
  end.

Lemma observation_attributed id o e :
  content_vouched o → observation_event id o = Some e → attributed e.
Proof.
  unfold observation_event. destruct o as [c|]; [|by intros _ [= <-]].
  intros Hv (m & Hm & ->)%fmap_Some. unfold decode_signer in Hm. case_match eqn:Hd; [|done].
  injection Hm as <-. unfold authenticated_try_from in Hd.
  apply bind_Ok in Hd as (account & Ha%map_err_Ok & [= <-]).
  apply addr_try_from_Ok in Ha as [Hw Hb]. cbn in *. split; [done|].
  unfold account_id. rewrite Hb. by destruct (participant_id (auth_inner (ct_sender c))).
Qed.

Lemma events_attributed out e :
  Forall content_vouched (outcome_observations out) → e ∈ events_from_inbound out → attributed e.
Proof.
  intros Hv. rewrite Forall_forall in Hv.
  assert (∀ id, e ∈ filter_map (observation_event id) (outcome_observations out) → attributed e)
    as Hobs.
  { intros id (o & Ho & He)%elem_of_filter_map. eapply observation_attributed; eauto. }
  destruct out as [|co|io]; cbn; [by intros ?%elem_of_nil|apply Hobs|].
  intros [->|H]%elem_of_cons; [done|by eapply Hobs].
Qed.

Lemma turn_attributed budget input k k' sent b :
  turn budget input k = (k', sent, b) → Forall attributed sent.
Proof.
  intros [(-> & _)|(evs & k1 & reported & Hturn & [rest Hp] & _ & Hwhy)]%worker_turn_spec;
    [constructor|].
  destruct Hturn as (_ & _ & _ & -> & _). apply Forall_forall. intros e He.
  assert (e ∈ reported ∨ ¬ ∃ id bytes s mid, e = MessageReceived id bytes s mid) as [Hr|Hn].
  { assert (e ∈ sent ++ rest) as Hin by (apply elem_of_app; by left). rewrite <- Hp in Hin.
    rewrite !elem_of_app in Hin. unfold delivery_ack_events, missing_events in Hin.
    rewrite !list_elem_of_fmap in Hin.
    destruct Hin as [?|[(? & -> & _)|(? & -> & _)]]; [by left|right; naive_solver..]. }
  2: { destruct e; try done. exfalso. apply Hn. eauto. }
  destruct Hwhy as [(rnd & bytes & [out|f] & _ & Hh & Hr')|(id & [out|f] & _ & Hh & Hr')].
  - subst reported. eapply events_attributed; [|done]. by eapply handle_payload_vouched.
  - destruct Hr' as (err & -> & ->). by apply list_elem_of_singleton in Hr as ->.
  - subst reported. eapply events_attributed; [|done]. by eapply wakeup_vouched.
  - subst reported. by apply elem_of_nil in Hr.
Qed.

Lemma run_attributed c c' : rtc cstep c c' → Forall attributed (cl_events c) → Forall attributed (cl_events c').
Proof.
  apply (rtc_invariant _ (λ c, Forall attributed (cl_events c))). intros c1 c2 IH Hs.
  apply cstep_cases in Hs as [(-> & _)|(b & input & sent & _ & Ht & ->)]; [auto|].
  apply Forall_app. split; [auto|]. by eapply turn_attributed.
Qed.

(** What the core made of a turn's input, and the content it surfaced. *)
Definition turn_outcome (input : WorkerInput (R := R)) k : option PayloadOutcome :=
  match input with
  | Inbound rnd (Some bytes) => match (handle_payload rnd bytes k).2 with Ok out => Some out | Err _ => None end
  | WakeupInput (Some id) => match (wakeup id k).2 with Ok out => Some out | Err _ => None end
  | _ => None
  end.
Definition surfaced (out : PayloadOutcome) (id : string) (ct : Content) : Prop :=
  match out with
  | OutEmpty => False
  | OutConvo co => co_convo_id co = id ∧ ObsContent ct ∈ observations co
  | OutInbox io => nc_convo_id (new_conversation io) = id ∧
      ObsContent ct ∈ flat_map observations (option_list (initial io))
  end.
(** The sender an event names is the one the content was authenticated for. *)
Definition sent_by (ct : Content) (sender : AuthenticatedMember) : Prop :=
  let author := auth_inner (ct_sender ct) in
  ms_signer_key (am_inner sender) = signer author ∧ addr_wf (ms_account (am_inner sender)) ∧
  account_id (ms_account (am_inner sender)) = participant_id author ∧ vouched (signer author) (participant_id author).

Lemma observation_received id' o id bytes sender mid :
  content_vouched o → observation_event id' o = Some (MessageReceived id bytes sender mid) →
  ∃ ct, o = ObsContent ct ∧ id' = id ∧ ct_bytes ct = bytes ∧ ct_message_id ct = mid ∧ sent_by ct sender.
Proof.
  unfold observation_event. destruct o as [c|]; [|done]. intros Hv (m & Hm & [= -> -> -> ->])%fmap_Some.
  exists c. split_and!; try done. unfold decode_signer in Hm. case_match eqn:Hd; [|done]. injection Hm as <-.
  unfold authenticated_try_from in Hd. apply bind_Ok in Hd as (account & Ha%map_err_Ok & [= <-]).
  apply addr_try_from_Ok in Ha as [Hw Hb]. split_and!; try done. cbn. unfold account_id. rewrite Hb.
  by destruct (participant_id (auth_inner (ct_sender c))).
Qed.

Lemma events_received out id bytes sender mid :
  Forall content_vouched (outcome_observations out) → MessageReceived id bytes sender mid ∈ events_from_inbound out →
  ∃ ct, surfaced out id ct ∧ ct_bytes ct = bytes ∧ ct_message_id ct = mid ∧ sent_by ct sender.
Proof.
  rewrite Forall_forall. intros Hv. destruct out as [|co|io]; cbn; [by intros ?%elem_of_nil|..].
  - intros (o & Ho & He)%elem_of_filter_map. apply observation_received in He as (ct & -> & <- & ?); [|by apply Hv].
    by exists ct.
  - intros [[=]|(o & Ho & He)%elem_of_filter_map]%elem_of_cons.
    apply observation_received in He as (ct & -> & <- & ?); [|by apply Hv]. by exists ct.
Qed.

Lemma turn_received budget input k k' sent b id bytes sender mid :
  turn budget input k = (k', sent, b) → MessageReceived id bytes sender mid ∈ sent →
  ∃ out ct, turn_outcome input k = Some out ∧ surfaced out id ct ∧ ct_bytes ct = bytes ∧
    ct_message_id ct = mid ∧ sent_by ct sender.
Proof.
  intros [(-> & _)|(evs & k1 & reported & Hturn & [rest Hp] & _ & Hwhy)]%worker_turn_spec He;
    [by apply elem_of_nil in He|].
  destruct Hturn as (_ & _ & _ & -> & _).
  assert (MessageReceived id bytes sender mid ∈ reported) as Hr.
  { assert (MessageReceived id bytes sender mid ∈ sent ++ rest) as Hin by (apply elem_of_app; by left).
    rewrite <- Hp, !elem_of_app in Hin. unfold delivery_ack_events, missing_events in Hin.
    rewrite !list_elem_of_fmap in Hin. by destruct Hin as [?|[(? & [=] & _)|(? & [=] & _)]]. }
  destruct Hwhy as [(rnd & pl & [out|f] & -> & Hh & Hr')|(cid & [out|f] & -> & Hh & Hr')].
  - subst reported. exists out. unfold turn_outcome. rewrite Hh.
    apply events_received in Hr as (ct & ?); [by exists ct|by eapply handle_payload_vouched].
  - destruct Hr' as (err & -> & ->). by apply list_elem_of_singleton in Hr.
  - subst reported. exists out. unfold turn_outcome. rewrite Hh.
    apply events_received in Hr as (ct & ?); [by exists ct|by eapply wakeup_vouched].
  - subst reported. by apply elem_of_nil in Hr.
Qed.

Lemma act_received act c id bytes sender mid :
  MessageReceived id bytes sender mid ∈ cl_events (client_act show show_chat show_addr act c).1 →
  MessageReceived id bytes sender mid ∈ cl_events c ∨
  ∃ input out ct, act = ActTurn input ∧ turn_outcome input (cl_core c) = Some out ∧ surfaced out id ct ∧
    ct_bytes ct = bytes ∧ ct_message_id ct = mid ∧ sent_by ct sender.
Proof.
  destruct act as [| | | | |input]; cbn [client_act]; [case_match; by left..|].
  destruct (cl_worker c) as [budget|]; [|by left].
  destruct (turn budget input (cl_core c)) as [[k' sent] w] eqn:Ht. cbn [fst cl_events].
  intros [?|Hin]%elem_of_app; [by left|right]. destruct (turn_received _ _ _ _ _ _ _ _ _ _ Ht Hin) as (out & ct & ?).
  by exists input, out, ct.
Qed.

(** ** Announcements *)

Definition of_class (class : ConversationClass) (ct : ConvoTypeOwned O) : Prop :=
  match class, ct with Dm, Direct _ | GroupClass, Group _ => True | _, _ => False end.

Definition announced_inv (c : CC) : Prop :=
  NoDup (filter_map started_of (cl_events c)).*1 ∧
  ∀ id class, (id, class) ∈ filter_map started_of (cl_events c) →
    ∃ ct, cached_convos (cl_core c) !! id = Some ct ∧ of_class class ct.

Lemma later_of_class k k' id ct class :
  core_later k k' → cached_convos k !! id = Some ct → of_class class ct →
  ∃ ct', cached_convos k' !! id = Some ct' ∧ of_class class ct'.
Proof.
  intros (_ & _ & H & _) Hk Hc. destruct (H _ _ Hk) as [o Ho]. exists (with_obj ct o).
  split; [done|]. by destruct ct, class.
Qed.

Lemma observations_start_nothing id l : filter_map started_of (filter_map (observation_event id) l) = [].
Proof. apply filter_map_nil. by intros e [_ H]%observations_report. Qed.

(** Which outcomes announce a conversation. *)
Lemma started_events out :
  filter_map started_of (events_from_inbound out) =
  match out with
  | OutInbox io => [(nc_convo_id (new_conversation io), nc_class (new_conversation io))]
  | _ => []
  end.
Proof.
  destruct out as [|co|io]; [done|apply observations_start_nothing|]. cbn [events_from_inbound].
  unfold inbox_events. cbn [filter_map started_of]. by rewrite observations_start_nothing.
Qed.

Lemma handle_payload_announces rnd bytes k k1 io :
  handle_payload rnd bytes k = (k1, Ok (OutInbox io)) →
  let id := nc_convo_id (new_conversation io) in
  cached_convos k !! id = None ∧
  ∃ ct, cached_convos k1 !! id = Some ct ∧ of_class (nc_class (new_conversation io)) ct.
Proof.
  assert (∀ id p k', to_convo id p k ≠ (k', Ok (OutInbox io))) as Hno.
  { intros id p k' (k2 & co & _ & [=])%st_bind_Ok. }
  rewrite handle_payload_eq. destruct (envelope_decode bytes) as [env|e]; [|done]. cbv zeta.
  case_decide.
  { intros Hd. pose proof (dispatch_to_inbox2_eq rnd (ev_payload env) k) as Hi. rewrite Hd in Hi.
    destruct Hi as [_ Hi]. destruct (inbox_frame _ _ _) as [cx [[[o class]|]|e]]; [|by destruct Hi..].
    destruct Hi as [_ Hi]. destruct (cached_convos k !! obj_id o) eqn:Hn; destruct Hi as [Hk Hr]; [done|].
    injection Hr as ->. cbn. split; [done|]. rewrite Hk, lookup_insert_eq. eexists. split; [done|]. by destruct class. }
  case_decide; [by intros ?%Hno|]. destruct (cs_has _ _) as [[]|]; [by intros ?%Hno|done..].
Qed.

Lemma wakeup_announces id k k1 io : wakeup id k ≠ (k1, Ok (OutInbox io)).
Proof.
  unfold wakeup. intros (k2 & k3 & _ & H)%st_bind_Ok. case_decide; [done|]. case_decide; [|done].
  by apply st_bind_Ok in H as (k4 & co & _ & [=]).
Qed.

(** What a turn announces was not there before it and is there after it. *)
Lemma turn_announces budget input k k' sent b :
  turn budget input k = (k', sent, b) →
  filter_map started_of sent = [] ∨
  ∃ id class ct, filter_map started_of sent = [(id, class)] ∧ cached_convos k !! id = None ∧
    cached_convos k' !! id = Some ct ∧ of_class class ct.
Proof.
  intros [(-> & _)|(evs & k1 & reported & Hturn & Hp & _ & Hwhy)]%worker_turn_spec; [by left|].
  destruct Hturn as (_ & _ & _ & -> & _ & Hcached & _).
  apply (prefix_filter_map started_of) in Hp. rewrite filter_map_app in Hp.
  rewrite (proj2 (proj2 (gaps_drained _ _))), app_nil_r in Hp.
  destruct Hwhy as [(rnd & bytes & [out|f] & _ & Hh & Hr)|(id & [out|f] & _ & Hh & Hr)].
  2: { destruct Hr as (err & _ & ->). apply prefix_nil_inv in Hp. by left. }
  3: { subst reported. apply prefix_nil_inv in Hp. by left. }
  all: subst reported; rewrite started_events in Hp.
  all: destruct out as [|co|io]; [apply prefix_nil_inv in Hp; by left..|].
  - apply handle_payload_announces in Hh as [Hn (ct & Hct & Hcl)].
    destruct (filter_map started_of sent) as [|x l]; [by left|right].
    apply prefix_cons_inv_1 in Hp as Hx. apply prefix_cons_inv_2, prefix_nil_inv in Hp. subst.
    eexists _, _, ct. split; [done|]. by rewrite Hcached.
  - by apply wakeup_announces in Hh.
Qed.

Lemma cstep_later c c' : cstep c c' → core_later (cl_core c) (cl_core c').
Proof.
  intros [(_ & _ & _ & H)|(budget & input & sent & _ & Ht & _)]%cstep_cases; [done|].
  apply worker_turn_spec in Ht as [(_ & _ & _ & H)|(evs & k1 & rep & Hturn & _)]; [done|].
  destruct Hturn as (_ & H1 & _ & _ & _ & _ & H2). by etrans.
Qed.

Lemma announced_inv_step c c' : announced_inv c → cstep c c' → announced_inv c'.
Proof.
  intros [Hn Ha] Hs. pose proof (cstep_later _ _ Hs) as Hl.
  apply cstep_cases in Hs as [(He & _)|(budget & input & sent & _ & Ht & He)].
  { unfold announced_inv. rewrite He. split; [done|]. intros id class Hin.
    destruct (Ha _ _ Hin) as (ct & Hk & Hc). by eapply later_of_class. }
  unfold announced_inv. rewrite He, filter_map_app, fmap_app.
  apply turn_announces in Ht as [->|(id & class & ct & -> & Hfree & Hk & Hc)].
  - cbn. rewrite !app_nil_r. split; [done|]. intros id class Hin.
    destruct (Ha _ _ Hin) as (ct & Hk & Hc). by eapply later_of_class.
  - split.
    + apply NoDup_app. split_and!; [done| |apply NoDup_singleton].
      intros x Hx ->%list_elem_of_singleton. apply list_elem_of_fmap in Hx as ([id' cl'] & Heq & Hx).
      cbn in Heq. subst id'. destruct (Ha _ _ Hx) as (ct' & Hk' & _). congruence.
    + intros id' class' [Hin|[= -> ->]%list_elem_of_singleton]%elem_of_app; [|by exists ct].
      destruct (Ha _ _ Hin) as (ct' & Hk' & Hc'). by eapply later_of_class.
Qed.

(** ** The client as calls of the core *)

(** The calls of the core a client makes, with their arguments. *)
Inductive CoreCall : Type :=
| CallDirect (participant : ParticipantId)
| CallGroup (rnd : R) (participants : list ParticipantId) (name desc : string)
| CallAdd (id : string) (participants : list ParticipantId)
| CallRemove (id : string) (participants : list ParticipantId)
| CallSend (id : string) (content : list byte)
| CallPayload (rnd : R) (bytes : list byte)
| CallWakeup (id : string)
| CallTakeAcks
| CallTakeMissing.
Inductive CoreReply : Type :=
| GaveId (id : string)
| GaveUnit
| GaveOutcome (out : PayloadOutcome)
| GaveAcks (l : list DeliveryAck)
| GaveGaps (l : list MissingMessage).

Definition core_call (call : CoreCall) : St KC CoreReply :=
  match call with
  | CallDirect p => st_map GaveId (create_direct_convo show p)
  | CallGroup rnd ps name desc => st_map GaveId (create_group_convo_v2 show rnd ps name desc)
  | CallAdd id ps => st_map (λ _, GaveUnit) (group_add_participants show id ps)
  | CallRemove id ps => st_map (λ _, GaveUnit) (group_remove_participants id ps)
  | CallSend id content => st_map GaveId (send_content id content)
  | CallPayload rnd bytes => st_map GaveOutcome (handle_payload rnd bytes)
  | CallWakeup id => st_map GaveOutcome (wakeup id)
  | CallTakeAcks => st_map GaveAcks core_take_acks
  | CallTakeMissing => st_map GaveGaps take_missing_messages
  end.
(** Calls in a row; after a panic no further one is made. *)
Fixpoint core_calls (calls : list CoreCall) (k : KC) : KC * list (result Fault CoreReply) :=
  match calls with
  | [] => (k, [])
  | call :: calls =>
      match core_call call k with
      | (k, Err Panic) => (k, [Err Panic])
      | (k, r) => let '(k, rs) := core_calls calls k in (k, r :: rs)
      end
  end.

(** The participant an account address names. *)
Definition account_named (account : string) : option ParticipantId :=
  match addr_from_str account with Ok addr => Some (account_id addr) | Err _ => None end.

(** Which calls an action stands for, while the worker is [running] or not: a
    call names the participants of the given accounts, or none is made; a turn
    handles its input, then drains the acknowledgements, then the gaps. *)
Definition client_calls (act : ClientAction (R := R)) (running : bool) : list CoreCall :=
  match act with
  | ActDirect account => option_list (CallDirect <$> account_named account)
  | ActGroup rnd accounts md =>
      option_list ((λ ps, CallGroup rnd ps (gm_name md) (gm_desc md)) <$> mapM account_named accounts)
  | ActAdd id accounts => option_list (CallAdd id <$> mapM account_named accounts)
  | ActRemove id accounts => option_list (CallRemove id <$> mapM account_named accounts)
  | ActSend id content => [CallSend id content]
  | ActTurn (Inbound rnd (Some bytes)) =>
      if running then [CallPayload rnd bytes; CallTakeAcks; CallTakeMissing] else []
  | ActTurn (WakeupInput (Some id)) => if running then [CallWakeup id; CallTakeAcks; CallTakeMissing] else []
  | ActTurn _ => []
  end.

Definition accounts_of (act : ClientAction (R := R)) : list string :=
  match act with
  | ActDirect account => [account]
  | ActGroup _ accounts _ | ActAdd _ accounts | ActRemove _ accounts => accounts
  | _ => []
  end.
(** The error of a call that was not made: an account address is malformed. *)
Definition bad_address (act : ClientAction (R := R)) (f : ClientFault) : Prop :=
  ∃ account e, account ∈ accounts_of act ∧ addr_from_str account = Err e ∧
    f = ClientErr (ClientError.InvalidAccountAddress (account ++ ": " ++ show_addr e)%string).

(** The events the replies of a turn amount to; [None] ends the worker. *)
Definition turn_told (input : WorkerInput (R := R)) (replies : list (result Fault CoreReply)) : option (list Event) :=
  match input, replies with
  | _, [Ok (GaveOutcome out); Ok (GaveAcks acked); Ok (GaveGaps gaps)] =>
      Some (events_from_inbound out ++ delivery_ack_events acked ++ missing_events gaps)
  | Inbound _ _, [Err (Error e); Ok (GaveAcks acked); Ok (GaveGaps gaps)] =>
      Some (InboundError (show_chat e) :: delivery_ack_events acked ++ missing_events gaps)
  | WakeupInput _, [Err (Error e); Ok (GaveAcks acked); Ok (GaveGaps gaps)] =>
      Some (delivery_ack_events acked ++ missing_events gaps)
  | _, _ => None
  end.

(** What a client must answer, given the replies of the core; [w] is what the
    worker went on with and [w'] what it goes on with. *)
Definition answers (act : ClientAction (R := R)) (replies : list (result Fault CoreReply))
    (w w' : option (option nat)) (reply : ClientReply) : Prop :=
  match act, reply with
  | ActTurn input, SentEvents sent =>
      match w with
      | None => sent = [] ∧ w' = None
      | Some budget =>
          match turn_told input replies with
          | Some told => forward budget told = (sent, w')
          | None => sent = [] ∧ w' = None
          end
      end
  | ActTurn _, _ | _, SentEvents _ => False
  | (ActAdd _ _ | ActRemove _ _), AnsweredId _ => False
  | (ActDirect _ | ActGroup _ _ _ | ActSend _ _), AnsweredUnit _ => False
  | _, AnsweredId r =>
      w' = w ∧
      match replies with
      | [] => ∃ f, r = Err f ∧ bad_address act f
      | [Ok (GaveId id)] => r = Ok id
      | [Err f] => r = Err (from_fault show_chat f)
      | _ => False
      end
  | _, AnsweredUnit r =>
      w' = w ∧
      match replies with
      | [] => ∃ f, r = Err f ∧ bad_address act f
      | [Ok GaveUnit] => r = Ok ()
      | [Err f] => r = Err (from_fault show_chat f)
      | _ => False
      end
  end.
Definition events_of (reply : ClientReply) : list Event :=
  match reply with SentEvents sent => sent | _ => [] end.

Abbreviation act_on := (client_act show show_chat show_addr).

Lemma account_ids_named accounts :
  match account_ids show_addr accounts with
  | Ok ids => mapM account_named accounts = Some ids
  | Err e => mapM account_named accounts = None ∧
      ∃ account ae, account ∈ accounts ∧ addr_from_str account = Err ae ∧
        e = ClientError.InvalidAccountAddress (account ++ ": " ++ show_addr ae)%string
  end.
Proof.
  unfold account_ids. induction accounts as [|a accounts IH]; [done|]. cbn [collect].
  cbn [mapM]. replace (parse_account show_addr a) with (map_err (λ e,
    ClientError.InvalidAccountAddress (a ++ ": " ++ show_addr e)%string) (addr_from_str a)) by done.
  replace (account_named a) with (match addr_from_str a with Ok addr => Some (account_id addr) | Err _ => None end) by done.
  destruct (addr_from_str a) as [addr|ae] eqn:Ha; cbn [mbind result_bind option_bind map_err].
  - destruct (collect _ accounts) as [ids|e]; cbn [mbind result_bind]; [by rewrite IH|].
    destruct IH as (-> & account & ae & Hin & H). split; [done|]. exists account, ae. split; [by right|done].
  - split; [done|]. exists a, ae. split; [by left|done].
Qed.

(** One call on the core, answered through [f]. *)
Lemma core_calls_one call k :
  core_calls [call] k = let '(k', r) := core_call call k in (k', [r]).
Proof. cbn. by destruct (core_call call k) as [k' [x|[]]]. Qed.

Lemma turn_calls call (input : WorkerInput (R := R)) (k : KC) (m : St KC PayloadOutcome) evs :
  core_call call = st_map GaveOutcome m →
  (match m k with
   | (k, Err Panic) => (k, None)
   | (k, Ok out) => let '(k, drained) := drain_events k in (k, Some (events_from_inbound out ++ drained))
   | (k, Err (Error e)) => let '(k, drained) := drain_events k in (k, Some (evs e ++ drained))
   end) =
  (let '(k', replies) := core_calls [call; CallTakeAcks; CallTakeMissing] k in
   (k', match replies with
        | [Ok (GaveOutcome out); Ok (GaveAcks acked); Ok (GaveGaps gaps)] =>
            Some (events_from_inbound out ++ delivery_ack_events acked ++ missing_events gaps)
        | [Err (Error e); Ok (GaveAcks acked); Ok (GaveGaps gaps)] =>
            Some (evs e ++ delivery_ack_events acked ++ missing_events gaps)
        | _ => None
        end)).
Proof. intros Hm. cbn [core_calls]. rewrite Hm. unfold st_map at 1. by destruct (m k) as [k1 [out|[e|]]]. Qed.

Lemma turn_refines budget input k :
  let '(k', sent, w') := turn budget input k in
  let '(k'', replies) := core_calls (client_calls (ActTurn input) true) k in
  k' = k'' ∧ answers (ActTurn input) replies (Some budget) w' (SentEvents sent).
Proof.
  unfold worker_turn. destruct input as [rnd [bytes|]|[id|]|]; try done; cbn [client_calls].
  - unfold on_inbound. rewrite (turn_calls (CallPayload rnd bytes) (Inbound rnd (Some bytes)) k
      (handle_payload rnd bytes) (λ e, [InboundError (show_chat e)])) by done.
    destruct (core_calls _ k) as [k' replies]. cbn [answers turn_told].
    repeat case_match; simplify_eq; done.
  - unfold on_wakeup. rewrite (turn_calls (CallWakeup id) (WakeupInput (Some id)) k (wakeup id) (λ _, [])) by done.
    destruct (core_calls _ k) as [k' replies]. cbn [answers turn_told].
    repeat case_match; simplify_eq; done.
Qed.

(** What an action answers and leaves is what its calls of the core say. *)
Definition refines (act : ClientAction (R := R)) (c c' : CC) (reply : ClientReply) : Prop :=
  let '(k', replies) := core_calls (client_calls act (is_some (cl_worker c))) (cl_core c) in
  cl_core c' = k' ∧ cl_events c' = cl_events c ++ events_of reply ∧
  answers act replies (cl_worker c) (cl_worker c') reply.

(** A call that was made, and one that was not for want of an address. *)
Ltac answered m :=
  try change (option_list (Some ?x)) with [x]; rewrite core_calls_one; cbn [core_call]; unfold on_core, st_map;
  destruct m as [? [[]|?]] || destruct m as [? [?|?]]; cbn; by rewrite app_nil_r.
Ltac unanswered :=
  cbn; rewrite app_nil_r; split_and!; [done..|]; eexists; (split; [done|]); eexists _, _; done.

Lemma act_refines act c : refines act c (act_on act c).1 (act_on act c).2.
Proof.
  unfold refines. destruct act as [account|rnd accounts md|id accounts|id accounts|id content|input]; cbn [client_act client_calls].
  2-4: pose proof (account_ids_named accounts) as Hids;
    unfold create_group_conversation, add_group_participants, remove_group_participants;
    (destruct (account_ids show_addr accounts) as [ids|e];
      [rewrite Hids|destruct Hids as [-> (a & ae & ? & ? & ->)]; unanswered]);
    cbn [option_fmap option_map fmap].
  - unfold create_direct_conversation, parse_account, account_named.
    destruct (addr_from_str account) as [addr|e] eqn:Ha; cbn [map_err option_fmap option_map fmap].
    + answered (create_direct_convo show (account_id addr) (cl_core c)).
    + cbn. rewrite app_nil_r. split_and!; [done..|]. eexists. split; [done|]. exists account, e. split; [by left|done].
  - answered (create_group_convo_v2 show rnd ids (gm_name md) (gm_desc md) (cl_core c)).
  - answered (group_add_participants show id ids (cl_core c)).
  - answered (group_remove_participants id ids (cl_core c)).
  - unfold send_message. answered (send_content id content (cl_core c)).
  - destruct (cl_worker c) as [budget|] eqn:Hw; cbn [is_some].
    + pose proof (turn_refines budget input (cl_core c)) as H.
      destruct (turn budget input (cl_core c)) as [[k' sent] w']. cbn [client_calls] in H.
      destruct (core_calls _ (cl_core c)) as [k'' replies]. by destruct H as [-> H].
    + destruct input as [? []|[]|]; cbn; rewrite Hw, app_nil_r; done.
Qed.

(** ** Dropping the client *)

Lemma worker_loop_run inputs budget c k sent b :
  cl_worker c = Some budget → worker_loop show_chat budget inputs (cl_core c) = (k, sent, b) →
  rtc cstep c {| cl_core := k; cl_events := cl_events c ++ sent; cl_worker := b |}.
Proof.
  revert budget c k sent b. induction inputs as [|i inputs IH]; intros budget c k sent b Hw; cbn [worker_loop].
  { intros [= <- <- <-]. rewrite app_nil_r, <- Hw. by destruct c. }
  destruct (worker_turn show_chat budget i (cl_core c)) as [[k1 sent1] b1] eqn:Ht.
  set (c1 := {| cl_core := k1; cl_events := cl_events c ++ sent1; cl_worker := b1 |}).
  assert (cstep c c1) as Hstep by (by eapply worker).
  destruct b1 as [budget1|].
  - destruct (worker_loop show_chat budget1 inputs k1) as [[k2 sent2] b2] eqn:Hl. intros [= <- <- <-].
    rewrite app_assoc. eapply rtc_l; [exact Hstep|]. by apply (IH budget1 c1).
  - intros [= <- <- <-]. by apply rtc_once.
Qed.

Lemma worker_loop_shutdown inputs budget k : (worker_loop show_chat budget (inputs ++ [Shutdown]) k).2 = None.
Proof.
  revert budget k. induction inputs as [|i inputs IH]; intros budget k; cbn [app worker_loop].
  - done.
  - destruct (worker_turn show_chat budget i k) as [[k1 sent1] [b1|]]; [|done]. specialize (IH b1 k1).
    destruct (worker_loop show_chat b1 (inputs ++ [Shutdown]) k1) as [[k2 sent2] b2]. exact IH.
Qed.

(** Dropping a client is a run that ends its worker: whatever inputs the
    worker still picks, the thread returns and is joined, all that happened
    until then are turns of the client like any other, so every property of
    runs holds of what the application was told, and no worker turn follows. *)
Theorem drop_ends_worker picked c :
  rtc cstep c (client_drop show_chat picked c) ∧ cl_worker (client_drop show_chat picked c) = None ∧
  cl_events c `prefix_of` cl_events (client_drop show_chat picked c).
Proof.
  unfold client_drop. destruct (cl_worker c) as [budget|] eqn:Hw; [|by rewrite Hw].
  pose proof (worker_loop_shutdown picked budget (cl_core c)) as Hs.
  destruct (worker_loop show_chat budget (picked ++ [Shutdown]) (cl_core c)) as [[k sent] b] eqn:Hl.
  cbn in Hs. subst b. split_and!; [by eapply worker_loop_run|done|]. by eexists.
Qed.

End client.

Section any.
Context {HX : Hex} {HL : HexLaws HX} {B : Blake2b} {D : Dalek} {DL : DalekLaws D} {PB : Prost}.
Context {PL : ProstLaws PB} {PB2 : ProstV2} {TC : TlsCodec}.
Context {P G K : Type} {ML : OpenMls P G} {DM : DeMls P K}.
Context {DS : Type} {DSI : DeliveryService DS} {RS : Type} {RSI : RegistrationService RS}.
Context {CS : Type} {CSI : ConversationStore CS} {WS : Type} {WSI : WakeupService WS}.
Context {E : Type}.
Context (show : E → string) (show_chat : ChatError.t → string).
Context (show_addr : AccountAddrError.t → string).

Abbreviation AnyClient := (Client DS RS CS P WS (AnyConvo G K)).
Abbreviation Act := (ClientAction (R := list byte * Seed)).

(** What happens to a client while the auth service answers as [A]. *)
Definition any_act (A : AuthService E) : Act → AnyClient → AnyClient * ClientReply :=
  client_act (CO := any_convo (A := A)) (CF := any_factory (A := A)) (A := A) show show_chat show_addr.
Definition any_outcome (A : AuthService E) : WorkerInput (R := list byte * Seed) →
    Core DS RS CS P WS (AnyConvo G K) → option PayloadOutcome :=
  turn_outcome (CO := any_convo (A := A)) (CF := any_factory (A := A)).

(** A run: each action is served with whatever the auth service answers at the
    time, and in between whatever the core shares with the world may change. *)
Inductive any_client_step : AnyClient → AnyClient → Prop :=
| client_served A act c : any_client_step c (any_act A act c).1
| client_outside cx c :
    own_same (services (cl_core c)) cx → any_client_step c (with_core c (set_services cx (cl_core c))).

Lemma served_step A act c :
  client_step (CO := any_convo (A := A)) (CF := any_factory (A := A)) (A := A) show show_chat show_addr c
    (any_act A act c).1.
Proof. apply client_acts. Qed.

Lemma client_new_starts A i transport reg ws storage provider budget (c : AnyClient) :
  client_new (A := A) show show_chat i transport reg ws storage provider budget = Ok c →
  cl_events c = [] ∧ cached_convos (cl_core c) = ∅ ∧ cx_causal (services (cl_core c)) = store_new ∧
  new_with_name (ident_of i) transport reg ws storage provider = Ok (cl_core c).
Proof.
  unfold client_new. intros (u & _ & H)%bind_Ok. apply bind_Ok in H as (k & Hk%map_err_Ok & [= <-]).
  pose proof (new_with_name_starts _ _ _ _ _ _ _ Hk) as (H1 & _ & _ & H2). done.
Qed.

Lemma any_history_step c c' : history_inv c → any_client_step c c' → history_inv c'.
Proof.
  intros Hi Hs. destruct Hs as [A act c|cx c (_ & _ & Hc)].
  - eapply (history_inv_step (CO := any_convo (A := A)) (CL := any_convo_laws (A := A))
      (CF := any_factory (A := A)) (FL := any_factory_laws (A := A)) (A := A)); [exact Hi|apply served_step].
  - unfold history_inv in *. cbn. by rewrite Hc.
Qed.

Lemma any_announced_step c c' : announced_inv c → any_client_step c c' → announced_inv c'.
Proof.
  intros Hi Hs. destruct Hs as [A act c|cx c _]; [|exact Hi].
  eapply (announced_inv_step (CO := any_convo (A := A)) (CL := any_convo_laws (A := A))
    (CF := any_factory (A := A)) (FL := any_factory_laws (A := A)) (A := A)); [exact Hi|apply served_step].
Qed.

(** C23. Over a whole run of a client, whatever calls and payloads come in
    whatever order, whatever fails and whatever the auth service answers, the
    application is told of each gap and of each acknowledgement at most once,
    and only of recorded ones: a gap the conversation noticed, and that the
    named signer acknowledged a message of ours. While the worker runs, what it
    was told and what is still to be drained together are exactly the gaps and
    exactly the acknowledgements the conversations recorded. *)
Theorem client_reports_once A i transport reg ws storage provider budget (c0 c : AnyClient) :
  client_new (A := A) show show_chat i transport reg ws storage provider budget = Ok c0 →
  rtc any_client_step c0 c →
  let h := cx_causal (services (cl_core c)) in
  let gaps := filter_map gap_of (cl_events c) in
  let acked_events := filter_map ack_of (cl_events c) in
  NoDup gaps ∧ NoDup acked_events ∧
  (∀ m, m ∈ gaps → m_frontier m ∈ reported_missing (convo h (m_conversation_id m))) ∧
  (∀ a, a ∈ acked_events → a_message_id a ∈ own (convo h (a_conversation_id a)) ∧
     a_acked_by a ∈ acked (convo h (a_conversation_id a)) (a_message_id a)) ∧
  (is_some (cl_worker c) = true →
   (∀ m, m ∈ gaps ∨ m ∈ missing h ↔ m_frontier m ∈ reported_missing (convo h (m_conversation_id m))) ∧
   (∀ a, a ∈ acked_events ∨ a ∈ acks h ↔
     a_acked_by a ∈ acked (convo h (a_conversation_id a)) (a_message_id a))).
Proof.
  intros (He & _ & Hc & _)%client_new_starts Hrun h gaps acked_events.
  assert (history_inv c) as (M & A' & Hi & HM & HA & Heq).
  { eapply rtc_invariant; [|exact Hrun|]; [intros ??; apply any_history_step|].
    exists [], []. rewrite He, Hc. split_and!; try done. apply store_new_inv. }
  fold h in Hi. fold gaps in HM, Heq. fold acked_events in HA, Heq.
  destruct HM as [M' ->], HA as [A'' ->]. split_and!.
  - pose proof (si_gap_once _ _ _ Hi) as H. rewrite <- app_assoc in H. by apply NoDup_app in H as [? _].
  - pose proof (si_ack_once _ _ _ Hi) as H. rewrite <- app_assoc in H. by apply NoDup_app in H as [? _].
  - intros m Hm. apply (si_gap _ _ _ Hi). rewrite !elem_of_app. auto.
  - intros a Ha. split; [apply (si_ack_own _ _ _ Hi)|apply (si_ack _ _ _ Hi)]; rewrite !elem_of_app; auto.
  - intros Hw. destruct (Heq Hw) as [EM EA]. split.
    + intros m. rewrite <- (si_gap _ _ _ Hi m), <- EM. by rewrite elem_of_app.
    + intros a. rewrite <- (si_ack _ _ _ Hi a), <- EA. by rewrite elem_of_app.
Qed.

(** A turn of the run from [c0] to [c] in which a message was received. *)
Definition received_in (c0 c : AnyClient) id bytes sender mid : Prop :=
  ∃ A input c1 out ct,
    rtc any_client_step c0 c1 ∧ rtc any_client_step (any_act A (ActTurn input) c1).1 c ∧
    any_outcome A input (cl_core c1) = Some out ∧ surfaced out id ct ∧
    ct_bytes ct = bytes ∧ ct_message_id ct = mid ∧ sent_by (A := A) ct sender.

(** C24. Every message the application is sent stems from one turn of the run:
    the core surfaced, for the conversation the event names, the content with
    exactly those bytes and that message id; and the sender of the event is
    the signer it was authenticated for, under a well-formed account address,
    whom the auth service called valid for that account in that turn. *)
Theorem client_messages_attributed A0 i transport reg ws storage provider budget (c0 c : AnyClient)
    id bytes sender mid :
  client_new (A := A0) show show_chat i transport reg ws storage provider budget = Ok c0 →
  rtc any_client_step c0 c → MessageReceived id bytes sender mid ∈ cl_events c →
  received_in c0 c id bytes sender mid.
Proof.
  intros (He & _)%client_new_starts Hrun.
  eapply proj2, (rtc_invariant any_client_step (λ c, rtc any_client_step c0 c ∧
    (MessageReceived id bytes sender mid ∈ cl_events c → received_in c0 c id bytes sender mid)) c0 c);
    [|done|split; [done|rewrite He; by intros ?%elem_of_nil]].
  clear c Hrun. intros c c' [Hc HI] Hs. split; [by eapply rtc_r|].
  assert (MessageReceived id bytes sender mid ∈ cl_events c → received_in c0 c' id bytes sender mid) as Hold.
  { intros (A & input & c1 & out & ct & H1 & H2 & H3)%HI. exists A, input, c1, out, ct.
    split_and!; [done|by eapply rtc_r|apply H3..]. }
  destruct Hs as [A act c|cx c _]; [|exact Hold].
  intros [Hin|(input & out & ct & -> & Ho & H)]%act_received; [by apply Hold|].
  by exists A, input, c, out, ct.
Qed.

(** A conversation is announced at most once over a whole run, and what
    was announced is held from then on with the announced class. *)
Theorem client_announces_once A i transport reg ws storage provider budget (c0 c : AnyClient) :
  client_new (A := A) show show_chat i transport reg ws storage provider budget = Ok c0 →
  rtc any_client_step c0 c →
  NoDup (filter_map started_of (cl_events c)).*1 ∧
  ∀ id class, ConversationStarted id class ∈ cl_events c →
    ∃ ct, cached_convos (cl_core c) !! id = Some ct ∧ of_class class ct.
Proof.
  intros (He & _)%client_new_starts Hrun.
  assert (announced_inv c) as [Hn Ha].
  { eapply rtc_invariant; [|exact Hrun|]; [intros ??; apply any_announced_step|].
    unfold announced_inv. rewrite He. split; [constructor|]. by intros ?? ?%elem_of_nil. }
  split; [done|]. intros id class Hin. apply Ha. apply elem_of_filter_map. eauto.
Qed.

(** Actions in a row, each with what the auth service answers at the time. *)
Fixpoint any_run (acts : list (AuthService E * Act)) (c : AnyClient) : AnyClient * list ClientReply :=
  match acts with
  | [] => (c, [])
  | (A, act) :: acts =>
      let '(c1, reply) := any_act A act c in
      let '(c2, replies) := any_run acts c1 in (c2, reply :: replies)
  end.

(** The same run, told by the calls of the core alone. *)
Inductive core_run : list (AuthService E * Act) → Core DS RS CS P WS (AnyConvo G K) → option (option nat) →
    Core DS RS CS P WS (AnyConvo G K) → option (option nat) → list ClientReply → Prop :=
| core_run_nil k w : core_run [] k w k w []
| core_run_cons A act acts k w k1 given w1 k2 w2 reply replies :
    core_calls (CO := any_convo (A := A)) (CF := any_factory (A := A)) (A := A) show
      (client_calls act (is_some w)) k = (k1, given) →
    answers show_chat show_addr act given w w1 reply →
    core_run acts k1 w1 k2 w2 replies →
    core_run ((A, act) :: acts) k w k2 w2 (reply :: replies).

(** C25. The client does to its core what was asked of it, and nothing else. Over
    any run of calls and worker turns, whatever the auth service answers: each
    call makes the one call of the core that it names, for that conversation
    and that content and for the participants of exactly the accounts given, or
    none and an error when an account address is malformed; each turn of the
    worker handles its input, then drains the acknowledgements, then the gaps.
    The core ends up as those calls leave it; each caller is answered what the
    core answered; and the application was sent, in order, the events those
    replies amount to, up to the point where it left. *)
Theorem client_refines_core acts (c : AnyClient) :
  let '(c', replies) := any_run acts c in
  core_run acts (cl_core c) (cl_worker c) (cl_core c') (cl_worker c') replies ∧
  cl_events c' = cl_events c ++ flat_map events_of replies.
Proof.
  revert c. induction acts as [|[A act] acts IH]; intros c; cbn [any_run flat_map].
  { split; [constructor|by rewrite app_nil_r]. }
  pose proof (act_refines (CO := any_convo (A := A)) (CF := any_factory (A := A)) (A := A) show show_chat show_addr
    act c) as H. unfold any_act. destruct (client_act _ _ _ act c) as [c1 reply]. unfold refines in H.
  destruct (core_calls _ _ _) as [k1 given] eqn:Hcalls. destruct H as (Hk & Hev & Hans). cbn [fst snd] in *.
  specialize (IH c1). destruct (any_run acts c1) as [c2 replies]. destruct IH as [IH1 IH2]. subst k1. split.
  - econstructor; [exact Hcalls|exact Hans|exact IH1].
  - cbn [flat_map]. by rewrite IH2, Hev, app_assoc.
Qed.
End any.

(** ** Witnesses *)

Abbreviation DemoClient :=
  (Client (D := dalek_ref) (list AddressedEnvelope) (gmap string (list byte)) MemStore () ()
     (AnyConvo ToyGroup ToyConsensus)).

Definition no_text {X} (_ : X) : string := "".

Definition demo_started : result ClientFault DemoClient :=
  client_new (HX := hex_ref) (D := dalek_ref) (B := blake_toy) (ML := mls_ref) (DSI := outbox)
    (RSI := registry_ref) (A := auth_ref) no_text no_text demo_inst [] ∅ () memstore_new (Ok ()) None.
Definition demo_client : DemoClient :=
  match demo_started with
  | Ok c => c
  | Err _ => {| cl_core := {| services := context_of ident_a []; inbox_id := "";
                             cached_convos := ∅ |}; cl_events := []; cl_worker := None |}
  end.

(** Run one turn of the worker. *)
Definition turned (input : WorkerInput (R := list byte * ())) (c : DemoClient) : DemoClient :=
  match cl_worker c with
  | None => c
  | Some budget =>
      let '(k, sent, b) := worker_turn (HX := hex_ref) (PB := prost_ref) (CO := demo_convo)
        (CF := demo_factory) no_text budget input (cl_core c) in
      {| cl_core := k; cl_events := cl_events c ++ sent; cl_worker := b |}
  end.

Abbreviation demo_step := (any_client_step (HX := hex_ref) (B := blake_toy) (D := dalek_ref) (PB := prost_ref)
  (PB2 := prost_v2_ref) (TC := tls_ref) (ML := mls_ref) (DM := demls_ref) (DSI := outbox) (RSI := registry_ref)
  (CSI := mem_conversation_store) (WSI := wakeup_ref) (E := string) no_text no_text no_text).

Lemma turned_steps input c : rtc demo_step c (turned input c).
Proof.
  pose proof (client_served (HX := hex_ref) (B := blake_toy) (D := dalek_ref) (PB := prost_ref)
    (PB2 := prost_v2_ref) (TC := tls_ref) (ML := mls_ref) (DM := demls_ref) (DSI := outbox) (RSI := registry_ref)
    (CSI := mem_conversation_store) (WSI := wakeup_ref) no_text no_text no_text auth_ref (ActTurn input) c) as H.
  apply rtc_once. unfold any_act in H. cbn [client_act] in H. unfold turned.
  destruct (cl_worker c) as [budget|]; [|exact H].
  unfold demo_convo, demo_factory.
  unfold worker_turn in H |- *. repeat case_match; simplify_eq; exact H.
Qed.

(** B joins a group with A, whose account is the demonstration account, and
    receives a message of A's that names one nobody here has. *)
Definition demo_roster : list Member :=
  [{| m_index := 0; m_signature_key := [x0b]; m_credential := addr_to_bytes (inst_account demo_inst) |};
   {| m_index := 1; m_signature_key := signer_bytes (inst_signer demo_inst);
      m_credential := addr_to_bytes (inst_account demo_inst) |}].
Definition demo_invite : list byte :=
  envelope_encode (Prost := prost_ref)
    {| conversation_hint := inbox_id (cl_core demo_client); salt := 0;
       ev_payload := inbox_encode (Prost := prost_ref) {| if_payload := Some (InviteGroupV1
         {| welcome_bytes := write ((0, 0, inr (inr demo_roster)) : ToyMessage)%N |}) |} |}.
Definition demo_text : list byte :=
  envelope_encode (Prost := prost_ref)
    {| conversation_hint := "0a0b"; salt := 0;
       ev_payload := encrypted_encode (Prost := prost_ref) {| encryption := Some (Plaintext
         (write ((1, 0, inl (reliable_encode (Prost := prost_ref) (demo_received 5)))
                 : ToyMessage)%N)) |} |}.

Definition demo_joined : DemoClient := turned (Inbound ([], ()) (Some demo_invite)) demo_client.
Definition demo_heard : DemoClient := turned (Inbound ([], ()) (Some demo_text)) demo_joined.

Lemma demo_run_joined : rtc demo_step demo_client demo_joined.
Proof. unfold demo_joined. apply turned_steps. Qed.
Lemma demo_run_heard : rtc demo_step demo_joined demo_heard.
Proof. unfold demo_heard. apply turned_steps. Qed.
Lemma demo_run : rtc demo_step demo_client demo_heard.
Proof. trans demo_joined; [exact demo_run_joined|exact demo_run_heard]. Qed.
Lemma demo_started_Ok : demo_started = Ok demo_client.
Proof. vm_compute. reflexivity. Qed.

Lemma client_reports_once_witness :
  filter_map gap_of (cl_events demo_heard) =
    [{| m_conversation_id := "0a0b"; m_frontier := {| f_sender := bob; f_message_id := "m1" |} |}] ∧
  NoDup (filter_map gap_of (cl_events demo_heard)).
Proof.
  split; [vm_compute; reflexivity|].
  destruct (client_reports_once (HX := hex_ref) (B := blake_toy) (D := dalek_ref)
    (PB := prost_ref) (PL := prost_ref_laws) (PB2 := prost_v2_ref)
    (TC := tls_ref) (ML := mls_ref) (DM := demls_ref) (DSI := outbox) (RSI := registry_ref)
    (WSI := wakeup_ref) no_text no_text no_text auth_ref demo_inst [] ∅ () memstore_new
    (Ok ()) None demo_client demo_heard demo_started_Ok demo_run) as (H & _). exact H.
Defined.

(** The message B is shown, and the content the core surfaced for it. *)
Definition demo_message : string * list byte * AuthenticatedMember * string :=
  match head (filter_map (λ e, match e with
    | MessageReceived id bytes sender mid => Some (id, bytes, sender, mid) | _ => None end) (cl_events demo_heard)) with
  | Some m => m
  | None => ("", [], {| am_inner := {| ms_signer_key := bob; ms_account := inst_account demo_inst |} |}, "")
  end%string.

Lemma client_messages_attributed_witness :
  (demo_message.1.1.1, demo_message.2) = ("0a0b", "m2")%string ∧
  ∃ (A : AuthService string) ct, ct_bytes ct = demo_message.1.1.2 ∧ ct_message_id ct = demo_message.2 ∧
    sent_by (A := A) ct demo_message.1.2.
Proof.
  split; [vm_compute; reflexivity|].
  destruct (client_messages_attributed (HX := hex_ref) (B := blake_toy)
    (D := dalek_ref) (DL := dalek_ref_laws) (PB := prost_ref) (PL := prost_ref_laws)
    (PB2 := prost_v2_ref) (TC := tls_ref) (ML := mls_ref) (DM := demls_ref) (DSI := outbox)
    (RSI := registry_ref) (WSI := wakeup_ref) no_text no_text no_text auth_ref demo_inst
    [] ∅ () memstore_new (Ok ()) None demo_client demo_heard demo_message.1.1.1 demo_message.1.1.2
    demo_message.1.2 demo_message.2 demo_started_Ok demo_run) as (A & input & c1 & out & ct & H).
  - vm_compute. right. left.
  - exists A, ct. apply H.
Defined.

Lemma client_announces_once_witness :
  filter_map started_of (cl_events demo_heard) = [("0a0b"%string, Dm)] ∧
  NoDup (filter_map started_of (cl_events demo_heard)).*1.
Proof.
  split; [vm_compute; reflexivity|].
  destruct (client_announces_once (HX := hex_ref) (B := blake_toy)
    (D := dalek_ref) (PB := prost_ref) (PL := prost_ref_laws)
    (PB2 := prost_v2_ref) (TC := tls_ref) (ML := mls_ref) (DM := demls_ref) (DSI := outbox)
    (RSI := registry_ref) (WSI := wakeup_ref) no_text no_text no_text auth_ref demo_inst
    [] ∅ () memstore_new (Ok ()) None demo_client demo_heard demo_started_Ok demo_run) as (H & _).
  exact H.
Defined.

(** Two turns of the worker: the join, and the message with the gap it shows. *)
Example client_run_events :
  flat_map events_of (any_run (HX := hex_ref) (B := blake_toy) (D := dalek_ref) (PB := prost_ref)
    (PB2 := prost_v2_ref) (TC := tls_ref) (ML := mls_ref) (DM := demls_ref) (DSI := outbox) (RSI := registry_ref)
    (CSI := mem_conversation_store) (WSI := wakeup_ref) no_text no_text no_text
    [(auth_ref, ActTurn (Inbound ([], ()) (Some demo_invite)));
     (auth_ref, ActTurn (Inbound ([], ()) (Some demo_text)))] demo_client).2 =
  cl_events demo_heard.
Proof. vm_compute. reflexivity. Qed.
