(* ===== verification/AppTheorems.v ===== *)
(** * Theorems about the command-line client

    Over whole runs of the terminal application: a run of it is a run of the
    client; what is on the screen was received or sent; the chats shown are
    the chats a restart loads; and where the application falls over or gets
    stuck. *)

From Stdlib Require Import Strings.Byte Strings.String.
From stdpp Require Import base gmap strings numbers pretty sorting list.
From S2P Require Import Prelude Utf8 Hex Ed25519 Context AccountLog Addr Identity CausalHistory Storage Delivery.
From S2P Require Import Services MlsUtils GroupV1 GroupV3 GroupV2 Convo Core Installation Client MessageTypes Text.
From S2P Require Import ChatApp Evidence Reference CoreTheorems ClientTheorems.

Create HintDb app.
Create HintDb settle.

Section app.
Context {HX : Hex} {D : Dalek} {PB : Prost} {DS RS CS P WS O R : Type}.
Context {DSI : DeliveryService DS} {CSI : ConversationStore CS} {CO : Convo DS RS CS P WS O}.
Context {CF : ConvoFactory DS RS CS P WS O R} {E : Type} {A : AuthService E} {C : Cbor}.
Context {HI : HashIter} {HIL : HashIterLaws HI} {SJ : SerdeJson}.
Context (show : E → string) (show_chat : ChatError.t → string) (show_addr : AccountAddrError.t → string).
Context (show_client debug_client : ClientError.t → string).
Context (save : option (list byte) → list byte → option (list byte) * result string ()).

Abbreviation AP := (ChatApp DS RS CS P WS O).
Abbreviation KC := (Core DS RS CS P WS O).
Abbreviation CC := (Client DS RS CS P WS O).
Abbreviation cstep := (client_step (R := R) show show_chat show_addr).
Abbreviation step := (app_step (R := R) show show_chat show_addr show_client debug_client save).
Abbreviation command := (handle_command (R := R) show show_chat show_addr show_client debug_client save).
Implicit Types (a : AP) (c : CC) (k : KC).

(** ** Relations every part of a command keeps *)

(** From one state to the next, however the part ends. *)
Definition keeps_at (I : AP → AP → Prop) {X} (m : App X) a : Prop := I a (m a).1.
Definition app_keeps (I : AP → AP → Prop) {X} (m : App X) : Prop := ∀ a, keeps_at I m a.

Lemma at_keeps (I : AP → AP → Prop) {X} (m : App X) a : app_keeps I m → keeps_at I m a.
Proof. done. Qed.

Section keeps.
Context (I : AP → AP → Prop) `{!PreOrder I}.

Lemma at_bind {X Y} (m : App X) (f : X → App Y) a :
  keeps_at I m a → (∀ x a', m a = (a', Ok x) → keeps_at I (f x) a') → keeps_at I (app_bind m f) a.
Proof.
  unfold keeps_at, app_bind. intros Hm Hf. destruct (m a) as [a' [x|e]]; [|done].
  cbn in Hm. etrans; [exact Hm|by apply Hf].
Qed.
Lemma app_keeps_bind {X Y} (m : App X) (f : X → App Y) :
  app_keeps I m → (∀ x, app_keeps I (f x)) → app_keeps I (app_bind m f).
Proof. intros Hm Hf a. apply at_bind; [done|]. intros. apply Hf. Qed.
Lemma app_keeps_ret {X} (x : X) : app_keeps I (app_ret x).
Proof. intros a. red. cbn. reflexivity. Qed.
Lemma app_keeps_get : app_keeps I app_get.
Proof. intros a. red. cbn. reflexivity. Qed.
Lemma app_keeps_fail {X} e : app_keeps I (app_fail (X := X) e).
Proof. intros a. red. cbn. reflexivity. Qed.
Lemma app_keeps_lift {X} (r : result AppFault X) : app_keeps I (app_lift r).
Proof. intros a. red. cbn. reflexivity. Qed.
Lemma app_keeps_opt {X} (o : option X) : app_keeps I (app_opt o).
Proof. destruct o; [apply app_keeps_ret|apply app_keeps_fail]. Qed.
Lemma app_keeps_modify f : (∀ a, I a (f a)) → app_keeps I (app_modify f).
Proof. intros H a. apply H. Qed.
End keeps.

(** ** What a run keeps *)

(** The client calls between two cores. *)
Definition moves k k' : Prop := ∀ c, cl_core c = k → rtc cstep c (with_core c k').

(** Every session is filed under its own id, and the active chat is one of them. *)
Definition filed a : Prop :=
  (∀ id s, chats (ap_state a) !! id = Some s → cs_chat_id s = id) ∧
  (∀ id, active_chat (ap_state a) = Some id → is_Some (chats (ap_state a) !! id)).

(** Every message of others comes from an event, with the sender's account and
    the bytes' body; every delivery mark comes from an acknowledgement. *)
Definition accounted (addr : string) (handed : list Event) (id : string) (m : DisplayMessage) : Prop :=
  (dm_from_self m = false → ∃ bytes sender mid msgs,
     MessageReceived id bytes sender mid ∈ handed ∧ dm_message_id m = Some mid ∧
     received_body msgs bytes = Some (dm_content m) ∧
     dm_origin m = if decide (addr_to_string (ms_account (am_inner sender)) = addr) then Own
                   else Foreign (addr_to_string (ms_account (am_inner sender)))) ∧
  (∀ peer, peer ∈ dm_delivered_to m → ∃ mid signer,
     dm_message_id m = Some mid ∧ MessageAcked id mid signer ∈ handed ∧ short_signer signer = Some peer).
Definition all_accounted (addr : string) (handed : list Event) (m : gmap string ChatSession) : Prop :=
  ∀ id s x, m !! id = Some s → x ∈ cs_messages s → accounted addr handed id x.
Definition shown (handed : list Event) a : Prop := all_accounted (ap_addr a) handed (chats (ap_state a)).

Lemma accounted_mono addr h h' id m : h ⊆ h' → accounted addr h id m → accounted addr h' id m.
Proof. intros Hh [H1 H2]. split; [intros Hm; destruct (H1 Hm) as (b & s & mid & l & ? & ?)|
  intros p Hp; destruct (H2 p Hp) as (mid & s & ? & ? & ?)]; eauto 10. Qed.

Lemma shown_mono h h' a : h ⊆ h' → shown h a → shown h' a.
Proof. intros Hh H id s x ??. eapply accounted_mono; [done|by eapply H]. Qed.

Lemma shown_accounted h h' a id s x :
  shown h a → h ⊆ h' → chats (ap_state a) !! id = Some s → x ∈ cs_messages s →
  accounted (ap_addr a) h' id x.
Proof. intros H Hh ??. eapply accounted_mono; [exact Hh|by eapply H]. Qed.

(** What happens to the application while it handles [evs]. *)
Record evolves (evs : list Event) a a' : Prop := {
  ev_addr : ap_addr a' = ap_addr a;
  ev_moves : moves (ap_core a) (ap_core a');
  ev_filed : filed a → filed a';
  ev_shown h h' : shown h a → h ⊆ h' → evs ⊆ h' → shown h' a';
}.

Lemma moves_refl k : moves k k.
Proof. intros [] <-. apply rtc_refl. Qed.
Lemma moves_trans k1 k2 k3 : moves k1 k2 → moves k2 k3 → moves k1 k3.
Proof. intros H1 H2 c Hc. etrans; [by apply H1|]. by apply (H2 (with_core c k2)). Qed.

#[local] Instance evolves_preorder evs : PreOrder (evolves evs).
Proof.
  split.
  - intros a. split; [done|apply moves_refl|done|]. intros h h' H Hh _. by eapply shown_mono.
  - intros a1 a2 a3 [A1 M1 F1 S1] [A2 M2 F2 S2]. split; [congruence|by eapply moves_trans|auto|].
    intros h h' H Hh He. eapply (S2 h'); [|done..]. by eapply S1.
Qed.

Lemma evolves_mono evs evs' a a' : evs ⊆ evs' → evolves evs a a' → evolves evs' a a'.
Proof. intros H [H1 H2 H3 H4]. split; [done..|]. intros h h' ???. eapply H4; [done..|set_solver]. Qed.

(** Changes that touch neither the address, nor the core, nor the chats. *)
Lemma evolves_same evs a a' :
  ap_addr a' = ap_addr a → ap_core a' = ap_core a → ap_state a' = ap_state a → evolves evs a a'.
Proof.
  intros Ha Hk Hs. split; [done|rewrite Hk; apply moves_refl| |].
  - unfold filed. by rewrite Hs.
  - unfold shown. rewrite Ha, Hs. intros h h' H Hh _. exact (shown_mono h h' a Hh H).
Qed.

(** Changes of the chats alone. *)
Lemma evolves_state evs a a' :
  ap_addr a' = ap_addr a → ap_core a' = ap_core a → (filed a → filed a') →
  (∀ h h', shown h a → h ⊆ h' → evs ⊆ h' → shown h' a') → evolves evs a a'.
Proof. intros Ha Hk Hf Hs. split; try done. rewrite Hk. apply moves_refl. Qed.

Lemma evolves_update evs id f a :
  (∀ s, cs_chat_id (f s) = cs_chat_id s) →
  (∀ s h', evs ⊆ h' → chats (ap_state a) !! id = Some s →
     (∀ x, x ∈ cs_messages s → accounted (ap_addr a) h' id x) →
     ∀ x, x ∈ cs_messages (f s) → accounted (ap_addr a) h' id x) →
  evolves evs a (update_session id f a).
Proof.
  intros Hid Hf. apply evolves_state; try done.
  - intros [F1 F2]. split; cbn.
    + intros id' s. rewrite lookup_alter_Some. intros [(<- & s' & Hs & ->)|[_ ?]]; [rewrite Hid|]; auto.
    + intros id' [s Hs]%F2. rewrite lookup_alter_is_Some. eauto.
  - intros h h' H Hh He id' s x. cbn. rewrite lookup_alter_Some.
    intros [(<- & s' & Hs & ->)|[_ ?]].
    + apply Hf; [done..|]. intros y Hy. exact (shown_accounted h h' a id s' y H Hh Hs Hy).
    + intros Hx. by eapply shown_accounted.
Qed.

(** An own message, or a message of the events handled, is added. *)
Lemma evolves_push evs id m a :
  (∀ h', evs ⊆ h' → accounted (ap_addr a) h' id m) → evolves evs a (push_message id m a).
Proof.
  intros Hm. apply evolves_update; [done|]. cbn. intros s h' He _ Hs x.
  rewrite elem_of_app, list_elem_of_singleton. intros [?| ->]; auto.
Qed.

Lemma evolves_activate evs id a :
  is_Some (chats (ap_state a) !! id) → evolves evs a (set_active_chat (Some id) a).
Proof.
  intros Hs. apply evolves_state; try done.
  - intros [F1 F2]. split; [done|]. by intros ? [= <-].
  - intros h h' H Hh _. exact (shown_mono h h' a Hh H).
Qed.

Lemma evolves_start evs id kind nick a : evolves evs a (start_session id kind nick a).
Proof.
  apply evolves_state; try done.
  - intros [F1 F2]. split; cbn.
    + intros id' s. rewrite lookup_insert_Some. intros [(<- & <-)|[_ ?]]; auto.
    + intros ? [= <-]. by rewrite lookup_insert_eq.
  - intros h h' H Hh _ id' s x. cbn. rewrite lookup_insert_Some.
    intros [(<- & <-)|[_ ?]]; cbn; [by intros ?%elem_of_nil|].
    intros Hx. by eapply shown_accounted.
Qed.

Lemma evolves_remove evs id a : evolves evs a (remove_chat id a).
Proof.
  apply evolves_state; try done.
  - intros [F1 F2]. split; cbn.
    + intros id' s [_ ?]%lookup_delete_Some. auto.
    + intros id'. case_decide as Hact.
      * intros Hh%head_Some_elem_of. apply list_elem_of_fmap in Hh as ([i s] & -> & Hin).
        rewrite hash_iter_perm in Hin. apply elem_of_map_to_list in Hin. cbn. eauto.
      * intros Hid. rewrite lookup_delete_ne by congruence. auto.
  - intros h h' H Hh _ id' s x. cbn. intros [_ ?]%lookup_delete_Some Hx.
    by eapply shown_accounted.
Qed.

Lemma evolves_client evs {X} f (m : KC → KC * result ClientFault X) :
  (∀ k, moves k (m k).1) → app_keeps (evolves evs) (call_client f m).
Proof.
  intros Hm a. red. unfold call_client. specialize (Hm (ap_core a)). destruct (m (ap_core a)) as [k r].
  cbn in *. split; try done. intros h h' H Hh _. exact (shown_mono h h' a Hh H).
Qed.

(** The calls a command makes. *)
Lemma moves_direct account k : moves k (create_direct_conversation show show_chat show_addr account k).1.
Proof. intros c <-. apply rtc_once, call_direct. Qed.
Lemma moves_group rnd accounts md k :
  moves k (create_group_conversation show show_chat show_addr rnd accounts md k).1.
Proof. intros c <-. apply rtc_once, call_group. Qed.
Lemma moves_add id accounts k : moves k (add_group_participants show show_chat show_addr id accounts k).1.
Proof. intros c <-. apply rtc_once, call_add. Qed.
Lemma moves_remove id accounts k : moves k (remove_group_participants show_chat show_addr id accounts k).1.
Proof. intros c <-. apply rtc_once, call_remove. Qed.
Lemma moves_send id content k : moves k (send_message show_chat id content k).1.
Proof. intros c <-. apply rtc_once, call_send. Qed.

(** ** Every command evolves the application *)

Lemma app_keeps_same evs f :
  (∀ a, ap_addr (f a) = ap_addr a ∧ ap_core (f a) = ap_core a ∧ ap_state (f a) = ap_state a) →
  app_keeps (evolves evs) (app_modify f).
Proof. intros H. apply app_keeps_modify. intros a. by apply evolves_same; apply H. Qed.

Lemma keeps_save evs : app_keeps (evolves evs) (save_state save).
Proof.
  intros a. red. unfold save_state. destruct (to_json _); [|by apply evolves_same].
  destruct (save _ _) as [saved r]. by apply evolves_same.
Qed.

#[local] Hint Resolve evolves_preorder app_keeps_ret app_keeps_get app_keeps_fail app_keeps_lift app_keeps_opt keeps_save : app.
#[local] Hint Extern 4 (app_keeps _ (app_modify _)) =>
  apply app_keeps_same; intros; split_and!; reflexivity : app.
#[local] Hint Extern 4 (app_keeps _ (app_modify (start_session _ _ _))) =>
  apply app_keeps_modify; intros; apply evolves_start : app.
#[local] Hint Extern 4 (app_keeps _ (app_modify (remove_chat _))) =>
  apply app_keeps_modify; intros; apply evolves_remove : app.
#[local] Hint Resolve moves_direct moves_group moves_add moves_remove moves_send evolves_client : app.

(** Walk through a command, one part at a time. *)
Ltac keep :=
  repeat match goal with
  | |- app_keeps _ (app_bind _ _) => apply app_keeps_bind; [try apply _..|intros ?]
  | |- app_keeps _ (let _ := _ in _) => cbv zeta
  | |- app_keeps _ (match ?x with _ => _ end) => destruct x
  | |- app_keeps _ _ => solve [auto with app]
  end.

Lemma keeps_lines evs now ls : app_keeps (evolves evs) (show_lines now ls).
Proof. induction ls; cbn [show_lines]; keep. Qed.
Lemma keeps_labels evs now ss : app_keeps (evolves evs) (show_labels now ss).
Proof. induction ss; cbn [show_labels]; keep. Qed.
Lemma keeps_rows evs now rows : app_keeps (evolves evs) (show_rows now rows).
Proof. induction rows; cbn [show_rows]; keep. Qed.
#[local] Hint Resolve keeps_lines keeps_labels keeps_rows : app.

Lemma keeps_chats_list evs now : app_keeps (evolves evs) (show_chats_list now).
Proof. unfold show_chats_list. keep. Qed.
#[local] Hint Resolve keeps_chats_list : app.

Lemma own_accounted addr h id now body mid :
  accounted addr h id (with_message_id mid (display_message now true body Own)).
Proof. split; [done|]. by intros ? ?%elem_of_nil. Qed.

Lemma keeps_echo evs now id mid body : app_keeps (evolves evs) (echo_sent save now id mid body).
Proof.
  unfold echo_sent. keep. apply app_keeps_modify. intros a. apply evolves_push. intros. apply own_accounted.
Qed.
Lemma keeps_sendable evs : app_keeps (evolves evs) active_sendable_chat.
Proof. unfold active_sendable_chat. keep. Qed.
#[local] Hint Resolve keeps_echo keeps_sendable : app.

Lemma keeps_send evs now content :
  app_keeps (evolves evs) (app_send_message show_chat show_client save now content).
Proof. unfold app_send_message. keep. Qed.
Lemma keeps_reply evs now target content preview :
  app_keeps (evolves evs) (send_reply show_chat show_client save now target content preview).
Proof. unfold send_reply. keep. Qed.
#[local] Hint Resolve keeps_send keeps_reply : app.

(** A session that keeps its id and gains no message. *)
Lemma keeps_edit evs id f :
  (∀ s, cs_chat_id (f s) = cs_chat_id s ∧ cs_messages (f s) ⊆ cs_messages s) →
  app_keeps (evolves evs) (app_modify (update_session id f)).
Proof.
  intros Hf. apply app_keeps_modify. intros a. apply evolves_update; [apply Hf|].
  intros s h' _ _ Hs x Hx. apply Hs. by apply Hf.
Qed.
#[local] Hint Extern 4 (app_keeps _ (app_modify (update_session _ _))) =>
  apply keeps_edit; intros; split; [reflexivity|cbn; set_solver] : app.

Lemma keeps_switch evs args : app_keeps (evolves evs) (cmd_switch save args).
Proof.
  unfold cmd_switch. case_decide; [keep|]. intros a. apply at_bind; [apply _|apply app_keeps_get; apply _|].
  intros ? ? [= <- <-]. destruct (resolve_chat_id args a) as [id|]; [|apply app_keeps_fail; apply _].
  apply at_bind; [apply _|apply app_keeps_opt; apply _|]. intros label a' Hl.
  unfold label_of in Hl. destruct (chats (ap_state a) !! id) as [s|] eqn:Hs; [|done]. cbn in Hl.
  destruct (session_display_name s); [|done]. injection Hl as <- <-.
  apply at_bind; [apply _|by apply evolves_activate|]. intros ? a1 _. apply at_keeps. keep.
Qed.
#[local] Hint Resolve keeps_switch : app.

Lemma keeps_command evs now rnd clipboard cmd : app_keeps (evolves evs) (command now rnd clipboard cmd).
Proof.
  unfold handle_command. destruct (split_space _) as [first rest]. cbv zeta.
  repeat (case_decide; [first [apply keeps_switch|
    unfold cmd_account, cmd_dm, cmd_new, cmd_add, cmd_remove, cmd_members, cmd_reply, cmd_nickname,
      cmd_chats, cmd_delete, cmd_status, cmd_clear; keep]|]); keep.
Qed.

(** ** Events *)

(** Marking a delivery keeps everything about a message but its marks. *)
Lemma mark_delivered_accounted addr h id mid peer signer msgs :
  MessageAcked id mid signer ∈ h → short_signer signer = Some peer →
  (∀ x, x ∈ msgs → accounted addr h id x) →
  ∀ x, x ∈ mark_delivered mid peer msgs → accounted addr h id x.
Proof.
  intros He Hp. induction msgs as [|m msgs IH]; [done|]. cbn [mark_delivered]. intros Hm x.
  destruct (has_id mid m) eqn:Hid.
  - apply bool_decide_eq_true in Hid. rewrite elem_of_cons. intros [->|?]; [|apply Hm; by right].
    destruct (Hm m) as [H1 H2]; [by left|]. split; [exact H1|]. cbn. case_decide; [exact H2|].
    intros q. rewrite elem_of_app, list_elem_of_singleton. intros [?| ->]; [auto|eauto].
  - rewrite elem_of_cons. intros [->|Hx]; [apply Hm; by left|]. apply IH; [|done].
    intros y Hy. apply Hm. by right.
Qed.

Lemma evolves_received now id bytes sender mid body msgs a :
  received_body msgs bytes = Some body →
  evolves [MessageReceived id bytes sender mid] a
    (push_message id (with_message_id mid (display_message now false body
       (origin_of a (addr_to_string (ms_account (am_inner sender)))))) a).
Proof.
  intros Hb. apply evolves_push. intros h' He. split; [|by intros ? ?%elem_of_nil]. intros _.
  exists bytes, sender, mid, msgs. split_and!; try done. apply He. by left.
Qed.

Lemma evolves_acked id mid signer peer a :
  short_signer signer = Some peer →
  evolves [MessageAcked id mid signer] a
    (update_session id (λ s, set_messages (mark_delivered mid peer (cs_messages s)) s) a).
Proof.
  intros Hp. apply evolves_update; [done|]. cbn. intros s h' He _ Hs.
  eapply mark_delivered_accounted; [|exact Hp|done]. apply He. by left.
Qed.

Lemma opt_Ok {X} (o : option X) a a' x : app_opt o a = (a', Ok x) → a' = a ∧ o = Some x.
Proof. destruct o; [|done]. by intros [= <- <-]. Qed.

Lemma keeps_event now e : app_keeps (evolves [e]) (handle_event now e).
Proof.
  intros a. unfold handle_event. apply at_bind; [apply _|apply app_keeps_get; apply _|].
  intros ? ? [= <- <-]. destruct e as [id class|id bytes sender mid|id mid signer|id mid signer|id|msg].
  - apply at_keeps. keep.
  - destruct (chats (ap_state a) !! id) as [s|]; [|apply app_keeps_ret; apply _].
    apply at_bind; [apply _|apply app_keeps_opt; apply _|]. intros body a' [-> Hb]%opt_Ok.
    by eapply evolves_received.
  - destruct (chats (ap_state a) !! id) as [s|]; [|apply app_keeps_ret; apply _].
    destruct (existsb _ _); [|apply app_keeps_ret; apply _].
    apply at_bind; [apply _|apply app_keeps_opt; apply _|]. intros peer a' [-> Hp]%opt_Ok.
    by eapply evolves_acked.
  - apply at_keeps. keep.
  - apply at_keeps. keep.
  - apply at_keeps. keep.
Qed.

Lemma keeps_mono evs evs' {X} (m : App X) :
  evs ⊆ evs' → app_keeps (evolves evs) m → app_keeps (evolves evs') m.
Proof. intros H Hm a. eapply evolves_mono; [done|apply Hm]. Qed.

Lemma keeps_events now evs : app_keeps (evolves evs) (handle_events now evs).
Proof.
  induction evs as [|e evs IH]; cbn [handle_events]; [keep|]. apply app_keeps_bind; [apply _| |intros _].
  - eapply keeps_mono; [|apply keeps_event]. set_solver.
  - eapply keeps_mono; [|exact IH]. set_solver.
Qed.

Lemma keeps_incoming now evs : app_keeps (evolves evs) (process_incoming save now evs).
Proof. unfold process_incoming. pose proof (keeps_events now evs). destruct evs; keep. Qed.

Lemma keeps_fault evs pre f : app_keeps (evolves evs) (on_fault pre f).
Proof. destruct f; cbn [on_fault]; keep. Qed.

Lemma keeps_enter evs now rnd clipboard input :
  app_keeps (evolves evs)
    (enter (R := R) show show_chat show_addr show_client debug_client save now rnd clipboard input).
Proof.
  unfold enter. destruct (starts_with_str _ _); intros a; red.
  - pose proof (keeps_command evs now rnd clipboard input a) as H. red in H.
    destruct (handle_command _ _ _ _ _ _ _ _ _ _ _) as [a1 [[resp|]|f]]; cbn [fst] in *; [|done|].
    + etrans; [exact H|]. by apply evolves_same.
    + etrans; [exact H|apply keeps_fault].
  - destruct (current_session a); [|by apply evolves_same].
    pose proof (keeps_send evs now input a) as H. red in H.
    destruct (app_send_message _ _ _ _ _ _) as [a1 [[]|f]]; cbn [fst] in *; [done|].
    etrans; [exact H|apply keeps_fault].
Qed.
#[local] Hint Resolve keeps_enter : app.

Lemma keeps_press evs now rnd clipboard key :
  app_keeps (evolves evs)
    (press (R := R) show show_chat show_addr show_client debug_client save now rnd clipboard key).
Proof. unfold press. destruct key; keep. Qed.

(** ** Runs *)

(** The client behind a run: it has come from [c0] by its own steps, and what
    it sent is what the application handled and what still waits. *)
Definition run_inv (c0 : CC) (past : list Event) (addr : string) (r : AppRun DS RS CS P WS O) : Prop :=
  ∃ c handed, rtc cstep c0 c ∧ cl_core c = ap_core (ar_app r) ∧ cl_worker c = ar_worker r ∧
    cl_events c = handed ++ ar_queue r ∧ ap_addr (ar_app r) = addr ∧
    filed (ar_app r) ∧ shown (past ++ handed) (ar_app r).

Lemma with_core_eta c : with_core c (cl_core c) = c.
Proof. by destruct c. Qed.

Lemma run_inv_step c0 past addr r r' : run_inv c0 past addr r → step r r' → run_inv c0 past addr r'.
Proof.
  intros (c & handed & Hc & Hk & Hw & He & Ha & Hf & Hs) Hstep.
  destruct Hstep as [now a queue w a' Hr|now rnd clip key a queue w a' go Hr|budget input a queue k sent w Hr];
    cbn [ar_app ar_queue ar_worker] in *.
  - pose proof (keeps_incoming now queue a) as Hi. red in Hi. rewrite Hr in Hi. cbn [fst] in Hi. destruct Hi as [A1 M1 F1 S1].
    exists (with_core c (ap_core a')), (handed ++ queue).
    cbn [ar_app ar_queue ar_worker]. rewrite A1, app_nil_r.
    split_and!; try done; [etrans; [done|by apply M1]|by apply F1|].
    eapply S1; [exact Hs|..]; set_solver.
  - pose proof (keeps_press [] now rnd clip key a) as Hi. red in Hi. rewrite Hr in Hi.
    cbn [fst] in Hi. destruct Hi as [A1 M1 F1 S1]. exists (with_core c (ap_core a')), handed.
    cbn [ar_app ar_queue ar_worker]. rewrite A1.
    split_and!; try done; [etrans; [done|by apply M1]|by apply F1|].
    eapply S1; [exact Hs|..]; set_solver.
  - exists {| cl_core := k; cl_events := cl_events c ++ sent; cl_worker := w |}, handed.
    split_and!; try done.
    + eapply rtc_r; [done|]. eapply worker; [by rewrite Hw|by rewrite Hk].
    + cbn. by rewrite He, app_assoc.
Qed.

(** A state file whose sessions are filed under their own ids. *)
Definition stored_chats (file : option (list byte)) : gmap string ChatSession := chats (load_state file).
Definition file_ok (file : option (list byte)) : Prop :=
  ∀ id s, stored_chats file !! id = Some s → cs_chat_id s = id.

Lemma app_new_inv now c0 addr name stored past a0 :
  app_new now (cl_core c0) addr name stored = (a0, Ok ()) →
  cl_events c0 = [] → file_ok stored → all_accounted addr past (stored_chats stored) →
  run_inv c0 past addr {| ar_app := a0; ar_queue := []; ar_worker := cl_worker c0 |}.
Proof.
  unfold app_new. set (a := Build_ChatApp _ _ _ _ _ _ _ _ _). intros Hn He Hf Hs.
  pose proof (keeps_chats_list [] now a) as Hi. red in Hi. rewrite Hn in Hi. cbn [fst] in Hi. destruct Hi as [A1 M1 F1 S1].
  assert (chats (ap_state a) = stored_chats stored) as Hst by done.
  exists (with_core c0 (ap_core a0)), []. cbn [ar_app ar_queue ar_worker]. split_and!; try done.
  - by apply M1.
  - apply F1. split; [|done]. intros id s. rewrite Hst. apply Hf.
  - apply (S1 past); [|set_solver..]. unfold shown. by rewrite Hst.
Qed.

Lemma run_inv_run c0 past addr r r' : rtc step r r' → run_inv c0 past addr r → run_inv c0 past addr r'.
Proof. apply rtc_invariant. intros ??. apply run_inv_step. Qed.

(** ** Saving *)

(** What a restart loads holds the chats shown. *)
Definition settled a : Prop := stored_chats (ap_saved a) = chats (ap_state a).

(** Unless it panics, a part leaves the state settled: if it was, or always. *)
Definition unless_panic {X} (r : AP * result AppFault X) : Prop := r.2 ≠ Err AppPanic → settled r.1.
Definition quiet {X} (m : App X) : Prop := ∀ a, settled a → unless_panic (m a).
Definition settles {X} (m : App X) : Prop := ∀ a, unless_panic (m a).

Lemma settles_quiet {X} (m : App X) : settles m → quiet m.
Proof. intros H a _. apply H. Qed.
Lemma quiet_bind {X Y} (m : App X) (f : X → App Y) : quiet m → (∀ x, quiet (f x)) → quiet (app_bind m f).
Proof.
  intros Hm Hf a Ha. specialize (Hm a Ha). unfold unless_panic, app_bind in *.
  destruct (m a) as [a' [x|e]]; cbn in *; [|intros H; apply Hm; congruence].
  apply Hf. by apply Hm.
Qed.
Lemma settles_bind {X Y} (m : App X) (f : X → App Y) :
  settles m → (∀ x, quiet (f x)) → settles (app_bind m f).
Proof.
  intros Hm Hf a. specialize (Hm a). unfold unless_panic, app_bind in *.
  destruct (m a) as [a' [x|e]]; cbn in *; [|intros H; apply Hm; congruence].
  apply Hf. by apply Hm.
Qed.
Lemma settles_after {X} f (m : App X) : settles m → settles (app_bind (app_modify f) (λ _, m)).
Proof. intros Hm a. apply Hm. Qed.

Lemma quiet_pure {X} (m : App X) :
  (∀ a, ap_saved (m a).1 = ap_saved a ∧ chats (ap_state (m a).1) = chats (ap_state a)) → quiet m.
Proof. intros H a Ha _. unfold settled in *. destruct (H a) as [-> ->]. done. Qed.

Lemma quiet_client {X} f (m : KC → KC * result ClientFault X) : quiet (call_client f m).
Proof. apply quiet_pure. intros a. unfold call_client. by destruct (m (ap_core a)). Qed.
Lemma quiet_opt {X} (o : option X) : quiet (app_opt o).
Proof. apply quiet_pure. by destruct o. Qed.

(** An event fails by panicking only. *)
Definition sound {X} (m : App X) : Prop := ∀ a e, (m a).2 ≠ Err (AppError e).
Lemma sound_bind {X Y} (m : App X) (f : X → App Y) : sound m → (∀ x, sound (f x)) → sound (app_bind m f).
Proof.
  intros Hm Hf a e. specialize (Hm a e). unfold app_bind. destruct (m a) as [a' [x|f']]; [apply Hf|].
  cbn in *. congruence.
Qed.
Lemma sound_opt {X} (o : option X) : sound (app_opt o).
Proof. by destruct o. Qed.

Lemma sound_events now evs : sound (handle_events now evs).
Proof.
  induction evs as [|e evs IH]; [done|]. apply sound_bind; [|done]. unfold handle_event.
  apply sound_bind; [done|intros a].
  destruct e; repeat first [ done | apply sound_opt | apply sound_bind; [|intros ?] | case_match ].
Qed.

(** Writing the state file succeeds, and a restart loads what was written. *)
Context {SJL : SerdeJsonLaws SJ} (save_ok : ∀ old json, save old json = (Some json, Ok ())).

Lemma settles_save : settles (save_state save).
Proof.
  intros a _. unfold save_state, settled. destruct (json_roundtrip (ap_state a)) as (b & -> & Hb).
  rewrite save_ok. cbn. unfold stored_chats, load_state. cbn [mbind option_bind]. by rewrite Hb.
Qed.

#[local] Hint Resolve settles_save settles_quiet quiet_client quiet_opt : settle.
#[local] Hint Extern 4 (quiet (app_ret _)) => apply quiet_pure; done : settle.
#[local] Hint Extern 4 (quiet app_get) => apply quiet_pure; done : settle.
#[local] Hint Extern 4 (quiet (app_fail _)) => apply quiet_pure; done : settle.
#[local] Hint Extern 4 (quiet (app_lift _)) => apply quiet_pure; done : settle.
#[local] Hint Extern 4 (quiet (app_modify _)) => apply quiet_pure; done : settle.

(** A change of the chats is always followed by a save: try that first. *)
Ltac settle :=
  repeat match goal with
  | |- quiet (app_bind (app_modify (start_session _ _ _)) _) => apply settles_quiet, settles_after
  | |- quiet (app_bind (app_modify (update_session _ _)) _) => apply settles_quiet, settles_after
  | |- quiet (app_bind (app_modify (push_message _ _)) _) => apply settles_quiet, settles_after
  | |- quiet (app_bind (app_modify (remove_chat _)) _) => apply settles_quiet, settles_after
  | |- quiet (app_bind _ _) => apply quiet_bind; [|intros ?]
  | |- quiet (let _ := _ in _) => cbv zeta
  | |- quiet (match ?x with _ => _ end) => destruct x
  | |- settles (app_bind _ _) => apply settles_bind; [|intros ?]
  | |- _ => solve [auto with settle]
  end.

Lemma quiet_lines now ls : quiet (show_lines now ls).
Proof. induction ls; cbn [show_lines]; settle. Qed.
Lemma quiet_labels now ss : quiet (show_labels now ss).
Proof. induction ss; cbn [show_labels]; settle. Qed.
Lemma quiet_rows now rows : quiet (show_rows now rows).
Proof. induction rows; cbn [show_rows]; settle. Qed.
#[local] Hint Resolve quiet_lines quiet_labels quiet_rows : settle.

Lemma quiet_command now rnd clipboard cmd : quiet (command now rnd clipboard cmd).
Proof.
  unfold handle_command. destruct (split_space _) as [first rest]. cbv zeta.
  repeat (case_decide; [unfold cmd_account, cmd_dm, cmd_new, cmd_add, cmd_remove, cmd_members, cmd_reply,
    cmd_nickname, cmd_chats, cmd_switch, cmd_delete, cmd_status, cmd_clear, send_reply, echo_sent,
    active_sendable_chat, show_chats_list; settle|]); settle.
Qed.

Lemma quiet_incoming now evs : quiet (process_incoming save now evs).
Proof.
  unfold process_incoming. destruct evs as [|e evs]; [cbn [handle_events]; settle|].
  intros a _. unfold app_bind, unless_panic. pose proof (sound_events now (e :: evs) a) as Hs.
  destruct (handle_events _ _ _) as [a2 [[]|[m|]]]; [apply settles_save|by destruct (Hs m)|done].
Qed.

Lemma quiet_press now rnd clipboard key :
  quiet (press (R := R) show show_chat show_addr show_client debug_client save now rnd clipboard key).
Proof.
  assert (∀ pre f, quiet (on_fault pre f)) as Hf by (intros pre []; cbn [on_fault]; settle).
  unfold press. destruct key; settle. unfold enter. destruct (starts_with_str _ _); intros a Ha.
  - pose proof (quiet_command now rnd clipboard (ap_input x) a Ha) as H. red in H.
    destruct (handle_command _ _ _ _ _ _ _ _ _ _ _) as [a1 [[resp|]|f]]; cbn in H;
      [intros _; by apply H|intros _; by apply H|].
    destruct f; [|by intros []]. apply Hf. by apply H.
  - destruct (current_session a); [|by intros _].
    assert (quiet (app_send_message show_chat show_client save now (ap_input x))) as Hq.
    { unfold app_send_message, active_sendable_chat, echo_sent. settle. }
    specialize (Hq a Ha). red in Hq.
    destruct (app_send_message _ _ _ _ _ _) as [a1 [[]|f]]; cbn in Hq; [intros _; by apply Hq|].
    destruct f; [|by intros []]. apply Hf. by apply Hq.
Qed.

Lemma settled_step r r' : settled (ar_app r) → step r r' → settled (ar_app r').
Proof.
  intros Hs Hstep. destruct Hstep as [? a ? ? ? Hr|? ? ? ? a ? ? ? ? Hr|? ? a ? ? ? ? Hr]; cbn in *.
  - pose proof (quiet_incoming now queue a Hs) as H. red in H. rewrite Hr in H. by apply H.
  - pose proof (quiet_press now rnd clipboard key a Hs) as H. red in H. rewrite Hr in H. by apply H.
  - exact Hs.
Qed.

Lemma app_new_settled now k addr name stored a0 :
  app_new now k addr name stored = (a0, Ok ()) → settled a0.
Proof.
  unfold app_new. set (a := Build_ChatApp _ _ _ _ _ _ _ _ _). intros Hn.
  assert (quiet (show_chats_list now)) as Hq by (unfold show_chats_list; settle).
  specialize (Hq a eq_refl). red in Hq. rewrite Hn in Hq. by apply Hq.
Qed.

Lemma filed_step r r' : filed (ar_app r) → step r r' → filed (ar_app r').
Proof.
  intros Hs Hstep. destruct Hstep as [? a ? ? ? Hr|? ? ? ? a ? ? ? ? Hr|? ? a ? ? ? ? Hr]; cbn in *.
  - pose proof (keeps_incoming now queue a) as H. red in H. rewrite Hr in H. by apply H.
  - pose proof (keeps_press [] now rnd clipboard key a) as H. red in H. rewrite Hr in H. by apply H.
  - exact Hs.
Qed.

(** Listing the chats changes none. *)
Definition same_state a a' : Prop := ap_state a' = ap_state a.
#[local] Instance same_state_preorder : PreOrder same_state.
Proof. unfold same_state. split; [done|]. intros ??? -> ->. done. Qed.

Lemma list_same_state now : app_keeps same_state (show_chats_list now).
Proof.
  assert (∀ f, (∀ a, ap_state (f a) = ap_state a) → app_keeps same_state (app_modify f)) as Hm.
  { intros f Hf. by apply app_keeps_modify. }
  assert (∀ ss, app_keeps same_state (show_labels now ss)) as Hl.
  { induction ss as [|s ss IH]; cbn [show_labels]; [apply app_keeps_ret; apply _|].
    repeat (apply app_keeps_bind; [apply _| |intros ?]); [apply app_keeps_get; apply _|apply app_keeps_opt; apply _|
      by apply Hm|done]. }
  unfold show_chats_list. apply app_keeps_bind; [apply _|by apply Hm|intros _].
  apply app_keeps_bind; [apply _|apply app_keeps_get; apply _|intros x]. cbv zeta. case_decide; [by apply Hm|].
  apply app_keeps_bind; [apply _|by apply Hm|done].
Qed.

Lemma app_new_chats now k addr name stored a0 :
  app_new now k addr name stored = (a0, Ok ()) → chats (ap_state a0) = stored_chats stored.
Proof.
  unfold app_new. set (a := Build_ChatApp _ _ _ _ _ _ _ _ _). intros Hn.
  pose proof (list_same_state now a) as H. red in H. rewrite Hn in H. cbn [fst] in H. red in H.
  by rewrite H.
Qed.

Lemma app_new_filed now k addr name stored a0 :
  app_new now k addr name stored = (a0, Ok ()) → file_ok stored → filed a0.
Proof.
  unfold app_new. set (a := Build_ChatApp _ _ _ _ _ _ _ _ _). intros Hn Hf.
  pose proof (list_same_state now a) as H. red in H. rewrite Hn in H. cbn [fst] in H. red in H.
  unfold filed. rewrite H. split; [|done]. exact Hf.
Qed.
End app.

(** ** Deleting a chat, and replies from others *)

Section faults.
Context {HX : Hex} {D : Dalek} {PB : Prost} {DS RS CS P WS O R : Type}.
Context {DSI : DeliveryService DS} {CSI : ConversationStore CS} {CO : Convo DS RS CS P WS O}.
Context {CF : ConvoFactory DS RS CS P WS O R} {C : Cbor} {HI : HashIter} {SJ : SerdeJson}.
Context (show_chat : ChatError.t → string) (show_client : ClientError.t → string).
Context (save : option (list byte) → list byte → option (list byte) * result string ()).
Implicit Types (a : ChatApp DS RS CS P WS O).

(** Anyone in a conversation can stop the application for everyone else
    in it: a reply to an unknown id whose eighth byte falls inside a character
    is received, decoded and attributed as usual, and panics where its preview
    is cut; no event behind it is handled. *)
Theorem foreign_reply_panics {CL : CborLaws C} now id session target text bytes sender mid rest a :
  encode_reply (Content_id target) text = Ok bytes →
  chats (ap_state a) !! id = Some session →
  (∀ m, m ∈ cs_messages session → dm_message_id m ≠ Some target) →
  slice_to 8 target = None →
  process_incoming save now (MessageReceived id bytes sender mid :: rest) a = (a, Err AppPanic).
Proof.
  intros He Hs Hn Hp. unfold process_incoming, app_bind. cbn [handle_events].
  unfold handle_event, app_bind, app_get. rewrite Hs.
  assert (received_body (cs_messages session) bytes = None) as ->; [|done].
  unfold received_body. unfold encode_reply in He. rewrite (decode_encode_envelope _ _ He).
  cbn [msg_in_reply_to env_in_reply_to envelope_text content_id_str]. unfold reply_preview.
  destruct (head _) as [m|] eqn:Hm; [|by rewrite Hp].
  apply head_Some_elem_of, list_elem_of_filter in Hm as [Hid Hin].
  apply bool_decide_eq_true in Hid. by destruct (Hn m).
Qed.

(** Deleting the active chat leaves the sendable flag of the chat that is
    gone: when it was a read-only one, every message to the chat the
    application moves to is refused, whatever the client can send to. *)
Theorem delete_leaves_stale_flag args id now content resp a a' other :
  args ≠ ""%string → resolve_chat_id args a = Some id →
  active_chat (ap_state a) = Some id → ap_is_active a = false →
  cmd_delete save args a = (a', Ok resp) → active_chat (ap_state a') = Some other →
  ∃ e, app_send_message show_chat show_client save now content a' = (a', Err (AppError e)).
Proof.
  intros Ha Hr Hact Hflag Hd Ho. eexists. unfold app_send_message, active_sendable_chat, app_bind, app_get.
  rewrite Ho. assert (ap_is_active a' = false) as ->; [|done]. revert Hd.
  unfold cmd_delete. rewrite decide_False by done. unfold app_bind, app_get. rewrite Hr.
  destruct (label_of id a); [|done]. cbn [app_opt app_ret]. unfold app_modify, save_state.
  destruct (to_json _) as [json|]; [|done]. destruct (save _ _) as [sv [[]|e]]; [|done]. cbn. intros [= <- _]. exact Hflag.
Qed.
End faults.

Section any.
Context {HX : Hex} {HL : HexLaws HX} {B : Blake2b} {D : Dalek} {DL : DalekLaws D} {PB : Prost}.
Context {PL : ProstLaws PB} {PB2 : ProstV2} {TC : TlsCodec}.
Context {P G K : Type} {ML : OpenMls P G} {DM : DeMls P K}.
Context {DS : Type} {DSI : DeliveryService DS} {RS : Type} {RSI : RegistrationService RS}.
Context {CS : Type} {CSI : ConversationStore CS} {WS : Type} {WSI : WakeupService WS}.
Context {E : Type} {A : AuthService E} {C : Cbor} {HI : HashIter} {HIL : HashIterLaws HI} {SJ : SerdeJson} {SJL : SerdeJsonLaws SJ}.
Context (show : E → string) (show_chat : ChatError.t → string) (show_addr : AccountAddrError.t → string).
Context (show_client debug_client : ClientError.t → string).
Context (save : option (list byte) → list byte → option (list byte) * result string ()).

Abbreviation AnyClient := (Client DS RS CS P WS (AnyConvo G K)).
Abbreviation AnyRun := (AppRun DS RS CS P WS (AnyConvo G K)).
Abbreviation astep := (client_step (R := list byte * Seed) show show_chat show_addr).
Abbreviation run_step :=
  (app_step (R := list byte * Seed) show show_chat show_addr show_client debug_client save).

(** C33. Over every run of the terminal application, whatever is typed and
    whatever arrives in whatever order: the run is a run of the client, which
    sent exactly the events handled and the ones waiting; and every message of
    others on the screen is the body of a received one, under the account the
    client attributed it to, which endorses the installation that sent it,
    and every delivery mark stands for an acknowledgement. [past] are the
    events of the earlier runs that the state file stems from. *)
Theorem app_shows_only_received i transport reg ws storage provider budget now addr name stored past
    (c0 : AnyClient) a0 (r : AnyRun) :
  client_new show show_chat i transport reg ws storage provider budget = Ok c0 →
  app_new now (cl_core c0) addr name stored = (a0, Ok ()) →
  file_ok stored → all_accounted addr past (stored_chats stored) → Forall attributed past →
  rtc run_step {| ar_app := a0; ar_queue := []; ar_worker := cl_worker c0 |} r →
  ∃ c handed, rtc astep c0 c ∧ cl_core c = ap_core (ar_app r) ∧
    cl_events c = handed ++ ar_queue r ∧ Forall attributed (past ++ handed) ∧
    all_accounted addr (past ++ handed) (chats (ap_state (ar_app r))).
Proof.
  intros Hc Hn Hf Hp Hv Hrun. apply client_new_starts in Hc as (He & _).
  eapply run_inv_run in Hrun; [|by eapply app_new_inv].
  destruct Hrun as (c & handed & Hs & Hk & _ & Hev & Ha & _ & Hsh).
  exists c, handed. split_and!; [done..| |by unfold shown in Hsh; rewrite Ha in Hsh].
  apply Forall_app. split; [done|]. eapply run_attributed in Hs; [|by rewrite He].
  rewrite Hev in Hs. by apply Forall_app in Hs as [? _].
Qed.

(** C34. What the application shows survives a restart: at every point of every
    run in which the state file can be written, and a state written as JSON
    reads back, each session is filed under its own id and the active chat is
    one of them, and the application started on the file as it is then shows
    the same chats with the same messages. *)
Theorem app_state_survives now k addr name stored a0 (r : AnyRun) w0 now' k'
    (a1 : ChatApp DS RS CS P WS (AnyConvo G K)) :
  (∀ old json, save old json = (Some json, Ok ())) →
  app_new now k addr name stored = (a0, Ok ()) → file_ok stored →
  rtc run_step {| ar_app := a0; ar_queue := []; ar_worker := w0 |} r →
  app_new now' k' addr name (ap_saved (ar_app r)) = (a1, Ok ()) →
  filed (ar_app r) ∧ filed a1 ∧ chats (ap_state a1) = chats (ap_state (ar_app r)).
Proof.
  intros Hsave Hn Hf Hrun Hn'.
  assert (filed (ar_app r) ∧ settled (ar_app r)) as [H1 H2].
  { eapply (rtc_invariant _ (λ r, filed (ar_app r) ∧ settled (ar_app r))); [|exact Hrun|].
    - intros r1 r2 [??] Hs. split; [by eapply filed_step|by eapply settled_step].
    - split; [by eapply app_new_filed|by eapply app_new_settled]. }
  pose proof (app_new_chats _ _ _ _ _ _ Hn') as H3. rewrite H2 in H3.
  split_and!; [done| |done]. eapply app_new_filed; [exact Hn'|]. intros id s Hs.
  apply H1. by rewrite <- H2.
Qed.
End any.

(** ** Witnesses *)

Definition hash_iter_ref : HashIter := {| hash_iter := map_to_list |}.
Lemma hash_iter_ref_laws : HashIterLaws hash_iter_ref.
Proof. split. done. Qed.
Definition save_ref (old : option (list byte)) (json : list byte) : option (list byte) * result string () :=
  (Some json, Ok ()).

(** The state as text: [write] and [read] of what it is made of. *)
#[local] Instance origin_eq_dec : EqDecision MessageOrigin.
Proof. solve_decision. Defined.
#[local] Instance origin_countable : Countable MessageOrigin :=
  inj_countable' (λ o, match o with Own => None | Foreign a => Some a end)
    (λ o, match o with None => Own | Some a => Foreign a end) ltac:(by intros []).
#[local] Instance class_countable : Countable ConversationClass :=
  inj_countable' (λ c, match c with Dm => false | GroupClass => true end)
    (λ b : bool, if b then GroupClass else Dm) ltac:(by intros []).
#[local] Instance message_eq_dec : EqDecision DisplayMessage.
Proof. solve_decision. Defined.
#[local] Instance message_countable : Countable DisplayMessage :=
  inj_countable' (λ m, (dm_from_self m, dm_content m, dm_timestamp m, dm_message_id m, dm_delivered_to m, dm_origin m))
    (λ '(f, c, t, i, d, o), {| dm_from_self := f; dm_content := c; dm_timestamp := t; dm_message_id := i;
                               dm_delivered_to := d; dm_origin := o |}) ltac:(by intros []).
#[local] Instance session_eq_dec : EqDecision ChatSession.
Proof. solve_decision. Defined.
#[local] Instance session_countable : Countable ChatSession :=
  inj_countable' (λ s, (cs_chat_id s, cs_nickname s, cs_kind s, cs_messages s))
    (λ '(i, n, k, l), {| cs_chat_id := i; cs_nickname := n; cs_kind := k; cs_messages := l |}) ltac:(by intros []).
#[local] Instance state_eq_dec : EqDecision AppState.
Proof. solve_decision. Defined.
#[local] Instance state_countable : Countable AppState :=
  inj_countable' (λ st, (map_to_list (chats st), active_chat st))
    (λ '(l, a), {| chats := list_to_map l; active_chat := a |})
    ltac:(intros []; cbn; by rewrite list_to_map_to_list).
#[local] Instance json_ref : SerdeJson := {|
  to_json st := Ok (write st);
  from_json b := match read b with Ok st => Some st | Err _ => None end;
|}.
#[local] Instance json_ref_laws : SerdeJsonLaws json_ref.
Proof. split. intros st. exists (write st). split; [done|]. cbn. by rewrite read_write. Defined.

Abbreviation DemoApp :=
  (ChatApp (list AddressedEnvelope) (gmap string (list byte)) MemStore () () (AnyConvo ToyGroup ToyConsensus)).
Abbreviation DemoRun :=
  (AppRun (D := dalek_ref) (list AddressedEnvelope) (gmap string (list byte)) MemStore () ()
     (AnyConvo ToyGroup ToyConsensus)).
Abbreviation demo_app_step := (app_step (HX := hex_ref) (D := dalek_ref) (PB := prost_ref) (CO := demo_convo)
  (CF := demo_factory) (A := auth_ref) (C := cbor_ref) (HI := hash_iter_ref) no_text no_text no_text no_text
  no_text save_ref).

Definition demo_app_new : DemoApp * result AppFault () :=
  app_new (CO := demo_convo) (HI := hash_iter_ref) 0 (cl_core demo_client) "" "bob" None.
Definition demo_run_start : DemoRun :=
  {| ar_app := demo_app_new.1; ar_queue := []; ar_worker := cl_worker demo_client |}.

(** One turn of the worker, and one round of incoming events. *)
Definition demo_turn (input : WorkerInput (R := list byte * ())) (r : DemoRun) : DemoRun :=
  match ar_worker r with
  | None => r
  | Some budget =>
      let '(k, sent, b) := worker_turn (HX := hex_ref) (PB := prost_ref) (CO := demo_convo)
        (CF := demo_factory) no_text budget input (ap_core (ar_app r)) in
      {| ar_app := set_core k (ar_app r); ar_queue := ar_queue r ++ sent; ar_worker := b |}
  end.
Definition demo_take (r : DemoRun) : DemoRun :=
  match process_incoming (CO := demo_convo) (C := cbor_ref) (D := dalek_ref) (HX := hex_ref) save_ref 7
          (ar_queue r) (ar_app r) with
  | (a, Ok _) => {| ar_app := a; ar_queue := []; ar_worker := ar_worker r |}
  | _ => r
  end.

Lemma demo_turn_steps input r : rtc demo_app_step r (demo_turn input r).
Proof.
  unfold demo_turn. destruct r as [a q [budget|]]; cbn; [|apply rtc_refl].
  destruct (worker_turn _ _ _ _) as [[k sent] b] eqn:Ht. apply rtc_once. by eapply app_worker.
Qed.
Lemma demo_take_steps r : rtc demo_app_step r (demo_take r).
Proof.
  unfold demo_take. destruct (process_incoming _ _ _ _) as [a [[]|]] eqn:Hp; [|apply rtc_refl].
  destruct r as [a' q w]. apply rtc_once. by eapply app_incoming.
Qed.

(** B joins, the application shows the conversation, and A's message arrives. *)
Definition demo_app_heard : DemoRun :=
  demo_take (demo_turn (Inbound ([], ()) (Some demo_text))
    (demo_take (demo_turn (Inbound ([], ()) (Some demo_invite)) demo_run_start))).
Lemma demo_app_run : rtc demo_app_step demo_run_start demo_app_heard.
Proof.
  unfold demo_app_heard. etrans; [apply demo_turn_steps|]. etrans; [apply demo_take_steps|].
  etrans; [apply demo_turn_steps|apply demo_take_steps].
Qed.
Lemma demo_app_new_Ok : demo_app_new = (ar_app demo_run_start, Ok ()).
Proof. vm_compute. reflexivity. Qed.

Lemma stored_none addr past : file_ok None ∧ all_accounted (HX := hex_ref) (D := dalek_ref) (C := cbor_ref)
  addr past (stored_chats None).
Proof. split; [intros id s H|intros id s x H]; change (stored_chats None) with (∅ : gmap string ChatSession) in H; by rewrite lookup_empty in H. Qed.

Lemma app_shows_only_received_witness :
  (length <$> (cs_messages <$> chats (ap_state (ar_app demo_app_heard)) !! "0a0b"%string)) = Some 1 ∧
  ∃ handed, all_accounted (HX := hex_ref) (D := dalek_ref) (C := cbor_ref) "" handed
    (chats (ap_state (ar_app demo_app_heard))).
Proof.
  split; [vm_compute; reflexivity|].
  destruct (app_shows_only_received (HX := hex_ref) (B := blake_toy) (D := dalek_ref) (DL := dalek_ref_laws)
    (PB := prost_ref) (PL := prost_ref_laws) (PB2 := prost_v2_ref) (TC := tls_ref) (ML := mls_ref)
    (DM := demls_ref) (DSI := outbox) (RSI := registry_ref) (WSI := wakeup_ref) (A := auth_ref) (C := cbor_ref)
    (HI := hash_iter_ref) (HIL := hash_iter_ref_laws) no_text no_text no_text no_text no_text save_ref demo_inst
    [] ∅ () memstore_new (Ok ()) None 0 "" "bob" None [] demo_client (ar_app demo_run_start) demo_app_heard
    demo_started_Ok demo_app_new_Ok (proj1 (stored_none "" [])) (proj2 (stored_none "" [])) (List.Forall_nil _)
    demo_app_run) as (c & handed & _ & _ & _ & _ & H).
  exists handed. exact H.
Defined.

Definition demo_again : DemoApp * result AppFault () :=
  app_new (CO := demo_convo) (HI := hash_iter_ref) 9 (cl_core demo_client) "" "bob"
    (ap_saved (ar_app demo_app_heard)).
Lemma demo_again_Ok : demo_again = (demo_again.1, Ok ()).
Proof.
  assert (demo_again.2 = Ok ()) as <- by (vm_compute; reflexivity). apply surjective_pairing.
Qed.

Lemma app_state_survives_witness :
  size (chats (ap_state (ar_app demo_app_heard))) = 1 ∧
  chats (ap_state demo_again.1) = chats (ap_state (ar_app demo_app_heard)).
Proof.
  split; [vm_compute; reflexivity|].
  destruct (app_state_survives (HX := hex_ref) (B := blake_toy) (D := dalek_ref)
    (PB := prost_ref) (PB2 := prost_v2_ref) (TC := tls_ref) (ML := mls_ref)
    (DM := demls_ref) (DSI := outbox) (RSI := registry_ref) (WSI := wakeup_ref) (A := auth_ref) (C := cbor_ref)
    (HI := hash_iter_ref) (HIL := hash_iter_ref_laws) no_text no_text no_text no_text no_text save_ref
    0 (cl_core demo_client) "" "bob" None (ar_app demo_run_start) demo_app_heard (cl_worker demo_client) 9
    (cl_core demo_client) demo_again.1 (λ _ _, eq_refl) demo_app_new_Ok (proj1 (stored_none "" []))
    demo_app_run demo_again_Ok) as (_ & _ & H). exact H.
Defined.

Definition demo_sender : AuthenticatedMember :=
  {| am_inner := {| ms_signer_key := inst_signer demo_inst; ms_account := inst_account demo_inst |} |}.
Definition demo_session : ChatSession :=
  match chats (ap_state (ar_app demo_app_heard)) !! "0a0b"%string with
  | Some s => s
  | None => {| cs_chat_id := ""; cs_nickname := None; cs_kind := Dm; cs_messages := [] |}
  end.

Lemma foreign_reply_panics_witness :
  ∃ bytes, encode_reply (C := cbor_ref) (Content_id "1234567é") "hi" = Ok bytes ∧
    process_incoming (CO := demo_convo) (C := cbor_ref) (D := dalek_ref) (HX := hex_ref) save_ref 7
      [MessageReceived "0a0b" bytes demo_sender "m9"] (ar_app demo_app_heard) =
    (ar_app demo_app_heard, Err AppPanic).
Proof.
  eexists. split; [vm_compute; reflexivity|].
  apply (foreign_reply_panics (CO := demo_convo) (C := cbor_ref) (CL := cbor_ref_laws) (D := dalek_ref)
    (HX := hex_ref) save_ref 7 "0a0b" demo_session "1234567é" "hi").
  - vm_compute. reflexivity.
  - vm_compute. reflexivity.
  - assert (dm_message_id <$> cs_messages demo_session = [Some "m2"%string]) as Hl by (vm_compute; reflexivity).
    intros m Hm Hid. assert (dm_message_id m ∈ [Some "m2"%string]) as Hin.
    { rewrite <- Hl. by apply list_elem_of_fmap_2. }
    rewrite Hid in Hin. by apply list_elem_of_singleton in Hin.
  - vm_compute. reflexivity.
Defined.

(** Two chats: a live one and, active, a read-only one. *)
Definition stale_session (id : string) : ChatSession :=
  {| cs_chat_id := id; cs_nickname := None; cs_kind := GroupClass; cs_messages := [] |}.
Definition stale_app : DemoApp :=
  {| ap_core := demo_core; ap_addr := ""; ap_is_active := false; ap_output := []; ap_input := "";
     ap_state := {| chats := <["0a0b"%string := stale_session "0a0b"]> {["0c"%string := stale_session "0c"]};
                    active_chat := Some "0c"%string |};
     ap_status := ""; ap_user_name := "bob"; ap_saved := None |}.
Definition stale_after : DemoApp := (cmd_delete (HI := hash_iter_ref) save_ref "0c" stale_app).1.

Lemma delete_leaves_stale_flag_witness :
  active_chat (ap_state stale_after) = Some "0a0b"%string ∧
  can_send (CO := demo_convo) "0a0b" (ap_core stale_after) = true ∧
  ∃ e, app_send_message (HX := hex_ref) (CO := demo_convo) (CF := demo_factory) (C := cbor_ref) no_text no_text
         save_ref 7 "hello" stale_after = (stale_after, Err (AppError e)).
Proof.
  split; [vm_compute; reflexivity|]. split; [vm_compute; reflexivity|].
  apply (delete_leaves_stale_flag (HX := hex_ref) (CO := demo_convo) (CF := demo_factory) (C := cbor_ref)
    (HI := hash_iter_ref) no_text no_text save_ref "0c" "0c" 7 "hello" (Some "Deleted '0c'"%string) stale_app stale_after
    "0a0b"); try (vm_compute; reflexivity). done.
Defined.
