(* ===== verification/LogosTheorems.v ===== *)
(** * Theorems about opening a client

    A registered installation passes the self-check the client runs next; a
    store is opened as the same installation for ever after; over the network
    the vault endorses a key before the client is built from it; and which
    command line options each branch of the terminal client listens to. *)

From Stdlib Require Import Strings.Byte Strings.String.
From stdpp Require Import base gmap strings numbers pretty list.
From S2P Require Import Prelude Utf8 Hex Ed25519 Context AccountLog Codec Addr Draft Record Account AccountTheorems.
From S2P Require Import Identity HttpAuth CausalHistory Storage Delivery Registry HttpTheorems Sql Services SqliteStore.
From S2P Require Import Installation MlsUtils GroupV1 GroupV3 GroupV2 Convo Core Client KeyVault Endpoints Logos.
From S2P Require Import Reference ConversationTheorems GroupV2Theorems CoreTheorems ClientTheorems.

(** ** A registered installation is accepted *)

Section accepted.
Context {HX : Hex} {D : Dalek} {DL : DalekLaws D} {W : Type} {HW : HttpWorld W} {HWL : HttpWorldLaws W}.
Context (show_http : HttpAccountError.t → string) (e : Endpoint).

Lemma http_publish_Ok (w : W) addr s :
  http_publish (SV := world_server w) e addr s = Ok () →
  ∃ resp, http_post (HttpServer := world_server w) (url e addr) (signed_to_bytes s) 0 = Ok resp ∧
    is_success (status resp) = true.
Proof.
  unfold http_publish. intros (resp & Hp%map_err_Ok & H)%bind_Ok. exists resp. split; [done|].
  apply bind_Ok in H as (r' & H & _). unfold success in H. by destruct (is_success (status resp)).
Qed.

(** A lookup that is answered within its retries: the attempts before it shed,
    then a body that is read whole. *)
Definition answered (w : W) (u : string) : Prop :=
  ∃ n r, n ≤ LOOKUP_RETRIES ∧ http_get (HttpServer := world_server w) u n = Ok r ∧
    is_success (status r) = true ∧ broken r = None ∧
    ∀ m, m < n → ∃ r', http_get (HttpServer := world_server w) u m = Ok r' ∧ shed (status r') = true.

Lemma success_not_shed st : is_success st = true → shed st = false.
Proof.
  unfold is_success, shed, is_server_error, TOO_MANY_REQUESTS.
  intros [H1%N.leb_le H2%N.ltb_lt]%andb_true_iff. apply orb_false_iff. split.
  - apply andb_false_iff. left. apply N.leb_gt. lia.
  - apply N.eqb_neq. lia.
Qed.

Lemma get_loop_answered (SV : HttpServer) u a l n r :
  n ≤ l → http_get u (a + n) = Ok r → shed (status r) = false →
  (∀ m, m < n → ∃ r', http_get u (a + m) = Ok r' ∧ shed (status r') = true) → get_loop u a l = Ok r.
Proof.
  revert a n. induction l as [|l IH]; intros a [|n] Hn Hr Hs Hm; cbn [get_loop]; [| lia | |].
  - rewrite Nat.add_0_r in Hr. by rewrite Hr.
  - rewrite Nat.add_0_r in Hr. rewrite Hr. cbn [mbind result_bind map_err]. by rewrite Hs.
  - destruct (Hm 0) as (r0 & H0 & Hs0); [lia|]. rewrite Nat.add_0_r in H0. rewrite H0. cbn [mbind result_bind map_err].
    rewrite Hs0. apply (IH _ n); [lia|by rewrite <- Nat.add_assoc|done|].
    intros m Hlt. rewrite <- Nat.add_assoc. apply Hm. lia.
Qed.

(** What a fetch makes of an artifact that was read whole. *)
Lemma fetch_artifact (SV : HttpServer) addr s r :
  length (sig_bytes (signature s)) = SIG_LEN →
  (N.of_nat (length ACCOUNT_LOG_DOMAIN) ≤ len (as_bytes (payload s)) ≤ MAX_PAYLOAD_BYTES)%N →
  endpoint_get e addr = Ok r → is_success (status r) = true → broken r = None → body r = signed_to_bytes s →
  http_fetch e addr = Ok (Some s).
Proof.
  intros Hsig Hlen Hget Hs Hbr Hbody. unfold http_fetch. rewrite Hget. cbn [mbind result_bind].
  destruct (N.eqb_spec (status r) NOT_FOUND) as [E|_]; [by rewrite E in Hs|].
  unfold success. rewrite Hs. cbn [mbind result_bind].
  assert (len (signed_to_bytes s) ≤ MAX_ARTIFACT_BYTES)%N as Hb.
  { unfold signed_to_bytes, len in *. rewrite length_app, Hsig. unfold MAX_ARTIFACT_BYTES. change SIG_LEN with 64. lia. }
  unfold read_upto. rewrite Hbody, Hbr. unfold len in Hb.
  destruct (Nat.leb_spec (N.to_nat (MAX_ARTIFACT_BYTES + 1)) (length (signed_to_bytes s))); [lia|].
  cbn [mbind result_bind map_err]. destruct (N.ltb_spec MAX_ARTIFACT_BYTES (len (signed_to_bytes s))); [unfold len in *; lia|].
  by rewrite signed_artifact_roundtrip.
Qed.

(** What the server accepted is what is fetched from then on, when anything is. *)
Lemma accepted_served (w : W) addr s :
  length (sig_bytes (signature s)) = SIG_LEN →
  (N.of_nat (length ACCOUNT_LOG_DOMAIN) ≤ len (as_bytes (payload s)) ≤ MAX_PAYLOAD_BYTES)%N →
  http_publish (SV := world_server w) e addr s = Ok () →
  let w' := world_posted w (url e addr) (signed_to_bytes s) in
  (∀ o, http_fetch (SV := world_server w') e addr = Ok o → o = Some s) ∧
  (answered w' (url e addr) → http_fetch (SV := world_server w') e addr = Ok (Some s)).
Proof.
  intros Hsig Hlen (resp & Hp & Hs)%http_publish_Ok w'. split.
  - intros o Hf. pose proof Hf as (r & Hget & Hrest)%bind_Ok.
    pose proof Hget as (n & _ & Hr & _)%get_loop_spec. destruct (world_serves w _ _ _ _ _ Hp Hs Hr) as [Hnf Hb].
    destruct (N.eqb_spec (status r) NOT_FOUND); [done|]. apply bind_Ok in Hrest as (r' & Hsucc & Hrest).
    unfold success in Hsucc. destruct (is_success (status r)) eqn:Hst; [|done]. injection Hsucc as <-.
    destruct (broken r) as [err|] eqn:Hbr.
    + exfalso. apply bind_Ok in Hrest as (b & Hread%map_err_Ok & Hrest). unfold read_upto in Hread. rewrite Hbr in Hread.
      destruct (Nat.leb_spec (N.to_nat (MAX_ARTIFACT_BYTES + 1)) (length (body r))); [|done]. injection Hread as <-.
      destruct (N.ltb_spec MAX_ARTIFACT_BYTES (len (take (N.to_nat (MAX_ARTIFACT_BYTES + 1)) (body r)))) as [|Hle]; [done|].
      unfold len in Hle. rewrite length_take in Hle. lia.
    + pose proof (fetch_artifact (world_server w') addr s r Hsig Hlen Hget Hst Hbr (Hb eq_refl eq_refl)) as Hf'.
      rewrite Hf' in Hf. by injection Hf as <-.
  - intros (n & r & Hn & Hr & Hst & Hbr & Hm). destruct (world_serves w _ _ _ _ _ Hp Hs Hr) as [_ Hb].
    eapply fetch_artifact; [done|done| |exact Hst|exact Hbr|by apply Hb].
    eapply get_loop_answered; [exact Hn|exact Hr|by apply success_not_shed|exact Hm].
Qed.

(** A key endorsed last is live. *)
Lemma last_entry_live (base : list AccountEntry) c d :
  removes_valid (base ++ [Add c d]) → live_at (base ++ [Add c d]) (length base) (Add c d).
Proof.
  intros Hr. split_and!; [by rewrite lookup_app_r, Nat.sub_diag|done|].
  rewrite elem_of_app, list_elem_of_singleton. intros [Hin|?]; [|done].
  remember (N.of_nat (length base)) as i eqn:Hi. apply list_elem_of_split in Hin as (l1 & l2 & ->).
  destruct (Hr l1 i (l2 ++ [Add c d])) as (_ & e' & He & _); [by rewrite <- app_assoc|].
  apply lookup_lt_Some in He. rewrite Hi, length_app, Nat2N.id in He. lia.
Qed.

(** A directory that has the account of [ak] with [ik]'s key endorsed last: it
    shows that or fails to answer. *)
Definition shows_endorsed (w : W) (ak ik : Ed25519SigningKey) : Prop :=
  ∃ base s,
    let endorsement := Add CHATSIGNER_CONTEXT (Ed25519Key (key_bytes (verifying_key ik))) in
    signed_verify s (verifying_key ak) = Ok {| entries := base ++ [endorsement] |} ∧
    let addr := addr_from_key (verifying_key ak) in
    removes_valid (base ++ [endorsement]) ∧
    (∀ o, http_fetch (SV := world_server w) e addr = Ok o → o = Some s) ∧
    (answered w (url e addr) → http_fetch (SV := world_server w) e addr = Ok (Some s)).

Lemma encoded_len es p :
  encode_entries es = Ok p → (N.of_nat (length ACCOUNT_LOG_DOMAIN) ≤ len (as_bytes p) ≤ MAX_PAYLOAD_BYTES)%N.
Proof.
  intros [-> Hl]%encode_entries_Ok. cbn [as_bytes]. split; [|done]. unfold len. rewrite length_app. lia.
Qed.

(** An endorsement the server accepted is shown. *)
Lemma endorsement_served (ak ik : Ed25519SigningKey) (w w' : W) s :
  account_sign (P := http_provider show_http e) {| signing_key := ak; provider := w |}
    (endorse_chat_signer [] (verifying_key ik)) = Some (Ok s) →
  provider_publish (AccountProvider := http_provider show_http e) w (addr_from_key (verifying_key ak)) s =
    (w', Ok ()) →
  shows_endorsed w' ak ik.
Proof.
  intros Hs [= Hw Hpub%map_err_Ok].
  pose proof (account_sign_Ok _ _ _ Hs) as (base' & _ & _ & _ & _ & _ & He & Hsig).
  apply account_sign_verifies in Hs as (base & _ & Hv); [|constructor; [apply chat_signer_authored|constructor]].
  exists base, s. cbv zeta. split_and!; [done| |..].
  - pose proof Hv as [_ (_ & _ & Hlog)%decode_Ok]%signed_verify_Ok. by apply log_valid_spec in Hlog as [? _].
  - rewrite <- Hw. apply accepted_served; [rewrite Hsig; apply sign_len|exact (encoded_len _ _ He)|done].
  - rewrite <- Hw. apply accepted_served; [rewrite Hsig; apply sign_len|exact (encoded_len _ _ He)|done].
Qed.

Lemma verifying_key_slice sk : from_canonical_slice (key_bytes (verifying_key sk)) = Ok (verifying_key sk).
Proof.
  unfold from_canonical_slice. rewrite decide_True by apply length_key_bytes. apply verifying_key_wf.
Qed.

(** Such an installation is called valid whenever the lookup is answered. *)
Lemma endorsed_verdict (w : W) ak ik i :
  shows_endorsed w ak ik → inst_signer i = signer_from_key (verifying_key ik) →
  inst_account i = addr_from_key (verifying_key ak) →
  validate_signer (AuthService := http_auth e w) (inst_signer i) (inst_participant_id i) =
    match http_fetch (SV := world_server w) e (inst_account i) with
    | Ok _ => Ok AuthResult.Valid
    | Err err => Err err
    end.
Proof.
  intros (base & s & Hv & Hr & Hf & _) Hsig Hacc.
  unfold inst_participant_id. rewrite Hsig, Hacc. cbn [validate_signer http_auth].
  set (addr := addr_from_key (verifying_key ak)) in *.
  assert (addr_try_from (participant_bytes (account_id addr)) = Ok addr) as Haddr
    by (apply addr_try_from_Ok; split; [apply addr_from_key_wf|done]).
  destruct (http_fetch (SV := world_server w) e addr) as [o|err] eqn:Hfetch.
  2: { unfold http_validate_signer. rewrite Haddr. cbn [signer_bytes signer_from_key]. rewrite verifying_key_slice.
       unfold get_account. by rewrite Hfetch. }
  rewrite (Hf o eq_refl) in Hfetch. destruct (record_new addr s) as [r|] eqn:Hrec.
  2: { unfold record_new in Hrec. change (pubkey addr) with (verifying_key ak) in Hrec. by rewrite Hv in Hrec. }
  assert (rec_entries r = base ++ [Add CHATSIGNER_CONTEXT (Ed25519Key (key_bytes (verifying_key ik)))]) as Hent.
  { unfold record_new in Hrec. change (pubkey addr) with (verifying_key ak) in Hrec. rewrite Hv in Hrec.
    by injection Hrec as <-. }
  destruct (http_validate_signer_account (SV := world_server w) e (signer_from_key (verifying_key ik))
    (account_id addr) addr (verifying_key ik) r Haddr) as (verdict & -> & Hlive).
  - apply verifying_key_slice.
  - unfold get_account. rewrite Hfetch. cbn [mbind result_bind]. by rewrite Hrec.
  - cbn [unpanic]. cbv zeta in Hlive. rewrite Hent in Hlive. pose proof (last_entry_live _ _ _ Hr) as Hl.
    destruct verdict; [done|destruct Hlive as [Hno _]; destruct Hno; eauto..].
Qed.

(** What [register_account] leaves behind when it succeeds. *)
Lemma register_account_Ok (ak ik : Ed25519SigningKey) (w w' : W) i :
  register_account (PV := http_provider show_http e) ak ik w = Some (w', Ok i) →
  i = complete (pending_generate ik) (addr_from_key (verifying_key ak)) ∧ shows_endorsed w' ak ik.
Proof.
  unfold register_account. unfold endorsement_request, pending_generate at 1. cbn [pend_verifying_key].
  rewrite verifying_key_slice.
  intros ([a r] & Hp & [= <- Hr])%bind_Some. apply publish_cases in Hp as [Hsk Hp].
  destruct r as [s|]; [|done]. injection Hr as <-. destruct (Hp s eq_refl) as [Hs Hpub].
  split; [by unfold account_addr; rewrite Hsk|]. by eapply endorsement_served.
Qed.
End accepted.

Section properties.
Context {HX : Hex} {D : Dalek} {DL : DalekLaws D} {W : Type} {HW : HttpWorld W} {HWL : HttpWorldLaws W}.
Context (show_http : HttpAccountError.t → string) (show_account : AccountError.t → string) (e : Endpoint).
Context {S : Type} {I : IdentityStore S} {IL : IdentityStoreLaws S}.

Abbreviation open_at := (open_installation (PV := http_provider show_http e) show_account).

Lemma register_total (ak ik : Ed25519SigningKey) (w : W) :
  ∃ w' r, register_account (PV := http_provider show_http e) ak ik w = Some (w', r).
Proof.
  unfold register_account. unfold endorsement_request, pending_generate at 1. cbn [pend_verifying_key].
  rewrite verifying_key_slice. destruct (publish_total (P := http_provider show_http e)
    {| signing_key := ak; provider := w |} (endorse_chat_signer [] (verifying_key ik))) as (a & r & ->).
  cbn [mbind option_bind]. eauto.
Qed.

(** C37. The first start. When a new installation is registered, in either mode,
    the self-check the client runs next never finds it unendorsed: against the
    server as registering left it, the check passes whenever its lookup is
    answered, in particular when an attempt within the retries is, after
    others that were shed; and when the lookup fails, and only then, the
    installation is refused, with the error the lookup failed with. *)
Theorem registered_is_valid mode (ak ik : Ed25519SigningKey) (w w' : W) (s s' : S) i :
  open_at ak ik mode w s = Some (w', s', Ok i) →
  mode = Ephemeral ∨ is_load s = Ok None →
  inst_origin i = Origin.Minted ∧ inst_signing_key i = ik ∧
  installation_validate (A := http_auth e w') show_http i =
    match http_fetch (SV := world_server w') e (inst_account i) with
    | Ok _ => Ok ()
    | Err err => Err (ClientError.NotEndorsed ("auth service could not decide: " ++ show_http err)%string)
    end ∧
  (answered w' (url e (inst_account i)) → installation_validate (A := http_auth e w') show_http i = Ok ()) ∧
  (mode = Ephemeral → s' = s).
Proof.
  unfold open_installation. intros ([w1 r] & Hreg & H)%bind_Some Hmode.
  assert (r = Ok i ∧ w1 = w' ∧ (mode = Ephemeral → s' = s)) as (-> & -> & Hs).
  { destruct mode; [|injection H as -> -> H; apply map_err_Ok in H; done].
    destruct Hmode as [?|Hnone]; [done|]. unfold load_or_create, installation_load in H.
    rewrite Hnone in H. cbn [map_err mbind result_bind] in H.
    destruct r as [i'|]; [|done]. cbn [registered map_err] in H.
    destruct (installation_save s i') as [s1 [[]|]]; by simplify_eq. }
  apply register_account_Ok in Hreg as [Hi Hshow].
  pose proof (endorsed_verdict e w' ak ik i Hshow ltac:(by subst i) ltac:(by subst i)) as Hv.
  destruct Hshow as (base & log & _ & _ & _ & Hans). unfold installation_validate. rewrite Hv.
  assert (inst_account i = addr_from_key (verifying_key ak)) as Hacc by (by subst i).
  split_and!; [by subst i..| | |done].
  - destruct (http_fetch (SV := world_server w') e (inst_account i)) as [o|err]; [reflexivity|]. by rewrite Hi.
  - intros Ha. rewrite Hacc in Ha |- *. by rewrite (Hans Ha).
Qed.

(** Every later start. Once an installation was opened from a store, opening
    the store again runs as the same key and account, whatever keys are drawn
    and whatever has become of the server, and registers nothing: neither the
    store nor the server changes. *)
Theorem reopen_same_installation (ak ik ak' ik' : Ed25519SigningKey) (w w' w2 : W) (s s' : S) i :
  open_at ak ik LoadOrCreate w s = Some (w', s', Ok i) →
  open_at ak' ik' LoadOrCreate w2 s' = Some (w2, s', Ok (stored_copy i)).
Proof.
  unfold open_installation. intros ([w1 r] & Hreg & H)%bind_Some.
  destruct (register_total ak' ik' w2) as (w3 & r3 & ->). cbn [mbind option_bind].
  destruct (load_or_create s _) as [s1 res] eqn:Hc. injection H as _ -> ->.
  assert (installation_load s' = Ok (Some (stored_copy i))) as Hl.
  { unfold load_or_create in Hc. destruct (installation_load s) as [[j|]|] eqn:Hs; [| |done].
    - injection Hc as -> ->. rewrite Hs. unfold installation_load in Hs.
      apply bind_Ok in Hs as ([rec|] & _ & Hs); [|done]. apply bind_Ok in Hs as (j & Hd & [= <-]).
      by apply encode_decode_installation in Hd as (_ & <- & _).
    - destruct r as [j|]; [|done]. cbn [registered map_err] in Hc. unfold installation_save in Hc.
      destruct (is_save s _) as [s1 [[]|]] eqn:Hsave; [|done]. cbn [map_err] in Hc. injection Hc as -> ->.
      unfold installation_load in Hs |- *. destruct (is_load s) as [[?|]|] eqn:Hls; [|..|done].
      { apply bind_Ok in Hs as (? & [= <-] & Hs). apply bind_Ok in Hs as (? & _ & Hs). done. }
      rewrite (is_save_load _ _ _ Hls Hsave). cbn [map_err mbind result_bind stored_bytes].
      apply register_account_Ok in Hreg as [-> _]. rewrite decode_encode_installation; [done|].
      apply addr_from_key_wf. }
  unfold load_or_create. by rewrite Hl.
Qed.
End properties.

(** ** The terminal client's branches *)

Section branches.
Context {DC : DeMlsConfig} {HX : Hex} {D : Dalek} {B : Blake2b} {PB : Prost} {PB2 : ProstV2} {TC : TlsCodec}.
Context {P G K : Type} {ML : OpenMls P G} {DM : DeMls P K} {WS : Type} {WSI : WakeupService WS}.
Context {T : Type} {DSI : DeliveryService T} {W : Type} {HW : HttpWorld W}.
Context {RD : RusqliteDisplay} {B64 : Base64} {WR : RegistryWire}.
Context (show_http : HttpAccountError.t → string) (show_chat : ChatError.t → string).
Context (show_account : AccountError.t → string) (show_registry : ContactRegistryError.t → string).
Context (ws : WS) (mls_provider : result string P) (budget : option nat).
Context (answer : list Command → Command → result RusqliteError ()) (io : string → option RusqliteError).
Context (now : Z) (now_ms : option N).

Lemma override_registry_url cli c : registry_url (override_group_v2 cli c) = registry_url c.
Proof. unfold override_group_v2. by destruct (group_v2_override _ _). Qed.
Lemma override_p2p_config cli c : p2p_config (override_group_v2 cli c) = p2p_config c.
Proof. unfold override_group_v2. by destruct (group_v2_override _ _). Qed.

Lemma build_logos_group_v2 i t registry e w store g o :
  build_logos (T := T) (P := P) (G := G) (K := K) (WS := WS) (W := W) show_http show_chat show_registry ws mls_provider
    budget now_ms i t registry e w store g = Some (Ok o) →
  op_group_v2 _ _ _ o = g.
Proof.
  unfold build_logos, build. destruct g; cbn.
  all: intros [= (c & _ & [= <-])%bind_Ok]; done.
Qed.

Abbreviation network := (main_network (G := G) (K := K) (T := T) show_http show_chat show_registry ws mls_provider
  budget answer io now now_ms).
Abbreviation file := (main_file (G := G) (K := K) (T := T) show_http show_chat show_account show_registry ws mls_provider
  budget answer io now now_ms).

(** The commit timing of each branch. With the file transport a client that
    opens runs under what the [--group-commit] option selects. Over the
    network it always runs under the fast timers, and three options are
    without effect there: two command lines that differ in [--group-commit],
    [--registry-publish] and [--db] (or [--data]) do the same thing. *)
Theorem network_ignores_options node_start tmp F fresh drawn cli cli' (w : W) fs found t ak ik :
  cli_name cli = cli_name cli' → cli_keys cli = cli_keys cli' → cli_smoketest cli = cli_smoketest cli' →
  cli_preset cli = cli_preset cli' → cli_port cli = cli_port cli' → cli_registry_url cli = cli_registry_url cli' →
  network node_start tmp F fresh drawn cli w fs = network node_start tmp F fresh drawn cli' w fs ∧
  (∀ w' fs' o, network node_start tmp F fresh drawn cli w fs = Some (w', fs', Ok o) →
     op_group_v2 _ _ _ o = Some fast_group_v2_config) ∧
  (∀ w' db' o, file t ak ik cli w found = Some (w', db', Ok o) →
     op_group_v2 _ _ _ o = group_v2_override (cli_group_commit cli) (cli_transport cli)).
Proof.
  intros Hname Hkeys Hsmoke Hpreset Hport Hurl. split_and!.
  - unfold main_network, vault_dir, client_with, network_config.
    rewrite !override_registry_url, !override_p2p_config. cbn [p2p_config registry_url set_p2p_config
      set_registry_publish_mode set_registry_url config_new]. unfold cli_p2p.
    by rewrite Hname, Hkeys, Hsmoke, Hpreset, Hport, Hurl.
  - intros w' fs' o. unfold main_network. intros ([v [ik'|]] & _ & H)%bind_Some; [|done].
    apply bind_Some in H as (r & Hc & [= _ _ ->%map_err_Ok]). unfold client_with in Hc.
    destruct (node_start _); [|done]. destruct (sqlite_store_new _ _ _ _ _) as [? [store|]]; [|done].
    by apply build_logos_group_v2 in Hc.
  - intros w' db' o. unfold main_file. destruct t as [t|]; [|done].
    intros ([[w1 db] r] & Ho & [= _ _ ->%map_err_Ok])%bind_Some. unfold open_with_transport in Ho.
    destruct (sqlite_store_new _ _ _ _ _) as [? [store|]]; [|done].
    apply bind_Some in Ho as ([[w2 st] [i|]] & _ & Ho); [|done].
    apply bind_Some in Ho as (r & Hc & [= _ _ ->]). apply build_logos_group_v2 in Hc. rewrite Hc.
    unfold file_config, override_group_v2. destruct (group_v2_override _ _); [done|].
    by destruct (cli_registry_url cli).
Qed.

Context {DL : DalekLaws D} {HWL : HttpWorldLaws W}.

(** A key that was not on disk and is returned was drawn, and is endorsed on
    the server. *)
Lemma install_fresh_endorsed e F fresh drawn text (v v' : BasicFileKeyVault W) ik alias n :
  install (PV := http_provider show_http e) F fresh drawn text v = Some (v', Ok ik) →
  parse_alias text = Ok (alias, n) → fs_files (kv_fs v) !! installation_path v alias n = None →
  ∃ ak, shows_endorsed e (kv_client v') ak (ik_signing_key ik) ∧ ik_account ik = addr_from_key (verifying_key ak).
Proof.
  intros Hi Hp Hnone. destruct (install_cases _ _ _ _ _ _ _ _ _ Hi Hp) as (_ & _ & Hnew & Hok).
  destruct (Hok ik eq_refl) as (k1 & Hf1 & Hacc & Hf2).
  destruct Hnew as [E|(k2 & c0 & s & m & Hf3 & Hsign & Hpub & Hf4)]; [congruence|].
  rewrite Hf1 in Hf3. injection Hf3 as Hk. rewrite Hf2 in Hf4. injection Hf4 as Hd.
  assert (k1 = k2) as <- by (rewrite <- (from_seed_seed k1), <- (from_seed_seed k2); by f_equal).
  assert (ik_signing_key ik = drawn) as ->.
  { rewrite <- (from_seed_seed (ik_signing_key ik)), <- (from_seed_seed drawn). f_equal. rewrite Hd.
    apply take_ge. pose proof (f_equal length Hd) as Hl. rewrite length_take, !seed_length in Hl.
    rewrite seed_length. lia. }
  exists k1. split; [|done]. by eapply endorsement_served.
Qed.

(** A client whose self-check passes is not refused for want of endorsement. *)
Lemma build_logos_endorsed i t registry e w store g why :
  installation_validate (A := http_auth e w) show_http i = Ok () →
  build_logos (T := T) (P := P) (G := G) (K := K) (WS := WS) (W := W) show_http show_chat show_registry ws mls_provider
    budget now_ms i t registry e w store g ≠ Some (Err (ClientErr (ClientError.NotEndorsed why))).
Proof.
  intros Hv. unfold build_logos, build, client_new. destruct g.
  all: cbn [b_registration b_storage b_installation b_auth b_transport b_group_v2 with_group_v2 with_storage with_auth
    with_registration with_transport builder_new component component_given mbind option_bind].
  all: change (auth_of (e, w)) with (http_auth e w); rewrite Hv; cbn [map_err mbind result_bind].
  all: destruct (new_with_name _ _ _ _ _ _) as [c|[]]; done.
Qed.

(** C38. The first start over the network. Whatever fails on the way, lookups
    the server sheds or breaks off among it, a client whose installation key
    was not on disk before is never refused for not being endorsed: the vault
    endorsed the key, on the same server the client checks it against, before
    the client was built, and a lookup that fails is no verdict. *)
Theorem network_start_endorsed node_start tmp F fresh drawn cli (w w' : W) fs fs' r alias n why :
  network node_start tmp F fresh drawn cli w fs = Some (w', fs', r) →
  parse_alias (cli_name cli) = Ok (alias, n) →
  fs_files fs !! installation_path {| kv_dir := vault_dir tmp cli; kv_client := w; kv_fs := fs |} alias n = None →
  r ≠ Err (MainClient (ClientErr (ClientError.NotEndorsed why))).
Proof.
  unfold main_network. intros ([v [ik|]] & Hi & H)%bind_Some Hp Hnone; [|by injection H as <- <- <-].
  destruct (install_fresh_endorsed _ _ _ _ _ _ _ _ _ _ Hi Hp Hnone) as (ak & Hshow & Hacc).
  apply bind_Some in H as (rc & Hc & [= _ _ <-]). intros Hr.
  unfold client_with, network_config in Hc. rewrite override_registry_url, override_p2p_config in Hc.
  cbn [p2p_config registry_url set_p2p_config set_registry_publish_mode set_registry_url config_new] in Hc.
  destruct (node_start _); [|by injection Hc as <-].
  destruct (sqlite_store_new _ _ _ _ _) as [? [store|]]; [|by injection Hc as <-]. cbn [snd] in Hc.
  destruct rc as [|[[]|]]; try done. injection Hr as ->. revert Hc. apply build_logos_endorsed.
  set (e := endpoint_new _) in *. set (i := installation_make _ _).
  pose proof (endorsed_verdict e (kv_client v) ak (ik_signing_key ik) i Hshow eq_refl Hacc) as Hv.
  apply installation_validate_Ok. rewrite Hv. destruct (http_fetch _ _) as [o|err]; [by left|right; eauto].
Qed.
End branches.

(** ** Witnesses *)

(** A server that keeps what is posted. *)
#[local] Instance world_ref : HttpWorld (gmap string (list byte)) := {|
  world_server w := {|
    http_get u _ := match w !! u with
                    | Some b => Ok (whole 200 b)
                    | None => Ok (whole 404 [])
                    end;
    http_post _ _ _ := Ok (whole 201 []) |};
  world_posted w u b := <[u := b]> w;
|}.
#[local] Instance world_ref_laws : HttpWorldLaws (gmap string (list byte)).
Proof. split. intros w u b resp n r _ _. cbn. rewrite lookup_insert_eq. by intros [= <-]. Defined.

Definition demo_endpoint : Endpoint := endpoint_new "http://accounts//".
Abbreviation open_demo := (open_installation (D := dalek_ref)
  (PV := http_provider (HX := hex_ref) (D := dalek_ref) no_text demo_endpoint) no_text).
Definition demo_first := open_demo demo_fresh_key demo_drawn_key LoadOrCreate ∅ memstore_new.
Definition demo_world : gmap string (list byte) :=
  match demo_first with Some (w, _, _) => w | None => ∅ end.
Definition demo_store : MemStore := match demo_first with Some (_, s, _) => s | None => memstore_new end.
Definition demo_minted : Installation (D := dalek_ref) :=
  complete (pending_generate demo_drawn_key) (addr_from_key (verifying_key demo_fresh_key)).
Lemma demo_first_Ok : demo_first = Some (demo_world, demo_store, Ok demo_minted).
Proof. vm_compute. reflexivity. Qed.

Lemma registered_is_valid_witness :
  installation_validate (A := http_auth (HX := hex_ref) (D := dalek_ref) demo_endpoint demo_world) no_text demo_minted
    = Ok ().
Proof.
  destruct (registered_is_valid (DL := dalek_ref_laws) no_text no_text demo_endpoint LoadOrCreate demo_fresh_key
    demo_drawn_key ∅ demo_world memstore_new demo_store demo_minted demo_first_Ok) as (_ & _ & _ & H & _).
  - right. vm_compute. reflexivity.
  - apply H. eexists 0, _. split_and!; [lia|vm_compute; reflexivity|reflexivity|reflexivity|lia].
Defined.

Lemma reopen_same_installation_witness :
  open_demo demo_drawn_key demo_fresh_key LoadOrCreate ∅ demo_store =
    Some (∅, demo_store, Ok (stored_copy demo_minted)).
Proof.
  exact (reopen_same_installation (DL := dalek_ref_laws) no_text no_text demo_endpoint demo_fresh_key demo_drawn_key
    demo_drawn_key demo_fresh_key ∅ demo_world ∅ memstore_new demo_store demo_minted demo_first_Ok).
Defined.

#[local] Instance demls_config_ref : DeMlsConfig :=
  {| GroupV2Config := option GroupV2Timing; group_v2_default := None; with_timing t _ := Some t |}.

Definition demo_cli (g : GroupCommit) (p : RegistryPublishKind) (db : option string) : Cli := {|
  cli_name := "saro:2"; cli_transport := LogosDelivery; cli_group_commit := g; cli_data := ["data"%string];
  cli_keys := ["keys"%string]; cli_db := db; cli_preset := None; cli_port := None; cli_smoketest := false;
  cli_registry_url := Some "http://accounts/"%string; cli_registry_publish := p |}.
Abbreviation network_demo := (main_network (G := ToyGroup) (K := ToyConsensus) (HX := hex_ref) (D := dalek_ref)
  (B := blake_toy) (ML := mls_ref) (DSI := outbox) (RD := display_ref) (B64 := demo_b64) (WR := demo_wire)
  no_text no_text no_text tt (Ok tt) None (λ _ _, Ok ()) (λ _, None) 0%Z (Some 7%N) (λ _, Ok []) ["tmp"%string] no_faults
  demo_fresh_key demo_drawn_key).
Definition demo_network := network_demo (demo_cli AutoCommit PublishHttp None) ∅ {| fs_files := ∅; fs_dirs := ∅ |}.

(** A run that opens a client. *)
Definition opens {X Y E A} (r : option (X * Y * result E A)) : bool :=
  match r with Some (_, _, Ok _) => true | _ => false end.
Lemma demo_network_opens : opens demo_network = true.
Proof. vm_compute. reflexivity. Qed.

Lemma network_ignores_options_witness :
  demo_network = network_demo (demo_cli DefaultCommit PublishDelivery (Some "kept.db"%string)) ∅
    {| fs_files := ∅; fs_dirs := ∅ |} ∧ opens demo_network = true.
Proof.
  split; [|exact demo_network_opens].
  refine (proj1 (network_ignores_options _ _ no_text _ _ _ _ _ _ _ _ _ _ _ _ _
    (demo_cli AutoCommit PublishHttp None) (demo_cli DefaultCommit PublishDelivery (Some "kept.db"%string))
    _ _ new_database (Ok []) demo_fresh_key demo_drawn_key _ _ _ _ _ _)); reflexivity.
Defined.

Lemma network_start_endorsed_witness :
  match demo_network with
  | Some (_, _, r) => r ≠ Err (MainClient (ClientErr (ClientError.NotEndorsed "Invalid")))
  | None => False
  end.
Proof.
  pose proof demo_network_opens as Ho. destruct demo_network as [[[w fs] r]|] eqn:Hn; [|discriminate Ho].
  refine (network_start_endorsed (DL := dalek_ref_laws) _ _ _ _ _ _ _ _ _ _ _ _ _ _ _ _ _ _ _ _ _ "saro" 2%N _ Hn _ _);
    vm_compute; reflexivity.
Defined.
