(* ===== verification/Exchange.v ===== *)
(** * Two clients on one bus ([crates/generic-chat/examples/message-exchange/main.rs])

    The repository's example of a whole exchange, composed of the models of
    its parts: two installations, an in-process bus and a key-package registry
    both clients share, an auth service that knows both accounts, a direct
    conversation opened by account address, and a message each way. The bus
    and the registry are one object behind two handles, so a client is lent
    their current state for the time of a call or of a worker turn and hands
    back what it made of it. Run on the reference instances, the example prints
    both messages; a sender who does not wait for the other side loses its
    first one. *)

From Stdlib Require Import Strings.Byte Strings.String.
From stdpp Require Import base gmap strings numbers list.
From S2P Require Import Prelude Utf8 Hex Ed25519 Context Addr Identity CausalHistory Storage Delivery.
From S2P Require Import Endpoints Registry Services MlsIdentity MlsUtils GroupV1 GroupV3 GroupV2 Convo.
From S2P Require Import Core Installation Client Reference.

(** An endpoint with the bus it shares, as a client's transport. *)
#[export] Instance in_process_delivery : DeliveryService (MessageBus * InProcessDelivery) := {|
  ds_publish t e := let '(b, r) := in_process_publish t.1 t.2 e in ((b, t.2), r);
  ds_subscribe t a := let '(b, r) := in_process_subscribe t.1 t.2 a in ((b, t.2), r);
|}.

(** [EphemeralRegistry] as a client's registration service; it never fails. *)
#[export] Instance ephemeral_registration {HX : Hex} : RegistrationService EphemeralRegistry := {|
  rs_register r i b := (ephemeral_register r (id_signer_key i) b, Ok ());
  rs_retrieve r d := Ok (ephemeral_retrieve r d);
|}.

Section exchange.
Context {HX : Hex} {D : Dalek} {B : Blake2b} {PB : Prost} {PB2 : ProstV2} {TC : TlsCodec}.
Context {P G K : Type} {ML : OpenMls P G} {DM : DeMls P K} {WS : Type} {WSI : WakeupService WS}.
Context {CS : Type} {CSI : ConversationStore CS}.
Context (show_chat : ChatError.t → string) (show_addr : AccountAddrError.t → string).

Abbreviation DS := (MessageBus * InProcessDelivery)%type.
Abbreviation Peer := (Client DS EphemeralRegistry CS P WS (AnyConvo G K)).

(** What the two clients share. *)
Record Shared := { sh_bus : MessageBus; sh_registry : EphemeralRegistry }.

Definition lend (s : Shared) (c : Peer) : Peer :=
  let x := services (cl_core c) in
  with_core c (set_services
    {| cx_ds := (sh_bus s, (cx_ds x).2); cx_registry := sh_registry s; cx_store := cx_store x;
       cx_identity := cx_identity x; cx_provider := cx_provider x; cx_causal := cx_causal x;
       cx_wakeup := cx_wakeup x |} (cl_core c)).
Definition hand_back (c : Peer) : Shared :=
  {| sh_bus := (cx_ds (services (cl_core c))).1; sh_registry := cx_registry (services (cl_core c)) |}.

(** [unwrap]. *)
Definition unwrap {E X} (r : result E X) : option X :=
  match r with Ok x => Some x | Err _ => None end.

(** A client built on the shared bus and registry; [provider] is the MLS
    provider it opens, [storage] its fresh store. *)
Definition join (a : AcceptAllAuth) (i : Installation) (provider : result string P) (storage : CS)
    (ws : WS) (s : Shared) : option (Shared * Peer) :=
  let '(bus, endpoint) := in_process_new (sh_bus s) in
  c ← unwrap (client_new (A := accept_all_auth a) (λ e, e) show_chat i (bus, endpoint)
        (sh_registry s) ws storage provider None);
  Some (hand_back c, c).

(** A call of the application, on what is shared at that moment. *)
Definition calling {X} (call : Core DS EphemeralRegistry CS P WS (AnyConvo G K) →
      Core DS EphemeralRegistry CS P WS (AnyConvo G K) * result ClientFault X)
    (s : Shared) (c : Peer) : option (Shared * Peer * X) :=
  let c := lend s c in
  let '(k, r) := call (cl_core c) in
  x ← unwrap r;
  let c := with_core c k in
  Some (hand_back c, c, x).

(** The calls the example makes, under the accounts registered by then. *)
Definition opening (a : AcceptAllAuth) (account : string) : Shared → Peer → option (Shared * Peer * string) :=
  calling (create_direct_conversation (CO := any_convo (A := accept_all_auth a))
    (CF := any_factory (A := accept_all_auth a)) (A := accept_all_auth a) (λ e, e) show_chat show_addr account).
Definition sending (a : AcceptAllAuth) (convo_id text : string)
  : Shared → Peer → option (Shared * Peer * string) :=
  calling (send_message (CO := any_convo (A := accept_all_auth a))
    (CF := any_factory (A := accept_all_auth a)) show_chat convo_id (str_bytes text)).

(** The worker takes what waits in its channel, a payload a turn; [draw] is
    what it draws at random. *)
Fixpoint working (a : AcceptAllAuth) (draw : list byte * Seed) (fuel : nat) (s : Shared) (c : Peer)
  : Shared * Peer :=
  match fuel, cl_worker c with
  | S fuel, Some budget =>
      match ch_recv (channels (sh_bus s)) (ip_tx (cx_ds (services (cl_core c))).2) with
      | Some (chs, payload) =>
          let bus := {| routes := routes (sh_bus s); channels := chs |} in
          let c := lend {| sh_bus := bus; sh_registry := sh_registry s |} c in
          let '(k, sent, b) := worker_turn (CO := any_convo (A := accept_all_auth a))
            (CF := any_factory (A := accept_all_auth a)) show_chat budget
            (Inbound draw (Some payload)) (cl_core c) in
          let c := {| cl_core := k; cl_events := cl_events c ++ sent; cl_worker := b |} in
          working a draw fuel (hand_back c) c
      | None => (s, c)
      end
  | _, _ => (s, c)
  end.

(** ** The example *)

(** What the example draws: for each side the key of its installation, of its
    account, its store and timer service; the workers' draws, and how many
    payloads a worker takes before its client is next looked at. *)
Record Setup := {
  su_key : Ed25519SigningKey; su_account : Ed25519SigningKey;
  su_provider : result string P; su_storage : CS; su_ws : WS;
}.
Context (draw : list byte * Seed) (fuel : nat).

(** The installation a side runs as. *)
Definition setup_installation (u : Setup) : option Installation :=
  account ← unwrap (test_account_addr (su_account u));
  Some (complete (pending_generate (su_key u)) account).

(** What the printed lines quote: the payload received, when it is text. *)
Definition print_received (e : Event) (out : list string) : option (list string) :=
  match e with
  | MessageReceived _ content _ _ => text ← from_utf8 content; Some (out ++ [text])
  | _ => Some out
  end.

(** [main]; [None] is one of its panics. A receiver is the number of events
    already taken off it. *)
Definition exchange_main (saro raya : Setup) : option (list string) :=
  let s := {| sh_bus := {| routes := ∅; channels := ∅ |}; sh_registry := {| key_packages := ∅ |} |} in
  saro_installation ← setup_installation saro;
  let auth := register accept_all_default saro_installation in
  '(s, c_saro) ← join auth saro_installation (su_provider saro) (su_storage saro) (su_ws saro) s;
  raya_installation ← setup_installation raya;
  let auth := register auth raya_installation in
  '(s, c_raya) ← join auth raya_installation (su_provider raya) (su_storage raya) (su_ws raya) s;
  '(s, c_saro, saro_convo_id) ← opening auth (addr_to_string (inst_account raya_installation)) s c_saro;
  let '(s, c_raya) := working auth draw fuel s c_raya in
  started ← cl_events c_raya !! 0;
  raya_convo_id ← match started with ConversationStarted id _ => Some id | _ => None end;
  '(s, c_saro, _) ← sending auth saro_convo_id "hello raya" s c_saro;
  let '(s, c_raya) := working auth draw fuel s c_raya in
  received ← cl_events c_raya !! 1;
  out ← print_received received [];
  '(s, c_raya, _) ← sending auth raya_convo_id "hi saro" s c_raya;
  let '(s, c_saro) := working auth draw fuel s c_saro in
  received ← cl_events c_saro !! 0;
  out ← print_received received out;
  Some (out ++ ["Message exchange complete."%string]).

(** What Raya is sent when Saro does not wait: the first message goes out
    before her worker has seen the welcome. *)
Definition impatient (saro raya : Setup) : option (list Event) :=
  let s := {| sh_bus := {| routes := ∅; channels := ∅ |}; sh_registry := {| key_packages := ∅ |} |} in
  i_saro ← setup_installation saro;
  i_raya ← setup_installation raya;
  let auth := register (register accept_all_default i_saro) i_raya in
  '(s, c_saro) ← join auth i_saro (su_provider saro) (su_storage saro) (su_ws saro) s;
  '(s, c_raya) ← join auth i_raya (su_provider raya) (su_storage raya) (su_ws raya) s;
  '(s, c_saro, id) ← opening auth (addr_to_string (inst_account i_raya)) s c_saro;
  '(s, c_saro, _) ← sending auth id "hello raya" s c_saro;
  Some (cl_events (working auth draw fuel s c_raya).2).
End exchange.

(** ** A run *)

(** A hash of the right length that tells the messages of a run apart. *)
Definition blake_mix : Blake2b := {|
  blake2b n l := to_le_bytes n
    (fold_left (λ h b, N.land (h * 33 + Byte.to_N b + 1) (N.ones 24)) l 0)%N |}.

Definition no_words {X} (_ : X) : string := "".
Definition demo_setup (key account : byte) : Setup (D := dalek_ref) (P := ()) (CS := MemStore) (WS := ()) :=
  {| su_key := from_seed (D := dalek_ref) (replicate 32 key);
     su_account := from_seed (D := dalek_ref) (replicate 32 account);
     su_provider := Ok (); su_storage := memstore_new; su_ws := () |}.
Section run.
#[local] Existing Instances hex_ref dalek_ref blake_mix prost_ref prost_v2_ref tls_ref mls_ref demls_ref.
#[local] Existing Instances wakeup_ref mem_conversation_store.

(** The example prints both messages and ends. *)
Example exchange_completes :
  exchange_main no_words no_words ([], ()) 8 (demo_setup x05 x06) (demo_setup x07 x08) =
  Some ["hello raya"; "hi saro"; "Message exchange complete."]%string.
Proof. vm_compute. reflexivity. Qed.

(** Why it waits: a message sent before the other side has subscribed is never
    delivered, only the start of the conversation is reported. *)
Example impatient_message_lost :
  (map (λ e, match e with ConversationStarted _ c => Some c | _ => None end)) <$>
    impatient no_words no_words ([], ()) 8 (demo_setup x05 x06) (demo_setup x07 x08) =
  Some [Some Dm].
Proof. vm_compute. reflexivity. Qed.

(** One installation on both sides: opening a conversation with oneself is
    refused, and the example panics there. *)
Example exchange_with_oneself_panics :
  exchange_main no_words no_words ([], ()) 8 (demo_setup x05 x06) (demo_setup x05 x06) = None.
Proof. vm_compute. reflexivity. Qed.
End run.
